(* ===== verification/_CoqProject ===== *)
-Q . S2P
Prelude.v
Text.v
Core.v
External.v
Cbor.v
Schema.v
Graph.v
Ident.v
Claim.v
Cose.v
Ecdsa.v
Report.v
Pipeline.v
PipelineFacts.v
Verdicts.v
Builder.v
Store.v
Resolve.v
Envelope.v
Scitt.v
Policy.v
State.v
Eval.v
Context.v
Combine.v
Api.v
Server.v
Cli.v
Files.v
Commands.v
Port.v
View.v
Explain.v
Help.v
Tour.v
Main.v
