(* ===== verification/Prelude.v ===== *)
(** * A verification of the Proof Engine

    The Proof Engine turns signed statements about events into portable,
    content-addressed proofs, verifies them offline, and decides policies on the
    verified result.  This library models the engine's crates under [src/crates]
    as executable functions and proves what each component promises.  This file
    is the prelude the others share; this comment documents the whole library.

    ** The program and the files that model it

    The data flows from bytes to a decision:

    bytes -- strict CBOR --> values -- schemas --> objects -- pipeline --> report
    -- projection --> state -- policy --> decision.

    - [Text]: what the source uses of Rust's [str] (splitting, lines, trimming,
      lossy decoding), shared by the components that read text.
    - [Core] (proof-core: error.rs, limits.rs, hash.rs, model.rs): stable error
      codes, resource limits, digests and the records of the wire model.
    - [External]: the third-party crates (base64, hex, sha2, ed25519-dalek, p256,
      serde_json) as classes of operations; their documented laws are classes of
      their own, and the module [Toy] has instances that satisfy all of them.
    - [Cbor] (proof-format/cbor.rs): encoder and strict decoder on byte lists.
    - [Schema] (proof-format/schema.rs): one printer and one closed parser per
      object, with the order of the checks kept, so that the error code agrees.
    - [Graph] (proof-graph/lib.rs): edge rules, grounding, the SUPERSEDES chains
      (Kahn) and the three-colour cycle searches, for any hash iteration order.
    - [Ident] (proof-crypto: id.rs, keys.rs, alg.rs, hash.rs), [Claim] (claim.rs)
      and [Cose] (cose.rs, build.rs): content ids, key references, the algorithm
      policy, lifecycle claims, COSE_Sign1 envelopes and the artifact builders;
      [Ecdsa] (the P-256 half of keys.rs and cose.rs) signs with the optional curve.
    - [Report] (proof-verify/report.rs), [Pipeline] (pipeline.rs), [Context]
      (context.rs, status.rs, batch.rs): [verify_proof] stage by stage, its
      inputs, the [StatusSource] trait as a class, and batches.  [PipelineFacts]
      holds the lemmas about the stages, [Verdicts] the theorems about reports.
    - [Builder] (builder.rs), [Store] (proof-format/store.rs and the union store
      of resolve.rs), [Resolve] (resolve.rs): assembling proofs, the
      [ArtifactStore] trait as a class with its laws, and the bounded walk over
      the references of a proof.
    - [Envelope] (both envelope.rs, bundle.rs): artifacts in transit.
    - [Scitt] (proof-adapter-scitt: statement.rs, map.rs): the transparency
      adapter, both directions.
    - [Policy] (proof-policy: policy.rs, expr.rs, lib.rs), [State] (state.rs),
      [Eval] (eval.rs), [Combine] (combine.rs): the policy language, the view of
      a report that policies read, the evaluator, and the one-shot call.
    - [Api] (proof-api/api.rs): the request router with its verify, evaluate and
      ingest handlers, on top of all of the above.
    - [Server] (proof-api: server.rs, main.rs): a connection as the list of results
      of its reads, the head and body loops, framing, counters, the accept loop.
    - [Cli] (proof-cli/lib.rs): the argument parser with its allowlists, the
      accessors, the sanitizer of terminal text.
    - [Files] (artifact.rs and the readers of lib.rs): a command runs in a [World]
      of files, standard input and standard output; wrappers, writers, loaders.
    - [Commands] (check.rs, seen.rs, make.rs): verify, batch-verify, evaluate,
      explain, the replay guardrail, build, init-policy.
    - [Port] (port.rs, store.rs, ingest.rs, commit.rs, id.rs): the file store as an
      instance of the store class, resolve, export, import, convert, compose,
      ingest, commit, id.
    - [View] (inspect.rs, graph.rs, doctor.rs): the views of proofs and artifacts,
      the drawings of their graphs, the checks of the environment.
    - [Explain] (proof-policy/explain.rs, ux.rs, the colours of lib.rs, the JSON
      projections of check.rs and the answers of proof-api/api.rs): the explanation,
      the summary with its two verdicts, the machine-readable reports.
    - [Help] (the texts of lib.rs): the command list, help topics, completion.
    - [Tour] (demo.rs, journey.rs): the demonstration with the files it writes and
      the guided tour with the answers it reads.
    - [Main] (main.rs): help, the table of commands and the exit codes.

    ** Conventions of the model

    [Result<T, ProofError>] is [Result], [?] its bind; a [ProofError] is its
    stable code.  Messages are dropped, except where the code searches them: that
    of an evidence record (the currency tests) and the errors of loading a proof
    (the fallbacks of [verify]).  A command is a function on the [World] with an
    error type, [Cmd]; notes on the standard error are dropped (the summary is a
    definition of its own) and documents that are only rendered are kept as values;
    a rendering that quotes messages takes them as arguments.  Machine integers are
    [N] (or [Z]) with their width written out where an operation can leave it:
    saturating operations of [u64], the [u32] buffer of the base64url loop, the [i64] of negative CBOR integers.  A [String]
    is the string of its bytes, with UTF-8 validity as a predicate where bytes
    become text.  A [HashMap] is a [gmap], a [HashSet] a [gset]; where the source
    iterates one, the order is a parameter of the theorem.  Traits are classes,
    their documented contracts classes of laws that the instances discharge.
    SHA-256 is never assumed injective: a binding theorem ends in "or here are two
    documents with one digest".

    ** Recursion, fuel and bounds

    The CBOR decoder recurses on the nesting levels that are left and the schema
    parsers on the value.  The expression parser recurses on fuel; each nested
    call has spent a node of the budget, so the budget itself is enough and more
    changes nothing.  Loops over explicit queues and stacks carry fuel and return
    [None] without it: [dfs_fuel] (a bound on pushes: nodes and edges) and the
    Kahn loop in [Graph], [bfs_fuel] (the edges of the adjacency map) in [Eval],
    [resolve_fuel] (queued names, the budget and the references that the limits
    allow) in [Resolve].  Each has a theorem that the fuel is enough, so that the
    results are stated for every input: [Verdicts.verify_proof_total],
    [Combine.verify_and_evaluate_total], [Resolve.resolve_exact],
    [Eval.path_searches_exact], [Graph.validate_graph_iff] and, for the whole
    command line, [Main.run_exits].

    ** What the theorems show

    - Verification: each validity of a report is equivalent to a statement about
      the parsed proof and the verifier's inputs; the lifecycle records refine an
      abstract precedence of effects; an ineffective feed never turns a valid verdict
      and, unless it fills a required feed that was empty, changes no verdict and no
      record; every input that is not caller misuse has a report; what does not parse is
      rejected; conflicts and verdicts are exact ([Verdicts]).
    - Decisions: a pass implies a valid proof and a satisfied policy, down to the
      signatures it rests on ([Combine]); the evaluator refines the declarative
      meaning of requirements and the searches find exactly the paths ([Eval]);
      the parser reads exactly the documents that spell well-formed policies, each
      as the policy it spells ([Policy]); a batch is
      its lone runs ([Context]).
    - Formats: the strict decoder and the encoder are inverse ([Cbor]); proofs
      print and parse back ([Schema]); accepted signatures are over canonical
      bytes under an enabled algorithm by the named issuer, and what is built
      verifies ([Cose], [Ecdsa]); a proof id binds its terms ([Ident]); graph validation
      decides its declarative specification ([Graph]).
    - Around the core: honest builds verify, and builds do not depend on the order of
      calls as long as each namespace keeps its first declaration ([Builder]); stored bytes never change ([Store]); resolution names
      exactly the reachable proofs at their shortest distance ([Resolve]); what an
      accepted envelope establishes and what it does not ([Envelope]); a SCITT
      statement survives the mapping in both directions ([Scitt]); every request
      is answered with the status that fits it, an evaluation is the one-shot decision, the currency flag and
      ingestion are exact ([Api]).
    - The server: the answer does not depend on how the network cuts a request whose
      head is no longer than a read buffer, buffers are bounded, counters add up, answers are framed ([Server]).
    - The command line: unknown flags fail closed and printed text is clean
      ([Cli]); artifact files round-trip ([Files]); exit code 0 of verify
      (up to 8 MiB of standard input) and of evaluate means what it says, the
      guardrail's store never loses an entry and a recorded proof that loads is never
      accepted again in its context, what build writes verifies ([Commands]); the file store keeps
      its files whatever is written, a composite is the union of its inputs, verifies, surfaces every
      conflict and does not depend on hash orders, envelopes give files back
      ([Port]); every invocation ends with a documented code, and what is listed,
      has help and runs is the same ([Main]).
    - What people and scripts are told: views and drawings of hostile proofs hold
      no control characters, a Graphviz label never ends early ([View]); an
      explanation states the verdicts in its own lines, whatever it quotes, the JSON reports agree with the
      exit code and with each other, the marks of the summary are those of the
      verdict ([Explain]); the demonstration tells the truth about the files it
      leaves ([Tour]).

    Several theorems describe behaviour that differs from the repository's own
    comments: [Envelope.envelope_signature_unbound],
    [Verdicts.garbage_feed_flips_validity], [Verdicts.canonical_stage_inert],
    [Commands.oversized_stdin_accepted], the second cases of
    [Scitt.scitt_roundtrip] and [Api.evaluate_is_one_shot], and the lemmas
    [Envelope.find_blob_unauthenticated], [Eval.proof_fresh_accepts_future],
    [Api.malformed_revocations_ignored], [Schema.empty_optional_not_reencoded],
    [Cli.documented_flags_refused], [Cli.production_with_value],
    [Cli.short_out_dash], [Server.loopback_prefix_only],
    [Port.unnamed_attestation_refused], [Help.refused_mentions] and
    [Help.overview_leaves_out]; and the examples [View.evidence_view_unclean],
    [View.mermaid_id_collides], [View.mermaid_newline_kept], [Server.long_head_cut],
    [Tour.TourSamples.untampered_refused] and, in [Explain.ExplainSamples],
    [superseded_contradicts], [strict_calls_invalid_historical],
    [indeterminate_unapplied] and [hostile_id_printed].

    ** Not modelled

    The texts of error messages and policy notes, the JSON text of answers and
    documents (the values that are printed are modelled) and the hints on the
    standard error; proof-bench and the example programs, which measure and write
    test vectors; sockets and the file system, of which a connection and a [World]
    are what the code sees; the third-party crates, which are interfaces. *)
From Stdlib Require Import Strings.Byte NArith.
From stdpp Require Export base gmap sets list strings sorting pretty.

Global Open Scope N_scope.
Global Generalizable All Variables.

(** * Results

    Rust's [Result<T, E>] with its [?] operator as the monadic bind. *)

Inductive result (E A : Type) : Type :=
| Ok (a : A)
| Err (e : E).
Arguments Ok {E A} a.
Arguments Err {E A} e.

#[global] Instance result_ret E : MRet (result E) := λ A a, Ok a.
#[global] Instance result_bind E : MBind (result E) := λ A B f m,
  match m with Ok a => f a | Err e => Err e end.
#[global] Instance result_map E : FMap (result E) := λ A B f m,
  match m with Ok a => Ok (f a) | Err e => Err e end.

#[global] Instance result_eq_dec `{EqDecision E, EqDecision A} : EqDecision (result E A).
Proof. solve_decision. Defined.

Definition is_ok {E A} (m : result E A) : bool :=
  match m with Ok _ => true | Err _ => false end.

Definition ok_or {E A} (o : option A) (e : E) : result E A :=
  match o with Some a => Ok a | None => Err e end.

(** Conditional early return: [check b e] is [if !b { return Err(e) }]. *)
Definition check {E} (b : bool) (e : E) : result E unit :=
  if b then Ok tt else Err e.

Section result_lemmas.
Context {E : Type}.

Lemma bind_Ok {A B} (m : result E A) (f : A → result E B) b :
  (m ≫= f) = Ok b ↔ ∃ a, m = Ok a ∧ f a = Ok b.
Proof. destruct m; simpl; naive_solver. Qed.

Lemma bind_Err {A B} (m : result E A) (f : A → result E B) e :
  (m ≫= f) = Err e ↔ m = Err e ∨ ∃ a, m = Ok a ∧ f a = Err e.
Proof. destruct m; simpl; naive_solver. Qed.

Lemma check_Ok b (e : E) u : check b e = Ok u ↔ b = true.
Proof. destruct b, u; simpl; naive_solver. Qed.

Lemma check_Err b (e e' : E) : check b e = Err e' ↔ b = false ∧ e = e'.
Proof. destruct b; simpl; naive_solver. Qed.

Lemma ok_or_Ok {A} (o : option A) (e : E) a : ok_or o e = Ok a ↔ o = Some a.
Proof. destruct o; simpl; naive_solver. Qed.

Lemma mapM_Ok {A B} (f : A → result E B) l k :
  mapM f l = Ok k ↔ Forall2 (λ x y, f x = Ok y) l k.
Proof.
  revert k. induction l as [|x l IH]; intros k.
  - split; [intros [= <-]; constructor | intros H; inversion H; reflexivity].
  - simpl. rewrite bind_Ok. split.
    + intros (y & Hy & Hk). apply bind_Ok in Hk as (ys & Hys & [= <-]).
      constructor; [done | by apply IH].
    + intros H. inversion H as [|? y ? ys Hy Hys]; subst.
      exists y. split; [done|]. apply bind_Ok. exists ys. split; [by apply IH | done].
Qed.
End result_lemmas.

(** [simplify_result] destructs every successful bind in the context. *)
Ltac simplify_result :=
  repeat match goal with
  | _ => progress simplify_eq
  | H : mbind _ _ = Ok _ |- _ =>
      let a := fresh "a" in let Ha := fresh "Ha" in
      apply bind_Ok in H as (a & Ha & H)
  | H : check _ _ = Ok _ |- _ => apply check_Ok in H
  | H : ok_or _ _ = Ok _ |- _ => apply ok_or_Ok in H
  | H : mret _ = Ok _ |- _ => injection H as H
  | H : (let '(_, _) := ?p in _) = Ok _ |- _ =>
      let E := fresh "E" in destruct p eqn:E
  | H : (match ?p with (_, _) => _ end) = Ok _ |- _ =>
      is_var p; destruct p
  end.

(** * Boolean predicates on lists *)

Lemma forallb_Forall {A} (f : A → bool) l :
  forallb f l = true ↔ Forall (λ x, f x = true) l.
Proof. rewrite forallb_forall, Forall_forall. by setoid_rewrite list_elem_of_In. Qed.

Lemma forallb_false {A} (f : A → bool) l :
  forallb f l = false ↔ ∃ x, x ∈ l ∧ f x = false.
Proof.
  induction l as [|x l IH]; simpl; [set_solver|].
  rewrite andb_false_iff, IH. set_solver.
Qed.

Lemma existsb_true {A} (f : A → bool) l :
  existsb f l = true ↔ ∃ x, x ∈ l ∧ f x = true.
Proof. rewrite existsb_exists. by setoid_rewrite list_elem_of_In. Qed.

Lemma existsb_false {A} (f : A → bool) l :
  existsb f l = false ↔ ∀ x, x ∈ l → f x = false.
Proof.
  rewrite <- not_true_iff_false, existsb_true. split.
  - intros H x Hx. destruct (f x) eqn:E; [|done]. exfalso. eauto.
  - intros H (x & Hx & E). specialize (H x Hx). congruence.
Qed.

Lemma map_id_on {A} (f : A → A) l : Forall (λ x, f x = x) l → map f l = l.
Proof. induction 1; simpl; congruence. Qed.

(** * Machine integers and bytes

    [u8], [u64] and [usize] values are [N]; a value of type [Vec<u8>] is a
    [list byte]; a Rust [String] is a Rocq [string], read as the sequence of
    its UTF-8 bytes. *)

Definition u8_max : N := 255.
Definition u16_max : N := 65535.
Definition u32_max : N := 4294967295.
Definition u64_max : N := 18446744073709551615.
(** [usize] on the 64-bit targets the engine is built for. *)
Definition usize_max : N := u64_max.
Definition i64_min : Z := (-9223372036854775808)%Z.
Definition i64_max : Z := 9223372036854775807%Z.

(** [a.saturating_add(b)], [a.saturating_sub(b)] and [a.saturating_mul(b)] on
    [u64]. *)
Definition u64_saturating_add (a b : N) : N := N.min (a + b) u64_max.
Definition u64_saturating_sub (a b : N) : N := a - b.
Definition u64_saturating_mul (a b : N) : N := N.min (a * b) u64_max.

(** Notations of the development live in a scope of their own. *)
Declare Scope engine_scope.
Delimit Scope engine_scope with engine.
Notation "a +sat b" := (u64_saturating_add a b) (at level 50, left associativity) : engine_scope.
Notation "a -sat b" := (u64_saturating_sub a b) (at level 50, left associativity) : engine_scope.
Notation "a *sat b" := (u64_saturating_mul a b) (at level 40, left associativity) : engine_scope.

(** The hints of the development: lengths rewrite, orders resolve. *)
Create HintDb engine.

#[global] Instance byte_eq_dec : EqDecision byte := Byte.byte_eq_dec.

Abbreviation b2n := Byte.to_N.
(** [n as u8]: truncation to the low eight bits. *)
Definition u8 (n : N) : byte :=
  match Byte.of_N (n mod 256) with Some b => b | None => Byte.x00 end.

Lemma b2n_u8 n : b2n (u8 n) = n mod 256.
Proof.
  unfold u8. destruct (Byte.of_N (n mod 256)) as [b|] eqn:E.
  - by apply Byte.to_of_N.
  - apply Byte.of_N_None_iff in E. pose proof (N.mod_lt n 256). lia.
Qed.
Lemma b2n_lt b : b2n b < 256.
Proof. pose proof (Byte.to_N_bounded b). lia. Qed.
Lemma u8_b2n b : u8 (b2n b) = b.
Proof. unfold u8. rewrite N.mod_small by apply b2n_lt. by rewrite Byte.of_to_N. Qed.
Lemma b2n_inj a b : b2n a = b2n b → a = b.
Proof. intros H. by rewrite <- (u8_b2n a), <- (u8_b2n b), H. Qed.
Lemma b2n_u8_small n : n < 256 → b2n (u8 n) = n.
Proof. intros. rewrite b2n_u8. by apply N.mod_small. Qed.

(** [Vec::len] as a [usize]. *)
Definition len {A} (l : list A) : N := N.of_nat (length l).
Lemma len_nil {A} : len (@nil A) = 0.
Proof. done. Qed.
Lemma len_cons {A} (x : A) l : len (x :: l) = len l + 1.
Proof. unfold len. simpl. lia. Qed.
Lemma len_app {A} (l k : list A) : len (l ++ k) = len l + len k.
Proof. unfold len. rewrite length_app. lia. Qed.
Lemma len_map {A B} (f : A → B) l : len (map f l) = len l.
Proof. unfold len. by rewrite length_map. Qed.
#[export] Hint Rewrite @len_nil @len_cons @len_app @len_map : engine.
(** Arithmetic on lengths. *)
Ltac len_lia := autorewrite with engine in *; lia.

(** ** Strings as byte sequences *)

Definition as_bytes (s : string) : list byte := String.list_byte_of_string s.
Definition of_bytes (b : list byte) : string := String.string_of_list_byte b.

Lemma of_as_bytes s : of_bytes (as_bytes s) = s.
Proof. apply String.string_of_list_byte_of_string. Qed.
Lemma as_of_bytes b : as_bytes (of_bytes b) = b.
Proof. apply String.list_byte_of_string_of_list_byte. Qed.
Lemma as_bytes_inj s t : as_bytes s = as_bytes t → s = t.
Proof. intros H. by rewrite <- (of_as_bytes s), <- (of_as_bytes t), H. Qed.

(** [str::len], [str::is_empty]: lengths in bytes. *)
Definition slen (s : string) : N := N.of_nat (String.length s).
Definition sempty (s : string) : bool := bool_decide (s = ""%string).

Lemma slen_as_bytes s : slen s = len (as_bytes s).
Proof.
  unfold slen, len, as_bytes. f_equal. unfold String.list_byte_of_string.
  rewrite length_map. induction s; simpl; auto.
Qed.
Lemma sempty_slen s : sempty s = (slen s =? 0).
Proof. destruct s; done. Qed.

(** ** Big-endian byte strings ([to_be_bytes] / [from_be_bytes]) *)

Fixpoint be_value_acc (acc : N) (l : list byte) : N :=
  match l with
  | [] => acc
  | b :: l' => be_value_acc (256 * acc + b2n b) l'
  end.
Definition from_be_bytes (l : list byte) : N := be_value_acc 0 l.

Fixpoint le_bytes (k : nat) (n : N) : list byte :=
  match k with
  | O => []
  | S k' => u8 n :: le_bytes k' (n / 256)
  end.
Definition to_be_bytes (k : nat) (n : N) : list byte := rev (le_bytes k n).

Lemma length_le_bytes k n : length (le_bytes k n) = k.
Proof. revert n; induction k; simpl; auto. Qed.
Lemma length_to_be_bytes k n : length (to_be_bytes k n) = k.
Proof. unfold to_be_bytes. rewrite length_rev. apply length_le_bytes. Qed.

Lemma be_value_acc_app acc l k :
  be_value_acc acc (l ++ k) = be_value_acc (be_value_acc acc l) k.
Proof. revert acc; induction l; simpl; auto. Qed.

Lemma from_be_bytes_snoc l b : from_be_bytes (l ++ [b]) = 256 * from_be_bytes l + b2n b.
Proof. unfold from_be_bytes. by rewrite be_value_acc_app. Qed.

Lemma from_to_be_bytes k n : n < 256 ^ N.of_nat k → from_be_bytes (to_be_bytes k n) = n.
Proof.
  unfold to_be_bytes. revert n. induction k as [|k IH]; intros n Hn.
  - simpl in Hn. change (256 ^ 0) with 1 in Hn. simpl. unfold from_be_bytes. simpl. lia.
  - simpl. rewrite from_be_bytes_snoc, IH, b2n_u8.
    + pose proof (N.div_mod n 256). lia.
    + apply N.Div0.div_lt_upper_bound. rewrite Nat2N.inj_succ, N.pow_succ_r' in Hn. lia.
Qed.

Lemma from_be_bytes_lt l : from_be_bytes l < 256 ^ N.of_nat (length l).
Proof.
  induction l as [|b l IH] using rev_ind; [done|].
  rewrite from_be_bytes_snoc, length_app. simpl.
  replace (length l + 1)%nat with (S (length l)) by lia.
  rewrite Nat2N.inj_succ, N.pow_succ_r'. pose proof (b2n_lt b). lia.
Qed.

Lemma to_from_be_bytes l : to_be_bytes (length l) (from_be_bytes l) = l.
Proof.
  unfold to_be_bytes. induction l as [|b l IH] using rev_ind; [done|].
  rewrite length_app, from_be_bytes_snoc. simpl.
  replace (length l + 1)%nat with (S (length l)) by lia. simpl.
  pose proof (b2n_lt b).
  replace ((256 * from_be_bytes l + b2n b) / 256) with (from_be_bytes l)
    by (rewrite N.mul_comm, N.div_add_l by lia; rewrite (N.div_small (b2n b)) by lia; lia).
  rewrite IH. do 2 f_equal. apply b2n_inj. rewrite b2n_u8.
  rewrite N.add_comm, N.mul_comm, N.Div0.mod_add, N.mod_small by lia. done.
Qed.

(** * Orders and sorting *)

(** A boolean total order. *)
Class TotalLeb {A} (leb : A → A → bool) : Prop := {
  leb_total x y : leb x y = true ∨ leb y x = true;
  leb_trans x y z : leb x y = true → leb y z = true → leb x z = true;
  leb_antisym x y : leb x y = true → leb y x = true → x = y;
}.

Lemma leb_refl {A} (le : A → A → bool) `{!TotalLeb le} x : le x x = true.
Proof. by destruct (leb_total x x). Qed.

(** Lexicographic order of byte strings ([<[u8] as Ord>::cmp]). *)
Fixpoint bytes_leb (a b : list byte) : bool :=
  match a, b with
  | [], _ => true
  | _ :: _, [] => false
  | x :: a', y :: b' =>
      if b2n x <? b2n y then true
      else if b2n x =? b2n y then bytes_leb a' b' else false
  end.
Definition bytes_ltb (a b : list byte) : bool := negb (bytes_leb b a).

#[global] Instance bytes_leb_total : TotalLeb bytes_leb.
Proof.
  split.
  - intros x. induction x as [|x xs IH]; intros [|y ys]; simpl; auto.
    destruct (N.ltb_spec (b2n x) (b2n y)), (N.eqb_spec (b2n x) (b2n y)),
      (N.ltb_spec (b2n y) (b2n x)), (N.eqb_spec (b2n y) (b2n x)); auto; lia.
  - intros x. induction x as [|x xs IH]; intros [|y ys] [|z zs]; simpl; auto; [done..|].
    destruct (N.ltb_spec (b2n x) (b2n y)), (N.eqb_spec (b2n x) (b2n y)),
      (N.ltb_spec (b2n y) (b2n z)), (N.eqb_spec (b2n y) (b2n z)),
      (N.ltb_spec (b2n x) (b2n z)), (N.eqb_spec (b2n x) (b2n z)); try lia; eauto; done.
  - intros x. induction x as [|x xs IH]; intros [|y ys]; simpl; auto; [done..|].
    destruct (N.ltb_spec (b2n x) (b2n y)), (N.eqb_spec (b2n x) (b2n y)),
      (N.ltb_spec (b2n y) (b2n x)), (N.eqb_spec (b2n y) (b2n x)); try lia; try done.
    intros. f_equal; [by apply b2n_inj | by apply IH].
Qed.

(** [str::cmp] is the order of the UTF-8 bytes. *)
Definition str_leb (s t : string) : bool := bytes_leb (as_bytes s) (as_bytes t).
Definition str_ltb (s t : string) : bool := negb (str_leb t s).

#[export] Hint Extern 1 (TotalLeb _) => apply _ : engine.
#[export] Hint Resolve leb_total leb_trans leb_antisym : engine.
#[global] Instance str_leb_total : TotalLeb str_leb.
Proof.
  unfold str_leb. split.
  - intros; apply leb_total.
  - intros x y z; apply leb_trans.
  - intros x y ??. by apply as_bytes_inj, leb_antisym.
Qed.

(** Stable sort ([slice::sort_by]). A stable sort is determined by its
    input and order, so insertion sort computes the same list. *)
Section sort.
Context {A : Type} (le : A → A → bool).

Fixpoint insert_sorted (x : A) (l : list A) : list A :=
  match l with
  | [] => [x]
  | y :: l' => if le x y then x :: y :: l' else y :: insert_sorted x l'
  end.
Definition sort_by (l : list A) : list A := foldr insert_sorted [] l.

Abbreviation sorted := (StronglySorted (λ x y, le x y = true)).

Lemma insert_sorted_perm x l : insert_sorted x l ≡ₚ x :: l.
Proof.
  induction l as [|y l IH]; simpl; [done|].
  destruct (le x y); [done|]. rewrite IH. by apply perm_swap.
Qed.

Lemma sort_by_perm l : sort_by l ≡ₚ l.
Proof. induction l; simpl; [done|]. by rewrite insert_sorted_perm, IHl. Qed.

Lemma length_sort_by l : length (sort_by l) = length l.
Proof. by rewrite sort_by_perm. Qed.

Lemma insert_sorted_id x l :
  Forall (λ y, le x y = true) l → insert_sorted x l = x :: l.
Proof. destruct 1 as [|y l Hy]; simpl; [done|]. by rewrite Hy. Qed.

Lemma sort_by_id l : sorted l → sort_by l = l.
Proof.
  induction 1 as [|x l Hl IH Hx]; simpl; [done|].
  rewrite IH. by apply insert_sorted_id.
Qed.

Hypothesis le_total : ∀ x y, le x y = true ∨ le y x = true.
Hypothesis le_trans : ∀ x y z, le x y = true → le y z = true → le x z = true.

Lemma insert_sorted_sorted x l : sorted l → sorted (insert_sorted x l).
Proof.
  induction 1 as [|y l Hl IH Hy]; simpl; [repeat constructor|].
  destruct (le x y) eqn:Hxy.
  - constructor; [by constructor|]. constructor; [done|].
    eapply Forall_impl; [exact Hy|]. eauto.
  - constructor; [done|]. rewrite insert_sorted_perm. constructor; [|done].
    destruct (le_total x y); congruence.
Qed.

Lemma sort_by_sorted l : sorted (sort_by l).
Proof. induction l; simpl; [constructor|]. by apply insert_sorted_sorted. Qed.

Lemma sort_by_idemp l : sort_by (sort_by l) = sort_by l.
Proof. apply sort_by_id, sort_by_sorted. Qed.

(** Sorting forgets the input order when no two elements tie. *)
Lemma sorted_perm_unique l k :
  sorted l → sorted k → l ≡ₚ k →
  (∀ x y, x ∈ l → y ∈ l → le x y = true → le y x = true → x = y) → l = k.
Proof.
  intros Hl. revert k. induction Hl as [|x l Hl IH Hx]; intros k Hk Hp Hanti.
  { symmetry. by apply Permutation_nil_l in Hp. }
  destruct Hk as [|y k Hk Hy]; [by apply Permutation_nil_r in Hp|].
  assert (x = y) as <-.
  { assert (x ∈ y :: k) as [->|Hxk]%elem_of_cons by (rewrite <- Hp; left); [done|].
    assert (y ∈ x :: l) as [->|Hyl]%elem_of_cons by (rewrite Hp; left); [done|].
    rewrite Forall_forall in Hx, Hy.
    apply Hanti; [left | by right | by apply Hx | by apply Hy]. }
  f_equal. apply IH; [done | | ].
  - by apply Permutation_cons_inv in Hp.
  - intros; apply Hanti; by try right.
Qed.

Lemma sort_by_unique l k :
  l ≡ₚ k → (∀ x y, x ∈ l → y ∈ l → le x y = true → le y x = true → x = y) →
  sort_by l = sort_by k.
Proof.
  intros Hp Hanti. apply sorted_perm_unique.
  - apply sort_by_sorted.
  - apply sort_by_sorted.
  - by rewrite !sort_by_perm.
  - intros x y. rewrite !sort_by_perm. apply Hanti.
Qed.
End sort.

Lemma sort_by_map {A B} (le : A → A → bool) (le' : B → B → bool) (f : A → B) l :
  (∀ x y, x ∈ l → y ∈ l → le' (f x) (f y) = le x y) →
  sort_by le' (map f l) = map f (sort_by le l).
Proof.
  induction l as [|x l IH]; simpl; intros Hf; [done|].
  rewrite IH by (intros; apply Hf; by right).
  assert (∀ y, y ∈ sort_by le l → le' (f x) (f y) = le x y) as Hx.
  { intros y Hy. rewrite sort_by_perm in Hy. apply Hf; [left | by right]. }
  revert Hx. generalize (sort_by le l) as k. clear.
  induction k as [|y k IH]; simpl; intros Hx; [done|].
  rewrite Hx by left. destruct (le x y); simpl; [done|].
  rewrite IH; [done|]. intros; apply Hx; by right.
Qed.

(** [Vec::dedup]: drop consecutive repetitions. *)
Section dedup.
Context {A : Type} (same : A → A → bool).
Fixpoint dedup_by (l : list A) : list A :=
  match l with
  | [] => []
  | x :: l' =>
      match dedup_by l' with
      | [] => [x]
      | y :: k => if same x y then x :: k else x :: y :: k
      end
  end.
End dedup.

Lemma dedup_by_subset {A} (same : A → A → bool) l x : x ∈ dedup_by same l → x ∈ l.
Proof.
  induction l as [|y l IH]; simpl; [done|].
  destruct (dedup_by same l) as [|z k] eqn:E; [set_solver|]. destruct (same y z); set_solver.
Qed.
Lemma dedup_by_ordered {A} (same : A → A → bool) (R : A → A → Prop) l :
  StronglySorted R l → StronglySorted R (dedup_by same l).
Proof.
  induction 1 as [|x l Hl IH Hx]; simpl; [constructor|]. pose proof (dedup_by_subset same l) as Hsub.
  rewrite Forall_forall in Hx.
  destruct (dedup_by same l) as [|y k]; [by repeat constructor|].
  assert (Forall (R x) (y :: k)) as HF by (apply Forall_forall; auto).
  destruct (same x y); [|by constructor]. apply StronglySorted_inv in IH as [IH _].
  constructor; [done|]. by apply Forall_cons in HF as [_ ?].
Qed.

(** The schema layer compares a list with its sorted, deduplicated copy.  The
    two agree exactly on strictly increasing lists. *)
Section strictly_sorted.
Context {A : Type} `{EqDecision A} (le : A → A → bool) `{!TotalLeb le}.
Abbreviation same := (λ x y : A, bool_decide (x = y)).
Definition strictly (x y : A) : Prop := le x y = true ∧ x ≠ y.

Lemma dedup_by_strict l : StronglySorted strictly l → dedup_by same l = l.
Proof.
  induction 1 as [|x l Hl IH Hx]; simpl; [done|]. rewrite IH.
  destruct Hx as [|y l Hy]; [done|]. rewrite bool_decide_eq_false_2; [done|].
  apply Hy.
Qed.

Lemma dedup_by_elem l x : x ∈ dedup_by same l → x ∈ l.
Proof. apply dedup_by_subset. Qed.

Lemma dedup_by_sorted l :
  StronglySorted (λ x y, le x y = true) l → StronglySorted strictly (dedup_by same l).
Proof.
  induction 1 as [|x l Hl IH Hx]; simpl; [constructor|].
  rewrite Forall_forall in Hx. pose proof (dedup_by_elem l) as Hel.
  destruct (dedup_by same l) as [|z k]; [repeat constructor|].
  apply StronglySorted_cons in IH as [Hz Hk].
  case_bool_decide as Hxz.
  - subst. by constructor.
  - constructor; [by constructor|]. rewrite Forall_forall in Hz.
    assert (le x z = true) as Hle by (apply Hx, Hel; left).
    apply Forall_cons; split; [done|]. apply Forall_forall. intros w Hw.
    destruct (Hz w Hw) as [Hzw Hne]. split; [by eapply leb_trans|].
    intros <-. by apply Hne, leb_antisym.
Qed.

Lemma sort_dedup_strict l :
  dedup_by same (sort_by le l) = l ↔ StronglySorted strictly l.
Proof.
  split.
  - intros <-. apply dedup_by_sorted, sort_by_sorted; [apply leb_total | apply leb_trans].
  - intros H. rewrite sort_by_id; [by apply dedup_by_strict|].
    clear -H. induction H as [|x l Hl IH Hx]; constructor; [done|].
    eapply Forall_impl; [exact Hx|]. by intros ? [].
Qed.
End strictly_sorted.

(** * UTF-8

    [str::from_utf8]: the well-formed byte sequences of the Unicode standard
    (no overlong forms, no surrogates, nothing above U+10FFFF). *)

Definition in_range (lo hi : N) (b : byte) : bool := (lo <=? b2n b) && (b2n b <=? hi).
Definition utf8_tail : byte → bool := in_range 0x80 0xBF.

Fixpoint utf8_valid (l : list byte) : bool :=
  match l with
  | [] => true
  | b0 :: l0 =>
      if b2n b0 <? 0x80 then utf8_valid l0 else
      match l0 with
      | [] => false
      | b1 :: l1 =>
          if in_range 0xC2 0xDF b0 then utf8_tail b1 && utf8_valid l1 else
          match l1 with
          | [] => false
          | b2 :: l2 =>
              if in_range 0xE0 0xEF b0 then
                (if b2n b0 =? 0xE0 then in_range 0xA0 0xBF b1
                 else if b2n b0 =? 0xED then in_range 0x80 0x9F b1
                 else utf8_tail b1) && utf8_tail b2 && utf8_valid l2
              else
              match l2 with
              | [] => false
              | b3 :: l3 =>
                  in_range 0xF0 0xF4 b0 &&
                  (if b2n b0 =? 0xF0 then in_range 0x90 0xBF b1
                   else if b2n b0 =? 0xF4 then in_range 0x80 0x8F b1
                   else utf8_tail b1) && utf8_tail b2 && utf8_tail b3 && utf8_valid l3
              end
          end
      end
  end.

Definition from_utf8 (b : list byte) : option string :=
  if utf8_valid b then Some (of_bytes b) else None.

(** [s.contains(char::is_whitespace)] on a well-formed string, read off the
    UTF-8 encodings of the White_Space code points.  UTF-8 is self-synchronizing,
    so a lead byte only ever starts a character. *)
Definition whitespace_prefix (l : list byte) : bool :=
  match map b2n l with
  | c :: _ => (if (0x09 <=? c) && (c <=? 0x0D) then true else c =? 0x20)
  | [] => false
  end ||
  match map b2n l with
  | 0xC2 :: c :: _ => (c =? 0x85) || (c =? 0xA0)
  | 0xE1 :: 0x9A :: c :: _ => c =? 0x80
  | 0xE2 :: 0x80 :: c :: _ =>
      ((0x80 <=? c) && (c <=? 0x8A)) || (c =? 0xA8) || (c =? 0xA9) || (c =? 0xAF)
  | 0xE2 :: 0x81 :: c :: _ => c =? 0x9F
  | 0xE3 :: 0x80 :: c :: _ => c =? 0x80
  | _ => false
  end.
Fixpoint contains_whitespace_bytes (l : list byte) : bool :=
  match l with
  | [] => false
  | _ :: l' => whitespace_prefix l || contains_whitespace_bytes l'
  end.
Definition contains_whitespace (s : string) : bool := contains_whitespace_bytes (as_bytes s).

(** * String operations *)

(** [s.starts_with(p)] and [s.strip_prefix(p)]. *)
Fixpoint strip_prefix (p s : string) : option string :=
  match p, s with
  | EmptyString, _ => Some s
  | String a p', String b s' => if decide (a = b) then strip_prefix p' s' else None
  | String _ _, EmptyString => None
  end.
Definition starts_with (p s : string) : bool := bool_decide (is_Some (strip_prefix p s)).

Lemma str_app_nil r : EmptyString +:+ r = r.
Proof. done. Qed.
Lemma str_app_cons a p r : String a p +:+ r = String a (p +:+ r).
Proof. done. Qed.

Lemma str_app_assoc a b c : (a +:+ b) +:+ c = a +:+ (b +:+ c).
Proof. induction a as [|x a IH]; rewrite ?str_app_nil, ?str_app_cons; congruence. Qed.
Lemma str_app_inj p s t : p +:+ s = p +:+ t → s = t.
Proof. induction p; rewrite ?str_app_nil, ?str_app_cons; intros; simplify_eq; auto. Qed.

Lemma strip_prefix_Some p s r : strip_prefix p s = Some r ↔ s = p +:+ r.
Proof.
  revert s. induction p as [|a p IH]; intros [|b s]; simpl;
    rewrite ?str_app_nil, ?str_app_cons.
  - split; congruence.
  - split; congruence.
  - split; congruence.
  - case_decide as Hab; [subst; rewrite IH|]; split; congruence.
Qed.
Lemma starts_with_spec p s : starts_with p s = true ↔ ∃ r, s = p +:+ r.
Proof.
  unfold starts_with. rewrite bool_decide_eq_true. unfold is_Some.
  by setoid_rewrite strip_prefix_Some.
Qed.
Lemma strip_prefix_app p r : strip_prefix p (p +:+ r) = Some r.
Proof. by apply strip_prefix_Some. Qed.

(** [s.find(c)], as the text before and after the first occurrence. *)
Fixpoint split_once (c : Ascii.ascii) (s : string) : option (string * string) :=
  match s with
  | EmptyString => None
  | String a s' =>
      if decide (a = c) then Some (EmptyString, s')
      else match split_once c s' with
           | Some (p, r) => Some (String a p, r)
           | None => None
           end
  end.
Definition contains_char (c : Ascii.ascii) (s : string) : bool :=
  bool_decide (is_Some (split_once c s)).

Lemma split_once_Some c s p r :
  split_once c s = Some (p, r) →
  s = p +:+ String c r ∧ contains_char c p = false.
Proof.
  unfold contains_char. revert p r. induction s as [|a s IH]; simpl; intros p r H; [done|].
  case_decide as Hac; simplify_eq; simpl; [done|].
  destruct (split_once c s) as [[p' r']|]; simplify_eq.
  destruct (IH p' r) as [-> Hn]; [done|]. rewrite str_app_cons. split; [done|]. simpl.
  rewrite decide_False by done. apply bool_decide_eq_false in Hn.
  apply bool_decide_eq_false. intros [[q1 q2] Hq].
  destruct (split_once c p') as [[]|]; [apply Hn; by eexists | done].
Qed.

Definition colon : Ascii.ascii := Ascii.ascii_of_N 58.

(** * Standard collections

    [collect::<HashMap<_, _>>]: later pairs win. *)
Section collections.
Context `{Countable K} {V : Type}.
Definition hash_map (l : list (K * V)) : gmap K V := foldl (λ m p, <[p.1 := p.2]> m) ∅ l.

Lemma hash_map_acc_elem (l : list (K * V)) (m : gmap K V) k v :
  foldl (λ m p, <[p.1 := p.2]> m) m l !! k = Some v → (k, v) ∈ l ∨ m !! k = Some v.
Proof.
  revert m. induction l as [|[k' v'] l IH]; intros m Hk; simpl in Hk; [by right|].
  apply IH in Hk as [Hk|Hk]; [left; by right|].
  apply lookup_insert_Some in Hk as [[-> ->]|[_ Hk]]; [left; by left|by right].
Qed.
Lemma hash_map_elem l k v : hash_map l !! k = Some v → (k, v) ∈ l.
Proof. intros [?|Hk]%hash_map_acc_elem; [done|by rewrite lookup_empty in Hk]. Qed.

Lemma hash_map_acc_dom (l : list (K * V)) (m : gmap K V) k :
  is_Some (foldl (λ m p, <[p.1 := p.2]> m) m l !! k) ↔ k ∈ map fst l ∨ is_Some (m !! k).
Proof.
  revert m. induction l as [|[k' v'] l IH]; intros m; simpl; [set_solver|].
  rewrite IH, elem_of_cons, lookup_insert_is_Some'. naive_solver.
Qed.
Lemma hash_map_dom l k : is_Some (hash_map l !! k) ↔ k ∈ map fst l.
Proof.
  unfold hash_map. rewrite hash_map_acc_dom, lookup_empty. split; [intros [?|[? [=]]]; done|by left].
Qed.

(** [entry(k).or_default().push(v)] and [.extend(vs)] on a map of vectors. *)
Definition entry_extend (m : gmap K (list V)) (k : K) (vs : list V) : gmap K (list V) :=
  <[k := default [] (m !! k) ++ vs]> m.

Lemma entry_extend_lookup m k k' vs :
  default [] (entry_extend m k vs !! k') =
  default [] (m !! k') ++ (if decide (k = k') then vs else []).
Proof.
  unfold entry_extend. case_decide as Hk.
  - subst. by rewrite lookup_insert_eq.
  - rewrite lookup_insert_ne by done. by rewrite app_nil_r.
Qed.
End collections.

(** Iteration of a [BTreeMap]: ascending keys. *)
Definition btree_entries {V} `{Countable K} (le : K → K → bool) (m : gmap K V) : list (K * V) :=
  sort_by (λ x y, le x.1 y.1) (map_to_list m).

Lemma btree_entries_elem {V} `{Countable K} (le : K → K → bool) (m : gmap K V) k v :
  (k, v) ∈ btree_entries le m ↔ m !! k = Some v.
Proof. unfold btree_entries. by rewrite sort_by_perm, elem_of_map_to_list. Qed.

(** [BTreeSet<&str>], by its ascending iteration, and [v.sort(); v.dedup()]. *)
Definition sort_dedup (l : list string) : list string :=
  dedup_by (λ x y, bool_decide (x = y)) (sort_by str_leb l).

(** Sorted and deduplicated lists with the same elements are equal. *)
Lemma sort_dedup_elem l x : x ∈ sort_dedup l ↔ x ∈ l.
Proof.
  unfold sort_dedup. rewrite <- (sort_by_perm str_leb l) at 2.
  induction (sort_by str_leb l) as [|y k IH]; simpl; [done|].
  rewrite elem_of_cons, <- IH. destruct (dedup_by _ k) as [|z m]; [set_solver|].
  case_bool_decide; set_solver.
Qed.

Lemma sort_dedup_eq l l' : (∀ x, x ∈ l ↔ x ∈ l') → sort_dedup l = sort_dedup l'.
Proof.
  intros Hel.
  assert (∀ k, StronglySorted (strictly str_leb) (sort_dedup k)) as Hs.
  { intros k. apply dedup_by_sorted; [apply _|]. apply sort_by_sorted; [apply leb_total|apply leb_trans]. }
  assert (∀ k, StronglySorted (strictly str_leb) k →
    NoDup k ∧ StronglySorted (λ x y, str_leb x y = true) k) as Hnd.
  { intros k. induction 1 as [|x k Hk [IH1 IH2] Hx]; [by split; constructor|].
    rewrite Forall_forall in Hx. split; constructor; [|done..|].
    - intros Hin. by destruct (Hx x Hin).
    - apply Forall_forall. intros y Hy. by apply Hx. }
  destruct (Hnd _ (Hs l)) as [Hn1 Hs1], (Hnd _ (Hs l')) as [Hn2 Hs2].
  apply (sorted_perm_unique str_leb); [done..| |].
  - apply NoDup_Permutation; [done..|]. intros x. by rewrite !sort_dedup_elem.
  - intros x y _ _. apply leb_antisym.
Qed.

Lemma sort_dedup_idemp l : sort_dedup (sort_dedup l) = sort_dedup l.
Proof.
  apply sort_dedup_strict; [apply _|]. apply dedup_by_sorted; [apply _|].
  apply sort_by_sorted; [apply leb_total|apply leb_trans].
Qed.

(** Sorting and deduplicating lose no property of the elements. *)
Lemma Forall_normalize {A} (same le : A → A → bool) (P : A → Prop) l :
  Forall P l → Forall P (dedup_by same (sort_by le l)).
Proof.
  rewrite <- (sort_by_perm le l) at 1. induction 1 as [|x k Hx Hk IH]; simpl; [constructor|].
  destruct IH as [|y m Hy Hm]; [by repeat constructor|]. by destruct (same x y); repeat constructor.
Qed.

(** [items.sort_by(|a, b| a.key.cmp(&b.key))] on a text key. *)
Definition by_id {A} (key : A → string) (x y : A) : bool := str_leb (key x) (key y).

(** A stable sort keeps the elements of each key in their order, and is
    determined by that order. *)
Section stable.
Context {A : Type} (key : A → string).
Abbreviation at_key k := (λ x, bool_decide (key x = k)).

Lemma by_id_total x y : by_id key x y = true ∨ by_id key y x = true.
Proof. apply (leb_total (leb := str_leb)). Qed.
Lemma by_id_trans x y z : by_id key x y = true → by_id key y z = true → by_id key x z = true.
Proof. apply (leb_trans (leb := str_leb)). Qed.

Lemma insert_sorted_stable k x l :
  List.filter (at_key k) (insert_sorted (by_id key) x l) = List.filter (at_key k) (x :: l).
Proof.
  induction l as [|y l IH]; simpl; [done|]. destruct (by_id key x y) eqn:Hxy; [done|].
  simpl in *. rewrite IH. case_bool_decide as Hx; case_bool_decide as Hy; [|done..].
  exfalso. unfold by_id in Hxy. rewrite Hx, <- Hy in Hxy.
  destruct (leb_total (leb := str_leb) (key y) (key y)); congruence.
Qed.

Lemma sort_by_stable k l :
  List.filter (at_key k) (sort_by (by_id key) l) = List.filter (at_key k) l.
Proof.
  induction l as [|x l IH]; simpl; [done|]. rewrite insert_sorted_stable. simpl. by rewrite IH.
Qed.

Lemma sorted_by_keys l l' :
  StronglySorted (λ x y, by_id key x y = true) l → StronglySorted (λ x y, by_id key x y = true) l' →
  (∀ k, List.filter (at_key k) l = List.filter (at_key k) l') → l = l'.
Proof.
  intros Hl. revert l'. induction Hl as [|x l Hl IH Hx]; intros l' Hl' Hk.
  { destruct l' as [|y l']; [done|]. specialize (Hk (key y)). simpl in Hk.
    by rewrite bool_decide_eq_true_2 in Hk. }
  destruct Hl' as [|y l' Hl' Hy].
  { specialize (Hk (key x)). simpl in Hk. by rewrite bool_decide_eq_true_2 in Hk. }
  assert (∀ a b m m', Forall (λ z, by_id key a z = true) m →
    List.filter (at_key (key b)) (a :: m) = List.filter (at_key (key b)) (b :: m') →
    str_leb (key a) (key b) = true) as Hle.
  { intros a b m m' Hm Hf. assert (b ∈ List.filter (at_key (key b)) (a :: m)) as Hb.
    { rewrite Hf. simpl. rewrite bool_decide_eq_true_2 by done. left. }
    apply list_elem_of_In, filter_In in Hb as [Hb _]. apply list_elem_of_In in Hb.
    apply elem_of_cons in Hb as [->|Hb]; [by destruct (leb_total (leb := str_leb) (key a) (key a))|].
    rewrite Forall_forall in Hm. by apply Hm. }
  assert (key x = key y) as Hxy.
  { apply (leb_antisym (leb := str_leb)).
    - by eapply Hle, Hk.
    - eapply Hle; [exact Hy|]. symmetry. apply Hk. }
  assert (x = y) as ->.
  { specialize (Hk (key x)). simpl in Hk. by rewrite !bool_decide_eq_true_2 in Hk by done; simplify_eq. }
  f_equal. apply IH; [done|]. intros k. specialize (Hk k). simpl in Hk. by case_bool_decide; simplify_eq.
Qed.

Lemma sort_by_key_eq l l' :
  (∀ k, List.filter (at_key k) l = List.filter (at_key k) l') →
  sort_by (by_id key) l = sort_by (by_id key) l'.
Proof.
  intros Hk. apply sorted_by_keys.
  - apply sort_by_sorted; [apply by_id_total|apply by_id_trans].
  - apply sort_by_sorted; [apply by_id_total|apply by_id_trans].
  - intros k. by rewrite !sort_by_stable.
Qed.

(** Dropping the repetitions of a key from a sorted list keeps the first element of
    each key. *)
Lemma dedup_by_firsts (same : A → A → bool) l k :
  (∀ x y, same x y = bool_decide (key x = key y)) →
  StronglySorted (λ x y, by_id key x y = true) l →
  List.filter (at_key k) (dedup_by same l) = option_list (head (List.filter (at_key k) l)).
Proof.
  intros Hsame. induction 1 as [|x l Hl IH Hx]; [done|].
  destruct l as [|h l]; [simpl; by case_bool_decide|].
  assert (∃ d, dedup_by same (h :: l) = h :: d) as [d Hd].
  { simpl. destruct (dedup_by same l) as [|y d]; [by eexists|]. destruct (same h y); by eexists. }
  change (dedup_by same (x :: h :: l)) with
    (match dedup_by same (h :: l) with [] => [x] | y :: d => if same x y then x :: d else x :: y :: d end).
  rewrite Hd in *. rewrite Hsame.
  destruct (decide (key x = k)) as [Hk|Hk].
  - transitivity [x]; [|cbn [List.filter]; by rewrite (bool_decide_eq_true_2 (key x = k))].
    case_bool_decide as Hxh.
    + cbn [List.filter] in *. rewrite (bool_decide_eq_true_2 (key x = k)) by done.
      rewrite (bool_decide_eq_true_2 (key h = k)) in IH by congruence. by injection IH as ->.
    + assert (List.filter (at_key k) (h :: l) = []) as Hnone.
      { destruct (List.filter (at_key k) (h :: l)) as [|z m] eqn:E; [done|]. exfalso. apply Hxh.
        assert (z ∈ List.filter (at_key k) (h :: l)) as Hz by (rewrite E; left).
        apply list_elem_of_In, filter_In in Hz as [Hz%list_elem_of_In Hzk%bool_decide_eq_true].
        rewrite Forall_forall in Hx. apply (leb_antisym (leb := str_leb)); [apply (Hx h); left|].
        apply StronglySorted_inv in Hl as [_ Hh]. rewrite Forall_forall in Hh.
        apply elem_of_cons in Hz as [->|Hz]; [rewrite Hzk, Hk; by apply (leb_refl str_leb)|].
        rewrite Hk, <- Hzk. by apply Hh. }
      rewrite Hnone in IH. change (List.filter (at_key k) (x :: h :: d)) with
        (if at_key k x then x :: List.filter (at_key k) (h :: d) else List.filter (at_key k) (h :: d)).
      rewrite IH. by rewrite (bool_decide_eq_true_2 (key x = k)).
  - transitivity (List.filter (at_key k) (h :: d)).
    + case_bool_decide as Hxh; cbn [List.filter]; rewrite (bool_decide_eq_false_2 (key x = k)) by done; [|done].
      by rewrite (bool_decide_eq_false_2 (key h = k)) by congruence.
    + rewrite IH. cbn [List.filter]. by rewrite (bool_decide_eq_false_2 (key x = k)).
Qed.
Lemma sort_dedup_by_eq (same : A → A → bool) l l' :
  (∀ x y, same x y = bool_decide (key x = key y)) →
  (∀ k, head (List.filter (at_key k) l) = head (List.filter (at_key k) l')) →
  dedup_by same (sort_by (by_id key) l) = dedup_by same (sort_by (by_id key) l').
Proof.
  intros Hsame Hk.
  assert (∀ l, StronglySorted (λ x y, by_id key x y = true) (sort_by (by_id key) l)) as Hs
    by (intros; apply sort_by_sorted; [apply by_id_total|apply by_id_trans]).
  apply sorted_by_keys; [by apply dedup_by_ordered..|].
  intros k. rewrite !dedup_by_firsts by done. by rewrite !sort_by_stable, Hk.
Qed.

(** Members with different keys may come in any order. *)
Lemma sort_by_perm_eq l l' :
  l ≡ₚ l' → NoDup (map key l) → sort_by (by_id key) l = sort_by (by_id key) l'.
Proof.
  intros Hp Hnd. apply sort_by_unique; [apply by_id_total|apply by_id_trans|done|].
  intros x y Hx Hy H1 H2. assert (key x = key y) as Hk by by apply (leb_antisym (leb := str_leb)).
  apply list_elem_of_lookup in Hx as [i Hi], Hy as [j Hj].
  assert (i = j) as ->; [|congruence].
  eapply (NoDup_lookup _ _ _ (key x) Hnd); rewrite list_lookup_fmap.
  - by rewrite Hi.
  - by rewrite Hj, Hk.
Qed.
End stable.

(** The lexicographic order of tuples and slices. *)
Definition str_pair_leb (a b : string * string) : bool :=
  if bool_decide (a.1 = b.1) then str_leb a.2 b.2 else str_leb a.1 b.1.
Fixpoint list_leb (a b : list string) : bool :=
  match a, b with
  | [], _ => true
  | _ :: _, [] => false
  | x :: a', y :: b' => if bool_decide (x = y) then list_leb a' b' else str_leb x y
  end.

(** [iter().enumerate()] from an index. *)
Fixpoint enumerate_from {A} (i : N) (l : list A) : list (N * A) :=
  match l with [] => [] | x :: l' => (i, x) :: enumerate_from (i + 1) l' end.
Abbreviation enumerate := (enumerate_from 0).
