(* ===== verification/Text.v ===== *)
(** Text: the string operations of the Rust standard library that the request
    router and the command line use.

    Strings are the strings of their UTF-8 bytes; every separator here is ASCII,
    so splitting bytes and splitting characters agree. *)
From Stdlib Require Import Strings.Byte NArith ZArith Lia.
From stdpp Require Import pretty.
From S2P Require Import Prelude.

(** * Text helpers of the standard library *)

(** [str::split(c)]. *)
Fixpoint split_on (c : Ascii.ascii) (s : string) : list string :=
  match s with
  | EmptyString => [""]
  | String a s' =>
      if decide (a = c) then "" :: split_on c s'
      else match split_on c s' with
           | x :: rest => String a x :: rest
           | [] => [String a ""]
           end
  end.
Definition newline : Ascii.ascii := Ascii.ascii_of_N 10.
Definition carriage_return : Ascii.ascii := Ascii.ascii_of_N 13.
Fixpoint strip_carriage_return (s : string) : string :=
  match s with
  | EmptyString => ""
  | String a EmptyString => if decide (a = carriage_return) then "" else s
  | String a s' => String a (strip_carriage_return s')
  end.
(** [str::lines]: a carriage return goes with the newline it precedes, and the
    text after the last newline is a line unless it is empty. *)
Fixpoint lines_of (parts : list string) : list string :=
  match parts with
  | [] => []
  | [final] => if sempty final then [] else [final]
  | line :: parts' => strip_carriage_return line :: lines_of parts'
  end.
Definition lines (s : string) : list string := lines_of (split_on newline s).

(** [str::parse::<u64>]: an optional plus sign and decimal digits, in range. *)
Definition decimal_step (acc : option N) (c : byte) : option N :=
  a ← acc;
  if in_range 0x30 0x39 c then
    let n := a * 10 + (b2n c - 0x30) in if n <=? u64_max then Some n else None
  else None.
Definition parse_u64 (s : string) : option N :=
  match as_bytes s with
  | [] | [Byte.x2b] => None
  | Byte.x2b :: digits => foldl decimal_step (Some 0) digits
  | digits => foldl decimal_step (Some 0) digits
  end.

(** [str::contains]. *)
Fixpoint str_contains (needle s : string) : bool :=
  starts_with needle s ||
  match s with EmptyString => false | String _ s' => str_contains needle s' end.

(** [opt.or_else(|| other)]. *)
Definition or_else {A} (o other : option A) : option A :=
  match o with Some a => Some a | None => other end.

(** [str::trim] on the bytes of a well-formed string: the width of the
    White_Space character at the head, 0 if there is none. *)
Definition whitespace_width (l : list byte) : nat :=
  if whitespace_prefix l then
    match l with
    | c :: _ => if b2n c <? 0x80 then 1%nat else if b2n c <? 0xE0 then 2%nat else 3%nat
    | [] => 0%nat
    end
  else 0%nat.
Fixpoint trim_start_bytes (fuel : nat) (l : list byte) : list byte :=
  match fuel with
  | O => l
  | S fuel => if whitespace_prefix l then trim_start_bytes fuel (drop (whitespace_width l) l) else l
  end.
Definition all_whitespace (l : list byte) : bool := len (trim_start_bytes (length l) l) =? 0.
Fixpoint trim_end_bytes (l : list byte) : list byte :=
  match l with
  | [] => []
  | x :: l' => if all_whitespace l then [] else x :: trim_end_bytes l'
  end.
Definition trim (s : string) : string :=
  let l := as_bytes s in of_bytes (trim_end_bytes (trim_start_bytes (length l) l)).

(** Text without white space at its ends is left alone. *)
Lemma visible_not_whitespace c l :
  0x21 <= b2n c < 0x7F → whitespace_prefix (c :: l) = false.
Proof.
  intros [H1 H2]. unfold whitespace_prefix. cbn [map].
  destruct c; vm_compute in H1, H2; try congruence; reflexivity.
Qed.

Lemma trim_visible s :
  Forall (λ c, 0x21 <= b2n c < 0x7F) (as_bytes s) → trim s = s.
Proof.
  intros HF. transitivity (of_bytes (as_bytes s)); [|apply of_as_bytes].
  unfold trim. cbn zeta. f_equal.
  assert (∀ fuel l, Forall (λ c, 0x21 <= b2n c < 0x7F) l → trim_start_bytes fuel l = l) as Hs.
  { intros fuel l Hl. destruct fuel as [|fuel]; [done|]. simpl.
    destruct Hl as [|c l Hc Hl]; [done|]. by rewrite visible_not_whitespace. }
  rewrite Hs by done. revert HF. generalize (as_bytes s) as text.
  induction 1 as [|c l Hc HF IH]; [done|]. cbn [trim_end_bytes].
  unfold all_whitespace. rewrite Hs by (by constructor). rewrite len_cons.
  rewrite (proj2 (N.eqb_neq _ _)) by lia. by rewrite IH.
Qed.

(** [str::split_whitespace] on the bytes of a well-formed string. *)
Definition flush (word : list byte) : list string :=
  match word with [] => [] | _ => [of_bytes word] end.
Fixpoint words (fuel : nat) (word l : list byte) : list string :=
  match fuel, l with
  | S fuel, c :: l' =>
      if whitespace_prefix l then flush word ++ words fuel [] (drop (whitespace_width l) l)
      else words fuel (word ++ [c]) l'
  | _, _ => flush word
  end.
Definition split_whitespace (s : string) : list string :=
  words (length (as_bytes s)) [] (as_bytes s).

(** [split_once] finds the first occurrence. *)
Lemma split_once_app c p r :
  contains_char c p = false → split_once c (p +:+ String c r) = Some (p, r).
Proof.
  unfold contains_char. intros Hn. apply bool_decide_eq_false in Hn. revert Hn.
  induction p as [|a p IH]; intros Hn.
  - rewrite str_app_nil. simpl. by rewrite decide_True.
  - rewrite str_app_cons. simpl in *. case_decide as Hac; [destruct Hn; by eexists|].
    rewrite IH; [done|]. intros [[q1 q2] Hq]. rewrite Hq in Hn. destruct Hn. by eexists.
Qed.

(** [String::from_utf8_lossy]: well-formed characters are kept, and each maximal
    beginning of a character that is not completed becomes U+FFFD. *)
Definition replacement : list byte := [Byte.xef; Byte.xbf; Byte.xbd].
Definition utf8_second (b0 b1 : byte) : bool :=
  if b2n b0 =? 0xE0 then in_range 0xA0 0xBF b1
  else if b2n b0 =? 0xED then in_range 0x80 0x9F b1
  else if b2n b0 =? 0xF0 then in_range 0x90 0xBF b1
  else if b2n b0 =? 0xF4 then in_range 0x80 0x8F b1
  else utf8_tail b1.
Fixpoint lossy_bytes (l : list byte) : list byte :=
  match l with
  | [] => []
  | b0 :: l0 =>
      if b2n b0 <? 0x80 then b0 :: lossy_bytes l0
      else if negb (in_range 0xC2 0xF4 b0) then replacement ++ lossy_bytes l0 else
      match l0 with
      | [] => replacement
      | b1 :: l1 =>
          if negb (utf8_second b0 b1) then replacement ++ lossy_bytes l0
          else if in_range 0xC2 0xDF b0 then b0 :: b1 :: lossy_bytes l1 else
          match l1 with
          | [] => replacement
          | b2 :: l2 =>
              if negb (utf8_tail b2) then replacement ++ lossy_bytes l1
              else if in_range 0xE0 0xEF b0 then b0 :: b1 :: b2 :: lossy_bytes l2 else
              match l2 with
              | [] => replacement
              | b3 :: l3 =>
                  if negb (utf8_tail b3) then replacement ++ lossy_bytes l2
                  else b0 :: b1 :: b2 :: b3 :: lossy_bytes l3
              end
          end
      end
  end.
Definition from_utf8_lossy (b : list byte) : string := of_bytes (lossy_bytes b).

(** Which of the four lengths the lead byte announces. *)
Lemma lead_byte b0 :
  0x80 <= b2n b0 →
  (in_range 0xC2 0xF4 b0 = false ∧ in_range 0xC2 0xDF b0 = false ∧
     in_range 0xE0 0xEF b0 = false ∧ in_range 0xF0 0xF4 b0 = false) ∨
  (in_range 0xC2 0xF4 b0 = true ∧ in_range 0xC2 0xDF b0 = true ∧
     ∀ b1, utf8_second b0 b1 = utf8_tail b1) ∨
  (in_range 0xC2 0xF4 b0 = true ∧ in_range 0xC2 0xDF b0 = false ∧ in_range 0xE0 0xEF b0 = true ∧
     ∀ b1, utf8_second b0 b1 = (if b2n b0 =? 0xE0 then in_range 0xA0 0xBF b1
       else if b2n b0 =? 0xED then in_range 0x80 0x9F b1 else utf8_tail b1)) ∨
  (in_range 0xC2 0xF4 b0 = true ∧ in_range 0xC2 0xDF b0 = false ∧ in_range 0xE0 0xEF b0 = false ∧
     in_range 0xF0 0xF4 b0 = true ∧
     ∀ b1, utf8_second b0 b1 = (if b2n b0 =? 0xF0 then in_range 0x90 0xBF b1
       else if b2n b0 =? 0xF4 then in_range 0x80 0x8F b1 else utf8_tail b1)).
Proof.
  intros Hb. destruct b0; vm_compute in Hb; try congruence.
  all: first [left; split_and!; reflexivity|right; left; split_and!; reflexivity
    |right; right; left; split_and!; reflexivity|right; right; right; split_and!; reflexivity].
Qed.

(** Well-formed text is kept as it is. *)
Lemma lossy_valid l : utf8_valid l = true → lossy_bytes l = l.
Proof.
  remember (length l) as n eqn:Hn. revert l Hn. induction n as [n IH] using lt_wf_ind. intros l ->.
  destruct l as [|b0 l0]; [done|]. cbn [utf8_valid lossy_bytes].
  destruct (N.ltb_spec (b2n b0) 0x80) as [_|Hb]; [intros; f_equal; eapply IH; [|reflexivity|done]; cbn; lia|].
  destruct (lead_byte b0 Hb) as [(-> & -> & -> & ->)|[(-> & -> & Hs)|[(-> & -> & -> & Hs)|(-> & -> & -> & -> & Hs)]]];
    destruct l0 as [|b1 l1]; cbn [negb andb]; try done; try (by destruct l1 as [|? [|? ?]]).
  - rewrite Hs. intros [-> Hv]%andb_true_iff. cbn [negb]. do 2 f_equal. eapply IH; [|reflexivity|done]; cbn; lia.
  - destruct l1 as [|b2 l2]; [done|]. rewrite Hs.
    intros [[-> ->]%andb_true_iff Hv]%andb_true_iff. cbn [negb]. do 3 f_equal. eapply IH; [|reflexivity|done]; cbn; lia.
  - destruct l1 as [|b2 [|b3 l3]]; [done..|]. rewrite Hs. cbn [andb].
    intros [[[-> ->]%andb_true_iff ->]%andb_true_iff Hv]%andb_true_iff. cbn [negb].
    do 4 f_equal. eapply IH; [|reflexivity|done]; cbn; lia.
Qed.

Lemma from_utf8_lossy_valid s : utf8_valid (as_bytes s) = true → from_utf8_lossy (as_bytes s) = s.
Proof. intros Hv. unfold from_utf8_lossy. rewrite lossy_valid by done. apply of_as_bytes. Qed.

(** * Decimal text *)

(** Decimal digits only. *)
Definition decimal (s : string) : Prop := Forall (λ c, in_range 0x30 0x39 c = true) (as_bytes s).

Lemma as_bytes_cons a s : as_bytes (String a s) = Ascii.byte_of_ascii a :: as_bytes s.
Proof. done. Qed.

Lemma as_bytes_app s t : as_bytes (s +:+ t) = as_bytes s ++ as_bytes t.
Proof. induction s as [|a s IH]; [done|]. rewrite str_app_cons, !as_bytes_cons. by rewrite IH. Qed.

Lemma pretty_char_digit n :
  n < 10 → in_range 0x30 0x39 (Ascii.byte_of_ascii (pretty_N_char n)) = true ∧
    b2n (Ascii.byte_of_ascii (pretty_N_char n)) - 0x30 = n.
Proof.
  intros Hn. assert (n = 0 ∨ n = 1 ∨ n = 2 ∨ n = 3 ∨ n = 4 ∨ n = 5 ∨ n = 6 ∨ n = 7 ∨ n = 8 ∨ n = 9)
    as Hc by lia.
  repeat (destruct Hc as [->|Hc]; [by vm_compute|]). subst n. by vm_compute.
Qed.

Lemma pretty_go_decimal x s : decimal s → decimal (pretty_N_go x s).
Proof.
  revert s. induction (N.lt_wf_0 x) as [x _ IH]; intros s Hs.
  destruct (decide (x = 0)) as [->|Hx]; [by rewrite pretty_N_go_0|].
  rewrite pretty_N_go_step by lia. apply IH; [apply N.div_lt; lia|].
  unfold decimal. rewrite as_bytes_cons. constructor; [|done]. by apply pretty_char_digit, N.mod_lt.
Qed.

Lemma pretty_decimal (n : N) : decimal (pretty n).
Proof.
  unfold pretty, pretty_N. case_decide; [by repeat constructor|]. apply pretty_go_decimal. constructor.
Qed.

Lemma pretty_go_value x s :
  x <= u64_max →
  foldl decimal_step (Some 0) (as_bytes (pretty_N_go x s)) = foldl decimal_step (Some x) (as_bytes s).
Proof.
  revert s. induction (N.lt_wf_0 x) as [x _ IH]; intros s Hle.
  destruct (decide (x = 0)) as [->|Hx]; [by rewrite pretty_N_go_0|].
  rewrite pretty_N_go_step by lia. assert (x / 10 < x) by (apply N.div_lt; lia).
  rewrite IH by lia. rewrite as_bytes_cons. cbn [foldl]. f_equal. unfold decimal_step.
  cbn [mbind option_bind]. destruct (pretty_char_digit (x mod 10)) as [-> ->]; [by apply N.mod_lt|].
  replace (x / 10 * 10 + x mod 10) with x by (rewrite (N.div_mod x 10) at 1; lia).
  by rewrite (proj2 (N.leb_le _ _) Hle).
Qed.

(** What [format!] prints of a [u64] is read back by [parse]. *)
Lemma parse_u64_pretty (n : N) : n <= u64_max → parse_u64 (pretty n) = Some n.
Proof.
  intros Hn. pose proof (pretty_decimal n) as Hd.
  assert (foldl decimal_step (Some 0) (as_bytes (pretty n)) = Some n) as Hv.
  { unfold pretty, pretty_N. case_decide as Hz; [by subst|]. by rewrite pretty_go_value. }
  unfold parse_u64, decimal in *. destruct (as_bytes (pretty n)) as [|c l] eqn:Hb.
  - exfalso. revert Hb. unfold pretty, pretty_N. case_decide as Hz; [done|].
    rewrite pretty_N_go_step by lia. generalize (pretty_N_char (n mod 10)) as c. generalize "" as s.
    induction (N.lt_wf_0 (n / 10)) as [x _ IH]; intros s c.
    destruct (decide (x = 0)) as [->|Hx]; [by rewrite pretty_N_go_0|].
    rewrite pretty_N_go_step by lia. apply IH. apply N.div_lt; lia.
  - apply Forall_cons in Hd as [Hc Hd]. destruct c; try done; by destruct l.
Qed.

(** Text without the separator is kept together by [split]. *)
Lemma split_on_app c p s x r :
  contains_char c p = false → split_on c s = x :: r → split_on c (p +:+ s) = (p +:+ x) :: r.
Proof.
  unfold contains_char. intros Hp%bool_decide_eq_false Hs. revert Hp.
  induction p as [|a p IH]; intros Hp; [by rewrite !str_app_nil|].
  rewrite !str_app_cons. cbn [split_on split_once] in *. case_decide; [destruct Hp; by eexists|].
  rewrite IH; [done|]. intros [[q q'] Hq]. rewrite Hq in Hp. destruct Hp. by eexists.
Qed.

Lemma contains_char_app c p q :
  contains_char c p = false → contains_char c q = false → contains_char c (p +:+ q) = false.
Proof.
  unfold contains_char. intros Hp%bool_decide_eq_false Hq. revert Hp.
  induction p as [|a p IH]; intros Hp; [by rewrite str_app_nil|]. rewrite str_app_cons.
  cbn [split_once] in *. case_decide; [destruct Hp; by eexists|].
  assert (¬ is_Some (split_once c p)) as Hn.
  { intros [[x y] Hx]. rewrite Hx in Hp. destruct Hp. by eexists. }
  specialize (IH Hn). apply bool_decide_eq_false in IH. apply bool_decide_eq_false.
  apply eq_None_not_Some in IH. rewrite IH. by intros [? ?].
Qed.

Lemma decimal_no_char c d :
  decimal d → in_range 0x30 0x39 (Ascii.byte_of_ascii c) = false → contains_char c d = false.
Proof.
  intros Hd Hc. unfold contains_char. apply bool_decide_eq_false, eq_None_not_Some.
  induction d as [|a d IH]; [done|]. unfold decimal in Hd. rewrite as_bytes_cons in Hd.
  apply Forall_cons in Hd as [Ha Hd]. cbn [split_once]. rewrite decide_False by congruence.
  by rewrite IH.
Qed.

Lemma strip_carriage_return_app s : strip_carriage_return (s +:+ String carriage_return "") = s.
Proof.
  induction s as [|a s IH]; [done|]. rewrite str_app_cons. cbn [strip_carriage_return].
  rewrite IH. destruct s; done.
Qed.
