(* ===== verification/Core.v ===== *)
(** Core: the domain types of [proof-core].

    Error codes and the [ProofError] they are raised as, the resource limits,
    hash references and the record types of the wire model (events,
    attestations, evidence, relationships, propositions, proofs), translated
    from [crates/proof-core/src/{error,limits,hash,model}.rs].

    A [ProofError] is its stable code: the source documents the message text as
    free to change, and no decision of the engine reads it.  [u8], [u64] and
    [usize] fields are [N]; the open vocabularies ([EventType], [EvidenceKind],
    [RelType]) are newtypes over [String], modelled by the string itself. *)
From S2P Require Import Prelude.


(** * Error codes (error.rs) *)

Module ErrorCode.
Inductive t : Set :=
| NonCanonical | DuplicateMapKey | ForbiddenCborConstruct | IdMismatch
| SignatureInvalid | UnknownAlgorithm | DeprecatedAlgorithm
| UnsupportedVersion | LimitExceeded | Malformed | InvalidBase64Url
| UnexpectedHeaderParam | AlgorithmConfusion | SchemaViolation
| RelationshipUngrounded | DanglingReference | CycleDetected
| PolicyInvalid | Expired | Revoked | RevocationUnknown
| UnauthorizedStatus | Withdrawn | Compromised.

#[global] Instance eq_dec : EqDecision t.
Proof. solve_decision. Defined.

(** [ErrorCode::as_str]: the stable wire string. *)
Definition as_str (c : t) : string :=
  match c with
  | NonCanonical => "NON_CANONICAL"
  | DuplicateMapKey => "DUPLICATE_MAP_KEY"
  | ForbiddenCborConstruct => "FORBIDDEN_CBOR_CONSTRUCT"
  | IdMismatch => "ID_MISMATCH"
  | SignatureInvalid => "SIGNATURE_INVALID"
  | UnknownAlgorithm => "UNKNOWN_ALGORITHM"
  | DeprecatedAlgorithm => "DEPRECATED_ALGORITHM"
  | UnsupportedVersion => "UNSUPPORTED_VERSION"
  | LimitExceeded => "LIMIT_EXCEEDED"
  | Malformed => "MALFORMED"
  | InvalidBase64Url => "INVALID_BASE64URL"
  | UnexpectedHeaderParam => "UNEXPECTED_HEADER_PARAM"
  | AlgorithmConfusion => "ALGORITHM_CONFUSION"
  | SchemaViolation => "SCHEMA_VIOLATION"
  | RelationshipUngrounded => "RELATIONSHIP_UNGROUNDED"
  | DanglingReference => "DANGLING_REFERENCE"
  | CycleDetected => "CYCLE_DETECTED"
  | PolicyInvalid => "POLICY_INVALID"
  | Expired => "EXPIRED"
  | Revoked => "REVOKED"
  | RevocationUnknown => "REVOCATION_UNKNOWN"
  | UnauthorizedStatus => "UNAUTHORIZED_STATUS"
  | Withdrawn => "WITHDRAWN"
  | Compromised => "COMPROMISED"
  end.

Lemma as_str_inj c d : as_str c = as_str d → c = d.
Proof. destruct c, d; solve [done | discriminate]. Qed.
End ErrorCode.

(** [Result<A, ProofError>], keeping the code of the error. *)
Abbreviation ProofError := ErrorCode.t.
Abbreviation Result := (result ErrorCode.t).

(** * Resource limits (limits.rs) *)

Record Limits : Set := {
  max_proof_size : N;
  max_field_size : N;
  max_depth : N;
  max_array_items : N;
  max_map_entries : N;
  max_evidence_items : N;
  max_nodes : N;
  max_edges : N;
  max_sig_size : N;
  max_policy_requirements : N;
  max_status_objects : N;
  max_trusted_issuers : N;
  max_revocation_authorities : N;
  max_referenced_proofs : N;
  max_vocabularies : N;
}.

(** [Limits::default]. *)
Definition default_limits : Limits := {|
  max_proof_size := 1024 * 1024;
  max_field_size := 64 * 1024;
  max_depth := 16;
  max_array_items := 256;
  max_map_entries := 64;
  max_evidence_items := 64;
  max_nodes := 128;
  max_edges := 256;
  max_sig_size := 256;
  max_policy_requirements := 32;
  max_status_objects := 64;
  max_trusted_issuers := 32;
  max_revocation_authorities := 16;
  max_referenced_proofs := 16;
  max_vocabularies := 16;
|}.

(** The (got, max) pairs of [Limits::checked], in source order. *)
Definition limit_pairs (l : Limits) : list (N * N) :=
  let d := default_limits in
  [ (max_proof_size l, max_proof_size d);
    (max_field_size l, max_field_size d);
    (max_depth l, max_depth d);
    (max_array_items l, max_array_items d);
    (max_map_entries l, max_map_entries d);
    (max_evidence_items l, max_evidence_items d);
    (max_nodes l, max_nodes d);
    (max_edges l, max_edges d);
    (max_sig_size l, max_sig_size d);
    (max_policy_requirements l, max_policy_requirements d);
    (max_status_objects l, max_status_objects d);
    (max_trusted_issuers l, max_trusted_issuers d);
    (max_revocation_authorities l, max_revocation_authorities d);
    (max_referenced_proofs l, max_referenced_proofs d);
    (max_vocabularies l, max_vocabularies d) ].

(** [Limits::checked]: non-zero and downward-only. *)
Definition checked (l : Limits) : Result Limits :=
  (fix go (ps : list (N * N)) : Result Limits :=
     match ps with
     | [] => Ok l
     | (got, mx) :: ps' =>
         if (got =? 0) || (mx <? got) then Err ErrorCode.LimitExceeded else go ps'
     end) (limit_pairs l).

(** Every limit is a [usize]. *)
Definition limits_wf (l : Limits) : bool :=
  forallb (λ p, p.1 <=? usize_max) (limit_pairs l).

Lemma checked_spec l :
  checked l = if forallb (λ p, (1 <=? p.1) && (p.1 <=? p.2)) (limit_pairs l)
              then Ok l else Err ErrorCode.LimitExceeded.
Proof.
  unfold checked. generalize (limit_pairs l) as ps.
  induction ps as [|[got mx] ps IH]; simpl; [done|]. rewrite IH.
  destruct (N.eqb_spec got 0), (N.ltb_spec mx got), (N.leb_spec 1 got), (N.leb_spec got mx);
    simpl; try done; lia.
Qed.

Lemma checked_wf l l' : checked l = Ok l' → limits_wf l = true.
Proof.
  rewrite checked_spec. unfold limits_wf. destruct (forallb _ _) eqn:E; [|done]. intros _.
  unfold limit_pairs in *. simpl in *.
  repeat (apply andb_true_iff in E as [? E]).
  repeat (apply andb_true_iff; split); [..|done];
    match goal with |- (?a <=? _) = true =>
      match goal with H : (1 <=? a) && (a <=? _) = true |- _ =>
        apply andb_true_iff in H as [_ H]; apply N.leb_le in H;
        apply N.leb_le; unfold usize_max, u64_max; lia end end.
Qed.

(** * Hash references (hash.rs) *)

Module HashAlgorithm.
Inductive t : Set := Sha256 | Sha384.
#[global] Instance eq_dec : EqDecision t.
Proof. solve_decision. Defined.

Definition cbor_enum (a : t) : N := match a with Sha256 => 0 | Sha384 => 1 end.
Definition from_cbor_enum (v : N) : Result t :=
  match v with
  | 0 => Ok Sha256
  | 1 => Ok Sha384
  | _ => Err ErrorCode.UnknownAlgorithm
  end.
Definition name (a : t) : string :=
  match a with Sha256 => "sha-256" | Sha384 => "sha-384" end.
Definition from_name (s : string) : Result t :=
  if bool_decide (s = "sha-256") then Ok Sha256
  else if bool_decide (s = "sha-384") then Ok Sha384
  else Err ErrorCode.UnknownAlgorithm.
Definition digest_len (a : t) : N := match a with Sha256 => 32 | Sha384 => 48 end.

Lemma from_cbor_enum_Ok n a : from_cbor_enum n = Ok a ↔ n = cbor_enum a.
Proof. unfold from_cbor_enum. destruct n as [|[]], a; simpl; split; intros; simplify_eq; done. Qed.
End HashAlgorithm.

Record HashRef : Set := mkHashRef {
  hr_v : N;
  hr_alg : HashAlgorithm.t;
  hr_digest : list Byte.byte;
}.
#[global] Instance HashRef_eq_dec : EqDecision HashRef.
Proof. solve_decision. Defined.

(** [HashRef::new]: the digest length is bound to the algorithm. *)
Definition HashRef_new (alg : HashAlgorithm.t) (digest : list Byte.byte) : Result HashRef :=
  if negb (len digest =? HashAlgorithm.digest_len alg)
  then Err ErrorCode.Malformed
  else Ok {| hr_v := 1; hr_alg := alg; hr_digest := digest |}.

(** * Wire model (model.rs) *)

Module EventType.
Definition t : Set := string.
Definition PAYMENT_CREATED := "payment.created".
Definition PAYMENT_COMPLETED := "payment.completed".
Definition INVOICE_ISSUED := "invoice.issued".
Definition DOCUMENT_SIGNED := "document.signed".
Definition PACKAGE_SHIPPED := "package.shipped".
Definition SENSOR_MEASUREMENT_RECORDED := "sensor.measurement.recorded".
Definition AI_ACTION_EXECUTED := "ai.action.executed".
Definition is_well_known (s : t) : bool :=
  bool_decide (s ∈ [PAYMENT_CREATED; PAYMENT_COMPLETED; INVOICE_ISSUED; DOCUMENT_SIGNED;
                    PACKAGE_SHIPPED; SENSOR_MEASUREMENT_RECORDED; AI_ACTION_EXECUTED]).
End EventType.

Module EvidenceKind.
Definition t : Set := string.
Definition SIGNED_EVENT := "signed_event".
Definition SIGNED_DOCUMENT := "signed_document".
Definition RECEIPT := "receipt".
Definition CREDENTIAL := "credential".
Definition MEASUREMENT := "measurement".
Definition TRANSACTION_RECORD := "transaction_record".
Definition TRANSPARENCY_RECEIPT := "transparency_receipt".
Definition TRANSPARENCY_REGISTRATION := "transparency_registration".
Definition TRANSPARENCY_CHECKPOINT := "transparency_checkpoint".
Definition DEVICE_ATTESTATION := "device_attestation".
Definition EXTERNAL_REFERENCE := "external_reference".
Definition is_well_known (s : t) : bool :=
  bool_decide (s ∈ [SIGNED_EVENT; SIGNED_DOCUMENT; RECEIPT; CREDENTIAL; MEASUREMENT;
                    TRANSACTION_RECORD; TRANSPARENCY_RECEIPT; TRANSPARENCY_REGISTRATION;
                    TRANSPARENCY_CHECKPOINT; DEVICE_ATTESTATION; EXTERNAL_REFERENCE]).
End EvidenceKind.

Module RelType.
Definition t : Set := string.
Definition OWNS := "OWNS".
Definition CREATED := "CREATED".
Definition SETTLES := "SETTLES".
Definition REFERENCES := "REFERENCES".
Definition CONTAINS := "CONTAINS".
Definition PRODUCED := "PRODUCED".
Definition EXECUTED := "EXECUTED".
Definition ISSUED := "ISSUED".
Definition SUPERSEDES := "SUPERSEDES".
Definition REVOKES := "REVOKES".
Definition EQUIVALENT := "EQUIVALENT".
Definition CONTRADICTS := "CONTRADICTS".
(** Trust-relevant edge types, which must carry backing evidence. *)
Definition requires_grounding (s : t) : bool :=
  bool_decide (s ∈ [OWNS; CREATED; SETTLES; EXECUTED; EQUIVALENT; CONTRADICTS]).
Definition is_well_known (s : t) : bool :=
  bool_decide (s ∈ [OWNS; CREATED; SETTLES; REFERENCES; CONTAINS; PRODUCED; EXECUTED; ISSUED;
                    SUPERSEDES; REVOKES; EQUIVALENT; CONTRADICTS]).
End RelType.

Inductive MetaValue : Set :=
| MText (s : string)
| MUint (n : N)
| MBool (b : bool).
#[global] Instance MetaValue_eq_dec : EqDecision MetaValue.
Proof. solve_decision. Defined.

Record EventContent : Set := mkEvent {
  ev_v : N;
  ev_type : EventType.t;
  ev_subject : string;
  ev_effective_at : N;
  ev_payload_ref : HashRef;
  ev_metadata : list (string * MetaValue);
}.
#[global] Instance EventContent_eq_dec : EqDecision EventContent.
Proof. unfold EventType.t. solve_decision. Defined.

Record Claim : Set := mkClaim {
  claim_type : string;
  claim_fields : list (string * MetaValue);
}.
#[global] Instance Claim_eq_dec : EqDecision Claim.
Proof. solve_decision. Defined.

Record AttestationContent : Set := mkAtt {
  att_v : N;
  att_issuer : string;
  att_subject : string;
  att_claim : Claim;
  att_issued_at : N;
  att_expires_at : option N;
  att_evidence_ref : option string;
}.
#[global] Instance AttestationContent_eq_dec : EqDecision AttestationContent.
Proof. solve_decision. Defined.

Record Evidence : Set := mkEvidence {
  evd_v : N;
  evd_kind : EvidenceKind.t;
  evd_digest : HashRef;
  evd_attestation_ref : option string;
  evd_hint : option string;
}.
#[global] Instance Evidence_eq_dec : EqDecision Evidence.
Proof. unfold EvidenceKind.t. solve_decision. Defined.

Record Relationship : Set := mkRel {
  rel_v : N;
  rel_from : string;
  rel_type : RelType.t;
  rel_to : string;
  rel_evidence_ref : option string;
  rel_attestation_ref : option string;
}.
#[global] Instance Relationship_eq_dec : EqDecision Relationship.
Proof. unfold RelType.t. solve_decision. Defined.

Record Proposition_ : Set := mkProposition {
  prop_v : N;
  prop_kind : string;
  prop_subject : string;
  prop_predicate : string;
  prop_object : option string;
  prop_at_time : option N;
  prop_context : list (string * MetaValue);
}.
#[global] Instance Proposition_eq_dec : EqDecision Proposition_.
Proof. solve_decision. Defined.

Record StoredAttestation : Set := mkStored {
  sa_content : AttestationContent;
  sa_sign1 : list Byte.byte;
}.
#[global] Instance StoredAttestation_eq_dec : EqDecision StoredAttestation.
Proof. solve_decision. Defined.

Record VocabularyDecl : Set := mkVocab {
  voc_ns : string;
  voc_version : N;
}.
#[global] Instance VocabularyDecl_eq_dec : EqDecision VocabularyDecl.
Proof. solve_decision. Defined.

Record VocabularyAccept : Set := mkAccept {
  acc_ns : string;
  acc_max_version : N;
}.

Record Proof_ : Set := mkProof {
  prf_v : N;
  prf_proof_id : string;
  prf_proposition : Proposition_;
  prf_events : list EventContent;
  prf_attestations : list StoredAttestation;
  prf_evidence : list Evidence;
  prf_relationships : list Relationship;
  prf_referenced_proofs : list string;
  prf_vocabularies : list VocabularyDecl;
  prf_created_at : N;
}.
#[global] Instance Proof_eq_dec : EqDecision Proof_.
Proof. solve_decision. Defined.

Module LifecycleStatus.
Inductive t : Set := Active | Expired | Revoked | Superseded | Compromised | Unknown.
#[global] Instance eq_dec : EqDecision t.
Proof. solve_decision. Defined.
Definition as_str (s : t) : string :=
  match s with
  | Active => "ACTIVE" | Expired => "EXPIRED" | Revoked => "REVOKED"
  | Superseded => "SUPERSEDED" | Compromised => "COMPROMISED" | Unknown => "UNKNOWN"
  end.
Definition parse (s : string) : option t :=
  if bool_decide (s = "ACTIVE") then Some Active
  else if bool_decide (s = "EXPIRED") then Some Expired
  else if bool_decide (s = "REVOKED") then Some Revoked
  else if bool_decide (s = "SUPERSEDED") then Some Superseded
  else if bool_decide (s = "COMPROMISED") then Some Compromised
  else if bool_decide (s = "UNKNOWN") then Some Unknown
  else None.
End LifecycleStatus.

Module EvidenceStatus.
Inductive t : Set :=
| Available | Withdrawn | Compromised | Revoked | Superseded | Expired | Unknown | Unavailable.
#[global] Instance eq_dec : EqDecision t.
Proof. solve_decision. Defined.
Definition as_str (s : t) : string :=
  match s with
  | Available => "AVAILABLE" | Withdrawn => "WITHDRAWN" | Compromised => "COMPROMISED"
  | Revoked => "REVOKED" | Superseded => "SUPERSEDED" | Expired => "EXPIRED"
  | Unknown => "UNKNOWN" | Unavailable => "UNAVAILABLE"
  end.
Definition parse (s : string) : option t :=
  if bool_decide (s = "AVAILABLE") then Some Available
  else if bool_decide (s = "WITHDRAWN") then Some Withdrawn
  else if bool_decide (s = "COMPROMISED") then Some Compromised
  else if bool_decide (s = "REVOKED") then Some Revoked
  else if bool_decide (s = "SUPERSEDED") then Some Superseded
  else if bool_decide (s = "EXPIRED") then Some Expired
  else if bool_decide (s = "UNKNOWN") then Some Unknown
  else if bool_decide (s = "UNAVAILABLE") then Some Unavailable
  else None.
End EvidenceStatus.

(** [vocabulary_ns]: the text before the first colon, or [legacy]. *)
Definition vocabulary_ns (label : string) : string :=
  match split_once colon label with
  | Some (p, _) => if sempty p then "legacy" else p
  | None => "legacy"
  end.

Module id_prefix.
Definition EVENT := "evt".
Definition ATTESTATION := "att".
Definition EVIDENCE := "evd".
Definition REL := "rel".
Definition PROOF := "prf".
End id_prefix.

Lemma lifecycle_parse_as_str s : LifecycleStatus.parse (LifecycleStatus.as_str s) = Some s.
Proof. by destruct s. Qed.
Lemma evidence_parse_as_str s : EvidenceStatus.parse (EvidenceStatus.as_str s) = Some s.
Proof. by destruct s. Qed.
