(* ===== verification/External.v ===== *)
(** External: the third-party code the engine calls, as interfaces.

    Base64url, the SHA-2 digests, the signature schemes and JSON live in crates
    that are not part of the repository ([base64], [sha2], [ed25519-dalek],
    [p256], [serde_json]).
    Each is a class of operations that the components take as an argument; the
    documented laws the theorems rely on are classes of their own, so that a
    definition never depends on a law and a theorem names the laws it needs.
    The instances at the end satisfy all the laws together. *)
From Stdlib Require Import Strings.Byte.
From S2P Require Import Prelude.

(** [base64::engine::general_purpose::URL_SAFE_NO_PAD]. *)
Class Base64Url := {
  b64_encode : list byte → string;
  b64_decode : string → option (list byte);
}.
(** Decoding inverts encoding, and text takes at most two characters per byte
    (four for every three, unpadded). *)
Class Base64UrlLaws `{Base64Url} : Prop := {
  b64_decode_encode b : b64_decode (b64_encode b) = Some b;
  b64_encode_len b : slen (b64_encode b) <= 2 * len b;
}.

(** The [hex] crate: [hex::encode] and [hex::decode]. *)
Class Hex := {
  hex_to_text : list byte → string;
  hex_of_text : string → option (list byte);
}.
(** Decoding inverts encoding, which writes visible ASCII characters only. *)
Class HexLaws `{Hex} : Prop := {
  hex_of_to b : hex_of_text (hex_to_text b) = Some b;
  hex_visible b : Forall (λ c, 0x21 <= b2n c < 0x7F) (as_bytes (hex_to_text b));
}.

(** [sha2::Sha256] and [sha2::Sha384]. *)
Class Sha2 := {
  sha256 : list byte → list byte;
  sha384 : list byte → list byte;
}.
(** The output types [[u8; 32]] and [[u8; 48]]. *)
Class Sha2Laws `{Sha2} : Prop := {
  sha256_len m : len (sha256 m) = 32;
  sha384_len m : len (sha384 m) = 48;
}.

(** [ed25519_dalek] and [p256::ecdsa].  [ed25519_vk] and [p256_vk] tell whether
    the library loads a public key, [p256_sig] whether it parses a signature. *)
Class SignatureSchemes := {
  ed25519_vk : list byte → bool;
  ed25519_verify : list byte → list byte → list byte → bool;
  ed25519_public : list byte → list byte;
  ed25519_sign : list byte → list byte → list byte;
  p256_vk : list byte → bool;
  p256_sig : list byte → bool;
  p256_verify : list byte → list byte → list byte → bool;
}.
(** Keys and signatures have their fixed sizes, a derived public key loads, and
    a signature verifies under the key that made it. *)
Class SignatureLaws `{SignatureSchemes} : Prop := {
  ed25519_public_len seed : len (ed25519_public seed) = 32;
  ed25519_sign_len seed m : len (ed25519_sign seed m) = 64;
  ed25519_public_vk seed : ed25519_vk (ed25519_public seed) = true;
  ed25519_correct seed m : ed25519_verify (ed25519_public seed) m (ed25519_sign seed m) = true;
}.

(** [serde_json::Value], seen one level at a time.  A number is known by
    [as_u64], an object by its entries. *)
Inductive JsonView (J : Type) : Type :=
| JNull
| JBool (b : bool)
| JNumber (as_u64 : option N)
| JString (s : string)
| JArray (items : list J)
| JObject (entries : list (string * J)).
Arguments JNull {J}.
Arguments JBool {J} b.
Arguments JNumber {J} as_u64.
Arguments JString {J} s.
Arguments JArray {J} items.
Arguments JObject {J} entries.

Class SerdeJson := {
  json : Type;
  json_view : json → JsonView json;
}.
(** [serde_json::from_slice] and [from_str]: the document of a text, if it is one. *)
Class SerdeJsonReader `{SerdeJson} := {
  json_from_slice : list byte → option json;
}.
(** [as_u64] is a [u64]; there is a value for every boolean, in-range number,
    text and array, and for every map from keys to values an object that has its
    entries, in the order the map keeps them. *)
Class SerdeJsonLaws `{SerdeJson} : Prop := {
  json_u64 v n : json_view v = JNumber (Some n) → n <= u64_max;
  json_number n : n <= u64_max → ∃ v, json_view v = JNumber (Some n);
  json_bool b : ∃ v, json_view v = JBool b;
  json_string s : ∃ v, json_view v = JString s;
  json_array items : ∃ v, json_view v = JArray items;
  json_object entries : NoDup (map fst entries) →
    ∃ v entries', json_view v = JObject entries' ∧ entries' ≡ₚ entries;
}.

(** [serde_json::json!] and the constructors of [Value], and
    [serde_json::to_string_pretty]. *)
Class SerdeJsonBuilder `{SerdeJson} := {
  json_of : JsonView json → json;
  json_pretty : json → string;
}.
(** The documents the program builds: no floating-point numbers, no duplicate
    keys. *)
Inductive built_value `{SerdeJsonBuilder} : json → Prop :=
| built_null : built_value (json_of JNull)
| built_bool b : built_value (json_of (JBool b))
| built_number n : n <= u64_max → built_value (json_of (JNumber (Some n)))
| built_string s : built_value (json_of (JString s))
| built_array items : Forall built_value items → built_value (json_of (JArray items))
| built_object entries :
    NoDup (map fst entries) → Forall (λ p, built_value p.2) entries → built_value (json_of (JObject entries)).
(** A value shows what it was built from, an object with its entries in the order
    of its map; the printed text is UTF-8 and is read back, the line end after it
    included; an empty text is no document. *)
Class SerdeJsonBuilderLaws `{SerdeJsonReader, !SerdeJsonBuilder} : Prop := {
  json_of_null : json_view (json_of JNull) = JNull;
  json_of_bool b : json_view (json_of (JBool b)) = JBool b;
  json_of_number n : n <= u64_max → json_view (json_of (JNumber (Some n))) = JNumber (Some n);
  json_of_string s : json_view (json_of (JString s)) = JString s;
  json_of_array items : json_view (json_of (JArray items)) = JArray items;
  json_of_object entries : NoDup (map fst entries) →
    ∃ entries', json_view (json_of (JObject entries)) = JObject entries' ∧ entries' ≡ₚ entries;
  json_empty : json_from_slice [] = None;
  json_pretty_utf8 v : utf8_valid (as_bytes (json_pretty v)) = true;
  json_pretty_read v : built_value v →
    json_from_slice (as_bytes (json_pretty v) ++ [Byte.x0a]) = Some v;
}.

(** [serde_json::to_vec] on a struct whose fields are text or unsigned
    integers: the compact JSON object of the fields in the given order. *)
Inductive JsonScalar : Set :=
| SText (s : string)
| SUint (n : N).
#[global] Instance JsonScalar_eq_dec : EqDecision JsonScalar.
Proof. solve_decision. Defined.

Class SerdeJsonWriter := {
  json_to_vec : list (string * JsonScalar) → option (list byte);
}.
(** Such a struct always serializes, and its text determines its fields. *)
Class SerdeJsonWriterLaws `{SerdeJsonWriter} : Prop := {
  json_to_vec_total fields : is_Some (json_to_vec fields);
  json_to_vec_inj fields fields' :
    json_to_vec fields = json_to_vec fields' → fields = fields';
}.

(** * Instances that satisfy the laws

    Small total functions with the documented laws, used to show that the laws
    can hold together and to evaluate the components on concrete inputs. *)
Module Toy.
(** A hexadecimal text codec: two characters per byte. *)
Definition nibble (n : N) : Ascii.ascii := Ascii.ascii_of_N (if n <? 10 then 48 + n else 87 + n).
Definition unnibble (c : Ascii.ascii) : option N :=
  let n := Ascii.N_of_ascii c in
  if (48 <=? n) && (n <=? 57) then Some (n - 48)
  else if (97 <=? n) && (n <=? 102) then Some (n - 87) else None.
Fixpoint hex_encode (b : list byte) : string :=
  match b with
  | [] => ""
  | x :: b' => String (nibble (b2n x / 16)) (String (nibble (b2n x mod 16)) (hex_encode b'))
  end.
Fixpoint hex_decode (s : string) : option (list byte) :=
  match s with
  | EmptyString => Some []
  | String h (String l s') =>
      match unnibble h, unnibble l, hex_decode s' with
      | Some h, Some l, Some b => Some (u8 (16 * h + l) :: b)
      | _, _, _ => None
      end
  | String _ EmptyString => None
  end.
#[export] Instance base64 : Base64Url := {| b64_encode := hex_encode; b64_decode := hex_decode |}.
#[export] Instance base64_laws : Base64UrlLaws.
Proof.
  split; induction b as [|x b IH]; try done; cbn [b64_encode b64_decode base64 hex_encode] in *.
  - destruct x; cbn [hex_decode]; (rewrite IH; vm_compute; reflexivity).
  - rewrite len_cons. unfold slen in *. cbn [String.length]. lia.
Qed.

#[export] Instance hex : Hex := {| hex_to_text := hex_encode; hex_of_text := hex_decode |}.
#[export] Instance hex_laws : HexLaws.
Proof.
  split; [exact b64_decode_encode|].
  cbn [hex_to_text hex]. induction b as [|x b IH]; [constructor|]. cbn [hex_encode].
  change (Forall (λ c, 0x21 <= b2n c < 0x7F)
    (Ascii.byte_of_ascii (nibble (b2n x / 16)) :: Ascii.byte_of_ascii (nibble (b2n x mod 16))
     :: as_bytes (hex_encode b))).
  apply Forall_cons. split; [destruct x; vm_compute; split; congruence|].
  apply Forall_cons. split; [destruct x; vm_compute; split; congruence|exact IH].
Qed.

(** Length-prefix "digests" of the right size. *)
Definition pad (n : nat) (m : list byte) : list byte := take n (m ++ repeat Byte.x00 n).
Lemma pad_len n m : length (pad n m) = n.
Proof. unfold pad. rewrite length_take, length_app, repeat_length. lia. Qed.
Definition mix (m : list byte) : list byte :=
  to_be_bytes 4 (foldl (λ acc b, N.land (acc * 33 + b2n b + 1) 0xffffffff) 7 m).
#[export] Instance sha2 : Sha2 := {| sha256 m := pad 32 (mix m); sha384 m := pad 48 (mix m) |}.
#[export] Instance sha2_laws : Sha2Laws.
Proof. split; intros m; unfold len; cbn [sha256 sha384 sha2]; by rewrite pad_len. Qed.

Definition toy_sig (key m : list byte) : list byte := pad 64 (mix (key ++ m)).
#[export] Instance signatures : SignatureSchemes := {|
  ed25519_vk _ := true;
  ed25519_verify key m s := bool_decide (s = toy_sig key m);
  ed25519_public seed := pad 32 seed;
  ed25519_sign seed m := toy_sig (pad 32 seed) m;
  p256_vk _ := true;
  p256_sig _ := true;
  p256_verify key m s := bool_decide (s = toy_sig key m);
|}.
#[export] Instance signature_laws : SignatureLaws.
Proof.
  split.
  - intros. unfold len. cbn [ed25519_public signatures]. by rewrite pad_len.
  - intros. unfold len. cbn [ed25519_sign signatures]. unfold toy_sig. by rewrite pad_len.
  - done.
  - intros. by apply bool_decide_eq_true_2.
Qed.

(** JSON documents as trees. *)
Inductive tree : Type :=
| TNull
| TBool (b : bool)
| TUint (n : N)
| TText (s : string)
| TArray (items : list tree)
| TObject (entries : list (string * tree)).
#[export] Instance serde_json : SerdeJson := {|
  json := tree;
  json_view t :=
    match t with
    | TNull => JNull
    | TBool b => JBool b
    | TUint n => JNumber (if n <=? u64_max then Some n else None)
    | TText s => JString s
    | TArray items => JArray items
    | TObject entries => JObject entries
    end
|}.
#[export] Instance serde_json_laws : SerdeJsonLaws.
Proof.
  split; cbn [json json_view serde_json].
  - intros [| |m| | |] n; try done. destruct (N.leb_spec m u64_max); naive_solver.
  - intros n Hn. exists (TUint n). by rewrite (proj2 (N.leb_le _ _) Hn).
  - intros b. by exists (TBool b).
  - intros s. by exists (TText s).
  - intros items. by exists (TArray items).
  - intros entries _. by exists (TObject entries), entries.
Qed.

(** A struct as the binary digits of its number in the enumeration of structs. *)
#[export] Instance JsonScalar_countable : Countable JsonScalar.
Proof.
  refine (inj_countable' (λ v, match v with SText s => inl s | SUint n => inr n end)
    (λ v, match v with inl s => SText s | inr n => SUint n end) _); by intros [].
Defined.
Fixpoint digits (p : positive) : list byte :=
  match p with
  | xH => []
  | xO p' => Byte.x30 :: digits p'
  | xI p' => Byte.x31 :: digits p'
  end.
Lemma digits_inj p q : digits p = digits q → p = q.
Proof.
  revert q. induction p as [p IH|p IH|]; intros [q|q|] Heq; try discriminate Heq; try done.
  all: injection Heq as Heq; f_equal; by apply IH.
Qed.
#[export] Instance json_writer : SerdeJsonWriter :=
  {| json_to_vec fields := Some (digits (encode fields)) |}.
#[export] Instance json_writer_laws : SerdeJsonWriterLaws.
Proof.
  split; cbn [json_to_vec json_writer]; [done|].
  intros fields fields' Heq. injection Heq as Heq. by apply digits_inj, (inj encode) in Heq.
Qed.

(** Documents as generic trees, hence as numbers, hence as binary digits. *)
Fixpoint to_gen (t : tree) : gen_tree (bool + N + string) :=
  match t with
  | TNull => GenNode 0 []
  | TBool b => GenLeaf (inl (inl b))
  | TUint n => GenLeaf (inl (inr n))
  | TText s => GenLeaf (inr s)
  | TArray items => GenNode 1 (map to_gen items)
  | TObject entries =>
      GenNode 2 (map (λ p : string * tree, GenNode 3 [GenLeaf (inr p.1); to_gen p.2]) entries)
  end.
Fixpoint of_gen (g : gen_tree (bool + N + string)) : tree :=
  match g with
  | GenLeaf (inl (inl b)) => TBool b
  | GenLeaf (inl (inr n)) => TUint n
  | GenLeaf (inr s) => TText s
  | GenNode 1 items => TArray (map of_gen items)
  | GenNode 2 entries =>
      TObject (map (λ e, match e with GenNode _ [GenLeaf (inr k); v] => (k, of_gen v) | _ => ("", TNull) end)
        entries)
  | GenNode _ _ => TNull
  end.
Fixpoint of_to_gen (t : tree) : of_gen (to_gen t) = t.
Proof.
  destruct t as [|b|n|s|items|entries]; try reflexivity; cbn [to_gen of_gen]; f_equal.
  - induction items as [|t items IH]; [reflexivity|]. cbn [map]. f_equal; [apply of_to_gen|apply IH].
  - induction entries as [|[k t] entries IH]; [reflexivity|]. cbn [map fst snd].
    f_equal; [f_equal; apply of_to_gen|apply IH].
Qed.
#[export] Instance tree_eq_dec : EqDecision tree.
Proof. refine (λ t t', cast_if (decide (to_gen t = to_gen t'))); [|naive_solver].
  rewrite <- (of_to_gen t), <- (of_to_gen t'); congruence. Defined.
#[export] Instance tree_countable : Countable tree := inj_countable' to_gen of_gen of_to_gen.
Fixpoint undigits (l : list byte) : positive :=
  match l with
  | Byte.x30 :: l' => xO (undigits l')
  | Byte.x31 :: l' => xI (undigits l')
  | _ => xH
  end.
Lemma undigits_digits p l : undigits (digits p ++ Byte.x0a :: l) = p.
Proof. induction p as [p IH|p IH|]; cbn [digits app undigits]; congruence. Qed.
#[export] Instance json_builder : SerdeJsonBuilder := {|
  json_of v :=
    match v with
    | JNull => TNull
    | JBool b => TBool b
    | JNumber (Some n) => TUint n
    | JNumber None => TNull
    | JString s => TText s
    | JArray items => TArray items
    | JObject entries => TObject entries
    end;
  json_pretty t := of_bytes (digits (encode t));
|}.
Module Reader.
#[export] Instance json_reader : SerdeJsonReader :=
  {| json_from_slice body := if decide (body = []) then None else decode (undigits body) |}.
End Reader.
Import Reader.
#[export] Instance json_builder_laws : SerdeJsonBuilderLaws.
Proof.
  split; cbn [json_view json_of serde_json json_builder]; try done.
  - intros n Hn. by rewrite (proj2 (N.leb_le _ _) Hn).
  - intros entries _. by exists entries.
  - intros v. cbn [json_pretty json_builder]. rewrite as_of_bytes.
    generalize (encode v) as p. induction p as [p IH|p IH|]; done.
  - intros v _. cbn [json_pretty json_builder json_from_slice json_reader].
    rewrite as_of_bytes, decide_False by (by destruct (digits _)).
    rewrite undigits_digits. apply decode_encode.
Qed.
End Toy.
