(* ===== verification/Cbor.v ===== *)
(** Cbor: the deterministic CBOR codec of [crates/proof-format/src/cbor.rs].

    [encode_head] / [encode_value] / [encode_canonical] are the encoder,
    [Decoder] the strict decoder, [decode_strict] and its two callers the entry
    points.  The Rust decoder is a cursor [(buf, pos)] with a nesting counter
    [depth]; here the state is the unread suffix [buf[pos..]], and the counter
    is the number of nesting levels left, [max_depth + 1 - depth], on which
    [decode_value] recurses, so that [depth > max_depth] is "no level left" and
    no fuel is needed.

    The section proves that the encoder and the strict decoder are inverse to
    each other: everything the decoder accepts is the one deterministic
    encoding of the value it returns, and every encodable value decodes to its
    map-sorted form. *)
From Stdlib Require Import Strings.Byte NArith ZArith Lia.
From S2P Require Import Prelude Core.

(** * Values *)

Unset Elimination Schemes.
Inductive CborValue : Set :=
| Uint (n : N)
| Nint (z : Z)
| Text (s : string)
| Bytes (b : list byte)
| Array (items : list CborValue)
| Map (pairs : list (CborValue * CborValue))
| Bool (b : bool)
| Null.
Set Elimination Schemes.

(** Induction through the nested lists. *)
Section CborValue_ind.
Context (P : CborValue → Prop).
Context (HUint : ∀ n, P (Uint n)) (HNint : ∀ z, P (Nint z)) (HText : ∀ s, P (Text s))
  (HBytes : ∀ b, P (Bytes b)) (HArray : ∀ xs, Forall P xs → P (Array xs))
  (HMap : ∀ ps, Forall (λ p, P p.1 ∧ P p.2) ps → P (Map ps))
  (HBool : ∀ b, P (Bool b)) (HNull : P Null).
Fixpoint CborValue_ind (v : CborValue) : P v :=
  match v with
  | Uint n => HUint n
  | Nint z => HNint z
  | Text s => HText s
  | Bytes b => HBytes b
  | Array xs => HArray xs
      ((fix go l := match l return Forall P l with
                    | [] => Forall_nil_2 _
                    | x :: l' => Forall_cons_2 _ _ _ (CborValue_ind x) (go l')
                    end) xs)
  | Map ps => HMap ps
      ((fix go l := match l return Forall (λ p, P p.1 ∧ P p.2) l with
                    | [] => Forall_nil_2 _
                    | x :: l' => Forall_cons_2 (λ p, P p.1 ∧ P p.2) _ _
                                   (conj (CborValue_ind x.1) (CborValue_ind x.2)) (go l')
                    end) ps)
  | Bool b => HBool b
  | Null => HNull
  end.
End CborValue_ind.

(** * Encoder *)

Definition encode_head (major n : N) : list byte :=
  let prefix := N.shiftl major 5 in
  if n <? 24 then [u8 (N.lor prefix n)]
  else if n <=? u8_max then u8 (N.lor prefix 24) :: to_be_bytes 1 n
  else if n <=? u16_max then u8 (N.lor prefix 25) :: to_be_bytes 2 n
  else if n <=? u32_max then u8 (N.lor prefix 26) :: to_be_bytes 4 n
  else u8 (N.lor prefix 27) :: to_be_bytes 8 n.

(** The order [enc_keys.sort_by(|a, b| a.0.cmp(&b.0))] sorts by. *)
Definition entry_leb {A} (a b : list byte * A) : bool := bytes_leb a.1 b.1.

Fixpoint encode_value (v : CborValue) : list byte :=
  match v with
  | Uint n => encode_head 0 n
  | Nint z =>
      if (0 <=? z)%Z then encode_head 0 (Z.to_N z)
      else encode_head 1 (Z.to_N (-1 - z))
  | Bytes b => encode_head 2 (len b) ++ b
  | Text s => encode_head 3 (slen s) ++ as_bytes s
  | Array items => encode_head 4 (len items) ++ concat (map encode_value items)
  | Map pairs =>
      let enc_keys := map (λ '(k, val), (encode_value k, encode_value val)) pairs in
      encode_head 5 (len pairs)
        ++ concat (map (λ '(kb, vb), kb ++ vb) (sort_by entry_leb enc_keys))
  | Bool true => [Byte.xf5]
  | Bool false => [Byte.xf4]
  | Null => [Byte.xf6]
  end.

Definition encode_canonical (v : CborValue) : list byte := encode_value v.

(** [CborValue::sort_maps]. *)
Definition pair_leb (a b : CborValue * CborValue) : bool :=
  bytes_leb (encode_canonical a.1) (encode_canonical b.1).
Fixpoint sort_maps (v : CborValue) : CborValue :=
  match v with
  | Array items => Array (map sort_maps items)
  | Map pairs =>
      Map (sort_by pair_leb (map (λ '(k, val), (sort_maps k, sort_maps val)) pairs))
  | _ => v
  end.

Definition sorted_map (pairs : list (CborValue * CborValue)) : CborValue := sort_maps (Map pairs).

(** * Decoder *)

Module Decoder.
Definition arg_to_usize (n : N) : Result N :=
  if n <=? usize_max then Ok n else Err ErrorCode.LimitExceeded.

Definition eof (buf : list byte) : bool := len buf =? 0.

(** [read(n)]: the next [n] bytes and the unread rest. *)
Definition read (n : N) (buf : list byte) : Result (list byte * list byte) :=
  if len buf <? n then Err ErrorCode.Malformed
  else Ok (take (N.to_nat n) buf, drop (N.to_nat n) buf).

Definition read_arg (ai : N) (buf : list byte) : Result (N * list byte) :=
  if ai <=? 23 then Ok (ai, buf)
  else if ai =? 24 then
    '(b, buf) ← read 1 buf;
    let v := from_be_bytes b in
    if v <? 24 then Err ErrorCode.NonCanonical else Ok (v, buf)
  else if ai =? 25 then
    '(b, buf) ← read 2 buf;
    let v := from_be_bytes b in
    if v <=? u8_max then Err ErrorCode.NonCanonical else Ok (v, buf)
  else if ai =? 26 then
    '(b, buf) ← read 4 buf;
    let v := from_be_bytes b in
    if v <=? u16_max then Err ErrorCode.NonCanonical else Ok (v, buf)
  else if ai =? 27 then
    '(b, buf) ← read 8 buf;
    let v := from_be_bytes b in
    if v <=? u32_max then Err ErrorCode.NonCanonical else Ok (v, buf)
  else if ai <=? 30 then Err ErrorCode.ForbiddenCborConstruct
  else if ai =? 31 then Err ErrorCode.ForbiddenCborConstruct
  else Err ErrorCode.Malformed.

(** The item loop of a CBOR array: [n] values in sequence. *)
Fixpoint decode_items (dec : list byte → Result (CborValue * list byte)) (n : nat)
    (buf : list byte) : Result (list CborValue * list byte) :=
  match n with
  | O => Ok ([], buf)
  | S n' =>
      '(x, buf) ← dec buf;
      '(xs, buf) ← decode_items dec n' buf;
      Ok (x :: xs, buf)
  end.

(** The key check of the entry loop: neither a duplicate of the previous key
    nor before it in bytewise order. *)
Definition check_key_order (prev : option (list byte)) (kb : list byte) : Result unit :=
  match prev with
  | Some p =>
      if bool_decide (kb = p) then Err ErrorCode.DuplicateMapKey
      else if bytes_ltb kb p then Err ErrorCode.NonCanonical
      else Ok tt
  | None => Ok tt
  end.

(** The entry loop of a CBOR map: [n] key/value pairs with strictly
    increasing encoded keys; [prev] is [prev_key_bytes]. *)
Fixpoint decode_pairs (dec : list byte → Result (CborValue * list byte)) (n : nat)
    (prev : option (list byte)) (buf : list byte)
    : Result (list (CborValue * CborValue) * list byte) :=
  match n with
  | O => Ok ([], buf)
  | S n' =>
      '(k, buf) ← dec buf;
      '(val, buf) ← dec buf;
      let kb := encode_canonical k in
      _ ← check_key_order prev kb;
      '(ps, buf) ← decode_pairs dec n' (Some kb) buf;
      Ok ((k, val) :: ps, buf)
  end.

(** Simple values and floats (major type 7). *)
Definition decode_simple (ai : N) : Result CborValue :=
  if ai =? 20 then Ok (Bool false)
  else if ai =? 21 then Ok (Bool true)
  else if ai =? 22 then Ok Null
  else Err ErrorCode.ForbiddenCborConstruct.

Fixpoint decode_value (limits : Limits) (levels : nat) (buf : list byte)
    : Result (CborValue * list byte) :=
  match levels with
  | O => Err ErrorCode.LimitExceeded
  | S levels' =>
      if eof buf then Err ErrorCode.Malformed else
      '(hd, buf) ← read 1 buf;
      let ib := from_be_bytes hd in
      let major := N.shiftr ib 5 in
      let ai := N.land ib 0x1f in
      match major with
      | 0 =>
          '(n, buf) ← read_arg ai buf;
          Ok (Uint n, buf)
      | 1 =>
          '(n, buf) ← read_arg ai buf;
          let v := (-1 - Z.of_N n)%Z in
          if (v <? i64_min)%Z then Err ErrorCode.ForbiddenCborConstruct
          else Ok (Nint v, buf)
      | 2 =>
          '(n, buf) ← read_arg ai buf;
          l ← arg_to_usize n;
          if max_field_size limits <? l then Err ErrorCode.LimitExceeded else
          '(b, buf) ← read l buf;
          Ok (Bytes b, buf)
      | 3 =>
          '(n, buf) ← read_arg ai buf;
          l ← arg_to_usize n;
          if max_field_size limits <? l then Err ErrorCode.LimitExceeded else
          '(b, buf) ← read l buf;
          s ← ok_or (from_utf8 b) ErrorCode.Malformed;
          Ok (Text s, buf)
      | 4 =>
          '(n, buf) ← read_arg ai buf;
          l ← arg_to_usize n;
          if max_array_items limits <? l then Err ErrorCode.LimitExceeded else
          '(items, buf) ← decode_items (decode_value limits levels') (N.to_nat l) buf;
          Ok (Array items, buf)
      | 5 =>
          '(n, buf) ← read_arg ai buf;
          l ← arg_to_usize n;
          if max_map_entries limits <? l then Err ErrorCode.LimitExceeded else
          '(pairs, buf) ← decode_pairs (decode_value limits levels') (N.to_nat l) None buf;
          Ok (Map pairs, buf)
      | 6 => Err ErrorCode.ForbiddenCborConstruct
      | 7 =>
          v ← decode_simple ai;
          Ok (v, buf)
      | _ => Err ErrorCode.Malformed
      end
  end.

(** Levels available at [depth = 0]. *)
Definition levels_at_root (limits : Limits) : nat := S (N.to_nat (max_depth limits)).
End Decoder.

Definition decode_strict (bytes : list byte) (limits : Limits) : Result CborValue :=
  if max_proof_size limits <? len bytes then Err ErrorCode.LimitExceeded else
  '(v, rest) ← Decoder.decode_value limits (Decoder.levels_at_root limits) bytes;
  if negb (len rest =? 0) then Err ErrorCode.Malformed else Ok v.

Definition is_canonical (bytes : list byte) (limits : Limits) : Result bool :=
  v ← decode_strict bytes limits;
  Ok (bool_decide (encode_canonical v = bytes)).

Definition decode_and_check_canonical (bytes : list byte) (limits : Limits) : Result CborValue :=
  v ← decode_strict bytes limits;
  if bool_decide (encode_canonical v ≠ bytes) then Err ErrorCode.NonCanonical else Ok v.

(** * Encodable values

    The values the decoder can produce within [levels] nesting levels, up to
    map order: integers at their machine width, UTF-8 text, sizes within the
    limits, and no two map keys with the same encoding. *)
Fixpoint encodable (limits : Limits) (levels : nat) (v : CborValue) : bool :=
  match levels with
  | O => false
  | S levels' =>
      match v with
      | Uint n => n <=? u64_max
      | Nint z => ((i64_min <=? z) && (z <? 0))%Z
      | Text s => utf8_valid (as_bytes s) && (slen s <=? max_field_size limits)
      | Bytes b => len b <=? max_field_size limits
      | Array xs => (len xs <=? max_array_items limits) && forallb (encodable limits levels') xs
      | Map ps =>
          (len ps <=? max_map_entries limits)
          && forallb (λ p, encodable limits levels' p.1 && encodable limits levels' p.2) ps
          && bool_decide (NoDup (map (λ p, encode_value p.1) ps))
      | Bool _ | Null => true
      end
  end.

(** * Head bytes *)

Lemma head_split major ai :
  major < 8 → ai < 32 →
  N.shiftr (b2n (u8 (N.lor (N.shiftl major 5) ai))) 5 = major ∧
  N.land (b2n (u8 (N.lor (N.shiftl major 5) ai))) 31 = ai.
Proof.
  intros Hm Ha.
  assert (forallb (λ m, forallb (λ a,
            (N.shiftr (b2n (u8 (N.lor (N.shiftl m 5) a))) 5 =? m) &&
            (N.land (b2n (u8 (N.lor (N.shiftl m 5) a))) 31 =? a))
            (map N.of_nat (seq 0 32))) (map N.of_nat (seq 0 8)) = true) as H
    by (vm_compute; reflexivity).
  rewrite forallb_forall in H. specialize (H major). rewrite forallb_forall in H.
  assert (∀ n k, n < N.of_nat k → In n (map N.of_nat (seq 0 k))) as Hin.
  { intros n k Hk. apply in_map_iff. exists (N.to_nat n). split; [lia|]. apply in_seq. lia. }
  specialize (H (Hin major 8%nat Hm) ai (Hin ai 32%nat Ha)).
  apply andb_true_iff in H as [H1%N.eqb_eq H2%N.eqb_eq]. done.
Qed.

Lemma head_join b : u8 (N.lor (N.shiftl (N.shiftr (b2n b) 5) 5) (N.land (b2n b) 31)) = b.
Proof. by destruct b. Qed.

Lemma head_major_lt b : N.shiftr (b2n b) 5 < 8.
Proof. by destruct b. Qed.
Lemma head_ai_lt b : N.land (b2n b) 31 < 32.
Proof. by destruct b. Qed.

Lemma from_be_bytes_1 b : from_be_bytes [b] = b2n b.
Proof. unfold from_be_bytes. simpl. lia. Qed.

Lemma to_from_be_bytes_len k l : length l = k → to_be_bytes k (from_be_bytes l) = l.
Proof. intros <-. apply to_from_be_bytes. Qed.

Import Decoder.

Lemma read_app n l rest : len l = n → read n (l ++ rest) = Ok (l, rest).
Proof.
  intros <-. unfold read. rewrite len_app.
  replace (len l + len rest <? len l) with false by (symmetry; apply N.ltb_ge; lia).
  replace (N.to_nat (len l)) with (length l) by (unfold len; lia).
  by rewrite take_app_length, drop_app_length.
Qed.

Lemma read_Ok n buf l rest : read n buf = Ok (l, rest) ↔ buf = l ++ rest ∧ len l = n.
Proof.
  split.
  - unfold read. destruct (N.ltb_spec (len buf) n) as [|Hn]; [done|]. intros [= <- <-].
    rewrite take_drop. split; [done|]. unfold len in *. rewrite length_take. lia.
  - intros [-> Hl]. by apply read_app.
Qed.

Lemma pow256 k : 256 ^ N.of_nat k = 2 ^ (8 * N.of_nat k).
Proof. rewrite N.pow_mul_r. done. Qed.

(** The argument bytes that follow a head byte with additional info [ai]. *)
Lemma read_arg_wide ai k lo n rest :
  (ai, k, lo) ∈ [(24, 1%nat, 24); (25, 2%nat, 256); (26, 4%nat, 65536); (27, 8%nat, 4294967296)] →
  lo <= n → n < 256 ^ N.of_nat k →
  read_arg ai (to_be_bytes k n ++ rest) = Ok (n, rest).
Proof.
  intros Hin Hlo Hhi.
  assert (read (N.of_nat k) (to_be_bytes k n ++ rest) = Ok (to_be_bytes k n, rest)) as Hr.
  { apply read_app. unfold len. by rewrite length_to_be_bytes. }
  set_unfold. destruct_or!; simplify_eq; unfold read_arg; cbn [N.leb N.eqb N.compare Pos.eqb
    Pos.compare Pos.compare_cont]; match type of Hr with read ?x _ = _ => let y := eval vm_compute in x in change x with y in Hr end;
    rewrite Hr; cbn [mbind result_bind]; rewrite from_to_be_bytes by done;
    match goal with |- (if ?b then _ else _) = _ => destruct b eqn:E end; try done;
    (apply N.ltb_lt in E || apply N.leb_le in E); unfold u8_max, u16_max, u32_max in E; lia.
Qed.

(** A head is read back, whatever follows it. *)
Lemma encode_head_read major n rest :
  major < 8 → n <= u64_max →
  ∃ ib tl, encode_head major n = ib :: tl ∧ N.shiftr (b2n ib) 5 = major ∧
           read_arg (N.land (b2n ib) 31) (tl ++ rest) = Ok (n, rest).
Proof.
  intros Hm Hn. unfold encode_head.
  destruct (N.ltb_spec n 24).
  { destruct (head_split major n) as [H1 H2]; [lia..|].
    eexists _, _. split_and!; [done..|]. rewrite H2. unfold read_arg.
    by replace (n <=? 23) with true by (symmetry; apply N.leb_le; lia). }
  destruct (N.leb_spec n u8_max) as [|H8];
    [|destruct (N.leb_spec n u16_max) as [|H16];
      [|destruct (N.leb_spec n u32_max) as [|H32]]];
  (eexists _, _; split; [reflexivity|]; split; [by apply head_split|];
   match goal with |- read_arg (N.land (b2n (u8 (N.lor _ ?a))) 31) _ = _ =>
     rewrite (proj2 (head_split major a Hm ltac:(done))) end;
   first [ apply (read_arg_wide 24 1 24) | apply (read_arg_wide 25 2 256)
         | apply (read_arg_wide 26 4 65536) | apply (read_arg_wide 27 8 4294967296) ];
   [set_solver | unfold u8_max, u16_max, u32_max in *; lia |];
   unfold u8_max, u16_max, u32_max, u64_max in *; simpl; lia).
Qed.

(** The decoder only accepts the shortest head. *)
Lemma read_arg_encode_head b buf n rest :
  read_arg (N.land (b2n b) 31) buf = Ok (n, rest) →
  b :: buf = encode_head (N.shiftr (b2n b) 5) n ++ rest ∧ n <= u64_max.
Proof.
  intros H. pose proof (head_join b) as Hb. pose proof (head_ai_lt b) as Hai.
  revert H Hb Hai. generalize (N.land (b2n b) 31) as ai, (N.shiftr (b2n b) 5) as major.
  intros ai major H Hb Hai. unfold read_arg in H. unfold encode_head.
  destruct (N.leb_spec ai 23) as [|H23].
  { simplify_eq. replace (n <? 24) with true by (symmetry; apply N.ltb_lt; lia).
    split; [done|]. unfold u64_max. lia. }
  assert (∀ k w, (∃ a, read (N.of_nat k) buf = Ok a ∧ a = w) →
    buf = w.1 ++ w.2 ∧ length w.1 = k ∧ from_be_bytes w.1 < 256 ^ N.of_nat k) as Hread.
  { intros k [l r] (a & Hr & ->). apply read_Ok in Hr as [-> Hl]. unfold len in Hl. simpl.
    split_and!; [done | lia |]. replace k with (length l) by lia. apply from_be_bytes_lt. }
  repeat match type of H with
  | (if ?x =? ?c then _ else _) = _ => destruct (N.eqb_spec x c) as [->|?]
  | (if ?x <=? ?c then _ else _) = _ => destruct (N.leb_spec x c)
  end; try done;
  (apply bind_Ok in H as ([l r] & Hr & H);
   match type of Hr with read ?k _ = _ => specialize (Hread (N.to_nat k) (l, r)) end;
   destruct Hread as (-> & Hlen & Hlt); [by eexists|]; simpl in Hlen, Hlt, H;
   match type of H with (if ?c then _ else _) = _ => destruct c eqn:Hc end; [done|];
   (apply N.ltb_ge in Hc || apply N.leb_gt in Hc); simplify_eq;
   unfold u8_max, u16_max, u32_max, u64_max in *;
   repeat match goal with |- context [if ?x <? ?c then _ else _] =>
            replace (x <? c) with false by (symmetry; apply N.ltb_ge; lia) end;
   repeat match goal with |- context [if ?x <=? ?c then _ else _] =>
            first [ replace (x <=? c) with false by (symmetry; apply N.leb_gt; lia)
                  | replace (x <=? c) with true by (symmetry; apply N.leb_le; lia) ] end;
   split; [cbn [app]; rewrite to_from_be_bytes_len by (rewrite Hlen; reflexivity); done | lia]).
Qed.

(** * Encoding and map order *)

(** An encoded map entry. *)
Definition enc_pair (p : CborValue * CborValue) : list byte * list byte :=
  (encode_value p.1, encode_value p.2).
Definition sort_pair (p : CborValue * CborValue) : CborValue * CborValue :=
  (sort_maps p.1, sort_maps p.2).
Definition enc_entry (p : CborValue * CborValue) : list byte :=
  encode_value p.1 ++ encode_value p.2.

Lemma encode_value_map ps :
  encode_value (Map ps) =
    encode_head 5 (len ps) ++ concat (map enc_entry (sort_by pair_leb ps)).
Proof.
  cbn [encode_value]. f_equal. f_equal.
  rewrite (map_ext _ enc_pair) by (by intros []).
  rewrite (sort_by_map pair_leb) by done.
  rewrite map_map. apply map_ext. by intros [].
Qed.

Lemma sort_maps_map ps : sort_maps (Map ps) = Map (sort_by pair_leb (map sort_pair ps)).
Proof. simpl. do 2 f_equal. apply map_ext. by intros []. Qed.

Lemma pair_leb_sorted ps : StronglySorted (λ x y, pair_leb x y = true) (sort_by pair_leb ps).
Proof.
  apply sort_by_sorted; unfold pair_leb; intros; [apply leb_total | by eapply leb_trans].
Qed.

(** Sorting the maps of a value does not change its encoding. *)
Lemma encode_sort_maps v : encode_value (sort_maps v) = encode_value v.
Proof.
  induction v as [| | | |xs IH|ps IH| |] using CborValue_ind; try done.
  - simpl. rewrite len_map, map_map. do 2 f_equal.
    induction IH; simpl; f_equal; auto.
  - rewrite sort_maps_map, !encode_value_map.
    rewrite (sort_by_id _ (sort_by _ _)) by apply pair_leb_sorted.
    f_equal; [unfold len; by rewrite length_sort_by, length_map|]. f_equal.
    rewrite Forall_forall in IH.
    rewrite (sort_by_map pair_leb).
    + rewrite map_map. apply map_ext_in. intros p Hp%list_elem_of_In.
      rewrite sort_by_perm in Hp. destruct (IH p Hp) as [H1 H2].
      unfold enc_entry, sort_pair. simpl. by rewrite H1, H2.
    + intros x y Hx Hy. unfold pair_leb, encode_canonical, sort_pair. simpl.
      by rewrite (proj1 (IH x Hx)), (proj1 (IH y Hy)).
Qed.

Lemma pair_leb_sort_pair x y : pair_leb (sort_pair x) (sort_pair y) = pair_leb x y.
Proof. unfold pair_leb, encode_canonical, sort_pair. simpl. by rewrite !encode_sort_maps. Qed.

(** * One decoding step *)

(** What [decode_value] does after a head [(major, n)] with [major <= 5]. *)
Definition decode_args (limits : Limits) (dec : list byte → Result (CborValue * list byte))
    (major n : N) (buf : list byte) : Result (CborValue * list byte) :=
  match major with
  | 0 => Ok (Uint n, buf)
  | 1 =>
      if (-1 - Z.of_N n <? i64_min)%Z then Err ErrorCode.ForbiddenCborConstruct
      else Ok (Nint (-1 - Z.of_N n), buf)
  | 2 =>
      l ← arg_to_usize n;
      if max_field_size limits <? l then Err ErrorCode.LimitExceeded else
      '(b, buf) ← read l buf; Ok (Bytes b, buf)
  | 3 =>
      l ← arg_to_usize n;
      if max_field_size limits <? l then Err ErrorCode.LimitExceeded else
      '(b, buf) ← read l buf;
      s ← ok_or (from_utf8 b) ErrorCode.Malformed; Ok (Text s, buf)
  | 4 =>
      l ← arg_to_usize n;
      if max_array_items limits <? l then Err ErrorCode.LimitExceeded else
      '(items, buf) ← decode_items dec (N.to_nat l) buf; Ok (Array items, buf)
  | 5 =>
      l ← arg_to_usize n;
      if max_map_entries limits <? l then Err ErrorCode.LimitExceeded else
      '(pairs, buf) ← decode_pairs dec (N.to_nat l) None buf; Ok (Map pairs, buf)
  | _ => Err ErrorCode.Malformed
  end.

Lemma decode_value_cons limits levels b buf :
  decode_value limits (S levels) (b :: buf) =
    let major := N.shiftr (b2n b) 5 in
    let ai := N.land (b2n b) 31 in
    if major <=? 5 then
      '(n, buf) ← read_arg ai buf; decode_args limits (decode_value limits levels) major n buf
    else if major =? 6 then Err ErrorCode.ForbiddenCborConstruct
    else v ← decode_simple ai; Ok (v, buf).
Proof.
  cbn [decode_value].
  replace (eof (b :: buf)) with false
    by (unfold eof; rewrite len_cons; symmetry; apply N.eqb_neq; lia).
  rewrite (read_app 1 [b] buf eq_refl : read 1 (b :: buf) = _).
  cbn [mbind result_bind]. rewrite from_be_bytes_1.
  pose proof (head_major_lt b) as Hm. revert Hm.
  generalize (N.shiftr (b2n b) 5) as major. intros major Hm. cbn zeta.
  destruct major as [|[[[]|[]|]|[[]|[]|]|]]; try lia; done.
Qed.

Lemma decode_value_head limits levels major n buf :
  major <= 5 → n <= u64_max →
  decode_value limits (S levels) (encode_head major n ++ buf) =
    decode_args limits (decode_value limits levels) major n buf.
Proof.
  intros Hm Hn. destruct (encode_head_read major n buf) as (ib & tl & -> & Hib & Hr); [lia|done|].
  simpl app. rewrite decode_value_cons, Hib. cbn zeta. rewrite Hr.
  by replace (major <=? 5) with true by (symmetry; by apply N.leb_le).
Qed.

Lemma decode_value_inv limits levels buf v rest :
  decode_value limits (S levels) buf = Ok (v, rest) →
  (∃ major n buf', major <= 5 ∧ n <= u64_max ∧ buf = encode_head major n ++ buf' ∧
     decode_args limits (decode_value limits levels) major n buf' = Ok (v, rest)) ∨
  (v ∈ [Bool false; Bool true; Null] ∧ buf = encode_value v ++ rest).
Proof.
  destruct buf as [|b buf]; [done|]. rewrite decode_value_cons. cbn zeta.
  destruct (N.leb_spec (N.shiftr (b2n b) 5) 5) as [H5|H5].
  - intros H. apply bind_Ok in H as ([n buf'] & Hr & H). left.
    apply read_arg_encode_head in Hr as [Hb Hn]. eauto 10.
  - destruct (N.eqb_spec (N.shiftr (b2n b) 5) 6) as [|H6]; [done|].
    intros H. apply bind_Ok in H as (w & Hw & [= -> ->]). right.
    pose proof (head_join b) as Hb. pose proof (head_major_lt b) as H8.
    assert (N.shiftr (b2n b) 5 = 7) as Hm by lia. rewrite Hm in Hb.
    unfold decode_simple in Hw.
    repeat match type of Hw with
    | (if ?x =? ?c then _ else _) = _ => destruct (N.eqb_spec x c) as [Hx|?]
    end; simplify_eq; rewrite Hx in Hb; rewrite <- Hb;
    (split; [set_solver | done]).
Qed.

Lemma arg_to_usize_Ok n l : arg_to_usize n = Ok l ↔ n = l ∧ n <= usize_max.
Proof.
  unfold arg_to_usize. destruct (N.leb_spec n usize_max); split; [by intros [= ->] | by intros [-> ?] | done | lia].
Qed.

(** * Encoding, then decoding *)

Section decode_encode.
Context (limits : Limits).
Hypothesis Hlim : limits_wf limits = true.

Lemma limits_usize :
  max_field_size limits <= usize_max ∧ max_array_items limits <= usize_max ∧
  max_map_entries limits <= usize_max.
Proof using Hlim.
  unfold limits_wf, limit_pairs in Hlim. simpl in Hlim.
  rewrite !andb_true_iff, !N.leb_le in Hlim. tauto.
Qed.

(** What it takes for [dec] to read back the encoding of [v]. *)
Definition reads_back (dec : list byte → Result (CborValue * list byte)) (v : CborValue) : Prop :=
  ∀ rest, dec (encode_value v ++ rest) = Ok (sort_maps v, rest).

Lemma decode_items_encode dec xs rest :
  Forall (reads_back dec) xs →
  decode_items dec (length xs) (concat (map encode_value xs) ++ rest) =
    Ok (map sort_maps xs, rest).
Proof.
  induction 1 as [|x xs Hx Hxs IH]; simpl; [done|].
  by rewrite <- app_assoc, Hx; simpl; rewrite IH.
Qed.

Lemma decode_pairs_encode dec ps prev rest :
  Forall (λ p, reads_back dec p.1 ∧ reads_back dec p.2) ps →
  StronglySorted (strictly bytes_leb) (map (λ p, encode_value p.1) ps) →
  (∀ q p, prev = Some q → p ∈ ps → strictly bytes_leb q (encode_value p.1)) →
  decode_pairs dec (length ps) prev (concat (map enc_entry ps) ++ rest) =
    Ok (map sort_pair ps, rest).
Proof.
  intros Hps. revert prev.
  induction Hps as [|[k v] ps [Hk Hv] Hps IH]; intros prev Hs Hprev; [done|].
  simpl in Hs. apply StronglySorted_cons in Hs as [Hfst Hs].
  cbn [length decode_pairs map concat]. unfold enc_entry at 1. cbn [fst snd].
  rewrite <- !app_assoc, Hk. cbn [mbind result_bind]. rewrite Hv. cbn [mbind result_bind].
  unfold encode_canonical. rewrite encode_sort_maps.
  cbn [fst snd]. assert (check_key_order prev (encode_value k) = Ok tt) as ->.
  { destruct prev as [q|]; [|done]. destruct (Hprev q (k, v)) as [Hle Hne]; [done|left|].
    simpl in *. rewrite bool_decide_eq_false_2 by done.
    unfold bytes_ltb. by rewrite Hle. }
  cbn [mbind result_bind]. rewrite IH; [done | done |].
  intros q p [= <-] Hp. rewrite Forall_forall in Hfst. apply Hfst.
  apply list_elem_of_fmap. eauto.
Qed.

(** Distinct keys in sorted order are strictly increasing. *)
Lemma sorted_keys_strict ps :
  NoDup (map (λ p, encode_value p.1) ps) →
  StronglySorted (strictly bytes_leb) (map (λ p, encode_value p.1) (sort_by pair_leb ps)).
Proof.
  intros Hnd. assert (NoDup (map (λ p, encode_value p.1) (sort_by pair_leb ps))) as Hnd'.
  { by rewrite sort_by_perm. }
  revert Hnd'. pose proof (pair_leb_sorted ps) as Hs. revert Hs.
  generalize (sort_by pair_leb ps) as qs. clear.
  induction 1 as [|q qs Hqs IH Hq]; simpl; [constructor|].
  intros [Hnin Hnd]%NoDup_cons. constructor; [by apply IH|].
  rewrite Forall_forall in Hq. apply Forall_forall. intros kb Hkb.
  split; [|by intros <-]. apply list_elem_of_fmap in Hkb as (p & -> & Hp). by apply Hq.
Qed.

Lemma decode_encode levels v rest :
  encodable limits levels v = true →
  decode_value limits levels (encode_value v ++ rest) = Ok (sort_maps v, rest).
Proof using Hlim.
  destruct limits_usize as (Hf & Ha & Hm).
  revert v rest. induction levels as [|levels IH]; intros v rest Henc; [done|].
  assert (∀ n, n <= usize_max → arg_to_usize n = Ok n) as Harg
    by (intros; by apply arg_to_usize_Ok).
  assert (∀ a b : N, a <= b → (b <? a) = false) as Hge by (intros; by apply N.ltb_ge).
  destruct v as [n|z|s|b|xs|ps|[]|]; simpl in Henc.
  - apply N.leb_le in Henc. cbn [encode_value sort_maps]. by rewrite decode_value_head.
  - apply andb_true_iff in Henc as [H1%Z.leb_le H2%Z.ltb_lt]. cbn [encode_value sort_maps].
    replace (0 <=? z)%Z with false by (symmetry; apply Z.leb_gt; lia).
    unfold i64_min in *. rewrite decode_value_head by (unfold u64_max; lia). simpl.
    replace (-1 - Z.of_N (Z.to_N (-1 - z)))%Z with z by lia.
    replace (z <? _)%Z with false by (symmetry; apply Z.ltb_ge; unfold i64_min; lia). done.
  - apply andb_true_iff in Henc as [Hu Hl%N.leb_le]. cbn [encode_value sort_maps].
    rewrite <- app_assoc, decode_value_head by (unfold usize_max in *; lia). simpl.
    rewrite Harg by lia. simpl. rewrite Hge, read_app by (rewrite <- ?slen_as_bytes; done).
    simpl. unfold from_utf8. rewrite Hu. simpl. by rewrite of_as_bytes.
  - apply N.leb_le in Henc. cbn [encode_value sort_maps].
    rewrite <- app_assoc, decode_value_head by (unfold usize_max in *; lia). simpl.
    rewrite Harg by lia. simpl. by rewrite Hge, read_app.
  - apply andb_true_iff in Henc as [Hl%N.leb_le Hxs]. cbn [encode_value sort_maps].
    rewrite <- app_assoc, decode_value_head by (unfold usize_max in *; lia). simpl.
    rewrite Harg by lia. simpl. rewrite Hge by done.
    replace (N.to_nat (len xs)) with (length xs) by (unfold len; lia).
    rewrite decode_items_encode; [done|].
    rewrite forallb_Forall in Hxs. eapply Forall_impl; [exact Hxs|]. intros x Hx r.
    by apply IH.
  - apply andb_true_iff in Henc as [Henc Hnd%bool_decide_eq_true].
    apply andb_true_iff in Henc as [Hl%N.leb_le Hps].
    rewrite encode_value_map, sort_maps_map.
    rewrite <- app_assoc, decode_value_head by (unfold usize_max in *; lia). simpl.
    rewrite Harg by lia. simpl. rewrite Hge by done.
    replace (N.to_nat (len ps)) with (length (sort_by pair_leb ps))
      by (rewrite length_sort_by; unfold len; lia).
    rewrite decode_pairs_encode.
    + rewrite <- (sort_by_map pair_leb pair_leb sort_pair); [done|].
      intros; apply pair_leb_sort_pair.
    + rewrite sort_by_perm. rewrite forallb_Forall in Hps. eapply Forall_impl; [exact Hps|].
      intros p Hp. apply andb_true_iff in Hp as [H1 H2].
      split; intros r; by apply IH.
    + by apply sorted_keys_strict.
    + done.
  - by cbn [encode_value app]; rewrite decode_value_cons.
  - by cbn [encode_value app]; rewrite decode_value_cons.
  - by cbn [encode_value app]; rewrite decode_value_cons.
Qed.
End decode_encode.

(** * Decoding, then encoding *)

Section encode_decode.
Context (limits : Limits).

(** What it takes for [dec] to accept only canonical input. *)
Definition accepts_canonical (levels : nat) (dec : list byte → Result (CborValue * list byte)) :=
  ∀ buf v rest, dec buf = Ok (v, rest) →
    buf = encode_value v ++ rest ∧ encodable limits levels v = true ∧ sort_maps v = v.

Lemma decode_items_canonical levels dec n buf xs rest :
  accepts_canonical levels dec →
  decode_items dec n buf = Ok (xs, rest) →
  buf = concat (map encode_value xs) ++ rest ∧ length xs = n ∧
  Forall (λ x, encodable limits levels x = true ∧ sort_maps x = x) xs.
Proof.
  intros Hdec. revert buf xs. induction n as [|n IH]; intros buf xs H; simpl in H.
  { by simplify_eq. }
  simplify_result. destruct (IH _ _ Ha0) as (-> & Hl & Hxs).
  destruct (Hdec _ _ _ Ha) as (-> & Henc & Hsort). simpl.
  rewrite <- app_assoc. split_and!; [done | lia | by constructor].
Qed.

Lemma decode_pairs_canonical levels dec n prev buf ps rest :
  accepts_canonical levels dec →
  decode_pairs dec n prev buf = Ok (ps, rest) →
  buf = concat (map enc_entry ps) ++ rest ∧ length ps = n ∧
  Forall (λ p, encodable limits levels p.1 && encodable limits levels p.2 = true ∧
               sort_pair p = p) ps ∧
  StronglySorted (strictly bytes_leb) (map (λ p, encode_value p.1) ps) ∧
  (∀ q, prev = Some q → Forall (strictly bytes_leb q) (map (λ p, encode_value p.1) ps)).
Proof.
  intros Hdec. revert prev buf ps. induction n as [|n IH]; intros prev buf ps H; simpl in H.
  { simplify_eq. split_and!; [done..|constructor|constructor|]. constructor. }
  simplify_result. rename c into k, c0 into val.
  destruct (Hdec _ _ _ Ha) as (-> & Hk & Hks).
  destruct (Hdec _ _ _ Ha0) as (-> & Hv & Hvs).
  destruct (IH _ _ _ Ha2) as (-> & Hl & Hps & Hsort & Hfst).
  specialize (Hfst _ eq_refl). simpl.
  split_and!.
  - unfold enc_entry at 2. simpl. by rewrite <- !app_assoc.
  - by rewrite Hl.
  - constructor; [|done]. unfold sort_pair. simpl. rewrite Hk, Hv, Hks, Hvs. done.
  - by constructor.
  - intros q ->. unfold check_key_order, encode_canonical in Ha1.
    case_bool_decide as Hne; [done|]. destruct (bytes_ltb (encode_value k) q) eqn:Hlt; [done|].
    assert (strictly bytes_leb q (encode_value k)) as [Hle Hqk].
    { split; [|done]. unfold bytes_ltb in Hlt. by apply negb_false_iff in Hlt. }
    constructor; [done|]. eapply Forall_impl; [exact Hfst|]. intros kb [Hkb Hkne].
    split; [by eapply leb_trans|]. intros ->. by apply Hqk, leb_antisym.
Qed.

Lemma strictly_NoDup (l : list (list byte)) : StronglySorted (strictly bytes_leb) l → NoDup l.
Proof.
  induction 1 as [|x l Hl IH Hx]; constructor; [|done].
  rewrite Forall_forall in Hx. intros Hin. by destruct (Hx x Hin).
Qed.

Lemma strict_keys_sorted ps :
  StronglySorted (strictly bytes_leb) (map (λ p, encode_value p.1) ps) →
  StronglySorted (λ x y, pair_leb x y = true) ps.
Proof.
  induction ps as [|p ps IH]; simpl; [constructor|].
  intros [Hp Hps]%StronglySorted_cons. constructor; [by apply IH|].
  apply Forall_forall. intros q Hq. rewrite Forall_forall in Hp.
  apply Hp. apply list_elem_of_fmap. eauto.
Qed.

Lemma decode_canonical levels : accepts_canonical levels (decode_value limits levels).
Proof.
  induction levels as [|levels IH]; intros buf v rest H; [done|].
  apply decode_value_inv in H as [(major & n & buf' & Hm & Hn & -> & H)|[Hv ->]].
  2: { set_unfold. by destruct_or!; subst. }
  assert (major = 5 ∨ major = 3 ∨ major = 4 ∨ major = 2 ∨ major = 1 ∨ major = 0)
    as [-> | [-> | [-> | [-> | [-> | ->]]]]] by lia; simpl in H.
  - (* 5: map *)
    apply bind_Ok in H as (l & [-> _]%arg_to_usize_Ok & H).
    destruct (N.ltb_spec (max_map_entries limits) l) as [|Hl]; [done|].
    simplify_result. destruct (decode_pairs_canonical _ _ _ _ _ _ _ IH Ha)
      as (-> & Hlen & Hps & Hs & _).
    pose proof (strict_keys_sorted _ Hs) as Hsorted.
    assert (len l0 = l) as Hlenl by (unfold len; lia).
    split_and!.
    + rewrite encode_value_map, (sort_by_id _ l0), Hlenl by done. by rewrite app_assoc.
    + simpl. rewrite Hlenl. rewrite !andb_true_iff. split_and!.
      * by apply N.leb_le.
      * apply forallb_Forall. eapply Forall_impl; [exact Hps|]. intros p [-> _]. done.
      * apply bool_decide_eq_true. by apply strictly_NoDup.
    + rewrite sort_maps_map. f_equal. rewrite (map_id_on sort_pair l0).
      * by apply sort_by_id.
      * eapply Forall_impl; [exact Hps|]. by intros p [_ ?].
  - (* 3: text *)
    apply bind_Ok in H as (l & [-> _]%arg_to_usize_Ok & H).
    destruct (N.ltb_spec (max_field_size limits) l) as [|Hl]; [done|].
    simplify_result. apply read_Ok in Ha as [-> Hlen]. unfold from_utf8 in Ha0.
    destruct (utf8_valid l0) eqn:Hu; simplify_eq. simpl.
    rewrite slen_as_bytes, as_of_bytes, Hu. simpl.
    split_and!; [by rewrite app_assoc | by apply N.leb_le | done].
  - (* 4: array *)
    apply bind_Ok in H as (l & [-> _]%arg_to_usize_Ok & H).
    destruct (N.ltb_spec (max_array_items limits) l) as [|Hl]; [done|].
    simplify_result. destruct (decode_items_canonical _ _ _ _ _ _ IH Ha) as (-> & Hlen & Hxs).
    assert (len l0 = l) as Hlenl by (unfold len; lia). simpl. rewrite Hlenl.
    split_and!.
    + by rewrite app_assoc.
    + rewrite andb_true_iff. split; [by apply N.leb_le|]. apply forallb_Forall.
      eapply Forall_impl; [exact Hxs|]. intros x [-> _]. done.
    + f_equal. apply map_id_on. eapply Forall_impl; [exact Hxs|]. by intros x [_ ?].
  - (* 2: bytes *)
    apply bind_Ok in H as (l & [-> _]%arg_to_usize_Ok & H).
    destruct (N.ltb_spec (max_field_size limits) l) as [|Hl]; [done|].
    simplify_result. apply read_Ok in Ha as [-> <-]. simpl.
    split_and!; [by rewrite app_assoc | by apply N.leb_le | done].
  - (* 1: negative integer *)
    destruct (Z.ltb_spec (-1 - Z.of_N n) i64_min) as [|Hz]; [done|]. simplify_eq.
    cbn [encode_value encodable sort_maps].
    replace (0 <=? -1 - Z.of_N n)%Z with false by (symmetry; apply Z.leb_gt; lia).
    replace (Z.to_N (-1 - (-1 - Z.of_N n))) with n by lia.
    split_and!; [done | | done]. rewrite andb_true_iff, Z.leb_le, Z.ltb_lt. lia.
  - (* 0: unsigned integer *)
    simplify_eq. cbn [encode_value encodable sort_maps].
    split_and!; [done | by apply N.leb_le | done].
Qed.
End encode_decode.

(** * Canonical values

    A value in canonical form: map keys strictly increasing in bytewise order
    of their encodings, at every level. *)
Fixpoint canonical_value (v : CborValue) : bool :=
  match v with
  | Array xs => forallb canonical_value xs
  | Map ps =>
      forallb (λ p, canonical_value p.1 && canonical_value p.2) ps
      && (let ks := map (λ p, encode_value p.1) ps in
          bool_decide (sort_by bytes_leb ks = ks) && bool_decide (NoDup ks))
  | _ => true
  end.

Lemma sorted_strictly (ks : list (list byte)) :
  StronglySorted (strictly bytes_leb) ks ↔ sort_by bytes_leb ks = ks ∧ NoDup ks.
Proof.
  split.
  - intros H. split; [|by apply strictly_NoDup]. apply sort_by_id.
    induction H as [|x l Hl IH Hx]; constructor; [done|].
    eapply Forall_impl; [exact Hx|]. by intros ? [].
  - intros [Hs Hnd]. pose proof (sort_by_sorted bytes_leb leb_total leb_trans ks) as H.
    rewrite Hs in H. clear Hs. induction H as [|x l Hl IH Hx]; constructor.
    + apply IH. by apply NoDup_cons in Hnd as [_ ?].
    + apply NoDup_cons in Hnd as [Hnin _]. rewrite Forall_forall in *.
      intros y Hy. split; [by apply Hx|]. by intros ->.
Qed.

Lemma canonical_value_map ps :
  canonical_value (Map ps) = true ↔
  Forall (λ p, canonical_value p.1 = true ∧ canonical_value p.2 = true) ps ∧
  StronglySorted (strictly bytes_leb) (map (λ p, encode_value p.1) ps).
Proof.
  cbn [canonical_value]. rewrite !andb_true_iff, !bool_decide_eq_true, forallb_Forall, sorted_strictly.
  by setoid_rewrite andb_true_iff.
Qed.

Lemma canonical_sort_maps v : canonical_value v = true → sort_maps v = v.
Proof.
  induction v as [| | | |xs IH|ps IH| |] using CborValue_ind; try done.
  - simpl. rewrite forallb_Forall. intros H. f_equal. apply map_id_on.
    rewrite Forall_forall in *. auto.
  - rewrite canonical_value_map. intros [Hps Hs]. rewrite sort_maps_map. f_equal.
    rewrite map_id_on; [by apply sort_by_id, strict_keys_sorted|].
    rewrite Forall_forall in *. intros [k x] Hp. unfold sort_pair. simpl.
    destruct (IH _ Hp) as [IH1 IH2], (Hps _ Hp). f_equal; auto.
Qed.

Lemma encodable_canonical limits levels v :
  encodable limits levels v = true → canonical_value (sort_maps v) = true.
Proof.
  revert levels. induction v as [| | | |xs IH|ps IH| |] using CborValue_ind; try done;
    intros [|levels] He; try done.
  - simpl in *. apply andb_true_iff in He as [_ He]. rewrite !forallb_Forall in *.
    apply Forall_map. rewrite Forall_forall in *. eauto.
  - rewrite sort_maps_map. apply canonical_value_map. simpl in He.
    rewrite !andb_true_iff, bool_decide_eq_true, forallb_Forall in He.
    destruct He as [[_ Hps] Hnd]. split.
    + rewrite sort_by_perm. apply Forall_map. rewrite Forall_forall in *. intros p Hp.
      destruct (IH _ Hp) as [IH1 IH2]. specialize (Hps _ Hp).
      apply andb_true_iff in Hps as []. simpl. eauto.
    + apply sorted_keys_strict. rewrite map_map.
      erewrite map_ext; [exact Hnd|]. intros p. simpl. apply encode_sort_maps.
Qed.

(** * What the codec guarantees *)

Lemma decode_strict_of_encode limits v :
  limits_wf limits = true → encodable limits (levels_at_root limits) v = true →
  len (encode_canonical v) <= max_proof_size limits →
  decode_strict (encode_canonical v) limits = Ok (sort_maps v).
Proof.
  intros Hlim Henc Hsize. unfold decode_strict. rewrite (proj2 (N.ltb_ge _ _)) by done.
  unfold encode_canonical. rewrite <- (app_nil_r (encode_value v)).
  by rewrite decode_encode.
Qed.

(** Round trip.  A value within the limits, encoded deterministically, is
    accepted by the strict decoder, which returns the value with its maps in
    canonical key order. *)
Theorem decode_strict_encode limits v
  (Hlim : limits_wf limits = true)
  (Henc : encodable limits (levels_at_root limits) v = true)
  (Hsize : len (encode_canonical v) <= max_proof_size limits) :
  decode_strict (encode_canonical v) limits = Ok (sort_maps v).
Proof. by apply decode_strict_of_encode. Qed.

Definition sample_value : CborValue :=
  Map [(Text "v", Uint 1); (Text "a", Array [Nint (-5); Bool true; Null]);
       (Text "body", Bytes [Byte.x00; Byte.xff])].

(** The converse direction, shared by the theorems below. *)
Lemma decode_strict_inv limits bytes v :
  decode_strict bytes limits = Ok v →
  encode_canonical v = bytes ∧ sort_maps v = v ∧
  encodable limits (levels_at_root limits) v = true ∧ len bytes <= max_proof_size limits.
Proof.
  unfold decode_strict. destruct (N.ltb_spec (max_proof_size limits) (len bytes)); [done|].
  intros H1. apply bind_Ok in H1 as ([w rest] & Hd & H1).
  apply decode_canonical in Hd as (-> & Henc & Hs).
  destruct rest as [|b rest]; [|done]. simplify_eq/=. unfold encode_canonical.
  by rewrite app_nil_r in *.
Qed.

(** C31: canonicality.  Whatever the strict decoder accepts is byte for byte the
    deterministic encoding of the value it returns, that value is map-sorted
    and within the limits: there is no second accepted encoding. *)
Theorem decode_strict_canonical limits bytes v
  (H : decode_strict bytes limits = Ok v) :
  encode_canonical v = bytes ∧ sort_maps v = v ∧
  encodable limits (levels_at_root limits) v = true ∧ len bytes <= max_proof_size limits.
Proof. by apply decode_strict_inv. Qed.

Lemma decode_strict_canonical_witness :
  encode_canonical (Array [Uint 24]) = [Byte.x81; Byte.x18; Byte.x18].
Proof.
  refine (proj1 (decode_strict_canonical default_limits _ _ _)). vm_compute. reflexivity.
Defined.

Lemma recheck_redundant bytes limits :
  decode_and_check_canonical bytes limits = decode_strict bytes limits ∧
  is_canonical bytes limits = (_ ← decode_strict bytes limits; Ok true).
Proof.
  unfold decode_and_check_canonical, is_canonical.
  destruct (decode_strict bytes limits) as [v|e] eqn:Hd; simpl; [|done].
  apply decode_strict_inv in Hd as (Hc & _).
  rewrite (bool_decide_eq_true_2 (encode_canonical v = bytes)) by done.
  rewrite bool_decide_eq_false_2; [done|]. intros Hne. by apply Hne.
Qed.

(** The deterministic encoding is injective up to the order of map entries,
    so digests of encodings identify values and not only byte strings. *)
Theorem encode_canonical_inj limits levels v w
  (Hlim : limits_wf limits = true)
  (Hv : encodable limits levels v = true) (Hw : encodable limits levels w = true) :
  encode_canonical v = encode_canonical w ↔ sort_maps v = sort_maps w.
Proof.
  unfold encode_canonical. split; intros Heq.
  - pose proof (decode_encode limits Hlim levels v [] Hv) as H1.
    pose proof (decode_encode limits Hlim levels w [] Hw) as H2.
    rewrite Heq in H1. congruence.
  - rewrite <- (encode_sort_maps v), <- (encode_sort_maps w). by rewrite Heq.
Qed.

(** [k] nested one-element array heads. *)
Fixpoint nested (k : nat) (tail : list byte) : list byte :=
  match k with O => tail | S k' => Byte.x81 :: nested k' tail end.

(** The decoder's nesting guard.  An array nested [max_depth + 1] levels
    below the root is refused with [LimitExceeded], whatever follows. *)
Theorem decode_depth_bound limits levels tail
  (Hlim : 1 <= max_array_items limits) :
  decode_value limits levels (nested levels tail) = Err ErrorCode.LimitExceeded.
Proof.
  induction levels as [|levels IH]; [done|]. cbn [nested].
  change (Byte.x81 :: nested levels tail) with (encode_head 4 1 ++ nested levels tail).
  rewrite decode_value_head by done. unfold decode_args. change (arg_to_usize 1) with (Ok 1 : Result N).
  cbn [mbind result_bind]. destruct (N.ltb_spec (max_array_items limits) 1); [done|].
  change (N.to_nat 1) with 1%nat. cbn [decode_items]. by rewrite IH.
Qed.

(** Negative integers stop at [-2^63]: [Nint] holds an [i64], and an
    argument from [2^63] up to [2^64 - 1], well-formed CBOR, is refused. *)
Theorem decode_nint_range limits levels n rest (Hn : n <= u64_max) :
  decode_value limits (S levels) (encode_head 1 n ++ rest) =
    if n <? 2 ^ 63 then Ok (Nint (-1 - Z.of_N n), rest)
    else Err ErrorCode.ForbiddenCborConstruct.
Proof.
  rewrite decode_value_head by done. simpl. unfold i64_min.
  destruct (N.ltb_spec n (2 ^ 63)), (Z.ltb_spec (-1 - Z.of_N n) (-9223372036854775808));
    done || lia.
Qed.

