(* ===== verification/Schema.v ===== *)
(** Schema: the closed wire schemas of [crates/proof-format/src/schema.rs].

    One printer [X_to_cbor] and one closed parser [cbor_to_X] per wire object.
    The parsers keep the source's order of checks, so that the error code of an
    input with several defects is the one the code reports.  The theorems show
    that printing a well-formed object and parsing its canonical form gives the
    object back, that every parsed object is well formed, and when a parsed
    object prints to the bytes it came from. *)
From Stdlib Require Import Strings.Byte NArith Lia.
From S2P Require Import Prelude Core Cbor External.

Abbreviation SchemaErr := (Err ErrorCode.SchemaViolation).
Abbreviation pairs_t := (list (CborValue * CborValue)).

(** * Field access *)

(** [map.iter().find(|(k, _)| matches!(k, CborValue::Text(s) if s == key))]. *)
Definition is_key (key : string) (k : CborValue) : bool :=
  match k with Text s => bool_decide (s = key) | _ => false end.
Fixpoint find_field (map : pairs_t) (key : string) : option CborValue :=
  match map with
  | [] => None
  | (k, v) :: map' => if is_key key k then Some v else find_field map' key
  end.

Definition text_field (map : pairs_t) (key : string) : Result string :=
  match find_field map key with
  | Some (Text s) => if sempty s || (1024 <? slen s) then SchemaErr else Ok s
  | Some _ => SchemaErr
  | None => SchemaErr
  end.

Definition uint_field (map : pairs_t) (key : string) : Result N :=
  match find_field map key with
  | Some (Uint n) => Ok n
  | Some _ => SchemaErr
  | None => SchemaErr
  end.

Definition opt_text_or_nil (map : pairs_t) (key : string) : Result (option string) :=
  match find_field map key with
  | Some Null => Ok None
  | Some (Text s) => if sempty s || (1024 <? slen s) then SchemaErr else Ok (Some s)
  | Some _ => SchemaErr
  | None => SchemaErr
  end.

Definition opt_ref_or_nil (map : pairs_t) (key prefix : string) : Result (option string) :=
  o ← opt_text_or_nil map key;
  match o with
  | None => Ok None
  | Some s => if negb (starts_with prefix s) then SchemaErr else Ok (Some s)
  end.

Definition opt_uint_or_nil (map : pairs_t) (key : string) : Result (option N) :=
  match find_field map key with
  | Some Null => Ok None
  | Some (Uint n) => Ok (Some n)
  | Some _ => SchemaErr
  | None => SchemaErr
  end.

Definition check_version (map : pairs_t) : Result unit :=
  match find_field map "v" with
  | Some (Uint 1) => Ok tt
  | Some _ => Err ErrorCode.UnsupportedVersion
  | None => SchemaErr
  end.

Fixpoint check_closed (map : pairs_t) (allowed : list string) : Result unit :=
  match map with
  | [] => Ok tt
  | (Text kk, _) :: map' =>
      if negb (bool_decide (kk ∈ allowed)) then SchemaErr else check_closed map' allowed
  | _ :: _ => SchemaErr
  end.

Definition as_map (v : CborValue) : Result pairs_t :=
  match v with Map p => Ok p | _ => SchemaErr end.

Definition field (map : pairs_t) (key : string) : Result CborValue :=
  ok_or (find_field map key) ErrorCode.SchemaViolation.

Definition void_limits (l : Limits) : Result unit := Ok tt.

(** * Metadata scalars *)

Definition meta_value_from_cbor (v : CborValue) : Result MetaValue :=
  match v with
  | Text s => if 1024 <? slen s then SchemaErr else Ok (MText s)
  | Uint n => Ok (MUint n)
  | Bool b => Ok (MBool b)
  | _ => SchemaErr
  end.

Definition meta_value_to_cbor (m : MetaValue) : CborValue :=
  match m with MText s => Text s | MUint n => Uint n | MBool b => Bool b end.

(** The metadata / context loop: text keys of at most 64 bytes, no repetition
    ([seen] is the [HashSet]). *)
Fixpoint meta_entries (seen : gset string) (pairs : pairs_t) : Result (list (string * MetaValue)) :=
  match pairs with
  | [] => Ok []
  | (k, val) :: pairs' =>
      match k with
      | Text ks =>
          if (64 <? slen ks) || bool_decide (ks ∈ seen) then SchemaErr else
          m ← meta_value_from_cbor val;
          ms ← meta_entries ({[ks]} ∪ seen) pairs';
          Ok ((ks, m) :: ms)
      | _ => SchemaErr
      end
  end.

(** The metadata pairs as the printers emit them. *)
Definition meta_to_cbor (l : list (string * MetaValue)) : pairs_t :=
  map (λ '(k, v), (Text k, meta_value_to_cbor v)) l.

(** The block that reads a flat scalar map, shared by [metadata] and [context]. *)
Definition meta_field (map : pairs_t) (key : string) : Result (list (string * MetaValue)) :=
  c ← field map key;
  pairs ← as_map c;
  if 16 <? len pairs then Err ErrorCode.LimitExceeded else
  meta_entries ∅ pairs.

(** * Hash references *)

Definition hashref_to_cbor (h : HashRef) : CborValue :=
  Map [ (Text "alg", Uint (HashAlgorithm.cbor_enum (hr_alg h)));
        (Text "digest", Bytes (hr_digest h));
        (Text "v", Uint (hr_v h)) ].

(** The [find_map] that reads [digest]: the first byte-string value under the key. *)
Fixpoint find_digest (map : pairs_t) : option (list byte) :=
  match map with
  | [] => None
  | (k, val) :: map' =>
      match is_key "digest" k, val with
      | true, Bytes b => Some b
      | _, _ => find_digest map'
      end
  end.

Definition hashref_from_cbor (v : CborValue) : Result HashRef :=
  map ← as_map v;
  _ ← check_closed map ["v"; "alg"; "digest"];
  _ ← check_version map;
  alg_n ← uint_field map "alg";
  alg ← HashAlgorithm.from_cbor_enum alg_n;
  digest ← ok_or (find_digest map) ErrorCode.SchemaViolation;
  HashRef_new alg digest.

(** * Events *)

Definition EVENT_FIELDS : list string :=
  ["effective_at"; "metadata"; "payload_ref"; "subject"; "type"; "v"].

Definition event_to_cbor (e : EventContent) : Result CborValue :=
  if negb (ev_v e =? 1) then Err ErrorCode.UnsupportedVersion else
  Ok (Map [ (Text "effective_at", Uint (ev_effective_at e));
            (Text "metadata", Map (meta_to_cbor (ev_metadata e)));
            (Text "payload_ref", hashref_to_cbor (ev_payload_ref e));
            (Text "subject", Text (ev_subject e));
            (Text "type", Text (ev_type e));
            (Text "v", Uint 1) ]).

Definition cbor_to_event (v : CborValue) (limits : Limits) : Result EventContent :=
  map ← as_map v;
  if max_map_entries limits <? len map then Err ErrorCode.LimitExceeded else
  _ ← check_closed map EVENT_FIELDS;
  _ ← check_version map;
  event_type ← text_field map "type";
  subject ← text_field map "subject";
  effective_at ← uint_field map "effective_at";
  pref ← field map "payload_ref";
  payload_ref ← hashref_from_cbor pref;
  metadata ← meta_field map "metadata";
  Ok {| ev_v := 1; ev_type := event_type; ev_subject := subject;
        ev_effective_at := effective_at; ev_payload_ref := payload_ref;
        ev_metadata := metadata |}.

(** * Attestations *)

Definition ATT_FIELDS : list string :=
  ["claim"; "evidence_ref"; "expires_at"; "issued_at"; "issuer"; "subject"; "v"].

Definition opt_text_to_cbor (o : option string) : CborValue :=
  match o with Some s => Text s | None => Null end.
Definition opt_uint_to_cbor (o : option N) : CborValue :=
  match o with Some n => Uint n | None => Null end.

Definition claim_to_cbor (c : Claim) : CborValue :=
  Map ((Text "type", Text (claim_type c)) :: meta_to_cbor (claim_fields c)).

Definition attestation_to_cbor (a : AttestationContent) : CborValue :=
  Map [ (Text "claim", claim_to_cbor (att_claim a));
        (Text "evidence_ref", opt_text_to_cbor (att_evidence_ref a));
        (Text "expires_at", opt_uint_to_cbor (att_expires_at a));
        (Text "issued_at", Uint (att_issued_at a));
        (Text "issuer", Text (att_issuer a));
        (Text "subject", Text (att_subject a));
        (Text "v", Uint (att_v a)) ].

(** The claim loop: the reserved [type] entry and the remaining scalar fields,
    in order, over [(claim_type, seen)]. *)
Fixpoint claim_entries (ty : option string) (seen : gset string) (pairs : pairs_t)
    : Result (option string * list (string * MetaValue)) :=
  match pairs with
  | [] => Ok (ty, [])
  | (k, val) :: pairs' =>
      match k with
      | Text ks =>
          if bool_decide (ks ∈ seen) then SchemaErr else
          if bool_decide (ks = "type") then
            match val with
            | Text s =>
                if sempty s || (128 <? slen s) then SchemaErr
                else claim_entries (Some s) ({[ks]} ∪ seen) pairs'
            | _ => SchemaErr
            end
          else
            m ← meta_value_from_cbor val;
            '(ty', ms) ← claim_entries ty ({[ks]} ∪ seen) pairs';
            Ok (ty', (ks, m) :: ms)
      | _ => SchemaErr
      end
  end.

Definition cbor_to_claim (v : CborValue) : Result Claim :=
  pairs ← as_map v;
  if (16 <? len pairs) || (len pairs =? 0) then SchemaErr else
  '(ty, fields) ← claim_entries None ∅ pairs;
  claim_type ← ok_or ty ErrorCode.SchemaViolation;
  Ok {| claim_type := claim_type; claim_fields := fields |}.

Definition cbor_to_attestation (v : CborValue) (limits : Limits) : Result AttestationContent :=
  map ← as_map v;
  if max_map_entries limits <? len map then Err ErrorCode.LimitExceeded else
  _ ← check_closed map ATT_FIELDS;
  _ ← check_version map;
  issuer ← text_field map "issuer";
  subject ← text_field map "subject";
  issued_at ← uint_field map "issued_at";
  expires_at ← opt_uint_or_nil map "expires_at";
  evidence_ref ← opt_ref_or_nil map "evidence_ref" "evd:v1:";
  if match expires_at with Some e => e <? issued_at | None => false end then SchemaErr else
  claim_cbor ← field map "claim";
  claim ← cbor_to_claim claim_cbor;
  _ ← void_limits limits;
  Ok {| att_v := 1; att_issuer := issuer; att_subject := subject; att_claim := claim;
        att_issued_at := issued_at; att_expires_at := expires_at;
        att_evidence_ref := evidence_ref |}.

(** * Evidence *)

Definition EVIDENCE_FIELDS : list string := ["attestation_ref"; "digest"; "hint"; "kind"; "v"].

Definition evidence_to_cbor (e : Evidence) : CborValue :=
  Map [ (Text "attestation_ref", opt_text_to_cbor (evd_attestation_ref e));
        (Text "digest", hashref_to_cbor (evd_digest e));
        (Text "hint", opt_text_to_cbor (evd_hint e));
        (Text "kind", Text (evd_kind e));
        (Text "v", Uint (evd_v e)) ].

Definition cbor_to_evidence (v : CborValue) (limits : Limits) : Result Evidence :=
  map ← as_map v;
  if max_map_entries limits <? len map then Err ErrorCode.LimitExceeded else
  _ ← check_closed map EVIDENCE_FIELDS;
  _ ← check_version map;
  kind ← text_field map "kind";
  digest_cbor ← field map "digest";
  digest ← hashref_from_cbor digest_cbor;
  attestation_ref ← opt_ref_or_nil map "attestation_ref" "att:v1:";
  hint ← opt_text_or_nil map "hint";
  if match hint with Some s => 256 <? slen s | None => false end then SchemaErr else
  _ ← void_limits limits;
  Ok {| evd_v := 1; evd_kind := kind; evd_digest := digest;
        evd_attestation_ref := attestation_ref; evd_hint := hint |}.

(** * Relationships *)

Definition REL_FIELDS : list string :=
  ["attestation_ref"; "evidence_ref"; "from"; "to"; "type"; "v"].

Definition relationship_to_cbor (r : Relationship) : CborValue :=
  Map [ (Text "attestation_ref", opt_text_to_cbor (rel_attestation_ref r));
        (Text "evidence_ref", opt_text_to_cbor (rel_evidence_ref r));
        (Text "from", Text (rel_from r));
        (Text "to", Text (rel_to r));
        (Text "type", Text (rel_type r));
        (Text "v", Uint (rel_v r)) ].

Definition cbor_to_relationship (v : CborValue) (limits : Limits) : Result Relationship :=
  map ← as_map v;
  if max_map_entries limits <? len map then Err ErrorCode.LimitExceeded else
  _ ← check_closed map REL_FIELDS;
  _ ← check_version map;
  from ← text_field map "from";
  to ← text_field map "to";
  if bool_decide (from = to) then SchemaErr else
  rel_type ← text_field map "type";
  evidence_ref ← opt_ref_or_nil map "evidence_ref" "evd:v1:";
  attestation_ref ← opt_ref_or_nil map "attestation_ref" "att:v1:";
  _ ← void_limits limits;
  Ok {| rel_v := 1; rel_from := from; rel_type := rel_type; rel_to := to;
        rel_evidence_ref := evidence_ref; rel_attestation_ref := attestation_ref |}.

(** * Propositions *)

Definition PROP_FIELDS : list string :=
  ["at_time"; "context"; "kind"; "object"; "predicate"; "subject"; "v"].

Definition proposition_to_cbor (p : Proposition_) : CborValue :=
  Map [ (Text "at_time", opt_uint_to_cbor (prop_at_time p));
        (Text "context", Map (meta_to_cbor (prop_context p)));
        (Text "kind", Text (prop_kind p));
        (Text "object", opt_text_to_cbor (prop_object p));
        (Text "predicate", Text (prop_predicate p));
        (Text "subject", Text (prop_subject p));
        (Text "v", Uint (prop_v p)) ].

Definition cbor_to_proposition (v : CborValue) (limits : Limits) : Result Proposition_ :=
  map ← as_map v;
  if max_map_entries limits <? len map then Err ErrorCode.LimitExceeded else
  _ ← check_closed map PROP_FIELDS;
  _ ← check_version map;
  kind ← text_field map "kind";
  subject ← text_field map "subject";
  predicate ← text_field map "predicate";
  object ← opt_text_or_nil map "object";
  at_time ← opt_uint_or_nil map "at_time";
  context ← meta_field map "context";
  _ ← void_limits limits;
  Ok {| prop_v := 1; prop_kind := kind; prop_subject := subject; prop_predicate := predicate;
        prop_object := object; prop_at_time := at_time; prop_context := context |}.

(** * Proofs *)

Definition PROOF_FIELDS : list string :=
  ["attestations"; "created_at"; "events"; "evidence"; "proof_id"; "proposition";
   "referenced_proofs"; "relationships"; "v"; "vocabularies"].

Definition attestation_entry_to_cbor (a : StoredAttestation) : CborValue :=
  Map [ (Text "content", attestation_to_cbor (sa_content a));
        (Text "sign1", Bytes (sa_sign1 a)) ].

Definition cbor_to_attestation_entry (v : CborValue) (limits : Limits) : Result StoredAttestation :=
  map ← as_map v;
  _ ← check_closed map ["content"; "sign1"];
  content_cbor ← field map "content";
  content ← cbor_to_attestation content_cbor limits;
  sign1_cbor ← field map "sign1";
  sign1 ← match sign1_cbor with
          | Bytes b =>
              if (len b =? 0) || (max_proof_size limits <? len b)
              then Err ErrorCode.LimitExceeded else Ok b
          | _ => SchemaErr
          end;
  Ok {| sa_content := content; sa_sign1 := sign1 |}.

Definition vocabulary_to_cbor (vd : VocabularyDecl) : CborValue :=
  Map [ (Text "ns", Text (voc_ns vd)); (Text "version", Uint (voc_version vd)) ].

Definition proof_to_cbor (p : Proof_) : Result CborValue :=
  events ← mapM event_to_cbor (prf_events p);
  let pairs :=
    [ (Text "attestations", Array (map attestation_entry_to_cbor (prf_attestations p)));
      (Text "created_at", Uint (prf_created_at p));
      (Text "events", Array events);
      (Text "evidence", Array (map evidence_to_cbor (prf_evidence p)));
      (Text "proof_id", Text (prf_proof_id p));
      (Text "proposition", proposition_to_cbor (prf_proposition p));
      (Text "relationships", Array (map relationship_to_cbor (prf_relationships p)));
      (Text "v", Uint 1) ] in
  let refs :=
    if negb (len (prf_referenced_proofs p) =? 0)
    then [(Text "referenced_proofs", Array (map Text (prf_referenced_proofs p)))] else [] in
  let vocabs :=
    if negb (len (prf_vocabularies p) =? 0)
    then [(Text "vocabularies", Array (map vocabulary_to_cbor (prf_vocabularies p)))] else [] in
  Ok (Map (pairs ++ refs ++ vocabs)).

Definition cbor_array (map : pairs_t) (key : string) : Result (list CborValue) :=
  v ← field map key;
  match v with Array a => Ok a | _ => SchemaErr end.

(** The tail of [cbor_to_vocabularies]: strictly increasing namespaces. *)
Definition voc_ns_leb (a b : VocabularyDecl) : bool := str_leb (voc_ns a) (voc_ns b).
Definition same_ns (a b : VocabularyDecl) : bool := bool_decide (voc_ns a = voc_ns b).
Definition vocabularies_sorted (out : list VocabularyDecl) : bool :=
  let sorted := dedup_by same_ns (sort_by voc_ns_leb out) in
  negb (negb (len sorted =? len out)
        || bool_decide (map voc_ns sorted ≠ map voc_ns out)).

Definition cbor_to_vocabulary (item : CborValue) : Result VocabularyDecl :=
  pairs ← as_map item;
  _ ← check_closed pairs ["ns"; "version"];
  ns ← text_field pairs "ns";
  if sempty ns || (128 <? slen ns) then SchemaErr else
  if contains_char colon ns || contains_whitespace ns then SchemaErr else
  version ← uint_field pairs "version";
  Ok {| voc_ns := ns; voc_version := version |}.

Definition cbor_to_vocabularies (map : pairs_t) (limits : Limits) : Result (list VocabularyDecl) :=
  match find_field map "vocabularies" with
  | None => Ok []
  | Some (Array arr) =>
      if max_vocabularies limits <? len arr then Err ErrorCode.LimitExceeded else
      out ← mapM cbor_to_vocabulary arr;
      if vocabularies_sorted out then Ok out else SchemaErr
  | Some _ => SchemaErr
  end.

Section proof_schema.
Context `{Base64Url}.

(** [schema.rs::check_proof_ref_shape]. *)
Definition check_proof_ref_shape (id : string) : Result unit :=
  rest ← ok_or (strip_prefix "prf:v1:" id) ErrorCode.SchemaViolation;
  raw ← ok_or (b64_decode rest) ErrorCode.SchemaViolation;
  if bool_decide (b64_encode raw ≠ rest) then SchemaErr else
  if negb (len raw =? 32) then SchemaErr else Ok tt.

Definition cbor_to_proof_ref (item : CborValue) : Result string :=
  match item with
  | Text s => _ ← check_proof_ref_shape s; Ok s
  | _ => SchemaErr
  end.

(** The [referenced_proofs] block of [cbor_to_proof]. *)
Definition cbor_to_referenced_proofs (map : pairs_t) (limits : Limits) : Result (list string) :=
  match find_field map "referenced_proofs" with
  | None => Ok []
  | Some (Array items) =>
      if max_referenced_proofs limits <? len items then Err ErrorCode.LimitExceeded else
      refs ← mapM cbor_to_proof_ref items;
      let sorted := dedup_by (λ a b, bool_decide (a = b)) (sort_by str_leb refs) in
      if negb (len sorted =? len refs) || bool_decide (sorted ≠ refs) then SchemaErr
      else Ok refs
  | Some _ => SchemaErr
  end.

Definition cbor_to_proof (v : CborValue) (limits : Limits) : Result Proof_ :=
  map ← as_map v;
  _ ← check_closed map PROOF_FIELDS;
  _ ← check_version map;
  proof_id ← text_field map "proof_id";
  if negb (starts_with "prf:v1:" proof_id) then SchemaErr else
  prop_cbor ← field map "proposition";
  proposition ← cbor_to_proposition prop_cbor limits;
  created_at ← uint_field map "created_at";
  events_cbor ← cbor_array map "events";
  events ← mapM (λ item, cbor_to_event item limits) events_cbor;
  attestations_cbor ← cbor_array map "attestations";
  attestations ← mapM (λ item, cbor_to_attestation_entry item limits) attestations_cbor;
  evidence_cbor ← cbor_array map "evidence";
  evidence ← mapM (λ item, cbor_to_evidence item limits) evidence_cbor;
  relationships_cbor ← cbor_array map "relationships";
  relationships ← mapM (λ item, cbor_to_relationship item limits) relationships_cbor;
  referenced_proofs ← cbor_to_referenced_proofs map limits;
  if max_edges limits <? len relationships then Err ErrorCode.LimitExceeded else
  if max_nodes limits <? len events + len attestations + len evidence
  then Err ErrorCode.LimitExceeded else
  _ ← void_limits limits;
  vocabularies ← cbor_to_vocabularies map limits;
  Ok {| prf_v := 1; prf_proof_id := proof_id; prf_proposition := proposition;
        prf_events := events; prf_attestations := attestations; prf_evidence := evidence;
        prf_relationships := relationships; prf_referenced_proofs := referenced_proofs;
        prf_vocabularies := vocabularies; prf_created_at := created_at |}.
End proof_schema.

(** * Closed records

    A record is printed as a list [q] of named values.  On a canonical map, the
    parser's view of the record (the closed key set and the named lookups) pins
    the map down completely. *)

Definition to_pairs (q : list (string * CborValue)) : pairs_t :=
  map (λ '(k, v), (Text k, v)) q.

Lemma find_field_cons key k v m :
  find_field ((Text k, v) :: m) key = if String.eqb k key then Some v else find_field m key.
Proof.
  simpl. destruct (String.eqb_spec k key); [by rewrite bool_decide_eq_true_2|].
  by rewrite bool_decide_eq_false_2.
Qed.

Lemma find_field_Some m key v : find_field m key = Some v → (Text key, v) ∈ m.
Proof.
  induction m as [|[k w] m IH]; simpl; [done|]. destruct (is_key key k) eqn:Hk.
  - intros [= ->]. destruct k; simpl in Hk; try done. apply bool_decide_eq_true in Hk as ->. left.
  - intros. right. auto.
Qed.

Lemma find_field_elem m key v :
  NoDup (map fst m) → (Text key, v) ∈ m → find_field m key = Some v.
Proof.
  induction m as [|[k w] m IH]; simpl; [by intros _ ?%elem_of_nil|].
  intros [Hnin Hnd]%NoDup_cons [[= <- <-]|Hin]%elem_of_cons.
  - simpl. by rewrite bool_decide_eq_true_2.
  - destruct (is_key key k) eqn:Hk; [|auto]. destruct k; simpl in Hk; try done.
    apply bool_decide_eq_true in Hk as ->. destruct Hnin.
    apply list_elem_of_fmap. by exists (Text key, v).
Qed.

Lemma check_closed_Ok m allowed :
  check_closed m allowed = Ok tt ↔ Forall (λ p, ∃ k, p.1 = Text k ∧ k ∈ allowed) m.
Proof.
  induction m as [|[k v] m IH]; simpl; [split; [constructor|done]|].
  rewrite Forall_cons, <- IH. destruct k; simpl; try naive_solver.
  case_bool_decide; simpl; naive_solver.
Qed.

Lemma canonical_keys ps :
  canonical_value (Map ps) = true →
  StronglySorted (λ x y, pair_leb x y = true) ps ∧ NoDup (map fst ps).
Proof.
  intros [_ Hs]%canonical_value_map. split; [by apply strict_keys_sorted|].
  apply strictly_NoDup in Hs. rewrite <- (map_map fst encode_value) in Hs.
  by eapply NoDup_fmap_1.
Qed.

Lemma to_pairs_fst q : map fst (to_pairs q) = map Text (map fst q).
Proof. unfold to_pairs. rewrite !map_map. apply map_ext. by intros []. Qed.

Lemma to_pairs_sort q : map sort_pair (to_pairs q) = to_pairs (map (λ '(k, v), (k, sort_maps v)) q).
Proof. unfold to_pairs. rewrite !map_map. apply map_ext. by intros []. Qed.

#[global] Instance Text_inj : Inj (=) (=) Text.
Proof. by intros ?? [= ->]. Qed.

Lemma canonical_tie ps x y :
  canonical_value (Map ps) = true → x ∈ ps → y ∈ ps →
  pair_leb x y = true → pair_leb y x = true → x = y.
Proof.
  intros [_ Hs]%canonical_value_map Hx Hy H1 H2. apply strictly_NoDup in Hs.
  assert (encode_value x.1 = encode_value y.1) as Heq by by apply leb_antisym.
  apply list_elem_of_lookup in Hx as [i Hi], Hy as [j Hj].
  assert (i = j) as ->; [|congruence].
  eapply NoDup_lookup; [exact Hs| |].
  - rewrite list_lookup_fmap, Hi. done.
  - rewrite list_lookup_fmap, Hj. simpl. by rewrite Heq.
Qed.

Lemma record_shape m q allowed :
  canonical_value (Map m) = true → NoDup (map fst q) → (∀ k, k ∈ allowed ↔ k ∈ map fst q) →
  Map m = sort_maps (Map (to_pairs q)) ↔
  check_closed m allowed = Ok tt ∧ Forall (λ p, find_field m p.1 = Some (sort_maps p.2)) q.
Proof.
  intros Hc Hq Hall. destruct (canonical_keys m Hc) as [Hsort Hnd].
  rewrite sort_maps_map, to_pairs_sort, check_closed_Ok.
  set (q' := map (λ '(k, v), (k, sort_maps v)) q).
  assert (map fst q' = map fst q) as Hfst.
  { unfold q'. rewrite map_map. apply map_ext. by intros []. }
  assert (NoDup (to_pairs q')) as Hndq.
  { eapply (NoDup_fmap_1 fst). change (NoDup (map fst (to_pairs q'))).
    rewrite to_pairs_fst, Hfst. by apply (NoDup_fmap_2 Text). }
  assert (∀ k v, (k, v) ∈ q → (Text k, sort_maps v) ∈ to_pairs q') as Hin.
  { intros k v Hk. apply list_elem_of_fmap. exists (k, sort_maps v). split; [done|].
    apply list_elem_of_fmap. by exists (k, v). }
  assert (∀ x, x ∈ to_pairs q' → ∃ k v, x = (Text k, sort_maps v) ∧ (k, v) ∈ q) as Hout.
  { intros x ([k w] & -> & Hk)%list_elem_of_fmap. apply list_elem_of_fmap in Hk as ([k' v] & [= -> ->] & Hk).
    by exists k', v. }
  split.
  - intros [= Hm]. split.
    + rewrite Hm, sort_by_perm. apply Forall_forall. intros x (k & v & -> & Hk)%Hout.
      exists k. split; [done|]. apply Hall, list_elem_of_fmap. by exists (k, v).
    + apply Forall_forall. intros [k v] Hk. simpl. apply find_field_elem; [done|].
      rewrite Hm, sort_by_perm. by apply Hin.
  - intros [Hcl Hf]. f_equal. rewrite Forall_forall in Hcl. rewrite Forall_forall in Hf.
    apply (sorted_perm_unique pair_leb); [done| | |].
    + apply pair_leb_sorted.
    + rewrite sort_by_perm. apply NoDup_Permutation; [by eapply NoDup_fmap_1|done|].
      intros x. split.
      * intros Hx. destruct (Hcl x Hx) as (k & Hk & Hka). destruct x as [k' w]. simpl in Hk. subst k'.
        apply Hall, list_elem_of_fmap in Hka as ([k' v] & -> & Hkq). simpl in *.
        specialize (Hf _ Hkq). simpl in Hf. rewrite (find_field_elem m k' w Hnd Hx) in Hf.
        simplify_eq. by apply Hin.
      * intros (k & v & -> & Hk)%Hout. apply find_field_Some. by apply (Hf _ Hk).
    + intros x y. by apply canonical_tie.
Qed.

(** * The field readers, as equations on lookups *)

Definition text_ok (s : string) : bool := negb (sempty s) && (slen s <=? 1024).
Definition opt_text_ok (o : option string) : bool :=
  match o with Some s => text_ok s | None => true end.
Definition opt_ref_ok (prefix : string) (o : option string) : bool :=
  match o with Some s => text_ok s && starts_with prefix s | None => true end.

Lemma text_ok_spec s : (sempty s || (1024 <? slen s)) = negb (text_ok s).
Proof. unfold text_ok. rewrite negb_andb, negb_involutive. f_equal. by rewrite N.ltb_antisym. Qed.

Lemma text_field_Ok m key s :
  text_field m key = Ok s ↔ find_field m key = Some (Text s) ∧ text_ok s = true.
Proof.
  unfold text_field. destruct (find_field m key) as [[]|]; try naive_solver.
  rewrite text_ok_spec. destruct (text_ok s0) eqn:E; simpl; split;
    [intros [= ->] | intros [[= ->] ?] | done | intros [[= ->] ?]]; congruence || done.
Qed.

Lemma uint_field_Ok m key n : uint_field m key = Ok n ↔ find_field m key = Some (Uint n).
Proof. unfold uint_field. destruct (find_field m key) as [[]|]; naive_solver. Qed.

Lemma opt_text_or_nil_Ok m key o :
  opt_text_or_nil m key = Ok o ↔
  find_field m key = Some (opt_text_to_cbor o) ∧ opt_text_ok o = true.
Proof.
  unfold opt_text_or_nil. destruct (find_field m key) as [[]|], o; simpl;
    try (split; naive_solver);
    rewrite text_ok_spec; match goal with |- context [negb (text_ok ?x)] => destruct (text_ok x) eqn:E end;
    simpl; split; try done; try (by intros [= ->]); by intros [[= ->] ?]; congruence.
Qed.

Lemma opt_ref_or_nil_Ok m key prefix o :
  opt_ref_or_nil m key prefix = Ok o ↔
  find_field m key = Some (opt_text_to_cbor o) ∧ opt_ref_ok prefix o = true.
Proof.
  unfold opt_ref_or_nil. rewrite bind_Ok. setoid_rewrite opt_text_or_nil_Ok. split.
  - intros ([s|] & [Hf Ht] & H); simplify_eq/=; [|done].
    destruct (starts_with prefix s) eqn:E; simplify_eq/=. by rewrite Ht, E.
  - intros [Hf Ho]. exists o. destruct o as [s|]; simpl in *; [|done].
    apply andb_true_iff in Ho as [-> ->]. done.
Qed.

Lemma opt_uint_or_nil_Ok m key o :
  opt_uint_or_nil m key = Ok o ↔ find_field m key = Some (opt_uint_to_cbor o).
Proof. unfold opt_uint_or_nil. destruct (find_field m key) as [[]|], o; simpl; naive_solver. Qed.

Lemma check_version_Ok m u : check_version m = Ok u ↔ find_field m "v" = Some (Uint 1).
Proof.
  unfold check_version. destruct u, (find_field m "v") as [[[|[]]|?|?|?|?|?|?|]|]; naive_solver.
Qed.

Lemma as_map_Ok v m : as_map v = Ok m ↔ v = Map m.
Proof. destruct v; simpl; naive_solver. Qed.

Lemma field_Ok m key v : field m key = Ok v ↔ find_field m key = Some v.
Proof. apply ok_or_Ok. Qed.

Lemma cbor_array_Ok m key xs : cbor_array m key = Ok xs ↔ find_field m key = Some (Array xs).
Proof.
  unfold cbor_array. rewrite bind_Ok. setoid_rewrite field_Ok. split.
  - by intros ([] & -> & [= ->]).
  - intros ->. by eexists.
Qed.

Lemma check_closed_unit m allowed u :
  check_closed m allowed = Ok u ↔ check_closed m allowed = Ok tt.
Proof. by destruct u. Qed.

Lemma ite_Ok {E A} (b : bool) (e : E) (m : result E A) a :
  (if b then Err e else m) = Ok a ↔ b = false ∧ m = Ok a.
Proof. destruct b; naive_solver. Qed.

(** Lookups inside a canonical map are canonical. *)
Lemma find_field_canonical m key v :
  canonical_value (Map m) = true → find_field m key = Some v → canonical_value v = true.
Proof.
  intros [Hc _]%canonical_value_map Hf%find_field_Some.
  rewrite Forall_forall in Hc. by apply (Hc _ Hf).
Qed.

(** * Metadata *)

Definition meta_leb (a b : string * MetaValue) : bool :=
  bytes_leb (encode_value (Text a.1)) (encode_value (Text b.1)).
Definition meta_value_ok (m : MetaValue) : bool :=
  match m with MText s => slen s <=? 1024 | _ => true end.
Definition meta_sorted (l : list (string * MetaValue)) : bool :=
  bool_decide (sort_by meta_leb l = l).
Definition meta_wf (l : list (string * MetaValue)) : bool :=
  (len l <=? 16) && forallb (λ '(k, m), (slen k <=? 64) && meta_value_ok m) l
  && bool_decide (NoDup (map fst l)) && meta_sorted l.

Lemma meta_value_Ok v m :
  meta_value_from_cbor v = Ok m ↔ v = meta_value_to_cbor m ∧ meta_value_ok m = true.
Proof.
  destruct v, m; simpl; rewrite ?ite_Ok, ?N.ltb_ge, ?N.leb_le; split; try naive_solver;
    by intros [[= ->] ?].
Qed.

Lemma meta_entries_Ok seen ps l :
  meta_entries seen ps = Ok l ↔
  ps = meta_to_cbor l ∧ forallb (λ '(k, m), (slen k <=? 64) && meta_value_ok m) l = true ∧
  NoDup (map fst l) ∧ (∀ k, k ∈ map fst l → k ∉ seen).
Proof.
  revert seen l. induction ps as [|[k v] ps IH]; intros seen l.
  { simpl. split.
    - intros [= <-]. split_and!; [done..|constructor|]. set_solver.
    - intros (Hl & _). by destruct l. }
  cbn [meta_entries]. destruct k as [| |ks| | | | |];
    try (split; [done|intros (Hl & _); destruct l as [|[]]; simplify_eq/=]).
  rewrite ite_Ok, bind_Ok, orb_false_iff, N.ltb_ge, bool_decide_eq_false. split.
  - intros [[Hk Hseen] (m & [-> Hm]%meta_value_Ok & H)].
    apply bind_Ok in H as (ms & (-> & Hf & Hnd & Hdis)%IH & [= <-]). simpl.
    rewrite (proj2 (N.leb_le _ _) Hk), Hm, Hf. split_and!; [done..| |].
    + apply NoDup_cons. split; [|done]. intros Hin. by apply (Hdis _ Hin), elem_of_union_l, elem_of_singleton.
    + set_solver.
  - intros (Hl & Hf & Hnd & Hdis). destruct l as [|[k m] l]; simplify_eq/=.
    apply andb_true_iff in Hf as [[Hk%N.leb_le Hm]%andb_true_iff Hf].
    apply NoDup_cons in Hnd as [Hnin Hnd]. split; [set_solver|].
    exists m. rewrite meta_value_Ok. split; [done|]. apply bind_Ok.
    exists l. rewrite IH. split; [|done]. set_solver.
Qed.

Lemma sort_opt_text o : sort_maps (opt_text_to_cbor o) = opt_text_to_cbor o.
Proof. by destruct o. Qed.
Lemma sort_opt_uint o : sort_maps (opt_uint_to_cbor o) = opt_uint_to_cbor o.
Proof. by destruct o. Qed.

Lemma sort_text s : sort_maps (Text s) = Text s.
Proof. done. Qed.
Lemma sort_uint n : sort_maps (Uint n) = Uint n.
Proof. done. Qed.
Lemma sort_bytes b : sort_maps (Bytes b) = Bytes b.
Proof. done. Qed.
Lemma sort_array xs : sort_maps (Array xs) = Array (map sort_maps xs).
Proof. done. Qed.

(** [to_lookups] reads successful field accesses in the context as lookups;
    [parse_step] runs a parser forward on known lookups. *)
Ltac to_lookups :=
  repeat match goal with
  | H : as_map _ = Ok _ |- _ => apply as_map_Ok in H; subst
  | H : text_field _ _ = Ok _ |- _ => apply text_field_Ok in H as [? ?]
  | H : uint_field _ _ = Ok _ |- _ => apply uint_field_Ok in H
  | H : opt_text_or_nil _ _ = Ok _ |- _ => apply opt_text_or_nil_Ok in H as [? ?]
  | H : opt_ref_or_nil _ _ _ = Ok _ |- _ => apply opt_ref_or_nil_Ok in H as [? ?]
  | H : opt_uint_or_nil _ _ = Ok _ |- _ => apply opt_uint_or_nil_Ok in H
  | H : check_version _ = Ok _ |- _ => apply check_version_Ok in H
  | H : field _ _ = Ok _ |- _ => apply field_Ok in H
  | H : cbor_array _ _ = Ok _ |- _ => apply cbor_array_Ok in H
  | H : (if _ then Err _ else _) = Ok _ |- _ => apply ite_Ok in H as [? H]
  | H : check_closed _ _ = Ok ?u |- _ => is_var u; apply check_closed_unit in H; clear u
  | _ => progress simplify_result
  end.

Ltac parse_step :=
  first
  [ erewrite (proj2 (text_field_Ok _ _ _)) by (split; eassumption)
  | erewrite (proj2 (uint_field_Ok _ _ _)) by eassumption
  | erewrite (proj2 (opt_text_or_nil_Ok _ _ _)) by (split; eassumption)
  | erewrite (proj2 (opt_ref_or_nil_Ok _ _ _ _)) by (split; eassumption)
  | erewrite (proj2 (opt_uint_or_nil_Ok _ _ _)) by eassumption
  | erewrite (proj2 (check_version_Ok _ tt)) by eassumption
  | erewrite (proj2 (field_Ok _ _ _)) by eassumption
  | erewrite (proj2 (cbor_array_Ok _ _ _)) by eassumption
  | match goal with H : check_closed _ _ = Ok tt |- _ => rewrite H end
  | match goal with H : ?b = false |- context [if ?b then _ else _] => rewrite H end ];
  cbn [mbind result_bind ok_or].

(** A record and the lookups that determine it. *)
Lemma record_parse w q allowed :
  canonical_value w = true → NoDup (map fst q) → (∀ k, k ∈ allowed ↔ k ∈ map fst q) →
  w = sort_maps (Map (to_pairs q)) ↔
  ∃ m, w = Map m ∧ check_closed m allowed = Ok tt ∧
       Forall (λ p, find_field m p.1 = Some (sort_maps p.2)) q.
Proof.
  intros Hc Hnd Hall. split.
  - intros Hw. rewrite sort_maps_map in Hw. subst w. eexists. split; [done|].
    apply record_shape; [done..|]. by rewrite sort_maps_map.
  - intros (m & -> & H). by apply (record_shape m q allowed).
Qed.

Lemma record_len m q allowed :
  canonical_value (Map m) = true → NoDup (map fst q) → (∀ k, k ∈ allowed ↔ k ∈ map fst q) →
  check_closed m allowed = Ok tt → Forall (λ p, find_field m p.1 = Some (sort_maps p.2)) q →
  len m = len q.
Proof.
  intros Hc Hnd Hall Hcl Hf.
  assert (Map m = sort_maps (Map (to_pairs q))) as Hm by by apply (record_shape m q allowed).
  rewrite sort_maps_map in Hm. injection Hm as ->.
  unfold len, to_pairs. by rewrite length_sort_by, !length_map.
Qed.

(** The side conditions of [record_parse] on literal field names. *)
Ltac literal_names :=
  match goal with
  | |- NoDup _ => cbn [map fst]; apply (bool_decide_unpack _); vm_compute; reflexivity
  | |- ∀ k, _ ↔ _ => intros; cbn [map fst]; set_solver
  | _ => idtac
  end.

Definition hashref_wf (h : HashRef) : bool :=
  (hr_v h =? 1) && (len (hr_digest h) =? HashAlgorithm.digest_len (hr_alg h)).

Definition hashref_fields (h : HashRef) : list (string * CborValue) :=
  [ ("alg", Uint (HashAlgorithm.cbor_enum (hr_alg h)));
    ("digest", Bytes (hr_digest h)); ("v", Uint (hr_v h)) ].

Lemma find_digest_Some m b :
  NoDup (map fst m) → find_digest m = Some b ↔ find_field m "digest" = Some (Bytes b).
Proof.
  intros Hnd. split.
  - intros H. apply find_field_elem; [done|]. clear Hnd. induction m as [|[k v] m IH]; simpl in *; [done|].
    destruct (is_key "digest" k) eqn:Hk; [|right; auto].
    destruct v; try (right; by apply IH). simplify_eq.
    destruct k; simpl in Hk; try done. apply bool_decide_eq_true in Hk as ->. left.
  - induction m as [|[k v] m IH]; simpl in *; [done|]. apply NoDup_cons in Hnd as [_ Hnd].
    destruct (is_key "digest" k); [by intros [= ->]|auto].
Qed.

Lemma hashref_spec w h :
  canonical_value w = true →
  hashref_from_cbor w = Ok h ↔ w = sort_maps (hashref_to_cbor h) ∧ hashref_wf h = true.
Proof.
  intros Hc. change (hashref_to_cbor h) with (Map (to_pairs (hashref_fields h))).
  rewrite (record_parse w (hashref_fields h) ["v"; "alg"; "digest"]) by (done || literal_names).
  unfold hashref_from_cbor, HashRef_new, hashref_wf. split.
  - intros H. to_lookups. apply canonical_keys in Hc as [_ Hnd].
    rewrite find_digest_Some in * by done. apply HashAlgorithm.from_cbor_enum_Ok in Ha3 as ->.
    apply negb_false_iff in H0. simpl. rewrite H0. split; [|done].
    exists a. unfold hashref_fields. by rewrite !Forall_cons.
  - intros [(m & -> & Hcl & Hf) [Hv Hd]%andb_true_iff].
    apply canonical_keys in Hc as [_ Hnd]. apply N.eqb_eq in Hv.
    unfold hashref_fields in Hf. rewrite !Forall_cons in Hf. simpl in Hf. rewrite Hv in Hf.
    destruct Hf as (? & Hdig & ? & _). cbn [as_map mbind result_bind]. do 3 parse_step.
    rewrite (proj2 (HashAlgorithm.from_cbor_enum_Ok _ (hr_alg h)) eq_refl). cbn [mbind result_bind].
    rewrite (proj2 (find_digest_Some m _ Hnd) Hdig). cbn [mbind result_bind ok_or].
    rewrite Hd. destruct h; simpl in *. by subst.
Qed.

Lemma hashref_parse m key h :
  canonical_value (Map m) = true → find_field m key = Some (sort_maps (hashref_to_cbor h)) →
  hashref_wf h = true → hashref_from_cbor (sort_maps (hashref_to_cbor h)) = Ok h.
Proof. intros Hc Hf Hwf. apply hashref_spec; [by eapply find_field_canonical | done]. Qed.

(** [bool_split] splits boolean conjunctions in the context, [bool_solve]
    proves one from its parts. *)
Ltac bool_split :=
  repeat match goal with
  | H : _ && _ = true |- _ => apply andb_true_iff in H as [? ?]
  | H : (_ =? _)%N = true |- _ => apply N.eqb_eq in H
  | H : negb _ = false |- _ => apply negb_false_iff in H
  end.
Ltac bool_solve :=
  repeat match goal with
  | |- _ && _ = true => apply andb_true_iff; split
  | |- (_ <=? _)%N = true => first [done | rewrite N.leb_antisym; apply negb_true_iff; done]
  | |- (_ <? _)%N = false => first [done | rewrite N.ltb_antisym; apply negb_false_iff; done]
  end; try done.

(** The lookups of a printed record, one hypothesis per field. *)
Ltac record_lookups Hf :=
  rewrite !Forall_cons in Hf; cbn [fst snd] in Hf;
  rewrite ?sort_text, ?sort_uint, ?sort_bytes, ?sort_array, ?sort_opt_text, ?sort_opt_uint in Hf;
  destruct_and? Hf.
Ltac record_forall :=
  rewrite !Forall_cons; cbn [fst snd];
  rewrite ?sort_text, ?sort_uint, ?sort_bytes, ?sort_array, ?sort_opt_text, ?sort_opt_uint.

(** * Events *)

Definition event_fields (e : EventContent) : list (string * CborValue) :=
  [ ("effective_at", Uint (ev_effective_at e)); ("metadata", Map (meta_to_cbor (ev_metadata e)));
    ("payload_ref", hashref_to_cbor (ev_payload_ref e)); ("subject", Text (ev_subject e));
    ("type", Text (ev_type e)); ("v", Uint 1) ].

Definition event_wf (limits : Limits) (e : EventContent) : bool :=
  (ev_v e =? 1) && text_ok (ev_type e) && text_ok (ev_subject e)
  && hashref_wf (ev_payload_ref e) && meta_wf (ev_metadata e) && (6 <=? max_map_entries limits).

Lemma meta_sorted_pairs l :
  StronglySorted (λ x y, pair_leb x y = true) (meta_to_cbor l) ↔ meta_sorted l = true.
Proof.
  unfold meta_sorted. rewrite bool_decide_eq_true. split.
  - intros Hs. apply sort_by_id. unfold meta_to_cbor in Hs.
    induction l as [|[k v] l IH]; [constructor|].
    simpl in Hs. apply StronglySorted_cons in Hs as [Hhd Hs]. constructor; [by apply IH|].
    rewrite Forall_map in Hhd. eapply Forall_impl; [exact Hhd|]. by intros [].
  - intros <-. unfold meta_to_cbor. rewrite <- (sort_by_map meta_leb pair_leb) by (by intros [] []).
    apply pair_leb_sorted.
Qed.

Lemma meta_to_cbor_sorted_pairs l : map sort_pair (meta_to_cbor l) = meta_to_cbor l.
Proof. unfold meta_to_cbor. rewrite map_map. apply map_ext. by intros [k []]. Qed.

Lemma meta_to_cbor_sort l :
  meta_sorted l = true → sort_maps (Map (meta_to_cbor l)) = Map (meta_to_cbor l).
Proof.
  intros Hl%meta_sorted_pairs. rewrite sort_maps_map, meta_to_cbor_sorted_pairs.
  by rewrite sort_by_id.
Qed.

(** A canonical map of scalars is read in canonical order. *)
Lemma meta_sorted_canonical l : canonical_value (Map (meta_to_cbor l)) = true → meta_sorted l = true.
Proof. intros [Hs _]%canonical_keys. by apply meta_sorted_pairs. Qed.

Lemma meta_field_Ok m key l :
  canonical_value (Map m) = true →
  meta_field m key = Ok l ↔
  find_field m key = Some (sort_maps (Map (meta_to_cbor l))) ∧ meta_wf l = true.
Proof.
  intros Hc. unfold meta_field, meta_wf. split.
  - intros H. to_lookups. pose proof (find_field_canonical _ _ _ Hc Ha) as Hcm.
    apply meta_entries_Ok in H as (-> & Hf & Hnd & _).
    apply meta_sorted_canonical in Hcm. rewrite meta_to_cbor_sort, Hf, Hcm by done.
    rewrite bool_decide_eq_true_2 by done. split; [done|].
    unfold meta_to_cbor in *. rewrite len_map in *. rewrite !andb_true_r. by rewrite N.leb_antisym, H0.
  - intros [Hf Hwf]. rewrite !andb_true_iff, bool_decide_eq_true in Hwf.
    destruct Hwf as [[[Hl Hall] Hnd] Hs]. rewrite meta_to_cbor_sort in Hf by done.
    parse_step. cbn [as_map mbind result_bind]. apply ite_Ok. split.
    { unfold meta_to_cbor. rewrite len_map. by rewrite N.ltb_antisym, Hl. }
    apply meta_entries_Ok. split_and!; [done..|set_solver].
Qed.

(** Nested objects of a canonical map, read through their own specifications. *)
Ltac nested_lookups :=
  repeat match goal with
  | H : hashref_from_cbor _ = Ok _ |- _ =>
      apply hashref_spec in H as [-> ?]; [|by eapply find_field_canonical]
  | H : meta_field _ _ = Ok _ |- _ => apply meta_field_Ok in H as [? ?]; [|done]
  end.

Lemma event_to_cbor_Ok e w :
  event_to_cbor e = Ok w ↔ ev_v e = 1 ∧ w = Map (to_pairs (event_fields e)).
Proof. unfold event_to_cbor. rewrite ite_Ok, negb_false_iff, N.eqb_eq. naive_solver. Qed.

Lemma cbor_to_event_spec limits v e :
  canonical_value v = true →
  cbor_to_event v limits = Ok e ↔
  event_wf limits e = true ∧ ∃ w, event_to_cbor e = Ok w ∧ v = sort_maps w.
Proof.
  intros Hc. setoid_rewrite event_to_cbor_Ok. split.
  - unfold cbor_to_event. intros H. to_lookups.
    nested_lookups. set (e := mkEvent _ _ _ _ _ _).
    assert (Forall (λ p, find_field a p.1 = Some (sort_maps p.2)) (event_fields e)) as Hf
      by (unfold event_fields; by rewrite !Forall_cons).
    pose proof (record_len a (event_fields e) EVENT_FIELDS) as Hlen.
    rewrite Hlen in * by (done || literal_names). split.
    + unfold event_wf. bool_solve.
    + eexists. split; [done|]. apply (record_parse _ _ EVENT_FIELDS); literal_names; eauto.
  - intros [Hwf (w & [Hv ->] & Hw)]. apply (record_parse _ _ EVENT_FIELDS) in Hw; literal_names; [|done].
    destruct Hw as (m & -> & Hcl & Hf).
    unfold cbor_to_event. cbn [as_map mbind result_bind].
    rewrite (record_len m (event_fields e) EVENT_FIELDS) by (done || literal_names).
    unfold event_wf in Hwf. bool_split. unfold event_fields in Hf. record_lookups Hf.
    apply ite_Ok; split; [bool_solve|]. repeat parse_step.
    erewrite hashref_parse by eassumption.
    cbn [mbind result_bind]. rewrite (proj2 (meta_field_Ok _ _ (ev_metadata e) Hc)) by done.
    cbn [mbind result_bind]. f_equal. destruct e; simpl in *. by subst.
Qed.

(** The version lookup of a record whose version field is 1. *)
Ltac version_one t :=
  match goal with
  | Hv : t = 1, H : find_field _ _ = Some (Uint t) |- _ => rewrite Hv in H
  end.

(** * Evidence, relationships, propositions *)

Definition evidence_fields (e : Evidence) : list (string * CborValue) :=
  [ ("attestation_ref", opt_text_to_cbor (evd_attestation_ref e));
    ("digest", hashref_to_cbor (evd_digest e)); ("hint", opt_text_to_cbor (evd_hint e));
    ("kind", Text (evd_kind e)); ("v", Uint (evd_v e)) ].

Definition evidence_wf (limits : Limits) (e : Evidence) : bool :=
  (evd_v e =? 1) && text_ok (evd_kind e) && hashref_wf (evd_digest e)
  && opt_ref_ok "att:v1:" (evd_attestation_ref e) && opt_text_ok (evd_hint e)
  && negb (match evd_hint e with Some s => 256 <? slen s | None => false end)
  && (5 <=? max_map_entries limits).

Lemma cbor_to_evidence_spec limits v e :
  canonical_value v = true →
  cbor_to_evidence v limits = Ok e ↔
  evidence_wf limits e = true ∧ v = sort_maps (evidence_to_cbor e).
Proof.
  intros Hc. change (evidence_to_cbor e) with (Map (to_pairs (evidence_fields e))).
  rewrite (record_parse v (evidence_fields e) EVIDENCE_FIELDS) by (done || literal_names). split.
  - unfold cbor_to_evidence. intros H. to_lookups.
    nested_lookups. set (e := mkEvidence _ _ _ _ _).
    assert (Forall (λ p, find_field a p.1 = Some (sort_maps p.2)) (evidence_fields e)) as Hf
      by (unfold evidence_fields; by record_forall).
    rewrite (record_len a (evidence_fields e) EVIDENCE_FIELDS) in * by (done || literal_names).
    split; [unfold evidence_wf; bool_solve; by apply negb_true_iff | eauto].
  - intros [Hwf (m & -> & Hcl & Hf)]. unfold cbor_to_evidence. cbn [as_map mbind result_bind].
    rewrite (record_len m (evidence_fields e) EVIDENCE_FIELDS) by (done || literal_names).
    unfold evidence_wf in Hwf. bool_split. unfold evidence_fields in Hf. record_lookups Hf.
    rewrite negb_true_iff in *.
    version_one (evd_v e). apply ite_Ok; split; [bool_solve|]. repeat parse_step.
    erewrite hashref_parse by eassumption. cbn [mbind result_bind]. repeat parse_step.
    unfold void_limits; cbn [mbind result_bind]. f_equal. destruct e; simpl in *. by subst.
Qed.

Definition relationship_fields (r : Relationship) : list (string * CborValue) :=
  [ ("attestation_ref", opt_text_to_cbor (rel_attestation_ref r));
    ("evidence_ref", opt_text_to_cbor (rel_evidence_ref r)); ("from", Text (rel_from r));
    ("to", Text (rel_to r)); ("type", Text (rel_type r)); ("v", Uint (rel_v r)) ].

Definition relationship_wf (limits : Limits) (r : Relationship) : bool :=
  (rel_v r =? 1) && text_ok (rel_from r) && text_ok (rel_to r) && text_ok (rel_type r)
  && opt_ref_ok "evd:v1:" (rel_evidence_ref r) && opt_ref_ok "att:v1:" (rel_attestation_ref r)
  && negb (bool_decide (rel_from r = rel_to r)) && (6 <=? max_map_entries limits).

Lemma cbor_to_relationship_spec limits v r :
  canonical_value v = true →
  cbor_to_relationship v limits = Ok r ↔
  relationship_wf limits r = true ∧ v = sort_maps (relationship_to_cbor r).
Proof.
  intros Hc. change (relationship_to_cbor r) with (Map (to_pairs (relationship_fields r))).
  rewrite (record_parse v (relationship_fields r) REL_FIELDS) by (done || literal_names). split.
  - unfold cbor_to_relationship. intros H. to_lookups. set (r := mkRel _ _ _ _ _ _).
    assert (Forall (λ p, find_field a p.1 = Some (sort_maps p.2)) (relationship_fields r)) as Hf
      by (unfold relationship_fields; by record_forall).
    rewrite (record_len a (relationship_fields r) REL_FIELDS) in * by (done || literal_names).
    split; [unfold relationship_wf; bool_solve; by apply negb_true_iff | eauto].
  - intros [Hwf (m & -> & Hcl & Hf)]. unfold cbor_to_relationship. cbn [as_map mbind result_bind].
    rewrite (record_len m (relationship_fields r) REL_FIELDS) by (done || literal_names).
    unfold relationship_wf in Hwf. bool_split. unfold relationship_fields in Hf. record_lookups Hf.
    rewrite negb_true_iff in *.
    version_one (rel_v r). apply ite_Ok; split; [bool_solve|]. repeat parse_step.
    unfold void_limits; cbn [mbind result_bind]. f_equal. destruct r; simpl in *. by subst.
Qed.

Definition proposition_fields (p : Proposition_) : list (string * CborValue) :=
  [ ("at_time", opt_uint_to_cbor (prop_at_time p)); ("context", Map (meta_to_cbor (prop_context p)));
    ("kind", Text (prop_kind p)); ("object", opt_text_to_cbor (prop_object p));
    ("predicate", Text (prop_predicate p)); ("subject", Text (prop_subject p));
    ("v", Uint (prop_v p)) ].

Definition proposition_wf (limits : Limits) (p : Proposition_) : bool :=
  (prop_v p =? 1) && text_ok (prop_kind p) && text_ok (prop_subject p)
  && text_ok (prop_predicate p) && opt_text_ok (prop_object p) && meta_wf (prop_context p)
  && (7 <=? max_map_entries limits).

Lemma cbor_to_proposition_spec limits v p :
  canonical_value v = true →
  cbor_to_proposition v limits = Ok p ↔
  proposition_wf limits p = true ∧ v = sort_maps (proposition_to_cbor p).
Proof.
  intros Hc. change (proposition_to_cbor p) with (Map (to_pairs (proposition_fields p))).
  rewrite (record_parse v (proposition_fields p) PROP_FIELDS) by (done || literal_names). split.
  - unfold cbor_to_proposition. intros H. to_lookups.
    nested_lookups. set (p := mkProposition _ _ _ _ _ _ _).
    assert (Forall (λ p, find_field a p.1 = Some (sort_maps p.2)) (proposition_fields p)) as Hf
      by (unfold proposition_fields; by record_forall).
    rewrite (record_len a (proposition_fields p) PROP_FIELDS) in * by (done || literal_names).
    split; [unfold proposition_wf; bool_solve | eauto].
  - intros [Hwf (m & -> & Hcl & Hf)]. unfold cbor_to_proposition. cbn [as_map mbind result_bind].
    rewrite (record_len m (proposition_fields p) PROP_FIELDS) by (done || literal_names).
    unfold proposition_wf in Hwf. bool_split. unfold proposition_fields in Hf. record_lookups Hf.
    version_one (prop_v p). apply ite_Ok; split; [bool_solve|]. repeat parse_step.
    rewrite (proj2 (meta_field_Ok _ _ (prop_context p) Hc)) by done.
    cbn [mbind result_bind]. unfold void_limits; cbn [mbind result_bind]. f_equal. destruct p; simpl in *. by subst.
Qed.

(** * Claims and attestations *)

Definition claim_wf (c : Claim) : bool :=
  negb (sempty (claim_type c)) && (slen (claim_type c) <=? 128)
  && (len (claim_fields c) <=? 15) && forallb (λ '(k, m), meta_value_ok m) (claim_fields c)
  && bool_decide (NoDup ("type" :: map fst (claim_fields c))) && meta_sorted (claim_fields c).

Definition type_entry (ty : string) : CborValue * CborValue := (Text "type", Text ty).

(** What a run of the claim loop has read. *)
Lemma claim_entries_inv ty seen ps ty' l :
  claim_entries ty seen ps = Ok (ty', l) →
  (∀ k, k ∈ map fst l → k ∉ seen ∧ k ≠ "type") ∧ NoDup (map fst l) ∧
  forallb (λ '(k, m), meta_value_ok m) l = true ∧ sublist (meta_to_cbor l) ps ∧
  ((ty' = ty ∧ ps = meta_to_cbor l) ∨
   (∃ s, ty' = Some s ∧ "type" ∉ seen ∧ sempty s = false ∧ slen s <= 128 ∧
         ps ≡ₚ type_entry s :: meta_to_cbor l)).
Proof.
  revert ty seen l. induction ps as [|[k v] ps IH]; intros ty seen l; cbn [claim_entries].
  { intros [= -> <-]. split_and!; [set_solver|constructor|done|done|by left]. }
  destruct k as [| |ks| | | | |]; try done. rewrite ite_Ok, bool_decide_eq_false. intros [Hks H].
  case_bool_decide as Hty.
  - subst ks. destruct v as [| |s| | | | |]; try done. apply ite_Ok in H as [Hs H].
    apply orb_false_iff in Hs as [Hs1 Hs2%N.ltb_ge].
    apply IH in H as (Hk & Hnd & Hok & Hsub & Hps). split_and!; [|done..|by apply sublist_cons|].
    { intros k' Hk'. specialize (Hk k' Hk'). set_solver. }
    right. destruct Hps as [[-> ->]|(s' & -> & Ht' & Hs' & Hl' & Hp)].
    + exists s. by split_and!.
    + (* a second [type] entry would have been seen *)
      set_solver.
  - apply bind_Ok in H as (m & [-> Hm]%meta_value_Ok & H).
    apply bind_Ok in H as ([ty2 ms] & Hms & [= -> <-]).
    apply IH in Hms as (Hk & Hnd & Hok & Hsub & Hps). simpl. rewrite Hm.
    split_and!.
    + set_solver.
    + apply NoDup_cons. split; [|done]. intros Hin. destruct (Hk _ Hin). set_solver.
    + done.
    + by apply sublist_skip.
    + destruct Hps as [[-> ->]|(s' & -> & Ht' & Hs' & Hl' & Hp)]; [by left|right].
      exists s'. split_and!; [done|set_solver|done..|]. rewrite Hp. apply perm_swap.
Qed.

Lemma claim_entries_plain ty seen l :
  (∀ k, k ∈ map fst l → k ∉ seen ∧ k ≠ "type") → NoDup (map fst l) →
  forallb (λ '(k, m), meta_value_ok m) l = true →
  claim_entries ty seen (meta_to_cbor l) = Ok (ty, l).
Proof.
  revert seen. induction l as [|[k m] l IH]; intros seen Hk Hnd Hok; [done|].
  simpl in Hok, Hnd. apply andb_true_iff in Hok as [Hm Hok]. apply NoDup_cons in Hnd as [Hnin Hnd].
  destruct (Hk k) as [Hks Hkt]; [left|]. cbn [meta_to_cbor map claim_entries].
  rewrite bool_decide_eq_false_2, bool_decide_eq_false_2 by done.
  rewrite (proj2 (meta_value_Ok _ m)) by done. cbn [mbind result_bind].
  fold (meta_to_cbor l). rewrite IH; [done| |done..].
  intros k' Hk'. destruct (Hk k'); [by right|]. split; [|done]. set_solver.
Qed.

Lemma claim_entries_insert s seen l :
  sempty s = false → slen s <= 128 → "type" ∉ seen →
  (∀ k, k ∈ map fst l → k ∉ seen ∧ k ≠ "type") → NoDup (map fst l) →
  forallb (λ '(k, m), meta_value_ok m) l = true →
  claim_entries None seen (insert_sorted pair_leb (type_entry s) (meta_to_cbor l)) = Ok (Some s, l).
Proof.
  intros Hs1 Hs2. assert (∀ l' seen', "type" ∉ seen' →
    claim_entries None seen' (type_entry s :: l') = claim_entries (Some s) ({["type"]} ∪ seen') l') as Hty.
  { intros l' seen' Hn. unfold type_entry. cbn [claim_entries]. rewrite bool_decide_eq_false_2 by done.
    rewrite bool_decide_eq_true_2 by done. rewrite Hs1. by rewrite (proj2 (N.ltb_ge _ _) Hs2). }
  revert seen. induction l as [|[k m] l IH]; intros seen Ht Hk Hnd Hok; simpl insert_sorted.
  { rewrite Hty by done. done. }
  destruct (pair_leb (type_entry s) _).
  - rewrite Hty by done. apply (claim_entries_plain _ _ ((k, m) :: l)); [|done..].
    intros k' Hk'. destruct (Hk k' Hk'). set_solver.
  - simpl in Hok, Hnd. apply andb_true_iff in Hok as [Hm Hok]. apply NoDup_cons in Hnd as [Hnin Hnd].
    destruct (Hk k) as [Hks Hkt]; [left|]. cbn [claim_entries].
    rewrite bool_decide_eq_false_2, bool_decide_eq_false_2 by done.
    rewrite (proj2 (meta_value_Ok _ m)) by done. cbn [mbind result_bind].
    fold (meta_to_cbor l). rewrite IH; [done|set_solver| |done..].
    intros k' Hk'. destruct (Hk k'); [by right|]. set_solver.
Qed.

Lemma StronglySorted_sublist {A} (R : A → A → Prop) l k :
  sublist l k → StronglySorted R k → StronglySorted R l.
Proof.
  induction 1 as [|x l k Hlk IH|x l k Hlk IH]; intros Hk; [constructor| |].
  - apply StronglySorted_cons in Hk as [Hx Hk]. constructor; [by apply IH|].
    rewrite Forall_forall in *. intros y Hy. apply Hx. by eapply elem_of_sublist.
  - apply StronglySorted_cons in Hk as [_ Hk]. by apply IH.
Qed.

Lemma claim_spec w c :
  canonical_value w = true →
  cbor_to_claim w = Ok c ↔ w = sort_maps (claim_to_cbor c) ∧ claim_wf c = true.
Proof.
  intros Hc. unfold cbor_to_claim, claim_to_cbor, claim_wf.
  rewrite sort_maps_map. cbn [map]. rewrite meta_to_cbor_sorted_pairs.
  change (sort_pair _) with (type_entry (claim_type c)). split.
  - intros H. to_lookups. apply orb_false_iff in H0 as [H0%N.ltb_ge _].
    destruct (canonical_keys a Hc) as [Hsort _].
    match goal with H : claim_entries _ _ _ = Ok _ |- _ => rename H into Hce end.
    apply claim_entries_inv in Hce as (Hk & Hnd & Hok & Hsub & [[? _]|(s & [= ->] & _ & Hs & Hl & Hp)]); [done|].
    cbn [claim_type claim_fields]. split.
    + f_equal. apply (sorted_perm_unique pair_leb); [done|apply pair_leb_sorted|by rewrite sort_by_perm|].
      intros x y. by apply canonical_tie.
    + assert (len a = len (meta_to_cbor l) + 1) as Hlen by (unfold len; rewrite Hp; simpl; lia).
      unfold meta_to_cbor in Hlen. rewrite len_map in Hlen. rewrite Hs, Hok.
      bool_solve.
      * by apply N.leb_le.
      * apply N.leb_le. lia.
      * apply bool_decide_eq_true. apply NoDup_cons. split; [|done]. intros Hin. by destruct (Hk _ Hin).
      * apply meta_sorted_pairs. by eapply StronglySorted_sublist.
  - intros [-> Hwf]. bool_split. rewrite bool_decide_eq_true in *.
    match goal with H : NoDup _ |- _ => apply NoDup_cons in H as [Hnt Hnd] end.
    cbn [as_map mbind result_bind]. apply ite_Ok. split.
    { unfold len. rewrite length_sort_by. simpl. rewrite N.leb_le in *. unfold meta_to_cbor, len in *.
      rewrite length_map. apply orb_false_iff; split; [apply N.ltb_ge; lia | done]. }
    simpl sort_by. rewrite (sort_by_id _ (meta_to_cbor _)) by by apply meta_sorted_pairs.
    rewrite claim_entries_insert; [by destruct c|by apply negb_true_iff|by apply N.leb_le|done| |done..].
    set_solver.
Qed.

Definition attestation_fields (a : AttestationContent) : list (string * CborValue) :=
  [ ("claim", claim_to_cbor (att_claim a)); ("evidence_ref", opt_text_to_cbor (att_evidence_ref a));
    ("expires_at", opt_uint_to_cbor (att_expires_at a)); ("issued_at", Uint (att_issued_at a));
    ("issuer", Text (att_issuer a)); ("subject", Text (att_subject a)); ("v", Uint (att_v a)) ].

Definition attestation_wf (limits : Limits) (a : AttestationContent) : bool :=
  (att_v a =? 1) && text_ok (att_issuer a) && text_ok (att_subject a) && claim_wf (att_claim a)
  && negb (match att_expires_at a with Some e => e <? att_issued_at a | None => false end)
  && opt_ref_ok "evd:v1:" (att_evidence_ref a) && (7 <=? max_map_entries limits).

Lemma cbor_to_attestation_spec limits v a :
  canonical_value v = true →
  cbor_to_attestation v limits = Ok a ↔
  attestation_wf limits a = true ∧ v = sort_maps (attestation_to_cbor a).
Proof.
  intros Hc. change (attestation_to_cbor a) with (Map (to_pairs (attestation_fields a))).
  rewrite (record_parse v (attestation_fields a) ATT_FIELDS) by (done || literal_names). split.
  - unfold cbor_to_attestation. intros H. to_lookups.
    match goal with H : cbor_to_claim _ = Ok _ |- _ =>
      apply claim_spec in H as [-> ?]; [|by eapply find_field_canonical] end.
    set (c := mkAtt _ _ _ _ _ _ _).
    assert (Forall (λ p, find_field a0 p.1 = Some (sort_maps p.2)) (attestation_fields c)) as Hf
      by (unfold attestation_fields; by record_forall).
    rewrite (record_len a0 (attestation_fields c) ATT_FIELDS) in * by (done || literal_names).
    split; [unfold attestation_wf; bool_solve; by apply negb_true_iff | eauto].
  - intros [Hwf (m & -> & Hcl & Hf)]. unfold cbor_to_attestation. cbn [as_map mbind result_bind].
    rewrite (record_len m (attestation_fields a) ATT_FIELDS) by (done || literal_names).
    unfold attestation_wf in Hwf. bool_split. unfold attestation_fields in Hf. record_lookups Hf.
    rewrite negb_true_iff in *.
    version_one (att_v a). apply ite_Ok; split; [bool_solve|]. repeat parse_step.
    rewrite (proj2 (claim_spec (sort_maps (claim_to_cbor (att_claim a))) (att_claim a)
      ltac:(eapply (find_field_canonical m "claim"); eassumption))) by done.
    unfold void_limits; cbn [mbind result_bind]. f_equal. destruct a; simpl in *. by subst.
Qed.

(** * Stored attestations, vocabularies, references *)

Definition stored_fields (a : StoredAttestation) : list (string * CborValue) :=
  [ ("content", attestation_to_cbor (sa_content a)); ("sign1", Bytes (sa_sign1 a)) ].

Definition stored_wf (limits : Limits) (a : StoredAttestation) : bool :=
  attestation_wf limits (sa_content a)
  && negb ((len (sa_sign1 a) =? 0) || (max_proof_size limits <? len (sa_sign1 a))).

Lemma cbor_to_attestation_entry_spec limits v a :
  canonical_value v = true →
  cbor_to_attestation_entry v limits = Ok a ↔
  stored_wf limits a = true ∧ v = sort_maps (attestation_entry_to_cbor a).
Proof.
  intros Hc. change (attestation_entry_to_cbor a) with (Map (to_pairs (stored_fields a))).
  rewrite (record_parse v (stored_fields a) ["content"; "sign1"]) by (done || literal_names). split.
  - unfold cbor_to_attestation_entry. intros H. to_lookups.
    match goal with H : cbor_to_attestation _ _ = Ok _ |- _ =>
      apply cbor_to_attestation_spec in H as [? ->]; [|by eapply find_field_canonical] end.
    match goal with H : match ?x with _ => _ end = Ok _ |- _ => destruct x; try done end. to_lookups.
    split; [unfold stored_wf; bool_solve; by apply negb_true_iff|].
    eexists. split_and!; [done..|]. unfold stored_fields. by record_forall.
  - intros [Hwf (m & -> & Hcl & Hf)]. unfold cbor_to_attestation_entry. cbn [as_map mbind result_bind].
    unfold stored_wf in Hwf. bool_split. unfold stored_fields in Hf. record_lookups Hf.
    rewrite negb_true_iff in *. repeat parse_step.
    rewrite (proj2 (cbor_to_attestation_spec limits _ (sa_content a)
      ltac:(eapply (find_field_canonical m "content"); eassumption))) by done.
    cbn [mbind result_bind]. repeat parse_step. by destruct a.
Qed.

Definition vocabulary_fields (d : VocabularyDecl) : list (string * CborValue) :=
  [ ("ns", Text (voc_ns d)); ("version", Uint (voc_version d)) ].

Definition vocabulary_wf (d : VocabularyDecl) : bool :=
  text_ok (voc_ns d) && negb (sempty (voc_ns d) || (128 <? slen (voc_ns d)))
  && negb (contains_char colon (voc_ns d) || contains_whitespace (voc_ns d)).

Lemma cbor_to_vocabulary_spec v d :
  canonical_value v = true →
  cbor_to_vocabulary v = Ok d ↔ vocabulary_wf d = true ∧ v = sort_maps (vocabulary_to_cbor d).
Proof.
  intros Hc. change (vocabulary_to_cbor d) with (Map (to_pairs (vocabulary_fields d))).
  rewrite (record_parse v (vocabulary_fields d) ["ns"; "version"]) by (done || literal_names). split.
  - unfold cbor_to_vocabulary. intros H. to_lookups.
    split; [unfold vocabulary_wf; bool_solve; by apply negb_true_iff|].
    eexists. split_and!; [done..|]. unfold vocabulary_fields. by record_forall.
  - intros [Hwf (m & -> & Hcl & Hf)]. unfold cbor_to_vocabulary. cbn [as_map mbind result_bind].
    unfold vocabulary_wf in Hwf. bool_split. unfold vocabulary_fields in Hf. record_lookups Hf.
    rewrite !negb_true_iff in *. repeat parse_step. by destruct d.
Qed.

(** * Whole proofs *)

(** A parser that inverts a printer on canonical values does so on arrays. *)
Lemma mapM_spec {A} (f : CborValue → Result A) (g : A → CborValue) (wf : A → bool) xs l :
  (∀ v a, canonical_value v = true → f v = Ok a ↔ wf a = true ∧ v = sort_maps (g a)) →
  forallb canonical_value xs = true →
  mapM f xs = Ok l ↔ forallb wf l = true ∧ xs = map sort_maps (map g l).
Proof.
  intros Hf Hxs. rewrite mapM_Ok. rewrite forallb_Forall in Hxs. split.
  - intros H. induction H as [|v a xs l Hva H IH]; [done|].
    apply Forall_cons in Hxs as [Hv Hxs]. apply Hf in Hva as [Hwf ->]; [|done].
    destruct (IH Hxs) as [Hl ->]. simpl. by rewrite Hwf, Hl.
  - intros [Hl ->]. induction l as [|a l IH]; [constructor|]. simpl in *.
    apply Forall_cons in Hxs as [Hv Hxs]. bool_split. constructor; [by apply Hf|by apply IH].
Qed.

Definition event_cbor (e : EventContent) : CborValue := Map (to_pairs (event_fields e)).

Lemma cbor_to_event_spec' limits v e :
  canonical_value v = true →
  cbor_to_event v limits = Ok e ↔ event_wf limits e = true ∧ v = sort_maps (event_cbor e).
Proof.
  intros Hc. rewrite cbor_to_event_spec by done. setoid_rewrite event_to_cbor_Ok. split.
  - intros [Hwf (w & [_ ->] & Hv)]. done.
  - intros [Hwf Hv]. split; [done|]. eexists. split; [split; [|done]|done].
    unfold event_wf in Hwf. by bool_split.
Qed.

Lemma mapM_event_to_cbor l ws :
  mapM event_to_cbor l = Ok ws ↔ Forall (λ e, ev_v e = 1) l ∧ ws = map event_cbor l.
Proof.
  rewrite mapM_Ok. split.
  - intros HF. induction HF as [|e w l ws [? ->]%event_to_cbor_Ok _ [IH1 ->]]; [done|].
    split; [by constructor|done].
  - intros [H ->]. induction H; constructor; [by apply event_to_cbor_Ok|done].
Qed.

Definition opt_array {A} (key : string) (g : A → CborValue) (l : list A) : list (string * CborValue) :=
  if negb (len l =? 0) then [(key, Array (map g l))] else [].

Definition proof_base_fields (p : Proof_) : list (string * CborValue) :=
  [ ("attestations", Array (map attestation_entry_to_cbor (prf_attestations p)));
    ("created_at", Uint (prf_created_at p)); ("events", Array (map event_cbor (prf_events p)));
    ("evidence", Array (map evidence_to_cbor (prf_evidence p)));
    ("proof_id", Text (prf_proof_id p)); ("proposition", proposition_to_cbor (prf_proposition p));
    ("relationships", Array (map relationship_to_cbor (prf_relationships p))); ("v", Uint 1) ].
Definition proof_fields (p : Proof_) : list (string * CborValue) :=
  proof_base_fields p
  ++ opt_array "referenced_proofs" Text (prf_referenced_proofs p)
  ++ opt_array "vocabularies" vocabulary_to_cbor (prf_vocabularies p).

Lemma proof_to_cbor_Ok p w :
  proof_to_cbor p = Ok w ↔
  Forall (λ e, ev_v e = 1) (prf_events p) ∧ w = Map (to_pairs (proof_fields p)).
Proof.
  unfold proof_to_cbor. rewrite bind_Ok. setoid_rewrite mapM_event_to_cbor.
  assert (∀ (l : list string) (k : list VocabularyDecl),
    (if negb (len l =? 0) then [(Text "referenced_proofs", Array (map Text l))] else []) ++
    (if negb (len k =? 0) then [(Text "vocabularies", Array (map vocabulary_to_cbor k))] else []) =
    to_pairs (opt_array "referenced_proofs" Text l ++ opt_array "vocabularies" vocabulary_to_cbor k)) as Hopt.
  { intros l k. unfold opt_array. by destruct (len l =? 0), (len k =? 0). }
  split.
  - intros (ws & [He ->] & [= <-]). split; [done|]. unfold proof_fields, to_pairs in *. cbn [map app proof_base_fields].
    by rewrite Hopt.
  - intros [He ->]. eexists. split; [done|]. unfold proof_fields, to_pairs in *. cbn [map app proof_base_fields].
    by rewrite Hopt.
Qed.

(** The explicit empty optional arrays that the printer never emits. *)
Definition is_empty_array (o : option CborValue) : bool :=
  match o with Some (Array []) => true | _ => false end.
Definition no_empty_optional (v : CborValue) : bool :=
  match v with
  | Map m => negb (is_empty_array (find_field m "referenced_proofs"))
             && negb (is_empty_array (find_field m "vocabularies"))
  | _ => true
  end.

(** Looking an optional array up in a canonical map. *)
Definition opt_lookup {A} (m : pairs_t) (key : string) (g : A → CborValue) (l : list A) : Prop :=
  find_field m key = (if negb (len l =? 0) then Some (Array (map sort_maps (map g l))) else None).

Section proof_schema_spec.
Context `{Base64Url}.

Definition ref_ok (s : string) : bool := is_ok (check_proof_ref_shape s).
Definition refs_wf (limits : Limits) (refs : list string) : bool :=
  (len refs <=? max_referenced_proofs limits) && forallb ref_ok refs
  && bool_decide (dedup_by (λ a b, bool_decide (a = b)) (sort_by str_leb refs) = refs).
Definition vocabularies_wf (limits : Limits) (l : list VocabularyDecl) : bool :=
  (len l <=? max_vocabularies limits) && forallb vocabulary_wf l && vocabularies_sorted l.

Lemma cbor_to_proof_ref_spec v s :
  cbor_to_proof_ref v = Ok s ↔ ref_ok s = true ∧ v = sort_maps (Text s).
Proof.
  unfold ref_ok. destruct v; simpl; try naive_solver.
  destruct (check_proof_ref_shape s0) as [[]|] eqn:E; simpl; split.
  - intros [= ->]. by rewrite E.
  - intros [_ [= ->]]. done.
  - done.
  - intros [Hs [= ->]]. by rewrite E in Hs.
Qed.

Lemma cbor_to_referenced_proofs_spec m limits refs :
  canonical_value (Map m) = true → is_empty_array (find_field m "referenced_proofs") = false →
  cbor_to_referenced_proofs m limits = Ok refs ↔
  refs_wf limits refs = true ∧ opt_lookup m "referenced_proofs" Text refs.
Proof.
  intros Hc Hne. unfold cbor_to_referenced_proofs, opt_lookup, refs_wf.
  destruct (find_field m "referenced_proofs") as [v|] eqn:Hf.
  2: { split; [intros [= <-]|].
       - split; [|done]. bool_solve. apply N.leb_le. unfold len. simpl. lia.
       - intros [_ Hr]. destruct (len refs =? 0) eqn:E; [|done].
         apply N.eqb_eq in E. destruct refs; [done|]. unfold len in E. simpl in E. lia. }
  pose proof (find_field_canonical _ _ _ Hc Hf) as Hcv.
  destruct v as [| | | |items| | |]; try (split; [done|]; intros [_ Hr]; by destruct (negb _)).
  assert ((len items =? 0) = false) as Hlen by by destruct items.
  rewrite ite_Ok, bind_Ok, N.ltb_ge.
  setoid_rewrite (mapM_spec cbor_to_proof_ref Text ref_ok items); [|intros; apply cbor_to_proof_ref_spec|done].
  split.
  - intros [Hl (r & [Hok ->] & Hd)]. apply ite_Ok in Hd as [Hd [= <-]].
    apply orb_false_iff in Hd as [_ Hd]. rewrite !len_map in *. rewrite Hlen. split; [|done].
    bool_solve; [by apply N.leb_le|]. apply bool_decide_eq_true. apply bool_decide_eq_false in Hd.
    by apply dec_stable.
  - intros [Hwf Hr]. bool_split. rewrite bool_decide_eq_true, N.leb_le in *.
    destruct (negb (len refs =? 0)); simplify_eq. rewrite !len_map.
    split; [done|]. exists refs. split; [done|]. apply ite_Ok. split; [|done].
    apply orb_false_iff. split.
    + match goal with H : dedup_by _ _ = _ |- _ => rewrite H end. by rewrite N.eqb_refl.
    + apply bool_decide_eq_false. by intros [].
Qed.

Lemma cbor_to_vocabularies_spec m limits l :
  canonical_value (Map m) = true → is_empty_array (find_field m "vocabularies") = false →
  cbor_to_vocabularies m limits = Ok l ↔
  vocabularies_wf limits l = true ∧ opt_lookup m "vocabularies" vocabulary_to_cbor l.
Proof.
  intros Hc Hne. unfold cbor_to_vocabularies, opt_lookup, vocabularies_wf.
  destruct (find_field m "vocabularies") as [v|] eqn:Hf.
  2: { split; [intros [= <-]|].
       - split; [|done]. bool_solve. apply N.leb_le. unfold len. simpl. lia.
       - intros [_ Hr]. by destruct l. }
  pose proof (find_field_canonical _ _ _ Hc Hf) as Hcv.
  destruct v as [| | | |items| | |]; try (split; [done|]; intros [_ Hr]; by destruct (negb _)).
  assert ((len items =? 0) = false) as Hlen by by destruct items.
  rewrite ite_Ok, bind_Ok, N.ltb_ge.
  setoid_rewrite (mapM_spec cbor_to_vocabulary vocabulary_to_cbor vocabulary_wf items);
    [|intros; by apply cbor_to_vocabulary_spec|done].
  split.
  - intros [Hl (r & [Hok ->] & Hd)]. destruct (vocabularies_sorted r) eqn:Hs; simplify_eq.
    rewrite !len_map in *. rewrite Hlen. split; [|done]. bool_solve. by apply N.leb_le.
  - intros [Hwf Hr]. bool_split. rewrite N.leb_le in *.
    destruct (negb (len l =? 0)); simplify_eq. rewrite !len_map.
    split; [done|]. exists l. split; [done|]. by case_match.
Qed.

(** A closed map whose optional keys are absent is closed under the rest. *)
Lemma check_closed_restrict m allowed keys :
  canonical_value (Map m) = true → (∀ k, k ∈ keys → k ∈ allowed) →
  check_closed m keys = Ok tt ↔
  check_closed m allowed = Ok tt ∧ (∀ k, k ∈ allowed → k ∉ keys → find_field m k = None).
Proof.
  intros [_ Hnd]%canonical_keys Hsub. rewrite !check_closed_Ok, !Forall_forall. split.
  - intros Hk. split.
    + intros x Hx. destruct (Hk x Hx) as (k & ? & ?). eauto.
    + intros k _ Hnk. destruct (find_field m k) as [v|] eqn:Hf; [|done].
      apply find_field_Some in Hf. destruct (Hk _ Hf) as (k' & [= <-] & ?). done.
  - intros [Hk Hnone] [k0 v] Hx. destruct (Hk _ Hx) as (k & Hk0 & Hka). simpl in Hk0. subst k0. exists k. split; [done|].
    destruct (decide (k ∈ keys)) as [|Hnk]; [done|]. specialize (Hnone k Hka Hnk).
    by rewrite (find_field_elem m k v Hnd Hx) in Hnone.
Qed.

Definition proof_wf (limits : Limits) (p : Proof_) : bool :=
  (prf_v p =? 1) && text_ok (prf_proof_id p) && starts_with "prf:v1:" (prf_proof_id p)
  && proposition_wf limits (prf_proposition p)
  && forallb (event_wf limits) (prf_events p) && forallb (stored_wf limits) (prf_attestations p)
  && forallb (evidence_wf limits) (prf_evidence p)
  && forallb (relationship_wf limits) (prf_relationships p)
  && refs_wf limits (prf_referenced_proofs p)
  && negb (max_edges limits <? len (prf_relationships p))
  && negb (max_nodes limits <?
           len (prf_events p) + len (prf_attestations p) + len (prf_evidence p))
  && vocabularies_wf limits (prf_vocabularies p).

Ltac literal_member :=
  cbn [map fst app proof_base_fields]; unfold PROOF_FIELDS; set_solver.

(** The record of a proof in a canonical map: the base lookups and the two
    optional ones. *)
Lemma proof_record m p :
  canonical_value (Map m) = true →
  Map m = sort_maps (Map (to_pairs (proof_fields p))) ↔
  check_closed m PROOF_FIELDS = Ok tt ∧
  Forall (λ q, find_field m q.1 = Some (sort_maps q.2)) (proof_base_fields p) ∧
  opt_lookup m "referenced_proofs" Text (prf_referenced_proofs p) ∧
  opt_lookup m "vocabularies" vocabulary_to_cbor (prf_vocabularies p).
Proof.
  intros Hc. assert (NoDup (map fst (proof_fields p))) as Hnd.
  { unfold proof_fields, opt_array. case_match; case_match; literal_names. }
  rewrite (record_shape m (proof_fields p) (map fst (proof_fields p))) by done.
  rewrite (check_closed_restrict m PROOF_FIELDS) by
    (done || (unfold proof_fields, opt_array; case_match; case_match; cbn [map fst app]; set_solver)).
  unfold proof_fields, opt_lookup. rewrite !Forall_app.
  unfold opt_array. 
  destruct (negb (len (prf_referenced_proofs p) =? 0)), (negb (len (prf_vocabularies p) =? 0));
    rewrite ?Forall_cons, ?Forall_nil; cbn [fst snd]; rewrite ?sort_array.
  all: split; [intros [[? Hn] Hr]; split_and!; try tauto; apply Hn; literal_member |].
  all: intros (? & ? & ? & ?); split_and!; try done; intros k Hk Hnk; cbn in Hnk.
  all: unfold PROOF_FIELDS in Hk; set_unfold; destruct_or!; subst; first [done | tauto].
Qed.

(** The nested arrays of a proof, read through the members' specifications. *)
Lemma proof_members m limits (Hc : canonical_value (Map m) = true) :
  (∀ key xs l, find_field m key = Some (Array xs) →
     mapM (λ item, cbor_to_event item limits) xs = Ok l ↔
     forallb (event_wf limits) l = true ∧ xs = map sort_maps (map event_cbor l)) ∧
  (∀ key xs l, find_field m key = Some (Array xs) →
     mapM (λ item, cbor_to_attestation_entry item limits) xs = Ok l ↔
     forallb (stored_wf limits) l = true ∧ xs = map sort_maps (map attestation_entry_to_cbor l)) ∧
  (∀ key xs l, find_field m key = Some (Array xs) →
     mapM (λ item, cbor_to_evidence item limits) xs = Ok l ↔
     forallb (evidence_wf limits) l = true ∧ xs = map sort_maps (map evidence_to_cbor l)) ∧
  (∀ key xs l, find_field m key = Some (Array xs) →
     mapM (λ item, cbor_to_relationship item limits) xs = Ok l ↔
     forallb (relationship_wf limits) l = true ∧ xs = map sort_maps (map relationship_to_cbor l)) ∧
  (∀ key v ps, find_field m key = Some v →
     cbor_to_proposition v limits = Ok ps ↔
     proposition_wf limits ps = true ∧ v = sort_maps (proposition_to_cbor ps)).
Proof.
  split_and!; intros.
  5: { apply cbor_to_proposition_spec. by eapply find_field_canonical. }
  all: apply mapM_spec; [|by eapply (find_field_canonical m _ (Array xs))]; intros;
    by (apply cbor_to_event_spec' || apply cbor_to_attestation_entry_spec
        || apply cbor_to_evidence_spec || apply cbor_to_relationship_spec).
Qed.

Lemma cbor_to_proof_spec limits v p :
  canonical_value v = true → no_empty_optional v = true →
  cbor_to_proof v limits = Ok p ↔
  proof_wf limits p = true ∧ ∃ w, proof_to_cbor p = Ok w ∧ v = sort_maps w.
Proof.
  intros Hc Hne. split.
  - unfold cbor_to_proof. intros Hp. to_lookups. unfold no_empty_optional in Hne. bool_split.
    rewrite negb_true_iff in *.
    match goal with H : cbor_to_referenced_proofs _ _ = Ok _ |- _ =>
      apply cbor_to_referenced_proofs_spec in H as [? ?]; [|done..] end.
    match goal with H : cbor_to_vocabularies _ _ = Ok _ |- _ =>
      apply cbor_to_vocabularies_spec in H as [? ?]; [|done..] end.
    destruct (proof_members a limits Hc) as (He & Ha' & Hv & Hr & Hpr).
    repeat match goal with
    | H : mapM _ _ = Ok _ |- _ =>
        first [eapply He in H | eapply Ha' in H | eapply Hv in H | eapply Hr in H]; [|eassumption];
        destruct H as [? ->]
    | H : cbor_to_proposition _ _ = Ok _ |- _ => eapply Hpr in H as [? ->]; [|eassumption]
    end. clear He Ha' Hv Hr Hpr.
    set (p := mkProof _ _ _ _ _ _ _ _ _ _). split.
    + unfold proof_wf. bool_solve; by apply negb_true_iff.
    + eexists. rewrite proof_to_cbor_Ok. split; [split; [|done]|].
      * match goal with H : forallb (event_wf _) _ = true |- _ => rewrite forallb_Forall in H end.
        eapply Forall_impl; [eassumption|]. intros e ?. unfold event_wf in *. by bool_split.
      * apply proof_record; [done|]. split_and!; [done| |done..]. unfold proof_base_fields.
        by record_forall.
  - intros [Hwf (w & [He ->]%proof_to_cbor_Ok & ->)]. 
    destruct (sort_maps (Map (to_pairs (proof_fields p)))) as [| | | | |m| |] eqn:Hm;
      try (by rewrite sort_maps_map in Hm).
    symmetry in Hm. apply proof_record in Hm as (Hcl & Hf & Href & Hvoc); [|done].
    unfold proof_base_fields in Hf. record_lookups Hf.
    unfold proof_wf in Hwf. bool_split. unfold no_empty_optional in Hne. bool_split.
    rewrite negb_true_iff in *.
    destruct (proof_members m limits Hc) as (Hme & Hma & Hmv & Hmr & Hmp).
    unfold cbor_to_proof. cbn [as_map mbind result_bind].
    assert (cbor_to_referenced_proofs m limits = Ok (prf_referenced_proofs p)) as Hrefs
      by by apply cbor_to_referenced_proofs_spec.
    assert (cbor_to_vocabularies m limits = Ok (prf_vocabularies p)) as Hvocs
      by by apply cbor_to_vocabularies_spec.
    repeat parse_step.
    apply ite_Ok. split; [by apply negb_false_iff|].
    rewrite (proj2 (Hmp "proposition" _ (prf_proposition p) ltac:(eassumption))) by done. cbn [mbind result_bind].
    rewrite (proj2 (Hme "events" _ (prf_events p) ltac:(eassumption))) by done. cbn [mbind result_bind].
    rewrite (proj2 (Hma "attestations" _ (prf_attestations p) ltac:(eassumption))) by done. cbn [mbind result_bind].
    rewrite (proj2 (Hmv "evidence" _ (prf_evidence p) ltac:(eassumption))) by done. cbn [mbind result_bind].
    rewrite (proj2 (Hmr "relationships" _ (prf_relationships p) ltac:(eassumption))) by done. cbn [mbind result_bind].
    rewrite Hrefs. cbn [mbind result_bind]. repeat parse_step.
    unfold void_limits. cbn [mbind result_bind]. rewrite Hvocs. cbn [mbind result_bind].
    f_equal. destruct p; simpl in *. by subst.
Qed.
End proof_schema_spec.

(** * What the schemas guarantee *)

Section schema_properties.
Context `{Base64Url}.

Lemma printed_no_empty_optional p :
  canonical_value (sort_maps (Map (to_pairs (proof_fields p)))) = true →
  no_empty_optional (sort_maps (Map (to_pairs (proof_fields p)))) = true.
Proof.
  intros Hc. destruct (sort_maps (Map (to_pairs (proof_fields p)))) as [| | | | |m| |] eqn:Hm; try done.
  symmetry in Hm. apply proof_record in Hm as (_ & _ & Href & Hvoc); [|done].
  unfold no_empty_optional, opt_lookup in *. rewrite Href, Hvoc.
  by destruct (prf_referenced_proofs p), (prf_vocabularies p).
Qed.

Lemma proof_reparse limits p w :
  limits_wf limits = true → proof_wf limits p = true → proof_to_cbor p = Ok w →
  encodable limits (Decoder.levels_at_root limits) w = true →
  len (encode_canonical w) <= max_proof_size limits →
  decode_strict (encode_canonical w) limits = Ok (sort_maps w) ∧
  cbor_to_proof (sort_maps w) limits = Ok p.
Proof.
  intros Hlim Hwf Hw Henc Hsize. split; [by apply decode_strict_of_encode|].
  pose proof (encodable_canonical _ _ _ Henc) as Hc.
  apply cbor_to_proof_spec; [done| |by eauto].
  apply proof_to_cbor_Ok in Hw as [_ ->]. by apply printed_no_empty_optional.
Qed.

(** C32: print, then parse.  A well-formed proof printed to canonical CBOR and
    decoded strictly parses back to exactly that proof: every member,
    reference, vocabulary and metadata entry survives. *)
Theorem proof_print_parse limits p w
  (Hlim : limits_wf limits = true) (Hwf : proof_wf limits p = true)
  (Hw : proof_to_cbor p = Ok w)
  (Henc : encodable limits (Decoder.levels_at_root limits) w = true)
  (Hsize : len (encode_canonical w) <= max_proof_size limits) :
  (v ← decode_strict (encode_canonical w) limits; cbor_to_proof v limits) = Ok p.
Proof. by destruct (proof_reparse limits p w) as [-> Hp]. Qed.

(** Parse, then print.  A proof parsed from strictly decoded bytes is well
    formed, and unless the bytes spell out an empty optional array, printing
    it gives back exactly the bytes it was parsed from. *)
Theorem proof_parse_print limits bytes v p
  (Hd : decode_strict bytes limits = Ok v) (Hp : cbor_to_proof v limits = Ok p)
  (Hne : no_empty_optional v = true) :
  proof_wf limits p = true ∧ ∃ w, proof_to_cbor p = Ok w ∧ encode_canonical w = bytes.
Proof.
  apply decode_strict_inv in Hd as (Hb & Hs & Henc & _).
  assert (canonical_value v = true) as Hc by (rewrite <- Hs; by eapply encodable_canonical).
  apply cbor_to_proof_spec in Hp as (Hwf & w & Hw & ->); [|done..].
  split; [done|]. exists w. split; [done|]. rewrite <- Hb. unfold encode_canonical.
  by rewrite encode_sort_maps.
Qed.
End schema_properties.

(** The member schemas.  On a canonical value each parser returns exactly
    the well-formed object whose canonical print is that value, and nothing
    else: printing and parsing are inverse for events, attestations, evidence,
    relationships and propositions. *)
Theorem member_schemas_inverse limits v (Hc : canonical_value v = true) :
  (∀ e, cbor_to_event v limits = Ok e ↔
        event_wf limits e = true ∧ ∃ w, event_to_cbor e = Ok w ∧ v = sort_maps w) ∧
  (∀ a, cbor_to_attestation v limits = Ok a ↔
        attestation_wf limits a = true ∧ v = sort_maps (attestation_to_cbor a)) ∧
  (∀ e, cbor_to_evidence v limits = Ok e ↔
        evidence_wf limits e = true ∧ v = sort_maps (evidence_to_cbor e)) ∧
  (∀ r, cbor_to_relationship v limits = Ok r ↔
        relationship_wf limits r = true ∧ v = sort_maps (relationship_to_cbor r)) ∧
  (∀ p, cbor_to_proposition v limits = Ok p ↔
        proposition_wf limits p = true ∧ v = sort_maps (proposition_to_cbor p)).
Proof.
  split_and!; intros.
  - by apply cbor_to_event_spec.
  - by apply cbor_to_attestation_spec.
  - by apply cbor_to_evidence_spec.
  - by apply cbor_to_relationship_spec.
  - by apply cbor_to_proposition_spec.
Qed.

(** * Concrete proofs *)

Module SchemaSamples.
Definition proposition : Proposition_ := {|
  prop_v := 1; prop_kind := "payment"; prop_subject := "acct:1"; prop_predicate := "settled";
  prop_object := None; prop_at_time := Some 7;
  prop_context := [("b", MUint 1); ("aa", MText "x")] |}.
Definition digest : HashRef :=
  {| hr_v := 1; hr_alg := HashAlgorithm.Sha256; hr_digest := repeat Byte.xab 32 |}.
Definition event : EventContent := {|
  ev_v := 1; ev_type := EventType.PAYMENT_CREATED; ev_subject := "acct:1";
  ev_effective_at := 5; ev_payload_ref := digest; ev_metadata := [("order", MText "ord-1")] |}.
Definition attestation : AttestationContent := {|
  att_v := 1; att_issuer := "key:ed25519:00"; att_subject := "evt:v1:00";
  att_claim := {| claim_type := "observed"; claim_fields := [("ok", MBool true); ("reason", MText "r")] |};
  att_issued_at := 10; att_expires_at := Some 20; att_evidence_ref := Some "evd:v1:00" |}.
Definition evidence : Evidence := {|
  evd_v := 1; evd_kind := EvidenceKind.RECEIPT; evd_digest := digest;
  evd_attestation_ref := Some "att:v1:00"; evd_hint := None |}.
Definition relationship : Relationship := {|
  rel_v := 1; rel_from := "evt:v1:00"; rel_type := RelType.PRODUCED; rel_to := "evd:v1:00";
  rel_evidence_ref := None; rel_attestation_ref := Some "att:v1:00" |}.
Definition proof : Proof_ := {|
  prf_v := 1; prf_proof_id := "prf:v1:00"; prf_proposition := proposition;
  prf_events := [event];
  prf_attestations := [{| sa_content := attestation; sa_sign1 := [Byte.x80] |}];
  prf_evidence := [evidence]; prf_relationships := [relationship];
  prf_referenced_proofs := []; prf_vocabularies := [{| voc_ns := "legacy"; voc_version := 1 |}];
  prf_created_at := 9 |}.
Definition printed : CborValue :=
  match proof_to_cbor proof with Ok w => w | Err _ => Null end.

(** The printed form of a proof without references, with the empty array
    spelled out. *)
Definition explicit_empty : CborValue :=
  match printed with
  | Map m => Map (m ++ [(Text "referenced_proofs", Array [])])
  | v => v
  end.
End SchemaSamples.
Import SchemaSamples.

Lemma proof_print_parse_witness :
  (v ← decode_strict (encode_canonical printed) default_limits;
   @cbor_to_proof Toy.base64 v default_limits) = Ok proof.
Proof. apply (@proof_print_parse Toy.base64); vm_compute; congruence. Defined.

(** An explicit empty optional array is accepted.  Strict decoding and the
    proof schema accept bytes that spell out [referenced_proofs: []], and the
    parsed proof prints to different bytes: re-encoding the parsed object is
    not byte-identical, and two canonical byte strings name one proof. *)
Theorem empty_optional_not_reencoded `{Base64Url} :
  ∃ bytes v p w,
    decode_strict bytes default_limits = Ok v ∧ cbor_to_proof v default_limits = Ok p ∧
    proof_to_cbor p = Ok w ∧ encode_canonical w ≠ bytes ∧
    (v' ← decode_strict (encode_canonical w) default_limits; cbor_to_proof v' default_limits) = Ok p.
Proof.
  exists (encode_canonical explicit_empty), (sort_maps explicit_empty), proof, printed.
  split_and!; try (vm_compute; reflexivity). vm_compute. congruence.
Qed.
