(* ===== verification/Graph.v ===== *)
(** Graph: topology validation of [crates/proof-graph/src/lib.rs].

    Directed edges between artifact ids: grounding and dangling-reference
    checks, the linear SUPERSEDES chains (Kahn's algorithm with an explicit
    stack) and the two acyclicity checks (an iterative three-colour depth-first
    search with an explicit stack).

    Rust iterates a [HashSet] in an arbitrary order; [HashOrder] stands for that
    order, and every theorem holds for each one.  The loops carry fuel; the
    theorems show that the fuel they are given is enough. *)
From S2P Require Import Prelude Core.

(** The iteration order of [std::collections::HashSet<&str>]. *)
Class HashOrder := hash_order : gset string → list string.
(** An iteration visits every element once. *)
Class HashOrderLaws `{HashOrder} : Prop := hash_order_perm s : hash_order s ≡ₚ elements s.

(** * Records *)

Record EdgeRecord : Set := mkEdge {
  edge_content : Relationship;
  edge_id : string;
}.

(** [NodeSet]: the known artifact ids. *)
Abbreviation NodeSet := (gset string).
Definition NodeSet_new (ids : list string) : NodeSet := list_to_set ids.
Definition contains (nodes : NodeSet) (id : string) : bool := bool_decide (id ∈ nodes).

Record ValidatedGraph : Set := mkValidated {
  vg_edge_ids : list string;
  vg_node_count : N;
  vg_edge_count : N;
  vg_longest_supersedes_chain : N;
}.

(** * Depth-first search *)

Inductive Color : Set := White | Gray | Black.
#[global] Instance Color_eq_dec : EqDecision Color.
Proof. solve_decision. Defined.

Abbreviation adjacency := (gmap string (list string)).

(** [adj.entry(a).or_default().push(b)]. *)
Definition adj_push (adj : adjacency) (a b : string) : adjacency :=
  <[a := default [] (adj !! a) ++ [b]]> adj.

(** The adjacency lists and the endpoints of the edges [keep] selects. *)
Fixpoint build_adj (keep : Relationship → bool) (nodes : NodeSet) (edges : list EdgeRecord)
    (adj : adjacency) (all : gset string) : adjacency * gset string :=
  match edges with
  | [] => (adj, all)
  | e :: edges' =>
      let c := edge_content e in
      if negb (keep c) || (negb (contains nodes (rel_from c)) || negb (contains nodes (rel_to c)))
      then build_adj keep nodes edges' adj all
      else build_adj keep nodes edges' (adj_push adj (rel_from c) (rel_to c))
             ({[rel_to c]} ∪ ({[rel_from c]} ∪ all))
  end.

(** The successor loop: push every white successor, fail on a gray one. *)
Fixpoint push_nexts (color : gmap string Color) (nexts : list string)
    (stack : list (string * bool)) : Result (list (string * bool)) :=
  match nexts with
  | [] => Ok stack
  | m :: nexts' =>
      match default White (color !! m) with
      | Black => push_nexts color nexts' stack
      | Gray => Err ErrorCode.CycleDetected
      | White => push_nexts color nexts' ((m, false) :: stack)
      end
  end.

(** The [while let Some((n, processed)) = stack.pop()] loop; the top of the
    stack is the head of the list.  [None] is "no result": out of fuel, or the
    panic of [color[&n]] on an uncoloured node. *)
Fixpoint dfs_loop (fuel : nat) (adj : adjacency) (color : gmap string Color)
    (stack : list (string * bool)) : option (Result (gmap string Color)) :=
  match fuel with
  | O => None
  | S fuel' =>
      match stack with
      | [] => Some (Ok color)
      | (n, true) :: stack' => dfs_loop fuel' adj (<[n := Black]> color) stack'
      | (n, false) :: stack' =>
          match color !! n with
          | None => None
          | Some Black => dfs_loop fuel' adj color stack'
          | Some Gray => Some (Err ErrorCode.CycleDetected)
          | Some White =>
              let color' := <[n := Gray]> color in
              match push_nexts color' (default [] (adj !! n)) ((n, true) :: stack') with
              | Err e => Some (Err e)
              | Ok stack'' => dfs_loop fuel' adj color' stack''
              end
          end
      end
  end.

(** Steps a search needs: every node is expanded once. *)
Definition out_degree (adj : adjacency) (n : string) : nat := length (default [] (adj !! n)).
Definition dfs_fuel (adj : adjacency) (all : gset string) : nat :=
  2 + sum_list_with (λ n, S (out_degree adj n)) (elements all).

(** The outer [for start in all] loop. *)
Fixpoint dfs_starts (fuel : nat) (adj : adjacency) (color : gmap string Color)
    (starts : list string) : option (Result unit) :=
  match starts with
  | [] => Some (Ok tt)
  | s :: starts' =>
      match color !! s with
      | None => None
      | Some White =>
          match dfs_loop fuel adj color [(s, false)] with
          | None => None
          | Some (Err e) => Some (Err e)
          | Some (Ok color') => dfs_starts fuel adj color' starts'
          end
      | Some _ => dfs_starts fuel adj color starts'
      end
  end.

Section checks.
Context `{HashOrder}.

Definition dfs_check (adj : adjacency) (all : gset string) : option (Result unit) :=
  dfs_starts (dfs_fuel adj all) adj (gset_to_gmap White all) (hash_order all).

Definition provenance_edge (r : Relationship) : bool :=
  negb (bool_decide (rel_type r = RelType.EQUIVALENT)).
Definition check_acyclic_provenance (edges : list EdgeRecord) (nodes : NodeSet)
    : option (Result unit) :=
  let '(adj, all) := build_adj provenance_edge nodes edges ∅ ∅ in
  dfs_check adj all.

Definition derivation_edge (r : Relationship) : bool :=
  negb (bool_decide (rel_type r = RelType.REFERENCES)
        || bool_decide (rel_type r = RelType.EQUIVALENT)).
Definition check_derivation_acyclic (edges : list EdgeRecord) (nodes : NodeSet)
    : option (Result unit) :=
  let '(adj, all) := build_adj derivation_edge nodes edges ∅ ∅ in
  dfs_check adj all.
End checks.

(** * SUPERSEDES chains *)

(** Loop state of Kahn's algorithm. *)
Record Kahn : Type := mkKahn {
  k_stack : list string;
  k_seen : N;
  k_dist : gmap string N;
  k_indeg : gmap string N;
  k_longest : N;
}.

(** [*map.entry(k).or_insert(0) += 1]. *)
Definition count_up (deg : gmap string N) (k : string) : gmap string N :=
  <[k := default 0 (deg !! k) + 1]> deg.
Definition degree (deg : gmap string N) (k : string) : N := default 0 (deg !! k).

Definition sup_edges (edges : list EdgeRecord) : list (string * string) :=
  map (λ e, (rel_from (edge_content e), rel_to (edge_content e)))
    (List.filter (λ e, bool_decide (rel_type (edge_content e) = RelType.SUPERSEDES)) edges).

(** The body of [for m in nexts]; [None] is the overflow panic of [*e -= 1]. *)
Definition kahn_next (d : N) (m : string) (k : Kahn) : option (Result Kahn) :=
  match k_dist k !! m with
  | None => Some (Err ErrorCode.Malformed)
  | Some dm =>
      let '(dist, longest) :=
        if dm <? d + 1 then (<[m := d + 1]> (k_dist k), N.max (k_longest k) (d + 1))
        else (k_dist k, k_longest k) in
      match k_indeg k !! m with
      | None => Some (Err ErrorCode.Malformed)
      | Some e =>
          if e =? 0 then None else
          let indeg := <[m := e - 1]> (k_indeg k) in
          let stack := if e - 1 =? 0 then m :: k_stack k else k_stack k in
          Some (Ok {| k_stack := stack; k_seen := k_seen k; k_dist := dist;
                      k_indeg := indeg; k_longest := longest |})
      end
  end.
Fixpoint kahn_nexts (d : N) (nexts : list string) (k : Kahn) : option (Result Kahn) :=
  match nexts with
  | [] => Some (Ok k)
  | m :: nexts' =>
      match kahn_next d m k with
      | Some (Ok k') => kahn_nexts d nexts' k'
      | r => r
      end
  end.
Fixpoint kahn_loop (fuel : nat) (adj : adjacency) (k : Kahn) : option (Result Kahn) :=
  match fuel with
  | O => None
  | S fuel' =>
      match k_stack k with
      | [] => Some (Ok k)
      | n :: stack =>
          let k1 := {| k_stack := stack; k_seen := k_seen k + 1; k_dist := k_dist k;
                       k_indeg := k_indeg k; k_longest := k_longest k |} in
          match k_dist k1 !! n with
          | None => Some (Err ErrorCode.Malformed)
          | Some d =>
              match kahn_nexts d (default [] (adj !! n)) k1 with
              | Some (Ok k2) => kahn_loop fuel' adj k2
              | r => r
              end
          end
      end
  end.

Section supersedes.
Context `{HashOrder}.

Definition out_degrees (sup : list (string * string)) : gmap string N :=
  foldl (λ deg e, count_up deg e.1) ∅ sup.
Definition in_degrees (sup : list (string * string)) : gmap string N :=
  foldl (λ deg e, count_up deg e.2) ∅ sup.
Definition sup_adj (sup : list (string * string)) : adjacency :=
  foldl (λ adj e, adj_push adj e.1 e.2) ∅ sup.
Definition sup_nodes (sup : list (string * string)) : gset string :=
  foldl (λ ns e, {[e.2]} ∪ ({[e.1]} ∪ ns)) ∅ sup.

Definition kahn_init (sup : list (string * string)) : Kahn :=
  let nodes := sup_nodes sup in
  let indeg := in_degrees sup in
  {| k_stack := rev (List.filter (λ n, degree indeg n =? 0) (hash_order nodes));
     k_seen := 0; k_dist := gset_to_gmap 1 nodes; k_indeg := indeg; k_longest := 1 |}.

Definition check_supersedes (edges : list EdgeRecord) (limits : Limits) : option (Result N) :=
  let sup := sup_edges edges in
  if len sup =? 0 then Some (Ok 0) else
  let nodes := sup_nodes sup in
  if existsb (λ n, (1 <? degree (out_degrees sup) n) || (1 <? degree (in_degrees sup) n))
       (hash_order nodes)
  then Some (Err ErrorCode.SchemaViolation) else
  match kahn_loop (S (size nodes)) (sup_adj sup) (kahn_init sup) with
  | None => None
  | Some (Err e) => Some (Err e)
  | Some (Ok k) =>
      if negb (k_seen k =? N.of_nat (size nodes)) then Some (Err ErrorCode.CycleDetected) else
      if max_depth limits <? k_longest k then Some (Err ErrorCode.LimitExceeded) else
      Some (Ok (k_longest k))
  end.
End supersedes.

(** * Edge validation *)

Definition is_ascii_digit (b : Byte.byte) : bool := in_range 48 57 b.
Definition byte_v : Byte.byte := Byte.x76.
Definition space : Ascii.ascii := Ascii.ascii_of_N 32.

Definition looks_like_artifact_id (s : string) : bool :=
  match split_once colon s with
  | Some (p, tl) =>
      match split_once colon tl with
      | Some (v, rest) =>
          let versioned :=
            (1 <? slen v)
            && match as_bytes v with
               | b :: bs => bool_decide (b = byte_v) && forallb is_ascii_digit bs
               | [] => false
               end
            && negb (sempty rest) in
          (bool_decide (p ∈ ["evt"; "att"; "evd"; "rel"; "prf"]) && negb (sempty rest))
          || (versioned && negb (sempty p) && negb (contains_char space p))
      | None => false
      end
  | None => false
  end.

(** One endpoint of an [EQUIVALENT] edge. *)
Definition equivalent_endpoint (nodes : NodeSet) (ep : string) (endpoints : gset string)
    : Result (gset string) :=
  if looks_like_artifact_id ep && negb (contains nodes ep) then Err ErrorCode.DanglingReference
  else Ok (if contains nodes ep then {[ep]} ∪ endpoints else endpoints).

(** One typed backing reference. *)
Definition check_backing_ref (nodes : NodeSet) (prefix : string) (opt : option string)
    : Result unit :=
  match opt with
  | None => Ok tt
  | Some id =>
      if sempty id then Err ErrorCode.SchemaViolation else
      if negb (starts_with prefix id) then Err ErrorCode.SchemaViolation else
      if negb (contains nodes id) then Err ErrorCode.DanglingReference else Ok tt
  end.

Definition needs_grounding (extra_grounded : option (gset string)) (r : Relationship) : bool :=
  RelType.requires_grounding (rel_type r)
  || match extra_grounded with Some s => bool_decide (rel_type r ∈ s) | None => false end.

(** The body of the edge loop after the duplicate-id check. *)
Definition check_edge (nodes : NodeSet) (extra_grounded : option (gset string)) (r : Relationship)
    (endpoints : gset string) : Result (gset string) :=
  if negb (rel_v r =? 1) then Err ErrorCode.UnsupportedVersion else
  if sempty (rel_from r) || sempty (rel_to r) then Err ErrorCode.DanglingReference else
  if bool_decide (rel_from r = rel_to r) then Err ErrorCode.SchemaViolation else
  endpoints ←
    (if bool_decide (rel_type r = RelType.EQUIVALENT) then
       endpoints ← equivalent_endpoint nodes (rel_from r) endpoints;
       equivalent_endpoint nodes (rel_to r) endpoints
     else if negb (contains nodes (rel_from r)) then Err ErrorCode.DanglingReference
     else if negb (contains nodes (rel_to r)) then Err ErrorCode.DanglingReference
     else Ok ({[rel_to r]} ∪ ({[rel_from r]} ∪ endpoints)));
  if needs_grounding extra_grounded r
     && bool_decide (rel_evidence_ref r = None) && bool_decide (rel_attestation_ref r = None)
  then Err ErrorCode.RelationshipUngrounded else
  _ ← check_backing_ref nodes "evd:v1:" (rel_evidence_ref r);
  _ ← check_backing_ref nodes "att:v1:" (rel_attestation_ref r);
  Ok endpoints.

Fixpoint check_edges (nodes : NodeSet) (extra_grounded : option (gset string))
    (seen endpoints : gset string) (edges : list EdgeRecord) : Result (gset string) :=
  match edges with
  | [] => Ok endpoints
  | e :: edges' =>
      if bool_decide (edge_id e ∈ seen) then Err ErrorCode.SchemaViolation else
      endpoints ← check_edge nodes extra_grounded (edge_content e) endpoints;
      check_edges nodes extra_grounded ({[edge_id e]} ∪ seen) endpoints edges'
  end.

Section validate.
Context `{HashOrder}.

(** [Some] of the result; [None] only if [check_supersedes] had none. *)
Definition validate_graph_with_grounding (edges : list EdgeRecord) (nodes : NodeSet)
    (limits : Limits) (extra_grounded : option (gset string)) : option (Result ValidatedGraph) :=
  if max_edges limits <? len edges then Some (Err ErrorCode.LimitExceeded) else
  if max_nodes limits <? N.of_nat (size nodes) then Some (Err ErrorCode.LimitExceeded) else
  match check_edges nodes extra_grounded ∅ ∅ edges with
  | Err e => Some (Err e)
  | Ok endpoints =>
      if max_nodes limits <? N.of_nat (size endpoints)
      then Some (Err ErrorCode.LimitExceeded) else
      match check_supersedes edges limits with
      | None => None
      | Some (Err e) => Some (Err e)
      | Some (Ok longest) =>
          Some (Ok {| vg_edge_ids := map edge_id edges;
                      vg_node_count := N.of_nat (size endpoints);
                      vg_edge_count := len edges;
                      vg_longest_supersedes_chain := longest |})
      end
  end.

Definition validate_graph (edges : list EdgeRecord) (nodes : NodeSet) (limits : Limits)
    : option (Result ValidatedGraph) :=
  validate_graph_with_grounding edges nodes limits None.
End validate.

(** * The search decides acyclicity *)

Definition adj_edge (adj : adjacency) (a b : string) : Prop := b ∈ default [] (adj !! a).

Section dfs.
Context (adj : adjacency) (all : gset string).
Abbreviation edge := (adj_edge adj).
Hypothesis Hclosed : ∀ a b, edge a b → a ∈ all ∧ b ∈ all.

(** The gray nodes, from the top of the stack down. *)
Fixpoint grays (stack : list (string * bool)) : list string :=
  match stack with
  | [] => []
  | (n, true) :: s => n :: grays s
  | (_, false) :: s => grays s
  end.

Lemma grays_app s t : grays (s ++ t) = grays s ++ grays t.
Proof. induction s as [|[n []] s IH]; simpl; by rewrite ?IH. Qed.
Lemma grays_elem n s : n ∈ grays s → n ∈ map fst s.
Proof. induction s as [|[k []] s IH]; simpl; set_solver. Qed.

(** The loop invariant. *)
Record dfs_inv (color : gmap string Color) (stack : list (string * bool)) : Prop := {
  inv_dom : dom color = all;
  inv_stack : Forall (λ e, e.1 ∈ all) stack;
  inv_gray : ∀ n, color !! n = Some Gray ↔ n ∈ grays stack;
  inv_nodup : NoDup (grays stack);
  (* finished nodes start no infinite descent *)
  inv_black : ∀ n, color !! n = Some Black → Acc (λ b a, edge a b) n;
  (* successors of an open node are finished or above it on the stack *)
  inv_open : ∀ top n rest m, stack = top ++ (n, true) :: rest → edge n m →
    color !! m = Some Black ∨ m ∈ map fst top;
  (* an entry is a successor of the nearest open node below it *)
  inv_path : ∀ top e rest x, stack = top ++ e :: rest → head (grays rest) = Some x → edge x e.1;
}.

Lemma grays_path stack g gs :
  (∀ top e rest x, stack = top ++ e :: rest → head (grays rest) = Some x → edge x e.1) →
  grays stack = g :: gs → ∀ m, m ∈ grays stack → rtc edge m g.
Proof.
  revert g gs. induction stack as [|[n b] s IH]; intros g gs Hp Hg m Hm; [done|].
  assert (∀ top e rest x, s = top ++ e :: rest → head (grays rest) = Some x → edge x e.1) as Hp'.
  { intros top e rest x -> Hx. by apply (Hp ((n, b) :: top) e rest x). }
  destruct b; simpl in *; [|by eapply IH].
  simplify_eq. apply elem_of_cons in Hm as [->|Hm]; [done|].
  destruct (grays s) as [|x xs] eqn:E; [by apply elem_of_nil in Hm|].
  eapply rtc_r; [by eapply IH|]. apply (Hp [] (g, true) s x); [done|]. by rewrite E.
Qed.

Lemma push_nexts_Ok color nexts stack stack' :
  push_nexts color nexts stack = Ok stack' →
  ∃ pushed, stack' = pushed ++ stack ∧ Forall (λ e, e.2 = false ∧ e.1 ∈ nexts) pushed ∧
    (length pushed ≤ length nexts)%nat ∧
    (∀ m, m ∈ nexts → color !! m = Some Black ∨ m ∈ map fst pushed).
Proof.
  revert stack. induction nexts as [|m nexts IH]; intros stack Hp; simpl in Hp.
  { simplify_eq. exists []. split_and!; [done|constructor|done|]. by intros m ?%elem_of_nil. }
  destruct (default White (color !! m)) eqn:E; [|done|].
  - apply IH in Hp as (pushed & -> & Hf & Hl & Hb). exists (pushed ++ [(m, false)]).
    rewrite <- app_assoc. split_and!; [done| | |].
    + rewrite Forall_app, Forall_singleton. split; [|set_solver].
      eapply Forall_impl; [exact Hf|]. set_solver.
    + rewrite length_app. simpl. lia.
    + intros k Hk. rewrite map_app. set_solver.
  - apply IH in Hp as (pushed & -> & Hf & Hl & Hb). exists pushed. split_and!; [done| | |].
    + eapply Forall_impl; [exact Hf|]. set_solver.
    + simpl. lia.
    + intros k [->|Hk]%elem_of_cons; [|by apply Hb]. left. by destruct (color !! m); simplify_eq/=.
Qed.

Lemma push_nexts_Err color nexts stack e :
  push_nexts color nexts stack = Err e →
  e = ErrorCode.CycleDetected ∧ ∃ m, m ∈ nexts ∧ color !! m = Some Gray.
Proof.
  revert stack. induction nexts as [|m nexts IH]; intros stack Hp; simpl in Hp; [done|].
  destruct (default White (color !! m)) eqn:E.
  - apply IH in Hp as (-> & k & ? & ?). set_solver.
  - simplify_eq. split; [done|]. exists m. split; [left|]. by destruct (color !! m); simplify_eq/=.
  - apply IH in Hp as (-> & k & ? & ?). set_solver.
Qed.

Lemma inv_pop_done color n s :
  dfs_inv color ((n, true) :: s) → dfs_inv (<[n := Black]> color) s.
Proof.
  intros [Hdom Hst Hgray Hnd Hblack Hopen Hpath].
  apply Forall_cons in Hst as [Hn Hst]. simpl in *. apply NoDup_cons in Hnd as [Hng Hnd].
  assert (∀ m, edge n m → color !! m = Some Black) as Hsucc.
  { intros m Hm. destruct (Hopen [] n s m) as [|Hin]; [done..|]. by apply elem_of_nil in Hin. }
  split; [..|done| | |].
  - rewrite dom_insert_L. set_solver.
  - done.
  - intros k. destruct (decide (k = n)) as [->|Hk].
    + rewrite lookup_insert_eq. split; [done|]. intros ?. contradiction.
    + rewrite lookup_insert_ne by done. rewrite Hgray. set_solver.
  - intros k. destruct (decide (k = n)) as [->|Hk].
    + intros _. constructor. intros m Hm. by apply Hblack, Hsucc.
    + rewrite lookup_insert_ne by done. apply Hblack.
  - intros top k rest m -> Hm.
    destruct (Hopen ((n, true) :: top) k rest m) as [Hb|Hin]; [done..| |].
    + left. destruct (decide (m = n)) as [->|]; [by rewrite lookup_insert_eq|by rewrite lookup_insert_ne].
    + simpl in Hin. apply elem_of_cons in Hin as [->|Hin]; [|by right].
      left. by rewrite lookup_insert_eq.
  - intros top e rest x -> Hx. by apply (Hpath ((n, true) :: top) e rest x).
Qed.

Lemma inv_pop_black color n s :
  dfs_inv color ((n, false) :: s) → color !! n = Some Black → dfs_inv color s.
Proof.
  intros [Hdom Hst Hgray Hnd Hblack Hopen Hpath] Hn.
  apply Forall_cons in Hst as [_ Hst]. split; try done.
  - intros top k rest m -> Hm.
    destruct (Hopen ((n, false) :: top) k rest m) as [Hb|Hin]; [done..|by left|].
    simpl in Hin. apply elem_of_cons in Hin as [->|Hin]; [by left|by right].
  - intros top e rest x -> Hx. by apply (Hpath ((n, false) :: top) e rest x).
Qed.

(** A decomposition of a stack below freshly pushed (unprocessed) entries. *)
Lemma pushed_split (pushed s top rest : list (string * bool)) e :
  pushed ++ s = top ++ e :: rest →
  (∃ p2, pushed = top ++ e :: p2 ∧ rest = p2 ++ s) ∨
  (∃ top', top = pushed ++ top' ∧ s = top' ++ e :: rest).
Proof.
  intros [(k & -> & Hk)|(k & -> & Hk)]%app_eq_inv.
  - destruct k as [|e' k]; simpl in Hk.
    + right. exists []. by rewrite !app_nil_r.
    + simplify_eq. left. eauto.
  - right. eauto.
Qed.

Lemma inv_pop_white color n s nexts s' :
  dfs_inv color ((n, false) :: s) → color !! n = Some White → nexts = default [] (adj !! n) →
  push_nexts (<[n := Gray]> color) nexts ((n, true) :: s) = Ok s' →
  dfs_inv (<[n := Gray]> color) s'.
Proof using Hclosed.
  intros [Hdom Hst Hgray Hnd Hblack Hopen Hpath] Hn Hnexts Hp.
  apply Forall_cons in Hst as [Hall Hst]. simpl in *.
  apply push_nexts_Ok in Hp as (pushed & -> & Hf & _ & Hb).
  assert (grays pushed = []) as Hgp.
  { clear -Hf. induction Hf as [|[k []] p [? ?] _ IH]; simpl in *; done. }
  assert (n ∉ grays s) as Hng by (rewrite <- Hgray, Hn; done).
  assert (∀ m, color !! m = Some Black → <[n := Gray]> color !! m = Some Black) as Hmono.
  { intros m Hm. rewrite lookup_insert_ne; [done|]. intros ->. congruence. }
  split.
  - rewrite dom_insert_L. set_solver.
  - rewrite Forall_app, Forall_cons. split_and!; [|done..].
    eapply Forall_impl; [exact Hf|]. intros e [_ He]. apply (Hclosed n). unfold adj_edge. by rewrite <- Hnexts.
  - intros k. rewrite grays_app, Hgp. simpl. destruct (decide (k = n)) as [->|Hk].
    + rewrite lookup_insert_eq. set_solver.
    + rewrite lookup_insert_ne, Hgray by done. set_solver.
  - rewrite grays_app, Hgp. simpl. by apply NoDup_cons.
  - intros k. destruct (decide (k = n)) as [->|Hk]; [by rewrite lookup_insert_eq|].
    rewrite lookup_insert_ne by done. apply Hblack.
  - intros top k rest m [(p2 & -> & _)|(top' & -> & Hs)]%pushed_split Hm.
    + rewrite Forall_app, Forall_cons in Hf. by destruct Hf as (_ & [? _] & _).
    + rewrite map_app. destruct top' as [|e top']; simplify_eq/=.
      * destruct (Hb m) as [|Hin]; [done|by left|]. right. set_solver.
      * destruct (Hopen ((n, false) :: top') k rest m) as [Hbl|Hin]; [done..|left; by apply Hmono|].
        right. set_solver.
  - intros top e rest x [(p2 & -> & ->)|(top' & -> & Hs)]%pushed_split Hx.
    + rewrite !Forall_app, Forall_cons in Hf. destruct Hf as (_ & [_ He] & Hp2).
      rewrite grays_app in Hgp. apply app_eq_nil in Hgp as [_ Hgp].
      assert (grays p2 = []) as Hg2 by (destruct e as [? []]; done).
      rewrite grays_app, Hg2 in Hx. simplify_eq/=. unfold adj_edge. done.
    + destruct top' as [|e' top']; simplify_eq/=.
      * by apply (Hpath [] (n, false) rest x).
      * by apply (Hpath ((n, false) :: top') e rest x).
Qed.

(** A gray successor of the open top node, or a gray pending entry, closes a
    cycle. *)
Lemma gray_cycle color n s m :
  dfs_inv color ((n, false) :: s) → m ∈ grays ((n, true) :: s) → edge n m → tc edge m m.
Proof.
  intros Hinv Hm Hnm. eapply tc_rtc_l; [|by apply tc_once]. simpl in Hm.
  apply elem_of_cons in Hm as [->|Hm]; [done|].
  destruct (grays s) as [|x xs] eqn:E; [by apply elem_of_nil in Hm|].
  eapply rtc_r.
  - eapply (grays_path s); [|done|by rewrite E].
    intros top e rest y -> Hy. by apply (inv_path _ _ Hinv ((n, false) :: top) e rest y).
  - apply (inv_path _ _ Hinv [] (n, false) s x); [done|]. by rewrite E.
Qed.
Lemma gray_entry_cycle color n s :
  dfs_inv color ((n, false) :: s) → color !! n = Some Gray → tc edge n n.
Proof.
  intros Hinv Hn. apply (inv_gray _ _ Hinv) in Hn. simpl in Hn.
  destruct (grays s) as [|x xs] eqn:E; [by apply elem_of_nil in Hn|].
  eapply tc_rtc_l; [|apply tc_once, (inv_path _ _ Hinv [] (n, false) s x); [done|by rewrite E]].
  eapply (grays_path s); [|done|by rewrite E].
  intros top e rest y -> Hy. by apply (inv_path _ _ Hinv ((n, false) :: top) e rest y).
Qed.

(** Each step uses up a stack entry or the expansion of a white node. *)
Definition white_work (color : gmap string Color) (n : string) : nat :=
  if decide (color !! n = Some White) then S (out_degree adj n) else 0.
Definition dfs_work (color : gmap string Color) (stack : list (string * bool)) : nat :=
  length stack + sum_list_with (white_work color) (elements all).

Lemma white_work_insert color n c l :
  n ∉ l → sum_list_with (white_work (<[n := c]> color)) l = sum_list_with (white_work color) l.
Proof.
  induction l as [|m l IH]; simpl; [done|]. intros Hn. rewrite IH by set_solver.
  f_equal. unfold white_work. by rewrite lookup_insert_ne by set_solver.
Qed.
Lemma white_work_le color n c l :
  c ≠ White →
  (sum_list_with (white_work (<[n := c]> color)) l ≤ sum_list_with (white_work color) l)%nat.
Proof.
  intros Hc. induction l as [|m l IH]; simpl; [done|].
  enough (white_work (<[n := c]> color) m ≤ white_work color m)%nat by lia.
  unfold white_work. destruct (decide (m = n)) as [->|Hm].
  - rewrite lookup_insert_eq, decide_False by congruence. lia.
  - by rewrite lookup_insert_ne.
Qed.
Lemma white_work_expand color n c :
  n ∈ all → color !! n = Some White → c ≠ White →
  (sum_list_with (white_work (<[n := c]> color)) (elements all) + S (out_degree adj n)
   ≤ sum_list_with (white_work color) (elements all))%nat.
Proof.
  intros Hn Hw Hc. apply elem_of_elements in Hn. pose proof (NoDup_elements all) as Hnd.
  apply list_elem_of_split in Hn as (l1 & l2 & E). rewrite E in *.
  apply NoDup_app in Hnd as (_ & Hd & [Hn2 _]%NoDup_cons).
  rewrite !sum_list_with_app. simpl.
  rewrite !white_work_insert by set_solver. unfold white_work at 2 5.
  rewrite lookup_insert_eq, decide_False, decide_True by congruence. lia.
Qed.

(** The inner loop terminates within its work bound and, from a state that
    satisfies the invariant, finishes everything on the stack or finds a
    cycle. *)
Lemma dfs_loop_spec fuel color stack :
  dfs_inv color stack → (dfs_work color stack < fuel)%nat →
  match dfs_loop fuel adj color stack with
  | Some (Ok color') => dfs_inv color' [] ∧
      (∀ n, color !! n = Some Black ∨ n ∈ map fst stack → color' !! n = Some Black)
  | Some (Err e) => e = ErrorCode.CycleDetected ∧ ∃ n, tc edge n n
  | None => False
  end.
Proof using Hclosed.
  revert color stack. induction fuel as [|fuel IH]; intros color stack Hinv Hwork; [lia|].
  destruct stack as [|[n done] s]; simpl.
  { split; [done|]. intros n [?|Hn]; [done|by apply elem_of_nil in Hn]. }
  unfold dfs_work in Hwork. simpl in Hwork.
  destruct done.
  - pose proof (white_work_le color n Black (elements all) ltac:(done)).
    specialize (IH (<[n := Black]> color) s (inv_pop_done _ _ _ Hinv)).
    ospecialize* IH; [unfold dfs_work; lia|].
    destruct (dfs_loop _ _ _ _) as [[c'|]|]; [|done..]. destruct IH as [IH1 IH2].
    split; [done|]. intros k Hk. apply IH2.
    destruct (decide (k = n)) as [->|]; [left; by rewrite lookup_insert_eq|].
    rewrite lookup_insert_ne by done. set_solver.
  - assert (n ∈ all) as Hall by (pose proof (inv_stack _ _ Hinv) as Hs; by apply Forall_cons in Hs as [? _]).
    destruct (color !! n) as [[]|] eqn:Hn.
    + destruct (push_nexts _ _ _) as [s'|e] eqn:Hp.
      * pose proof (inv_pop_white _ _ _ _ _ Hinv Hn eq_refl Hp) as Hinv'.
        apply push_nexts_Ok in Hp as (pushed & -> & _ & Hlen & _).
        pose proof (white_work_expand color n Gray Hall Hn ltac:(done)).
        specialize (IH _ _ Hinv'). unfold out_degree in *.
        ospecialize* IH; [unfold dfs_work; rewrite length_app; simpl; unfold out_degree in *; lia|].
        destruct (dfs_loop _ _ _ _) as [[c'|]|]; [|done..]. destruct IH as [IH1 IH2].
        split; [done|]. intros k Hk. apply IH2. rewrite map_app. simpl.
        destruct (decide (k = n)) as [->|]; [set_solver|].
        rewrite lookup_insert_ne by done. set_solver.
      * apply push_nexts_Err in Hp as (-> & m & Hm & Hg). split; [done|]. exists m.
        eapply gray_cycle; [done| |by apply Hm]. simpl.
        destruct (decide (m = n)) as [->|]; [left|right].
        apply (inv_gray _ _ Hinv). by rewrite lookup_insert_ne in Hg.
    + split; [done|]. exists n. by eapply gray_entry_cycle.
    + specialize (IH color s (inv_pop_black _ _ _ Hinv Hn)).
      ospecialize* IH; [unfold dfs_work; lia|].
      destruct (dfs_loop _ _ _ _) as [[c'|]|]; [|done..]. destruct IH as [IH1 IH2].
      split; [done|]. intros k Hk. apply IH2. simpl in Hk. set_solver.
    + apply not_elem_of_dom in Hn. by rewrite (inv_dom _ _ Hinv) in Hn.
Qed.

Lemma dfs_starts_spec color starts :
  dfs_inv color [] → (∀ s, s ∈ starts → s ∈ all) →
  match dfs_starts (dfs_fuel adj all) adj color starts with
  | Some (Ok _) => ∀ s, s ∈ starts → Acc (λ b a, edge a b) s
  | Some (Err e) => e = ErrorCode.CycleDetected ∧ ∃ n, tc edge n n
  | None => False
  end.
Proof using Hclosed.
  revert color. induction starts as [|s starts IH]; intros color Hinv Hall; cbn [dfs_starts].
  { by intros s ?%elem_of_nil. }
  assert (s ∈ all) as Hs by (apply Hall; left).
  destruct (color !! s) as [[]|] eqn:Hc.
  - assert (dfs_inv color [(s, false)]) as Hinv'.
    { destruct Hinv as [Hdom Hst Hgray Hnd Hblack Hopen Hpath]. split; try done.
      - by apply Forall_singleton.
      - intros top n rest m Heq. destruct top as [|? [|]]; simplify_eq/=.
      - intros top e rest x Heq Hx. destruct top as [|? [|]]; simplify_eq/=. }
    pose proof (dfs_loop_spec (dfs_fuel adj all) color [(s, false)] Hinv') as Hl.
    ospecialize* Hl.
    { unfold dfs_work, dfs_fuel. simpl. clear.
      induction (elements all) as [|n l IH]; simpl; [lia|]. unfold white_work at 1. case_decide; lia. }
    destruct (dfs_loop _ _ _ _) as [[c'|]|]; [|done..]. destruct Hl as [Hinv2 Hbl].
    specialize (IH c' Hinv2). ospecialize* IH; [set_solver|].
    destruct (dfs_starts _ _ _ _) as [[]|]; [|done..].
    intros k [->|Hk]%elem_of_cons; [|by apply IH].
    apply (inv_black _ _ Hinv2), Hbl. right. left.
  - apply (inv_gray _ _ Hinv) in Hc. by apply elem_of_nil in Hc.
  - specialize (IH color Hinv). ospecialize* IH; [set_solver|].
    destruct (dfs_starts _ _ _ _) as [[]|]; [|done..].
    intros k [->|Hk]%elem_of_cons; [|by apply IH]. by apply (inv_black _ _ Hinv).
  - apply not_elem_of_dom in Hc. by rewrite (inv_dom _ _ Hinv) in Hc.
Qed.

Lemma Acc_acyclic n : Acc (λ b a, edge a b) n → ¬ tc edge n n.
Proof.
  induction 1 as [n _ IH]. intros Hcyc. inversion Hcyc as [? ? He|? m ? He Ht]; subst.
  - by apply (IH n).
  - apply (IH m He). by eapply tc_r.
Qed.

Lemma dfs_check_spec `{HashOrderLaws} :
  (dfs_check adj all = Some (Ok tt) ∧ ∀ n, ¬ tc edge n n) ∨
  (dfs_check adj all = Some (Err ErrorCode.CycleDetected) ∧ ∃ n, tc edge n n).
Proof using Hclosed.
  unfold dfs_check.
  assert (dfs_inv (gset_to_gmap White all) []) as Hinv.
  { split.
    - apply dom_gset_to_gmap.
    - constructor.
    - intros n. rewrite lookup_gset_to_gmap_Some. simpl. split; [by intros [_ ?]|by intros ?%elem_of_nil].
    - constructor.
    - intros n. rewrite lookup_gset_to_gmap_Some. by intros [_ ?].
    - by intros [] n rest m ?.
    - by intros [] e rest x ?. }
  pose proof (dfs_starts_spec (gset_to_gmap White all) (hash_order all) Hinv) as Hs.
  assert (∀ s, s ∈ hash_order all → s ∈ all) as Hin
    by (intros s; by rewrite hash_order_perm, elem_of_elements).
  specialize (Hs Hin).
  destruct (dfs_starts _ _ _ _) as [[[]|e]|]; [| |done].
  - left. split; [done|]. intros n Hn.
    assert (n ∈ all) as Hall by (inversion Hn as [? ? He|? ? ? He]; by apply Hclosed in He as [? _]).
    eapply Acc_acyclic; [|done]. apply Hs. by rewrite hash_order_perm, elem_of_elements.
  - right. by destruct Hs as [-> ?].
Qed.
End dfs.

(** ** The graph the checks search *)

Lemma adj_push_edge adj a b x y :
  adj_edge (adj_push adj a b) x y ↔ adj_edge adj x y ∨ (x = a ∧ y = b).
Proof.
  unfold adj_edge, adj_push. destruct (decide (x = a)) as [->|Hx].
  - rewrite lookup_insert_eq. simpl. set_solver.
  - rewrite lookup_insert_ne by done. set_solver.
Qed.

(** The relation an acyclicity check is about: kept edges between members. *)
Definition member_edge (keep : Relationship → bool) (nodes : NodeSet) (edges : list EdgeRecord)
    (a b : string) : Prop :=
  ∃ e, e ∈ edges ∧ keep (edge_content e) = true ∧ rel_from (edge_content e) = a ∧
       rel_to (edge_content e) = b ∧ a ∈ nodes ∧ b ∈ nodes.

Lemma member_edge_cons keep nodes e edges a b :
  member_edge keep nodes (e :: edges) a b ↔
  (keep (edge_content e) = true ∧ rel_from (edge_content e) = a ∧ rel_to (edge_content e) = b ∧
   a ∈ nodes ∧ b ∈ nodes) ∨ member_edge keep nodes edges a b.
Proof.
  unfold member_edge. split.
  - intros (e' & [->|He]%elem_of_cons & Hr); [by left|right; eauto].
  - intros [Hr|(e' & He & Hr)]; [exists e|exists e']; (split; [|done]); [left|by right].
Qed.

Lemma build_adj_spec keep nodes edges adj all adj' all' :
  build_adj keep nodes edges adj all = (adj', all') →
  (∀ a b, adj_edge adj a b → a ∈ all ∧ b ∈ all) →
  (∀ a b, adj_edge adj' a b → a ∈ all' ∧ b ∈ all') ∧
  (∀ a b, adj_edge adj' a b ↔ adj_edge adj a b ∨ member_edge keep nodes edges a b).
Proof.
  revert adj all. induction edges as [|e edges IH]; intros adj all; simpl.
  { intros [= -> ->] Hcl. split; [done|]. intros a b. split; [by left|].
    intros [?|(e & He & _)]; [done|by apply elem_of_nil in He]. }
  unfold contains. setoid_rewrite member_edge_cons.
  destruct (negb (keep (edge_content e)) || _) eqn:Hskip; intros Hb Hcl.
  - apply IH in Hb as [H1 H2]; [|done]. split; [done|]. intros a b. rewrite H2.
    destruct (keep (edge_content e)) eqn:Hk; [|naive_solver]. simpl in Hskip.
    rewrite orb_true_iff, !negb_true_iff, !bool_decide_eq_false in Hskip. naive_solver.
  - rewrite !orb_false_iff, !negb_false_iff, !bool_decide_eq_true in Hskip.
    destruct Hskip as (Hk & Hf & Ht).
    apply IH in Hb as [H1 H2].
    2: { intros a b [Hab|[-> ->]]%adj_push_edge; [|set_solver]. apply Hcl in Hab. set_solver. }
    split; [done|]. intros a b. rewrite H2, adj_push_edge. naive_solver.
Qed.

Lemma dfs_member_check `{HashOrderLaws} keep nodes edges :
  let '(adj, all) := build_adj keep nodes edges ∅ ∅ in
  (dfs_check adj all = Some (Ok tt) ∧ ∀ n, ¬ tc (member_edge keep nodes edges) n n) ∨
  (dfs_check adj all = Some (Err ErrorCode.CycleDetected) ∧
   ∃ n, tc (member_edge keep nodes edges) n n).
Proof.
  destruct (build_adj keep nodes edges ∅ ∅) as [adj all] eqn:Hb.
  assert (∀ a b, adj_edge ∅ a b → False) as Hempty.
  { intros a b. unfold adj_edge. rewrite lookup_empty. simpl. by intros ?%elem_of_nil. }
  apply build_adj_spec in Hb as [Hcl Hedge]; [|by intros ?? ?%Hempty].
  assert (∀ a b, tc (adj_edge adj) a b ↔ tc (member_edge keep nodes edges) a b) as Htc.
  { intros a b. split; intros Ht; eapply tc_congruence with (f := id); try exact Ht;
      intros x y; unfold id; rewrite Hedge; naive_solver. }
  setoid_rewrite <- Htc. by apply dfs_check_spec.
Qed.

(** * SUPERSEDES chains: what Kahn's algorithm computes *)

(** Finite predecessor-closed sets contain cycles. *)
Lemma predecessor_closed_cycle (R : relation string) (X : gset string) x :
  x ∈ X → (∀ n, n ∈ X → ∃ p, p ∈ X ∧ R p n) → ∃ n, n ∈ X ∧ tc R n n.
Proof.
  intros Hx Hpred.
  assert (∀ k, ∃ l, length l = S k ∧ Forall (.∈ X) l ∧ StronglySorted (tc R) l) as Hpath.
  { induction k as [|k (l & Hl & HX & Hs)].
    - exists [x]. split_and!; [done|by repeat constructor|repeat constructor].
    - destruct l as [|h l]; [done|]. apply Forall_cons in HX as [Hh HX].
      destruct (Hpred h Hh) as (p & Hp & HR). exists (p :: h :: l).
      split_and!; [simpl in *; lia|by repeat constructor|].
      constructor; [done|]. apply StronglySorted_cons in Hs as [Hf _].
      constructor; [by apply tc_once|]. eapply Forall_impl; [exact Hf|].
      intros y Hy. by eapply tc_l. }
  destruct (Hpath (size X)) as (l & Hl & HX & Hs).
  destruct (decide (NoDup l)) as [Hnd|Hdup].
  - exfalso. assert (list_to_set l ⊆ X) as Hsub.
    { intros y. rewrite elem_of_list_to_set. rewrite Forall_forall in HX. apply HX. }
    apply subseteq_size in Hsub. rewrite size_list_to_set in Hsub by done. lia.
  - clear -HX Hs Hdup. induction Hs as [|y l Hs IH Hy]; [by destruct Hdup; constructor|].
    apply Forall_cons in HX as [HyX HX].
    destruct (decide (y ∈ l)) as [Hin|Hin].
    + exists y. split; [done|]. rewrite Forall_forall in Hy. by apply Hy.
    + apply IH; [done|]. intros Hnd. apply Hdup. by constructor.
Qed.

Section degrees.
Context {A : Type} (f : A → string).
Definition occurrences (n : string) (l : list A) : N := len (filter (λ e, f e = n) l).

Lemma count_up_degree deg k n :
  degree (count_up deg k) n = degree deg n + (if decide (k = n) then 1 else 0).
Proof.
  unfold degree, count_up. case_decide as Hk.
  - subst. rewrite lookup_insert_eq. done.
  - rewrite lookup_insert_ne by done. lia.
Qed.
Lemma count_foldl deg l n :
  degree (foldl (λ deg e, count_up deg (f e)) deg l) n = degree deg n + occurrences n l.
Proof.
  revert deg. induction l as [|e l IH]; intros deg; simpl.
  { unfold occurrences, len. simpl. lia. }
  rewrite IH, count_up_degree. unfold occurrences, len. rewrite filter_cons.
  case_decide; simpl; lia.
Qed.
Lemma count_foldl_None deg l n :
  foldl (λ deg e, count_up deg (f e)) deg l !! n = None ↔ deg !! n = None ∧ n ∉ map f l.
Proof.
  revert deg. induction l as [|e l IH]; intros deg; simpl; [set_solver|].
  rewrite IH. unfold count_up. destruct (decide (f e = n)) as [<-|Hn].
  - rewrite lookup_insert_eq. set_solver.
  - rewrite lookup_insert_ne by done. set_solver.
Qed.
Lemma occurrences_NoDup l : NoDup (map f l) ↔ ∀ n, occurrences n l <= 1.
Proof.
  unfold occurrences, len. induction l as [|e l IH]; simpl.
  { split; [intros _ n; simpl; lia|constructor]. }
  rewrite NoDup_cons, IH. split.
  - intros [Hnin Hl] n. rewrite filter_cons. case_decide as He; [|apply Hl]. simpl.
    assert (filter (λ e, f e = n) l = []) as ->; [|simpl; lia].
    destruct (filter _ l) as [|y k] eqn:Hf; [done|]. exfalso.
    assert (y ∈ filter (λ e, f e = n) l) as [Hfy Hy]%list_elem_of_filter by (rewrite Hf; left).
    apply Hnin. rewrite He, <- Hfy. apply list_elem_of_fmap. eauto.
  - intros Hl. split.
    + intros Hin. specialize (Hl (f e)). rewrite filter_cons, decide_True in Hl by done.
      apply list_elem_of_fmap in Hin as (y & Hy & Hin).
      assert (y ∈ filter (λ e0, f e0 = f e) l) as Hf by by apply list_elem_of_filter.
      destruct (filter _ l); [by apply elem_of_nil in Hf|]. simpl in Hl. lia.
    + intros n. specialize (Hl n). rewrite filter_cons in Hl. case_decide; simpl in Hl; lia.
Qed.
End degrees.

Section kahn.
Context (sup : list (string * string)).
Abbreviation E := (λ a b : string, (a, b) ∈ sup).

(** [n] ends a chain of [d] nodes that starts at a node nothing supersedes. *)
Inductive chain : string → N → Prop :=
| chain_source n : n ∈ sup_nodes sup → (∀ p, ¬ E p n) → chain n 1
| chain_step p n d : chain p d → E p n → chain n (d + 1).

Lemma sup_nodes_elem n : n ∈ sup_nodes sup ↔ ∃ e, e ∈ sup ∧ (n = e.1 ∨ n = e.2).
Proof.
  unfold sup_nodes. rewrite <- (left_id_L ∅ (∪) (foldl _ ∅ sup)).
  assert (∀ l (X : gset string), n ∈ foldl (λ ns e, {[e.2]} ∪ ({[e.1]} ∪ ns)) X l ↔
    n ∈ X ∨ ∃ e : string * string, e ∈ l ∧ (n = e.1 ∨ n = e.2)) as Hgen.
  { induction l as [|e l IH]; intros X; simpl.
    - split; [by left|]. intros [?|(e & He & _)]; [done|by apply elem_of_nil in He].
    - rewrite IH, !elem_of_union, !elem_of_singleton. split.
      + intros [[->|[->|?]]|(e' & ? & ?)].
        * right. exists e. split; [left|by right].
        * right. exists e. split; [left|by left].
        * by left.
        * right. exists e'. split; [by right|done].
      + intros [?|(e' & [->|?]%elem_of_cons & [-> | ->])]; eauto 10. }
  rewrite elem_of_union, Hgen. set_solver.
Qed.

Lemma sup_adj_lookup a : default [] (sup_adj sup !! a) = map snd (filter (λ e, e.1 = a) sup).
Proof.
  unfold sup_adj. assert (∀ l (adj : adjacency),
    default [] (foldl (λ adj e, adj_push adj e.1 e.2) adj l !! a) =
    default [] (adj !! a) ++ map snd (filter (λ e : string * string, e.1 = a) l)) as Hgen.
  { induction l as [|[x y] l IH]; intros adj; simpl; [by rewrite app_nil_r|].
    rewrite IH. unfold adj_push. simpl. rewrite filter_cons. simpl. case_decide as Hx.
    - subst. rewrite lookup_insert_eq. simpl. by rewrite <- app_assoc.
    - by rewrite lookup_insert_ne. }
  rewrite Hgen. by rewrite lookup_empty.
Qed.

Hypothesis Hout : NoDup (map fst sup).
Hypothesis Hin : NoDup (map snd sup).

Lemma out_unique a b c : E a b → E a c → b = c.
Proof using Hout.
  intros H1 H2. apply list_elem_of_lookup in H1 as [i Hi], H2 as [j Hj].
  assert (i = j) as ->; [|congruence].
  eapply NoDup_lookup; [exact Hout|rewrite list_lookup_fmap, Hi; done|by rewrite list_lookup_fmap, Hj].
Qed.
Lemma in_unique a b c : E a c → E b c → a = b.
Proof using Hin.
  intros H1 H2. apply list_elem_of_lookup in H1 as [i Hi], H2 as [j Hj].
  assert (i = j) as ->; [|congruence].
  eapply NoDup_lookup; [exact Hin|rewrite list_lookup_fmap, Hi; done|by rewrite list_lookup_fmap, Hj].
Qed.

Lemma E_nodes a b : E a b → a ∈ sup_nodes sup ∧ b ∈ sup_nodes sup.
Proof. intros Hab. rewrite !sup_nodes_elem. split; exists (a, b); by auto. Qed.

(** At most one successor. *)
Lemma nexts_linear a :
  (default [] (sup_adj sup !! a) = [] ∧ ∀ b, ¬ E a b) ∨
  (∃ b, default [] (sup_adj sup !! a) = [b] ∧ E a b).
Proof using Hout.
  rewrite sup_adj_lookup. pose proof (proj1 (occurrences_NoDup fst sup) Hout a) as Hocc.
  unfold occurrences, len in Hocc.
  destruct (filter (λ e, e.1 = a) sup) as [|[x y] l] eqn:Hf.
  - left. split; [done|]. intros b Hb.
    assert ((a, b) ∈ filter (λ e, e.1 = a) sup) as Hb' by by apply list_elem_of_filter.
    rewrite Hf in Hb'. by apply elem_of_nil in Hb'.
  - right. exists y. assert ((x, y) ∈ filter (λ e, e.1 = a) sup) as Hxy by (rewrite Hf; left).
    apply list_elem_of_filter in Hxy as [Hx Hxy]. simpl in Hx. subst.
    destruct l; [done|]. simpl in Hocc. lia.
Qed.

Lemma chain_unique n d1 d2 : chain n d1 → chain n d2 → d1 = d2.
Proof using Hin.
  intros H1. revert d2. induction H1 as [n Hn Hp|p n d Hc IH Hpn]; intros d2 H2;
    inversion H2 as [? ? Hp'|p' ? d' Hc' Hpn']; subst; [done|by destruct (Hp _ Hpn')|by destruct (Hp' _ Hpn)|].
  f_equal. apply IH. by rewrite (in_unique p p' n).
Qed.
Lemma chain_pos n d : chain n d → 1 <= d.
Proof. induction 1; lia. Qed.
Lemma chain_node n d : chain n d → n ∈ sup_nodes sup.
Proof. induction 1; [done|]. by eapply E_nodes. Qed.

(** A node at the end of a chain lies on no cycle. *)
Lemma chain_acyclic n d : chain n d → ¬ tc E n n.
Proof using Hin.
  induction 1 as [n Hn Hp|p n d Hc IH Hpn]; intros Hcyc.
  - assert (∃ p, E p n) as [p Hpn]; [|by apply (Hp p)].
    clear Hn Hp. revert Hcyc. generalize n at 1 as x. intros x Hcyc. induction Hcyc; eauto.
  - apply IH. assert (∃ q, rtc E n q ∧ E q n) as (q & Hq & Hqn).
    { clear -Hcyc. revert Hcyc. generalize n at 1 3 as x. intros x Hcyc.
      induction Hcyc as [x y Hxy|x y z Hxy _ (q & Hq & Hqz)]; [by exists x|].
      exists q. split; [by eapply rtc_l|done]. }
    rewrite (in_unique q p n) in Hq by done. eapply tc_rtc_r; [by apply tc_once|done].
Qed.

(** The loop invariant, with [V] the set of popped nodes. *)
Record kahn_inv (V : gset string) (k : Kahn) : Prop := {
  kv_nodup : NoDup (k_stack k);
  kv_disj : ∀ n, n ∈ k_stack k → n ∉ V;
  kv_seen : k_seen k = N.of_nat (size V);
  kv_reached : ∀ n, (n ∈ V ∨ n ∈ k_stack k) ↔ n ∈ sup_nodes sup ∧ (∀ p, E p n → p ∈ V);
  kv_indeg : ∀ p m, E p m → k_indeg k !! m = Some (if decide (p ∈ V) then 0 else 1);
  kv_dist : ∀ n, n ∈ V ∨ n ∈ k_stack k → ∃ d, k_dist k !! n = Some d ∧ chain n d;
  kv_dist1 : ∀ n, n ∈ sup_nodes sup → n ∉ V → n ∉ k_stack k → k_dist k !! n = Some 1;
  kv_longest : ∀ n d, n ∈ V ∨ n ∈ k_stack k → chain n d → d <= k_longest k;
  kv_attained : k_longest k = 1 ∨ ∃ n, chain n (k_longest k);
}.

Definition kahn_pop (k : Kahn) (stack : list string) : Kahn :=
  {| k_stack := stack; k_seen := k_seen k + 1; k_dist := k_dist k;
     k_indeg := k_indeg k; k_longest := k_longest k |}.
Definition kahn_push (k : Kahn) (m : string) (d : N) : Kahn :=
  {| k_stack := m :: k_stack k; k_seen := k_seen k; k_dist := <[m := d + 1]> (k_dist k);
     k_indeg := <[m := 0]> (k_indeg k); k_longest := N.max (k_longest k) (d + 1) |}.

Lemma kahn_seen V n : n ∉ V → N.of_nat (size V) + 1 = N.of_nat (size ({[n]} ∪ V : gset string)).
Proof. intros Hn. rewrite size_union, size_singleton by set_solver. lia. Qed.

Lemma kahn_inv_pop V k n stack :
  kahn_inv V k → k_stack k = n :: stack → (∀ b, ¬ E n b) →
  kahn_inv ({[n]} ∪ V) (kahn_pop k stack).
Proof.
  intros [Hnd Hdj Hseen Hre Hdeg Hdist Hdist1 Hlong Hatt] Hst Hno. rewrite Hst in *.
  apply NoDup_cons in Hnd as [Hns Hnd].
  assert (∀ x, (x ∈ {[n]} ∪ V ∨ x ∈ stack) ↔ (x ∈ V ∨ x ∈ n :: stack)) as Heq by set_solver.
  split; cbn [k_stack k_seen k_dist k_indeg k_longest kahn_pop]; try done.
  - set_solver.
  - rewrite Hseen. apply kahn_seen. set_solver.
  - intros x. rewrite Heq, Hre. split; intros [Hx Hp]; (split; [done|]); [set_solver|].
    intros p Hpx. specialize (Hp p Hpx). assert (p ≠ n) by (intros ->; by apply (Hno x)). set_solver.
  - intros p m Hpm. rewrite (Hdeg p m Hpm). assert (p ≠ n) by (intros ->; by apply (Hno m)).
    f_equal. apply decide_ext. set_solver.
  - intros x. rewrite Heq. apply Hdist.
  - intros x Hx HV Hs. apply Hdist1; set_solver.
  - intros x d. rewrite Heq. apply Hlong.
Qed.

Lemma kahn_inv_push V k n m d stack :
  kahn_inv V k → k_stack k = n :: stack → E n m → k_dist k !! n = Some d → chain n d →
  kahn_inv ({[n]} ∪ V) (kahn_push (kahn_pop k stack) m d) ∧
  k_dist k !! m = Some 1 ∧ k_indeg k !! m = Some 1.
Proof using Hout Hin.
  intros [Hnd Hdj Hseen Hre Hdeg Hdist Hdist1 Hlong Hatt] Hst Hnm Hd Hc. rewrite Hst in *.
  apply NoDup_cons in Hnd as [Hns Hnd].
  assert (n ∉ V) as HnV by (apply Hdj; left).
  assert (¬ (m ∈ V ∨ m ∈ n :: stack)) as Hm.
  { rewrite Hre. intros [_ Hp]. by apply HnV, Hp. }
  destruct (E_nodes _ _ Hnm) as [_ HmN].
  assert (∀ x, (x ∈ {[n]} ∪ V ∨ x ∈ m :: stack) ↔ x = m ∨ (x ∈ V ∨ x ∈ n :: stack)) as Heq by set_solver.
  split; [|split].
  2: { apply Hdist1; set_solver. }
  2: { rewrite (Hdeg n m Hnm). by rewrite decide_False. }
  split; cbn [k_stack k_seen k_dist k_indeg k_longest kahn_pop kahn_push].
  - apply NoDup_cons. set_solver.
  - set_solver.
  - rewrite Hseen. by apply kahn_seen.
  - intros x. rewrite Heq, Hre. split.
    + intros [->|[Hx Hp]]; (split; [done|]); intros p Hpx; [|set_solver].
      rewrite (in_unique p n m) by done. set_solver.
    + intros [Hx Hp]. destruct (decide (x = m)) as [->|Hxm]; [by left|right]. split; [done|].
      intros p Hpx. specialize (Hp p Hpx). assert (p ≠ n); [|set_solver].
      intros ->. by apply Hxm, (out_unique n).
  - intros p x Hpx. destruct (decide (x = m)) as [->|Hxm].
    + rewrite lookup_insert_eq, decide_True; [done|]. rewrite (in_unique p n m) by done. set_solver.
    + rewrite lookup_insert_ne, (Hdeg p x Hpx) by done. f_equal. apply decide_ext.
      assert (p ≠ n) by (intros ->; by apply Hxm, (out_unique n)). set_solver.
  - intros x [->|Hx]%Heq.
    + exists (d + 1). rewrite lookup_insert_eq. split; [done|]. by eapply chain_step.
    + rewrite lookup_insert_ne by (intros ->; done). by apply Hdist.
  - intros x Hx HV Hs. rewrite lookup_insert_ne by set_solver. apply Hdist1; set_solver.
  - intros x d' [->|Hx]%Heq Hcx.
    + rewrite (chain_unique m d' (d + 1)); [lia|done|by eapply chain_step].
    + specialize (Hlong x d' Hx Hcx). lia.
  - destruct (N.max_spec (k_longest k) (d + 1)) as [[_ ->]|[_ ->]]; [|done].
    right. exists m. by eapply chain_step.
Qed.

Lemma kahn_loop_spec fuel V k :
  kahn_inv V k → (size (sup_nodes sup) < fuel + size V)%nat →
  ∃ V' k', kahn_loop fuel (sup_adj sup) k = Some (Ok k') ∧ kahn_inv V' k' ∧ k_stack k' = [].
Proof using Hout Hin.
  revert V k. induction fuel as [|fuel IH]; intros V k Hinv Hfuel.
  { assert (V ⊆ sup_nodes sup) as Hsub%subseteq_size; [|lia].
    intros x Hx. by apply (kv_reached _ _ Hinv); left. }
  cbn [kahn_loop]. destruct (k_stack k) as [|n stack] eqn:Hst; [by eauto|].
  destruct (kv_dist _ _ Hinv n) as (d & Hd & Hc); [right; rewrite Hst; left|].
  cbn [k_dist]. rewrite Hd. fold (kahn_pop k stack).
  assert (n ∉ V) as HnV by (apply (kv_disj _ _ Hinv); rewrite Hst; left).
  assert (size ({[n]} ∪ V : gset string) = S (size V)) as Hsz
    by (rewrite size_union, size_singleton by set_solver; lia).
  destruct (nexts_linear n) as [[-> Hno]|(m & -> & Hnm)]; cbn [kahn_nexts].
  - apply (IH ({[n]} ∪ V)); [by apply kahn_inv_pop|lia].
  - destruct (kahn_inv_push V k n m d stack) as (Hinv' & Hdm & Him); [done..|].
    unfold kahn_next. cbn [k_dist k_indeg k_stack k_seen k_longest kahn_pop]. rewrite Hdm.
    pose proof (chain_pos _ _ Hc).
    rewrite (proj2 (N.ltb_lt 1 (d + 1))) by lia. rewrite Him. cbn -[kahn_loop].
    apply (IH ({[n]} ∪ V)); [exact Hinv'|lia].
Qed.

Lemma in_degree_spec n : degree (in_degrees sup) n = occurrences snd n sup.
Proof. unfold in_degrees. rewrite count_foldl. unfold degree. by rewrite lookup_empty. Qed.

Lemma occurrences_zero (f : string * string → string) n l :
  occurrences f n l = 0 ↔ ∀ e, e ∈ l → f e ≠ n.
Proof.
  unfold occurrences, len. split.
  - intros Hz e He Hf.
    assert (e ∈ filter (λ e, f e = n) l) as Hin' by by apply list_elem_of_filter.
    destruct (filter _ l); [by apply elem_of_nil in Hin'|]. simpl in Hz. lia.
  - intros Hno. destruct (filter (λ e, f e = n) l) as [|e k] eqn:Hf; [done|].
    assert (e ∈ filter (λ e, f e = n) l) as [He1 He2]%list_elem_of_filter by (rewrite Hf; left).
    by destruct (Hno e He2).
Qed.

Lemma kahn_init_inv `{HashOrderLaws} : kahn_inv ∅ (kahn_init sup).
Proof using Hout Hin.
  assert (∀ n, n ∈ k_stack (kahn_init sup) ↔ n ∈ sup_nodes sup ∧ ∀ p, ¬ E p n) as Hst.
  { intros n. cbn [k_stack kahn_init]. rewrite list_elem_of_In, <- in_rev, filter_In.
    rewrite <- list_elem_of_In, hash_order_perm, elem_of_elements, N.eqb_eq.
    rewrite in_degree_spec, occurrences_zero. split; intros [Hn Hp]; (split; [done|]).
    - intros p Hpn. by apply (Hp _ Hpn).
    - intros [p m] He Hm. simpl in Hm. subst. by apply (Hp p). }
  split; cbn [k_seen k_dist k_indeg k_longest kahn_init].
  - cbn [k_stack kahn_init]. apply NoDup_ListNoDup, NoDup_rev, List.NoDup_filter, NoDup_ListNoDup.
    rewrite hash_order_perm. apply NoDup_elements.
  - set_solver.
  - done.
  - intros n. rewrite Hst. set_solver.
  - intros p m Hpm. rewrite decide_False by set_solver.
    assert (in_degrees sup !! m ≠ None) as Hne.
    { unfold in_degrees. rewrite count_foldl_None. intros [_ Hnin]. apply Hnin.
      apply list_elem_of_fmap. by exists (p, m). }
    pose proof (in_degree_spec m) as Hd. unfold degree in Hd.
    destruct (in_degrees sup !! m) as [c|]; [|done]. simpl in Hd. f_equal.
    pose proof (proj1 (occurrences_NoDup snd sup) Hin m).
    assert (occurrences snd m sup ≠ 0); [|lia].
    rewrite occurrences_zero. intros Hno. by apply (Hno (p, m)).
  - intros n [Hn|[Hn Hp]%Hst]; [set_solver|]. exists 1. rewrite lookup_gset_to_gmap_Some.
    split; [done|]. by constructor.
  - intros n Hn _ _. by rewrite lookup_gset_to_gmap_Some.
  - intros n d [Hn|[Hn Hp]%Hst] Hc; [set_solver|].
    rewrite (chain_unique n d 1); [lia|done|by constructor].
  - by left.
Qed.

(** When the loop stops, the unpopped nodes are exactly those on or below a
    cycle. *)
Lemma kahn_done V k :
  kahn_inv V k → k_stack k = [] →
  (V = sup_nodes sup ∧ ∀ n, ¬ tc E n n) ∨ (size V < size (sup_nodes sup) ∧ ∃ n, tc E n n)%nat.
Proof using Hout Hin.
  intros Hinv Hst. assert (V ⊆ sup_nodes sup) as Hsub.
  { intros x Hx. by apply (kv_reached _ _ Hinv); left. }
  destruct (decide (V = sup_nodes sup)) as [HV|HV].
  - left. split; [done|]. intros n Hn.
    assert (n ∈ sup_nodes sup) as Hns by (inversion Hn as [? ? He|? ? ? He]; by apply E_nodes in He as [? _]).
    destruct (kv_dist _ _ Hinv n) as (d & _ & Hc); [left; by rewrite HV|].
    by eapply chain_acyclic.
  - right. assert (V ⊂ sup_nodes sup) as Hss by set_solver.
    split; [by apply subset_size|].
    assert (∃ x, x ∈ sup_nodes sup ∖ V) as [x Hx] by (apply set_choose_L; by apply non_empty_difference_L).
    destruct (predecessor_closed_cycle E (sup_nodes sup ∖ V) x Hx) as (n & _ & Hn); [|by exists n].
    intros n [Hn HnV]%elem_of_difference.
    destruct (decide (Exists (λ e, e.2 = n ∧ e.1 ∉ V) sup)) as [Hex|Hex].
    + apply Exists_exists in Hex as ([p m] & He & Hm & Hp). simpl in *. subst m.
      exists p. split; [|done]. apply E_nodes in He as Hpn. set_solver.
    + exfalso. apply HnV. assert (n ∈ V ∨ n ∈ k_stack k) as [?|Hs]; [|done|rewrite Hst in Hs; by apply elem_of_nil in Hs].
      apply (kv_reached _ _ Hinv). split; [done|]. intros p Hpn.
      destruct (decide (p ∈ V)); [done|]. destruct Hex. apply Exists_exists. by exists (p, n).
Qed.
End kahn.

(** The contract of [check_supersedes]. *)
Inductive supersedes_spec (edges : list EdgeRecord) (limits : Limits) : Result N → Prop :=
| sup_none : sup_edges edges = [] → supersedes_spec edges limits (Ok 0)
| sup_branch :
    ¬ (NoDup (map fst (sup_edges edges)) ∧ NoDup (map snd (sup_edges edges))) →
    supersedes_spec edges limits (Err ErrorCode.SchemaViolation)
| sup_cycle n :
    tc (λ a b, (a, b) ∈ sup_edges edges) n n →
    supersedes_spec edges limits (Err ErrorCode.CycleDetected)
| sup_chains longest n :
    sup_edges edges ≠ [] →
    NoDup (map fst (sup_edges edges)) → NoDup (map snd (sup_edges edges)) →
    (∀ n, ¬ tc (λ a b, (a, b) ∈ sup_edges edges) n n) →
    chain (sup_edges edges) n longest →
    (∀ m d, chain (sup_edges edges) m d → d <= longest) →
    supersedes_spec edges limits
      (if max_depth limits <? longest then Err ErrorCode.LimitExceeded else Ok longest).

(** The contract determines the result of an accepted check. *)
Lemma supersedes_spec_unique edges limits n r :
  supersedes_spec edges limits (Ok n) → supersedes_spec edges limits r → r = Ok n.
Proof.
  intros Hn Hr. inversion Hn as [Hnil| | |longest m Hne Hf Hs Hacy Hc Hmax Heq]; subst.
  - inversion Hr as [|Hb|k Ht|longest m Hne]; subst; [done| | |done]; rewrite Hnil in *.
    + destruct Hb. split; apply NoDup_nil_2.
    + exfalso. clear -Ht. by inversion Ht as [? ? H|? ? ? H]; apply elem_of_nil in H.
  - inversion Hr as [Hnil|Hb|k Ht|longest' m' _ _ _ _ Hc' Hmax']; subst; [done|by destruct Hb|by destruct (Hacy k)|].
    assert (longest' = longest) as -> by (apply N.le_antisymm; [by eapply Hmax|by eapply Hmax']). done.
Qed.

Lemma check_supersedes_correct `{HashOrderLaws} edges limits :
  ∃ r, check_supersedes edges limits = Some r ∧ supersedes_spec edges limits r.
Proof.
  unfold check_supersedes. set (sup := sup_edges edges).
  destruct (N.eqb_spec (len sup) 0) as [Hz|Hz].
  { exists (Ok 0). split; [done|]. apply sup_none. unfold sup in Hz. destruct (sup_edges edges); [done|].
    unfold len in Hz. simpl in Hz. lia. }
  assert (sup ≠ []) as Hne by (intros ->; done).
  assert (∀ n, degree (out_degrees sup) n = occurrences fst n sup) as Hod.
  { intros n. unfold out_degrees. rewrite count_foldl. unfold degree. by rewrite lookup_empty. }
  destruct (existsb _ _) eqn:Hbr.
  { eexists. split; [done|]. apply sup_branch. fold sup. rewrite !occurrences_NoDup.
    intros [H1 H2]. apply existsb_true in Hbr as (n & _ & Hn).
    rewrite Hod, in_degree_spec, orb_true_iff, !N.ltb_lt in Hn. specialize (H1 n). specialize (H2 n). lia. }
  assert (NoDup (map fst sup) ∧ NoDup (map snd sup)) as [Hout Hin].
  { rewrite !occurrences_NoDup, <- forall_and_distr. intros n.
    destruct (decide (n ∈ sup_nodes sup)) as [Hn|Hn].
    - rewrite existsb_false in Hbr. specialize (Hbr n). rewrite hash_order_perm, elem_of_elements in Hbr.
      specialize (Hbr Hn). rewrite Hod, in_degree_spec, orb_false_iff, !N.ltb_ge in Hbr. done.
    - rewrite sup_nodes_elem in Hn.
      rewrite (proj2 (occurrences_zero fst n sup)), (proj2 (occurrences_zero snd n sup)); [lia|..];
        intros e He Heq; apply Hn; exists e; eauto. }
  destruct (kahn_loop_spec sup Hout Hin (S (size (sup_nodes sup))) ∅ (kahn_init sup))
    as (V & k & -> & Hinv & Hst); [by apply kahn_init_inv|lia|].
  rewrite (kv_seen _ _ _ Hinv).
  destruct (kahn_done sup Hout Hin V k Hinv Hst) as [[-> Hacy]|[Hlt [n Hcyc]]].
  - rewrite N.eqb_refl. cbn [negb]. 
    assert (∃ n, chain sup n (k_longest k)) as [n Hn].
    { destruct (kv_attained _ _ _ Hinv) as [Hl|?]; [|done]. rewrite Hl.
      destruct sup as [|[a b] l] eqn:Hsup; [done|].
      destruct (kv_dist _ _ _ Hinv a) as (d & _ & Hc).
      { left. apply (E_nodes _ a b). left. }
      assert (d <= 1) by (rewrite <- Hl; eapply (kv_longest _ _ _ Hinv); [left; by eapply chain_node|done]).
      pose proof (chain_pos _ _ _ Hc). exists a. by replace 1 with d by lia. }
    eexists. split; [|eapply (sup_chains edges limits (k_longest k) n); try done].
    + by destruct (max_depth limits <? k_longest k).
    + intros m d Hc. eapply (kv_longest _ _ _ Hinv); [left; by eapply chain_node|done].
  - rewrite (proj2 (N.eqb_neq _ _)) by lia. eexists. split; [done|]. by eapply sup_cycle.
Qed.

(** * Edge validation, as a predicate *)

(** A backing reference is absent, or a known id of the right type. *)
Definition backing_ok (nodes : NodeSet) (prefix : string) (o : option string) : Prop :=
  ∀ id, o = Some id → id ≠ "" ∧ starts_with prefix id = true ∧ id ∈ nodes.

(** An endpoint of an EQUIVALENT edge: shaped ids must resolve. *)
Definition endpoint_ok (nodes : NodeSet) (ep : string) : Prop :=
  looks_like_artifact_id ep = true → ep ∈ nodes.

Record edge_ok (nodes : NodeSet) (extra : option (gset string)) (r : Relationship) : Prop := {
  eo_version : rel_v r = 1;
  eo_from : rel_from r ≠ "";
  eo_to : rel_to r ≠ "";
  eo_no_loop : rel_from r ≠ rel_to r;
  eo_endpoints :
    if decide (rel_type r = RelType.EQUIVALENT)
    then endpoint_ok nodes (rel_from r) ∧ endpoint_ok nodes (rel_to r)
    else rel_from r ∈ nodes ∧ rel_to r ∈ nodes;
  eo_grounded : needs_grounding extra r = true →
    rel_evidence_ref r ≠ None ∨ rel_attestation_ref r ≠ None;
  eo_evidence : backing_ok nodes "evd:v1:" (rel_evidence_ref r);
  eo_attestation : backing_ok nodes "att:v1:" (rel_attestation_ref r);
}.

(** The member endpoints an edge contributes. *)
Definition member_ends (nodes : NodeSet) (r : Relationship) : gset string :=
  nodes ∩ {[rel_from r; rel_to r]}.

Lemma equivalent_endpoint_Ok nodes ep s s' :
  equivalent_endpoint nodes ep s = Ok s' ↔ endpoint_ok nodes ep ∧ s' = s ∪ (nodes ∩ {[ep]}).
Proof.
  unfold equivalent_endpoint, endpoint_ok, contains.
  destruct (looks_like_artifact_id ep); simpl.
  - destruct (bool_decide_reflect (ep ∈ nodes)) as [Hin|Hin]; simpl.
    + split; [intros [= <-]; split; [done|set_solver]|]. intros [_ ->]. f_equal. set_solver.
    + split; [done|]. naive_solver.
  - case_bool_decide as Hin; (split; [intros [= <-]; split; [done|set_solver]|]);
      intros [_ ->]; f_equal; set_solver.
Qed.

Lemma check_backing_ref_Ok nodes prefix o u :
  check_backing_ref nodes prefix o = Ok u ↔ backing_ok nodes prefix o.
Proof.
  unfold check_backing_ref, backing_ok, contains, sempty. destruct u, o as [id|]; [|done]. split.
  - intros Hr id' [= <-]. case_bool_decide; [done|]. destruct (starts_with prefix id); [|done].
    simpl in Hr. case_bool_decide; done.
  - intros Hr. destruct (Hr id eq_refl) as (Hne & -> & Hin).
    by rewrite bool_decide_eq_false_2, bool_decide_eq_true_2.
Qed.

Lemma sempty_false s : sempty s = false ↔ s ≠ "".
Proof. unfold sempty. apply bool_decide_eq_false. Qed.

Lemma check_edge_Ok nodes extra r s s' :
  check_edge nodes extra r s = Ok s' ↔ edge_ok nodes extra r ∧ s' = s ∪ member_ends nodes r.
Proof.
  unfold check_edge, contains, member_ends.
  assert (∀ {A} (b : bool) e (m : Result A) a,
    (if b then Err e else m) = Ok a ↔ b = false ∧ m = Ok a) as Hite.
  { intros A b e m a. destruct b; naive_solver. }
  rewrite !Hite, negb_false_iff, N.eqb_eq, orb_false_iff, !sempty_false, bool_decide_eq_false, bind_Ok.
  assert (∀ s1, (if bool_decide (rel_type r = RelType.EQUIVALENT)
      then endpoints ← equivalent_endpoint nodes (rel_from r) s;
           equivalent_endpoint nodes (rel_to r) endpoints
      else if negb (bool_decide (rel_from r ∈ nodes)) then Err ErrorCode.DanglingReference
      else if negb (bool_decide (rel_to r ∈ nodes)) then Err ErrorCode.DanglingReference
      else Ok ({[rel_to r]} ∪ ({[rel_from r]} ∪ s))) = Ok s1 ↔
    (if decide (rel_type r = RelType.EQUIVALENT)
     then endpoint_ok nodes (rel_from r) ∧ endpoint_ok nodes (rel_to r)
     else rel_from r ∈ nodes ∧ rel_to r ∈ nodes) ∧
    s1 = s ∪ (nodes ∩ {[rel_from r; rel_to r]})) as Hep.
  { intros s1. destruct (decide (rel_type r = RelType.EQUIVALENT)) as [Heq|Heq].
    - rewrite bool_decide_eq_true_2 by done. rewrite bind_Ok.
      setoid_rewrite equivalent_endpoint_Ok. split.
      + intros (s0 & [H1 ->] & H2 & ->). split; [done|]. set_solver.
      + intros [[H1 H2] ->]. eexists. split; [done|]. split; [done|]. set_solver.
    - rewrite bool_decide_eq_false_2, !Hite, !negb_false_iff, !bool_decide_eq_true by done.
      split.
      + intros (Hf & Ht & [= <-]). split; [done|]. set_solver.
      + intros [[Hf Ht] ->]. split_and!; [done..|]. f_equal. set_solver. }
  setoid_rewrite Hep. split.
  - intros (Hv & [Hf Ht] & Hl & s1 & [He ->] & Hg). apply Hite in Hg as [Hg Hr].
    apply bind_Ok in Hr as (? & Hev%check_backing_ref_Ok & Hr).
    apply bind_Ok in Hr as (? & Hat%check_backing_ref_Ok & [= <-]). split; [|done]. split; try done.
    intros Hn. rewrite Hn in Hg. simpl in Hg. apply andb_false_iff in Hg as [Hg|Hg];
      apply bool_decide_eq_false in Hg; auto.
  - intros [[Hv Hf Ht Hl He Hg Hev Hat] ->]. split_and!; [done..|]. eexists. split; [done|].
    apply Hite. split.
    + destruct (needs_grounding extra r); [|done]. simpl. apply andb_false_iff.
      rewrite !bool_decide_eq_false. by apply Hg.
    + rewrite (proj2 (check_backing_ref_Ok _ _ _ tt) Hev). cbn [mbind result_bind].
      by rewrite (proj2 (check_backing_ref_Ok _ _ _ tt) Hat).
Qed.

Lemma check_edges_Ok nodes extra seen s edges s' :
  check_edges nodes extra seen s edges = Ok s' ↔
  Forall (λ e, edge_ok nodes extra (edge_content e)) edges ∧ NoDup (map edge_id edges) ∧
  (∀ e, e ∈ edges → edge_id e ∉ seen) ∧
  s' = s ∪ ⋃ (map (λ e, member_ends nodes (edge_content e)) edges).
Proof.
  revert seen s. induction edges as [|e edges IH]; intros seen s; simpl.
  { split.
    - intros [= <-]. split_and!; [constructor|constructor|set_solver|set_solver].
    - intros (_ & _ & _ & ->). f_equal. set_solver. }
  rewrite Forall_cons, NoDup_cons. case_bool_decide as Hseen.
  { split; [done|]. intros (_ & _ & Hs & _). destruct (Hs e); [left|done]. }
  rewrite bind_Ok. setoid_rewrite check_edge_Ok. setoid_rewrite IH. split.
  - intros (s1 & [He ->] & Hes & Hnd & Hs & ->). split_and!; [done|done| |done| |set_solver].
    + intros (e' & Heq & He')%list_elem_of_fmap. apply (Hs e' He'). set_solver.
    + intros e' [->|He']%elem_of_cons; [done|]. specialize (Hs e' He'). set_solver.
  - intros ([He Hes] & [Hnin Hnd] & Hs & ->). eexists. split; [done|]. split_and!; [done..| |set_solver].
    intros e' He' [Hid%elem_of_singleton|Hid]%elem_of_union.
    + apply Hnin. rewrite <- Hid. apply list_elem_of_fmap. eauto.
    + apply (Hs e'); [by right|done].
Qed.

(** * What graph validation guarantees *)

Section graph_properties.
Context `{HashOrderLaws}.

(** What a search over one kind of edges decides. *)
Definition search_decides (keep : Relationship → bool) (edges : list EdgeRecord) (nodes : NodeSet)
    (r : option (Result unit)) : Prop :=
  (r = Some (Ok tt) ∧ ∀ n, ¬ tc (member_edge keep nodes edges) n n) ∨
  (r = Some (Err ErrorCode.CycleDetected) ∧ ∃ n, tc (member_edge keep nodes edges) n n).

Lemma derivation_spec edges nodes :
  search_decides derivation_edge edges nodes (check_derivation_acyclic edges nodes).
Proof.
  unfold check_derivation_acyclic. pose proof (dfs_member_check derivation_edge nodes edges) as Hd.
  by destruct (build_adj derivation_edge nodes edges ∅ ∅).
Qed.
Lemma provenance_spec edges nodes :
  search_decides provenance_edge edges nodes (check_acyclic_provenance edges nodes).
Proof.
  unfold check_acyclic_provenance. pose proof (dfs_member_check provenance_edge nodes edges) as Hd.
  by destruct (build_adj provenance_edge nodes edges ∅ ∅).
Qed.

(** The derivation check always returns, whatever the hash order, and
    decides acyclicity of the derivation edges between members: it accepts
    exactly the acyclic graphs and reports [CycleDetected] on the others. *)
Theorem derivation_check_decides edges nodes :
  (check_derivation_acyclic edges nodes = Some (Ok tt) ∧
   ∀ n, ¬ tc (member_edge derivation_edge nodes edges) n n) ∨
  (check_derivation_acyclic edges nodes = Some (Err ErrorCode.CycleDetected) ∧
   ∃ n, tc (member_edge derivation_edge nodes edges) n n).
Proof. apply derivation_spec. Qed.

(** The opt-in provenance profile decides acyclicity of every edge but the
    identity assertions, and a graph that passes it passes the derivation
    check as well. *)
Theorem provenance_check_decides edges nodes :
  ((check_acyclic_provenance edges nodes = Some (Ok tt) ∧
    ∀ n, ¬ tc (member_edge provenance_edge nodes edges) n n) ∨
   (check_acyclic_provenance edges nodes = Some (Err ErrorCode.CycleDetected) ∧
    ∃ n, tc (member_edge provenance_edge nodes edges) n n)) ∧
  (check_acyclic_provenance edges nodes = Some (Ok tt) →
   check_derivation_acyclic edges nodes = Some (Ok tt)).
Proof.
  pose proof (provenance_spec edges nodes) as Hp. pose proof (derivation_spec edges nodes) as Hd.
  split; [done|]. intros Hok. destruct Hp as [[_ Hacy]|[? _]]; [|congruence].
  destruct Hd as [[? _]|[_ [n Hn]]]; [done|]. destruct (Hacy n).
  eapply tc_congruence with (f := id); [|exact Hn]. intros a b (e & He & Hk & Hr).
  exists e. split_and!; try done; [|naive_solver..].
  unfold derivation_edge, provenance_edge in *. rewrite negb_true_iff, orb_false_iff in Hk.
  rewrite negb_true_iff. by destruct Hk.
Qed.


Lemma validate_graph_spec edges nodes limits extra :
  (∃ r, validate_graph_with_grounding edges nodes limits extra = Some r) ∧
  ∀ vg, validate_graph_with_grounding edges nodes limits extra = Some (Ok vg) ↔
    ∃ longest ends,
    len edges <= max_edges limits ∧ N.of_nat (size nodes) <= max_nodes limits ∧
    Forall (λ e, edge_ok nodes extra (edge_content e)) edges ∧ NoDup (map edge_id edges) ∧
    ends = ⋃ (map (λ e, member_ends nodes (edge_content e)) edges) ∧
    N.of_nat (size ends) <= max_nodes limits ∧
    check_supersedes edges limits = Some (Ok longest) ∧
    vg = {| vg_edge_ids := map edge_id edges; vg_node_count := N.of_nat (size ends);
            vg_edge_count := len edges; vg_longest_supersedes_chain := longest |}.
Proof.
  unfold validate_graph_with_grounding.
  destruct (N.ltb_spec (max_edges limits) (len edges)) as [Hl|Hl].
  { split; [eauto|]. intros vg. split; [done|]. intros (? & ? & ? & _). lia. }
  destruct (N.ltb_spec (max_nodes limits) (N.of_nat (size nodes))) as [Hm|Hm].
  { split; [eauto|]. intros vg. split; [done|]. intros (? & ? & ? & ? & _). lia. }
  destruct (check_edges nodes extra ∅ ∅ edges) as [ends|e] eqn:Hce.
  2: { split; [eauto|]. intros vg. split; [done|]. intros (? & ? & _ & _ & Hf & Hnd & _).
       assert (check_edges nodes extra ∅ ∅ edges =
               Ok (∅ ∪ ⋃ (map (λ e, member_ends nodes (edge_content e)) edges))) as Hok
         by (apply check_edges_Ok; split_and!; [done..|set_solver|done]).
       congruence. }
  apply check_edges_Ok in Hce as (Hf & Hnd & _ & ->). rewrite (left_id_L ∅ (∪)).
  destruct (N.ltb_spec (max_nodes limits)
    (N.of_nat (size (⋃ (map (λ e, member_ends nodes (edge_content e)) edges))))) as [Hs|Hs].
  { split; [eauto|]. intros vg. split; [done|]. intros (? & ? & _ & _ & _ & _ & -> & ? & _). lia. }
  destruct (check_supersedes_correct edges limits) as (r & -> & _).
  destruct r as [longest|e]; (split; [eauto|]); intros vg; split.
  - intros [= <-]. eexists _, _. split_and!; done.
  - intros (l & ends & _ & _ & _ & _ & -> & _ & [= <-] & ->). done.
  - done.
  - by intros (l & ends & _ & _ & _ & _ & _ & _ & ? & _).
Qed.

(** C34: graph validation always returns, and succeeds exactly when the counts
    are within the limits, edge ids are distinct, every edge is well formed,
    resolves, and is grounded where its type demands it, and the SUPERSEDES
    chains pass; the summary then lists the validated edges and counts. *)
Theorem validate_graph_iff edges nodes limits extra :
  (∃ r, validate_graph_with_grounding edges nodes limits extra = Some r) ∧
  ∀ vg, validate_graph_with_grounding edges nodes limits extra = Some (Ok vg) ↔
    ∃ longest ends,
    len edges <= max_edges limits ∧ N.of_nat (size nodes) <= max_nodes limits ∧
    Forall (λ e, edge_ok nodes extra (edge_content e)) edges ∧ NoDup (map edge_id edges) ∧
    ends = ⋃ (map (λ e, member_ends nodes (edge_content e)) edges) ∧
    N.of_nat (size ends) <= max_nodes limits ∧
    check_supersedes edges limits = Some (Ok longest) ∧
    vg = {| vg_edge_ids := map edge_id edges; vg_node_count := N.of_nat (size ends);
            vg_edge_count := len edges; vg_longest_supersedes_chain := longest |}.
Proof. apply validate_graph_spec. Qed.
End graph_properties.

(** * Iteration orders *)

Section orders.
Context (order order' : HashOrder) {Horder : @HashOrderLaws order} {Horder' : @HashOrderLaws order'}.

(** The verdicts do not depend on the iteration order. *)
Lemma validate_graph_order edges nodes limits extra vg :
  @validate_graph_with_grounding order edges nodes limits extra = Some (Ok vg) →
  @validate_graph_with_grounding order' edges nodes limits extra = Some (Ok vg).
Proof.
  rewrite (proj2 (@validate_graph_spec order Horder edges nodes limits extra)).
  intros (longest & ends & ? & ? & ? & ? & ? & ? & Hs & ->).
  apply (proj2 (@validate_graph_spec order' Horder' edges nodes limits extra)). exists longest, ends.
  split_and!; try done.
  destruct (@check_supersedes_correct order Horder edges limits) as (r & Hr & Hspec).
  rewrite Hs in Hr. injection Hr as <-.
  destruct (@check_supersedes_correct order' Horder' edges limits) as (r' & -> & Hspec').
  by rewrite (supersedes_spec_unique _ _ _ _ Hspec Hspec').
Qed.
Lemma derivation_order edges nodes :
  @check_derivation_acyclic order edges nodes = @check_derivation_acyclic order' edges nodes.
Proof.
  destruct (@derivation_spec order Horder edges nodes) as [[-> Hacy]|[-> [n Hn]]],
    (@derivation_spec order' Horder' edges nodes) as [[-> Hacy']|[-> [n' Hn']]]; try done;
    [by destruct (Hacy n')|by destruct (Hacy' n)].
Qed.
End orders.

Module GraphSamples.
#[export] Instance elements_order : HashOrder := elements.
#[export] Instance elements_order_laws : HashOrderLaws.
Proof. intros s. done. Qed.

Definition rel (from ty to : string) : Relationship := {|
  rel_v := 1; rel_from := from; rel_type := ty; rel_to := to;
  rel_evidence_ref := None; rel_attestation_ref := Some "att:v1:a" |}.
Definition nodes : NodeSet := NodeSet_new ["evt:v1:1"; "evt:v1:2"; "evt:v1:3"; "att:v1:a"].
Definition cycle : list EdgeRecord :=
  [ mkEdge (rel "evt:v1:1" RelType.PRODUCED "evt:v1:2") "rel:v1:1";
    mkEdge (rel "evt:v1:2" RelType.PRODUCED "evt:v1:1") "rel:v1:2" ].
Definition citations : list EdgeRecord :=
  [ mkEdge (rel "evt:v1:1" RelType.REFERENCES "evt:v1:2") "rel:v1:1";
    mkEdge (rel "evt:v1:2" RelType.PRODUCED "evt:v1:3") "rel:v1:2" ].
Definition supersessions : list EdgeRecord :=
  [ mkEdge (rel "evt:v1:2" RelType.SUPERSEDES "evt:v1:1") "rel:v1:1";
    mkEdge (rel "evt:v1:3" RelType.SUPERSEDES "evt:v1:2") "rel:v1:2" ].
End GraphSamples.

Section graph_witnesses.
Import GraphSamples.


Lemma validate_graph_iff_witness :
  NoDup (map edge_id supersessions) ∧
  ∃ vg, validate_graph_with_grounding supersessions nodes default_limits None = Some (Ok vg).
Proof.
  assert (validate_graph_with_grounding supersessions nodes default_limits None = Some (Ok
    {| vg_edge_ids := ["rel:v1:1"; "rel:v1:2"]; vg_node_count := 3; vg_edge_count := 2;
       vg_longest_supersedes_chain := 3 |})) as Hv by (vm_compute; reflexivity).
  split; [|eexists; exact Hv].
  apply (proj2 (validate_graph_iff supersessions nodes default_limits None)) in Hv.
  destruct Hv as (_ & _ & _ & _ & _ & Hnd & _). exact Hnd.
Defined.
End graph_witnesses.
