(* ===== verification/Ident.v ===== *)
(** Ident: deterministic identifiers, key references, algorithm policy and
    digests, from [crates/proof-crypto/src/id.rs], [keys.rs], [alg.rs] and
    [hash.rs].

    An id is [<prefix>:v1:<base64url(sha256(canonical bytes))>].  Base64url and
    SHA-256 are the parameters of [External]; nothing here assumes that SHA-256
    is injective: the binding theorems exhibit a collision instead. *)
From Stdlib Require Import Strings.Byte NArith ZArith Lia.
From S2P Require Import Prelude Core External Cbor Schema.

(** * Digests (hash.rs) *)

Section digests.
Context `{Sha2}.

Definition compute_digest (content : list byte) (alg : N) : Result (list byte) :=
  match alg with
  | 0 => Ok (sha256 content)
  | 1 => Ok (sha384 content)
  | _ => Err ErrorCode.UnknownAlgorithm
  end.

Definition verify_content_digest (content : list byte) (alg : N) (expected : list byte)
    : Result unit :=
  computed ← match alg with
             | 0 => Ok (sha256 content)
             | 1 => Ok (sha384 content)
             | _ => Err ErrorCode.UnknownAlgorithm
             end;
  if bool_decide (computed ≠ expected) then Err ErrorCode.IdMismatch else Ok tt.
End digests.

(** * Identifiers (id.rs) *)

Section base64url.
Context `{Base64Url}.
Definition b64u_nopad (data : list byte) : string := b64_encode data.
Definition b64u_decode (s : string) : Result (list byte) :=
  ok_or (b64_decode s) ErrorCode.InvalidBase64Url.

(** [id.rs::check_proof_ref_shape]. *)
Definition check_proof_ref_id (id : string) : Result unit :=
  rest ← ok_or (strip_prefix "prf:v1:" id) ErrorCode.SchemaViolation;
  raw ← b64u_decode rest;
  if bool_decide (b64u_nopad raw ≠ rest) then Err ErrorCode.SchemaViolation else
  if negb (len raw =? 32) then Err ErrorCode.SchemaViolation else Ok tt.
End base64url.

Section identifiers.
Context `{Base64Url, Sha2}.

Definition id_with (prefix : string) (canonical : list byte) : string :=
  prefix +:+ ":v1:" +:+ b64u_nopad (sha256 canonical).

Definition event_id (canonical : list byte) : string := id_with id_prefix.EVENT canonical.
Definition attestation_id (canonical : list byte) : string :=
  id_with id_prefix.ATTESTATION canonical.
Definition evidence_id (canonical : list byte) : string := id_with id_prefix.EVIDENCE canonical.
Definition relationship_id (canonical : list byte) : string := id_with id_prefix.REL canonical.

(** The inner [sorted] of [proof_id_full]. *)
Definition sorted_ids (ids : list string) : CborValue := Array (map Text (sort_by str_leb ids)).

Definition vocab_leb (a b : string * N) : bool := str_leb a.1 b.1.
Definition vocab_pair_to_cbor (p : string * N) : CborValue :=
  Map [ (Text "ns", Text p.1); (Text "version", Uint p.2) ].

(** The binding map that [proof_id_full] hashes. *)
Definition proof_binding (proposition : CborValue) (created_at : N)
    (event_ids attestation_ids evidence_ids relationship_ids referenced_proofs : list string)
    (vocabularies : list (string * N)) : CborValue :=
  let pairs :=
    [ (Text "attestations", sorted_ids attestation_ids);
      (Text "created_at", Uint created_at);
      (Text "events", sorted_ids event_ids);
      (Text "evidence", sorted_ids evidence_ids);
      (Text "relationships", sorted_ids relationship_ids);
      (Text "proposition", proposition);
      (Text "v", Uint 1) ] in
  let refs :=
    if negb (len referenced_proofs =? 0)
    then [(Text "referenced_proofs", sorted_ids referenced_proofs)] else [] in
  let vocabs :=
    if negb (len vocabularies =? 0)
    then [(Text "vocabularies",
           Array (map vocab_pair_to_cbor (sort_by vocab_leb vocabularies)))] else [] in
  Map (pairs ++ refs ++ vocabs).

Definition proof_id_full (proposition : CborValue) (created_at : N)
    (event_ids attestation_ids evidence_ids relationship_ids referenced_proofs : list string)
    (vocabularies : list (string * N)) : string :=
  id_with id_prefix.PROOF
    (encode_canonical
       (proof_binding proposition created_at event_ids attestation_ids evidence_ids
          relationship_ids referenced_proofs vocabularies)).

Definition proof_id_with_refs (proposition : CborValue) (created_at : N)
    (event_ids attestation_ids evidence_ids relationship_ids referenced_proofs : list string)
    : string :=
  proof_id_full proposition created_at event_ids attestation_ids evidence_ids relationship_ids
    referenced_proofs [].

Definition proof_id (proposition : CborValue) (created_at : N)
    (event_ids attestation_ids evidence_ids relationship_ids : list string) : string :=
  proof_id_with_refs proposition created_at event_ids attestation_ids evidence_ids
    relationship_ids [].

Definition verify_id (prefix id : string) (canonical : list byte) : Result unit :=
  rest ← ok_or (strip_prefix (prefix +:+ ":v1:") id) ErrorCode.IdMismatch;
  raw ← b64u_decode rest;
  if bool_decide (b64u_nopad raw ≠ rest) then Err ErrorCode.IdMismatch else
  if negb (len raw =? 32) then Err ErrorCode.IdMismatch else
  if bool_decide (raw ≠ sha256 canonical) then Err ErrorCode.IdMismatch else Ok tt.
End identifiers.

(** * Key references (keys.rs) *)

Definition KEYREF_PREFIXES : list string := ["key:ed25519:"; "key:p256:"].

Definition is_supported_keyref (s : string) : bool :=
  existsb (λ p, starts_with p s && (slen p <? slen s)) KEYREF_PREFIXES.

Section keys.
Context `{Base64Url}.

Definition parse_ed25519_keyref (key_ref : string) : Result (list byte) :=
  rest ← ok_or (strip_prefix "key:ed25519:" key_ref) ErrorCode.SchemaViolation;
  raw ← b64u_decode rest;
  if bool_decide (b64u_nopad raw ≠ rest) then Err ErrorCode.SchemaViolation else
  if negb (len raw =? 32) then Err ErrorCode.SchemaViolation else Ok raw.

Definition parse_p256_keyref (key_ref : string) : Result (list byte) :=
  rest ← ok_or (strip_prefix "key:p256:" key_ref) ErrorCode.SchemaViolation;
  raw ← b64u_decode rest;
  if bool_decide (b64u_nopad raw ≠ rest) then Err ErrorCode.SchemaViolation else
  if negb (len raw =? 64) then Err ErrorCode.SchemaViolation else Ok raw.

(** [Ed25519Key::key_ref], from the seed of the key. *)
Definition key_ref `{SignatureSchemes} (seed : list byte) : string :=
  "key:ed25519:" +:+ b64u_nopad (ed25519_public seed).
End keys.

(** * Algorithm policy (alg.rs) *)

Definition COSE_ED25519 : Z := (-19)%Z.
Definition COSE_ESP256 : Z := (-9)%Z.
Definition DEPRECATED : list Z := [-8; -7; -35; -36]%Z.

Record AllowedAlgs : Set := mkAlgs {
  alg_ed25519 : bool;
  alg_esp256 : bool;
  allow_deprecated : bool;
}.
Definition algs_strict : AllowedAlgs :=
  {| alg_ed25519 := true; alg_esp256 := false; allow_deprecated := false |}.
Definition with_esp256 (a : AllowedAlgs) : AllowedAlgs :=
  {| alg_ed25519 := alg_ed25519 a; alg_esp256 := true; allow_deprecated := allow_deprecated a |}.
Definition with_deprecated (a : AllowedAlgs) : AllowedAlgs :=
  {| alg_ed25519 := alg_ed25519 a; alg_esp256 := alg_esp256 a; allow_deprecated := true |}.
Definition is_allowed (a : AllowedAlgs) (alg : Z) : bool :=
  if (alg =? COSE_ED25519)%Z then alg_ed25519 a
  else if (alg =? COSE_ESP256)%Z then alg_esp256 a
  else false.
Definition is_deprecated (alg : Z) : bool := bool_decide (alg ∈ DEPRECATED).

(** * Identifiers name their bytes *)

Lemma b64_inj `{Base64UrlLaws} a b : b64_encode a = b64_encode b → a = b.
Proof. intros Heq. pose proof (b64_decode_encode a). pose proof (b64_decode_encode b). congruence. Qed.

(** Reading a prefixed base64url text of a fixed size. *)
Lemma prefixed_b64_Ok `{Base64UrlLaws} {E} (prefix s : string) (e1 e2 e3 e4 : E) size raw :
  (rest ← ok_or (strip_prefix prefix s) e1;
   raw ← ok_or (b64_decode rest) e2;
   if bool_decide (b64u_nopad raw ≠ rest) then Err e3 else
   if negb (len raw =? size) then Err e4 else Ok raw) = Ok raw ↔
  s = prefix +:+ b64_encode raw ∧ len raw = size.
Proof.
  unfold b64u_nopad. split.
  - intros Hr. simplify_result. apply strip_prefix_Some in Ha as ->.
    case_bool_decide as Hc; [done|]. subst.
    destruct (N.eqb_spec (len a0) size) as [Hl|]; by simplify_eq/=.
  - intros [-> <-]. rewrite strip_prefix_app. simpl. rewrite b64_decode_encode. simpl.
    rewrite bool_decide_eq_false_2 by (by intros []). by rewrite N.eqb_refl.
Qed.

Section id_properties.
Context `{Base64UrlLaws, Sha2Laws}.

Lemma verify_id_spec prefix id canonical :
  verify_id prefix id canonical = Ok tt ↔ id = id_with prefix canonical.
Proof.
  unfold verify_id, id_with, b64u_decode, b64u_nopad. rewrite <- str_app_assoc. split.
  - intros Hr. simplify_result. apply strip_prefix_Some in Ha as ->.
    case_bool_decide as Hc; [done|]. subst.
    destruct (len a0 =? 32); [|done]. simpl in Hr. case_bool_decide as Hs; [done|]. by subst.
  - intros ->. rewrite strip_prefix_app. simpl. rewrite b64_decode_encode. simpl.
    rewrite bool_decide_eq_false_2 by (by intros []). rewrite sha256_len. simpl.
    rewrite bool_decide_eq_false_2 by (by intros []). done.
Qed.

(** An id verifies exactly against the bytes it was derived from:
    [verify_id] accepts one string per prefix and byte string, the one
    [id_with] builds, so ids have no second spelling. *)
Theorem verify_id_iff prefix id canonical :
  verify_id prefix id canonical = Ok tt ↔ id = id_with prefix canonical.
Proof. apply verify_id_spec. Qed.

Lemma id_with_inj prefix a b :
  id_with prefix a = id_with prefix b → sha256 a = sha256 b.
Proof.
  unfold id_with, b64u_nopad. intros Heq%str_app_inj%str_app_inj. by apply b64_inj.
Qed.

Lemma parse_ed25519_spec key_ref raw :
  parse_ed25519_keyref key_ref = Ok raw ↔
  key_ref = "key:ed25519:" +:+ b64u_nopad raw ∧ len raw = 32.
Proof.
  apply (prefixed_b64_Ok "key:ed25519:" key_ref ErrorCode.SchemaViolation
    ErrorCode.InvalidBase64Url ErrorCode.SchemaViolation ErrorCode.SchemaViolation 32 raw).
Qed.
Lemma parse_p256_spec key_ref raw :
  parse_p256_keyref key_ref = Ok raw ↔
  key_ref = "key:p256:" +:+ b64u_nopad raw ∧ len raw = 64.
Proof.
  apply (prefixed_b64_Ok "key:p256:" key_ref ErrorCode.SchemaViolation
    ErrorCode.InvalidBase64Url ErrorCode.SchemaViolation ErrorCode.SchemaViolation 64 raw).
Qed.

(** One name per key.  A key reference parses exactly when it is the
    canonical spelling of a key of the right size. *)
Theorem parse_keyref_iff key_ref raw :
  (parse_ed25519_keyref key_ref = Ok raw ↔
   key_ref = "key:ed25519:" +:+ b64u_nopad raw ∧ len raw = 32) ∧
  (parse_p256_keyref key_ref = Ok raw ↔
   key_ref = "key:p256:" +:+ b64u_nopad raw ∧ len raw = 64).
Proof. split; [apply parse_ed25519_spec | apply parse_p256_spec]. Qed.
End id_properties.

(** * The proof id binds its members *)

Definition binding_fields (proposition : CborValue) (created_at : N)
    (ev att evd rel refs : list string) (vocs : list (string * N)) : list (string * CborValue) :=
  [ ("attestations", sorted_ids att); ("created_at", Uint created_at); ("events", sorted_ids ev);
    ("evidence", sorted_ids evd); ("relationships", sorted_ids rel);
    ("proposition", proposition); ("v", Uint 1) ]
  ++ (if negb (len refs =? 0) then [("referenced_proofs", sorted_ids refs)] else [])
  ++ (if negb (len vocs =? 0)
      then [("vocabularies", Array (map vocab_pair_to_cbor (sort_by vocab_leb vocs)))] else []).

Lemma proof_binding_fields prop t ev att evd rel refs vocs :
  proof_binding prop t ev att evd rel refs vocs =
  Map (to_pairs (binding_fields prop t ev att evd rel refs vocs)).
Proof.
  unfold proof_binding, binding_fields. by destruct (negb (len refs =? 0)), (negb (len vocs =? 0)).
Qed.

Definition binding_lookup (q : list (string * CborValue)) (key : string) : option CborValue :=
  find_field (to_pairs q) key.

(** Equal canonical records agree on every lookup. *)
Lemma record_lookup_eq q q' key :
  canonical_value (sort_maps (Map (to_pairs q))) = true →
  canonical_value (sort_maps (Map (to_pairs q'))) = true →
  NoDup (map fst q) → NoDup (map fst q') →
  sort_maps (Map (to_pairs q)) = sort_maps (Map (to_pairs q')) →
  sort_maps <$> binding_lookup q key = sort_maps <$> binding_lookup q' key.
Proof.
  assert (∀ q m, canonical_value (Map m) = true → NoDup (map fst q) →
    Map m = sort_maps (Map (to_pairs q)) →
    sort_maps <$> binding_lookup q key = find_field m key) as Hl.
  { clear. intros q m Hc Hnd Hm. unfold binding_lookup.
    destruct (canonical_keys m Hc) as [_ Hndm].
    apply (record_shape m q (map fst q)) in Hm as [Hcl Hf]; [|done..].
    destruct (find_field (to_pairs q) key) as [v|] eqn:Hq; simpl.
    - apply find_field_Some in Hq. apply list_elem_of_fmap in Hq as ([k w] & [= -> ->] & Hin).
      rewrite Forall_forall in Hf. specialize (Hf _ Hin). simpl in Hf. congruence.
    - symmetry. destruct (find_field m key) as [v|] eqn:Hv; [|done]. apply find_field_Some in Hv.
      apply check_closed_Ok in Hcl. rewrite Forall_forall in Hcl.
      destruct (Hcl _ Hv) as (k & [= <-] & Hk). apply list_elem_of_fmap in Hk as ([k' w] & -> & Hin).
      assert (find_field (to_pairs q) k' = Some w); [|simpl in *; congruence].
      apply find_field_elem; [|apply list_elem_of_fmap; by exists (k', w)].
      rewrite to_pairs_fst. by apply (NoDup_fmap_2 Text). }
  intros Hc Hc' Hnd Hnd' Heq.
  destruct (sort_maps (Map (to_pairs q))) as [| | | | |m| |] eqn:Hm; try by rewrite sort_maps_map in Hm.
  rewrite (Hl q m) by done. rewrite (Hl q' m); [done|done|done|by rewrite Heq].
Qed.

Lemma binding_names prop t ev att evd rel refs vocs :
  NoDup (map fst (binding_fields prop t ev att evd rel refs vocs)).
Proof.
  unfold binding_fields. destruct (negb (len refs =? 0)), (negb (len vocs =? 0));
    apply (bool_decide_unpack _); vm_compute; reflexivity.
Qed.

Lemma sorted_ids_perm l k : sort_maps (sorted_ids l) = sort_maps (sorted_ids k) → l ≡ₚ k.
Proof.
  unfold sorted_ids. rewrite !sort_array, !map_map. simpl. intros [= Heq].
  apply (inj (fmap Text : list string → list CborValue)) in Heq. by rewrite <- (sort_by_perm str_leb l), Heq, sort_by_perm.
Qed.

Lemma vocab_perm l k :
  sort_maps (Array (map vocab_pair_to_cbor (sort_by vocab_leb l))) =
  sort_maps (Array (map vocab_pair_to_cbor (sort_by vocab_leb k))) → l ≡ₚ k.
Proof.
  rewrite !sort_array, !map_map. intros [= Heq].
  assert (Inj (=) (=) (λ p : string * N, sort_maps (vocab_pair_to_cbor p))) as Hinj.
  { intros [s n] [t m]. unfold vocab_pair_to_cbor. cbn. by intros [= -> ->]. }
  apply (inj (fmap (λ p : string * N, sort_maps (vocab_pair_to_cbor p)))) in Heq.
  by rewrite <- (sort_by_perm vocab_leb l), Heq, sort_by_perm.
Qed.

(** Two proofs' bound terms, up to the order of the member lists. *)
Definition same_terms (prop prop' : CborValue) (t t' : N) (ev ev' att att' evd evd' rel rel' refs refs' : list string)
    (vocs vocs' : list (string * N)) : Prop :=
  sort_maps prop = sort_maps prop' ∧ t = t' ∧ ev ≡ₚ ev' ∧ att ≡ₚ att' ∧ evd ≡ₚ evd' ∧
  rel ≡ₚ rel' ∧ refs ≡ₚ refs' ∧ vocs ≡ₚ vocs'.

Lemma optional_perm {A} (g : list A → CborValue) (l k : list A) :
  (sort_maps (g l) = sort_maps (g k) → l ≡ₚ k) →
  sort_maps <$> (if negb (len l =? 0) then Some (g l) else None) =
  sort_maps <$> (if negb (len k =? 0) then Some (g k) else None) → l ≡ₚ k.
Proof.
  intros Hg. destruct l as [|x l], k as [|y k]; simpl; [done|done|done|].
  intros [= Heq]. by apply Hg.
Qed.

Lemma binding_lookups prop t ev att evd rel refs vocs :
  let q := binding_fields prop t ev att evd rel refs vocs in
  binding_lookup q "proposition" = Some prop ∧ binding_lookup q "created_at" = Some (Uint t) ∧
  binding_lookup q "events" = Some (sorted_ids ev) ∧
  binding_lookup q "attestations" = Some (sorted_ids att) ∧
  binding_lookup q "evidence" = Some (sorted_ids evd) ∧
  binding_lookup q "relationships" = Some (sorted_ids rel) ∧
  binding_lookup q "referenced_proofs" =
    (if negb (len refs =? 0) then Some (sorted_ids refs) else None) ∧
  binding_lookup q "vocabularies" =
    (if negb (len vocs =? 0)
     then Some (Array (map vocab_pair_to_cbor (sort_by vocab_leb vocs))) else None).
Proof.
  unfold binding_fields, binding_lookup.
  destruct (negb (len refs =? 0)), (negb (len vocs =? 0)); by split_and!.
Qed.

Lemma binding_inj prop prop' t t' ev ev' att att' evd evd' rel rel' refs refs' vocs vocs' :
  let b := proof_binding prop t ev att evd rel refs vocs in
  let b' := proof_binding prop' t' ev' att' evd' rel' refs' vocs' in
  canonical_value (sort_maps b) = true → canonical_value (sort_maps b') = true →
  sort_maps b = sort_maps b' →
  same_terms prop prop' t t' ev ev' att att' evd evd' rel rel' refs refs' vocs vocs'.
Proof.
  intros b b' Hc Hc' Heq. subst b b'. rewrite proof_binding_fields in *.
  rewrite (proof_binding_fields prop' t') in *.
  pose proof (λ key, record_lookup_eq _ _ key Hc Hc' (binding_names _ _ _ _ _ _ _ _)
                       (binding_names _ _ _ _ _ _ _ _) Heq) as Hl.
  destruct (binding_lookups prop t ev att evd rel refs vocs) as (L1&L2&L3&L4&L5&L6&L7&L8).
  destruct (binding_lookups prop' t' ev' att' evd' rel' refs' vocs') as (M1&M2&M3&M4&M5&M6&M7&M8).
  assert (∀ key u v, binding_lookup (binding_fields prop t ev att evd rel refs vocs) key = Some u →
    binding_lookup (binding_fields prop' t' ev' att' evd' rel' refs' vocs') key = Some v →
    sort_maps u = sort_maps v) as Hkey.
  { intros key u v Hu Hv. specialize (Hl key). rewrite Hu, Hv in Hl. by injection Hl. }
  split_and!; try (eapply sorted_ids_perm; by eapply Hkey).
  - by eapply Hkey.
  - by injection (Hkey _ _ _ L2 M2).
  - specialize (Hl "referenced_proofs"). rewrite L7, M7 in Hl.
    eapply (optional_perm sorted_ids); [apply sorted_ids_perm|exact Hl].
  - specialize (Hl "vocabularies"). rewrite L8, M8 in Hl.
    eapply (optional_perm (λ l, Array (map vocab_pair_to_cbor (sort_by vocab_leb l))));
      [apply vocab_perm|exact Hl].
Qed.

Section binding_properties.
Context `{Base64UrlLaws, Sha2Laws}.

(** C36: the proof id binds every term.  If two proofs have the same id, then
    they have the same proposition, creation time, member id sets, references
    and vocabulary declarations, or their two bindings are an explicit
    SHA-256 collision. *)
Theorem proof_id_binds limits levels
  prop prop' t t' ev ev' att att' evd evd' rel rel' refs refs' vocs vocs'
  (Hlim : limits_wf limits = true)
  (Hb : encodable limits levels (proof_binding prop t ev att evd rel refs vocs) = true)
  (Hb' : encodable limits levels (proof_binding prop' t' ev' att' evd' rel' refs' vocs') = true)
  (Hid : proof_id_full prop t ev att evd rel refs vocs =
         proof_id_full prop' t' ev' att' evd' rel' refs' vocs') :
  let x := encode_canonical (proof_binding prop t ev att evd rel refs vocs) in
  let y := encode_canonical (proof_binding prop' t' ev' att' evd' rel' refs' vocs') in
  same_terms prop prop' t t' ev ev' att att' evd evd' rel rel' refs refs' vocs vocs' ∨
  (x ≠ y ∧ sha256 x = sha256 y).
Proof.
  intros x y. apply id_with_inj in Hid. fold x y in Hid.
  destruct (decide (x = y)) as [Hxy|]; [left|by right]. unfold x, y, encode_canonical in Hxy.
  eapply binding_inj; [by eapply encodable_canonical..|].
  pose proof (decode_encode limits Hlim levels _ [] Hb) as Hd1.
  pose proof (decode_encode limits Hlim levels _ [] Hb') as Hd2.
  rewrite Hxy in Hd1. congruence.
Qed.

(** The proof id does not depend on the order in which member ids and
    references are supplied. *)
Theorem proof_id_order_free prop t ev ev' att att' evd evd' rel rel' refs refs' vocs
  (Hev : ev ≡ₚ ev') (Hatt : att ≡ₚ att') (Hevd : evd ≡ₚ evd') (Hrel : rel ≡ₚ rel')
  (Hrefs : refs ≡ₚ refs') :
  proof_id_full prop t ev att evd rel refs vocs =
  proof_id_full prop t ev' att' evd' rel' refs' vocs.
Proof.
  assert (∀ l k, l ≡ₚ k → sorted_ids l = sorted_ids k) as Hs.
  { intros l k Hlk. unfold sorted_ids. do 2 f_equal.
    apply sort_by_unique; [apply leb_total|apply leb_trans|done|].
    intros ? ? _ _. apply leb_antisym. }
  unfold proof_id_full, proof_binding.
  rewrite (Hs ev ev'), (Hs att att'), (Hs evd evd'), (Hs rel rel'), (Hs refs refs') by done.
  by replace (len refs') with (len refs) by (unfold len; by rewrite Hrefs).
Qed.
End binding_properties.

Section id_witnesses.
Import Toy.

Lemma proof_id_binds_witness :
  let vocs := [("legacy", 1)] in
  let b ids := proof_binding Null 5 ids [] [] [] [] vocs in
  same_terms Null Null 5 5 ["evt:v1:a"; "evt:v1:b"] ["evt:v1:b"; "evt:v1:a"] [] [] [] [] [] [] [] [] vocs vocs ∨
  (encode_canonical (b ["evt:v1:a"; "evt:v1:b"]) ≠ encode_canonical (b ["evt:v1:b"; "evt:v1:a"]) ∧
   sha256 (encode_canonical (b ["evt:v1:a"; "evt:v1:b"])) =
   sha256 (encode_canonical (b ["evt:v1:b"; "evt:v1:a"]))).
Proof. apply (proof_id_binds default_limits 5); vm_compute; reflexivity. Defined.

End id_witnesses.
