(* ===== verification/Claim.v ===== *)
(** Claim: the reserved claim shapes of [crates/proof-crypto/src/claim.rs].

    Classification of an attestation's claim into a plain statement or one of
    the four lifecycle claims, the extraction of their targets (errors are
    values: a malformed lifecycle claim is refused, never ignored), and the
    normal form of the [evidence_digest] field. *)
From Stdlib Require Import Strings.Byte NArith Lia.
From S2P Require Import Prelude Core.

Module ClaimKind.
Inductive t : Set := Statement | Revoke | Supersede | Withdraw | Compromise.
#[global] Instance eq_dec : EqDecision t.
Proof. solve_decision. Defined.
Definition is_status (k : t) : bool :=
  match k with Revoke | Supersede | Withdraw | Compromise => true | Statement => false end.
End ClaimKind.

Definition CLAIM_REVOKE := "revoke".
Definition CLAIM_SUPERSEDE := "supersede".
Definition CLAIM_WITHDRAW := "withdraw".
Definition CLAIM_COMPROMISE := "compromise".
Definition CLAIM_DELEGATE := "delegate".
Definition CLAIM_IDENTITY_BIND := "identity.bind".
Definition CLAIM_TRANSPARENCY_CHECKPOINT := "transparency.checkpoint".
Definition CLAIM_FIELD_DENIES := "denies".
Definition CLAIM_FIELD_EVIDENCE_DIGEST := "evidence_digest".

Definition claim_kind (content : AttestationContent) : ClaimKind.t :=
  let ty := claim_type (att_claim content) in
  if bool_decide (ty = CLAIM_REVOKE) then ClaimKind.Revoke
  else if bool_decide (ty = CLAIM_SUPERSEDE) then ClaimKind.Supersede
  else if bool_decide (ty = CLAIM_WITHDRAW) then ClaimKind.Withdraw
  else if bool_decide (ty = CLAIM_COMPROMISE) then ClaimKind.Compromise
  else ClaimKind.Statement.

(** * Field access *)

(** [claim_text]: the first text value under the key. *)
Fixpoint find_text (fields : list (string * MetaValue)) (key : string) : option string :=
  match fields with
  | [] => None
  | (k, v) :: fields' =>
      match bool_decide (k = key), v with
      | true, MText s => Some s
      | _, _ => find_text fields' key
      end
  end.
Definition claim_text (c : Claim) (key : string) : option string := find_text (claim_fields c) key.

(** The [find_map] that reads [at_time]: the first integer under the key. *)
Fixpoint find_uint (fields : list (string * MetaValue)) (key : string) : option N :=
  match fields with
  | [] => None
  | (k, v) :: fields' =>
      match bool_decide (k = key), v with
      | true, MUint n => Some n
      | _, _ => find_uint fields' key
      end
  end.

(** * Evidence digests *)

Inductive DigestClaimError : Set := NonText | MalformedDigest.

(** [to_lowercase] on the ASCII letters.  No character outside ASCII lowers to a
    hexadecimal digit, so the hexadecimal test below sees the same outcome. *)
Definition ascii_lower (b : byte) : byte := if in_range 65 90 b then u8 (b2n b + 32) else b.
Definition to_lowercase (s : string) : string := of_bytes (map ascii_lower (as_bytes s)).
Definition is_ascii_hexdigit (b : byte) : bool :=
  in_range 48 57 b || in_range 97 102 b || in_range 65 70 b.

Definition strip_0x (s : string) : string :=
  match strip_prefix "0x" s with
  | Some r => r
  | None => match strip_prefix "0X" s with Some r => r | None => s end
  end.

Definition normalize_digest (s : string) : result DigestClaimError string :=
  let normalized := to_lowercase (strip_0x s) in
  if negb (((slen normalized =? 64) || (slen normalized =? 96))
           && forallb is_ascii_hexdigit (as_bytes normalized))
  then Err MalformedDigest else Ok normalized.

Fixpoint find_digest_claim (fields : list (string * MetaValue))
    : option (result DigestClaimError string) :=
  match fields with
  | [] => None
  | (k, v) :: fields' =>
      if negb (bool_decide (k = CLAIM_FIELD_EVIDENCE_DIGEST)) then find_digest_claim fields'
      else Some (match v with MText s => normalize_digest s | _ => Err NonText end)
  end.
Definition evidence_digest_hex (c : Claim) : option (result DigestClaimError string) :=
  find_digest_claim (claim_fields c).

(** * Lifecycle claims *)

Definition require_text (c : Claim) (key : string) : Result string :=
  ok_or (claim_text c key) ErrorCode.SchemaViolation.

Definition revocation_target (content : AttestationContent) : Result string :=
  if bool_decide (claim_kind content ≠ ClaimKind.Revoke) then Err ErrorCode.SchemaViolation else
  t ← require_text (att_claim content) "target";
  if sempty t then Err ErrorCode.SchemaViolation else
  if negb (starts_with "att:v1:" t) then Err ErrorCode.SchemaViolation else Ok t.

Definition withdrawal_target (content : AttestationContent) : Result string :=
  if bool_decide (claim_kind content ≠ ClaimKind.Withdraw) then Err ErrorCode.SchemaViolation else
  t ← require_text (att_claim content) "target";
  if sempty t then Err ErrorCode.SchemaViolation else
  let shaped := starts_with "evt:v" t || starts_with "att:v" t || starts_with "evd:v" t
                || starts_with "rel:v" t || starts_with "prf:v" t in
  if negb shaped || negb (contains_char colon t) then Err ErrorCode.SchemaViolation else Ok t.

Definition compromise_mark (content : AttestationContent) : Result (string * N) :=
  if bool_decide (claim_kind content ≠ ClaimKind.Compromise) then Err ErrorCode.SchemaViolation else
  target ← require_text (att_claim content) "target";
  if sempty target then Err ErrorCode.SchemaViolation else
  let ok := starts_with "key:" target || starts_with "att:v" target || starts_with "evt:v" target
            || starts_with "evd:v" target || starts_with "rel:v" target
            || starts_with "did:" target in
  if negb ok then Err ErrorCode.SchemaViolation else
  at_time ← ok_or (find_uint (claim_fields (att_claim content)) "at_time") ErrorCode.SchemaViolation;
  Ok (target, at_time).

Definition denial_target (content : AttestationContent) : option string :=
  claim_text (att_claim content) CLAIM_FIELD_DENIES.

Definition supersession_pair (content : AttestationContent) : Result (string * string) :=
  if bool_decide (claim_kind content ≠ ClaimKind.Supersede) then Err ErrorCode.SchemaViolation else
  old ← require_text (att_claim content) "old";
  new ← require_text (att_claim content) "new";
  if sempty old || sempty new then Err ErrorCode.SchemaViolation else
  if bool_decide (old = new) then Err ErrorCode.SchemaViolation else
  if negb (starts_with "att:v1:" old) then Err ErrorCode.SchemaViolation else
  if negb (starts_with "att:v1:" new) then Err ErrorCode.SchemaViolation else
  Ok (old, new).

(** * Properties *)

Lemma ascii_lower_idemp b : ascii_lower (ascii_lower b) = ascii_lower b.
Proof. by destruct b. Qed.
Lemma to_lowercase_idemp s : to_lowercase (to_lowercase s) = to_lowercase s.
Proof.
  unfold to_lowercase. rewrite as_of_bytes, map_map. f_equal. apply map_ext, ascii_lower_idemp.
Qed.
Lemma length_lowercase s : slen (to_lowercase s) = slen s.
Proof. unfold to_lowercase. rewrite !slen_as_bytes, as_of_bytes. apply len_map. Qed.

(** A lower-case hexadecimal text carries no [0x]. *)
Lemma strip_0x_hex s : forallb is_ascii_hexdigit (as_bytes s) = true → strip_0x s = s.
Proof.
  intros Hh. unfold strip_0x.
  assert (∀ p r, p = "0x" ∨ p = "0X" → strip_prefix p s = Some r → False) as Hno.
  { intros p r Hp Hs. apply strip_prefix_Some in Hs as ->.
    destruct Hp as [-> | ->]; rewrite !str_app_cons in Hh; vm_compute in Hh; done. }
  destruct (strip_prefix "0x" s) eqn:E1; [by destruct (Hno _ _ (or_introl eq_refl) E1)|].
  destruct (strip_prefix "0X" s) eqn:E2; [by destruct (Hno _ _ (or_intror eq_refl) E2)|done].
Qed.

(** A normalized evidence digest is lower-case hexadecimal of one of the two
    digest sizes, and normalizing it again changes nothing, so the pipeline and
    the policy projection compare the same text. *)
Theorem normalize_digest_idempotent s h (Hn : normalize_digest s = Ok h) :
  normalize_digest h = Ok h ∧ to_lowercase h = h ∧ (slen h = 64 ∨ slen h = 96).
Proof.
  unfold normalize_digest in *. destruct (negb _) eqn:E in Hn; [done|]. injection Hn as Hh.
  rewrite Hh in E. apply negb_false_iff, andb_true_iff in E as [Hl Hx].
  assert (to_lowercase h = h) as Hlow by (subst h; apply to_lowercase_idemp).
  rewrite strip_0x_hex by done. rewrite Hlow, Hl, Hx. split_and!; [done..|].
  apply orb_true_iff in Hl. by rewrite !N.eqb_eq in Hl.
Qed.

Definition repeat_char (n : nat) (b : byte) : string := of_bytes (repeat b n).

(** A claim has one lifecycle reading: exactly the extractor of its own kind
    can succeed, and a plain statement has none. *)
Theorem lifecycle_claim_exclusive content :
  (is_ok (revocation_target content) = true → claim_kind content = ClaimKind.Revoke) ∧
  (is_ok (withdrawal_target content) = true → claim_kind content = ClaimKind.Withdraw) ∧
  (is_ok (compromise_mark content) = true → claim_kind content = ClaimKind.Compromise) ∧
  (is_ok (supersession_pair content) = true → claim_kind content = ClaimKind.Supersede) ∧
  (ClaimKind.is_status (claim_kind content) = false →
   revocation_target content = Err ErrorCode.SchemaViolation ∧
   withdrawal_target content = Err ErrorCode.SchemaViolation ∧
   compromise_mark content = Err ErrorCode.SchemaViolation ∧
   supersession_pair content = Err ErrorCode.SchemaViolation).
Proof.
  unfold revocation_target, withdrawal_target, compromise_mark, supersession_pair.
  destruct (claim_kind content); split_and!; intros; by try discriminate.
Qed.
