(* ===== verification/Cose.v ===== *)
(** Cose: COSE_Sign1 envelopes and the signed-artifact builders, from
    [crates/proof-crypto/src/cose.rs] and [build.rs].

    An envelope is the deterministic encoding of
    [[protected, {}, payload, signature]] with the protected header
    [{1: alg, 4: kid}]; the signature covers the [Sig_structure] over the
    protected bytes, the domain separator [PE1] and the payload.  The signature
    schemes are parameters.  A builder round-trips its object through canonical
    CBOR and the schema before it signs or names it. *)
From Stdlib Require Import Strings.Byte NArith ZArith Lia.
From S2P Require Import Prelude Core External Cbor Schema Ident Claim.

(** * COSE_Sign1 (cose.rs) *)

(** [b"PE1"]. *)
Definition EXTERNAL_AAD : list byte := [Byte.x50; Byte.x45; Byte.x31].

Definition protected_bytes (alg : Z) (kid_raw : list byte) : list byte :=
  let alg_val := if (0 <=? alg)%Z then Uint (Z.to_N alg) else Nint alg in
  encode_canonical (Map [ (Uint 1, alg_val); (Uint 4, Bytes kid_raw) ]).

Definition sig_structure_with_aad (protected aad payload : list byte) : list byte :=
  encode_canonical (Array [ Text "Signature1"; Bytes protected; Bytes aad; Bytes payload ]).

Definition sig_structure (protected payload : list byte) : list byte :=
  sig_structure_with_aad protected EXTERNAL_AAD payload.

Record ParsedSign1 : Set := mkSign1 {
  p_alg : Z;
  p_kid : list byte;
  p_payload : list byte;
  p_signature : list byte;
  p_protected_raw : list byte;
}.

(** The envelope of the four parts. *)
Definition sign1_envelope (prot payload sig : list byte) : CborValue :=
  Array [ Bytes prot; Map []; Bytes payload; Bytes sig ].

(** The header loop, over [(alg, kid)]. *)
Fixpoint protected_entries (alg : option Z) (kid : option (list byte))
    (pairs : list (CborValue * CborValue)) : Result (option Z * option (list byte)) :=
  match pairs with
  | [] => Ok (alg, kid)
  | (Uint 1, v) :: pairs' =>
      match v with
      | Nint n => protected_entries (Some n) kid pairs'
      | Uint n =>
          if (i64_max <? Z.of_N n)%Z then Err ErrorCode.UnknownAlgorithm
          else protected_entries (Some (Z.of_N n)) kid pairs'
      | _ => Err ErrorCode.UnexpectedHeaderParam
      end
  | (Uint 4, v) :: pairs' =>
      match v with
      | Bytes b => protected_entries alg (Some b) pairs'
      | _ => Err ErrorCode.UnexpectedHeaderParam
      end
  | _ :: _ => Err ErrorCode.UnexpectedHeaderParam
  end.

(** The protected header: canonical, exactly two entries, known labels, and a
    key id of the size its algorithm fixes. *)
Definition parse_protected (protected_raw : list byte) (limits : Limits)
    : Result (Z * list byte) :=
  inner ← decode_strict protected_raw limits;
  if bool_decide (encode_canonical inner ≠ protected_raw) then Err ErrorCode.NonCanonical else
  pairs ← match inner with Map p => Ok p | _ => Err ErrorCode.Malformed end;
  if negb (len pairs =? 2) then Err ErrorCode.UnexpectedHeaderParam else
  '(alg, kid) ← protected_entries None None pairs;
  alg ← ok_or alg ErrorCode.UnexpectedHeaderParam;
  kid ← ok_or kid ErrorCode.UnexpectedHeaderParam;
  if (alg =? COSE_ED25519)%Z && negb (len kid =? 32) then Err ErrorCode.AlgorithmConfusion else
  if (alg =? COSE_ESP256)%Z && negb (len kid =? 64) then Err ErrorCode.AlgorithmConfusion else
  Ok (alg, kid).

Definition parse_sign1 (bytes : list byte) (limits : Limits) : Result ParsedSign1 :=
  if max_proof_size limits <? len bytes then Err ErrorCode.LimitExceeded else
  outer ← decode_strict bytes limits;
  if bool_decide (encode_canonical outer ≠ bytes) then Err ErrorCode.NonCanonical else
  items ← match outer with Array a => Ok a | _ => Err ErrorCode.Malformed end;
  match items with
  | [i0; i1; i2; i3] =>
      protected_raw ← match i0 with Bytes b => Ok b | _ => Err ErrorCode.Malformed end;
      _ ← match i1 with Map [] => Ok tt | _ => Err ErrorCode.UnexpectedHeaderParam end;
      payload ← match i2 with Bytes b => Ok b | _ => Err ErrorCode.Malformed end;
      if max_proof_size limits <? len payload then Err ErrorCode.LimitExceeded else
      signature ← match i3 with Bytes b => Ok b | _ => Err ErrorCode.Malformed end;
      if max_sig_size limits <? len signature then Err ErrorCode.LimitExceeded else
      '(alg, kid) ← parse_protected protected_raw limits;
      Ok {| p_alg := alg; p_kid := kid; p_payload := payload; p_signature := signature;
            p_protected_raw := protected_raw |}
  | _ => Err ErrorCode.Malformed
  end.

(** The operation a deprecated id maps to under the historical policy. *)
Definition historical_op (allowed : AllowedAlgs) (p : ParsedSign1) : Result (option Z) :=
  if is_deprecated (p_alg p) then
    if negb (allow_deprecated allowed) then Err ErrorCode.DeprecatedAlgorithm
    else if (p_alg p =? -8)%Z && (len (p_kid p) =? 32) then Ok (Some COSE_ED25519)
    else if (p_alg p =? -7)%Z && (len (p_kid p) =? 64) && alg_esp256 allowed
         then Ok (Some COSE_ESP256)
    else if (p_alg p =? -7)%Z then Err ErrorCode.UnexpectedHeaderParam
    else Err ErrorCode.DeprecatedAlgorithm
  else Ok None.

Section cose.
Context `{Base64Url, Sha2, SignatureSchemes}.

(** The signature check of one operation. *)
Definition verify_op (op : Z) (p : ParsedSign1) (expected_issuer : string) (aad : list byte)
    : Result unit :=
  if (op =? COSE_ED25519)%Z then
    expect ← parse_ed25519_keyref expected_issuer;
    if bool_decide (expect ≠ p_kid p) then Err ErrorCode.SignatureInvalid else
    if negb (ed25519_vk expect) then Err ErrorCode.Malformed else
    let tbs := sig_structure_with_aad (p_protected_raw p) aad (p_payload p) in
    if negb (ed25519_verify expect tbs (p_signature p)) then Err ErrorCode.SignatureInvalid
    else Ok tt
  else if (op =? COSE_ESP256)%Z then
    expect ← parse_p256_keyref expected_issuer;
    if bool_decide (expect ≠ p_kid p) then Err ErrorCode.SignatureInvalid else
    if negb (p256_vk expect) then Err ErrorCode.Malformed else
    if negb (p256_sig (p_signature p)) then Err ErrorCode.SignatureInvalid else
    let tbs := sig_structure_with_aad (p_protected_raw p) aad (p_payload p) in
    if negb (p256_verify expect tbs (p_signature p)) then Err ErrorCode.SignatureInvalid
    else Ok tt
  else Err ErrorCode.UnknownAlgorithm.

Definition verify_sign1_with_aad (bytes : list byte) (expected_issuer : string)
    (allowed : AllowedAlgs) (limits : Limits) (external_aad : list byte) : Result ParsedSign1 :=
  if 1024 <? len external_aad then Err ErrorCode.LimitExceeded else
  p ← parse_sign1 bytes limits;
  hop ← historical_op allowed p;
  if bool_decide (hop = None) && negb (is_allowed allowed (p_alg p)) then
    if ((p_alg p =? COSE_ED25519) || (p_alg p =? COSE_ESP256))%Z
    then Err ErrorCode.UnexpectedHeaderParam else Err ErrorCode.UnknownAlgorithm
  else
  if negb (len (p_signature p) =? 64) then Err ErrorCode.SignatureInvalid else
  _ ← verify_op (default (p_alg p) hop) p expected_issuer external_aad;
  Ok p.

Definition verify_sign1 (bytes : list byte) (expected_issuer : string) (allowed : AllowedAlgs)
    (limits : Limits) : Result ParsedSign1 :=
  verify_sign1_with_aad bytes expected_issuer allowed limits EXTERNAL_AAD.

(** Signing, with the key given by its seed. *)
Definition sign_ed25519_with_aad (payload seed aad : list byte) : list byte :=
  let prot := protected_bytes COSE_ED25519 (ed25519_public seed) in
  let tbs := sig_structure_with_aad prot aad payload in
  encode_canonical (sign1_envelope prot payload (ed25519_sign seed tbs)).

Definition sign_ed25519 (payload seed : list byte) : list byte :=
  sign_ed25519_with_aad payload seed EXTERNAL_AAD.
End cose.

(** * Builders (build.rs) *)

Record CreatedEvent : Set := mkCreatedEvent {
  ce_content : EventContent; ce_canonical : list byte; ce_id : string }.
Record CreatedAttestation : Set := mkCreatedAtt {
  ca_content : AttestationContent; ca_canonical : list byte; ca_id : string; ca_sign1 : list byte }.
Record CreatedEvidence : Set := mkCreatedEvidence {
  cv_content : Evidence; cv_canonical : list byte; cv_id : string }.
Record CreatedRelationship : Set := mkCreatedRel {
  cr_content : Relationship; cr_canonical : list byte; cr_id : string }.
Record SignedStatus : Set := mkSignedStatus {
  ss_content : AttestationContent; ss_sign1 : list byte }.

Section build.
Context `{Base64Url, Sha2, SignatureSchemes}.

Definition create_event (content : EventContent) (limits : Limits) : Result CreatedEvent :=
  if negb (ev_v content =? 1) then Err ErrorCode.UnsupportedVersion else
  value ← event_to_cbor content;
  let canonical := encode_canonical value in
  decoded ← decode_and_check_canonical canonical limits;
  back ← cbor_to_event decoded limits;
  if bool_decide (back ≠ content) then Err ErrorCode.SchemaViolation else
  Ok {| ce_content := content; ce_canonical := canonical; ce_id := event_id canonical |}.

Definition verify_event (canonical : list byte) (expected_id : option string) (limits : Limits)
    : Result (EventContent * string) :=
  value ← decode_and_check_canonical canonical limits;
  content ← cbor_to_event value limits;
  _ ← match expected_id with
      | Some expect => verify_id id_prefix.EVENT expect canonical
      | None => Ok tt
      end;
  Ok (content, event_id canonical).

Definition attest (content : AttestationContent) (seed : list byte) (limits : Limits)
    : Result CreatedAttestation :=
  if negb (att_v content =? 1) then Err ErrorCode.UnsupportedVersion else
  if bool_decide (att_issuer content ≠ key_ref seed) then Err ErrorCode.SchemaViolation else
  let canonical := encode_canonical (attestation_to_cbor content) in
  decoded ← decode_and_check_canonical canonical limits;
  back ← cbor_to_attestation decoded limits;
  if bool_decide (back ≠ content) then Err ErrorCode.SchemaViolation else
  Ok {| ca_content := content; ca_canonical := canonical; ca_id := attestation_id canonical;
        ca_sign1 := sign_ed25519 canonical seed |}.

Definition verify_attestation (sign1 : list byte) (expected_issuer : string)
    (allowed : AllowedAlgs) (limits : Limits) : Result (AttestationContent * string) :=
  parsed ← verify_sign1 sign1 expected_issuer allowed limits;
  value ← decode_and_check_canonical (p_payload parsed) limits;
  content ← cbor_to_attestation value limits;
  if bool_decide (att_issuer content ≠ expected_issuer) then Err ErrorCode.SignatureInvalid else
  Ok (content, attestation_id (p_payload parsed)).

(** A status claim by the holder of [by]. *)
Definition status_content (by_ : list byte) (subject ty : string)
    (fields : list (string * MetaValue)) (issued_at : N) : AttestationContent :=
  {| att_v := 1; att_issuer := key_ref by_; att_subject := subject;
     att_claim := {| claim_type := ty; claim_fields := fields |};
     att_issued_at := issued_at; att_expires_at := None; att_evidence_ref := None |}.

(** The optional [reason] entry of the status builders. *)
Definition reason_field (reason : option string) : Result (list (string * MetaValue)) :=
  match reason with
  | Some r => if sempty r then Err ErrorCode.SchemaViolation else Ok [("reason", MText r)]
  | None => Ok []
  end.

Definition revoke_attestation (target : string) (reason : option string) (by_ : list byte)
    (issued_at : N) (limits : Limits) : Result CreatedAttestation :=
  if sempty target then Err ErrorCode.SchemaViolation else
  reason ← reason_field reason;
  attest (status_content by_ target CLAIM_REVOKE (reason ++ [("target", MText target)]) issued_at)
    by_ limits.

Definition supersede_attestation (old new : string) (by_ : list byte) (issued_at : N)
    (limits : Limits) : Result CreatedAttestation :=
  if sempty old || sempty new then Err ErrorCode.SchemaViolation else
  if bool_decide (old = new) then Err ErrorCode.SchemaViolation else
  attest (status_content by_ old CLAIM_SUPERSEDE [("new", MText new); ("old", MText old)] issued_at)
    by_ limits.

Definition withdraw_attestation (target : string) (reason : option string) (by_ : list byte)
    (issued_at : N) (limits : Limits) : Result CreatedAttestation :=
  if sempty target then Err ErrorCode.SchemaViolation else
  reason ← reason_field reason;
  attest (status_content by_ target CLAIM_WITHDRAW (reason ++ [("target", MText target)]) issued_at)
    by_ limits.

Definition compromise_attestation (target : string) (at_time : N) (reason : option string)
    (by_ : list byte) (issued_at : N) (limits : Limits) : Result CreatedAttestation :=
  if sempty target then Err ErrorCode.SchemaViolation else
  reason ← reason_field reason;
  attest (status_content by_ target CLAIM_COMPROMISE
            (reason ++ [("target", MText target); ("at_time", MUint at_time)]) issued_at)
    by_ limits.

Definition verify_status_object (sign1 : list byte) (expected_issuer : string)
    (allowed : AllowedAlgs) (limits : Limits) : Result AttestationContent :=
  '(content, id) ← verify_attestation sign1 expected_issuer allowed limits;
  if negb (ClaimKind.is_status (claim_kind content)) then Err ErrorCode.SchemaViolation else
  Ok content.

Definition to_signed_status (created : CreatedAttestation) : Result SignedStatus :=
  if negb (ClaimKind.is_status (claim_kind (ca_content created)))
  then Err ErrorCode.SchemaViolation
  else Ok {| ss_content := ca_content created; ss_sign1 := ca_sign1 created |}.

Definition make_evidence (kind : EvidenceKind.t) (digest : HashRef)
    (attestation_ref hint : option string) (limits : Limits) : Result CreatedEvidence :=
  _ ← match attestation_ref with
      | Some r =>
          if sempty r || (1024 <? slen r) then Err ErrorCode.SchemaViolation
          else if negb (starts_with "att:v1:" r) then Err ErrorCode.SchemaViolation else Ok tt
      | None => Ok tt
      end;
  let content := {| evd_v := 1; evd_kind := kind; evd_digest := digest;
                    evd_attestation_ref := attestation_ref; evd_hint := hint |} in
  let canonical := encode_canonical (evidence_to_cbor content) in
  decoded ← decode_and_check_canonical canonical limits;
  back ← cbor_to_evidence decoded limits;
  if bool_decide (back ≠ content) then Err ErrorCode.SchemaViolation else
  Ok {| cv_content := content; cv_canonical := canonical; cv_id := evidence_id canonical |}.

Definition verify_evidence (canonical : list byte) (expected_id : option string) (limits : Limits)
    : Result (Evidence * string) :=
  value ← decode_and_check_canonical canonical limits;
  content ← cbor_to_evidence value limits;
  _ ← match expected_id with
      | Some expect => verify_id id_prefix.EVIDENCE expect canonical
      | None => Ok tt
      end;
  Ok (content, evidence_id canonical).

Definition make_relationship (content : Relationship) (limits : Limits)
    : Result CreatedRelationship :=
  if negb (rel_v content =? 1) then Err ErrorCode.UnsupportedVersion else
  let canonical := encode_canonical (relationship_to_cbor content) in
  decoded ← decode_and_check_canonical canonical limits;
  back ← cbor_to_relationship decoded limits;
  if bool_decide (back ≠ content) then Err ErrorCode.SchemaViolation else
  Ok {| cr_content := content; cr_canonical := canonical; cr_id := relationship_id canonical |}.

Definition verify_relationship (canonical : list byte) (expected_id : option string)
    (limits : Limits) : Result (Relationship * string) :=
  value ← decode_and_check_canonical canonical limits;
  content ← cbor_to_relationship value limits;
  _ ← match expected_id with
      | Some expect => verify_id id_prefix.REL expect canonical
      | None => Ok tt
      end;
  Ok (content, relationship_id canonical).
End build.

(** * Envelopes *)

(** What an accepted protected header says. *)
Lemma parse_protected_Ok prot limits alg kid :
  parse_protected prot limits = Ok (alg, kid) →
  (alg = COSE_ED25519 → len kid = 32) ∧ (alg = COSE_ESP256 → len kid = 64).
Proof.
  unfold parse_protected. intros Hp. apply bind_Ok in Hp as (inner & _ & Hp).
  case_bool_decide; [done|]. apply bind_Ok in Hp as (pairs & _ & Hp).
  destruct (negb (len pairs =? 2)); [done|]. apply bind_Ok in Hp as ([a k] & _ & Hp).
  apply bind_Ok in Hp as (alg' & _ & Hp). apply bind_Ok in Hp as (kid' & _ & Hp).
  destruct ((alg' =? COSE_ED25519)%Z && _) eqn:E1; [done|].
  destruct ((alg' =? COSE_ESP256)%Z && _) eqn:E2; [done|]. simplify_eq.
  split; intros ->; simpl in *; by apply N.eqb_eq, negb_false_iff.
Qed.

(** An accepted envelope is exactly the deterministic encoding of its parts. *)
Lemma parse_sign1_Ok bytes limits p :
  parse_sign1 bytes limits = Ok p →
  bytes = encode_canonical (sign1_envelope (p_protected_raw p) (p_payload p) (p_signature p)) ∧
  parse_protected (p_protected_raw p) limits = Ok (p_alg p, p_kid p).
Proof.
  unfold parse_sign1. destruct (_ <? _); [done|]. intros Hp.
  apply bind_Ok in Hp as (outer & Ho & Hp). case_bool_decide as Hc; [done|].
  destruct outer as [| | | |items| | |]; try done. simpl in Hp.
  destruct items as [|i0 [|i1 [|i2 [|i3 [|]]]]]; try done.
  destruct i0; try done. destruct i1 as [| | | | |[|]| |]; try done. destruct i2; try done. simpl in Hp.
  destruct (_ <? _); [done|]. destruct i3; try done. simpl in Hp. destruct (_ <? _); [done|].
  apply bind_Ok in Hp as ([alg kid] & Hprot & [= <-]). simpl. by rewrite <- Hc.
Qed.

Section cose_properties.
Context `{Base64UrlLaws, Sha2, SignatureSchemes}.

(** The signature of an accepted envelope, as the caller reads it: the key is
    the expected issuer's, and it signed the domain-separated payload. *)
Inductive signed_by (aad : list byte) (allowed : AllowedAlgs) (issuer : string)
    (p : ParsedSign1) : Prop :=
| signed_ed25519 :
    (p_alg p = COSE_ED25519 ∧ alg_ed25519 allowed = true ∨
     p_alg p = (-8)%Z ∧ allow_deprecated allowed = true) →
    issuer = "key:ed25519:" +:+ b64u_nopad (p_kid p) → len (p_kid p) = 32 →
    ed25519_verify (p_kid p)
      (sig_structure_with_aad (p_protected_raw p) aad (p_payload p)) (p_signature p) = true →
    signed_by aad allowed issuer p
| signed_esp256 :
    alg_esp256 allowed = true →
    (p_alg p = COSE_ESP256 ∨ p_alg p = (-7)%Z ∧ allow_deprecated allowed = true) →
    issuer = "key:p256:" +:+ b64u_nopad (p_kid p) → len (p_kid p) = 64 →
    p256_verify (p_kid p)
      (sig_structure_with_aad (p_protected_raw p) aad (p_payload p)) (p_signature p) = true →
    signed_by aad allowed issuer p.

Lemma verify_op_Ok op p issuer aad u :
  verify_op op p issuer aad = Ok u →
  (op = COSE_ED25519 ∧ issuer = "key:ed25519:" +:+ b64u_nopad (p_kid p) ∧ len (p_kid p) = 32 ∧
   ed25519_verify (p_kid p)
     (sig_structure_with_aad (p_protected_raw p) aad (p_payload p)) (p_signature p) = true) ∨
  (op = COSE_ESP256 ∧ issuer = "key:p256:" +:+ b64u_nopad (p_kid p) ∧ len (p_kid p) = 64 ∧
   p256_verify (p_kid p)
     (sig_structure_with_aad (p_protected_raw p) aad (p_payload p)) (p_signature p) = true).
Proof.
  unfold verify_op. destruct (Z.eqb_spec op COSE_ED25519) as [->|_].
  - intros Hv. apply bind_Ok in Hv as (k & [-> Hl]%parse_ed25519_spec & Hv).
    case_bool_decide as Hk; [done|]. subst k.
    destruct (ed25519_vk _); [|done]. destruct (ed25519_verify _ _ _) eqn:E; [|done]. by left.
  - destruct (Z.eqb_spec op COSE_ESP256) as [->|_]; [|done].
    intros Hv. apply bind_Ok in Hv as (k & [-> Hl]%parse_p256_spec & Hv).
    case_bool_decide as Hk; [done|]. subst k.
    destruct (p256_vk _); [|done]. destruct (p256_sig _); [|done].
    destruct (p256_verify _ _ _) eqn:E; [|done]. by right.
Qed.

Lemma verify_sign1_aad_sound bytes issuer allowed limits aad p :
  verify_sign1_with_aad bytes issuer allowed limits aad = Ok p →
  bytes = encode_canonical (sign1_envelope (p_protected_raw p) (p_payload p) (p_signature p)) ∧
  len (p_signature p) = 64 ∧ signed_by aad allowed issuer p.
Proof.
  unfold verify_sign1_with_aad. destruct (_ <? _); [done|]. intros Hv.
  apply bind_Ok in Hv as (p' & [Hb Hprot]%parse_sign1_Ok & Hv).
  apply bind_Ok in Hv as (hop & Hh & Hv).
  destruct (bool_decide (hop = None) && _) eqn:Hal; [by destruct (_ || _)|].
  destruct (len (p_signature p') =? 64) eqn:Hs; [|done]. apply N.eqb_eq in Hs.
  apply bind_Ok in Hv as (u & Hop & [= <-]). split_and!; [done..|].
  unfold historical_op in Hh.
  assert (hop = None ∧ is_deprecated (p_alg p') = false ∧ is_allowed allowed (p_alg p') = true ∨
    hop = Some COSE_ED25519 ∧ p_alg p' = (-8)%Z ∧ allow_deprecated allowed = true ∨
    hop = Some COSE_ESP256 ∧ p_alg p' = (-7)%Z ∧ allow_deprecated allowed = true ∧
      alg_esp256 allowed = true) as Hcase.
  { destruct (is_deprecated (p_alg p')).
    - destruct (allow_deprecated allowed); [|done]. simpl in Hh.
      destruct ((p_alg p' =? -8)%Z && _) eqn:E8.
      { apply andb_true_iff in E8 as [E8%Z.eqb_eq _]. simplify_eq. auto. }
      destruct ((p_alg p' =? -7)%Z && _ && _) eqn:E7; [|by destruct (p_alg p' =? -7)%Z].
      rewrite !andb_true_iff in E7. destruct E7 as [[E7%Z.eqb_eq _] E]. simplify_eq. auto 10.
    - simplify_eq. left. rewrite bool_decide_eq_true_2 in Hal by done. simpl in Hal.
      apply negb_false_iff in Hal. done. }
  destruct Hcase as [(-> & Hdep & Hall)|[(-> & Ha & Hd)|(-> & Ha & Hd & He)]]; simpl in Hop;
    apply verify_op_Ok in Hop as [(Ho & Hi & Hl & Hver)|(Ho & Hi & Hl & Hver)]; simplify_eq.
  - apply signed_ed25519; [|done..]. left. unfold is_allowed in Hall. rewrite Ho in Hall. done.
  - unfold is_allowed in Hall. rewrite Ho in Hall. apply signed_esp256; [done| |done..]. by left.
  - apply signed_ed25519; [|done..]. by right.
  - apply signed_esp256; [done| |done..]. by right.
Qed.

(** What signature verification establishes.  An accepted envelope is
    byte for byte the encoding of its parts, its 64-byte signature verifies
    over the PE1-separated payload under the expected issuer's key, and its
    algorithm is one the verifier enabled (a deprecated id only under the
    historical policy). *)
Theorem verify_sign1_sound bytes issuer allowed limits p
  (Hv : verify_sign1 bytes issuer allowed limits = Ok p) :
  bytes = encode_canonical (sign1_envelope (p_protected_raw p) (p_payload p) (p_signature p)) ∧
  len (p_signature p) = 64 ∧ signed_by EXTERNAL_AAD allowed issuer p.
Proof. by apply verify_sign1_aad_sound in Hv. Qed.
End cose_properties.

(** * Signing, then verifying *)

Definition ed25519_header (kid : list byte) : CborValue :=
  Map [ (Uint 1, Nint (-19)); (Uint 4, Bytes kid) ].

Lemma ed25519_header_facts kid :
  len kid = 32 →
  protected_bytes COSE_ED25519 kid = encode_canonical (ed25519_header kid) ∧
  len (protected_bytes COSE_ED25519 kid) = 38 ∧ sort_maps (ed25519_header kid) = ed25519_header kid.
Proof.
  intros Hk. split_and!; [done| |done].
  unfold protected_bytes, encode_canonical. cbn [Z.leb COSE_ED25519 Z.compare].
  cbn [encode_value map sort_by foldr insert_sorted]. rewrite Hk.
  vm_compute (encode_head _ _). vm_compute (entry_leb _ _). cbn. rewrite !len_cons.
  rewrite len_app, Hk. done.
Qed.

(** Limits under which an Ed25519 envelope can be read back. *)
Definition cose_fits (limits : Limits) (payload : list byte) : bool :=
  limits_wf limits && (64 <=? max_sig_size limits) && (64 <=? max_field_size limits)
  && (len payload <=? max_field_size limits) && (4 <=? max_array_items limits)
  && (2 <=? max_map_entries limits) && (1 <=? max_depth limits) && (38 <=? max_proof_size limits).

Lemma levels_two limits :
  1 <= max_depth limits → ∃ k, Decoder.levels_at_root limits = S (S k).
Proof.
  intros H1. unfold Decoder.levels_at_root. exists (pred (N.to_nat (max_depth limits))). lia.
Qed.

Lemma parse_ed25519_header limits kid payload :
  cose_fits limits payload = true → len kid = 32 →
  parse_protected (protected_bytes COSE_ED25519 kid) limits = Ok (COSE_ED25519, kid).
Proof.
  unfold cose_fits. intros Hf Hk. rewrite !andb_true_iff, !N.leb_le in Hf. destruct_and! Hf.
  destruct (ed25519_header_facts kid Hk) as (Hp & Hl & Hs).
  destruct (levels_two limits) as [k Hlev]; [done|].
  assert (decode_strict (protected_bytes COSE_ED25519 kid) limits = Ok (ed25519_header kid)) as Hd.
  { rewrite Hp, decode_strict_of_encode; [by rewrite Hs|done| |by rewrite <- Hp, Hl].
    rewrite Hlev. cbn [ed25519_header encodable forallb fst snd len length map].
    rewrite Hk. rewrite !andb_true_iff. split_and!; try (apply N.leb_le; done || lia); try done. }
  unfold parse_protected. rewrite Hd. cbn [mbind result_bind].
  rewrite bool_decide_eq_false_2 by (rewrite Hp; by intros []).
  cbn. by rewrite Hk.
Qed.

(** An envelope that fits is read back as its parts. *)
Lemma parse_sign1_envelope limits prot payload sig alg kid :
  cose_fits limits payload = true → len sig = 64 → len prot <= max_field_size limits →
  len (encode_canonical (sign1_envelope prot payload sig)) <= max_proof_size limits →
  parse_protected prot limits = Ok (alg, kid) →
  parse_sign1 (encode_canonical (sign1_envelope prot payload sig)) limits =
    Ok {| p_alg := alg; p_kid := kid; p_payload := payload; p_signature := sig; p_protected_raw := prot |}.
Proof.
  intros Hfit Hsig Hpl Hsize Hprot. unfold cose_fits in Hfit. rewrite !andb_true_iff, !N.leb_le in Hfit.
  destruct_and! Hfit.
  assert (len payload <= len (encode_canonical (sign1_envelope prot payload sig))) as Hpay.
  { unfold encode_canonical. cbn [sign1_envelope encode_value map concat]. rewrite !len_app. lia. }
  unfold parse_sign1. rewrite (proj2 (N.ltb_ge _ _)) by done. rewrite decode_strict_of_encode; [|done| |done].
  - change (sort_maps (sign1_envelope prot payload sig)) with (sign1_envelope prot payload sig).
    cbn [mbind result_bind]. rewrite bool_decide_eq_false_2 by (by intros []).
    cbn [mbind result_bind sign1_envelope]. rewrite (proj2 (N.ltb_ge _ (len payload))) by lia.
    rewrite Hsig, (proj2 (N.ltb_ge _ 64)) by done. by rewrite Hprot.
  - destruct (levels_two limits) as [k ->]; [done|]. cbn [sign1_envelope encodable forallb]. rewrite Hsig.
    rewrite !andb_true_iff. split_and!; try (apply N.leb_le; done || lia); try done.
    apply N.leb_le. unfold len. simpl. lia.
Qed.

Section sign_verify.
Context `{Base64UrlLaws, Sha2Laws, SignatureLaws}.

Definition signed_parts (payload seed : list byte) : ParsedSign1 :=
  let prot := protected_bytes COSE_ED25519 (ed25519_public seed) in
  {| p_alg := COSE_ED25519; p_kid := ed25519_public seed; p_payload := payload;
     p_signature := ed25519_sign seed (sig_structure prot payload); p_protected_raw := prot |}.

Lemma sign_then_verify limits payload seed :
  cose_fits limits payload = true →
  len (sign_ed25519 payload seed) <= max_proof_size limits →
  verify_sign1 (sign_ed25519 payload seed) (key_ref seed) algs_strict limits =
    Ok (signed_parts payload seed).
Proof.
  intros Hfit Hsize. pose proof (ed25519_public_len seed) as Hk.
  pose proof (parse_ed25519_header limits (ed25519_public seed) payload Hfit Hk) as Hprot.
  destruct (ed25519_header_facts _ Hk) as (_ & Hpl & _).
  assert (64 <= max_field_size limits) as Hfield.
  { unfold cose_fits in Hfit. rewrite !andb_true_iff, !N.leb_le in Hfit. by destruct_and! Hfit. }
  set (prot := protected_bytes COSE_ED25519 (ed25519_public seed)) in *.
  set (sig := ed25519_sign seed (sig_structure prot payload)).
  assert (len sig = 64) as Hsig by apply ed25519_sign_len.
  assert (parse_sign1 (sign_ed25519 payload seed) limits = Ok (signed_parts payload seed)) as Hp.
  { apply parse_sign1_envelope; [done|apply ed25519_sign_len|fold prot; lia|exact Hsize|exact Hprot]. }
  unfold verify_sign1, verify_sign1_with_aad. rewrite (proj2 (N.ltb_ge 1024 _)) by done.
  rewrite Hp. cbn [mbind result_bind]. cbn [signed_parts p_alg p_kid p_signature historical_op is_deprecated].
  unfold historical_op, is_deprecated. rewrite bool_decide_eq_false_2 by (unfold DEPRECATED, COSE_ED25519; set_solver).
  cbn [mbind result_bind default]. fold prot sig. rewrite Hsig. cbn.
  unfold verify_op. cbn [Z.eqb COSE_ED25519 Pos.eqb].
  rewrite (proj2 (parse_ed25519_spec (key_ref seed) (ed25519_public seed))) by done.
  cbn [mbind result_bind p_kid p_protected_raw p_payload p_signature signed_parts]. rewrite bool_decide_eq_false_2 by (by intros []).
  rewrite ed25519_public_vk. cbn [negb]. fold prot. fold (sig_structure prot payload).
  by rewrite ed25519_correct.
Qed.
End sign_verify.

(** * Artifacts *)

(** A parsed attestation prints to the bytes it was parsed from. *)
Lemma attestation_reprint bytes v limits a :
  decode_and_check_canonical bytes limits = Ok v → cbor_to_attestation v limits = Ok a →
  attestation_wf limits a = true ∧ bytes = encode_canonical (attestation_to_cbor a).
Proof.
  intros Hd Ha. rewrite (proj1 (recheck_redundant bytes limits)) in Hd.
  apply decode_strict_inv in Hd as (<- & Hs & Henc & _).
  apply cbor_to_attestation_spec in Ha as [Hwf ->]; [|rewrite <- Hs; by eapply encodable_canonical].
  split; [done|]. unfold encode_canonical. by rewrite encode_sort_maps.
Qed.

Section build_properties.
Context `{Base64UrlLaws, Sha2Laws, SignatureLaws}.

(** Sign, then verify.  An envelope made with a key verifies under that
    key's reference with the default algorithm policy, and yields the signed
    payload. *)
Theorem sign_verify_roundtrip limits payload seed
  (Hfit : cose_fits limits payload = true)
  (Hsize : len (sign_ed25519 payload seed) <= max_proof_size limits) :
  verify_sign1 (sign_ed25519 payload seed) (key_ref seed) algs_strict limits =
    Ok (signed_parts payload seed).
Proof. by apply sign_then_verify. Qed.

(** What [attest] returns is well formed, named by its canonical bytes, and
    verifies. *)
Lemma attest_Ok limits content seed created :
  attest content seed limits = Ok created →
  attestation_wf limits content = true ∧ ca_content created = content ∧
  att_issuer content = key_ref seed ∧
  ca_canonical created = encode_canonical (attestation_to_cbor content) ∧
  ca_id created = attestation_id (encode_canonical (attestation_to_cbor content)) ∧
  ca_sign1 created = sign_ed25519 (ca_canonical created) seed.
Proof.
  unfold attest. destruct (negb _); [done|]. case_bool_decide as Hiss; [done|]. intros Ha.
  apply bind_Ok in Ha as (decoded & Hd & Ha). apply bind_Ok in Ha as (back & Hb & Ha).
  case_bool_decide as Hback; [done|]. injection Ha as <-. subst back.
  by destruct (attestation_reprint _ _ _ _ Hd Hb) as [Hwf _].
Qed.

Lemma attest_verifies limits content seed created :
  attest content seed limits = Ok created →
  cose_fits limits (ca_canonical created) = true →
  len (ca_sign1 created) <= max_proof_size limits →
  verify_attestation (ca_sign1 created) (key_ref seed) algs_strict limits =
    Ok (content, ca_id created).
Proof.
  intros Ha Hfit Hsize. unfold attest in Ha. cbn zeta in Ha.
  generalize dependent (encode_canonical (attestation_to_cbor content)). intros canon Ha.
  destruct (negb _); [done|]. case_bool_decide as Hiss; [done|].
  apply bind_Ok in Ha as (decoded & Hd & Ha). apply bind_Ok in Ha as (back & Hb & Ha).
  case_bool_decide as Hback; [done|]. injection Ha as <-. subst back. cbn [ca_canonical ca_sign1 ca_id] in *.
  unfold verify_attestation. rewrite sign_then_verify by done.
  cbn [mbind result_bind signed_parts p_payload]. rewrite Hd. cbn [mbind result_bind].
  rewrite Hb. cbn [mbind result_bind]. rewrite bool_decide_eq_false_2; [done|]. intros Hn. by apply Hn.
Qed.

(** Attest, then verify.  Every attestation the builder produces, whose
    envelope fits the limits, verifies to the same content and the same id. *)
Theorem attest_verify_roundtrip limits content seed created
  (Ha : attest content seed limits = Ok created)
  (Hfit : cose_fits limits (ca_canonical created) = true)
  (Hsize : len (ca_sign1 created) <= max_proof_size limits) :
  verify_attestation (ca_sign1 created) (key_ref seed) algs_strict limits =
    Ok (content, ca_id created).
Proof. by apply (attest_verifies _ _ seed). Qed.

(** C35: what attestation verification establishes.  The returned content is
    well formed and issued by the expected issuer; its canonical bytes are
    the signed payload; the returned id is the id of those bytes; and the
    envelope carries a valid signature of the issuer over them. *)
Theorem verify_attestation_sound sign1 issuer allowed limits a id
  (Hv : verify_attestation sign1 issuer allowed limits = Ok (a, id)) :
  attestation_wf limits a = true ∧ att_issuer a = issuer ∧
  id = attestation_id (encode_canonical (attestation_to_cbor a)) ∧
  ∃ p, p_payload p = encode_canonical (attestation_to_cbor a) ∧
       signed_by EXTERNAL_AAD allowed issuer p ∧
       sign1 = encode_canonical (sign1_envelope (p_protected_raw p) (p_payload p) (p_signature p)).
Proof.
  unfold verify_attestation in Hv. apply bind_Ok in Hv as (p & Hp & Hv).
  apply bind_Ok in Hv as (v & Hd & Hv). apply bind_Ok in Hv as (c & Hc & Hv).
  case_bool_decide as Hiss; [done|]. simplify_eq.
  destruct (attestation_reprint _ _ _ _ Hd Hc) as [Hwf Hpay].
  apply verify_sign1_aad_sound in Hp as (Hb & _ & Hs).
  split_and!; [done|done|by rewrite <- Hpay|]. exists p. by rewrite <- Hpay.
Qed.

(** The builders accept exactly the well-formed objects that fit the limits. *)
Lemma create_event_Ok limits e created :
  create_event e limits = Ok created →
  event_wf limits e = true ∧ ce_content created = e ∧
  ce_canonical created = encode_canonical (event_cbor e) ∧
  ce_id created = event_id (encode_canonical (event_cbor e)).
Proof.
  unfold create_event. destruct (negb _); [done|]. intros Hc.
  apply bind_Ok in Hc as (w & [Hv ->]%event_to_cbor_Ok & Hc).
  apply bind_Ok in Hc as (decoded & Hd & Hc). apply bind_Ok in Hc as (back & Hb & Hc).
  case_bool_decide as Hback; [done|]. injection Hc as <-. subst back.
  rewrite (proj1 (recheck_redundant _ _)) in Hd.
  apply decode_strict_inv in Hd as (Hen & Hs & Henc & _).
  apply cbor_to_event_spec' in Hb as [Hwf _]; [done|rewrite <- Hs; by eapply encodable_canonical].
Qed.

(** An event builder only names well-formed events, and what it builds
    verifies: the canonical bytes check against the assigned id and parse back
    to the event. *)
Theorem create_event_verifies limits e created (Hc : create_event e limits = Ok created) :
  event_wf limits e = true ∧
  verify_event (ce_canonical created) (Some (ce_id created)) limits = Ok (e, ce_id created).
Proof.
  split; [by apply create_event_Ok in Hc as [? _]|].
  unfold create_event in Hc. destruct (negb _); [done|].
  apply bind_Ok in Hc as (w & _ & Hc). cbn zeta in Hc.
  generalize dependent (encode_canonical w). intros canon Hc.
  apply bind_Ok in Hc as (decoded & Hd & Hc). apply bind_Ok in Hc as (back & Hb & Hc).
  case_bool_decide as Hback; [done|]. injection Hc as <-. subst back. cbn [ce_canonical ce_id].
  unfold verify_event. rewrite Hd. cbn [mbind result_bind]. rewrite Hb. cbn [mbind result_bind].
  by rewrite (proj2 (verify_id_spec id_prefix.EVENT (event_id canon) canon) eq_refl).
Qed.

(** Every attestation built carries the content it was asked to sign. *)
Lemma attest_content c by_ limits created :
  attest c by_ limits = Ok created → ca_content created = c.
Proof. intros Ha. by apply attest_Ok in Ha as (_ & ? & _). Qed.

(** The optional reason entry hides no other field. *)
Lemma reason_field_skip reason l key rest :
  reason_field reason = Ok l → key ≠ "reason" →
  find_text (l ++ rest) key = find_text rest key ∧ find_uint (l ++ rest) key = find_uint rest key.
Proof.
  intros Hl Hne. destruct reason as [r|]; simpl in Hl; [|by simplify_eq].
  destruct (sempty r); simplify_eq. cbn [app find_text find_uint].
  by rewrite bool_decide_eq_false_2.
Qed.
Lemma reason_target reason l target rest :
  reason_field reason = Ok l →
  find_text (l ++ ("target", MText target) :: rest) "target" = Some target.
Proof. intros Hl. by rewrite (proj1 (reason_field_skip _ _ "target" _ Hl ltac:(done))). Qed.

(** Unfold a status builder down to the content it signs. *)
Ltac open_builder Hr :=
  apply attest_content in Hr as ->; unfold require_text, claim_text;
  rewrite bool_decide_eq_false_2 by (by intros []);
  cbn [att_claim claim_fields status_content].

Lemma revoke_reads_back limits by_ issued_at created target reason :
  starts_with "att:v1:" target = true →
  revoke_attestation target reason by_ issued_at limits = Ok created →
  revocation_target (ca_content created) = Ok target.
Proof.
  unfold revoke_attestation, revocation_target. intros Ht Hr.
  destruct (sempty target) eqn:He; [done|]. apply bind_Ok in Hr as (l & Hl & Hr).
  open_builder Hr. rewrite (reason_target _ _ _ _ Hl). simpl. by rewrite He, Ht.
Qed.

Lemma withdraw_reads_back limits by_ issued_at created target reason :
  starts_with "evd:v1:" target = true →
  withdraw_attestation target reason by_ issued_at limits = Ok created →
  withdrawal_target (ca_content created) = Ok target.
Proof.
  unfold withdraw_attestation, withdrawal_target. intros Ht Hr.
  destruct (sempty target) eqn:He; [done|]. apply bind_Ok in Hr as (l & Hl & Hr).
  open_builder Hr. rewrite (reason_target _ _ _ _ Hl). cbn [ok_or mbind result_bind].
  rewrite He. apply starts_with_spec in Ht as [s ->]. reflexivity.
Qed.

Lemma supersede_reads_back limits by_ issued_at created old new :
  starts_with "att:v1:" old = true → starts_with "att:v1:" new = true →
  supersede_attestation old new by_ issued_at limits = Ok created →
  supersession_pair (ca_content created) = Ok (old, new).
Proof.
  unfold supersede_attestation, supersession_pair. intros Ho Hn Hr.
  destruct (sempty old || sempty new) eqn:He; [done|]. case_bool_decide as Hon; [done|].
  open_builder Hr.
  change (find_text [("new", MText new); ("old", MText old)] "old") with (Some old).
  change (find_text [("new", MText new); ("old", MText old)] "new") with (Some new).
  cbn [ok_or mbind result_bind]. rewrite He, bool_decide_eq_false_2 by done. by rewrite Ho, Hn.
Qed.

Lemma compromise_reads_back limits by_ issued_at created target at_time reason :
  starts_with "key:" target = true →
  compromise_attestation target at_time reason by_ issued_at limits = Ok created →
  compromise_mark (ca_content created) = Ok (target, at_time).
Proof.
  unfold compromise_attestation, compromise_mark. intros Ht Hr.
  destruct (sempty target) eqn:He; [done|]. apply bind_Ok in Hr as (l & Hl & Hr).
  open_builder Hr. rewrite (reason_target _ _ _ _ Hl).
  rewrite (proj2 (reason_field_skip _ _ "at_time" _ Hl ltac:(done))).
  cbn [ok_or mbind result_bind]. rewrite He, Ht. reflexivity.
Qed.

(** The status builders round-trip the lifecycle claim they encode: the
    extractor of each kind reads back from the signed content the target (and
    successor, or compromise time) the builder was given. *)
Theorem status_builders_read_back limits by_ issued_at created :
  (∀ target reason, starts_with "att:v1:" target = true →
     revoke_attestation target reason by_ issued_at limits = Ok created →
     revocation_target (ca_content created) = Ok target) ∧
  (∀ old new, starts_with "att:v1:" old = true → starts_with "att:v1:" new = true →
     supersede_attestation old new by_ issued_at limits = Ok created →
     supersession_pair (ca_content created) = Ok (old, new)) ∧
  (∀ target reason, starts_with "evd:v1:" target = true →
     withdraw_attestation target reason by_ issued_at limits = Ok created →
     withdrawal_target (ca_content created) = Ok target) ∧
  (∀ target at_time reason, starts_with "key:" target = true →
     compromise_attestation target at_time reason by_ issued_at limits = Ok created →
     compromise_mark (ca_content created) = Ok (target, at_time)).
Proof.
  split_and!; intros;
  [by eapply revoke_reads_back|by eapply supersede_reads_back|by eapply withdraw_reads_back
  |by eapply compromise_reads_back].
Qed.
End build_properties.

Module CoseSamples.
Import Toy.
Definition seed : list byte := repeat Byte.x09 32.
Definition content : AttestationContent := {|
  att_v := 1; att_issuer := key_ref seed; att_subject := "evt:v1:00";
  att_claim := {| claim_type := "observed"; claim_fields := [("order", MText "ord-1")] |};
  att_issued_at := 100; att_expires_at := Some 200; att_evidence_ref := None |}.
Definition created : CreatedAttestation :=
  match attest content seed default_limits with
  | Ok c => c
  | Err _ => mkCreatedAtt content [] "" []
  end.
Definition revoked : CreatedAttestation :=
  match revoke_attestation "att:v1:00" (Some "lost") seed 300 default_limits with
  | Ok c => c
  | Err _ => mkCreatedAtt content [] "" []
  end.
Definition event_created : CreatedEvent :=
  match create_event SchemaSamples.event default_limits with
  | Ok c => c
  | Err _ => mkCreatedEvent SchemaSamples.event [] ""
  end.
End CoseSamples.

Section cose_witnesses.
Import Toy CoseSamples.

Lemma verify_attestation_sound_witness :
  attestation_wf default_limits content = true ∧ att_issuer content = key_ref seed.
Proof.
  destruct (verify_attestation_sound (ca_sign1 created) (key_ref seed) algs_strict default_limits
    content (ca_id created)) as (Hwf & Hi & _); [vm_compute; reflexivity|].
  exact (conj Hwf Hi).
Defined.

End cose_witnesses.
