(* ===== verification/Ecdsa.v ===== *)
(** Ecdsa: signing with P-256, [crates/proof-crypto/src/keys.rs] ([P256Key]) and the
    ESP256 half of [crates/proof-crypto/src/cose.rs].

    A signing key is the seed it was loaded from.  [sign_esp256] takes the key
    that is named in the header and the key that signs apart, as the source does.

    The theorems: an envelope signed with the key it names verifies under that
    key's reference exactly when the verifier enabled ESP256, for every agreed
    domain. *)
From Stdlib Require Import Strings.Byte NArith ZArith Lia.
From S2P Require Import Prelude Core External Cbor Schema Ident Claim Cose.

(** * The signing half of [p256] *)

(** Whether a seed is a scalar of the curve, the coordinates of its public point,
    and signatures in their fixed-size form. *)
Class P256Signer := {
  p256_scalar : list byte → bool;
  p256_x : list byte → option (list byte);
  p256_y : list byte → option (list byte);
  p256_sign : list byte → list byte → list byte;
}.
(** The public point of a scalar has two coordinates of 32 bytes and loads as a
    key; a signature has 64 bytes, parses, and verifies under the key that made it. *)
Class P256Laws `{SignatureSchemes, P256Signer} : Prop := {
  p256_coordinates seed : p256_scalar seed = true →
    ∃ x y, p256_x seed = Some x ∧ p256_y seed = Some y ∧ len x = 32 ∧ len y = 32 ∧ p256_vk (x ++ y) = true ∧
      ∀ m, p256_verify (x ++ y) m (p256_sign seed m) = true;
  p256_sign_len seed m : len (p256_sign seed m) = 64;
  p256_sign_parses seed m : p256_sig (p256_sign seed m) = true;
}.

(** * Keys and envelopes *)

Section esp256.
Context `{Base64Url, P256Signer}.

Record P256Key : Set := mkP256 { pk_signing : list byte }.
Definition P256Key_from_seed (seed : list byte) : Result P256Key :=
  if p256_scalar seed then Ok (mkP256 seed) else Err ErrorCode.Malformed.
Definition pubkey_xy (key : P256Key) : Result (list byte) :=
  x ← ok_or (p256_x (pk_signing key)) ErrorCode.Malformed;
  y ← ok_or (p256_y (pk_signing key)) ErrorCode.Malformed;
  if negb (len x =? 32) || negb (len y =? 32) then Err ErrorCode.Malformed else
  Ok (x ++ y).
Definition p256_key_ref (key : P256Key) : Result string :=
  xy ← pubkey_xy key;
  Ok ("key:p256:" +:+ b64u_nopad xy).

Definition sign_esp256_with_aad (payload : list byte) (key : P256Key) (signing_key aad : list byte)
    : Result (list byte) :=
  kid ← pubkey_xy key;
  let prot := protected_bytes COSE_ESP256 kid in
  let tbs := sig_structure_with_aad prot aad payload in
  Ok (encode_canonical (sign1_envelope prot payload (p256_sign signing_key tbs))).
Definition sign_esp256 (payload : list byte) (key : P256Key) (signing_key : list byte) : Result (list byte) :=
  sign_esp256_with_aad payload key signing_key EXTERNAL_AAD.
End esp256.

(** * Signing, then verifying *)

Definition esp256_header (kid : list byte) : CborValue := Map [ (Uint 1, Nint (-9)); (Uint 4, Bytes kid) ].

Lemma esp256_header_facts kid :
  len kid = 64 →
  protected_bytes COSE_ESP256 kid = encode_canonical (esp256_header kid) ∧
  len (protected_bytes COSE_ESP256 kid) = 70 ∧ sort_maps (esp256_header kid) = esp256_header kid.
Proof.
  intros Hk. split_and!; [done| |done].
  unfold protected_bytes, encode_canonical. cbn [Z.leb COSE_ESP256 Z.compare].
  cbn [encode_value map sort_by foldr insert_sorted]. rewrite Hk.
  vm_compute (encode_head _ _). vm_compute (entry_leb _ _). cbn. rewrite !len_cons.
  rewrite len_app, Hk. done.
Qed.

(** Limits under which an ESP256 envelope can be read back: its header is longer
    than that of Ed25519. *)
Definition esp256_fits (limits : Limits) (payload : list byte) : bool :=
  cose_fits limits payload && (70 <=? max_field_size limits) && (70 <=? max_proof_size limits).

Lemma parse_esp256_header limits kid payload :
  esp256_fits limits payload = true → len kid = 64 →
  parse_protected (protected_bytes COSE_ESP256 kid) limits = Ok (COSE_ESP256, kid).
Proof.
  unfold esp256_fits, cose_fits. intros Hf Hk. rewrite !andb_true_iff, !N.leb_le in Hf. destruct_and! Hf.
  destruct (esp256_header_facts kid Hk) as (Hp & Hl & Hs).
  destruct (levels_two limits) as [k Hlev]; [done|].
  assert (decode_strict (protected_bytes COSE_ESP256 kid) limits = Ok (esp256_header kid)) as Hd.
  { rewrite Hp, decode_strict_of_encode; [by rewrite Hs|done| |by rewrite <- Hp, Hl].
    rewrite Hlev. cbn [esp256_header encodable forallb fst snd len length map].
    rewrite Hk. rewrite !andb_true_iff. split_and!; try (apply N.leb_le; done || lia); try done. }
  unfold parse_protected. rewrite Hd. cbn [mbind result_bind].
  rewrite bool_decide_eq_false_2 by (rewrite Hp; by intros []).
  cbn. by rewrite Hk.
Qed.

Section sign_verify.
Context `{Base64UrlLaws, Sha2, P256Laws}.

(** The parts of an ESP256 envelope. *)
Definition esp256_parts (payload kid seed aad : list byte) : ParsedSign1 :=
  let prot := protected_bytes COSE_ESP256 kid in
  {| p_alg := COSE_ESP256; p_kid := kid; p_payload := payload;
     p_signature := p256_sign seed (sig_structure_with_aad prot aad payload); p_protected_raw := prot |}.

Lemma esp256_parses limits payload kid seed aad :
  esp256_fits limits payload = true → len kid = 64 →
  let p := esp256_parts payload kid seed aad in
  let bytes := encode_canonical (sign1_envelope (p_protected_raw p) payload (p_signature p)) in
  len bytes <= max_proof_size limits → parse_sign1 bytes limits = Ok p.
Proof.
  intros Hf Hk p bytes Hsize. destruct (esp256_header_facts kid Hk) as (_ & Hl & _).
  pose proof (parse_esp256_header limits kid payload Hf Hk) as Hprot.
  unfold esp256_fits in Hf. rewrite !andb_true_iff, !N.leb_le in Hf. destruct Hf as [[Hf Hfield] _].
  unfold bytes, p. apply parse_sign1_envelope; [done|apply p256_sign_len| |exact Hsize|exact Hprot].
  cbn [p_protected_raw esp256_parts]. by rewrite Hl.
Qed.

(** Sign with a loaded key, then verify.  Under the agreed domain the envelope
    verifies with the reference of the key and gives the payload back when the
    verifier enabled ESP256, and is refused as disabled otherwise. *)
Theorem esp256_roundtrip limits payload seed aad allowed key issuer bytes
  (Hkey : P256Key_from_seed seed = Ok key) (Href : p256_key_ref key = Ok issuer)
  (Hsign : sign_esp256_with_aad payload key (pk_signing key) aad = Ok bytes)
  (Hfit : esp256_fits limits payload = true) (Hsize : len bytes <= max_proof_size limits) (Haad : len aad <= 1024) :
  ∃ kid, issuer = "key:p256:" +:+ b64u_nopad kid ∧
    verify_sign1_with_aad bytes issuer allowed limits aad =
      if alg_esp256 allowed then Ok (esp256_parts payload kid seed aad) else Err ErrorCode.UnexpectedHeaderParam.
Proof.
  unfold P256Key_from_seed in Hkey. destruct (p256_scalar seed) eqn:Hs; [|done]. injection Hkey as <-.
  destruct (p256_coordinates seed Hs) as (x & y & Hx & Hy & Hlx & Hly & Hvk & Hver).
  assert (pubkey_xy (mkP256 seed) = Ok (x ++ y)) as Hxy.
  { unfold pubkey_xy. cbn [pk_signing]. rewrite Hx, Hy. cbn [ok_or mbind result_bind]. by rewrite Hlx, Hly. }
  unfold p256_key_ref in Href. unfold sign_esp256_with_aad in Hsign. rewrite Hxy in Href, Hsign.
  cbn [mbind result_bind pk_signing] in Href, Hsign. cbv zeta in Hsign. injection Href as <-.
  match type of Hsign with Ok ?b = _ => assert (bytes = b) as -> by congruence end. clear Hsign. exists (x ++ y). split; [done|].
  assert (len (x ++ y) = 64) as Hk by (rewrite len_app, Hlx, Hly; done).
  pose proof (esp256_parses limits payload (x ++ y) seed aad Hfit Hk Hsize) as Hp. cbn zeta in Hp.
  unfold verify_sign1_with_aad. rewrite (proj2 (N.ltb_ge 1024 _)) by done.
  cbn [p_protected_raw p_signature esp256_parts pk_signing] in Hp |- *. rewrite Hp. cbn [mbind result_bind].
  unfold historical_op, is_deprecated. cbn [p_alg esp256_parts].
  rewrite bool_decide_eq_false_2 by (unfold DEPRECATED, COSE_ESP256; set_solver).
  cbn [mbind result_bind default]. rewrite bool_decide_eq_true_2 by done. unfold is_allowed. cbn [Z.eqb COSE_ESP256 COSE_ED25519 Pos.eqb].
  destruct (alg_esp256 allowed); [|done]. cbn [andb negb p_signature esp256_parts]. rewrite p256_sign_len. cbn [N.eqb negb Pos.eqb].
  unfold verify_op. cbn [Z.eqb COSE_ED25519 COSE_ESP256 Pos.eqb].
  rewrite (proj2 (parse_p256_spec _ (x ++ y))) by done. cbn [mbind result_bind p_kid p_signature p_protected_raw p_payload esp256_parts].
  rewrite bool_decide_eq_false_2 by (by intros []). rewrite Hvk, p256_sign_parses, Hver. done.
Qed.
End sign_verify.

(** * A sample key *)

Module EcdsaSamples.
Import Toy.
#[export] Instance signer : P256Signer := {|
  p256_scalar seed := negb (bool_decide (seed = []));
  p256_x seed := Some (pad 32 seed); p256_y seed := Some (pad 32 []);
  p256_sign seed m := toy_sig (pad 32 seed ++ pad 32 []) m |}.
#[export] Instance p256_laws : P256Laws.
Proof.
  split.
  - intros seed _. exists (pad 32 seed), (pad 32 []). unfold len. rewrite !pad_len.
    split_and!; [done..|]. intros m. by apply bool_decide_eq_true_2.
  - intros. unfold len. cbn [p256_sign signer]. unfold toy_sig. by rewrite pad_len.
  - done.
Qed.
Definition key : P256Key := mkP256 [Byte.x07].
Definition payload : list byte := [Byte.x01; Byte.x02].
(** The result of signing with a seed under the name of [key], and verifying. *)
Definition checked (seed : list byte) (allowed : AllowedAlgs) : Result (list byte) :=
  issuer ← p256_key_ref key;
  bytes ← sign_esp256 payload key seed;
  p ← verify_sign1 bytes issuer allowed default_limits;
  Ok (p_payload p).

(** The key that signs must be the one that is named: nothing relates the two
    arguments of the signer before the envelope is verified. *)
Example esp256_samples :
  checked [Byte.x07] (with_esp256 algs_strict) = Ok payload ∧
  checked [Byte.x07] algs_strict = Err ErrorCode.UnexpectedHeaderParam ∧
  checked [Byte.x08] (with_esp256 algs_strict) = Err ErrorCode.SignatureInvalid.
Proof. vm_compute. split_and!; reflexivity. Qed.
(** The hypotheses of the round trip hold of the sample. *)
Example esp256_roundtrip_sample : ∃ bytes kid,
  verify_sign1_with_aad bytes ("key:p256:" +:+ b64u_nopad kid) (with_esp256 algs_strict) default_limits [] =
  Ok (esp256_parts payload kid [Byte.x07] []).
Proof.
  destruct (sign_esp256_with_aad payload key (pk_signing key) []) as [bytes|e] eqn:Hb; [|by vm_compute in Hb].
  destruct (p256_key_ref key) as [issuer|e] eqn:Hi; [|by vm_compute in Hi].
  destruct (esp256_roundtrip default_limits payload [Byte.x07] [] (with_esp256 algs_strict) key issuer bytes)
    as (kid & -> & Hv); [done|done|done|vm_compute; reflexivity| |done|by exists bytes, kid].
  vm_compute in Hb. injection Hb as <-. vm_compute. discriminate.
Qed.
End EcdsaSamples.
