(* ===== verification/Report.v ===== *)
(** Report: the verification report of [crates/proof-verify/src/report.rs].

    Three outcomes that are never collapsed (cryptographic validity, evidence
    validity, policy decision), the per-stage check records they derive from,
    the lifecycle, evidence and conflict records, and the per-dimension
    projection.  A check record keeps its machine-readable part (stage, object,
    outcome, code); the human text is dropped, as in [ProofError].  The evidence
    records keep their message, which the currency test of the API reads. *)
From Stdlib Require Import Strings.Byte NArith Lia.
From S2P Require Import Prelude Core.

Module Validity.
Inductive t : Set := Valid | Invalid.
#[global] Instance eq_dec : EqDecision t.
Proof. solve_decision. Defined.
End Validity.

Module PolicyDecision.
Inductive t : Set := Pass | Fail | Indeterminate.
#[global] Instance eq_dec : EqDecision t.
Proof. solve_decision. Defined.
Definition as_str (d : t) : string :=
  match d with Pass => "pass" | Fail => "fail" | Indeterminate => "indeterminate" end.
End PolicyDecision.

(** * Records *)

Record CheckRecord : Set := mkCheck {
  chk_stage : string;
  chk_object : string;
  chk_ok : bool;
  chk_code : option ErrorCode.t;
}.
#[global] Instance CheckRecord_eq_dec : EqDecision CheckRecord.
Proof. solve_decision. Defined.

(** [CheckRecord::ok], [CheckRecord::fail] and [CheckRecord::note]. *)
Definition check_ok (stage object : string) : CheckRecord :=
  {| chk_stage := stage; chk_object := object; chk_ok := true; chk_code := None |}.
Definition check_fail (stage object : string) (code : ErrorCode.t) : CheckRecord :=
  {| chk_stage := stage; chk_object := object; chk_ok := false; chk_code := Some code |}.
Definition check_note (stage object : string) : CheckRecord :=
  {| chk_stage := stage; chk_object := object; chk_ok := true; chk_code := None |}.

Record LifecycleRecord : Set := mkLifecycle {
  lc_object : string;
  lc_status : LifecycleStatus.t;
  lc_code : option ErrorCode.t;
}.

Record EvidenceStatusRecord : Set := mkEvidenceStatus {
  es_object : string;
  es_status : EvidenceStatus.t;
  es_code : option ErrorCode.t;
  es_message : string;
}.

Module ConflictKind.
Inductive t : Set := DivergentClaims | Denial | Contradiction.
#[global] Instance eq_dec : EqDecision t.
Proof. solve_decision. Defined.
Definition as_str (k : t) : string :=
  match k with
  | DivergentClaims => "divergent_claims"
  | Denial => "denial"
  | Contradiction => "contradiction"
  end.
End ConflictKind.

Record ConflictRecord : Set := mkConflict {
  cf_kind : ConflictKind.t;
  cf_claim_type : string;
  cf_subject : string;
  cf_attestation_ids : list string;
}.

Record VerifyReport : Set := mkReport {
  vr_proof_id : option string;
  cryptographic_validity : Validity.t;
  evidence_validity : Validity.t;
  policy_decision : PolicyDecision.t;
  lifecycle_checked : bool;
  vr_lifecycle : list LifecycleRecord;
  vr_status_objects : list string;
  vr_withdrawn_ids : list string;
  vr_referenced_proofs : list string;
  vr_vocabularies : list VocabularyDecl;
  vr_evidence_status : list EvidenceStatusRecord;
  vr_conflicts : list ConflictRecord;
  vr_checks : list CheckRecord;
  status_inputs_valid : bool;
}.

Definition failure_codes (r : VerifyReport) : list ErrorCode.t :=
  omap chk_code (List.filter (λ c, negb (chk_ok c)) (vr_checks r)).

Definition passed_crypto (r : VerifyReport) : bool :=
  bool_decide (cryptographic_validity r = Validity.Valid).

(** * Dimensions *)

Module Dimension.
Inductive t : Set :=
| Structural | Cryptographic | Evidence | Provenance | Temporal | Revocation | Policy | Overall.
#[global] Instance eq_dec : EqDecision t.
Proof. solve_decision. Defined.
Definition as_str (d : t) : string :=
  match d with
  | Structural => "structural" | Cryptographic => "cryptographic" | Evidence => "evidence"
  | Provenance => "provenance" | Temporal => "temporal" | Revocation => "revocation"
  | Policy => "policy" | Overall => "overall"
  end.
End Dimension.

Module Verdict.
Inductive t : Set := Valid | Invalid | Indeterminate | NotApplicable.
#[global] Instance eq_dec : EqDecision t.
Proof. solve_decision. Defined.
Definition as_str (v : t) : string :=
  match v with
  | Valid => "valid" | Invalid => "invalid" | Indeterminate => "indeterminate"
  | NotApplicable => "not_applicable"
  end.
End Verdict.

(** The records of some stages. *)
Definition in_stages (stages : list string) (c : CheckRecord) : bool :=
  bool_decide (chk_stage c ∈ stages).

Definition verdict_for (checks : list CheckRecord) (stages : list string) (empty_ok : bool)
    (empty_verdict : Verdict.t) : Verdict.t :=
  let relevant := List.filter (in_stages stages) checks in
  if len relevant =? 0 then if empty_ok then Verdict.Valid else empty_verdict
  else if existsb (λ c, negb (chk_ok c)) relevant then Verdict.Invalid else Verdict.Valid.

Definition evidence_verdict (r : VerifyReport) : Verdict.t :=
  match evidence_validity r with
  | Validity.Valid => Verdict.Valid
  | Validity.Invalid =>
      if negb (lifecycle_checked r) then Verdict.Indeterminate else Verdict.Invalid
  end.

Definition provenance_verdict (r : VerifyReport) : Verdict.t :=
  if negb (lifecycle_checked r) then Verdict.Indeterminate else
  let rel := List.filter (in_stages ["RELATIONSHIPS"; "GRAPH"]) (vr_checks r) in
  if len rel =? 0 then Verdict.NotApplicable
  else if existsb (λ c, negb (chk_ok c)) rel then Verdict.Invalid else Verdict.Valid.

Definition policy_verdict (r : VerifyReport) : Verdict.t :=
  match policy_decision r with
  | PolicyDecision.Pass => Verdict.Valid
  | PolicyDecision.Fail => Verdict.Invalid
  | PolicyDecision.Indeterminate => Verdict.Indeterminate
  end.

Definition structural_verdict (r : VerifyReport) : Verdict.t :=
  verdict_for (vr_checks r) ["PARSE"; "SCHEMA"; "CANONICAL"] false Verdict.Indeterminate.
Definition cryptographic_verdict (r : VerifyReport) : Verdict.t :=
  verdict_for (vr_checks r) ["IDENTIFIERS"; "SIGNATURES"; "KEYS"] false Verdict.Indeterminate.
Definition temporal_verdict (r : VerifyReport) : Verdict.t :=
  verdict_for (vr_checks r) ["TIME"] false Verdict.Indeterminate.
Definition revocation_verdict (r : VerifyReport) : Verdict.t :=
  verdict_for (vr_checks r) ["REVOCATION"] false Verdict.Indeterminate.

(** Any INVALID wins; then any INDETERMINATE, provenance apart. *)
Definition overall_verdict (r : VerifyReport) : Verdict.t :=
  if bool_decide (Verdict.Invalid ∈
       [structural_verdict r; cryptographic_verdict r; evidence_verdict r; provenance_verdict r;
        temporal_verdict r; revocation_verdict r; policy_verdict r])
  then Verdict.Invalid
  else if bool_decide (Verdict.Indeterminate ∈
       [structural_verdict r; cryptographic_verdict r; evidence_verdict r; temporal_verdict r;
        revocation_verdict r; policy_verdict r])
  then Verdict.Indeterminate
  else Verdict.Valid.

Definition dimensions (r : VerifyReport) : list (Dimension.t * Verdict.t) :=
  [ (Dimension.Structural, structural_verdict r);
    (Dimension.Cryptographic, cryptographic_verdict r);
    (Dimension.Evidence, evidence_verdict r);
    (Dimension.Provenance, provenance_verdict r);
    (Dimension.Temporal, temporal_verdict r);
    (Dimension.Revocation, revocation_verdict r);
    (Dimension.Policy, policy_verdict r);
    (Dimension.Overall, overall_verdict r) ].

(** * Reading verdicts *)

(** A stage group fails exactly on a failed record of one of its stages. *)
Lemma verdict_for_Invalid checks stages empty_ok v :
  v ≠ Verdict.Invalid →
  verdict_for checks stages empty_ok v = Verdict.Invalid ↔
  ∃ c, c ∈ checks ∧ chk_ok c = false ∧ chk_stage c ∈ stages.
Proof.
  intros Hv. unfold verdict_for.
  assert (∀ c, c ∈ List.filter (in_stages stages) checks ↔ c ∈ checks ∧ chk_stage c ∈ stages) as Hf.
  { intros c. rewrite list_elem_of_In, filter_In, <- list_elem_of_In. unfold in_stages. by rewrite bool_decide_eq_true. }
  destruct (N.eqb_spec (len (List.filter (in_stages stages) checks)) 0) as [Hz|Hz].
  - split; [by destruct empty_ok|]. intros (c & Hc & _ & Hs).
    pose proof (proj2 (Hf c) (conj Hc Hs)) as Hin.
    destruct (List.filter (in_stages stages) checks) as [|? l]; [by apply elem_of_nil in Hin|].
    rewrite len_cons in Hz. lia.
  - destruct (existsb _ _) eqn:E.
    + split; [intros _|done]. apply existsb_true in E as (c & Hc & Ho).
      apply Hf in Hc as [Hc Hs]. exists c. by rewrite negb_true_iff in Ho.
    + split; [done|]. intros (c & Hc & Ho & Hs). exfalso.
      pose proof (proj1 (existsb_false _ _) E c (proj2 (Hf c) (conj Hc Hs))) as Hno.
      simpl in Hno. by rewrite Ho in Hno.
Qed.

