(* ===== verification/Pipeline.v ===== *)
(** Pipeline: the staged verifier of [crates/proof-verify/src/pipeline.rs].

    [verify_proof] is translated stage by stage, in the order of the source:
    each stage is a function from the verifier inputs and what the earlier
    stages established to the check records it pushes and the values the later
    stages read.  The records are appended in push order.  [Result] is the
    caller-misuse channel of the source ([Err] never reports a bad proof);
    the outer [option] is the graph search's, and is shown to be [Some]. *)
From Stdlib Require Import Strings.Byte NArith ZArith Lia.
From S2P Require Import Prelude Core External Cbor Schema Graph Ident Claim Cose Report.

(** * Inputs *)

Record VerifyCtx : Set := mkCtx {
  verified_at : N;
  clock_skew_leeway : N;
  trusted_issuers : list string;
  allow_remote : bool;
  allowed_algs : AllowedAlgs;
  ctx_limits : Limits;
  ctx_status_objects : list SignedStatus;
  revocation_authorities : list string;
  revocations_known_at : option N;
  report_all_failures : bool;
  accepted_vocabularies : list VocabularyAccept;
  extra_grounded : list string;
  require_acyclic_provenance : bool;
  require_status_feed : bool;
}.

(** [VerifyCtx::default]: fail closed. *)
Definition default_ctx : VerifyCtx := {|
  verified_at := 0;
  clock_skew_leeway := 300;
  trusted_issuers := [];
  allow_remote := false;
  allowed_algs := algs_strict;
  ctx_limits := default_limits;
  ctx_status_objects := [];
  revocation_authorities := [];
  revocations_known_at := None;
  report_all_failures := false;
  accepted_vocabularies := [];
  extra_grounded := [];
  require_acyclic_provenance := false;
  require_status_feed := true;
|}.

(** * Stage bookkeeping *)

Definition CRYPTO_STAGES : list string :=
  ["PARSE"; "SCHEMA"; "CANONICAL"; "IDENTIFIERS"; "SIGNATURES"; "KEYS"].
Definition EVIDENCE_STAGES : list string :=
  ["TIME"; "REVOCATION"; "EVIDENCE"; "RELATIONSHIPS"; "GRAPH"].
Definition STATUS_STAGE : string := "STATUS".

Definition stage_valid (checks : list CheckRecord) (stages : list string) : Validity.t :=
  if existsb (λ c, negb (chk_ok c) && bool_decide (chk_stage c ∈ stages)) checks
  then Validity.Invalid else Validity.Valid.

Definition finalize (proof_id : option string) (checks : list CheckRecord)
    (note_extra : option CheckRecord) (lifecycle : list LifecycleRecord)
    (status_objects withdrawn_ids referenced_proofs : list string)
    (vocabularies : list VocabularyDecl) (evidence_status : list EvidenceStatusRecord)
    (conflicts : list ConflictRecord) (lifecycle_checked : bool) : VerifyReport :=
  let checks := match note_extra with Some n => checks ++ [n] | None => checks end in
  {| vr_proof_id := proof_id;
     cryptographic_validity := stage_valid checks CRYPTO_STAGES;
     evidence_validity :=
       if lifecycle_checked then stage_valid checks EVIDENCE_STAGES else Validity.Invalid;
     policy_decision := PolicyDecision.Indeterminate;
     lifecycle_checked := lifecycle_checked;
     vr_lifecycle := lifecycle;
     vr_status_objects := status_objects;
     vr_withdrawn_ids := withdrawn_ids;
     vr_referenced_proofs := referenced_proofs;
     vr_vocabularies := vocabularies;
     vr_evidence_status := evidence_status;
     vr_conflicts := conflicts;
     vr_checks := checks;
     status_inputs_valid :=
       negb (existsb (λ c, negb (chk_ok c) && bool_decide (chk_stage c = STATUS_STAGE)) checks) |}.

Definition policy_note : CheckRecord := check_note "POLICY" "policy:caller".

(** The report of a run that stopped early. *)
Definition early_exit (proof_id : option string) (checks : list CheckRecord) : VerifyReport :=
  finalize proof_id checks (Some policy_note) [] [] [] [] [] [] [] false.

(** [time_validity]; the error stands for the three messages. *)
Inductive TimeError : Set := NoClock | NotYetValid | PastExpiry.

Definition time_validity (content : AttestationContent) (ctx : VerifyCtx) : result TimeError unit :=
  let now := verified_at ctx in
  let skew := clock_skew_leeway ctx in
  if now =? 0 then Err NoClock else
  if u64_saturating_add now skew <? att_issued_at content then Err NotYetValid else
  match att_expires_at content with
  | Some exp => if u64_saturating_add exp skew <? now then Err PastExpiry else Ok tt
  | None => Ok tt
  end.

(** * Member ids and the proof id *)

Section members.
Context `{Base64Url, Sha2}.

Definition member_event_id (e : EventContent) : Result string :=
  match event_to_cbor e with
  | Ok v => Ok (event_id (encode_canonical v))
  | Err _ => Err ErrorCode.SchemaViolation
  end.
Definition member_attestation_id (a : StoredAttestation) : string :=
  attestation_id (encode_canonical (attestation_to_cbor (sa_content a))).
Definition member_evidence_id (e : Evidence) : string :=
  evidence_id (encode_canonical (evidence_to_cbor e)).
Definition member_relationship_id (r : Relationship) : string :=
  relationship_id (encode_canonical (relationship_to_cbor r)).

Definition recomputed_proof_id (proof : Proof_) : Result string :=
  event_ids ← mapM member_event_id (prf_events proof);
  let att_ids := map member_attestation_id (prf_attestations proof) in
  let evd_ids := map member_evidence_id (prf_evidence proof) in
  let rel_ids := map member_relationship_id (prf_relationships proof) in
  let vocab_pairs := map (λ vd, (voc_ns vd, voc_version vd)) (prf_vocabularies proof) in
  Ok (proof_id_full (proposition_to_cbor (prf_proposition proof)) (prf_created_at proof)
        event_ids att_ids evd_ids rel_ids (prf_referenced_proofs proof) vocab_pairs).
End members.

(** * Vocabulary notes *)

Definition used_namespaces (proof : Proof_) : list string :=
  sort_dedup
    (map (λ e, vocabulary_ns (ev_type e)) (prf_events proof)
     ++ map (λ a, vocabulary_ns (claim_type (att_claim (sa_content a)))) (prf_attestations proof)
     ++ map (λ e, vocabulary_ns (evd_kind e)) (prf_evidence proof)
     ++ map (λ r, vocabulary_ns (rel_type r)) (prf_relationships proof)
     ++ [ vocabulary_ns (prop_kind (prf_proposition proof));
          vocabulary_ns (prop_predicate (prf_proposition proof)) ]).

Definition vocabulary_notes (ctx : VerifyCtx) (proof : Proof_) : list CheckRecord :=
  let note := check_note "SCHEMA" ("proof:" +:+ prf_proof_id proof) in
  let used := used_namespaces proof in
  let vocs := prf_vocabularies proof in
  let accepted := accepted_vocabularies ctx in
  (if negb (len vocs =? 0) then
     map (λ _, note)
       (List.filter (λ ns, negb (existsb (λ vd, bool_decide (voc_ns vd = ns)) vocs)) used)
   else [])
  ++ (if negb (len accepted =? 0) then
        omap (λ vd,
          match List.find (λ a, bool_decide (acc_ns a = voc_ns vd)) accepted with
          | None => Some note
          | Some acc => if acc_max_version acc <? voc_version vd then Some note else None
          end) vocs
        ++ map (λ _, note)
             (List.filter (λ ns, negb (existsb (λ a, bool_decide (acc_ns a = ns)) accepted)) used)
      else []).

(** * Signatures and keys *)

(** The stage an envelope error is filed under. *)
Definition signature_stage (code : ErrorCode.t) : string :=
  match code with
  | ErrorCode.AlgorithmConfusion | ErrorCode.UnknownAlgorithm
  | ErrorCode.DeprecatedAlgorithm | ErrorCode.UnexpectedHeaderParam => "KEYS"
  | _ => "SIGNATURES"
  end.

Abbreviation Verified := (list (string * AttestationContent)).

Section signatures.
Context `{Base64Url, Sha2, SignatureSchemes}.

(** The self-bound issuer: the key the signature must come from. *)
Definition expected_issuer (p : ParsedSign1) : string :=
  if (p_alg p =? COSE_ED25519)%Z then "key:ed25519:" +:+ b64u_nopad (p_kid p)
  else if (p_alg p =? COSE_ESP256)%Z then "key:p256:" +:+ b64u_nopad (p_kid p)
  else if (p_alg p =? -8)%Z && (len (p_kid p) =? 32) then "key:ed25519:" +:+ b64u_nopad (p_kid p)
  else if (p_alg p =? -7)%Z && (len (p_kid p) =? 64) then "key:p256:" +:+ b64u_nopad (p_kid p)
  else "key:unknown:placeholder".

(** The body of the attestation loop. *)
Definition check_attestation (ctx : VerifyCtx) (entry : StoredAttestation) (att_id : string)
    : list CheckRecord * option (string * AttestationContent) :=
  let obj := "att:" +:+ att_id in
  match parse_sign1 (sa_sign1 entry) (ctx_limits ctx) with
  | Err e => ([check_fail (signature_stage e) obj e], None)
  | Ok parsed =>
      match verify_attestation (sa_sign1 entry) (expected_issuer parsed)
              (allowed_algs ctx) (ctx_limits ctx) with
      | Ok (content, id) =>
          if bool_decide (content ≠ sa_content entry) || bool_decide (id ≠ att_id)
          then ([check_fail "SIGNATURES" obj ErrorCode.SignatureInvalid], None)
          else ([check_ok "SIGNATURES" obj; check_ok "KEYS" obj],
                Some (att_id, sa_content entry))
      | Err e => ([check_fail (signature_stage e) obj e], None)
      end
  end.

Definition signatures_stage (ctx : VerifyCtx) (proof : Proof_) (att_ids : list string)
    : list CheckRecord * Verified :=
  let rs := zip_with (check_attestation ctx) (prf_attestations proof) att_ids in
  (concat (map fst rs)
     ++ (if len (prf_attestations proof) =? 0
         then [check_note "SIGNATURES" ("proof:" +:+ prf_proof_id proof)] else []),
   omap snd rs).
End signatures.

(** * Time *)

Definition is_statement (v : string * AttestationContent) : bool :=
  bool_decide (claim_kind v.2 = ClaimKind.Statement).

Definition time_check (ctx : VerifyCtx) (v : string * AttestationContent) : CheckRecord :=
  let obj := "att:" +:+ v.1 in
  match time_validity v.2 ctx with
  | Ok _ => check_ok "TIME" obj
  | Err _ => check_fail "TIME" obj ErrorCode.Expired
  end.

(** The records, and the set of ids that failed. *)
Definition time_stage (ctx : VerifyCtx) (verified : Verified) : list CheckRecord * gset string :=
  let statements := List.filter is_statement verified in
  (map (time_check ctx) statements,
   list_to_set (map fst (List.filter (λ v, negb (is_ok (time_validity v.2 ctx))) statements))).

(** * Status effects *)

Record StatusEffect : Set := mkEffect {
  eff_target : string;
  eff_kind : ClaimKind.t;
  eff_issuer : string;
  eff_issued_at : N;
  eff_object : string;
  eff_at_time : option N;
}.

(** The effect a status claim states; a plain statement states none. *)
Definition read_effect (content : AttestationContent) (obj : string) : Result StatusEffect :=
  let effect target at_time := {|
    eff_target := target; eff_kind := claim_kind content; eff_issuer := att_issuer content;
    eff_issued_at := att_issued_at content; eff_object := obj; eff_at_time := at_time |} in
  match claim_kind content with
  | ClaimKind.Statement => Err ErrorCode.SchemaViolation
  | ClaimKind.Revoke => target ← revocation_target content; Ok (effect target None)
  | ClaimKind.Supersede => '(old, _) ← supersession_pair content; Ok (effect old None)
  | ClaimKind.Withdraw => target ← withdrawal_target content; Ok (effect target None)
  | ClaimKind.Compromise =>
      '(target, at_time) ← compromise_mark content; Ok (effect target (Some at_time))
  end.

(** One pushed record or one pushed effect. *)
Definition record_effect (obj : string) (r : Result StatusEffect)
    : list CheckRecord * list StatusEffect :=
  match r with
  | Ok eff => ([], [eff])
  | Err e => ([check_fail STATUS_STAGE obj e], [])
  end.

(** Embedded status attestations: records, effects, and their ids. *)
Definition embedded_effects (verified : Verified)
    : list CheckRecord * list StatusEffect * list string :=
  let statuses := List.filter (λ v, negb (is_statement v)) verified in
  let rs := map (λ v, record_effect ("att:" +:+ v.1) (read_effect v.2 ("att:" +:+ v.1))) statuses in
  (concat (map fst rs), concat (map snd rs), map fst statuses).

Section supplied.
Context `{Base64Url, Sha2, SignatureSchemes}.

(** One caller-supplied status object, at its index. *)
Definition supplied_effect (ctx : VerifyCtx) (s : N * SignedStatus)
    : list CheckRecord * list StatusEffect :=
  let label := "status:" +:+ pretty (s.1 + 1) in
  record_effect label
    (content ← verify_status_object (ss_sign1 s.2) (att_issuer (ss_content s.2))
                 (allowed_algs ctx) (ctx_limits ctx);
     read_effect content label).

Definition supplied_effects (ctx : VerifyCtx) : list CheckRecord * list StatusEffect :=
  let rs := map (supplied_effect ctx) (enumerate (ctx_status_objects ctx)) in
  (concat (map fst rs), concat (map snd rs)).
End supplied.

(** * Authority and timeliness of effects *)

Definition statement_by_id (verified : Verified) : gmap string AttestationContent :=
  hash_map (List.filter is_statement verified).
Definition issuer_by_att_id (verified : Verified) : gmap string string :=
  hash_map (map (λ v, (v.1, att_issuer v.2)) verified).

Definition is_authority (ctx : VerifyCtx) (issuer : string) : bool :=
  bool_decide (issuer ∈ revocation_authorities ctx).

(** [empowered]: who may sign which effect. *)
Definition empowered (ctx : VerifyCtx) (verified : Verified) (evidence : list (Evidence * string))
    (eff : StatusEffect) : bool :=
  match eff_kind eff with
  | ClaimKind.Compromise =>
      bool_decide (eff_issuer eff = eff_target eff) || is_authority ctx (eff_issuer eff)
  | ClaimKind.Withdraw =>
      if is_authority ctx (eff_issuer eff) then true else
      match issuer_by_att_id verified !! eff_target eff with
      | Some iss => bool_decide (iss = eff_issuer eff)
      | None =>
          existsb (λ p : Evidence * string,
            bool_decide (p.2 = eff_target eff) &&
            match evd_attestation_ref p.1 with
            | Some aref =>
                match issuer_by_att_id verified !! aref with
                | Some iss => bool_decide (iss = eff_issuer eff)
                | None => false
                end
            | None => false
            end) evidence
      end
  | _ =>
      match statement_by_id verified !! eff_target eff with
      | Some tc =>
          bool_decide (att_issuer tc = eff_issuer eff) || is_authority ctx (eff_issuer eff)
      | None => is_authority ctx (eff_issuer eff)
      end
  end.

(** [timely]: strict knowledge cutoff, without skew. *)
Definition timely (ctx : VerifyCtx) (eff : StatusEffect) : bool :=
  negb (verified_at ctx =? 0) && (eff_issued_at eff <=? verified_at ctx).

(** What the effect loop accumulates. *)
Record Applied : Set := mkApplied {
  ap_checks : list CheckRecord;
  ap_applies : list (string * ClaimKind.t);
  ap_compromises : list (string * N);
  ap_withdrawn : list string;
}.

Definition apply_effect (ctx : VerifyCtx) (verified : Verified)
    (evidence : list (Evidence * string)) (st : Applied) (eff : StatusEffect) : Applied :=
  let emp := empowered ctx verified evidence eff in
  let tim := timely ctx eff in
  let checks := ap_checks st
    ++ (if emp then [] else [check_fail STATUS_STAGE (eff_object eff) ErrorCode.UnauthorizedStatus])
    ++ (if tim then [] else [check_fail STATUS_STAGE (eff_object eff) ErrorCode.Expired]) in
  if emp && tim then
    {| ap_checks := checks;
       ap_applies := ap_applies st ++ [(eff_target eff, eff_kind eff)];
       ap_compromises :=
         if bool_decide (eff_kind eff = ClaimKind.Compromise) then
           match eff_at_time eff with
           | Some at_ => ap_compromises st ++ [(eff_target eff, at_)]
           | None => ap_compromises st
           end
         else ap_compromises st;
       ap_withdrawn :=
         if bool_decide (eff_kind eff = ClaimKind.Withdraw)
            && negb (bool_decide (eff_target eff ∈ ap_withdrawn st))
         then ap_withdrawn st ++ [eff_target eff] else ap_withdrawn st |}
  else
    {| ap_checks := checks; ap_applies := ap_applies st; ap_compromises := ap_compromises st;
       ap_withdrawn := ap_withdrawn st |}.

Definition no_effects : Applied :=
  {| ap_checks := []; ap_applies := []; ap_compromises := []; ap_withdrawn := [] |}.
Definition apply_effects (ctx : VerifyCtx) (verified : Verified)
    (evidence : list (Evidence * string)) (effects : list StatusEffect) : Applied :=
  foldl (apply_effect ctx verified evidence) no_effects effects.

(** * Lifecycle *)

Definition revocation_stale (ctx : VerifyCtx) (total_status_inputs : N) : bool :=
  bool_decide (revocations_known_at ctx = None)
  || (clock_skew_leeway ctx <?
        u64_saturating_sub (verified_at ctx) (default 0 (revocations_known_at ctx)))
  || (require_status_feed ctx && (total_status_inputs =? 0)).

Definition applies_to (ap : Applied) (kind : ClaimKind.t) (id : string) : bool :=
  existsb (λ p : string * ClaimKind.t, bool_decide (p.1 = id) && bool_decide (p.2 = kind))
    (ap_applies ap).

Definition compromised (ap : Applied) (v : string * AttestationContent) : bool :=
  existsb (λ p : string * N,
    (bool_decide (p.1 = att_issuer v.2) || bool_decide (p.1 = v.1)) && (p.2 <=? att_issued_at v.2))
    (ap_compromises ap).

Definition lifecycle_status (ap : Applied) (time_failed : gset string) (stale : bool)
    (v : string * AttestationContent) : LifecycleStatus.t :=
  if compromised ap v then LifecycleStatus.Compromised
  else if applies_to ap ClaimKind.Revoke v.1 then LifecycleStatus.Revoked
  else if applies_to ap ClaimKind.Supersede v.1 then LifecycleStatus.Superseded
  else if bool_decide (v.1 ∈ time_failed) then LifecycleStatus.Expired
  else if stale then LifecycleStatus.Unknown
  else LifecycleStatus.Active.

(** The code and the outcome each status is recorded with. *)
Definition lifecycle_outcome (s : LifecycleStatus.t) : option ErrorCode.t * bool :=
  match s with
  | LifecycleStatus.Active => (None, true)
  | LifecycleStatus.Revoked => (Some ErrorCode.Revoked, false)
  | LifecycleStatus.Superseded => (None, true)
  | LifecycleStatus.Compromised => (Some ErrorCode.Compromised, false)
  | LifecycleStatus.Expired => (Some ErrorCode.Expired, true)
  | LifecycleStatus.Unknown => (Some ErrorCode.RevocationUnknown, false)
  end.

Definition lifecycle_check (obj : string) (s : LifecycleStatus.t) : CheckRecord :=
  let '(code, ok) := lifecycle_outcome s in
  if ok then check_ok "REVOCATION" obj
  else check_fail "REVOCATION" obj (default ErrorCode.RevocationUnknown code).

Definition lifecycle_record (ap : Applied) (time_failed : gset string) (stale : bool)
    (v : string * AttestationContent) : LifecycleRecord :=
  let s := lifecycle_status ap time_failed stale v in
  {| lc_object := "att:" +:+ v.1; lc_status := s; lc_code := (lifecycle_outcome s).1 |}.

Definition lifecycle_stage (ctx : VerifyCtx) (stored_id : string) (verified : Verified)
    (ap : Applied) (time_failed : gset string) (embedded : list string)
    : list CheckRecord * list LifecycleRecord :=
  let total := len embedded + len (ctx_status_objects ctx) in
  let stale := revocation_stale ctx total in
  let records := map (lifecycle_record ap time_failed stale) (List.filter is_statement verified) in
  let note := check_note "REVOCATION" ("proof:" +:+ stored_id) in
  (map (λ l, lifecycle_check (lc_object l) (lc_status l)) records
   ++ [note]
   ++ (if (total =? 0) && bool_decide (is_Some (revocations_known_at ctx)) && negb stale
       then [note] else [])
   ++ (if require_status_feed ctx && (total =? 0) then [note] else []),
   records).

(** * Evidence *)

(** Attestations' evidence references: the record each dangling one pushes. *)
Definition evidence_ref_checks (proof : Proof_) (nodes : NodeSet) : list CheckRecord :=
  omap (λ a, match att_evidence_ref (sa_content a) with
             | Some r =>
                 if contains nodes r then None
                 else Some (check_fail "EVIDENCE" ("proof:" +:+ prf_proof_id proof)
                              ErrorCode.DanglingReference)
             | None => None
             end) (prf_attestations proof).

Definition hex_digit (n : N) : Ascii.ascii :=
  match String.get (N.to_nat n) "0123456789abcdef" with Some c => c | None => Ascii.zero end.
Fixpoint lower_hex (bytes : list byte) : string :=
  match bytes with
  | [] => ""
  | b :: bytes' =>
      String (hex_digit (N.shiftr (b2n b) 4)) (String (hex_digit (N.land (b2n b) 0x0f))
        (lower_hex bytes'))
  end.

Definition digest_by_evd (evidence : list (Evidence * string)) : gmap string string :=
  hash_map (map (λ p, (p.2, lower_hex (hr_digest (evd_digest p.1)))) evidence).

(** The [evidence_digest] binding of one verified statement. *)
Definition digest_binding_check (digests : gmap string string) (v : string * AttestationContent)
    : option CheckRecord :=
  let obj := "att:" +:+ v.1 in
  match evidence_digest_hex (att_claim v.2) with
  | None => None
  | Some (Err _) => Some (check_fail "EVIDENCE" obj ErrorCode.SchemaViolation)
  | Some (Ok normalized) =>
      match att_evidence_ref v.2 with
      | None => Some (check_fail "EVIDENCE" obj ErrorCode.DanglingReference)
      | Some eref =>
          match digests !! eref with
          | None => Some (check_fail "EVIDENCE" obj ErrorCode.DanglingReference)
          | Some actual =>
              if bool_decide (to_lowercase actual ≠ normalized)
              then Some (check_fail "EVIDENCE" obj ErrorCode.IdMismatch)
              else Some (check_ok "EVIDENCE" obj)
          end
      end
  end.

Definition digest_binding_checks (verified : Verified) (evidence : list (Evidence * string))
    : list CheckRecord :=
  omap (digest_binding_check (digest_by_evd evidence)) (List.filter is_statement verified).

(** [lifecycle_by_att], keyed by the id inside the record's object. *)
Definition lifecycle_by_att (lifecycle : list LifecycleRecord) : gmap string LifecycleStatus.t :=
  hash_map (omap (λ l, match strip_prefix "att:" (lc_object l) with
                       | Some id => Some (id, lc_status l)
                       | None => None
                       end) lifecycle).

(** The sentence that marks an unverified backing attestation; the currency test
    of the API searches for its middle. *)
Definition hint_unverified : string :=
  "backing attestation not verified in this proof — provenance hint unverified, validity preserved".

(** Status, code, outcome and message of one evidence item. *)
Definition evidence_outcome (ap : Applied) (by_att : gmap string LifecycleStatus.t)
    (p : Evidence * string) : EvidenceStatus.t * option ErrorCode.t * bool * string :=
  let withdrawn := applies_to ap ClaimKind.Withdraw p.2 in
  let marked := existsb (λ c : string * N, bool_decide (c.1 = p.2)) (ap_compromises ap) in
  let backing := evd_attestation_ref p.1 ≫= λ aref, by_att !! aref in
  if marked then
    (EvidenceStatus.Compromised, Some ErrorCode.Compromised, false,
     "evidence tainted by a valid signed compromise marking")
  else if withdrawn then
    (EvidenceStatus.Withdrawn, Some ErrorCode.Withdrawn, false,
     "evidence covered by a valid signed withdrawal (history preserved)")
  else match backing with
       | Some LifecycleStatus.Compromised =>
           (EvidenceStatus.Compromised, Some ErrorCode.Compromised, false,
            "backing attestation COMPROMISED")
       | Some LifecycleStatus.Revoked =>
           (EvidenceStatus.Revoked, Some ErrorCode.Revoked, false, "backing attestation REVOKED")
       | Some LifecycleStatus.Superseded =>
           (EvidenceStatus.Superseded, None, true,
            "backing attestation SUPERSEDED — historical record preserved")
       | Some LifecycleStatus.Expired =>
           (EvidenceStatus.Expired, Some ErrorCode.Expired, true, "backing attestation EXPIRED")
       | Some LifecycleStatus.Unknown =>
           (EvidenceStatus.Unknown, Some ErrorCode.RevocationUnknown, false,
            "backing attestation state UNKNOWN — fail closed")
       | Some LifecycleStatus.Active =>
           (EvidenceStatus.Available, None, true, "evidence digest-bound and available")
       | None =>
           if bool_decide (evd_attestation_ref p.1 = None)
           then (EvidenceStatus.Available, None, true, "evidence digest-bound and available")
           else (EvidenceStatus.Unknown, Some ErrorCode.RevocationUnknown, true, hint_unverified)
       end.

Definition evidence_item (ap : Applied) (by_att : gmap string LifecycleStatus.t)
    (p : Evidence * string) : CheckRecord * EvidenceStatusRecord :=
  let obj := "evd:" +:+ p.2 in
  let '(status, code, ok, msg) := evidence_outcome ap by_att p in
  ((if ok : bool then check_ok "EVIDENCE" obj
    else check_fail "EVIDENCE" obj (default ErrorCode.RevocationUnknown code)),
   {| es_object := obj; es_status := status; es_code := code; es_message := msg |}).

(** [evidence_bad] is raised with every failed record of the stage. *)
Definition evidence_stage (proof : Proof_) (nodes : NodeSet) (verified : Verified) (ap : Applied)
    (lifecycle : list LifecycleRecord) (evidence : list (Evidence * string))
    : list CheckRecord * list EvidenceStatusRecord :=
  let items := map (evidence_item ap (lifecycle_by_att lifecycle)) evidence in
  let checks := evidence_ref_checks proof nodes ++ digest_binding_checks verified evidence
                ++ map fst items in
  let evidence_bad := existsb (λ c, negb (chk_ok c)) checks in
  (checks ++ (if negb evidence_bad
              then [check_ok "EVIDENCE" ("proof:" +:+ prf_proof_id proof)] else []),
   map snd items).

(** * Relationships and graph *)

Section graph_stage.
Context `{HashOrder}.

(** One acyclicity profile. *)
Definition acyclic_check (obj : string) (r : Result unit) : CheckRecord :=
  match r with Ok _ => check_ok "GRAPH" obj | Err e => check_fail "GRAPH" obj e end.

Definition extra_set (ctx : VerifyCtx) : option (gset string) :=
  if len (extra_grounded ctx) =? 0 then None else Some (list_to_set (extra_grounded ctx)).

Definition graph_stage (ctx : VerifyCtx) (stored_id : string) (edges : list EdgeRecord)
    (nodes : NodeSet) : option (list CheckRecord) :=
  let obj := "proof:" +:+ stored_id in
  r ← validate_graph_with_grounding edges nodes (ctx_limits ctx) (extra_set ctx);
  match r with
  | Ok g =>
      derivation ← check_derivation_acyclic edges nodes;
      provenance ← (if require_acyclic_provenance ctx then
                      p ← check_acyclic_provenance edges nodes; Some [acyclic_check obj p]
                    else Some []);
      Some ([check_ok "RELATIONSHIPS" obj; check_ok "GRAPH" obj; acyclic_check obj derivation]
            ++ provenance)
  | Err e =>
      let stage := match e with
                   | ErrorCode.RelationshipUngrounded | ErrorCode.DanglingReference =>
                       "RELATIONSHIPS"
                   | _ => "GRAPH"
                   end in
      Some [check_fail stage obj e]
  end.
End graph_stage.

(** * Composition linkage *)

Section linkage.
Context `{Base64Url}.

(** The reference loop: the record that stops it, if any. *)
Fixpoint check_refs (obj stored_id : string) (refs : list string) : option CheckRecord :=
  match refs with
  | [] => None
  | r :: refs' =>
      match check_proof_ref_id r with
      | Err e => Some (check_fail "GRAPH" obj e)
      | Ok _ =>
          if bool_decide (r = stored_id)
          then Some (check_fail "GRAPH" obj ErrorCode.CycleDetected)
          else check_refs obj stored_id refs'
      end
  end.

Definition linkage_stage (ctx : VerifyCtx) (proof : Proof_) : list CheckRecord :=
  let refs := prf_referenced_proofs proof in
  let obj := "proof:" +:+ prf_proof_id proof in
  if len refs =? 0 then [] else
  let bound := if max_referenced_proofs (ctx_limits ctx) <? len refs
               then [check_fail "GRAPH" obj ErrorCode.LimitExceeded] else [] in
  let sorted := sort_dedup refs in
  let order := if negb (len sorted =? len refs) || bool_decide (sorted ≠ refs)
               then [check_fail "GRAPH" obj ErrorCode.SchemaViolation] else [] in
  let shape := match check_refs obj (prf_proof_id proof) refs with
               | Some c => [c] | None => [] end in
  let fails := bound ++ order ++ shape in
  fails ++ (if len fails =? 0 then [check_note "GRAPH" obj] else []).
End linkage.

(** * Conflicts *)

Abbreviation conflict_key := (string * string)%type.

(** Statements grouped by claim type and subject, in proof order. *)
Definition claim_groups (verified : Verified) : gmap conflict_key Verified :=
  foldl (λ m v, entry_extend m (claim_type (att_claim v.2), att_subject v.2) [v])
    ∅ (List.filter is_statement verified).

Definition divergent_group (g : conflict_key * Verified) : option ConflictRecord :=
  match g.2 with
  | (v :: _ :: _) as members =>
      if forallb (λ m : string * AttestationContent,
           bool_decide (att_claim m.2 = att_claim v.2)) members
      then None
      else Some {| cf_kind := ConflictKind.DivergentClaims; cf_claim_type := g.1.1;
                   cf_subject := g.1.2;
                   cf_attestation_ids :=
                     sort_by str_leb (map (λ m : string * AttestationContent, "att:" +:+ m.1) members) |}
  | _ => None
  end.
Definition divergent_claims (verified : Verified) : list ConflictRecord :=
  omap divergent_group (btree_entries str_pair_leb (claim_groups verified)).

(** The denials of the verified statements, by the claim they oppose. *)
Definition denial_entry (statements : gmap string AttestationContent)
    (v : string * AttestationContent) : option (conflict_key * list string) :=
  match denial_target v.2 with
  | None => None
  | Some target =>
      Some match statements !! target with
           | Some denied =>
               ((claim_type (att_claim denied), att_subject denied),
                sort_dedup ["att:" +:+ v.1; "att:" +:+ target])
           | None =>
               ((claim_type (att_claim v.2), "external:" +:+ target), sort_dedup ["att:" +:+ v.1])
           end
  end.
Definition opposed (verified : Verified) : gmap conflict_key (list string) :=
  foldl (λ m e, entry_extend m e.1 e.2) ∅
    (omap (denial_entry (statement_by_id verified)) (List.filter is_statement verified)).
Definition denials (verified : Verified) : list ConflictRecord :=
  map (λ e : conflict_key * list string,
    {| cf_kind := ConflictKind.Denial; cf_claim_type := e.1.1; cf_subject := e.1.2;
       cf_attestation_ids := sort_dedup e.2 |}) (btree_entries str_pair_leb (opposed verified)).

(** A CONTRADICTS edge: a conflict, or a note when it joins no two statements. *)
Definition contradiction_edge (obj : string) (statements : gmap string AttestationContent)
    (edge : Relationship) : list CheckRecord * list ConflictRecord :=
  match statements !! rel_from edge, statements !! rel_to edge with
  | Some _, Some denied =>
      ([], [{| cf_kind := ConflictKind.Contradiction;
               cf_claim_type := claim_type (att_claim denied); cf_subject := att_subject denied;
               cf_attestation_ids := sort_dedup ["att:" +:+ rel_from edge; "att:" +:+ rel_to edge] |}])
  | _, _ => ([check_note "EVIDENCE" obj], [])
  end.
Definition contradictions (proof : Proof_) (verified : Verified)
    : list CheckRecord * list ConflictRecord :=
  let rs := map (contradiction_edge ("proof:" +:+ prf_proof_id proof) (statement_by_id verified))
    (List.filter (λ r, bool_decide (rel_type r = RelType.CONTRADICTS)) (prf_relationships proof)) in
  (concat (map fst rs), concat (map snd rs)).

Definition conflict_leb (a b : ConflictRecord) : bool :=
  if bool_decide (cf_kind a = cf_kind b) then
    if bool_decide (cf_claim_type a = cf_claim_type b) then
      if bool_decide (cf_subject a = cf_subject b)
      then list_leb (cf_attestation_ids a) (cf_attestation_ids b)
      else str_leb (cf_subject a) (cf_subject b)
    else str_leb (cf_claim_type a) (cf_claim_type b)
  else str_leb (ConflictKind.as_str (cf_kind a)) (ConflictKind.as_str (cf_kind b)).

Definition conflicts_stage (proof : Proof_) (verified : Verified)
    : list CheckRecord * list ConflictRecord :=
  let contra := contradictions proof verified in
  let conflicts :=
    sort_by conflict_leb (divergent_claims verified ++ contra.2 ++ denials verified) in
  (contra.1 ++ map (λ _, check_note "EVIDENCE" ("proof:" +:+ prf_proof_id proof)) conflicts,
   conflicts).

(** * The pipeline *)

Section pipeline.
Context `{Base64Url, Sha2, SignatureSchemes, HashOrder}.

(** Stages 7 to 11 on the verified attestations. *)
Record Later : Type := mkLater {
  lt_checks : list CheckRecord;
  lt_lifecycle : list LifecycleRecord;
  lt_status_objects : list string;
  lt_withdrawn : list string;
  lt_evidence_status : list EvidenceStatusRecord;
  lt_conflicts : list ConflictRecord;
}.

(** The effect loop over embedded, then supplied, status objects. *)
Definition all_effects (ctx : VerifyCtx) (verified : Verified) : list StatusEffect :=
  (embedded_effects verified).1.2 ++ (supplied_effects ctx).2.

Definition later_stages (ctx : VerifyCtx) (proof : Proof_)
    (event_ids att_ids evd_ids rel_ids : list string) (verified : Verified) : option Later :=
  let evidence := zip (prf_evidence proof) evd_ids in
  let time := time_stage ctx verified in
  let embedded := embedded_effects verified in
  let ap := apply_effects ctx verified evidence (all_effects ctx verified) in
  let life := lifecycle_stage ctx (prf_proof_id proof) verified ap time.2 embedded.2 in
  let nodes := NodeSet_new (event_ids ++ att_ids ++ evd_ids) in
  let evd := evidence_stage proof nodes verified ap life.2 evidence in
  let edges := zip_with mkEdge (prf_relationships proof) rel_ids in
  graph_checks ← graph_stage ctx (prf_proof_id proof) edges nodes;
  let conf := conflicts_stage proof verified in
  Some {| lt_checks := time.1 ++ embedded.1.1 ++ (supplied_effects ctx).1 ++ ap_checks ap
                       ++ life.1 ++ evd.1 ++ graph_checks ++ linkage_stage ctx proof ++ conf.1;
          lt_lifecycle := life.2;
          lt_status_objects := embedded.2;
          lt_withdrawn := ap_withdrawn ap;
          lt_evidence_status := evd.2;
          lt_conflicts := conf.2 |}.

(** Non-canonical bytes never yield valid evidence. *)
Definition force_invalid (canonical_failed : bool) (r : VerifyReport) : VerifyReport :=
  if canonical_failed then
    {| vr_proof_id := vr_proof_id r; cryptographic_validity := cryptographic_validity r;
       evidence_validity := Validity.Invalid; policy_decision := policy_decision r;
       lifecycle_checked := lifecycle_checked r; vr_lifecycle := vr_lifecycle r;
       vr_status_objects := vr_status_objects r; vr_withdrawn_ids := vr_withdrawn_ids r;
       vr_referenced_proofs := vr_referenced_proofs r; vr_vocabularies := vr_vocabularies r;
       vr_evidence_status := vr_evidence_status r; vr_conflicts := vr_conflicts r;
       vr_checks := vr_checks r; status_inputs_valid := status_inputs_valid r |}
  else r.

(** The comparison of the IDENTIFIERS stage. *)
Definition identifier_check (recomputed stored_id : string) : CheckRecord :=
  if bool_decide (recomputed ≠ stored_id)
  then check_fail "IDENTIFIERS" ("proof:" +:+ stored_id) ErrorCode.IdMismatch
  else check_ok "IDENTIFIERS" ("proof:" +:+ stored_id).

(** From the member ids on, after the CANONICAL stage. *)
Definition verify_members (ctx : VerifyCtx) (proof : Proof_) (canonical_failed : bool)
    (checks : list CheckRecord) : option (Result VerifyReport) :=
  let stored_id := prf_proof_id proof in
  match mapM member_event_id (prf_events proof) with
  | Err e => Some (Err e)
  | Ok event_ids =>
      let att_ids := map member_attestation_id (prf_attestations proof) in
      let evd_ids := map member_evidence_id (prf_evidence proof) in
      let rel_ids := map member_relationship_id (prf_relationships proof) in
      match recomputed_proof_id proof with
      | Err e => Some (Err e)
      | Ok recomputed =>
          let sigs := signatures_stage ctx proof att_ids in
          later ← later_stages ctx proof event_ids att_ids evd_ids rel_ids sigs.2;
          Some (Ok (force_invalid canonical_failed
            (finalize (Some stored_id)
               (checks ++ [identifier_check recomputed stored_id] ++ sigs.1
                ++ lt_checks later)
               (Some policy_note) (lt_lifecycle later) (lt_status_objects later)
               (lt_withdrawn later) (prf_referenced_proofs proof) (prf_vocabularies proof)
               (lt_evidence_status later) (lt_conflicts later) true)))
      end
  end.

Definition verify_proof (bytes : list byte) (ctx : VerifyCtx) : option (Result VerifyReport) :=
  let limits := ctx_limits ctx in
  if allow_remote ctx then Some (Err ErrorCode.SchemaViolation) else
  if max_status_objects limits <? len (ctx_status_objects ctx)
  then Some (Err ErrorCode.LimitExceeded) else
  if max_trusted_issuers limits <? len (trusted_issuers ctx)
  then Some (Err ErrorCode.LimitExceeded) else
  if max_revocation_authorities limits <? len (revocation_authorities ctx)
  then Some (Err ErrorCode.LimitExceeded) else
  match decode_strict bytes limits with
  | Err e => Some (Ok (early_exit None [check_fail "PARSE" "proof:bytes" e]))
  | Ok value =>
      let parsed := [check_ok "PARSE" "proof:bytes"] in
      match cbor_to_proof value limits with
      | Err e => Some (Ok (early_exit None (parsed ++ [check_fail "SCHEMA" "proof:bytes" e])))
      | Ok proof =>
          let obj := "proof:" +:+ prf_proof_id proof in
          let checks := parsed ++ [check_ok "SCHEMA" obj] ++ vocabulary_notes ctx proof in
          if bool_decide (encode_canonical value ≠ bytes) then
            let checks := checks ++ [check_fail "CANONICAL" obj ErrorCode.NonCanonical] in
            if negb (report_all_failures ctx)
            then Some (Ok (early_exit (Some (prf_proof_id proof)) checks))
            else verify_members ctx proof true checks
          else verify_members ctx proof false (checks ++ [check_ok "CANONICAL" obj])
      end
  end.
End pipeline.
