(* ===== verification/PipelineFacts.v ===== *)
(** PipelineFacts: what a verdict of the pipeline means.

    The stages are inverted once ([verify_proof_inv]); the theorems then read
    the two validities, the lifecycle records, the withdrawal list, the conflict
    records and the dimension projection as statements about the parsed proof
    and the verifier's inputs. *)
From Stdlib Require Import Strings.Byte NArith ZArith Lia.
From S2P Require Import Prelude Core External Cbor Schema Graph Ident Claim Cose Report Pipeline.

(** * Check lists *)

(** Every failed record is outside the given stages. *)
Definition passes (stages : list string) (checks : list CheckRecord) : Prop :=
  ∀ c, c ∈ checks → chk_stage c ∈ stages → chk_ok c = true.

Lemma passes_nil stages : passes stages [].
Proof. by intros c Hc%elem_of_nil. Qed.
Lemma passes_app stages l k : passes stages (l ++ k) ↔ passes stages l ∧ passes stages k.
Proof. unfold passes. setoid_rewrite elem_of_app. naive_solver. Qed.
Lemma passes_one stages c : passes stages [c] ↔ (chk_stage c ∈ stages → chk_ok c = true).
Proof. unfold passes. setoid_rewrite list_elem_of_singleton. naive_solver. Qed.
Lemma passes_forall stages checks :
  passes stages checks ↔ Forall (λ c, chk_stage c ∈ stages → chk_ok c = true) checks.
Proof. by rewrite Forall_forall. Qed.
Lemma passes_map {A} stages (f : A → CheckRecord) l :
  passes stages (map f l) ↔ ∀ x, x ∈ l → chk_stage (f x) ∈ stages → chk_ok (f x) = true.
Proof. rewrite passes_forall, Forall_map, Forall_forall. done. Qed.
Lemma passes_concat {A} stages (f : A → list CheckRecord) l :
  passes stages (concat (map f l)) ↔ ∀ x, x ∈ l → passes stages (f x).
Proof.
  induction l as [|x l IH]; simpl; [split; [set_solver|intros _; apply passes_nil]|].
  rewrite passes_app, IH. set_solver.
Qed.
Lemma passes_omap {A} stages (f : A → option CheckRecord) (l : list A) :
  passes stages (omap f l) ↔
  ∀ x c, x ∈ l → f x = Some c → chk_stage c ∈ stages → chk_ok c = true.
Proof. unfold passes. setoid_rewrite list_elem_of_omap. naive_solver. Qed.

(** Records that are all fine, or all of other stages, pass. *)
Lemma passes_ok stages checks : Forall (λ c, chk_ok c = true) checks → passes stages checks.
Proof. rewrite Forall_forall. intros Hc c Hin _. by apply Hc. Qed.
Lemma passes_other stages checks stage :
  stage ∉ stages → Forall (λ c, chk_stage c = stage ∨ chk_ok c = true) checks →
  passes stages checks.
Proof. rewrite Forall_forall. intros Hs Hc c Hin Hst. destruct (Hc c Hin); congruence. Qed.

Lemma stage_valid_iff checks stages :
  stage_valid checks stages = Validity.Valid ↔ passes stages checks.
Proof.
  unfold stage_valid, passes. destruct (existsb _ _) eqn:E.
  - split; [done|]. intros Hp. apply existsb_true in E as (c & Hc & [Ho Hs]%andb_true_iff).
    apply bool_decide_eq_true in Hs. rewrite (Hp c Hc Hs) in Ho. done.
  - split; [intros _ c Hc Hs|done]. apply existsb_false with (x := c) in E; [|done].
    rewrite bool_decide_eq_true_2 in E by done. rewrite andb_true_r in E. by apply negb_false_iff.
Qed.

(** Memberships in the stage lists are decided by computation. *)
Lemma stage_in (s : string) (l : list string) : bool_decide (s ∈ l) = true → s ∈ l.
Proof. by rewrite bool_decide_eq_true. Qed.
Lemma stage_notin (s : string) (l : list string) : bool_decide (s ∈ l) = false → s ∉ l.
Proof. by rewrite bool_decide_eq_false. Qed.
Ltac stage_solve :=
  first [ apply stage_in; vm_compute; reflexivity | apply stage_notin; vm_compute; reflexivity ].

(** * Running to a report *)

(** The caller misuses that [verify_proof] refuses. *)
Definition misuse (ctx : VerifyCtx) : bool :=
  allow_remote ctx
  || (max_status_objects (ctx_limits ctx) <? len (ctx_status_objects ctx))
  || (max_trusted_issuers (ctx_limits ctx) <? len (trusted_issuers ctx))
  || (max_revocation_authorities (ctx_limits ctx) <? len (revocation_authorities ctx)).

Lemma cbor_to_event_version v limits e : cbor_to_event v limits = Ok e → ev_v e = 1.
Proof.
  unfold cbor_to_event. intros Hp. repeat (apply bind_Ok in Hp as (? & _ & Hp)||destruct (_ <? _)); by simplify_eq.
Qed.

Section running.
Context `{Base64Url, Sha2, SignatureSchemes, HashOrderLaws}.

Lemma cbor_to_proof_events v limits p :
  cbor_to_proof v limits = Ok p → Forall (λ e, ev_v e = 1) (prf_events p).
Proof.
  unfold cbor_to_proof. intros Hp. to_lookups.
  simpl. match goal with H : mapM _ _ = Ok ?l |- Forall _ ?l =>
    apply mapM_Ok in H; clear -H; rename H into HF end.
  induction HF as [|v' e ? ? Hev]; constructor; [exact (cbor_to_event_version _ _ _ Hev)|done].
Qed.

Lemma member_event_ids l :
  Forall (λ e, ev_v e = 1) l → ∃ ids, mapM member_event_id l = Ok ids.
Proof.
  induction 1 as [|e l He _ [ids IH]]; [by eexists|].
  assert (event_to_cbor e = Ok (event_cbor e)) as Hev by by apply event_to_cbor_Ok.
  assert (member_event_id e = Ok (event_id (encode_canonical (event_cbor e)))) as Hid
    by (unfold member_event_id; by rewrite Hev).
  simpl. rewrite Hid, IH. by eexists.
Qed.

Lemma graph_stage_total ctx id edges nodes : ∃ l, graph_stage ctx id edges nodes = Some l.
Proof.
  unfold graph_stage.
  destruct (proj1 (validate_graph_spec edges nodes (ctx_limits ctx) (extra_set ctx))) as [[g|e] ->];
    simpl; [|by eexists].
  destruct (derivation_spec edges nodes) as [[-> _]|[-> _]],
    (provenance_spec edges nodes) as [[-> _]|[-> _]];
    simpl; destruct (require_acyclic_provenance ctx); simpl; by eexists.
Qed.

(** A run that got past the schema. *)
Record full_run (bytes : list byte) (ctx : VerifyCtx) (r : VerifyReport) (proof : Proof_)
    (event_ids : list string) (recomputed : string) (later : Later) : Prop := {
  fr_parse : ∃ v, decode_strict bytes (ctx_limits ctx) = Ok v ∧
                  cbor_to_proof v (ctx_limits ctx) = Ok proof;
  fr_events : mapM member_event_id (prf_events proof) = Ok event_ids;
  fr_id : recomputed_proof_id proof = Ok recomputed;
  fr_later :
    later_stages ctx proof event_ids (map member_attestation_id (prf_attestations proof))
      (map member_evidence_id (prf_evidence proof))
      (map member_relationship_id (prf_relationships proof))
      (signatures_stage ctx proof (map member_attestation_id (prf_attestations proof))).2
    = Some later;
  fr_report :
    r = finalize (Some (prf_proof_id proof))
          (([check_ok "PARSE" "proof:bytes"]
             ++ [check_ok "SCHEMA" ("proof:" +:+ prf_proof_id proof)]
             ++ vocabulary_notes ctx proof)
           ++ [check_ok "CANONICAL" ("proof:" +:+ prf_proof_id proof)]
           ++ [identifier_check recomputed (prf_proof_id proof)]
           ++ (signatures_stage ctx proof (map member_attestation_id (prf_attestations proof))).1
           ++ lt_checks later)
          (Some policy_note) (lt_lifecycle later) (lt_status_objects later) (lt_withdrawn later)
          (prf_referenced_proofs proof) (prf_vocabularies proof) (lt_evidence_status later)
          (lt_conflicts later) true;
}.

(** A run that stopped at PARSE or SCHEMA. *)
Inductive stopped (bytes : list byte) (ctx : VerifyCtx) : VerifyReport → Prop :=
| stopped_parse e :
    decode_strict bytes (ctx_limits ctx) = Err e →
    stopped bytes ctx (early_exit None [check_fail "PARSE" "proof:bytes" e])
| stopped_schema v e :
    decode_strict bytes (ctx_limits ctx) = Ok v → cbor_to_proof v (ctx_limits ctx) = Err e →
    stopped bytes ctx
      (early_exit None ([check_ok "PARSE" "proof:bytes"] ++ [check_fail "SCHEMA" "proof:bytes" e])).

(** Past the caller checks, a run stops early or goes all the way: strict
    decoding accepts only canonical bytes, so CANONICAL never stops it. *)
Lemma verify_proof_spec bytes ctx :
  misuse ctx = false →
  ∃ r, verify_proof bytes ctx = Some (Ok r) ∧
  (stopped bytes ctx r ∨ ∃ proof ids rid later, full_run bytes ctx r proof ids rid later).
Proof.
  unfold misuse. rewrite !orb_false_iff. intros [[[Hr Hs] Ht] Ha].
  unfold verify_proof. rewrite Hr, Hs, Ht, Ha.
  destruct (decode_strict bytes (ctx_limits ctx)) as [v|e] eqn:Hd.
  2: { eexists. split; [done|]. left. by constructor. }
  destruct (cbor_to_proof v (ctx_limits ctx)) as [proof|e] eqn:Hp.
  2: { eexists. split; [done|]. left. by econstructor. }
  rewrite bool_decide_eq_false_2 by (intros Hne; apply Hne; by apply decode_strict_inv in Hd as [? _]).
  destruct (member_event_ids (prf_events proof)) as [ids Hids]; [by eapply cbor_to_proof_events|].
  unfold verify_members. rewrite Hids.
  destruct (recomputed_proof_id proof) as [rid|e] eqn:Hrid.
  2: { unfold recomputed_proof_id in Hrid. by rewrite Hids in Hrid. }
  set (verified := (signatures_stage _ _ _).2).
  assert (∃ later, later_stages ctx proof ids (map member_attestation_id (prf_attestations proof))
     (map member_evidence_id (prf_evidence proof))
     (map member_relationship_id (prf_relationships proof)) verified = Some later) as [later Hl].
  { unfold later_stages.
    match goal with |- context [graph_stage ?c ?i ?e ?n] =>
      destruct (graph_stage_total c i e n) as [gs ->] end. by eexists. }
  rewrite Hl. eexists. split; [reflexivity|]. right. exists proof, ids, rid, later.
  split; [by exists v|done..|]. unfold force_invalid. f_equal. by rewrite <- !app_assoc.
Qed.

Lemma verify_proof_misuse bytes ctx :
  misuse ctx = true → ∃ e, verify_proof bytes ctx = Some (Err e) ∧
    (e = ErrorCode.SchemaViolation ∧ allow_remote ctx = true ∨ e = ErrorCode.LimitExceeded).
Proof.
  unfold misuse, verify_proof. destruct (allow_remote ctx); [by eauto|].
  destruct (_ <? len (ctx_status_objects ctx)); [by eauto|].
  destruct (_ <? len (trusted_issuers ctx)); [by eauto|].
  by destruct (_ <? len (revocation_authorities ctx)); [eauto|].
Qed.

Lemma verify_proof_inv bytes ctx r :
  verify_proof bytes ctx = Some (Ok r) →
  misuse ctx = false ∧
  (stopped bytes ctx r ∨ ∃ proof ids rid later, full_run bytes ctx r proof ids rid later).
Proof.
  intros Hv. destruct (misuse ctx) eqn:Hm.
  - by destruct (verify_proof_misuse bytes ctx Hm) as (e & He & _); simplify_eq.
  - split; [done|]. destruct (verify_proof_spec bytes ctx Hm) as (r' & Hr' & Hcase).
    by simplify_eq.
Qed.
End running.

(** * The records of each stage *)

Definition tagged (stages : list string) (checks : list CheckRecord) : Prop :=
  ∀ c, c ∈ checks → chk_stage c ∈ stages.

Lemma tagged_nil stages : tagged stages [].
Proof. by intros c Hc%elem_of_nil. Qed.
Lemma tagged_app stages l k : tagged stages (l ++ k) ↔ tagged stages l ∧ tagged stages k.
Proof. unfold tagged. setoid_rewrite elem_of_app. naive_solver. Qed.
Lemma tagged_cons stages c l : tagged stages (c :: l) ↔ chk_stage c ∈ stages ∧ tagged stages l.
Proof. unfold tagged. setoid_rewrite elem_of_cons. naive_solver. Qed.
Lemma tagged_map {A} stages (f : A → CheckRecord) l :
  (∀ x, chk_stage (f x) ∈ stages) → tagged stages (map f l).
Proof. intros Hf c (x & -> & _)%list_elem_of_fmap. apply Hf. Qed.
Lemma tagged_omap {A} stages (f : A → option CheckRecord) (l : list A) :
  (∀ x c, f x = Some c → chk_stage c ∈ stages) → tagged stages (omap f l).
Proof. intros Hf c (x & _ & Hx)%list_elem_of_omap. by eapply Hf. Qed.
Lemma tagged_concat {A} stages (f : A → list CheckRecord) l :
  (∀ x, tagged stages (f x)) → tagged stages (concat (map f l)).
Proof.
  intros Hf. induction l as [|x l IH]; simpl; [apply tagged_nil|]. by apply tagged_app.
Qed.

(** Records of some stages pass every disjoint group of stages. *)
Lemma tagged_passes stages stages' checks :
  tagged stages checks → forallb (λ s, negb (bool_decide (s ∈ stages'))) stages = true →
  passes stages' checks.
Proof.
  intros Ht Hd c Hc Hs. apply Ht in Hc.
  rewrite forallb_Forall, Forall_forall in Hd. specialize (Hd _ Hc).
  by rewrite bool_decide_eq_true_2 in Hd.
Qed.

(** [tag] splits a record list and computes the stage of each literal. *)
Ltac tag :=
  repeat match goal with
  | |- tagged _ [] => apply tagged_nil
  | |- tagged _ (_ ++ _) => apply tagged_app; split
  | |- tagged _ (_ :: _) => apply tagged_cons; split
  | |- tagged _ (map _ _) => apply tagged_map; intros ?
  | |- tagged _ (omap _ _) => apply tagged_omap; intros ? ?
  | |- _ => case_match; simplify_eq
  | |- _ => progress simpl
  | |- _ => stage_solve
  | |- _ → _ => intros ?; simplify_eq
  end.

Lemma zip_with_map {A B C} (f : A → B → C) (g : A → B) l :
  zip_with f l (map g l) = map (λ x, f x (g x)) l.
Proof. induction l as [|x l IH]; simpl; by rewrite ?IH. Qed.

Section stage_tags.
Context `{Base64Url, Sha2, SignatureSchemes, HashOrder}.

Lemma vocabulary_notes_ok ctx proof : Forall (λ c, chk_ok c = true) (vocabulary_notes ctx proof).
Proof.
  unfold vocabulary_notes. rewrite Forall_app. split.
  - case_match; [|constructor]. rewrite Forall_map. by apply Forall_true.
  - case_match; [|constructor]. apply Forall_app. split; [|rewrite Forall_map; by apply Forall_true].
    rewrite Forall_forall. intros c (vd & _ & Hc)%list_elem_of_omap. by repeat case_match; simplify_eq.
Qed.

(** Each attestation of the proof is checked under its own id. *)
Definition attestation_outcome (ctx : VerifyCtx) (a : StoredAttestation)
    : list CheckRecord * option (string * AttestationContent) :=
  check_attestation ctx a (member_attestation_id a).
Definition verified_of (ctx : VerifyCtx) (proof : Proof_) : Verified :=
  omap (λ a, (attestation_outcome ctx a).2) (prf_attestations proof).

Lemma omap_map {A B C} (f : B → option C) (g : A → B) (l : list A) :
  omap f (map g l) = omap (λ x, f (g x)) l.
Proof. induction l as [|x l IH]; csimpl; [done|]. by rewrite IH. Qed.

Lemma signatures_stage_eq ctx proof :
  signatures_stage ctx proof (map member_attestation_id (prf_attestations proof)) =
  (concat (map (λ a, (attestation_outcome ctx a).1) (prf_attestations proof))
     ++ (if len (prf_attestations proof) =? 0
         then [check_note "SIGNATURES" ("proof:" +:+ prf_proof_id proof)] else []),
   verified_of ctx proof).
Proof.
  unfold signatures_stage, verified_of. by rewrite zip_with_map, map_map, omap_map.
Qed.

Lemma attestation_tagged ctx a : tagged ["SIGNATURES"; "KEYS"] (attestation_outcome ctx a).1.
Proof. unfold attestation_outcome, check_attestation, signature_stage. tag. Qed.

Lemma signatures_tagged ctx proof :
  tagged ["SIGNATURES"; "KEYS"]
    (signatures_stage ctx proof (map member_attestation_id (prf_attestations proof))).1.
Proof.
  rewrite signatures_stage_eq. simpl. apply tagged_app. split; [|tag].
  apply tagged_concat. intros a. apply attestation_tagged.
Qed.

Lemma time_tagged ctx verified : tagged ["TIME"] (time_stage ctx verified).1.
Proof. unfold time_stage, time_check. tag. Qed.

Lemma record_effect_tagged obj r : tagged [STATUS_STAGE] (record_effect obj r).1.
Proof. unfold record_effect. tag. Qed.
Lemma embedded_tagged verified : tagged [STATUS_STAGE] (embedded_effects verified).1.1.
Proof.
  unfold embedded_effects. simpl. rewrite map_map. apply tagged_concat. intros x.
  apply record_effect_tagged.
Qed.
Lemma supplied_tagged ctx : tagged [STATUS_STAGE] (supplied_effects ctx).1.
Proof.
  unfold supplied_effects. simpl. rewrite map_map. apply tagged_concat. intros x.
  apply record_effect_tagged.
Qed.
Lemma applied_tagged ctx verified evidence effs :
  tagged [STATUS_STAGE] (ap_checks (apply_effects ctx verified evidence effs)).
Proof.
  unfold apply_effects. assert (tagged [STATUS_STAGE] (ap_checks no_effects)) as Hst by tag.
  revert Hst. generalize no_effects. induction effs as [|eff effs IH]; intros st Hst; simpl; [done|].
  apply IH. unfold apply_effect. by destruct (empowered _ _ _ _), (timely _ _); tag.
Qed.
Lemma lifecycle_tagged ctx id verified ap tf emb :
  tagged ["REVOCATION"] (lifecycle_stage ctx id verified ap tf emb).1.
Proof. unfold lifecycle_stage. simpl. rewrite map_map. unfold lifecycle_check. tag. Qed.
Lemma digest_tagged verified evidence :
  tagged ["EVIDENCE"] (digest_binding_checks verified evidence).
Proof. unfold digest_binding_checks, digest_binding_check. tag. Qed.
Lemma evidence_tagged proof nodes verified ap life evidence :
  tagged ["EVIDENCE"] (evidence_stage proof nodes verified ap life evidence).1.
Proof.
  unfold evidence_stage. simpl. rewrite !tagged_app, map_map.
  split_and!; [unfold evidence_ref_checks; tag|apply digest_tagged| |tag].
  unfold evidence_item. tag.
Qed.
Lemma graph_tagged ctx id edges nodes l :
  graph_stage ctx id edges nodes = Some l → tagged ["RELATIONSHIPS"; "GRAPH"] l.
Proof.
  unfold graph_stage, acyclic_check. intros Hg.
  repeat (case_match || simplify_option_eq); tag.
Qed.
End stage_tags.

Section later_tags.
Context `{Base64Url, Sha2, SignatureSchemes, HashOrder}.

Lemma check_refs_tagged obj id refs c : check_refs obj id refs = Some c → chk_stage c = "GRAPH".
Proof. induction refs as [|r refs IH]; simpl; [done|]. repeat case_match; try done; by intros [= <-]. Qed.
Lemma linkage_tagged ctx proof : tagged ["GRAPH"] (linkage_stage ctx proof).
Proof.
  unfold linkage_stage. cbn zeta.
  destruct (check_refs _ _ _) eqn:E; [apply check_refs_tagged in E|];
    repeat case_match; simpl; tag; rewrite E; stage_solve.
Qed.

Lemma conflict_checks_ok proof verified :
  Forall (λ c, chk_ok c = true ∧ chk_stage c = "EVIDENCE") (conflicts_stage proof verified).1.
Proof.
  unfold conflicts_stage, contradictions. simpl. rewrite map_map, Forall_app. split.
  - apply Forall_concat, Forall_map, Forall_forall. intros r _. unfold contradiction_edge.
    repeat case_match; by repeat constructor.
  - rewrite Forall_map. by apply Forall_true.
Qed.

Lemma tagged_forall stages checks stage :
  stages = [stage] → Forall (λ c, chk_ok c = true ∧ chk_stage c = stage) checks →
  tagged stages checks.
Proof. rewrite Forall_forall. intros -> Hf c Hc. destruct (Hf c Hc) as [_ ->]. by left. Qed.

Lemma later_stages_tagged ctx proof ev att evd rel verified later :
  later_stages ctx proof ev att evd rel verified = Some later →
  tagged (STATUS_STAGE :: EVIDENCE_STAGES) (lt_checks later).
Proof.
  unfold later_stages. intros Hl. apply bind_Some in Hl as (g & Hg & [= <-]). cbn [lt_checks].
  assert (∀ stages checks, tagged stages checks →
    forallb (λ s, bool_decide (s ∈ STATUS_STAGE :: EVIDENCE_STAGES)) stages = true →
    tagged (STATUS_STAGE :: EVIDENCE_STAGES) checks) as Hw.
  { intros stages checks Ht Hs c Hc. apply Ht in Hc. rewrite forallb_Forall, Forall_forall in Hs.
    apply Hs in Hc. by apply bool_decide_eq_true in Hc. }
  apply tagged_app; split; [exact (Hw _ _ (time_tagged _ _) eq_refl)|].
  apply tagged_app; split; [exact (Hw _ _ (embedded_tagged _) eq_refl)|].
  apply tagged_app; split; [exact (Hw _ _ (supplied_tagged _) eq_refl)|].
  apply tagged_app; split; [exact (Hw _ _ (applied_tagged _ _ _ _) eq_refl)|].
  apply tagged_app; split; [exact (Hw _ _ (lifecycle_tagged _ _ _ _ _ _) eq_refl)|].
  apply tagged_app; split; [exact (Hw _ _ (evidence_tagged _ _ _ _ _ _) eq_refl)|].
  apply tagged_app; split; [exact (Hw _ _ (graph_tagged _ _ _ _ _ Hg) eq_refl)|].
  apply tagged_app; split; [exact (Hw _ _ (linkage_tagged _ _) eq_refl)|].
  exact (Hw _ _ (tagged_forall _ _ _ eq_refl (conflict_checks_ok _ _)) eq_refl).
Qed.
End later_tags.

(** Which records of a completed run can fail in a group of stages. *)
Lemma full_run_passes `{Base64Url, Sha2, SignatureSchemes, HashOrder} group
    bytes ctx r proof ids rid later :
  full_run bytes ctx r proof ids rid later →
  passes group (vr_checks r) ↔
  passes group [identifier_check rid (prf_proof_id proof)] ∧
  passes group
    (signatures_stage ctx proof (map member_attestation_id (prf_attestations proof))).1 ∧
  passes group (lt_checks later).
Proof.
  intros [_ _ _ _ ->]. cbn [vr_checks finalize].
  pose proof (passes_ok group _ (vocabulary_notes_ok ctx proof)) as Hv. revert Hv.
  generalize (vocabulary_notes ctx proof) as notes.
  generalize (signatures_stage ctx proof (map member_attestation_id (prf_attestations proof))).1 as sigs.
  intros sigs notes Hv.
  assert (∀ c, chk_ok c = true → passes group [c]) as Hone
    by (intros c Hc; apply passes_ok; by constructor).
  rewrite (passes_app _ _ [policy_note]). split.
  - intros [Hp _]. apply passes_app in Hp as [_ Hp]. apply passes_app in Hp as [_ Hp].
    by rewrite !passes_app in Hp.
  - intros (Hi & Hs & Hl). split; [|by apply Hone].
    repeat (apply passes_app; split); try done; by apply Hone.
Qed.

(** * Cryptographic validity *)

Section crypto_verdict.
Context `{Base64UrlLaws, Sha2, SignatureSchemes}.

(** The attestation's own issuer signed exactly its content, and the member id
    is the id of the signed bytes. *)
Definition authentic (ctx : VerifyCtx) (a : StoredAttestation) : Prop :=
  verify_attestation (sa_sign1 a) (att_issuer (sa_content a)) (allowed_algs ctx) (ctx_limits ctx)
  = Ok (sa_content a, member_attestation_id a).
#[export] Instance authentic_dec ctx a : Decision (authentic ctx a).
Proof. unfold authentic. solve_decision. Defined.

Lemma signed_expected_issuer aad allowed issuer p :
  signed_by aad allowed issuer p → expected_issuer p = issuer.
Proof.
  unfold expected_issuer. intros [Halg -> Hl _|_ Halg -> Hl _].
  - destruct Halg as [[-> _]|[-> _]]; [done|]. simpl. by rewrite Hl.
  - destruct Halg as [->|[-> _]]; [done|]. simpl. by rewrite Hl.
Qed.

(** A successful verification names the key the envelope carries. *)
Lemma verify_attestation_issuer s issuer allowed limits x :
  verify_attestation s issuer allowed limits = Ok x →
  ∃ p, parse_sign1 s limits = Ok p ∧ expected_issuer p = issuer ∧ att_issuer x.1 = issuer.
Proof.
  unfold verify_attestation. intros Hv. apply bind_Ok in Hv as (p & Hp & Hv). exists p.
  pose proof Hp as Hsig. apply verify_sign1_aad_sound in Hsig as (_ & _ & Hsig).
  apply signed_expected_issuer in Hsig. split_and!; [|done|].
  - unfold verify_sign1, verify_sign1_with_aad in Hp. destruct (_ <? _); [done|].
    apply bind_Ok in Hp as (p' & -> & Hp). f_equal. apply bind_Ok in Hp as (? & _ & Hp).
    repeat case_match; try done. by apply bind_Ok in Hp as (? & _ & [= ->]).
  - apply bind_Ok in Hv as (v & _ & Hv). apply bind_Ok in Hv as (c & _ & Hv).
    case_bool_decide as Hi; [done|]. by injection Hv as <-.
Qed.

Lemma attestation_outcome_spec ctx a :
  authentic ctx a ∧
    attestation_outcome ctx a =
      ([check_ok "SIGNATURES" ("att:" +:+ member_attestation_id a);
        check_ok "KEYS" ("att:" +:+ member_attestation_id a)],
       Some (member_attestation_id a, sa_content a)) ∨
  ¬ authentic ctx a ∧
    ∃ c, attestation_outcome ctx a = ([c], None) ∧ chk_ok c = false.
Proof.
  unfold attestation_outcome, check_attestation, authentic.
  destruct (parse_sign1 (sa_sign1 a) (ctx_limits ctx)) as [p|e] eqn:Hp.
  2: { right. split; [|by eexists]. intros (p & Hp' & _)%verify_attestation_issuer. congruence. }
  destruct (verify_attestation (sa_sign1 a) (expected_issuer p) _ _) as [[c id]|e] eqn:Hv.
  - pose proof Hv as (p' & Hp' & _ & Hi)%verify_attestation_issuer. simpl in Hi.
    destruct (bool_decide_reflect (c ≠ sa_content a)) as [Hc|Hc%dec_stable];
      [|destruct (bool_decide_reflect (id ≠ member_attestation_id a)) as [Hid|Hid%dec_stable]]; simpl.
    + right. split; [|by eexists]. intros Hok.
      pose proof Hok as (p'' & Hp'' & Hi' & _)%verify_attestation_issuer. congruence.
    + right. split; [|by eexists]. intros Hok.
      pose proof Hok as (p'' & Hp'' & Hi' & _)%verify_attestation_issuer. congruence.
    + left. subst. rewrite Hi. by split.
  - right. split; [|by eexists]. intros Hok.
    pose proof Hok as (p'' & Hp'' & Hi' & _)%verify_attestation_issuer. congruence.
Qed.

Lemma verified_of_elem ctx proof v :
  v ∈ verified_of ctx proof ↔
  ∃ a, a ∈ prf_attestations proof ∧ authentic ctx a ∧ v = (member_attestation_id a, sa_content a).
Proof.
  unfold verified_of. rewrite list_elem_of_omap. split.
  - intros (a & Ha & Hv). exists a.
    destruct (attestation_outcome_spec ctx a) as [[Hau Ho]|[_ (c & Ho & _)]]; rewrite Ho in Hv; by simplify_eq/=.
  - intros (a & Ha & Hau & ->). exists a. split; [done|].
    destruct (attestation_outcome_spec ctx a) as [[_ ->]|[Hn _]]; done.
Qed.

Lemma signatures_pass ctx proof :
  passes CRYPTO_STAGES
    (signatures_stage ctx proof (map member_attestation_id (prf_attestations proof))).1 ↔
  ∀ a, a ∈ prf_attestations proof → authentic ctx a.
Proof.
  rewrite signatures_stage_eq. cbn [fst]. rewrite passes_app, passes_concat.
  assert (∀ a, passes CRYPTO_STAGES (attestation_outcome ctx a).1 ↔ authentic ctx a) as Hone.
  { intros a. pose proof (attestation_tagged ctx a) as Ht. revert Ht.
    destruct (attestation_outcome_spec ctx a) as [[Hau ->]|[Hn (c & -> & Hc)]]; simpl; intros Ht.
    - split; [done|]. intros _. by apply passes_ok; repeat constructor.
    - split; [|done]. intros Hp. assert (c ∈ [c]) as Hin by by left.
      assert (chk_stage c ∈ CRYPTO_STAGES) as Hs
        by (specialize (Ht c Hin); unfold CRYPTO_STAGES; set_solver).
      specialize (Hp c Hin Hs). congruence. }
  setoid_rewrite Hone. split; [by intros [? _]|]. intros Ha. split; [done|].
  apply passes_ok. by case_match; repeat constructor.
Qed.
End crypto_verdict.

Section crypto_theorem.
Context `{Base64UrlLaws, Sha2, SignatureSchemes, HashOrderLaws}.

Lemma full_run_crypto bytes ctx r proof ids rid later :
  full_run bytes ctx r proof ids rid later →
  cryptographic_validity r = Validity.Valid ↔
  rid = prf_proof_id proof ∧ ∀ a, a ∈ prf_attestations proof → authentic ctx a.
Proof.
  intros Hf. assert (cryptographic_validity r = stage_valid (vr_checks r) CRYPTO_STAGES) as ->
    by (by destruct Hf as [_ _ _ _ ->]).
  rewrite stage_valid_iff, (full_run_passes CRYPTO_STAGES _ _ _ _ _ _ _ Hf), signatures_pass.
  pose proof (later_stages_tagged _ _ _ _ _ _ _ _ (fr_later _ _ _ _ _ _ _ Hf)) as Hl.
  apply (tagged_passes _ CRYPTO_STAGES) in Hl; [|vm_compute; reflexivity].
  assert (passes CRYPTO_STAGES [identifier_check rid (prf_proof_id proof)] ↔
          rid = prf_proof_id proof) as ->; [|tauto].
  rewrite passes_one. unfold identifier_check. case_bool_decide as Hne; simpl; [|done].
  split; [|done]. intros Hc. discriminate (Hc ltac:(stage_solve)).
Qed.
End crypto_theorem.

(** * Which effects apply *)

Section effects.
Context (ctx : VerifyCtx) (verified : Verified) (evidence : list (Evidence * string)).

(** Who may sign which effect: a revocation authority signs any; a key reports
    its own compromise; an issuer withdraws its attestation, or the evidence its
    attestation vouches for; and an issuer revokes or supersedes its statement. *)
Inductive may_sign (eff : StatusEffect) : Prop :=
| sign_authority : eff_issuer eff ∈ revocation_authorities ctx → may_sign eff
| sign_own_key : eff_kind eff = ClaimKind.Compromise → eff_issuer eff = eff_target eff → may_sign eff
| sign_own_attestation :
    eff_kind eff = ClaimKind.Withdraw →
    issuer_by_att_id verified !! eff_target eff = Some (eff_issuer eff) → may_sign eff
| sign_own_evidence e aref :
    eff_kind eff = ClaimKind.Withdraw → issuer_by_att_id verified !! eff_target eff = None →
    (e, eff_target eff) ∈ evidence → evd_attestation_ref e = Some aref →
    issuer_by_att_id verified !! aref = Some (eff_issuer eff) → may_sign eff
| sign_own_statement tc :
    eff_kind eff ≠ ClaimKind.Compromise → eff_kind eff ≠ ClaimKind.Withdraw →
    statement_by_id verified !! eff_target eff = Some tc → att_issuer tc = eff_issuer eff →
    may_sign eff.

Lemma empowered_iff eff : empowered ctx verified evidence eff = true ↔ may_sign eff.
Proof.
  unfold empowered, is_authority. split.
  - destruct (bool_decide_reflect (eff_issuer eff ∈ revocation_authorities ctx)) as [Ha|_];
      [by intros; apply sign_authority|].
    rewrite ?orb_false_r. destruct (eff_kind eff) eqn:Hk.
    all: try (destruct (statement_by_id verified !! _) as [tc|] eqn:Htc; [|done];
      rewrite orb_false_r; intros He%bool_decide_eq_true;
      by eapply sign_own_statement; [rewrite Hk..|done|done]).
    + destruct (issuer_by_att_id verified !! eff_target eff) as [iss|] eqn:Hi.
      { intros ->%bool_decide_eq_true. by apply sign_own_attestation. }
      intros ([e t] & Hin & Ht)%existsb_true. apply andb_true_iff in Ht as [Ht%bool_decide_eq_true Hb].
      simpl in Ht, Hb. subst t. destruct (evd_attestation_ref e) as [aref|] eqn:Hr; [|done].
      destruct (issuer_by_att_id verified !! aref) as [iss|] eqn:Hi'; [|done].
      apply bool_decide_eq_true in Hb as ->. by eapply sign_own_evidence.
    + intros ?%bool_decide_eq_true. by apply sign_own_key.
  - intros [Ha|Hk He|Hk Hi|e aref Hk Hn Hin Hr Hi|tc Hk Hk' Hs He].
    + rewrite (bool_decide_eq_true_2 _ Ha).
      destruct (eff_kind eff), (statement_by_id verified !! eff_target eff); by rewrite ?orb_true_r.
    + rewrite Hk, (bool_decide_eq_true_2 _ He). done.
    + rewrite Hk, Hi. rewrite (bool_decide_eq_true_2 (eff_issuer eff = _)) by done. by destruct (bool_decide _).
    + rewrite Hk, Hn. destruct (bool_decide _); [done|]. apply existsb_true.
      exists (e, eff_target eff). split; [done|]. simpl. rewrite Hr, Hi, !bool_decide_eq_true_2; done.
    + rewrite Hs, (bool_decide_eq_true_2 _ He). by destruct (eff_kind eff).
Qed.

Lemma timely_iff eff :
  timely ctx eff = true ↔ verified_at ctx ≠ 0 ∧ eff_issued_at eff <= verified_at ctx.
Proof. unfold timely. by rewrite andb_true_iff, negb_true_iff, N.eqb_neq, N.leb_le. Qed.

(** An effect applies when its signer has authority and it is not post-dated
    under a trustworthy clock. *)
Definition admitted (effs : list StatusEffect) (eff : StatusEffect) : Prop :=
  eff ∈ effs ∧ may_sign eff ∧ verified_at ctx ≠ 0 ∧ eff_issued_at eff <= verified_at ctx.

Lemma admitted_alt effs eff :
  admitted effs eff ↔ eff ∈ effs ∧ empowered ctx verified evidence eff && timely ctx eff = true.
Proof. unfold admitted. by rewrite andb_true_iff, empowered_iff, timely_iff. Qed.

Lemma admitted_cons eff effs e :
  admitted (eff :: effs) e ↔ (e = eff ∧ admitted [eff] eff) ∨ admitted effs e.
Proof. unfold admitted. set_solver. Qed.

Lemma apply_effect_nodup st eff :
  NoDup (ap_withdrawn st) → NoDup (ap_withdrawn (apply_effect ctx verified evidence st eff)).
Proof.
  intros Hnd. unfold apply_effect. destruct (_ && _); [|done]. cbn [ap_withdrawn].
  case_bool_decide; simpl; [|done]. case_bool_decide; simpl; [done|].
  apply NoDup_app. split_and!; [done|set_solver|apply NoDup_singleton].
Qed.

Lemma apply_effects_acc effs st :
  let st' := foldl (apply_effect ctx verified evidence) st effs in
  (∀ t k, (t, k) ∈ ap_applies st' ↔
     (t, k) ∈ ap_applies st ∨ ∃ e, admitted effs e ∧ eff_target e = t ∧ eff_kind e = k) ∧
  (∀ t n, (t, n) ∈ ap_compromises st' ↔
     (t, n) ∈ ap_compromises st ∨ ∃ e, admitted effs e ∧ eff_target e = t ∧
       eff_kind e = ClaimKind.Compromise ∧ eff_at_time e = Some n) ∧
  (∀ t, t ∈ ap_withdrawn st' ↔
     t ∈ ap_withdrawn st ∨ ∃ e, admitted effs e ∧ eff_target e = t ∧
       eff_kind e = ClaimKind.Withdraw) ∧
  (NoDup (ap_withdrawn st) → NoDup (ap_withdrawn st')).
Proof.
  revert st. induction effs as [|eff effs IH]; intros st; simpl.
  { assert (∀ e, ¬ admitted [] e) as Hno by (intros e [He _]; by apply elem_of_nil in He).
    naive_solver. }
  destruct (IH (apply_effect ctx verified evidence st eff)) as (I1 & I2 & I3 & I4). clear IH.
  setoid_rewrite I1. setoid_rewrite I2. setoid_rewrite I3. setoid_rewrite admitted_cons.
  match goal with |- ?A ∧ ?B ∧ ?C ∧ ?D => cut ((A ∧ B ∧ C) ∧ D); [intuition|] end.
  split; [|intros Hnd; by apply I4, apply_effect_nodup].
  clear I1 I2 I3 I4. unfold apply_effect.
  destruct (empowered ctx verified evidence eff && timely ctx eff) eqn:E.
  - assert (admitted [eff] eff) as Ha by (apply admitted_alt; split; [by left|done]).
    cbn [ap_applies ap_compromises ap_withdrawn]. split_and!.
    + intros t k. rewrite elem_of_app, list_elem_of_singleton. naive_solver.
    + intros t n. case_bool_decide as Hk; [|naive_solver].
      destruct (eff_at_time eff) eqn:Hat; [|naive_solver].
      rewrite elem_of_app, list_elem_of_singleton. naive_solver.
    + intros t. case_bool_decide as Hk; simpl; [|naive_solver].
      case_bool_decide as Hin; simpl; [naive_solver|].
      rewrite elem_of_app, list_elem_of_singleton. naive_solver.
  - assert (¬ admitted [eff] eff) as Ha by (rewrite admitted_alt; intros [_ He]; congruence).
    cbn [ap_applies ap_compromises ap_withdrawn]. split_and!; naive_solver.
Qed.

Lemma applies_to_iff effs k id :
  applies_to (apply_effects ctx verified evidence effs) k id = true ↔
  ∃ e, admitted effs e ∧ eff_target e = id ∧ eff_kind e = k.
Proof.
  unfold applies_to, apply_effects. rewrite existsb_true.
  destruct (apply_effects_acc effs no_effects) as (I1 & _).
  setoid_rewrite andb_true_iff. setoid_rewrite bool_decide_eq_true. split.
  - intros ([t k'] & Hin & Ht & Hk). simpl in Ht, Hk. subst.
    by apply I1 in Hin as [Hin|?]; [apply elem_of_nil in Hin|].
  - intros He. exists (id, k). split; [|done]. apply I1. by right.
Qed.

Lemma compromises_iff effs t n :
  (t, n) ∈ ap_compromises (apply_effects ctx verified evidence effs) ↔
  ∃ e, admitted effs e ∧ eff_target e = t ∧ eff_kind e = ClaimKind.Compromise ∧
       eff_at_time e = Some n.
Proof.
  destruct (apply_effects_acc effs no_effects) as (_ & I2 & _). unfold apply_effects. rewrite I2.
  split; [by intros [Hin|?]; [apply elem_of_nil in Hin|]|by right].
Qed.

Lemma compromised_iff effs v :
  compromised (apply_effects ctx verified evidence effs) v = true ↔
  ∃ e n, admitted effs e ∧ eff_kind e = ClaimKind.Compromise ∧ eff_at_time e = Some n ∧
         (eff_target e = att_issuer v.2 ∨ eff_target e = v.1) ∧ n <= att_issued_at v.2.
Proof.
  unfold compromised. rewrite existsb_true.
  setoid_rewrite andb_true_iff. setoid_rewrite orb_true_iff.
  setoid_rewrite bool_decide_eq_true. setoid_rewrite N.leb_le. split.
  - intros ([t n] & (e & He & Ht & Hk & Hn)%compromises_iff & Hor & Hle). simpl in *.
    exists e, n. by rewrite Ht.
  - intros (e & n & He & Hk & Hn & Hor & Hle). exists (eff_target e, n).
    split; [|done]. apply compromises_iff. by exists e.
Qed.
End effects.

(** * Lifecycle *)

(** The attestation is inside its window at the verifier clock, up to the skew. *)
Record in_window (ctx : VerifyCtx) (c : AttestationContent) : Prop := {
  iw_clock : verified_at ctx ≠ 0;
  iw_issued : att_issued_at c <= u64_saturating_add (verified_at ctx) (clock_skew_leeway ctx);
  iw_expires : ∀ e, att_expires_at c = Some e →
    verified_at ctx <= u64_saturating_add e (clock_skew_leeway ctx);
}.

Lemma time_validity_iff c ctx : is_ok (time_validity c ctx) = true ↔ in_window ctx c.
Proof.
  unfold time_validity. destruct (N.eqb_spec (verified_at ctx) 0) as [Hz|Hz].
  { split; [done|]. intros [Hw _ _]. by destruct Hw. }
  destruct (N.ltb_spec (u64_saturating_add (verified_at ctx) (clock_skew_leeway ctx)) (att_issued_at c)) as [Hi|Hi].
  { split; [done|]. intros [_ Hw _]. lia. }
  destruct (att_expires_at c) as [e|] eqn:He.
  - destruct (N.ltb_spec (u64_saturating_add e (clock_skew_leeway ctx)) (verified_at ctx)) as [Hx|Hx].
    + split; [done|]. intros [_ _ Hw]. specialize (Hw e He). lia.
    + split; [|done]. intros _. split; [done..|]. intros e' [= <-]%(eq_trans (eq_sym He)). done.
  - split; [|done]. intros _. split; [done..|]. by intros e' Hn%(eq_trans (eq_sym He)).
Qed.

(** The revocation information is recent, and the feed is not silently empty. *)
Record fresh (ctx : VerifyCtx) (embedded : list string) : Prop := {
  fs_known : ∃ t, revocations_known_at ctx = Some t ∧ verified_at ctx <= t + clock_skew_leeway ctx;
  fs_feed : require_status_feed ctx = true → embedded ≠ [] ∨ ctx_status_objects ctx ≠ [];
}.

Lemma len_zero {A} (l : list A) : len l = 0 ↔ l = [].
Proof. destruct l; [done|]. rewrite len_cons. split; [lia|done]. Qed.

Lemma stale_iff ctx embedded :
  revocation_stale ctx (len embedded + len (ctx_status_objects ctx)) = false ↔ fresh ctx embedded.
Proof.
  unfold revocation_stale, u64_saturating_sub.
  rewrite !orb_false_iff, bool_decide_eq_false, N.ltb_ge, andb_false_iff, N.eqb_neq. split.
  - intros [[Hn Hs] Hf]. destruct (revocations_known_at ctx) as [t|] eqn:Hk; [|done]. simpl in Hs. split.
    + exists t. split; [done|lia].
    + intros Hreq. destruct Hf as [Hf|Hf]; [congruence|].
      rewrite <- (len_zero embedded), <- (len_zero (ctx_status_objects ctx)). lia.
  - intros [(t & Hk & Ht) Hf]. rewrite Hk. simpl. split_and!; [done|lia|].
    destruct (require_status_feed ctx); [right|by left].
    specialize (Hf eq_refl). rewrite <- (len_zero embedded), <- (len_zero (ctx_status_objects ctx)) in Hf. lia.
Qed.

(** The contract of the lifecycle machine: compromise, then revocation, then
    supersession, then expiry, then missing information. *)
Section lifecycle_spec.
Context (ctx : VerifyCtx) (applies : StatusEffect → Prop) (verified : Verified)
  (embedded : list string).

Definition tainted (v : string * AttestationContent) : Prop :=
  ∃ e n, applies e ∧ eff_kind e = ClaimKind.Compromise ∧ eff_at_time e = Some n ∧
         (eff_target e = att_issuer v.2 ∨ eff_target e = v.1) ∧ n <= att_issued_at v.2.
Definition ended (k : ClaimKind.t) (id : string) : Prop :=
  ∃ e, applies e ∧ eff_target e = id ∧ eff_kind e = k.
(** Some verified statement of this id is outside its window. *)
Definition untimely (id : string) : Prop :=
  ∃ c, (id, c) ∈ verified ∧ claim_kind c = ClaimKind.Statement ∧ ¬ in_window ctx c.

Inductive lifecycle_spec (v : string * AttestationContent) : LifecycleStatus.t → Prop :=
| ls_compromised : tainted v → lifecycle_spec v LifecycleStatus.Compromised
| ls_revoked :
    ¬ tainted v → ended ClaimKind.Revoke v.1 → lifecycle_spec v LifecycleStatus.Revoked
| ls_superseded :
    ¬ tainted v → ¬ ended ClaimKind.Revoke v.1 → ended ClaimKind.Supersede v.1 →
    lifecycle_spec v LifecycleStatus.Superseded
| ls_expired :
    ¬ tainted v → ¬ ended ClaimKind.Revoke v.1 → ¬ ended ClaimKind.Supersede v.1 →
    untimely v.1 → lifecycle_spec v LifecycleStatus.Expired
| ls_unknown :
    ¬ tainted v → ¬ ended ClaimKind.Revoke v.1 → ¬ ended ClaimKind.Supersede v.1 →
    ¬ untimely v.1 → ¬ fresh ctx embedded → lifecycle_spec v LifecycleStatus.Unknown
| ls_active :
    ¬ tainted v → ¬ ended ClaimKind.Revoke v.1 → ¬ ended ClaimKind.Supersede v.1 →
    ¬ untimely v.1 → fresh ctx embedded → lifecycle_spec v LifecycleStatus.Active.
End lifecycle_spec.

Lemma time_failed_iff ctx verified id :
  id ∈ (time_stage ctx verified).2 ↔ untimely ctx verified id.
Proof.
  unfold time_stage, untimely. cbn [snd]. rewrite elem_of_list_to_set, list_elem_of_fmap.
  setoid_rewrite list_elem_of_In. setoid_rewrite filter_In. setoid_rewrite filter_In.
  setoid_rewrite <- list_elem_of_In. split.
  - intros ([id' c] & -> & [Hin Hst] & Hf). exists c. unfold is_statement in Hst.
    rewrite bool_decide_eq_true in Hst. split_and!; [done..|].
    intros Hw%time_validity_iff. simpl in Hf. apply negb_true_iff in Hf. congruence.
  - intros (c & Hin & Hst & Hf). exists (id, c). split_and!; [done..| |].
    + unfold is_statement. by apply bool_decide_eq_true.
    + apply negb_true_iff, not_true_iff_false. by rewrite time_validity_iff.
Qed.

Lemma lifecycle_status_spec ctx verified evidence effs embedded v :
  lifecycle_spec ctx (admitted ctx verified evidence effs) verified embedded v
    (lifecycle_status (apply_effects ctx verified evidence effs) (time_stage ctx verified).2
       (revocation_stale ctx (len embedded + len (ctx_status_objects ctx))) v).
Proof.
  unfold lifecycle_status.
  destruct (compromised _ v) eqn:Hc.
  { apply ls_compromised. by apply compromised_iff. }
  assert (¬ tainted (admitted ctx verified evidence effs) v) as Ht.
  { intros Ht%compromised_iff. congruence. }
  destruct (applies_to _ ClaimKind.Revoke _) eqn:Hr.
  { apply ls_revoked; [done|]. by apply applies_to_iff. }
  assert (¬ ended (admitted ctx verified evidence effs) ClaimKind.Revoke v.1) as Hr'
    by (intros ?%applies_to_iff; congruence).
  destruct (applies_to _ ClaimKind.Supersede _) eqn:Hs.
  { apply ls_superseded; [done..|]. by apply applies_to_iff. }
  assert (¬ ended (admitted ctx verified evidence effs) ClaimKind.Supersede v.1) as Hs'
    by (intros ?%applies_to_iff; congruence).
  case_bool_decide as Hx; rewrite time_failed_iff in Hx; [by apply ls_expired|].
  destruct (revocation_stale _ _) eqn:Hst.
  - apply ls_unknown; [done..|]. intros Hf%stale_iff. congruence.
  - apply ls_active; [done..|]. by apply stale_iff.
Qed.

(** * Evidence validity *)

Lemma zip_map {A B} (g : A → B) (l : list A) : zip l (map g l) = map (λ x, (x, g x)) l.
Proof. apply zip_with_map. Qed.

Lemma to_lowercase_cons c s :
  to_lowercase (String c s) =
  String (Ascii.ascii_of_byte (ascii_lower (Ascii.byte_of_ascii c))) (to_lowercase s).
Proof. reflexivity. Qed.

(** Lower-case hexadecimal stays itself under [to_lowercase]. *)
Lemma lower_hex_lower b : to_lowercase (lower_hex b) = lower_hex b.
Proof.
  induction b as [|x b IH]; [done|]. cbn [lower_hex]. rewrite !to_lowercase_cons, IH. by destruct x.
Qed.

(** Every effect that is read off a claim of kind compromise carries its instant. *)
Lemma read_effect_time c obj eff :
  read_effect c obj = Ok eff → eff_kind eff = ClaimKind.Compromise →
  ∃ n, eff_at_time eff = Some n.
Proof.
  unfold read_effect. destruct (claim_kind c) eqn:Hk; intros Hr He; try done;
    apply bind_Ok in Hr as (x & _ & Hr); repeat case_match; simplify_eq/=; eauto.
Qed.

Lemma record_effect_elem obj r eff : eff ∈ (record_effect obj r).2 → r = Ok eff.
Proof.
  destruct r as [e|]; simpl; [by intros ->%list_elem_of_singleton|by intros []%elem_of_nil].
Qed.

Section evidence_verdict.
Context `{Base64Url, Sha2, SignatureSchemes, HashOrderLaws}.
Context (ctx : VerifyCtx) (proof : Proof_) (event_ids : list string).

Abbreviation verified := (verified_of ctx proof).
Definition evidence_items : list (Evidence * string) :=
  map (λ e, (e, member_evidence_id e)) (prf_evidence proof).
Definition member_nodes : NodeSet :=
  NodeSet_new (event_ids ++ map member_attestation_id (prf_attestations proof)
               ++ map member_evidence_id (prf_evidence proof)).
Definition member_edges : list EdgeRecord :=
  map (λ r, mkEdge r (member_relationship_id r)) (prf_relationships proof).

(** The effects of the proof's and the caller's status objects that apply. *)
Definition effective (e : StatusEffect) : Prop :=
  admitted ctx verified evidence_items (all_effects ctx verified) e.
Definition embedded_ids : list string := (embedded_effects verified).2.

Definition statement (v : string * AttestationContent) : Prop :=
  v ∈ verified ∧ claim_kind v.2 = ClaimKind.Statement.

(** A statement that still stands: in its window, neither compromised nor
    revoked, and superseded or covered by fresh information. *)
Record standing (v : string * AttestationContent) : Prop := {
  sd_window : in_window ctx v.2;
  sd_untainted : ¬ tainted effective v;
  sd_unrevoked : ¬ ended effective ClaimKind.Revoke v.1;
  sd_current : ended effective ClaimKind.Supersede v.1 ∨ fresh ctx embedded_ids;
}.

(** A stated [evidence_digest] is the digest of the evidence it refers to. *)
Definition digest_bound (v : string * AttestationContent) : Prop :=
  ∀ claimed, evidence_digest_hex (att_claim v.2) = Some claimed →
  ∃ h eref, claimed = Ok h ∧ att_evidence_ref v.2 = Some eref ∧
    digest_by_evd evidence_items !! eref = Some h.

Record graph_ok : Prop := {
  go_valid : ∃ vg, validate_graph_with_grounding member_edges member_nodes (ctx_limits ctx)
                     (extra_set ctx) = Some (Ok vg);
  go_derivation : ∀ n, ¬ tc (member_edge derivation_edge member_nodes member_edges) n n;
  go_provenance : require_acyclic_provenance ctx = true →
    ∀ n, ¬ tc (member_edge provenance_edge member_nodes member_edges) n n;
}.

Record linkage_ok : Prop := {
  lk_bound : prf_referenced_proofs proof ≠ [] →
    len (prf_referenced_proofs proof) <= max_referenced_proofs (ctx_limits ctx);
  lk_sorted : sort_dedup (prf_referenced_proofs proof) = prf_referenced_proofs proof;
  lk_refs : ∀ r, r ∈ prf_referenced_proofs proof →
    check_proof_ref_id r = Ok tt ∧ r ≠ prf_proof_id proof;
}.

Record consistent : Prop := {
  cs_standing : ∀ v, statement v → standing v;
  cs_refs : ∀ a r, a ∈ prf_attestations proof → att_evidence_ref (sa_content a) = Some r →
    r ∈ member_nodes;
  cs_digests : ∀ v, statement v → digest_bound v;
  cs_evidence : ∀ e, e ∈ prf_evidence proof →
    ¬ ended effective ClaimKind.Withdraw (member_evidence_id e) ∧
    ¬ ended effective ClaimKind.Compromise (member_evidence_id e);
  cs_graph : graph_ok;
  cs_linkage : linkage_ok;
}.

Abbreviation ap := (apply_effects ctx verified evidence_items (all_effects ctx verified)).
Abbreviation life :=
  (lifecycle_stage ctx (prf_proof_id proof) verified ap (time_stage ctx verified).2 embedded_ids).

Lemma statement_filter v : v ∈ List.filter is_statement verified ↔ statement v.
Proof.
  unfold statement, is_statement. rewrite list_elem_of_In, filter_In, <- list_elem_of_In.
  by rewrite bool_decide_eq_true.
Qed.

Lemma time_pass :
  passes EVIDENCE_STAGES (time_stage ctx verified).1 ↔ ∀ v, statement v → in_window ctx v.2.
Proof.
  unfold time_stage. cbn [fst]. rewrite passes_map. setoid_rewrite statement_filter.
  assert (∀ v, (chk_stage (time_check ctx v) ∈ EVIDENCE_STAGES → chk_ok (time_check ctx v) = true)
    ↔ in_window ctx v.2) as Hone; [|by setoid_rewrite Hone].
  intros v. rewrite <- time_validity_iff. unfold time_check.
  destruct (time_validity v.2 ctx); simpl; [done|]. split; [|done]. intros Hc. apply Hc. stage_solve.
Qed.

Lemma lifecycle_check_pass obj s :
  (chk_stage (lifecycle_check obj s) ∈ EVIDENCE_STAGES → chk_ok (lifecycle_check obj s) = true) ↔
  (lifecycle_outcome s).2 = true.
Proof.
  unfold lifecycle_check. destruct s; cbn [lifecycle_outcome snd check_ok chk_ok chk_stage]; try done.
  all: split; [|done]; intros Hc; apply Hc; stage_solve.
Qed.

Lemma lifecycle_spec_ok v s :
  lifecycle_spec ctx effective verified embedded_ids v s →
  (lifecycle_outcome s).2 = true ↔
  ¬ tainted effective v ∧ ¬ ended effective ClaimKind.Revoke v.1 ∧
  (ended effective ClaimKind.Supersede v.1 ∨ untimely ctx verified v.1 ∨ fresh ctx embedded_ids).
Proof. destruct 1; cbn [lifecycle_outcome snd]; (split; [intros He|intros (? & ? & He)]); by intuition. Qed.

Lemma lifecycle_pass :
  (∀ v, statement v → in_window ctx v.2) →
  passes EVIDENCE_STAGES life.1 ↔ ∀ v, statement v → standing v.
Proof.
  intros Hw. unfold lifecycle_stage. cbn [fst]. rewrite !passes_app, map_map, passes_map.
  setoid_rewrite statement_filter. setoid_rewrite lifecycle_check_pass.
  cbn [lc_status lifecycle_record].
  assert (∀ v, (lifecycle_outcome (lifecycle_status ap (time_stage ctx verified).2
    (revocation_stale ctx (len embedded_ids + len (ctx_status_objects ctx))) v)).2 = true ↔ _) as Hone
    by (intros v; exact (lifecycle_spec_ok v _ (lifecycle_status_spec ctx verified evidence_items
      (all_effects ctx verified) embedded_ids v))).
  setoid_rewrite Hone. clear Hone.
  assert (∀ id, ¬ untimely ctx verified id) as Hu.
  { intros id (c & Hin & Hk & Hn). by apply Hn, (Hw (id, c)). }
  split.
  - intros [Hl _] v Hv. destruct (Hl v Hv) as (? & ? & [?|[Hun|?]]); [|by apply Hu in Hun|];
      split; by auto.
  - intros Hs. split_and!; [|apply passes_ok; repeat case_match; by repeat constructor..].
    intros v Hv. destruct (Hs v Hv). naive_solver.
Qed.

(** With every statement standing, no record says worse than superseded. *)
Lemma standing_backing aref s :
  (∀ v, statement v → standing v) → lifecycle_by_att life.2 !! aref = Some s →
  s = LifecycleStatus.Active ∨ s = LifecycleStatus.Superseded.
Proof.
  intros Hst Hs. apply hash_map_elem, list_elem_of_omap in Hs as (l & Hl & Hs).
  cbn [snd lifecycle_stage] in Hl. apply list_elem_of_fmap in Hl as (v & -> & Hv%statement_filter).
  cbn [lc_object lc_status lifecycle_record] in Hs. rewrite strip_prefix_app in Hs. simplify_eq/=.
  pose proof (lifecycle_status_spec ctx verified evidence_items (all_effects ctx verified)
    embedded_ids v) as Hs.
  assert (¬ untimely ctx verified v.1) as Hu.
  { intros (c & Hin & Hk & Hn). by apply Hn, (Hst (v.1, c)). }
  destruct (Hst v Hv) as [_ Ht Hr Hc].
  set (s := lifecycle_status _ _ _ _) in *. clearbody s.
  fold effective in Hs. destruct Hs; try done; [by right|by destruct Hc|by left].
Qed.

Lemma compromise_effect_time eff :
  effective eff → eff_kind eff = ClaimKind.Compromise → ∃ n, eff_at_time eff = Some n.
Proof.
  intros [Hin _] Hk. unfold all_effects in Hin. apply elem_of_app in Hin as [Hin|Hin].
  - unfold embedded_effects in Hin. cbn [fst snd] in Hin. rewrite map_map in Hin.
    apply list_elem_of_In, in_concat in Hin as (l & Hl & Hin).
    apply in_map_iff in Hl as (v & <- & _).
    apply list_elem_of_In, record_effect_elem in Hin. by eapply read_effect_time.
  - unfold supplied_effects in Hin. cbn [snd] in Hin. rewrite map_map in Hin.
    apply list_elem_of_In, in_concat in Hin as (l & Hl & Hin).
    apply in_map_iff in Hl as (v & <- & _).
    apply list_elem_of_In, record_effect_elem in Hin.
    apply bind_Ok in Hin as (c & _ & Hin). by eapply read_effect_time.
Qed.

Lemma evidence_item_pass e :
  (∀ v, statement v → standing v) →
  (chk_stage (evidence_item ap (lifecycle_by_att life.2) e).1 ∈ EVIDENCE_STAGES →
   chk_ok (evidence_item ap (lifecycle_by_att life.2) e).1 = true) ↔
  ¬ ended effective ClaimKind.Withdraw e.2 ∧ ¬ ended effective ClaimKind.Compromise e.2.
Proof.
  intros Hst. unfold evidence_item.
  assert ((evidence_outcome ap (lifecycle_by_att life.2) e).1.2 = true ↔
    ¬ ended effective ClaimKind.Withdraw e.2 ∧ ¬ ended effective ClaimKind.Compromise e.2) as Hout.
  { unfold evidence_outcome.
    destruct (existsb _ (ap_compromises ap)) eqn:Hm.
    { split; [done|]. intros [_ Hn]. destruct Hn. apply existsb_true in Hm as ([t n] & Hin & Ht).
      apply bool_decide_eq_true in Ht. simpl in Ht. subst.
      apply compromises_iff in Hin as (eff & ? & ? & ? & ?). by exists eff. }
    destruct (applies_to ap ClaimKind.Withdraw e.2) eqn:Hw.
    { split; [done|]. intros [Hn _]. destruct Hn. by apply applies_to_iff. }
    trans True.
    - split; [done|]. intros _.
      destruct (evd_attestation_ref e.1 ≫= _) as [s|] eqn:Hs.
      + apply bind_Some in Hs as (aref & _ & Hs).
        by destruct (standing_backing aref s Hst Hs) as [-> | ->].
      + by case_bool_decide.
    - split; [intros _|done]. split; [intros Hn%applies_to_iff; congruence|].
      intros (eff & Ha & Ht & Hk).
      assert (∃ n, eff_at_time eff = Some n) as [n Hn] by by apply compromise_effect_time.
      apply existsb_false with (x := (e.2, n)) in Hm.
      + by rewrite bool_decide_eq_true_2 in Hm.
      + apply compromises_iff. by exists eff. }
  rewrite <- Hout. destruct (evidence_outcome _ _ _) as [[[st code] []] msg]; simpl; [done|].
  split; [|done]. intros Hc. apply Hc. stage_solve.
Qed.
End evidence_verdict.

Section evidence_theorem.
Context `{Base64Url, Sha2, SignatureSchemes, HashOrderLaws}.
Context (ctx : VerifyCtx) (proof : Proof_) (event_ids : list string).

Abbreviation verified := (verified_of ctx proof).
Abbreviation items := (evidence_items proof).
Abbreviation nodes := (member_nodes proof event_ids).
Abbreviation ap := (apply_effects ctx verified items (all_effects ctx verified)).
Abbreviation life :=
  (lifecycle_stage ctx (prf_proof_id proof) verified ap (time_stage ctx verified).2
     (embedded_ids ctx proof)).

Lemma evidence_refs_pass :
  passes EVIDENCE_STAGES (evidence_ref_checks proof nodes) ↔
  ∀ a r, a ∈ prf_attestations proof → att_evidence_ref (sa_content a) = Some r → r ∈ nodes.
Proof.
  unfold evidence_ref_checks, contains. rewrite passes_omap. split.
  - intros Hp a r Ha Hr. destruct (decide (r ∈ nodes)) as [|Hn]; [done|]. exfalso.
    specialize (Hp a (check_fail "EVIDENCE" ("proof:" +:+ prf_proof_id proof)
      ErrorCode.DanglingReference) Ha). rewrite Hr, bool_decide_eq_false_2 in Hp by done.
    discriminate (Hp eq_refl ltac:(stage_solve)).
  - intros Hr a c Ha Hc _. destruct (att_evidence_ref (sa_content a)) as [r|] eqn:E; [|done].
    rewrite bool_decide_eq_true_2 in Hc; [done|]. by eapply Hr.
Qed.

Lemma digest_entry eref actual :
  digest_by_evd items !! eref = Some actual → to_lowercase actual = actual.
Proof.
  intros Hin%hash_map_elem. apply list_elem_of_fmap in Hin as (p & [= -> ->] & _).
  apply lower_hex_lower.
Qed.

Lemma digests_pass :
  passes EVIDENCE_STAGES (digest_binding_checks verified items) ↔
  ∀ v, statement ctx proof v → digest_bound proof v.
Proof.
  unfold digest_binding_checks. rewrite passes_omap. setoid_rewrite statement_filter.
  assert (∀ o e, (chk_stage (check_fail "EVIDENCE" o e) ∈ EVIDENCE_STAGES → false = true) → False) as Hf.
  { intros o e Hc. discriminate (Hc ltac:(stage_solve)). }
  unfold digest_binding_check. split.
  - intros Hp v Hv claimed Hcl. specialize (Hp v). rewrite Hcl in Hp.
    destruct claimed as [h|e]; [|by destruct (Hf _ _ (Hp _ Hv eq_refl))].
    destruct (att_evidence_ref v.2) as [eref|] eqn:Her; [|by destruct (Hf _ _ (Hp _ Hv eq_refl))].
    destruct (digest_by_evd items !! eref) as [actual|] eqn:Hd;
      [|by destruct (Hf _ _ (Hp _ Hv eq_refl))].
    case_bool_decide as Hne; [by destruct (Hf _ _ (Hp _ Hv eq_refl))|].
    rewrite (digest_entry _ _ Hd) in Hne. subst actual. by exists h, eref.
  - intros Hb v c Hv Hc _. specialize (Hb v Hv). unfold digest_bound in Hb.
    destruct (evidence_digest_hex (att_claim v.2)) as [claimed|]; [|done].
    destruct (Hb claimed eq_refl) as (h & eref & -> & Her & Hd). rewrite Her, Hd in Hc.
    rewrite (digest_entry _ _ Hd), bool_decide_eq_false_2 in Hc by auto. by simplify_eq.
Qed.

Lemma evidence_pass :
  (∀ v, statement ctx proof v → standing ctx proof v) →
  passes EVIDENCE_STAGES (evidence_stage proof nodes verified ap life.2 items).1 ↔
  (∀ a r, a ∈ prf_attestations proof → att_evidence_ref (sa_content a) = Some r → r ∈ nodes) ∧
  (∀ v, statement ctx proof v → digest_bound proof v) ∧
  (∀ e, e ∈ prf_evidence proof →
     ¬ ended (effective ctx proof) ClaimKind.Withdraw (member_evidence_id e) ∧
     ¬ ended (effective ctx proof) ClaimKind.Compromise (member_evidence_id e)).
Proof.
  intros Hst. unfold evidence_stage. cbn [fst]. rewrite <- evidence_refs_pass, <- digests_pass.
  rewrite map_map, passes_app, !passes_app, passes_map.
  setoid_rewrite (λ e, evidence_item_pass ctx proof e Hst).
  assert (passes EVIDENCE_STAGES
    (if negb (existsb (λ c, negb (chk_ok c)) (evidence_ref_checks proof nodes
        ++ digest_binding_checks verified items
        ++ map (λ x, (evidence_item ap (lifecycle_by_att life.2) x).1) items))
     then [check_ok "EVIDENCE" ("proof:" +:+ prf_proof_id proof)] else [])) as Hlast
    by (apply passes_ok; case_match; by repeat constructor).
  assert ((∀ x, x ∈ items → ¬ ended (effective ctx proof) ClaimKind.Withdraw x.2 ∧
      ¬ ended (effective ctx proof) ClaimKind.Compromise x.2) ↔
    (∀ e, e ∈ prf_evidence proof →
     ¬ ended (effective ctx proof) ClaimKind.Withdraw (member_evidence_id e) ∧
     ¬ ended (effective ctx proof) ClaimKind.Compromise (member_evidence_id e))) as ->.
  { unfold evidence_items. setoid_rewrite list_elem_of_fmap. split.
    - intros Hi e He. apply (Hi (e, member_evidence_id e)). by exists e.
    - intros He x (e & -> & Hin). by apply He. }
  tauto.
Qed.

Lemma graph_pass g :
  graph_stage ctx (prf_proof_id proof) (member_edges proof) nodes = Some g →
  passes EVIDENCE_STAGES g ↔ graph_ok ctx proof event_ids.
Proof.
  unfold graph_stage. intros Hg.
  destruct (validate_graph_with_grounding (member_edges proof) nodes (ctx_limits ctx) (extra_set ctx))
    as [[vg|e]|] eqn:Hv; simplify_eq/=.
  2: { rewrite passes_one. split.
       - intros Hc. exfalso. destruct e; discriminate (Hc ltac:(stage_solve)).
       - intros [[vg Hvg] _ _]. congruence. }
  destruct (derivation_spec (member_edges proof) nodes) as [[Hd Hacy]|[Hd [n Hcyc]]];
    rewrite Hd in Hg; simpl in Hg.
  2: { split; [|intros [_ Hno _]; by destruct (Hno n)]. intros Hp. exfalso.
       assert (check_fail "GRAPH" ("proof:" +:+ prf_proof_id proof) ErrorCode.CycleDetected ∈ g) as Hin
         by (destruct (require_acyclic_provenance ctx);
             [apply bind_Some in Hg as (p & Hp1 & [= <-])|injection Hg as <-]; set_solver).
       discriminate (Hp _ Hin ltac:(stage_solve)). }
  destruct (require_acyclic_provenance ctx) eqn:Hreq.
  - destruct (provenance_spec (member_edges proof) nodes) as [[Hp Hpa]|[Hp [n Hcyc]]];
      rewrite Hp in Hg; simplify_eq/=.
    + split; [|intros _; apply passes_ok; by repeat constructor]. intros _. split; [by eexists|done|done].
    + split; [|intros [_ _ Hno]; by destruct (Hno Hreq n)]. intros Hps. exfalso.
      assert (check_fail "GRAPH" ("proof:" +:+ prf_proof_id proof) ErrorCode.CycleDetected ∈
        [check_ok "RELATIONSHIPS" ("proof:" +:+ prf_proof_id proof);
         check_ok "GRAPH" ("proof:" +:+ prf_proof_id proof);
         check_ok "GRAPH" ("proof:" +:+ prf_proof_id proof);
         check_fail "GRAPH" ("proof:" +:+ prf_proof_id proof) ErrorCode.CycleDetected]) as Hin by set_solver.
      discriminate (Hps _ Hin ltac:(stage_solve)).
  - simplify_eq/=. split; [|intros _; apply passes_ok; by repeat constructor].
    intros _. split; [by eexists|done|congruence].
Qed.
End evidence_theorem.

Section evidence_final.
Context `{Base64UrlLaws, Sha2, SignatureSchemes, HashOrderLaws}.

Lemma check_refs_None obj id refs :
  check_refs obj id refs = None ↔ ∀ r, r ∈ refs → check_proof_ref_id r = Ok tt ∧ r ≠ id.
Proof.
  induction refs as [|r refs IH]; simpl; [split; [set_solver|done]|].
  setoid_rewrite elem_of_cons.
  destruct (check_proof_ref_id r) as [[]|e] eqn:Hr.
  - case_bool_decide as Hid; [subst; split; [done|intros Ha; by destruct (Ha id ltac:(by left)) as [_ []]]|].
    rewrite IH. split; [intros Ha r' [-> | Hin]; [done|by apply Ha]|intros Ha r' Hin; apply Ha; by right].
  - split; [done|]. intros Ha. destruct (Ha r ltac:(by left)). congruence.
Qed.

Lemma graph_fail_passes obj (b : bool) e :
  passes EVIDENCE_STAGES (if b then [check_fail "GRAPH" obj e] else []) ↔ b = false.
Proof.
  destruct b; [|split; [done|intros _; apply passes_nil]].
  rewrite passes_one. split; [|done]. intros Hc. discriminate (Hc ltac:(stage_solve)).
Qed.

Lemma linkage_pass ctx proof : passes EVIDENCE_STAGES (linkage_stage ctx proof) ↔ linkage_ok ctx proof.
Proof.
  unfold linkage_stage. cbn zeta.
  destruct (N.eqb_spec (len (prf_referenced_proofs proof)) 0) as [Hz|Hz].
  { apply len_zero in Hz. split; [intros _|intros _; apply passes_nil].
    split; rewrite Hz; [done..|]. by intros r []%elem_of_nil. }
  assert (prf_referenced_proofs proof ≠ []) as Hne by (by rewrite <- len_zero).
  set (obj := "proof:" +:+ prf_proof_id proof).
  set (shape := match check_refs _ _ _ with Some c => _ | None => _ end).
  assert (passes EVIDENCE_STAGES shape ↔
    ∀ r, r ∈ prf_referenced_proofs proof → check_proof_ref_id r = Ok tt ∧ r ≠ prf_proof_id proof)
    as Hshape.
  { unfold shape. rewrite <- (check_refs_None obj). destruct (check_refs _ _ _) as [c|] eqn:E.
    - split; [|done]. rewrite passes_one, (check_refs_tagged _ _ _ _ E). intros Hc.
      assert (chk_ok c = false) as Hf.
      { clear -E. induction (prf_referenced_proofs proof) as [|r refs IH]; simpl in E; [done|].
        repeat case_match; simplify_eq/=; auto. }
      rewrite Hf in Hc. discriminate (Hc ltac:(stage_solve)).
    - split; [done|]. intros _. apply passes_nil. }
  rewrite !passes_app, Hshape, !graph_fail_passes, N.ltb_ge.
  rewrite orb_false_iff, negb_false_iff, N.eqb_eq, bool_decide_eq_false.
  split.
  - intros [(Hb & [_ Hs] & Hr) _]. split; [done| |done]. by apply dec_stable.
  - intros [Hb Hs Hr]. split_and!; [by apply Hb|by rewrite Hs|by intros []|done|].
    apply passes_ok. case_match; by repeat constructor.
Qed.

Lemma later_pass ctx proof ids later :
  later_stages ctx proof ids (map member_attestation_id (prf_attestations proof))
    (map member_evidence_id (prf_evidence proof))
    (map member_relationship_id (prf_relationships proof)) (verified_of ctx proof) = Some later →
  passes EVIDENCE_STAGES (lt_checks later) ↔ consistent ctx proof ids.
Proof.
  unfold later_stages. rewrite zip_map. fold (evidence_items proof) (member_nodes proof ids).
  rewrite zip_with_map. fold (member_edges proof). cbn zeta. intros Hl.
  apply bind_Some in Hl as (g & Hg & Hl). apply (inj Some) in Hl as <-. cbn [lt_checks].
  fold (embedded_ids ctx proof).
  assert (∀ l k, passes EVIDENCE_STAGES l → passes EVIDENCE_STAGES (l ++ k) ↔ passes EVIDENCE_STAGES k)
    as Hskip by (intros l k Hk; rewrite passes_app; tauto).
  assert (∀ l, tagged [STATUS_STAGE] l → passes EVIDENCE_STAGES l) as Hstatus
    by (intros l Ht; eapply tagged_passes; [exact Ht|vm_compute; reflexivity]).
  rewrite (passes_app _ (time_stage ctx (verified_of ctx proof)).1), time_pass.
  rewrite (Hskip _ _ (Hstatus _ (embedded_tagged _))), (Hskip _ _ (Hstatus _ (supplied_tagged _))).
  rewrite (Hskip _ _ (Hstatus _ (applied_tagged _ _ _ _))).
  rewrite (passes_app _ (lifecycle_stage _ _ _ _ _ _).1).
  rewrite (passes_app _ (evidence_stage _ _ _ _ _ _).1), (passes_app _ g).
  rewrite (graph_pass ctx proof ids g Hg), (passes_app _ (linkage_stage _ _)), linkage_pass.
  assert (passes EVIDENCE_STAGES (conflicts_stage proof (verified_of ctx proof)).1) as Hconf.
  { apply passes_ok. eapply Forall_impl; [apply conflict_checks_ok|]. by intros c [? _]. }
  split.
  - intros (Hw & Hl & He & Hgr & Hlk & _). pose proof (proj1 (lifecycle_pass ctx proof Hw) Hl) as Hs.
    destruct (proj1 (evidence_pass ctx proof ids Hs) He) as (Hr & Hd & He'). by split.
  - intros [Hs Hr Hd He Hgr Hlk].
    assert (∀ v, statement ctx proof v → in_window ctx v.2) as Hw by (intros v Hv; by apply Hs).
    split_and!; [done|exact (proj2 (lifecycle_pass ctx proof Hw) Hs)
      |by apply (evidence_pass ctx proof ids Hs)|done..].
Qed.

Lemma full_run_evidence bytes ctx r proof ids rid later :
  full_run bytes ctx r proof ids rid later →
  evidence_validity r = Validity.Valid ↔ consistent ctx proof ids.
Proof.
  intros Hf. assert (evidence_validity r = stage_valid (vr_checks r) EVIDENCE_STAGES) as ->
    by (by destruct Hf as [_ _ _ _ ->]).
  rewrite stage_valid_iff, (full_run_passes EVIDENCE_STAGES _ _ _ _ _ _ _ Hf).
  pose proof (signatures_tagged ctx proof) as Hsig.
  apply (tagged_passes _ EVIDENCE_STAGES) in Hsig; [|vm_compute; reflexivity].
  pose proof (fr_later _ _ _ _ _ _ _ Hf) as Hl. rewrite signatures_stage_eq in Hl.
  rewrite (later_pass ctx proof ids later Hl).
  assert (passes EVIDENCE_STAGES [identifier_check rid (prf_proof_id proof)]); [|tauto].
  rewrite passes_one. unfold identifier_check. case_bool_decide; [|done].
  intros Hin. assert ("IDENTIFIERS" ∉ EVIDENCE_STAGES) as Hn by stage_solve. by destruct Hn.
Qed.
End evidence_final.
