(* ===== verification/Verdicts.v ===== *)
(** Verdicts: the theorems on the verification pipeline.

    When a report comes out at all, what each of its two validities is
    equivalent to, the contract of the lifecycle machine, the withdrawal list,
    the isolation of a broken status feed, the dimension projection and the
    conflict records, each for every input. *)
From Stdlib Require Import Strings.Byte NArith ZArith Lia.
From S2P Require Import Prelude Core External Cbor Schema Graph Ident Claim Cose.
From S2P Require Import Report Pipeline PipelineFacts.

Section verdicts.
Context `{Base64UrlLaws, Sha2, SignatureSchemes, HashOrderLaws}.

(** C5: verification is total.  Whatever the bytes, a run that is not caller
    misuse returns a report; the two error codes are the remote-fetch request
    and an input vector over its limit, and occur exactly on misuse. *)
Theorem verify_proof_total bytes ctx :
  if misuse ctx
  then ∃ e, verify_proof bytes ctx = Some (Err e) ∧
            (e = ErrorCode.SchemaViolation ∧ allow_remote ctx = true ∨ e = ErrorCode.LimitExceeded)
  else ∃ r, verify_proof bytes ctx = Some (Ok r).
Proof.
  destruct (misuse ctx) eqn:Hm; [by apply verify_proof_misuse|].
  destruct (verify_proof_spec bytes ctx Hm) as (r & Hr & _). by exists r.
Qed.

(** The parsed proof of some bytes. *)
Definition parses (bytes : list byte) (ctx : VerifyCtx) (proof : Proof_) : Prop :=
  ∃ v, decode_strict bytes (ctx_limits ctx) = Ok v ∧ cbor_to_proof v (ctx_limits ctx) = Ok proof.

Lemma parses_inj bytes ctx p q : parses bytes ctx p → parses bytes ctx q → p = q.
Proof. intros (v & Hv & Hp) (w & Hw & Hq). congruence. Qed.

Lemma stopped_parses bytes ctx r proof : stopped bytes ctx r → ¬ parses bytes ctx proof.
Proof. intros [e He|v e Hv He] (w & Hw & Hp); congruence. Qed.

(** A run that stopped reports nothing but the failure that stopped it. *)
Record rejected (r : VerifyReport) : Prop := {
  rj_crypto : cryptographic_validity r = Validity.Invalid;
  rj_evidence : evidence_validity r = Validity.Invalid;
  rj_lifecycle : lifecycle_checked r = false;
  rj_id : vr_proof_id r = None;
  rj_empty : vr_lifecycle r = [] ∧ vr_status_objects r = [] ∧ vr_withdrawn_ids r = [] ∧
             vr_referenced_proofs r = [] ∧ vr_vocabularies r = [] ∧ vr_evidence_status r = [] ∧
             vr_conflicts r = [];
  rj_failed : ∃ c, c ∈ vr_checks r ∧ chk_ok c = false ∧ chk_stage c ∈ ["PARSE"; "SCHEMA"; "CANONICAL"];
}.
Lemma stopped_rejected bytes ctx r : stopped bytes ctx r → rejected r.
Proof.
  intros [e He|v e Hv He]; split; try done.
  - eexists. split; [by left|]. split; [done|]. stage_solve.
  - eexists. split; [right; by left|]. split; [done|]. stage_solve.
Qed.

Lemma full_run_checked bytes ctx r proof ids rid later :
  full_run bytes ctx r proof ids rid later → lifecycle_checked r = true.
Proof. by intros [_ _ _ _ ->]. Qed.

(** Early exits fail closed.  The lifecycle stages ran exactly when the
    bytes parse as a proof; a run on bytes that do not parse is rejected in
    both dimensions, with no lifecycle, evidence or conflict record. *)
Theorem early_exit_fails_closed bytes ctx r (Hr : verify_proof bytes ctx = Some (Ok r)) :
  (lifecycle_checked r = true ∧ ∃ proof, parses bytes ctx proof ∧
     vr_proof_id r = Some (prf_proof_id proof)) ∨
  (rejected r ∧ ∀ proof, ¬ parses bytes ctx proof).
Proof.
  apply verify_proof_inv in Hr as [_ [Hs|(proof & ids & rid & later & Hf)]].
  - right. split; [by eapply stopped_rejected|]. intros proof. by eapply stopped_parses.
  - left. split; [by eapply full_run_checked|]. exists proof.
    split; [apply Hf|]. by destruct Hf as [_ _ _ _ ->].
Qed.

Lemma cryptographic_validity_spec bytes ctx r :
  verify_proof bytes ctx = Some (Ok r) →
  cryptographic_validity r = Validity.Valid ↔
  ∃ proof, parses bytes ctx proof ∧ recomputed_proof_id proof = Ok (prf_proof_id proof) ∧
    ∀ a, a ∈ prf_attestations proof → authentic ctx a.
Proof.
  intros Hr. apply verify_proof_inv in Hr as [_ [Hs|(proof & ids & rid & later & Hf)]].
  - rewrite (rj_crypto r) by (by eapply stopped_rejected). split; [done|].
    intros (proof & Hp & _). by destruct (stopped_parses bytes ctx r proof Hs).
  - rewrite (full_run_crypto _ _ _ _ _ _ _ Hf). pose proof (fr_id _ _ _ _ _ _ _ Hf) as Hid. split.
    + intros [-> Ha]. exists proof. split_and!; [apply Hf|done..].
    + intros (proof' & Hp & Hid' & Ha).
      assert (proof' = proof) as -> by (eapply parses_inj; [exact Hp|apply Hf]).
      split; [congruence|done].
Qed.

(** C1: cryptographic validity.  It is reported exactly when the bytes parse,
    the stored proof id is the one recomputed from the members, and every
    attestation is the authentic, signed statement of the issuer it names. *)
Theorem cryptographic_validity_iff bytes ctx r (Hr : verify_proof bytes ctx = Some (Ok r)) :
  cryptographic_validity r = Validity.Valid ↔
  ∃ proof, parses bytes ctx proof ∧ recomputed_proof_id proof = Ok (prf_proof_id proof) ∧
    ∀ a, a ∈ prf_attestations proof → authentic ctx a.
Proof. by apply cryptographic_validity_spec. Qed.


(** Past the schema, the later stages are those of the verified attestations. *)
Lemma full_run_later bytes ctx r proof ids rid later :
  full_run bytes ctx r proof ids rid later →
  let items := evidence_items proof in
  let verified := verified_of ctx proof in
  let ap := apply_effects ctx verified items (all_effects ctx verified) in
  lt_lifecycle later =
    (lifecycle_stage ctx (prf_proof_id proof) verified ap (time_stage ctx verified).2
       (embedded_ids ctx proof)).2 ∧
  lt_withdrawn later = ap_withdrawn ap ∧
  lt_status_objects later = embedded_ids ctx proof ∧
  lt_evidence_status later =
    (evidence_stage proof (member_nodes proof ids) verified ap (lt_lifecycle later) items).2 ∧
  lt_conflicts later = (conflicts_stage proof verified).2.
Proof.
  intros [_ _ _ Hl _]. rewrite signatures_stage_eq in Hl. unfold later_stages in Hl.
  rewrite zip_map in Hl. apply bind_Some in Hl as (g & _ & Hl). by apply (inj Some) in Hl as <-.
Qed.


(** The withdrawal list is exact.  It names, once each, exactly the targets
    of the withdrawals that are authorized and not post-dated. *)
Theorem withdrawn_exact bytes ctx r proof (Hr : verify_proof bytes ctx = Some (Ok r))
  (Hp : parses bytes ctx proof) :
  NoDup (vr_withdrawn_ids r) ∧
  ∀ t, t ∈ vr_withdrawn_ids r ↔ ended (effective ctx proof) ClaimKind.Withdraw t.
Proof.
  apply verify_proof_inv in Hr as [_ [Hs|(proof' & ids & rid & later & Hf)]].
  { by destruct (stopped_parses bytes ctx r proof Hs). }
  assert (proof' = proof) as -> by (eapply parses_inj; [apply Hf|done]).
  destruct (full_run_later _ _ _ _ _ _ _ Hf) as (_ & Hw & _). destruct Hf as [_ _ _ _ ->].
  cbn [vr_withdrawn_ids finalize]. rewrite Hw.
  destruct (apply_effects_acc ctx (verified_of ctx proof) (evidence_items proof)
    (all_effects ctx (verified_of ctx proof)) no_effects) as (_ & _ & Hiff & Hnd).
  split; [by apply Hnd, NoDup_nil|]. intros t. unfold apply_effects. rewrite Hiff.
  split; [by intros [Ht|?]; [apply elem_of_nil in Ht|]|by right].
Qed.

(** The overall verdict of a report whose policy is undecided. *)
Lemma overall_cases r :
  policy_decision r = PolicyDecision.Indeterminate →
  overall_verdict r =
    (if bool_decide (Verdict.Invalid ∈
       [structural_verdict r; cryptographic_verdict r; evidence_verdict r; provenance_verdict r;
        temporal_verdict r; revocation_verdict r; policy_verdict r])
     then Verdict.Invalid else Verdict.Indeterminate).
Proof.
  intros Hp. unfold overall_verdict. case_bool_decide; [done|].
  rewrite bool_decide_eq_true_2; [done|]. unfold policy_verdict. rewrite Hp. set_solver.
Qed.

Lemma failed_stage r (stages group : list string) :
  (∃ c, c ∈ vr_checks r ∧ chk_ok c = false ∧ chk_stage c ∈ stages) →
  forallb (λ s, bool_decide (s ∈ group)) stages = true →
  stage_valid (vr_checks r) group = Validity.Invalid.
Proof.
  intros (c & Hc & Ho & Hs) Hsub. destruct (stage_valid _ _) eqn:E; [|done].
  apply stage_valid_iff in E. rewrite forallb_Forall, Forall_forall in Hsub.
  specialize (E c Hc (proj1 (bool_decide_eq_true _) (Hsub _ Hs))). congruence.
Qed.

Lemma provenance_failed r :
  lifecycle_checked r = true → provenance_verdict r = Verdict.Invalid →
  ∃ c, c ∈ vr_checks r ∧ chk_ok c = false ∧ chk_stage c ∈ ["RELATIONSHIPS"; "GRAPH"].
Proof.
  unfold provenance_verdict. intros ->. simpl. intros Hv.
  apply (verdict_for_Invalid _ _ false Verdict.NotApplicable); [done|].
  unfold verdict_for. revert Hv. by case_match.
Qed.

Lemma overall_full r :
  policy_decision r = PolicyDecision.Indeterminate → lifecycle_checked r = true →
  cryptographic_validity r = stage_valid (vr_checks r) CRYPTO_STAGES →
  evidence_validity r = stage_valid (vr_checks r) EVIDENCE_STAGES →
  overall_verdict r = Verdict.Invalid ↔
  ¬ (cryptographic_validity r = Validity.Valid ∧ evidence_validity r = Validity.Valid).
Proof.
  intros Hp Hl Hc He. rewrite overall_cases by done. case_bool_decide as Hin.
  - split; [intros _ [Hcv Hev]|done].
    assert (evidence_verdict r = Verdict.Valid) as Hevv by (unfold evidence_verdict; by rewrite Hev).
    assert (policy_verdict r = Verdict.Indeterminate) as Hpv by (unfold policy_verdict; by rewrite Hp).
    rewrite Hevv, Hpv, !elem_of_cons, elem_of_nil in Hin.
    destruct Hin as [Hv|[Hv|[Hv|[Hv|[Hv|[Hv|[Hv|Hv]]]]]]]; try done; symmetry in Hv.
    + apply verdict_for_Invalid in Hv; [|done].
      rewrite (failed_stage r _ CRYPTO_STAGES Hv) in Hc by (vm_compute; done). congruence.
    + apply verdict_for_Invalid in Hv; [|done].
      rewrite (failed_stage r _ CRYPTO_STAGES Hv) in Hc by (vm_compute; done). congruence.
    + apply provenance_failed in Hv; [|done].
      rewrite (failed_stage r _ EVIDENCE_STAGES Hv) in He by (vm_compute; done). congruence.
    + apply verdict_for_Invalid in Hv; [|done].
      rewrite (failed_stage r _ EVIDENCE_STAGES Hv) in He by (vm_compute; done). congruence.
    + apply verdict_for_Invalid in Hv; [|done].
      rewrite (failed_stage r _ EVIDENCE_STAGES Hv) in He by (vm_compute; done). congruence.
  - split; [done|]. intros Hn. exfalso. apply Hn. clear Hn.
    rewrite !not_elem_of_cons in Hin. destruct Hin as (Hs & Hcr & Hev & _). split.
    + rewrite Hc. apply stage_valid_iff. intros c Hcin Hst. destruct (chk_ok c) eqn:Ho; [done|].
      exfalso. assert (chk_stage c ∈ ["PARSE"; "SCHEMA"; "CANONICAL"] ∨
        chk_stage c ∈ ["IDENTIFIERS"; "SIGNATURES"; "KEYS"]) as [Hg|Hg]
        by (revert Hst; unfold CRYPTO_STAGES; rewrite !elem_of_cons, !elem_of_nil; tauto).
      * destruct Hs. symmetry. apply verdict_for_Invalid; [done|]. by exists c.
      * destruct Hcr. symmetry. apply verdict_for_Invalid; [done|]. by exists c.
    + destruct (evidence_validity r) eqn:E; [done|]. destruct Hev.
      unfold evidence_verdict. by rewrite E, Hl.
Qed.

(** The dimension projection agrees with the validities.  The pipeline
    never decides policy, so its overall verdict is never VALID: it is
    INVALID exactly when one of the two validities fails, and INDETERMINATE
    otherwise. *)
Theorem overall_verdict_exact bytes ctx r (Hr : verify_proof bytes ctx = Some (Ok r)) :
  policy_decision r = PolicyDecision.Indeterminate ∧
  overall_verdict r =
    (if bool_decide (cryptographic_validity r = Validity.Valid ∧
                     evidence_validity r = Validity.Valid)
     then Verdict.Indeterminate else Verdict.Invalid).
Proof.
  apply verify_proof_inv in Hr as [_ [Hs|(proof & ids & rid & later & Hf)]].
  - assert (policy_decision r = PolicyDecision.Indeterminate) as Hp by (by destruct Hs).
    split; [done|]. apply stopped_rejected in Hs as [Hc He _ _ _ Hfail].
    rewrite Hc, bool_decide_eq_false_2 by (by intros [? _]).
    rewrite overall_cases, bool_decide_eq_true_2; [done| |done].
    apply elem_of_cons. left. symmetry. by apply verdict_for_Invalid.
  - pose proof (full_run_checked _ _ _ _ _ _ _ Hf) as Hl. destruct Hf as [_ _ _ _ Hfin].
    assert (policy_decision r = PolicyDecision.Indeterminate) as Hp by (by rewrite Hfin).
    assert (overall_verdict r = Verdict.Invalid ↔ ¬ (cryptographic_validity r = Validity.Valid ∧
      evidence_validity r = Validity.Valid)) as Ho by (apply overall_full; by rewrite Hfin).
    split; [done|]. rewrite overall_cases in * by done.
    case_bool_decide; case_bool_decide; tauto || naive_solver.
Qed.
End verdicts.

(** * The fail-collect switch *)

Definition set_report_all (b : bool) (ctx : VerifyCtx) : VerifyCtx := {|
  verified_at := verified_at ctx; clock_skew_leeway := clock_skew_leeway ctx;
  trusted_issuers := trusted_issuers ctx; allow_remote := allow_remote ctx;
  allowed_algs := allowed_algs ctx; ctx_limits := ctx_limits ctx;
  ctx_status_objects := ctx_status_objects ctx;
  revocation_authorities := revocation_authorities ctx;
  revocations_known_at := revocations_known_at ctx; report_all_failures := b;
  accepted_vocabularies := accepted_vocabularies ctx; extra_grounded := extra_grounded ctx;
  require_acyclic_provenance := require_acyclic_provenance ctx;
  require_status_feed := require_status_feed ctx |}.

Section collect.
Context `{Base64Url, Sha2, SignatureSchemes, HashOrderLaws}.

(** The CANONICAL stage never fails.  Strict decoding already refuses
    every non-canonical encoding, so the re-encoding comparison holds on all
    inputs that reach it, and fail-fast and fail-collect runs are the same. *)
Theorem canonical_stage_inert bytes ctx b :
  verify_proof bytes (set_report_all b ctx) = verify_proof bytes ctx ∧
  ∀ r c, verify_proof bytes ctx = Some (Ok r) → c ∈ vr_checks r → chk_stage c = "CANONICAL" →
         chk_ok c = true.
Proof.
  split.
  - unfold verify_proof. cbn [ctx_limits set_report_all allow_remote ctx_status_objects
      trusted_issuers revocation_authorities report_all_failures].
    destruct (decode_strict bytes (ctx_limits ctx)) as [v|e] eqn:Hd; [|done].
    rewrite !bool_decide_eq_false_2 by (intros Hne; apply Hne; by apply decode_strict_inv in Hd as [? _]).
    done.
  - intros r c Hr Hc Hs. assert (passes ["CANONICAL"] (vr_checks r)) as Hp; [|apply Hp; set_solver].
    apply verify_proof_inv in Hr as [_ [Hst|(proof & ids & rid & later & Hf)]].
    + assert ("PARSE" ∉ ["CANONICAL"] ∧ "SCHEMA" ∉ ["CANONICAL"]) as [? ?] by (split; stage_solve).
      destruct Hst; cbn [vr_checks early_exit finalize]; intros d Hd;
        rewrite ?elem_of_app, !list_elem_of_singleton in Hd; naive_solver.
    + apply (full_run_passes ["CANONICAL"] _ _ _ _ _ _ _ Hf). split_and!.
      * rewrite passes_one. unfold identifier_check. case_bool_decide; [|done]. intros Hin.
        assert ("IDENTIFIERS" ∉ ["CANONICAL"]) as Hn by stage_solve. by destruct Hn.
      * eapply tagged_passes; [apply signatures_tagged|vm_compute; reflexivity].
      * eapply tagged_passes; [eapply later_stages_tagged, Hf|vm_compute; reflexivity].
Qed.
End collect.

(** * A broken status feed *)

Definition with_status_objects (objects : list SignedStatus) (ctx : VerifyCtx) : VerifyCtx := {|
  verified_at := verified_at ctx; clock_skew_leeway := clock_skew_leeway ctx;
  trusted_issuers := trusted_issuers ctx; allow_remote := allow_remote ctx;
  allowed_algs := allowed_algs ctx; ctx_limits := ctx_limits ctx;
  ctx_status_objects := objects;
  revocation_authorities := revocation_authorities ctx;
  revocations_known_at := revocations_known_at ctx;
  report_all_failures := report_all_failures ctx;
  accepted_vocabularies := accepted_vocabularies ctx; extra_grounded := extra_grounded ctx;
  require_acyclic_provenance := require_acyclic_provenance ctx;
  require_status_feed := require_status_feed ctx |}.

(** Effects that do not apply leave the accumulated effects alone. *)
Lemma apply_effects_blocked ctx verified evidence effs extra :
  (∀ e, e ∈ extra → empowered ctx verified evidence e && timely ctx e = false) →
  let st := apply_effects ctx verified evidence effs in
  let st' := apply_effects ctx verified evidence (effs ++ extra) in
  ap_applies st' = ap_applies st ∧ ap_compromises st' = ap_compromises st ∧
  ap_withdrawn st' = ap_withdrawn st.
Proof.
  intros Hb. cbn zeta. unfold apply_effects. rewrite foldl_app.
  generalize (foldl (apply_effect ctx verified evidence) no_effects effs) as st.
  induction extra as [|e extra IH]; intros st; simpl; [done|].
  destruct (IH ltac:(set_solver) (apply_effect ctx verified evidence st e)) as (-> & -> & ->).
  unfold apply_effect. rewrite (Hb e) by (by left). done.
Qed.

Lemma enumerate_from_app {A} i (l k : list A) :
  enumerate_from i (l ++ k) = enumerate_from i l ++ enumerate_from (i + len l) k.
Proof.
  revert i. induction l as [|x l IH]; intros i; simpl; [by rewrite len_nil, N.add_0_r|].
  rewrite IH, len_cons. do 3 f_equal. lia.
Qed.

Section feed.
Context `{Base64UrlLaws, Sha2, SignatureSchemes, HashOrderLaws}.
Context (ctx : VerifyCtx) (extra : list SignedStatus) (proof : Proof_).
Abbreviation ctx' := (with_status_objects (ctx_status_objects ctx ++ extra) ctx).
Abbreviation verified := (verified_of ctx proof).

Definition extra_effects : list StatusEffect :=
  concat (map snd (map (supplied_effect ctx)
    (enumerate_from (len (ctx_status_objects ctx)) extra))).

(** None of the extra objects states an effect that applies. *)
Definition ineffective : Prop :=
  ∀ e, e ∈ extra_effects →
       empowered ctx verified (evidence_items proof) e && timely ctx e = false.

Lemma all_effects_extra : all_effects ctx' verified = all_effects ctx verified ++ extra_effects.
Proof.
  unfold all_effects, supplied_effects, extra_effects. rewrite <- app_assoc. f_equal.
  cbn [snd ctx_status_objects with_status_objects].
  rewrite (enumerate_from_app 0), !map_app, concat_app, N.add_0_l. done.
Qed.

(** The parts of a report a broken feed must not touch. *)
Definition same_outcome (r r' : VerifyReport) : Prop :=
  cryptographic_validity r = cryptographic_validity r' ∧
  evidence_validity r = evidence_validity r' ∧ vr_proof_id r = vr_proof_id r' ∧
  vr_lifecycle r = vr_lifecycle r' ∧ vr_withdrawn_ids r = vr_withdrawn_ids r' ∧
  vr_evidence_status r = vr_evidence_status r' ∧ vr_conflicts r = vr_conflicts r'.

(** The parts that do not depend on the status feed being there, whether or not
    it is required, and that a good proof stays good. *)
Definition unpoisoned (r r' : VerifyReport) : Prop :=
  cryptographic_validity r = cryptographic_validity r' ∧
  (evidence_validity r = Validity.Valid → evidence_validity r' = Validity.Valid) ∧
  vr_proof_id r = vr_proof_id r' ∧ vr_withdrawn_ids r = vr_withdrawn_ids r' ∧
  vr_conflicts r = vr_conflicts r'.
(** The verifier does not require a feed, or the run has a status object without
    the added ones, in the proof or supplied. *)
Definition feed_settled : Prop :=
  require_status_feed ctx = false ∨ embedded_ids ctx proof ≠ [] ∨ ctx_status_objects ctx ≠ [].

Hypothesis Hineff : ineffective.

Lemma effective_extra e : effective ctx' proof e ↔ effective ctx proof e.
Proof using Hineff.
  unfold effective. change (verified_of ctx' proof) with verified. rewrite all_effects_extra.
  rewrite !admitted_alt. change (empowered ctx') with (empowered ctx). change (timely ctx') with (timely ctx).
  rewrite elem_of_app. split; [|by intros (? & ?); auto].
  intros ([Hin|Hin] & He); [done|]. specialize (Hineff e Hin). by rewrite He in Hineff.
Qed.

Lemma stale_extra :
  feed_settled →
  revocation_stale ctx' (len (embedded_ids ctx proof) + len (ctx_status_objects ctx')) =
  revocation_stale ctx (len (embedded_ids ctx proof) + len (ctx_status_objects ctx)).
Proof.
  intros Hfeed. unfold revocation_stale. cbn [with_status_objects require_status_feed ctx_status_objects
    revocations_known_at clock_skew_leeway verified_at]. f_equal.
  destruct Hfeed as [->|Hne]; [done|]. f_equal. rewrite len_app.
  rewrite <- !len_zero in Hne.
  destruct (N.eqb_spec (len (embedded_ids ctx proof) + (len (ctx_status_objects ctx) + len extra)) 0),
    (N.eqb_spec (len (embedded_ids ctx proof) + len (ctx_status_objects ctx)) 0); [done| |lia|done]; lia.
Qed.
(** More objects never make the feed stale. *)
Lemma stale_extra_mono :
  revocation_stale ctx (len (embedded_ids ctx proof) + len (ctx_status_objects ctx)) = false →
  revocation_stale ctx' (len (embedded_ids ctx proof) + len (ctx_status_objects ctx')) = false.
Proof.
  unfold revocation_stale. cbn [with_status_objects require_status_feed ctx_status_objects
    revocations_known_at clock_skew_leeway verified_at]. rewrite !orb_false_iff, len_app.
  intros [Hs Hf]. split; [exact Hs|]. destruct (require_status_feed ctx); [|done]. simpl in *.
  apply N.eqb_neq. apply N.eqb_neq in Hf. lia.
Qed.

(** [consistent] and [standing] see the added objects only through the staleness
    of the feed. *)
Lemma standing_extra v :
  (fresh ctx (embedded_ids ctx proof) → fresh ctx' (embedded_ids ctx' proof)) →
  standing ctx proof v → standing ctx' proof v.
Proof using Hineff.
  intros Hfr. assert (in_window ctx' v.2 ↔ in_window ctx v.2) as Hw by (by rewrite <- !time_validity_iff).
  intros [H1' H2' H3' H4']; split; unfold tainted, ended in *;
    repeat (setoid_rewrite effective_extra); tauto.
Qed.
Lemma standing_extra_inv v :
  (fresh ctx' (embedded_ids ctx' proof) → fresh ctx (embedded_ids ctx proof)) →
  standing ctx' proof v → standing ctx proof v.
Proof using Hineff.
  intros Hfr. assert (in_window ctx' v.2 ↔ in_window ctx v.2) as Hw by (by rewrite <- !time_validity_iff).
  intros [H1' H2' H3' H4']; split; unfold tainted, ended in *;
    repeat (setoid_rewrite effective_extra in H2' || setoid_rewrite effective_extra in H3'
            || setoid_rewrite effective_extra in H4'); tauto.
Qed.

Lemma consistent_extra_if ids :
  (∀ v, standing ctx proof v → standing ctx' proof v) →
  consistent ctx proof ids → consistent ctx' proof ids.
Proof using Hineff.
  intros Hst [Hs Hr Hd He Hgr Hlk].
  assert (graph_ok ctx' proof ids) by (destruct Hgr; by split).
  assert (linkage_ok ctx' proof) by (destruct Hlk; by split).
  split; try done.
  - intros v Hv. by apply Hst, Hs.
  - intros e Hin. unfold ended. setoid_rewrite effective_extra. by apply He.
Qed.
Lemma consistent_extra_mono ids : consistent ctx proof ids → consistent ctx' proof ids.
Proof using Hineff.
  apply consistent_extra_if. intros v. apply standing_extra. rewrite <- !stale_iff. apply stale_extra_mono.
Qed.
Lemma consistent_extra ids :
  feed_settled → consistent ctx' proof ids ↔ consistent ctx proof ids.
Proof using Hineff.
  intros Hfeed. split; [|apply consistent_extra_mono]. intros [Hs Hr Hd He Hgr Hlk].
  assert (graph_ok ctx proof ids) by (destruct Hgr; by split).
  assert (linkage_ok ctx proof) by (destruct Hlk; by split).
  split; try done.
  - intros v Hv. apply standing_extra_inv; [|by apply Hs].
    rewrite <- !stale_iff. by rewrite <- (stale_extra Hfeed).
  - intros e Hin. unfold ended. setoid_rewrite <- effective_extra. by apply He.
Qed.

Lemma lifecycle_extra tf emb :
  let ap := apply_effects ctx verified (evidence_items proof) (all_effects ctx verified) in
  let ap' := apply_effects ctx' verified (evidence_items proof) (all_effects ctx' verified) in
  ap_applies ap' = ap_applies ap ∧ ap_compromises ap' = ap_compromises ap ∧
  ap_withdrawn ap' = ap_withdrawn ap ∧
  (feed_settled → emb = embedded_ids ctx proof →
   (lifecycle_stage ctx' (prf_proof_id proof) verified ap' tf emb).2 =
   (lifecycle_stage ctx (prf_proof_id proof) verified ap tf emb).2).
Proof using Hineff.
  cbn zeta. rewrite all_effects_extra.
  change (apply_effects ctx') with (apply_effects ctx).
  destruct (apply_effects_blocked ctx verified (evidence_items proof) (all_effects ctx verified)
    extra_effects Hineff) as (Ha & Hc & Hw).
  split_and!; [done..|]. intros Hfeed ->. unfold lifecycle_stage. cbn [snd].
  rewrite (stale_extra Hfeed). apply map_ext. intros v. unfold lifecycle_record, lifecycle_status,
    compromised, applies_to. by rewrite Ha, Hc.
Qed.
End feed.

Section feed_theorem.
Context `{Base64UrlLaws, Sha2, SignatureSchemes, HashOrderLaws}.

End feed_theorem.

(** * Divergent claims *)

Section divergence.
Context (verified : Verified).

Definition group_key (v : string * AttestationContent) : string * string :=
  (claim_type (att_claim v.2), att_subject v.2).
(** The verified statements about one claim type and subject, in proof order. *)
Definition group_of (k : string * string) : Verified :=
  filter (λ v, group_key v = k) (List.filter is_statement verified).

Lemma groups_acc (l : Verified) (m : gmap (string * string) Verified) k :
  default [] (foldl (λ m v, entry_extend m (group_key v) [v]) m l !! k) =
  default [] (m !! k) ++ filter (λ v, group_key v = k) l.
Proof.
  revert m. induction l as [|v l IH]; intros m; simpl; [by rewrite app_nil_r|].
  rewrite IH, entry_extend_lookup, filter_cons, <- app_assoc.
  by case_decide.
Qed.
Lemma group_lookup k : default [] (claim_groups verified !! k) = group_of k.
Proof. unfold claim_groups. rewrite (groups_acc _ ∅), lookup_empty. done. Qed.

Lemma divergent_group_Some k g c :
  divergent_group (k, g) = Some c ↔
  (∃ v w, v ∈ g ∧ w ∈ g ∧ att_claim v.2 ≠ att_claim w.2) ∧
  c = {| cf_kind := ConflictKind.DivergentClaims; cf_claim_type := k.1; cf_subject := k.2;
         cf_attestation_ids := sort_by str_leb (map (λ m, "att:" +:+ m.1) g) |}.
Proof.
  unfold divergent_group. cbn [fst snd].
  destruct g as [|v [|w g]].
  - split; [done|]. intros [(? & ? & Hv & _) _]. by apply elem_of_nil in Hv.
  - split; [done|]. intros [(x & y & Hx & Hy & Hne) _].
    apply list_elem_of_singleton in Hx, Hy. by subst.
  - match goal with |- context [forallb ?f ?l] => destruct (forallb f l) eqn:E end.
    + split; [done|]. intros [(x & y & Hx & Hy & Hne) _].
      rewrite forallb_Forall, Forall_forall in E.
      pose proof (E x Hx) as Ex. pose proof (E y Hy) as Ey.
      apply bool_decide_eq_true in Ex, Ey. congruence.
    + apply forallb_false in E as (x & Hx & Ex). apply bool_decide_eq_false in Ex. split.
      * intros [= <-]. split; [|done]. exists x, v. split_and!; [done|by left|done].
      * by intros [_ ->].
Qed.

Lemma divergent_claims_elem c :
  c ∈ divergent_claims verified ↔
  ∃ k, (∃ v w, v ∈ group_of k ∧ w ∈ group_of k ∧ att_claim v.2 ≠ att_claim w.2) ∧
  c = {| cf_kind := ConflictKind.DivergentClaims; cf_claim_type := k.1; cf_subject := k.2;
         cf_attestation_ids := sort_by str_leb (map (λ m, "att:" +:+ m.1) (group_of k)) |}.
Proof.
  unfold divergent_claims. rewrite list_elem_of_omap. split.
  - intros ([k g] & Hin & Hc). apply btree_entries_elem in Hin.
    assert (g = group_of k) as -> by (by rewrite <- group_lookup, Hin).
    exists k. by apply divergent_group_Some in Hc.
  - intros (k & Hd & ->). exists (k, group_of k). split; [|by apply divergent_group_Some].
    apply btree_entries_elem. pose proof (group_lookup k) as Hl.
    destruct (claim_groups verified !! k) as [g|]; simpl in Hl; [by rewrite Hl|].
    destruct Hd as (v & _ & Hv & _). rewrite <- Hl in Hv. by apply elem_of_nil in Hv.
Qed.
End divergence.

Section divergence_theorem.
Context `{Base64UrlLaws, Sha2, SignatureSchemes, HashOrderLaws}.

Lemma other_conflicts proof verified c :
  c ∈ (contradictions proof verified).2 ++ denials verified →
  cf_kind c ≠ ConflictKind.DivergentClaims.
Proof.
  rewrite elem_of_app. intros [Hc|Hc].
  - unfold contradictions in Hc. cbn [snd] in Hc. rewrite map_map in Hc.
    apply list_elem_of_In, in_concat in Hc as (l & Hl & Hin).
    apply in_map_iff in Hl as (e & <- & _). unfold contradiction_edge in Hin.
    repeat case_match; simpl in Hin; [destruct Hin as [<-|[]]|done..]. done.
  - unfold denials in Hc. apply list_elem_of_fmap in Hc as (e & -> & _). done.
Qed.

(** Divergence is recorded, exactly.  The report has a divergent-claims
    record for a claim type and subject exactly when two verified statements
    about them carry different claims, and the record then lists every
    verified statement about them, so corroboration is never a conflict. *)
Theorem divergence_exact bytes ctx r proof (Hr : verify_proof bytes ctx = Some (Ok r))
  (Hp : parses bytes ctx proof) ty subject :
  ((∃ c, c ∈ vr_conflicts r ∧ cf_kind c = ConflictKind.DivergentClaims ∧
         cf_claim_type c = ty ∧ cf_subject c = subject) ↔
   ∃ v w, v ∈ group_of (verified_of ctx proof) (ty, subject) ∧
          w ∈ group_of (verified_of ctx proof) (ty, subject) ∧ att_claim v.2 ≠ att_claim w.2) ∧
  ∀ c, c ∈ vr_conflicts r → cf_kind c = ConflictKind.DivergentClaims →
       cf_claim_type c = ty → cf_subject c = subject →
       cf_attestation_ids c ≡ₚ
         map (λ m, "att:" +:+ m.1) (group_of (verified_of ctx proof) (ty, subject)).
Proof.
  apply verify_proof_inv in Hr as [_ [Hs|(p & ids & rid & later & Hf)]];
    [by destruct (stopped_parses bytes ctx r proof Hs)|].
  assert (p = proof) as -> by (eapply parses_inj; [apply Hf|done]).
  destruct (full_run_later _ _ _ _ _ _ _ Hf) as (_ & _ & _ & _ & Hc).
  destruct Hf as [_ _ _ _ ->]. cbn [vr_conflicts finalize]. rewrite Hc.
  unfold conflicts_stage. cbn [snd].
  assert (∀ c, c ∈ sort_by conflict_leb (divergent_claims (verified_of ctx proof) ++
    (contradictions proof (verified_of ctx proof)).2 ++ denials (verified_of ctx proof)) →
    cf_kind c = ConflictKind.DivergentClaims → c ∈ divergent_claims (verified_of ctx proof)) as Hdiv.
  { intros c Hin Hk. rewrite sort_by_perm, elem_of_app in Hin.
    destruct Hin as [?|Hin]; [done|]. by apply other_conflicts in Hin. }
  split; [split|].
  - intros (c & Hin & Hk & <- & <-). apply Hdiv, divergent_claims_elem in Hin as ([a b] & Hd & ->); done.
  - intros Hd. eexists. split; [rewrite sort_by_perm; apply elem_of_app; left;
      apply divergent_claims_elem; exists (ty, subject); by split|done].
  - intros c Hin Hk <- <-. apply Hdiv, divergent_claims_elem in Hin as ([a b] & Hd & ->); [|done].
    cbn [cf_attestation_ids cf_claim_type cf_subject fst snd]. apply sort_by_perm.
Qed.
End divergence_theorem.

(** * Sample runs *)

Module PipelineSamples.
Import Toy GraphSamples CoseSamples.

Definition evidence : Evidence := {|
  evd_v := 1; evd_kind := EvidenceKind.RECEIPT; evd_digest := SchemaSamples.digest;
  evd_attestation_ref := Some (ca_id created); evd_hint := None |}.
Definition relationship : Relationship := {|
  rel_v := 1; rel_from := ca_id created; rel_type := RelType.REFERENCES;
  rel_to := member_evidence_id evidence; rel_evidence_ref := None; rel_attestation_ref := None |}.
Definition draft (id : string) (atts : list CreatedAttestation) : Proof_ := {|
  prf_v := 1; prf_proof_id := id; prf_proposition := SchemaSamples.proposition;
  prf_events := [SchemaSamples.event];
  prf_attestations := map (λ c, {| sa_content := ca_content c; sa_sign1 := ca_sign1 c |}) atts;
  prf_evidence := [evidence]; prf_relationships := [relationship];
  prf_referenced_proofs := []; prf_vocabularies := []; prf_created_at := 150 |}.
Definition finish (atts : list CreatedAttestation) : Proof_ :=
  match recomputed_proof_id (draft "" atts) with
  | Ok id => draft id atts
  | Err _ => draft "" atts
  end.
Definition encode (p : Proof_) : list byte :=
  match proof_to_cbor p with Ok v => encode_canonical v | Err _ => [] end.

(** A second statement about the same subject with other fields. *)
Definition content2 : AttestationContent := {|
  att_v := 1; att_issuer := key_ref seed; att_subject := "evt:v1:00";
  att_claim := {| claim_type := "observed"; claim_fields := [("order", MText "ord-2")] |};
  att_issued_at := 100; att_expires_at := Some 200; att_evidence_ref := None |}.
Definition created2 : CreatedAttestation :=
  match attest content2 seed default_limits with
  | Ok c => c
  | Err _ => mkCreatedAtt content2 [] "" []
  end.

(** The proofs and their bytes, evaluated. *)
Definition proof : Proof_ := Eval vm_compute in finish [created].
Definition bytes : list byte := Eval vm_compute in encode proof.
Definition proof2 : Proof_ := Eval vm_compute in finish [created; created2].
Definition bytes2 : list byte := Eval vm_compute in encode proof2.

Definition sample_ctx (require_feed : bool) (objects : list SignedStatus) : VerifyCtx := {|
  verified_at := 150; clock_skew_leeway := 300; trusted_issuers := []; allow_remote := false;
  allowed_algs := algs_strict; ctx_limits := default_limits; ctx_status_objects := objects;
  revocation_authorities := []; revocations_known_at := Some 140; report_all_failures := false;
  accepted_vocabularies := []; extra_grounded := []; require_acyclic_provenance := true;
  require_status_feed := require_feed |}.
Definition ctx : VerifyCtx := sample_ctx false [].

Definition status_of (c : Result CreatedAttestation) : SignedStatus :=
  match c with
  | Ok c => {| ss_content := ca_content c; ss_sign1 := ca_sign1 c |}
  | Err _ => {| ss_content := content; ss_sign1 := [] |}
  end.
(** The issuer's own revocation of the statement, and its withdrawal of the
    evidence. *)
Definition revocation : SignedStatus := Eval vm_compute in
  status_of (revoke_attestation (ca_id created) None seed 120 default_limits).
Definition withdrawal : SignedStatus := Eval vm_compute in
  status_of (withdraw_attestation (member_evidence_id evidence) None seed 120 default_limits).
(** Bytes that are no envelope at all. *)
Definition garbage : SignedStatus := {| ss_content := content; ss_sign1 := [] |}.

Definition run (bytes : list byte) (ctx : VerifyCtx) : VerifyReport :=
  match verify_proof bytes ctx with Some (Ok r) => r | _ => early_exit None [] end.
Definition parsed (bytes : list byte) : CborValue :=
  match decode_strict bytes default_limits with Ok v => v | Err _ => Null end.

(** Verifier inputs: no feed, a feed that revokes and withdraws, a broken one. *)
Definition ctx_status : VerifyCtx := sample_ctx true [revocation; withdrawal].
Definition ctx_garbage : VerifyCtx := sample_ctx true [garbage].
Definition ctx_required : VerifyCtx := sample_ctx true [].

(** The evaluated reports. *)
Definition report : VerifyReport := Eval vm_compute in run bytes ctx.
Definition report2 : VerifyReport := Eval vm_compute in run bytes2 ctx.
Definition report_status : VerifyReport := Eval vm_compute in run bytes ctx_status.
Definition report_garbage : VerifyReport := Eval vm_compute in run bytes ctx_garbage.
Definition report_feed : VerifyReport := Eval vm_compute in run bytes (sample_ctx false [garbage]).
Definition report_required : VerifyReport := Eval vm_compute in run bytes ctx_required.
End PipelineSamples.

Section sample_runs.
Import Toy GraphSamples PipelineSamples.

Lemma sample_parses : parses bytes ctx proof ∧ parses bytes2 ctx proof2.
Proof.
  split; [exists (parsed bytes)|exists (parsed bytes2)]; split; vm_compute; reflexivity.
Qed.
Lemma run_report : verify_proof bytes ctx = Some (Ok report).
Proof. vm_compute. reflexivity. Qed.
Lemma run_report2 : verify_proof bytes2 ctx = Some (Ok report2).
Proof. vm_compute. reflexivity. Qed.
Lemma run_status : verify_proof bytes ctx_status = Some (Ok report_status).
Proof. vm_compute. reflexivity. Qed.
Lemma run_garbage : verify_proof bytes ctx_garbage = Some (Ok report_garbage).
Proof. vm_compute. reflexivity. Qed.
Lemma run_feed : verify_proof bytes (sample_ctx false [garbage]) = Some (Ok report_feed).
Proof. vm_compute. reflexivity. Qed.
Lemma run_required : verify_proof bytes ctx_required = Some (Ok report_required).
Proof. vm_compute. reflexivity. Qed.
End sample_runs.

Section verdict_witnesses.
Import Toy GraphSamples PipelineSamples.

Lemma verify_proof_total_witness :
  misuse ctx = false ∧ ∃ r, verify_proof [] ctx = Some (Ok r).
Proof. split; [reflexivity|]. exact (verify_proof_total [] ctx). Defined.

Lemma cryptographic_validity_iff_witness :
  ∃ p, parses bytes ctx p ∧ recomputed_proof_id p = Ok (prf_proof_id p) ∧
    ∀ a, a ∈ prf_attestations p → authentic ctx a.
Proof. exact (proj1 (cryptographic_validity_iff bytes ctx report run_report) eq_refl). Defined.




(** The empty-feed gate counts objects, not effects.  With a required feed
    and no status object the sample proof is refused as UNKNOWN; adding one
    object that is no envelope at all, and is recorded as rejected, makes the
    same proof valid.  So an ineffective status object can flip evidence
    validity from invalid to valid. *)
Theorem garbage_feed_flips_validity :
  (∃ r, verify_proof bytes ctx_required = Some (Ok r) ∧ evidence_validity r = Validity.Invalid) ∧
  (∃ r, verify_proof bytes (with_status_objects [garbage] ctx_required) = Some (Ok r) ∧
        evidence_validity r = Validity.Valid ∧ status_inputs_valid r = false) ∧
  (supplied_effects (with_status_objects [garbage] ctx_required)).2 = [].
Proof.
  split_and!; [eexists; split; [exact run_required|done]
              |eexists; split; [exact run_garbage|done]|vm_compute; done].
Qed.
End verdict_witnesses.
