(* ===== verification/Builder.v ===== *)
(** Builder: assembling a proof from created members (builder.rs).

    The [ProofBuilder] record with its adders, and [build]: members sorted by
    id, duplicates refused, references and vocabularies sorted and deduplicated,
    the proof id bound, and the emitted bytes parsed back as a self-check.  The
    theorems: the result does not depend on the order of the calls (but for two
    declarations of one namespace), and a proof
    built from honestly created members verifies. *)
From Stdlib Require Import Strings.Byte NArith ZArith Lia.
From S2P Require Import Prelude Core External Cbor Schema Graph Ident Claim Cose.
From S2P Require Import Report Pipeline PipelineFacts Verdicts.

(** * The builder *)

Record BuiltProof : Set := mkBuiltProof {
  bp_proof : Proof_; bp_canonical : list byte; bp_id : string }.

Record ProofBuilder : Set := mkProofBuilder {
  pb_proposition : option Proposition_;
  pb_created_at : N;
  pb_events : list CreatedEvent;
  pb_attestations : list CreatedAttestation;
  pb_evidence : list CreatedEvidence;
  pb_relationships : list CreatedRelationship;
  pb_referenced_proofs : list string;
  pb_vocabularies : list VocabularyDecl;
}.

(** [ProofBuilder::default] and [ProofBuilder::new]. *)
Definition builder_default : ProofBuilder := mkProofBuilder None 0 [] [] [] [] [] [].
Definition builder_new (proposition : Proposition_) (created_at : N) : ProofBuilder :=
  mkProofBuilder (Some proposition) created_at [] [] [] [] [] [].

Definition add_event (b : ProofBuilder) (e : CreatedEvent) : ProofBuilder :=
  mkProofBuilder (pb_proposition b) (pb_created_at b) (pb_events b ++ [e]) (pb_attestations b)
    (pb_evidence b) (pb_relationships b) (pb_referenced_proofs b) (pb_vocabularies b).
Definition add_attestation (b : ProofBuilder) (a : CreatedAttestation) : ProofBuilder :=
  mkProofBuilder (pb_proposition b) (pb_created_at b) (pb_events b) (pb_attestations b ++ [a])
    (pb_evidence b) (pb_relationships b) (pb_referenced_proofs b) (pb_vocabularies b).
Definition add_evidence (b : ProofBuilder) (e : CreatedEvidence) : ProofBuilder :=
  mkProofBuilder (pb_proposition b) (pb_created_at b) (pb_events b) (pb_attestations b)
    (pb_evidence b ++ [e]) (pb_relationships b) (pb_referenced_proofs b) (pb_vocabularies b).
Definition add_relationship (b : ProofBuilder) (r : CreatedRelationship) : ProofBuilder :=
  mkProofBuilder (pb_proposition b) (pb_created_at b) (pb_events b) (pb_attestations b)
    (pb_evidence b) (pb_relationships b ++ [r]) (pb_referenced_proofs b) (pb_vocabularies b).

Definition add_referenced_proof `{Base64Url} (b : ProofBuilder) (id : string)
    : Result ProofBuilder :=
  _ ← check_proof_ref_id id;
  Ok (mkProofBuilder (pb_proposition b) (pb_created_at b) (pb_events b) (pb_attestations b)
        (pb_evidence b) (pb_relationships b) (pb_referenced_proofs b ++ [id]) (pb_vocabularies b)).

Definition add_vocabulary (b : ProofBuilder) (ns : string) (version : N) : Result ProofBuilder :=
  if sempty ns || (128 <? slen ns) then Err ErrorCode.SchemaViolation else
  if contains_char colon ns || contains_whitespace ns then Err ErrorCode.SchemaViolation else
  Ok (mkProofBuilder (pb_proposition b) (pb_created_at b) (pb_events b) (pb_attestations b)
        (pb_evidence b) (pb_relationships b) (pb_referenced_proofs b)
        (pb_vocabularies b ++ [{| voc_ns := ns; voc_version := version |}])).

(** The loop of [check_duplicates] over the [HashSet] of seen ids. *)
Fixpoint check_duplicates_loop (seen : gset string) (ids : list string) : Result unit :=
  match ids with
  | [] => Ok tt
  | id :: ids' =>
      if bool_decide (id ∈ seen) then Err ErrorCode.SchemaViolation
      else check_duplicates_loop ({[id]} ∪ seen) ids'
  end.
Definition check_duplicates (ids : list string) : Result unit := check_duplicates_loop ∅ ids.

(** The builder after the sorts and the deduplications of [build]. *)
Definition normalize (b : ProofBuilder) : ProofBuilder :=
  mkProofBuilder (pb_proposition b) (pb_created_at b)
    (sort_by (by_id ce_id) (pb_events b)) (sort_by (by_id ca_id) (pb_attestations b))
    (sort_by (by_id cv_id) (pb_evidence b)) (sort_by (by_id cr_id) (pb_relationships b))
    (dedup_by (λ a b, bool_decide (a = b)) (sort_by str_leb (pb_referenced_proofs b)))
    (dedup_by same_ns (sort_by voc_ns_leb (pb_vocabularies b))).

Section build.
Context `{Base64Url, Sha2}.

(** The id [build] binds, of a normalized builder. *)
Definition builder_id (proposition : Proposition_) (b : ProofBuilder) : string :=
  proof_id_full (proposition_to_cbor proposition) (pb_created_at b)
    (map ce_id (pb_events b)) (map ca_id (pb_attestations b)) (map cv_id (pb_evidence b))
    (map cr_id (pb_relationships b)) (pb_referenced_proofs b)
    (map (λ vd, (voc_ns vd, voc_version vd)) (pb_vocabularies b)).

Definition assemble (proposition : Proposition_) (b : ProofBuilder) : Proof_ := {|
  prf_v := 1; prf_proof_id := builder_id proposition b; prf_proposition := proposition;
  prf_events := map ce_content (pb_events b);
  prf_attestations :=
    map (λ a, {| sa_content := ca_content a; sa_sign1 := ca_sign1 a |}) (pb_attestations b);
  prf_evidence := map cv_content (pb_evidence b);
  prf_relationships := map cr_content (pb_relationships b);
  prf_referenced_proofs := pb_referenced_proofs b; prf_vocabularies := pb_vocabularies b;
  prf_created_at := pb_created_at b |}.

(** The encoding, its size bound and the self-check at the end of [build]. *)
Definition emit (proof : Proof_) (limits : Limits) : Result BuiltProof :=
  value ← proof_to_cbor proof;
  let canonical := encode_canonical value in
  if max_proof_size limits <? len canonical then Err ErrorCode.LimitExceeded else
  decoded ← decode_and_check_canonical canonical limits;
  back ← cbor_to_proof decoded limits;
  if bool_decide (back ≠ proof) then Err ErrorCode.SchemaViolation else
  Ok {| bp_proof := proof; bp_canonical := canonical; bp_id := prf_proof_id proof |}.

(** [build] past the duplicate checks, on the normalized builder. *)
Definition bind_and_emit (proposition : Proposition_) (n : ProofBuilder) (limits : Limits)
    : Result BuiltProof :=
  if max_referenced_proofs limits <? len (pb_referenced_proofs n)
  then Err ErrorCode.LimitExceeded else
  if max_vocabularies limits <? len (pb_vocabularies n) then Err ErrorCode.LimitExceeded else
  if existsb (λ r, bool_decide (r = builder_id proposition n)) (pb_referenced_proofs n)
  then Err ErrorCode.CycleDetected else
  emit (assemble proposition n) limits.

Definition build (b : ProofBuilder) (limits : Limits) : Result BuiltProof :=
  proposition ← ok_or (pb_proposition b) ErrorCode.SchemaViolation;
  if negb (prop_v proposition =? 1) then Err ErrorCode.UnsupportedVersion else
  let n := normalize b in
  _ ← check_duplicates (map ce_id (pb_events n));
  _ ← check_duplicates (map ca_id (pb_attestations n));
  _ ← check_duplicates (map cv_id (pb_evidence n));
  _ ← check_duplicates (map cr_id (pb_relationships n));
  bind_and_emit proposition n limits.
End build.

(** * Duplicates *)

Lemma check_duplicates_loop_iff seen ids :
  check_duplicates_loop seen ids = Ok tt ↔ NoDup ids ∧ ∀ id, id ∈ ids → id ∉ seen.
Proof.
  revert seen. induction ids as [|id ids IH]; intros seen; simpl.
  { split; [|done]. intros _. split; [constructor|set_solver]. }
  case_bool_decide as Hin; [split; [done|set_solver]|].
  rewrite IH, NoDup_cons. set_solver.
Qed.
Lemma check_duplicates_iff ids : check_duplicates ids = Ok tt ↔ NoDup ids.
Proof. unfold check_duplicates. rewrite check_duplicates_loop_iff. set_solver. Qed.
Lemma check_duplicates_cases ids :
  check_duplicates ids = Ok tt ∧ NoDup ids ∨
  check_duplicates ids = Err ErrorCode.SchemaViolation ∧ ¬ NoDup ids.
Proof.
  rewrite <- check_duplicates_iff. unfold check_duplicates. generalize (∅ : gset string) as seen.
  induction ids as [|id ids IH]; intros seen; simpl; [by left|].
  case_bool_decide; [by right|apply IH].
Qed.

(** * The result does not depend on the order of the calls *)

(** Two builders fed the same parts: the same members in any order, the same
    references in any number and order, and for each namespace the same first
    declaration (the later ones are dropped). *)
Record same_parts (b b' : ProofBuilder) : Prop := {
  sp_proposition : pb_proposition b = pb_proposition b';
  sp_created_at : pb_created_at b = pb_created_at b';
  sp_events : pb_events b ≡ₚ pb_events b';
  sp_attestations : pb_attestations b ≡ₚ pb_attestations b';
  sp_evidence : pb_evidence b ≡ₚ pb_evidence b';
  sp_relationships : pb_relationships b ≡ₚ pb_relationships b';
  sp_references : ∀ r, r ∈ pb_referenced_proofs b ↔ r ∈ pb_referenced_proofs b';
  sp_vocabularies ns :
    head (List.filter (λ d, bool_decide (voc_ns d = ns)) (pb_vocabularies b)) =
    head (List.filter (λ d, bool_decide (voc_ns d = ns)) (pb_vocabularies b'));
}.

#[export] Instance same_parts_equivalence : Equivalence same_parts.
Proof.
  split.
  - intros b. by split.
  - intros b b' [????????]. split; intros; symmetry; auto.
  - intros b b' b'' [????????] [????????]. split; intros; etransitivity; eauto.
Qed.

(** No two members of one kind share an id. *)
Definition distinct (b : ProofBuilder) : Prop :=
  NoDup (map ce_id (pb_events b)) ∧ NoDup (map ca_id (pb_attestations b)) ∧
  NoDup (map cv_id (pb_evidence b)) ∧ NoDup (map cr_id (pb_relationships b)).

Lemma distinct_normalize b : distinct (normalize b) ↔ distinct b.
Proof. unfold distinct. cbn [normalize pb_events pb_attestations pb_evidence pb_relationships].
  by rewrite !sort_by_perm. Qed.
#[export] Instance distinct_proper : Proper (same_parts ==> iff) distinct.
Proof. intros b b' [_ _ He Ha Hv Hr _ _]. unfold distinct. by rewrite He, Ha, Hv, Hr. Qed.

Lemma normalize_same b b' : same_parts b b' → distinct b → normalize b = normalize b'.
Proof.
  intros [Hp Ht He Ha Hv Hr Href Hvoc] (? & ? & ? & ?). unfold normalize.
  rewrite Hp, Ht. f_equal; try (by apply sort_by_perm_eq).
  - by apply sort_dedup_eq.
  - by apply (sort_dedup_by_eq voc_ns).
Qed.

Section order_free.
Context `{Base64Url, Sha2}.

(** Past the proposition, [build] refuses duplicates and nothing else first. *)
Lemma build_cases b limits prop :
  pb_proposition b = Some prop → prop_v prop = 1 →
  distinct b ∧ build b limits = bind_and_emit prop (normalize b) limits ∨
  ¬ distinct b ∧ build b limits = Err ErrorCode.SchemaViolation.
Proof.
  intros Hp Hv. rewrite <- (distinct_normalize b). unfold build, distinct. rewrite Hp. cbn [ok_or mbind result_bind].
  rewrite Hv. cbn [N.eqb Pos.eqb negb]. cbn zeta.
  repeat match goal with |- context [check_duplicates ?ids] =>
    destruct (check_duplicates_cases ids) as [[-> ?]|[-> ?]]; cbn [mbind result_bind]; [|right; tauto]
  end. by left.
Qed.

Lemma build_same b b' limits : same_parts b b' → build b limits = build b' limits.
Proof.
  intros Hsame.
  destruct (pb_proposition b) as [prop|] eqn:Hp; pose proof (sp_proposition _ _ Hsame) as Hp'.
  2: { unfold build. by rewrite <- Hp', Hp. }
  rewrite Hp in Hp'. symmetry in Hp'.
  destruct (decide (prop_v prop = 1)) as [Hv|Hv].
  2: { unfold build. rewrite Hp, Hp'. cbn [ok_or mbind result_bind].
       by rewrite (proj2 (N.eqb_neq _ _) Hv). }
  destruct (build_cases b limits prop Hp Hv) as [[Hd ->]|[Hd ->]],
    (build_cases b' limits prop Hp' Hv) as [[Hd' ->]|[Hd' ->]].
  - by rewrite (normalize_same b b').
  - by rewrite Hsame in Hd.
  - by rewrite <- Hsame in Hd'.
  - done.
Qed.

(** C22: the built proof does not depend on the order of the builder calls, as long
    as each namespace keeps its first declaration.  Two builders with the same
    proposition and time that were given the same members in any order, the same
    references in any order and number, and vocabulary declarations whose first one
    for each namespace is the same, give the same result: the same bytes and id, or
    the same error.  (Which declaration of a namespace comes first does matter:
    [first_declaration_counts].) *)
Theorem build_order_free b b' limits (Hsame : same_parts b b') : build b limits = build b' limits.
Proof. by apply build_same. Qed.
End order_free.

(** * Honest builders *)

Section honest.
Context `{Base64UrlLaws, Sha2Laws, SignatureLaws}.

Lemma make_evidence_Ok kind digest aref hint limits e :
  make_evidence kind digest aref hint limits = Ok e →
  evidence_wf limits (cv_content e) = true ∧ cv_id e = member_evidence_id (cv_content e).
Proof.
  unfold make_evidence. intros He. apply bind_Ok in He as (u & _ & He).
  apply bind_Ok in He as (decoded & Hd & He). apply bind_Ok in He as (back & Hb & He).
  case_bool_decide as Hback; [done|]. injection He as <-. subst back. split; [|done].
  rewrite (proj1 (recheck_redundant _ _)) in Hd. apply decode_strict_inv in Hd as (_ & Hs & Henc & _).
  apply cbor_to_evidence_spec in Hb as [Hwf _]; [done|]. rewrite <- Hs. by eapply encodable_canonical.
Qed.

Lemma make_relationship_Ok content limits r :
  make_relationship content limits = Ok r →
  relationship_wf limits (cr_content r) = true ∧ cr_id r = member_relationship_id (cr_content r).
Proof.
  unfold make_relationship. destruct (negb _); [done|]. intros He.
  apply bind_Ok in He as (decoded & Hd & He). apply bind_Ok in He as (back & Hb & He).
  case_bool_decide as Hback; [done|]. injection He as <-. subst back. split; [|done].
  rewrite (proj1 (recheck_redundant _ _)) in Hd. apply decode_strict_inv in Hd as (_ & Hs & Henc & _).
  apply cbor_to_relationship_spec in Hb as [Hwf _]; [done|]. rewrite <- Hs. by eapply encodable_canonical.
Qed.

(** The two reference checks, of the schema and of the identifiers, agree. *)
Lemma check_proof_ref_agree id : check_proof_ref_id id = Ok tt → ref_ok id = true.
Proof.
  unfold check_proof_ref_id, ref_ok, check_proof_ref_shape, b64u_decode, b64u_nopad.
  destruct (strip_prefix _ id) as [rest|]; simpl; [|done].
  destruct (b64_decode rest) as [raw|]; simpl; [|done].
  case_bool_decide; [done|]. by destruct (negb _).
Qed.

(** The builders reachable by the adders, fed with members made by the
    artifact builders under the same limits. *)
Inductive honest (limits : Limits) : ProofBuilder → Prop :=
| honest_new prop t : honest limits (builder_new prop t)
| honest_event b content e :
    honest limits b → create_event content limits = Ok e → honest limits (add_event b e)
| honest_attestation b content seed a :
    honest limits b → attest content seed limits = Ok a →
    cose_fits limits (ca_canonical a) = true → len (ca_sign1 a) <= max_proof_size limits →
    honest limits (add_attestation b a)
| honest_evidence b kind digest aref hint e :
    honest limits b → make_evidence kind digest aref hint limits = Ok e →
    honest limits (add_evidence b e)
| honest_relationship b content r :
    honest limits b → make_relationship content limits = Ok r →
    honest limits (add_relationship b r)
| honest_reference b id b' :
    honest limits b → add_referenced_proof b id = Ok b' → honest limits b'
| honest_vocabulary b ns version b' :
    honest limits b → add_vocabulary b ns version = Ok b' → honest limits b'.

(** A member attestation that verifies under its own id. *)
Definition genuine_attestation (limits : Limits) (a : CreatedAttestation) : Prop :=
  stored_wf limits {| sa_content := ca_content a; sa_sign1 := ca_sign1 a |} = true ∧
  ca_id a = attestation_id (encode_canonical (attestation_to_cbor (ca_content a))) ∧
  verify_attestation (ca_sign1 a) (att_issuer (ca_content a)) algs_strict limits =
    Ok (ca_content a, ca_id a).

(** The invariant of the builder state. *)
Record builder_inv (limits : Limits) (b : ProofBuilder) : Prop := {
  bi_events : Forall (λ e, event_wf limits (ce_content e) = true ∧
                           member_event_id (ce_content e) = Ok (ce_id e)) (pb_events b);
  bi_attestations : Forall (genuine_attestation limits) (pb_attestations b);
  bi_evidence : Forall (λ e, evidence_wf limits (cv_content e) = true ∧
                             cv_id e = member_evidence_id (cv_content e)) (pb_evidence b);
  bi_relationships : Forall (λ r, relationship_wf limits (cr_content r) = true ∧
                        cr_id r = member_relationship_id (cr_content r)) (pb_relationships b);
  bi_references : Forall (λ r, ref_ok r = true) (pb_referenced_proofs b);
  bi_vocabularies : Forall (λ d, vocabulary_wf d = true) (pb_vocabularies b);
}.

Lemma genuine_event limits content e :
  create_event content limits = Ok e →
  event_wf limits (ce_content e) = true ∧ member_event_id (ce_content e) = Ok (ce_id e).
Proof.
  intros (Hwf & -> & _ & ->)%create_event_Ok. split; [done|]. unfold member_event_id.
  assert (event_to_cbor content = Ok (event_cbor content)) as ->; [|done].
  apply event_to_cbor_Ok. split; [|done]. unfold event_wf in Hwf. by bool_split.
Qed.

Lemma attest_genuine limits content seed a :
  attest content seed limits = Ok a → cose_fits limits (ca_canonical a) = true →
  len (ca_sign1 a) <= max_proof_size limits → genuine_attestation limits a.
Proof.
  intros Ha Hfit Hsize. pose proof (attest_verifies _ _ _ _ Ha Hfit Hsize) as Hv.
  apply attest_Ok in Ha as (Hwf & Hc & Hiss & Hcan & Hid & Hs1).
  unfold genuine_attestation. rewrite Hc, Hiss. split_and!; [|done..].
  unfold stored_wf. cbn [sa_content sa_sign1]. rewrite Hwf. simpl. apply negb_true_iff, orb_false_iff.
  split; [|by apply N.ltb_ge]. apply N.eqb_neq. intros Hz. destruct (ca_sign1 a) eqn:E; [|done].
  unfold verify_attestation, verify_sign1 in Hv. apply bind_Ok in Hv as (p & Hp & _).
  apply verify_sign1_aad_sound in Hp as (Hb & _). discriminate Hb.
Qed.

(** Adding a genuine member keeps the invariant. *)
Lemma add_event_inv limits b e :
  builder_inv limits b →
  event_wf limits (ce_content e) = true ∧ member_event_id (ce_content e) = Ok (ce_id e) →
  builder_inv limits (add_event b e).
Proof. intros [] He. split; cbn; try done. apply Forall_app. split; [done|by apply Forall_singleton]. Qed.
Lemma add_attestation_inv limits b a :
  builder_inv limits b → genuine_attestation limits a → builder_inv limits (add_attestation b a).
Proof. intros [] Ha. split; cbn; try done. apply Forall_app. split; [done|by apply Forall_singleton]. Qed.
Lemma add_evidence_inv limits b e :
  builder_inv limits b →
  evidence_wf limits (cv_content e) = true ∧ cv_id e = member_evidence_id (cv_content e) →
  builder_inv limits (add_evidence b e).
Proof. intros [] He. split; cbn; try done. apply Forall_app. split; [done|by apply Forall_singleton]. Qed.
Lemma add_relationship_inv limits b r :
  builder_inv limits b →
  relationship_wf limits (cr_content r) = true ∧ cr_id r = member_relationship_id (cr_content r) →
  builder_inv limits (add_relationship b r).
Proof. intros [] Hr. split; cbn; try done. apply Forall_app. split; [done|by apply Forall_singleton]. Qed.
Lemma add_reference_inv limits b id b' :
  builder_inv limits b → add_referenced_proof b id = Ok b' → builder_inv limits b'.
Proof.
  intros [] Hb. unfold add_referenced_proof in Hb. apply bind_Ok in Hb as ([] & Hid & Hb). simplify_eq.
  split; cbn; try done. apply Forall_app. split; [done|].
  apply Forall_singleton. by apply check_proof_ref_agree.
Qed.
Lemma builder_new_inv limits prop t : builder_inv limits (builder_new prop t).
Proof. split; constructor. Qed.

Lemma honest_inv limits b : honest limits b → builder_inv limits b.
Proof.
  induction 1 as [prop t|b content e _ IH He|b content seed a _ IH Ha Hfit Hsize
    |b kind digest aref hint e _ IH He|b content r _ IH Hr|b id b' _ IH Hb|b ns version b' _ [] Hb].
  - apply builder_new_inv.
  - by eapply add_event_inv, genuine_event.
  - by eapply add_attestation_inv, attest_genuine.
  - by eapply add_evidence_inv, make_evidence_Ok.
  - by eapply add_relationship_inv, make_relationship_Ok.
  - by eapply add_reference_inv.
  - unfold add_vocabulary in Hb. destruct (sempty ns || _) eqn:Hns; [done|].
    destruct (contains_char _ _ || _) eqn:Hch; [done|]. simplify_eq.
    split; simpl; [done..|]. apply Forall_app. split; [done|]. apply Forall_singleton.
    unfold vocabulary_wf, text_ok. cbn [voc_ns]. rewrite Hns, Hch.
    apply orb_false_iff in Hns as [-> Hl%N.ltb_ge]. simpl. rewrite !andb_true_r.
    apply N.leb_le. lia.
Qed.

Lemma normalize_inv limits b : builder_inv limits b → builder_inv limits (normalize b).
Proof.
  intros []. split; cbn [normalize pb_events pb_attestations pb_evidence pb_relationships
    pb_referenced_proofs pb_vocabularies]; rewrite ?sort_by_perm; try done; by apply Forall_normalize.
Qed.

Lemma map_ns_dedup l :
  map voc_ns (dedup_by same_ns (sort_by voc_ns_leb l)) = sort_dedup (map voc_ns l).
Proof.
  unfold sort_dedup. rewrite (sort_by_map voc_ns_leb) by done.
  induction (sort_by voc_ns_leb l) as [|x k IH]; simpl; [done|]. rewrite <- IH.
  destruct (dedup_by same_ns k) as [|y m]; simpl; [done|]. unfold same_ns. by case_bool_decide.
Qed.

Lemma normalized_sorted l :
  vocabularies_sorted (dedup_by same_ns (sort_by voc_ns_leb l)) = true.
Proof.
  unfold vocabularies_sorted.
  set (k := dedup_by same_ns (sort_by voc_ns_leb l)). cbn zeta.
  assert (map voc_ns (dedup_by same_ns (sort_by voc_ns_leb k)) = map voc_ns k) as Hm.
  { rewrite map_ns_dedup. unfold k. by rewrite map_ns_dedup, sort_dedup_idemp. }
  rewrite bool_decide_eq_false_2 by (intros Hn; by apply Hn). rewrite orb_false_r, negb_involutive.
  apply N.eqb_eq. unfold len. f_equal. by rewrite <- (length_map voc_ns), Hm, length_map.
Qed.

Lemma builder_id_shape prop b :
  text_ok (builder_id prop b) = true ∧ starts_with "prf:v1:" (builder_id prop b) = true.
Proof.
  unfold builder_id, proof_id_full, id_with. generalize (encode_canonical (proof_binding
    (proposition_to_cbor prop) (pb_created_at b) (map ce_id (pb_events b)) (map ca_id (pb_attestations b))
    (map cv_id (pb_evidence b)) (map cr_id (pb_relationships b)) (pb_referenced_proofs b)
    (map (λ vd, (voc_ns vd, voc_version vd)) (pb_vocabularies b)))) as canon. intros canon.
  change (id_prefix.PROOF +:+ ":v1:" +:+ b64u_nopad (sha256 canon))
    with ("prf:v1:" +:+ b64u_nopad (sha256 canon)). split; [|apply starts_with_spec; by eexists].
  unfold text_ok. rewrite andb_true_iff. split; [done|]. apply N.leb_le.
  pose proof (b64_encode_len (sha256 canon)) as Hl. rewrite sha256_len in Hl. unfold b64u_nopad.
  assert (∀ s, slen ("prf:v1:" +:+ s) = 7 + slen s) as ->; [|lia].
  intros s. unfold slen. change (String.length ("prf:v1:" +:+ s)) with (7 + String.length s)%nat. lia.
Qed.

(** What the limits ask of the parts. *)
Record fits (limits : Limits) (prop : Proposition_) (n : ProofBuilder) : Prop := {
  ft_limits : limits_wf limits = true;
  ft_proposition : proposition_wf limits prop = true;
  ft_references : len (pb_referenced_proofs n) <= max_referenced_proofs limits;
  ft_vocabularies : len (pb_vocabularies n) <= max_vocabularies limits;
  ft_edges : len (pb_relationships n) <= max_edges limits;
  ft_nodes : len (pb_events n) + len (pb_attestations n) + len (pb_evidence n) <= max_nodes limits;
  ft_encodable w : proof_to_cbor (assemble prop n) = Ok w →
    encodable limits (Decoder.levels_at_root limits) w = true ∧
    len (encode_canonical w) <= max_proof_size limits;
}.

Lemma assemble_wf limits prop b :
  builder_inv limits b → fits limits prop (normalize b) →
  proof_wf limits (assemble prop (normalize b)) = true.
Proof.
  intros Hinv [_ Hprop Href Hvoc Hedge Hnode _]. pose proof (normalize_inv _ _ Hinv) as [].
  destruct (builder_id_shape prop (normalize b)) as [Ht Hs].
  assert (∀ {A B} (f : A → B) (wf : B → bool) l, Forall (λ x, wf (f x) = true) l →
    forallb wf (map f l) = true) as Hall.
  { intros A B f wf l HF. apply forallb_Forall, Forall_map. exact HF. }
  unfold proof_wf. cbn [assemble prf_v prf_proof_id prf_proposition prf_events prf_attestations
    prf_evidence prf_relationships prf_referenced_proofs prf_vocabularies].
  rewrite Ht, Hs, Hprop, !len_map. rewrite !andb_true_iff. split_and!; try done.
  - apply Hall. eapply Forall_impl; [done|]. by intros ? [].
  - apply Hall. eapply Forall_impl; [done|]. by intros ? [].
  - apply Hall. eapply Forall_impl; [done|]. by intros ? [].
  - apply Hall. eapply Forall_impl; [done|]. by intros ? [].
  - unfold refs_wf. rewrite !andb_true_iff. split_and!; [by apply N.leb_le|by apply forallb_Forall|].
    apply bool_decide_eq_true. apply sort_dedup_idemp.
  - by apply negb_true_iff, N.ltb_ge.
  - by apply negb_true_iff, N.ltb_ge.
  - unfold vocabularies_wf. rewrite !andb_true_iff. split_and!; [by apply N.leb_le|by apply forallb_Forall|].
    apply normalized_sorted.
Qed.

Lemma recomputed_assembled limits prop n :
  builder_inv limits n → recomputed_proof_id (assemble prop n) = Ok (builder_id prop n).
Proof.
  intros [He Ha Hv Hr _ _]. unfold recomputed_proof_id.
  cbn [assemble prf_events prf_attestations prf_evidence prf_relationships prf_proposition
    prf_created_at prf_referenced_proofs prf_vocabularies].
  assert (mapM member_event_id (map ce_content (pb_events n)) = Ok (map ce_id (pb_events n))) as ->.
  { apply mapM_Ok, Forall2_fmap_l, Forall2_fmap_r, Forall_Forall2_diag.
    eapply Forall_impl; [exact He|]. by intros ? []. }
  cbn [mbind result_bind]. unfold builder_id. rewrite !map_map. do 2 f_equal; apply map_ext_in; intros x Hx%list_elem_of_In.
  - rewrite Forall_forall in Ha. symmetry. by destruct (Ha x Hx) as (_ & ? & _).
  - rewrite Forall_forall in Hv. symmetry. by destruct (Hv x Hx).
  - rewrite Forall_forall in Hr. symmetry. by destruct (Hr x Hx).
Qed.

(** The self-check accepts every assembled proof that fits. *)
Lemma emit_live limits prop b :
  builder_inv limits b → fits limits prop (normalize b) →
  ∃ bp, emit (assemble prop (normalize b)) limits = Ok bp.
Proof.
  intros Hinv Hfit. pose proof (assemble_wf _ _ _ Hinv Hfit) as Hwf.
  pose proof (normalize_inv _ _ Hinv) as Hn.
  destruct (proof_to_cbor (assemble prop (normalize b))) as [w|e] eqn:Hw.
  2: { exfalso. unfold proof_wf in Hwf. bool_split.
       assert (∃ w, proof_to_cbor (assemble prop (normalize b)) = Ok w) as [w Hw']; [|congruence].
       eexists. apply proof_to_cbor_Ok. split; [|reflexivity].
       match goal with H : forallb (event_wf _) _ = true |- _ => rewrite forallb_Forall in H;
         eapply Forall_impl; [exact H|] end.
       intros e' He'. unfold event_wf in He'. by bool_split. }
  destruct (ft_encodable _ _ _ Hfit w Hw) as [Henc Hsize].
  destruct (proof_reparse limits _ w (ft_limits _ _ _ Hfit) Hwf Hw Henc Hsize) as [Hd Hp].
  eexists. unfold emit. rewrite Hw. cbn [mbind result_bind]. cbn zeta.
  rewrite (proj2 (N.ltb_ge _ _) Hsize), (proj1 (recheck_redundant _ _)), Hd. cbn [mbind result_bind].
  rewrite Hp. cbn [mbind result_bind]. by rewrite bool_decide_eq_false_2 by (by intros []).
Qed.

Lemma build_live limits prop b :
  builder_inv limits b → pb_proposition b = Some prop → distinct b →
  fits limits prop (normalize b) →
  builder_id prop (normalize b) ∉ pb_referenced_proofs (normalize b) →
  build b limits = emit (assemble prop (normalize b)) limits.
Proof.
  intros Hinv Hp Hd Hfit Hself. pose proof (ft_proposition _ _ _ Hfit) as Hwf.
  assert (prop_v prop = 1) as Hv
    by (unfold proposition_wf in Hwf; rewrite !andb_true_iff in Hwf; apply N.eqb_eq; tauto).
  destruct (build_cases b limits prop Hp) as [[_ ->]|[Hn _]]; [done| |done].
  unfold bind_and_emit. rewrite (proj2 (N.ltb_ge _ _) (ft_references _ _ _ Hfit)).
  rewrite (proj2 (N.ltb_ge _ _) (ft_vocabularies _ _ _ Hfit)).
  rewrite (proj2 (existsb_false _ _)); [done|]. intros r Hr. apply bool_decide_eq_false.
  by intros ->.
Qed.

(** What [build] returns was parsed back by its self-check. *)
Lemma build_Ok limits b bp :
  build b limits = Ok bp →
  ∃ prop v, pb_proposition b = Some prop ∧ bp_id bp = builder_id prop (normalize b) ∧
    decode_strict (bp_canonical bp) limits = Ok v ∧
    cbor_to_proof v limits = Ok (assemble prop (normalize b)).
Proof.
  unfold build. intros Hb. apply bind_Ok in Hb as (prop & Hp%ok_or_Ok & Hb).
  destruct (negb _); [done|]. repeat (apply bind_Ok in Hb as (? & _ & Hb)).
  unfold bind_and_emit in Hb. do 2 (destruct (_ <? _); [done|]). destruct (existsb _ _); [done|].
  unfold emit in Hb. apply bind_Ok in Hb as (w & _ & Hb). destruct (_ <? _); [done|].
  apply bind_Ok in Hb as (v & Hd & Hb). apply bind_Ok in Hb as (back & Hc & Hb).
  case_bool_decide as Hback; [done|]. injection Hb as <-. subst back.
  rewrite (proj1 (recheck_redundant _ _)) in Hd. by exists prop, v.
Qed.

(** A proof built from genuine members verifies under its id. *)
Lemma built_valid `{!HashOrder, !HashOrderLaws} limits b bp ctx :
  builder_inv limits b → build b limits = Ok bp →
  ctx_limits ctx = limits ∧ allowed_algs ctx = algs_strict ∧ misuse ctx = false →
  ∃ r, verify_proof (bp_canonical bp) ctx = Some (Ok r) ∧
    cryptographic_validity r = Validity.Valid ∧ vr_proof_id r = Some (bp_id bp).
Proof.
  intros Hinv (prop & v & _ & Hid & Hdec & Hpar)%build_Ok (Hl & Hal & Hm).
  destruct (verify_proof_spec (bp_canonical bp) ctx Hm) as (r & Hr & Hrun).
  exists r. split_and!; [done| |].
  - apply (cryptographic_validity_spec _ _ _ Hr). eexists. split_and!.
    + exists v. by rewrite Hl.
    + by eapply recomputed_assembled, normalize_inv.
    + intros a (x & -> & Hx)%list_elem_of_fmap. unfold authentic. rewrite Hal, Hl.
      pose proof (bi_attestations _ _ (normalize_inv _ _ Hinv)) as Hat. rewrite Forall_forall in Hat.
      destruct (Hat x Hx) as (_ & Hi & Hv). cbn [sa_content sa_sign1]. rewrite Hv, Hi. done.
  - assert (parses (bp_canonical bp) ctx (assemble prop (normalize b))) as Hps
      by (exists v; by rewrite Hl).
    destruct Hrun as [Hs|(proof & ids & rid & later & Hf)]; [by destruct (stopped_parses _ _ _ _ Hs Hps)|].
    assert (proof = assemble prop (normalize b)) as -> by (eapply parses_inj; [apply Hf|done]).
    rewrite Hid. by destruct Hf as [_ _ _ _ ->].
Qed.

(** C21: honest work is accepted.  A builder fed only with members made by the
    artifact builders and with checked references and vocabularies, whose parts
    are distinct and fit the limits, builds a proof; and every verifier with the
    default algorithm policy and the same limits finds those bytes
    cryptographically valid under the built id. *)
Theorem honest_build_verifies `{!HashOrder, !HashOrderLaws} limits b prop ctx
  (Hb : honest limits b) (Hp : pb_proposition b = Some prop) (Hd : distinct b)
  (Hfit : fits limits prop (normalize b))
  (Hself : builder_id prop (normalize b) ∉ pb_referenced_proofs b)
  (Hctx : ctx_limits ctx = limits ∧ allowed_algs ctx = algs_strict ∧ misuse ctx = false) :
  ∃ bp r, build b limits = Ok bp ∧ verify_proof (bp_canonical bp) ctx = Some (Ok r) ∧
    cryptographic_validity r = Validity.Valid ∧ vr_proof_id r = Some (bp_id bp).
Proof.
  pose proof (honest_inv _ _ Hb) as Hinv.
  assert (builder_id prop (normalize b) ∉ pb_referenced_proofs (normalize b)) as Hself'
    by (cbn [normalize pb_referenced_proofs]; by rewrite (sort_dedup_elem (pb_referenced_proofs b))).
  destruct (emit_live limits prop b Hinv Hfit) as (bp & Hem).
  rewrite <- (build_live limits prop b) in Hem by done.
  destruct (built_valid limits b bp ctx Hinv Hem Hctx) as (r & Hr). by exists bp, r.
Qed.
End honest.

(** * A sample build *)

Module BuilderSamples.
Import Toy CoseSamples PipelineSamples.

Definition ok_default {A} (d : A) (r : Result A) : A := match r with Ok x => x | Err _ => d end.
Definition event_member : CreatedEvent := Eval vm_compute in event_created.
Definition first_statement : CreatedAttestation := Eval vm_compute in created.
Definition second_statement : CreatedAttestation := Eval vm_compute in created2.
Definition evidence_member : CreatedEvidence := Eval vm_compute in
  ok_default (mkCreatedEvidence evidence [] "")
    (make_evidence EvidenceKind.RECEIPT SchemaSamples.digest (Some (ca_id created)) None default_limits).
Definition edge_member : CreatedRelationship := Eval vm_compute in
  ok_default (mkCreatedRel relationship [] "") (make_relationship relationship default_limits).
Definition reference : string := Eval vm_compute in id_with id_prefix.PROOF [].

Definition members : ProofBuilder :=
  add_relationship (add_evidence (add_attestation (add_attestation (add_event
    (builder_new SchemaSamples.proposition 150) event_member) first_statement) second_statement)
    evidence_member) edge_member.
Definition referenced : ProofBuilder := Eval vm_compute in
  ok_default members (add_referenced_proof members reference).
Definition builder : ProofBuilder := Eval vm_compute in
  ok_default referenced (add_vocabulary referenced "legacy" 1).
(** The same parts, the statements swapped and the reference given twice. *)
Definition shuffled : ProofBuilder := Eval vm_compute in
  mkProofBuilder (pb_proposition builder) (pb_created_at builder) (pb_events builder)
    [second_statement; first_statement] (pb_evidence builder) (pb_relationships builder)
    [reference; reference] (pb_vocabularies builder).
End BuilderSamples.

Section builder_witnesses.
Import Toy GraphSamples CoseSamples PipelineSamples BuilderSamples.

Lemma builder_honest : honest default_limits builder.
Proof.
  eapply (honest_vocabulary _ referenced "legacy" 1); [|vm_compute; reflexivity].
  eapply (honest_reference _ members reference); [|vm_compute; reflexivity].
  unfold members. eapply (honest_relationship _ _ relationship); [|vm_compute; reflexivity].
  eapply (honest_evidence _ _ EvidenceKind.RECEIPT SchemaSamples.digest (Some (ca_id created)) None);
    [|vm_compute; reflexivity].
  eapply (honest_attestation _ _ content2 seed); [|vm_compute; (reflexivity || congruence)..].
  eapply (honest_attestation _ _ content seed); [|vm_compute; (reflexivity || congruence)..].
  eapply (honest_event _ _ SchemaSamples.event); [|vm_compute; reflexivity].
  apply honest_new.
Qed.

Lemma builder_fits : fits default_limits SchemaSamples.proposition (normalize builder).
Proof.
  split; [vm_compute; congruence..|]. intros w Hw.
  assert (match proof_to_cbor (assemble SchemaSamples.proposition (normalize builder)) with
    | Ok w => encodable default_limits (Decoder.levels_at_root default_limits) w
              && (len (encode_canonical w) <=? max_proof_size default_limits)
    | Err _ => false end = true) as Hb by (vm_compute; reflexivity).
  rewrite Hw in Hb. apply andb_true_iff in Hb as [He Hl]. split; [exact He|by apply N.leb_le].
Qed.

Lemma builder_distinct : distinct builder.
Proof. unfold distinct. by split_and!; apply check_duplicates_iff; vm_compute. Qed.

Lemma honest_build_verifies_witness :
  ∃ bp r, build builder default_limits = Ok bp ∧ verify_proof (bp_canonical bp) ctx = Some (Ok r) ∧
    cryptographic_validity r = Validity.Valid ∧ vr_proof_id r = Some (bp_id bp).
Proof.
  apply (honest_build_verifies default_limits builder SchemaSamples.proposition ctx builder_honest
    eq_refl builder_distinct builder_fits).
  - apply (bool_decide_unpack _). vm_compute. exact I.
  - split; [reflexivity|]. split; vm_compute; reflexivity.
Defined.

(** Two versions of one namespace: the one declared first is in the proof, so the two
    orders give different bytes. *)
Example first_declaration_counts :
  match b ← add_vocabulary members "ns" 1; add_vocabulary b "ns" 2,
        b ← add_vocabulary members "ns" 2; add_vocabulary b "ns" 1 with
  | Ok b, Ok b' =>
      match build b default_limits, build b' default_limits with
      | Ok p, Ok p' => bool_decide (bp_canonical p ≠ bp_canonical p') && bool_decide (bp_id p ≠ bp_id p')
      | _, _ => false
      end
  | _, _ => false
  end = true.
Proof. vm_compute. reflexivity. Qed.

Lemma build_order_free_witness : build builder default_limits = build shuffled default_limits.
Proof.
  apply build_order_free. split; try reflexivity.
  - apply perm_swap.
  - intros r. cbn. set_solver.
Defined.
End builder_witnesses.
