(* ===== verification/Store.v ===== *)
(** Store: the storage seam (store.rs, and the union store of resolve.rs).

    [ArtifactStore] is the trait as a class; [StoreLaws] states what its
    documentation asks of an implementation.  [MemoryStore] is the in-memory
    store and discharges the laws; [UnionStore] reads two stores as one. *)
From Stdlib Require Import Strings.Byte NArith Lia.
From S2P Require Import Prelude Core.

(** Store errors are transport, [Result<_, String>]. *)
Abbreviation StoreResult := (result string).

Class ArtifactStore (St : Type) := {
  put : St → string → list byte → StoreResult St;
  get : St → string → StoreResult (option (list byte));
}.

(** What the documentation of the trait asks: a read after a write gives what was
    put or fails in transport, a blob that could be read before it was put again
    can be read after, no other id changes, and different bytes under a held id are
    refused. *)
Class StoreLaws (St : Type) `{ArtifactStore St} : Prop := {
  put_get s s' id bytes :
    put s id bytes = Ok s' → get s' id = Ok (Some bytes) ∨ ∃ e, get s' id = Err e;
  put_again s s' id bytes :
    get s id = Ok (Some bytes) → put s id bytes = Ok s' → get s' id = Ok (Some bytes);
  put_other s s' id id' bytes : put s id bytes = Ok s' → id' ≠ id → get s' id' = get s id';
  put_conflict s id old bytes :
    get s id = Ok (Some old) → bytes ≠ old → ∃ e, put s id bytes = Err e;
}.

(** * The in-memory store *)

Record MemoryStore : Type := mkMemoryStore {
  ms_inner : gmap string (list byte);
  ms_max_bytes : N;
}.
(** [MemoryStore::default], which is [MemoryStore::new]. *)
Definition memory_new : MemoryStore :=
  {| ms_inner := ∅; ms_max_bytes := max_proof_size default_limits |}.
Definition memory_with_limits (limits : Limits) : MemoryStore :=
  {| ms_inner := ∅; ms_max_bytes := max_proof_size limits |}.
Definition memory_len (s : MemoryStore) : N := N.of_nat (size (ms_inner s)).
Definition memory_is_empty (s : MemoryStore) : bool := bool_decide (ms_inner s = ∅).

Definition memory_put (s : MemoryStore) (id : string) (cbor : list byte) : StoreResult MemoryStore :=
  if sempty id || (len cbor =? 0) then Err "store put requires non-empty id and bytes" else
  if ms_max_bytes s <? len cbor then
    Err ("store put: " +:+ pretty (len cbor) +:+ " bytes exceeds " +:+ pretty (ms_max_bytes s)
         +:+ " (MemoryStore max_bytes)") else
  let insert := Ok {| ms_inner := <[id := cbor]> (ms_inner s); ms_max_bytes := ms_max_bytes s |} in
  match ms_inner s !! id with
  | Some prev =>
      if bool_decide (prev ≠ cbor)
      then Err ("store conflict: " +:+ id +:+ " already held with different bytes") else insert
  | None => insert
  end.
Definition memory_get (s : MemoryStore) (id : string) : StoreResult (option (list byte)) :=
  Ok (ms_inner s !! id).
#[export] Instance memory_store : ArtifactStore MemoryStore :=
  {| put := memory_put; get := memory_get |}.

Lemma memory_put_Ok s id cbor s' :
  memory_put s id cbor = Ok s' ↔
  (id ≠ "" ∧ cbor ≠ [] ∧ len cbor <= ms_max_bytes s ∧
   (ms_inner s !! id = None ∨ ms_inner s !! id = Some cbor)) ∧
  s' = {| ms_inner := <[id := cbor]> (ms_inner s); ms_max_bytes := ms_max_bytes s |}.
Proof.
  unfold memory_put. rewrite sempty_slen.
  assert ((slen id =? 0) = true ↔ id = "") as Hid.
  { rewrite N.eqb_eq. destruct id; [done|]. unfold slen. cbn [String.length]. split; [lia|done]. }
  assert ((len cbor =? 0) = true ↔ cbor = []) as Hc.
  { rewrite N.eqb_eq. destruct cbor; [done|]. rewrite len_cons. split; [lia|done]. }
  destruct (slen id =? 0); simpl; [naive_solver|]. destruct (len cbor =? 0); [naive_solver|].
  destruct (N.ltb_spec (ms_max_bytes s) (len cbor)) as [Hl|Hl]; [split; [done|lia]|].
  destruct (ms_inner s !! id) as [prev|]; [|naive_solver].
  case_bool_decide; naive_solver.
Qed.

#[export] Instance memory_store_laws : StoreLaws MemoryStore.
Proof.
  split; cbn [put get memory_store]; unfold memory_get.
  - intros s s' id bytes [_ ->]%memory_put_Ok. left. simpl. by rewrite lookup_insert_eq.
  - intros s s' id bytes _ [_ ->]%memory_put_Ok. simpl. by rewrite lookup_insert_eq.
  - intros s s' id id' bytes [_ ->]%memory_put_Ok Hne. simpl. by rewrite lookup_insert_ne.
  - intros s id old bytes [= Hget] Hne. destruct (memory_put s id bytes) as [s'|e] eqn:Hp; [|by eauto].
    apply memory_put_Ok in Hp as [(_ & _ & _ & Hin) _]. exfalso. destruct Hin; congruence.
Qed.

(** * The union store *)

Record UnionStore (A B : Type) : Type := mkUnionStore { us_a : A; us_b : B }.
Arguments mkUnionStore {_ _}.
Arguments us_a {_ _}.
Arguments us_b {_ _}.

Definition union_get `{ArtifactStore A, ArtifactStore B} (u : UnionStore A B) (id : string)
    : StoreResult (option (list byte)) :=
  from_a ← get (us_a u) id;
  from_b ← get (us_b u) id;
  match from_a, from_b with
  | Some a, Some b =>
      if bool_decide (a ≠ b)
      then Err ("store equivocation: " +:+ id +:+ " held with different bytes on each side")
      else Ok (Some a)
  | Some a, None => Ok (Some a)
  | None, b => Ok b
  end.
#[export] Instance union_store `{ArtifactStore A, ArtifactStore B} : ArtifactStore (UnionStore A B) :=
  {| put _ _ _ := Err "union store is read-only"; get := union_get |}.

(** The union answers an id exactly when one side holds it and the other agrees
    or has nothing. *)
Lemma union_get_iff `{ArtifactStore A, ArtifactStore B} (u : UnionStore A B) id bytes :
  get u id = Ok (Some bytes) ↔
  get (us_a u) id = Ok (Some bytes) ∧ (get (us_b u) id = Ok (Some bytes) ∨ get (us_b u) id = Ok None) ∨
  get (us_a u) id = Ok None ∧ get (us_b u) id = Ok (Some bytes).
Proof.
  cbn [get union_store]. unfold union_get.
  destruct (get (us_a u) id) as [[a|]|e], (get (us_b u) id) as [[b|]|e']; simpl;
    try case_bool_decide; naive_solver.
Qed.

(** * Histories *)

(** A sequence of writes; a refused one leaves the store as it was. *)
Fixpoint put_all `{ArtifactStore St} (s : St) (writes : list (string * list byte)) : St :=
  match writes with
  | [] => s
  | (id, bytes) :: writes' =>
      put_all (match put s id bytes with Ok s' => s' | Err _ => s end) writes'
  end.

Section histories.
Context `{StoreLaws St}.

Lemma put_keeps s id bytes s' id' old :
  put s id bytes = Ok s' → get s id' = Ok (Some old) → get s' id' = Ok (Some old).
Proof.
  intros Hp Hg. destruct (decide (id' = id)) as [->|Hne].
  - destruct (decide (bytes = old)) as [->|Hb]; [by eapply put_again|].
    destruct (put_conflict s id old bytes Hg Hb) as [e He]. congruence.
  - by rewrite (put_other s s' id id' bytes Hp Hne).
Qed.

Lemma put_all_keeps s writes id bytes :
  get s id = Ok (Some bytes) → get (put_all s writes) id = Ok (Some bytes).
Proof.
  revert s. induction writes as [|[id' b] writes IH]; intros s Hheld; simpl; [done|].
  apply IH. destruct (put s id' b) as [s'|e] eqn:Hp; [|done]. by eapply put_keeps.
Qed.
End histories.

(** History is immutable.  Whatever is written to the in-memory store,
    accepted or refused, and in whatever order, an id that holds bytes holds the
    same bytes forever; and no write ever stores an empty or an oversized blob. *)
Theorem history_immutable (s : MemoryStore) writes
  (Hbound : map_Forall (λ _ b, b ≠ [] ∧ len b <= ms_max_bytes s) (ms_inner s)) :
  (∀ id bytes, get s id = Ok (Some bytes) → get (put_all s writes) id = Ok (Some bytes)) ∧
  map_Forall (λ _ b, b ≠ [] ∧ len b <= ms_max_bytes s) (ms_inner (put_all s writes)).
Proof.
  split; [intros; by apply put_all_keeps|].
  revert s Hbound. induction writes as [|[id b] writes IH]; intros s Hbound; simpl; [done|].
  destruct (memory_put s id b) as [s'|e] eqn:Hp; [|by apply IH].
  apply memory_put_Ok in Hp as [(_ & Hne & Hl & _) ->]. cbn [ms_max_bytes] in IH.
  apply (IH {| ms_inner := <[id:=b]> (ms_inner s); ms_max_bytes := ms_max_bytes s |}).
  simpl. by apply map_Forall_insert_2.
Qed.

