(* ===== verification/Resolve.v ===== *)
(** Resolve: transitive proof linkage (resolve.rs).

    [resolve_proof_chain] fetches the proofs a root names, transitively, from a
    store and re-verifies each; it records every name it meets once, as resolved
    or with the reason why not.  The main theorem says that the records are
    exactly the reachable names, each at its shortest distance, and that the walk
    always ends.  [ancestors] and [descendants_of] are the two views of it. *)
From Stdlib Require Import Strings.Byte NArith ZArith Lia.
From S2P Require Import Prelude Core External Cbor Schema Graph Ident Claim Cose.
From S2P Require Import Report Pipeline PipelineFacts Verdicts Builder Store.

Inductive UnresolvedReason : Set :=
| Unavailable
| IdMismatch (found : string)
| DepthExceeded
| OverBudget
| StoreFailed (e : string).

Record ResolvedProof : Set := mkResolved { rp_id : string; rp_depth : N; rp_report : VerifyReport }.
Record UnresolvedRef : Set := mkUnresolved { ur_id : string; ur_depth : N; ur_reason : UnresolvedReason }.
Record ResolutionReport : Set := mkResolution {
  rr_root : VerifyReport;
  rr_resolved : list ResolvedProof;
  rr_unresolved : list UnresolvedRef;
}.
Definition resolution_complete (rr : ResolutionReport) : bool := len (rr_unresolved rr) =? 0.

Record Ancestor : Set := mkAncestor { an_id : string; an_depth : N; an_resolved : bool }.

(** The [BTreeMap] of [ancestors]: resolved records first, each lowering the
    depth and setting the flag; unresolved ones only fill gaps. *)
Definition ancestor_depths (rr : ResolutionReport) : gmap string (N * bool) :=
  let depths := foldl (λ m r,
    match m !! rp_id r with
    | Some e => <[rp_id r := (N.min e.1 (rp_depth r), true)]> m
    | None => <[rp_id r := (rp_depth r, true)]> m
    end) (∅ : gmap string (N * bool)) (rr_resolved rr) in
  foldl (λ m u,
    match m !! ur_id u with
    | Some _ => m
    | None => <[ur_id u := (ur_depth u, false)]> m
    end) depths (rr_unresolved rr).

(** [(a.depth, &a.id).cmp(&(b.depth, &b.id))]. *)
Definition ancestor_leb (a b : Ancestor) : bool :=
  if an_depth a =? an_depth b then str_leb (an_id a) (an_id b) else an_depth a <? an_depth b.

Definition ancestors (rr : ResolutionReport) : list Ancestor :=
  sort_by ancestor_leb
    (map (λ e, {| an_id := e.1; an_depth := e.2.1; an_resolved := e.2.2 |})
      (btree_entries str_leb (ancestor_depths rr))).

(** [budget]: saturating [usize] arithmetic. *)
Definition budget (limits : Limits) (max_transitive_depth : N) : N :=
  N.max (max_transitive_depth *sat max_referenced_proofs limits +sat 1)%engine 1.

(** The locals of the walk. *)
Record Walk : Type := mkWalk {
  wk_visited : gset string;
  wk_queue : list (string * N);
  wk_resolved : list ResolvedProof;
  wk_unresolved : list UnresolvedRef;
}.

Section resolve.
Context `{Base64Url, Sha2, SignatureSchemes, HashOrder} `{ArtifactStore St}.

(** [unresolved.push(..); continue]. *)
Definition unresolved (w : Walk) (id : string) (depth : N) (reason : UnresolvedReason) : Walk :=
  {| wk_visited := {[id]} ∪ wk_visited w; wk_queue := wk_queue w; wk_resolved := wk_resolved w;
     wk_unresolved := wk_unresolved w ++ [{| ur_id := id; ur_depth := depth; ur_reason := reason |}] |}.

(** One popped reference, not visited before.  [None] is a verification out of
    fuel. *)
Definition visit_ref (store : St) (ctx : VerifyCtx) (max_transitive_depth : N) (w : Walk)
    (id : string) (depth : N) : option (Result Walk) :=
  if max_transitive_depth <? depth then Some (Ok (unresolved w id depth DepthExceeded)) else
  if budget (ctx_limits ctx) max_transitive_depth <=? len (wk_resolved w) + len (wk_unresolved w)
  then Some (Ok (unresolved w id depth OverBudget)) else
  match get store id with
  | Err e => Some (Ok (unresolved w id depth (StoreFailed e)))
  | Ok None => Some (Ok (unresolved w id depth Unavailable))
  | Ok (Some bytes) =>
      r ← verify_proof bytes ctx;
      match r with
      | Err e => Some (Err e)
      | Ok report =>
          if bool_decide (vr_proof_id report ≠ Some id) then
            Some (Ok (unresolved w id depth
              (IdMismatch (default "<unparseable>" (vr_proof_id report)))))
          else
            Some (Ok {| wk_visited := {[id]} ∪ wk_visited w;
                        wk_queue := wk_queue w
                          ++ map (λ child, (child, depth + 1)) (vr_referenced_proofs report);
                        wk_resolved := wk_resolved w
                          ++ [{| rp_id := id; rp_depth := depth; rp_report := report |}];
                        wk_unresolved := wk_unresolved w |})
      end
  end.

(** The [while let] loop; [None] is out of fuel. *)
Fixpoint resolve_loop (fuel : nat) (store : St) (ctx : VerifyCtx) (max_transitive_depth : N)
    (w : Walk) : option (Result Walk) :=
  match wk_queue w with
  | [] => Some (Ok w)
  | (id, depth) :: queue =>
      match fuel with
      | O => None
      | S fuel =>
          let w := {| wk_visited := wk_visited w; wk_queue := queue;
                      wk_resolved := wk_resolved w; wk_unresolved := wk_unresolved w |} in
          if bool_decide (id ∈ wk_visited w) then resolve_loop fuel store ctx max_transitive_depth w
          else
            r ← visit_ref store ctx max_transitive_depth w id depth;
            match r with
            | Err e => Some (Err e)
            | Ok w => resolve_loop fuel store ctx max_transitive_depth w
            end
      end
  end.

(** Every pop is a reference of the root or of a resolved proof; at most
    [budget] proofs are resolved, with at most [max_referenced_proofs] references
    each. *)
Definition resolve_fuel (limits : Limits) (max_transitive_depth queued : N) : nat :=
  N.to_nat (queued + budget limits max_transitive_depth * max_referenced_proofs limits).

Definition start_walk (root : VerifyReport) : Walk := {|
  wk_visited := match vr_proof_id root with Some id => {[id]} | None => ∅ end;
  wk_queue := map (λ id, (id, 1)) (vr_referenced_proofs root);
  wk_resolved := []; wk_unresolved := [] |}.

Definition resolve_proof_chain (root_canonical : list byte) (store : St) (ctx : VerifyCtx)
    (max_transitive_depth : N) : option (Result ResolutionReport) :=
  r ← verify_proof root_canonical ctx;
  match r with
  | Err e => Some (Err e)
  | Ok root =>
      r ← resolve_loop
            (resolve_fuel (ctx_limits ctx) max_transitive_depth (len (vr_referenced_proofs root)))
            store ctx max_transitive_depth (start_walk root);
      match r with
      | Err e => Some (Err e)
      | Ok w => Some (Ok {| rr_root := root; rr_resolved := wk_resolved w;
                            rr_unresolved := wk_unresolved w |})
      end
  end.

(** The candidate loop of [descendants_of]: the [MemoryStore] and the ids. *)
Fixpoint collect_candidates (ctx : VerifyCtx) (mem : MemoryStore) (ids : list string)
    (candidates : list (list byte)) : option (Result (MemoryStore * list string)) :=
  match candidates with
  | [] => Some (Ok (mem, ids))
  | bytes :: candidates' =>
      r ← verify_proof bytes ctx;
      match r with
      | Err e => Some (Err e)
      | Ok report =>
          match vr_proof_id report with
          | Some id =>
              match put mem id bytes with
              | Err _ => Some (Err ErrorCode.SchemaViolation)
              | Ok mem => collect_candidates ctx mem (ids ++ [id]) candidates'
              end
          | None => collect_candidates ctx mem ids candidates'
          end
      end
  end.
End resolve.

Section descendants.
Context `{Base64Url, Sha2, SignatureSchemes, HashOrder} `{ArtifactStore St}.

(** The second loop: which candidates have [target] among their ancestors. *)
Fixpoint filter_descendants (target : string) (u : UnionStore MemoryStore St) (ctx : VerifyCtx)
    (max_transitive_depth : N) (out ids : list string) : option (Result (list string)) :=
  match ids with
  | [] => Some (Ok out)
  | id :: ids' =>
      if bool_decide (id = target) then
        filter_descendants target u ctx max_transitive_depth out ids'
      else
        match get u id with
        | Err _ | Ok None => Some (Err ErrorCode.SchemaViolation)
        | Ok (Some bytes) =>
            r ← resolve_proof_chain bytes u ctx max_transitive_depth;
            match r with
            | Err e => Some (Err e)
            | Ok rep =>
                filter_descendants target u ctx max_transitive_depth
                  (if existsb (λ a, bool_decide (an_id a = target)) (ancestors rep)
                   then out ++ [id] else out) ids'
            end
        end
  end.

Definition descendants_of (target : string) (candidates : list (list byte)) (store : St)
    (ctx : VerifyCtx) (max_transitive_depth : N) : option (Result (list string)) :=
  r ← collect_candidates ctx memory_new [] candidates;
  match r with
  | Err e => Some (Err e)
  | Ok (mem, ids) =>
      r ← filter_descendants target {| us_a := mem; us_b := store |} ctx max_transitive_depth [] ids;
      match r with
      | Err e => Some (Err e)
      | Ok out => Some (Ok (sort_by str_leb out))
      end
  end.
End descendants.

(** * References are bounded *)

Section bounded.
Context `{Base64UrlLaws, Sha2, SignatureSchemes, HashOrderLaws}.

Lemma cbor_to_referenced_proofs_bound m limits refs :
  cbor_to_referenced_proofs m limits = Ok refs → len refs <= max_referenced_proofs limits.
Proof.
  unfold cbor_to_referenced_proofs. destruct (find_field m _) as [v|]; [|intros [= <-]; rewrite len_nil; lia].
  destruct v as [| | | |items| | |]; try done. destruct (N.ltb_spec (max_referenced_proofs limits) (len items)); [done|].
  intros Hr. apply bind_Ok in Hr as (refs' & Hm & Hr). apply mapM_Ok, Forall2_length in Hm.
  cbn zeta in Hr. destruct (_ || _); simplify_eq. unfold len in *. lia.
Qed.

Lemma cbor_to_proof_refs v limits p :
  cbor_to_proof v limits = Ok p → len (prf_referenced_proofs p) <= max_referenced_proofs limits.
Proof.
  unfold cbor_to_proof. intros Hp. to_lookups. cbn [prf_referenced_proofs].
  by eapply cbor_to_referenced_proofs_bound.
Qed.

Lemma report_refs_bound bytes ctx r :
  verify_proof bytes ctx = Some (Ok r) →
  len (vr_referenced_proofs r) <= max_referenced_proofs (ctx_limits ctx).
Proof.
  intros Hr. apply verify_proof_inv in Hr as [_ [Hs|(proof & ids & rid & later & Hf)]].
  - apply stopped_rejected in Hs. destruct (rj_empty r Hs) as (_ & _ & _ & -> & _). rewrite len_nil. lia.
  - pose proof (fr_parse _ _ _ _ _ _ _ Hf) as (v & _ & Hp). destruct Hf as [_ _ _ _ ->].
    by eapply cbor_to_proof_refs.
Qed.
End bounded.

(** * What the records mean *)

Section walk.
Context `{Base64UrlLaws, Sha2, SignatureSchemes, HashOrderLaws} `{ArtifactStore St}.
Context (store : St) (ctx : VerifyCtx) (max : N) (root : VerifyReport).

(** The store holds a proof under its own id. *)
Definition fetched (id : string) (report : VerifyReport) : Prop :=
  ∃ bytes, get store id = Ok (Some bytes) ∧ verify_proof bytes ctx = Some (Ok report) ∧
           vr_proof_id report = Some id.

(** A path of references from the root through resolved proofs. *)
Inductive linked (resolved : list ResolvedProof) : N → string → Prop :=
| linked_root id : id ∈ vr_referenced_proofs root → linked resolved 1 id
| linked_step n p id :
    linked resolved n (rp_id p) → p ∈ resolved → id ∈ vr_referenced_proofs (rp_report p) →
    linked resolved (n + 1) id.

(** Why a name is unresolved. *)
Definition justified (recorded : N) (u : UnresolvedRef) : Prop :=
  match ur_reason u with
  | DepthExceeded => max < ur_depth u
  | OverBudget => ur_depth u <= max ∧ budget (ctx_limits ctx) max <= recorded
  | StoreFailed e => ur_depth u <= max ∧ get store (ur_id u) = Err e
  | Unavailable => ur_depth u <= max ∧ get store (ur_id u) = Ok None
  | IdMismatch found => ur_depth u <= max ∧ ∃ bytes report,
      get store (ur_id u) = Ok (Some bytes) ∧ verify_proof bytes ctx = Some (Ok report) ∧
      vr_proof_id report ≠ Some (ur_id u) ∧ found = default "<unparseable>" (vr_proof_id report)
  end.

(** The recorded names with their depths. *)
Definition entries (resolved : list ResolvedProof) (unresolved : list UnresolvedRef)
    : list (string * N) :=
  map (λ p, (rp_id p, rp_depth p)) resolved ++ map (λ u, (ur_id u, ur_depth u)) unresolved.
Abbreviation walk_entries w := (entries (wk_resolved w) (wk_unresolved w)).

(** A reference that the walk has dealt with, or will at depth at most [n]. *)
Definition covered (w : Walk) (id : string) (n : N) : Prop :=
  vr_proof_id root = Some id ∨ ∃ d, d <= n ∧ ((id, d) ∈ walk_entries w ∨ (id, d) ∈ wk_queue w).

Record walk_inv (w : Walk) : Prop := {
  wi_nodup : NoDup (map fst (walk_entries w));
  wi_visited id : id ∈ wk_visited w ↔ vr_proof_id root = Some id ∨ id ∈ map fst (walk_entries w);
  wi_root id : id ∈ map fst (walk_entries w) → vr_proof_id root ≠ Some id;
  wi_resolved p : p ∈ wk_resolved w → rp_depth p <= max ∧ fetched (rp_id p) (rp_report p);
  wi_unresolved u : u ∈ wk_unresolved w →
    justified (len (wk_resolved w) + len (wk_unresolved w)) u;
  wi_linked id d : (id, d) ∈ walk_entries w ∨ (id, d) ∈ wk_queue w → linked (wk_resolved w) d id;
  wi_sorted : StronglySorted (λ x y : string * N, x.2 <= y.2) (wk_queue w);
  wi_spread x y : x ∈ wk_queue w → y ∈ wk_queue w → y.2 <= x.2 + 1;
  wi_behind x e : x ∈ wk_queue w → e ∈ walk_entries w → e.2 <= x.2;
  wi_children : (∀ id, id ∈ vr_referenced_proofs root → covered w id 1) ∧
    (∀ p id, p ∈ wk_resolved w → id ∈ vr_referenced_proofs (rp_report p) →
             covered w id (rp_depth p + 1));
}.

Lemma linked_mono resolved resolved' n id :
  (∀ p, p ∈ resolved → p ∈ resolved') → linked resolved n id → linked resolved' n id.
Proof.
  intros Hsub. induction 1 as [id Hid|n p id _ IH Hp Hid]; [by apply linked_root|].
  eapply linked_step; eauto.
Qed.

Lemma start_inv : walk_inv (start_walk root).
Proof.
  unfold start_walk, entries. split; cbn [wk_resolved wk_unresolved wk_queue wk_visited map app].
  - constructor.
  - intros id. destruct (vr_proof_id root) as [rid|]; [|set_solver]. split.
    + intros ->%elem_of_singleton. by left.
    + intros [[= ->]|Hin]; [by apply elem_of_singleton|by apply elem_of_nil in Hin].
  - intros id Hin. by apply elem_of_nil in Hin.
  - intros p Hp. by apply elem_of_nil in Hp.
  - intros u Hu. by apply elem_of_nil in Hu.
  - intros id d [Hin|Hin]; [by apply elem_of_nil in Hin|].
    apply list_elem_of_fmap in Hin as (id' & [= -> ->] & Hin). by apply linked_root.
  - induction (vr_referenced_proofs root) as [|id l IH]; constructor; [done|].
    apply Forall_forall. intros x (id' & -> & _)%list_elem_of_fmap. done.
  - intros x y (a & -> & _)%list_elem_of_fmap (b & -> & _)%list_elem_of_fmap. simpl. lia.
  - intros x e _ Hin. by apply elem_of_nil in Hin.
  - split; [|intros p id Hp; by apply elem_of_nil in Hp].
    intros id Hid. right. exists 1. split; [lia|]. right. apply list_elem_of_fmap. by exists id.
Qed.

(** Popping a visited name. *)
Definition popped (w : Walk) (queue : list (string * N)) : Walk :=
  {| wk_visited := wk_visited w; wk_queue := queue;
     wk_resolved := wk_resolved w; wk_unresolved := wk_unresolved w |}.

Lemma pop_visited w id depth queue :
  walk_inv w → wk_queue w = (id, depth) :: queue → id ∈ wk_visited w → walk_inv (popped w queue).
Proof.
  intros [Hnd Hvis Hroot Hres Hunr Hlink Hsort Hspread Hbehind Hch] Hq Hin.
  rewrite Hq in *. apply StronglySorted_cons in Hsort as [Hhead Hsort].
  split; try done; cbn [popped wk_queue wk_resolved wk_unresolved].
  - intros id' d [?|?]; apply Hlink; [by left|right; by right].
  - intros x y Hx Hy. apply Hspread; by right.
  - intros x e Hx He. apply Hbehind; [by right|done].
  - assert (∀ id' n, covered w id' n → covered (popped w queue) id' n) as Hcov.
    { intros id' n [Hr|(d & Hd & [He|Hqd])]; [by left|right; exists d; auto|].
      rewrite Hq in Hqd. apply elem_of_cons in Hqd as [[= -> ->]|Hqd]; [|right; exists d; auto].
      apply Hvis in Hin as [Hr|Hin]; [by left|]. right.
      apply list_elem_of_fmap in Hin as ([i e] & Hi & Hin). simpl in Hi. subst i. exists e. split; [|by left].
      pose proof (Hbehind (id, depth) (id, e) ltac:(left) Hin) as Hb. simpl in Hb. lia. }
    destruct Hch as [Hc1 Hc2]. split; intros; apply Hcov; eauto.
Qed.

Lemma justified_mono n n' u : n <= n' → justified n u → justified n' u.
Proof. unfold justified. destruct (ur_reason u); try done. intros ? [? ?]. split; lia. Qed.

Lemma sorted_push (queue : list (string * N)) depth kids :
  StronglySorted (λ x y : string * N, x.2 <= y.2) queue →
  (∀ x, x ∈ queue → x.2 <= depth + 1) →
  StronglySorted (λ x y : string * N, x.2 <= y.2) (queue ++ map (λ c, (c, depth + 1)) kids).
Proof.
  intros Hs Hle. induction Hs as [|x queue Hs IH Hx]; simpl.
  - induction kids as [|c kids IH]; constructor; [done|].
    apply Forall_forall. intros y (c' & -> & _)%list_elem_of_fmap. done.
  - constructor; [apply IH; intros; apply Hle; by right|]. apply Forall_app. split; [done|].
    apply Forall_forall. intros y (c & -> & _)%list_elem_of_fmap. simpl. apply Hle. left.
Qed.

(** A popped, unvisited name is recorded at its depth; if it was resolved, its
    references join the queue one step further. *)
Lemma record_inv w id depth queue w' kids :
  walk_inv w → wk_queue w = (id, depth) :: queue → id ∉ wk_visited w →
  wk_visited w' = {[id]} ∪ wk_visited w →
  walk_entries w' ≡ₚ (id, depth) :: walk_entries w →
  wk_queue w' = queue ++ map (λ c, (c, depth + 1)) kids →
  (∀ p, p ∈ wk_resolved w → p ∈ wk_resolved w') →
  (∀ p, p ∈ wk_resolved w' → p ∈ wk_resolved w ∨
     rp_id p = id ∧ rp_depth p = depth ∧ vr_referenced_proofs (rp_report p) = kids ∧
     depth <= max ∧ fetched id (rp_report p)) →
  (∀ c, c ∈ kids → ∃ p, p ∈ wk_resolved w' ∧ rp_id p = id ∧ c ∈ vr_referenced_proofs (rp_report p)) →
  (∀ u, u ∈ wk_unresolved w' → justified (len (wk_resolved w') + len (wk_unresolved w')) u) →
  walk_inv w'.
Proof.
  intros [Hnd Hvis Hroot Hres Hunr Hlink Hsort Hspread Hbehind [Hc1 Hc2]] Hq Hin
    Hv He Hq' Hsub Hnew Hkids Hjust.
  rewrite Hq in *. apply StronglySorted_cons in Hsort as [Hhead Hsort]. rewrite Forall_forall in Hhead.
  rewrite Hvis in Hin.
  assert (∀ e, e ∈ walk_entries w' ↔ e = (id, depth) ∨ e ∈ walk_entries w) as Hel
    by (intros e; by rewrite He, elem_of_cons).
  assert (∀ i, i ∈ map fst (walk_entries w') ↔ i = id ∨ i ∈ map fst (walk_entries w)) as Hids
    by (intros i; rewrite He; simpl; by rewrite elem_of_cons).
  assert (∀ x, x ∈ queue → depth <= x.2 <= depth + 1) as Hqd.
  { intros x Hx. split; [by apply (Hhead x)|].
    pose proof (Hspread (id, depth) x ltac:(left) ltac:(by right)). done. }
  assert (∀ x, x ∈ wk_queue w' ↔ x ∈ queue ∨ ∃ c, c ∈ kids ∧ x = (c, depth + 1)) as Hqel.
  { intros x. rewrite Hq', elem_of_app, list_elem_of_fmap. naive_solver. }
  assert (∀ i n, covered w i n → covered w' i n) as Hcov.
  { intros i n [Hr|(d & Hd & Hd')]; [by left|]. right. exists d. split; [done|].
    rewrite Hel, Hqel. rewrite Hq in Hd'. destruct Hd' as [?|[?|?]%elem_of_cons]; auto. }
  split.
  - rewrite He. simpl. constructor; [tauto|done].
  - intros i. rewrite Hv, elem_of_union, elem_of_singleton, Hvis, Hids. tauto.
  - intros i. rewrite Hids. intros [->|Hi]; [tauto|auto].
  - intros p Hp. apply Hnew in Hp as [Hp|(-> & -> & _ & ? & ?)]; auto.
  - done.
  - intros i d. rewrite Hel, Hqel. intros [[[= -> ->]|?]|[?|(c & Hc & [= -> ->])]].
    + eapply linked_mono; [exact Hsub|]. apply Hlink. right. left.
    + eapply linked_mono; [exact Hsub|]. apply Hlink. by left.
    + eapply linked_mono; [exact Hsub|]. apply Hlink. right. by right.
    + destruct (Hkids c Hc) as (p & Hp & Hpid & Hpc). eapply linked_step; [|done..].
      rewrite Hpid. eapply linked_mono; [exact Hsub|]. apply Hlink. right. left.
  - rewrite Hq'. apply sorted_push; [done|]. intros x Hx. by apply Hqd.
  - intros x y. rewrite !Hqel. intros [Hx|(c & _ & ->)] [Hy|(c' & _ & ->)]; simpl;
      try (apply Hqd in Hx); try (apply Hqd in Hy); lia.
  - intros x e. rewrite Hqel, Hel. intros [Hx|(c & _ & ->)] [->|Hee]; simpl.
    + by apply Hqd.
    + apply Hbehind; [by right|done].
    + lia.
    + pose proof (Hbehind (id, depth) e ltac:(left) Hee). simpl in *. lia.
  - split; [intros i Hi; by apply Hcov, Hc1|]. intros p i Hp Hi.
    apply Hnew in Hp as [Hp|(_ & -> & Hk & _)]; [by apply Hcov, (Hc2 p)|].
    right. exists (depth + 1). split; [lia|]. right. apply Hqel. right. exists i. by rewrite <- Hk.
Qed.

Lemma unresolved_inv w id depth queue reason :
  walk_inv w → wk_queue w = (id, depth) :: queue → id ∉ wk_visited w →
  justified (len (wk_resolved w) + len (wk_unresolved w)) (mkUnresolved id depth reason) →
  walk_inv (unresolved (popped w queue) id depth reason).
Proof.
  intros Hw Hq Hin Hj. eapply (record_inv w id depth queue _ []); try done.
  - unfold entries. cbn. rewrite map_app. simpl. rewrite app_assoc. by rewrite Permutation_app_comm.
  - cbn. by rewrite app_nil_r.
  - cbn. auto.
  - intros c Hc. by apply elem_of_nil in Hc.
  - cbn. intros u. rewrite elem_of_app, list_elem_of_singleton, len_app. intros [Hu| ->].
    + eapply justified_mono; [|by eapply wi_unresolved]. lia.
    + eapply justified_mono; [|exact Hj]. lia.
Qed.

(** One visit keeps the invariant and pays for what it queues. *)
Definition potential (w : Walk) : N :=
  len (wk_queue w) +
  (budget (ctx_limits ctx) max - len (wk_resolved w)) * max_referenced_proofs (ctx_limits ctx).

Lemma visit_ref_step w id depth queue :
  misuse ctx = false →
  walk_inv w → wk_queue w = (id, depth) :: queue → id ∉ wk_visited w →
  ∃ w', visit_ref store ctx max (popped w queue) id depth = Some (Ok w') ∧ walk_inv w' ∧
        potential w' < potential w.
Proof.
  intros Hm Hw Hq Hin. unfold visit_ref. cbn [popped wk_resolved wk_unresolved wk_queue wk_visited].
  assert (∀ reason, justified (len (wk_resolved w) + len (wk_unresolved w)) (mkUnresolved id depth reason) →
    ∃ w', Some (Ok (unresolved (popped w queue) id depth reason)) = Some (@Ok ErrorCode.t _ w') ∧
      walk_inv w' ∧ potential w' < potential w) as Hun.
  { intros reason Hj. eexists. split; [done|]. split; [by apply unresolved_inv|].
    unfold potential. cbn. rewrite Hq, len_cons. lia. }
  destruct (N.ltb_spec max depth) as [Hd|Hd]; [by apply Hun|].
  destruct (N.leb_spec (budget (ctx_limits ctx) max) (len (wk_resolved w) + len (wk_unresolved w)))
    as [Hb|Hb]; [by apply Hun|].
  destruct (get store id) as [[bytes|]|e] eqn:Hg; [|by apply Hun..].
  destruct (verify_proof_spec bytes ctx Hm) as (r & Hr & _). rewrite Hr. cbn [mbind option_bind].
  case_bool_decide as Hid; [apply Hun; cbn; eauto 10|].
  eexists. split; [done|]. split.
  - eapply (record_inv w id depth queue _ (vr_referenced_proofs r)); try done; cbn.
    + unfold entries. cbn. rewrite map_app, <- app_assoc. simpl. by rewrite <- Permutation_middle.
    + intros p. rewrite elem_of_app. auto.
    + intros p. rewrite elem_of_app, list_elem_of_singleton. intros [?| ->]; [by left|]. right.
      split_and!; [done..|]. by exists bytes.
    + intros c Hc. eexists. split; [apply elem_of_app; right; by left|]. done.
    + intros u Hu. eapply justified_mono; [|by eapply wi_unresolved]. rewrite len_app. lia.
  - pose proof (report_refs_bound _ _ _ Hr) as Hbound. unfold potential. cbn.
    rewrite Hq. autorewrite with engine. rewrite N.add_0_l.
    replace (budget (ctx_limits ctx) max - len (wk_resolved w))
      with (budget (ctx_limits ctx) max - (len (wk_resolved w) + 1) + 1) by lia.
    rewrite N.mul_add_distr_r. lia.
Qed.

Lemma potential_pop w x queue :
  wk_queue w = x :: queue → potential w = potential (popped w queue) + 1.
Proof. intros Hq. unfold potential. cbn [popped wk_queue wk_resolved]. rewrite Hq, len_cons. lia. Qed.

Lemma resolve_loop_spec fuel w :
  misuse ctx = false → walk_inv w → (N.to_nat (potential w) <= fuel)%nat →
  ∃ w', resolve_loop fuel store ctx max w = Some (Ok w') ∧ walk_inv w' ∧ wk_queue w' = [].
Proof.
  intros Hm. revert w. induction fuel as [|fuel IH]; intros w Hw Hf; simpl;
    destruct (wk_queue w) as [|[id depth] queue] eqn:Hq; try (by exists w).
  { exfalso. rewrite (potential_pop w _ _ Hq) in Hf. lia. }
  fold (popped w queue). case_bool_decide as Hin.
  - apply IH; [by eapply pop_visited|]. rewrite (potential_pop w _ _ Hq) in Hf. lia.
  - destruct (visit_ref_step w id depth queue Hm Hw Hq Hin) as (w' & -> & Hw' & Hp).
    cbn [mbind option_bind]. apply IH; [done|]. lia.
Qed.

Lemma entries_resolved w p : p ∈ wk_resolved w → (rp_id p, rp_depth p) ∈ walk_entries w.
Proof. intros Hp. apply elem_of_app. left. apply list_elem_of_fmap. by exists p. Qed.

Lemma entries_unique w i d d' :
  walk_inv w → (i, d) ∈ walk_entries w → (i, d') ∈ walk_entries w → d = d'.
Proof.
  intros Hw Hi1 Hi2. pose proof (wi_nodup w Hw) as Hnd.
  apply list_elem_of_lookup in Hi1 as [j1 Hj1], Hi2 as [j2 Hj2].
  assert (j1 = j2) as ->; [|congruence].
  eapply (NoDup_lookup _ _ _ i Hnd); rewrite list_lookup_fmap; [by rewrite Hj1|by rewrite Hj2].
Qed.

Lemma entries_not_root w i d : walk_inv w → (i, d) ∈ walk_entries w → vr_proof_id root ≠ Some i.
Proof. intros Hw Hin. eapply wi_root; [done|]. apply list_elem_of_fmap. by exists (i, d). Qed.

(** A finished walk has recorded every reachable name, no later than any chain
    reaches it. *)
Lemma walk_reach w n i :
  walk_inv w → wk_queue w = [] → linked (wk_resolved w) n i →
  vr_proof_id root = Some i ∨ ∃ e, e <= n ∧ (i, e) ∈ walk_entries w.
Proof.
  intros Hw Hq. destruct (wi_children w Hw) as [Hc1 Hc2].
  assert (∀ i n, covered w i n → vr_proof_id root = Some i ∨ ∃ e, e <= n ∧ (i, e) ∈ walk_entries w) as Hcov.
  { clear i n. intros i n [?|(e & He & [?|Hin])]; [by left|right; by exists e|].
    rewrite Hq in Hin. by apply elem_of_nil in Hin. }
  induction 1 as [i Hi|n p i _ IH Hp Hi]; [by apply Hcov, Hc1|].
  pose proof (entries_resolved w p Hp) as Hpe.
  assert (rp_depth p <= n) as Hle.
  { destruct IH as [Hr|(e & He & Hie)]; [by destruct (entries_not_root w _ _ Hw Hpe)|].
    by rewrite (entries_unique w _ _ _ Hw Hpe Hie). }
  destruct (Hcov _ _ (Hc2 p i Hp Hi)) as [?|(e & He & ?)]; [by left|right; exists e; split; [lia|done]].
Qed.
End walk.

Section resolution.
Context `{Base64UrlLaws, Sha2, SignatureSchemes, HashOrderLaws} `{ArtifactStore St}.
Context (store : St) (ctx : VerifyCtx) (max : N).

(** The contract of a resolution report. *)
Record resolution_spec (root_canonical : list byte) (rr : ResolutionReport) : Prop := {
  rs_root : verify_proof root_canonical ctx = Some (Ok (rr_root rr));
  rs_once : NoDup (map fst (entries (rr_resolved rr) (rr_unresolved rr)));
  rs_resolved p : p ∈ rr_resolved rr → rp_depth p <= max ∧ fetched store ctx (rp_id p) (rp_report p);
  rs_unresolved u : u ∈ rr_unresolved rr →
    justified store ctx max (len (rr_resolved rr) + len (rr_unresolved rr)) u;
  rs_sound id d :
    (id, d) ∈ entries (rr_resolved rr) (rr_unresolved rr) →
    vr_proof_id (rr_root rr) ≠ Some id ∧ linked (rr_root rr) (rr_resolved rr) d id;
  rs_shortest id d :
    linked (rr_root rr) (rr_resolved rr) d id →
    vr_proof_id (rr_root rr) = Some id ∨
    ∃ e, e <= d ∧ (id, e) ∈ entries (rr_resolved rr) (rr_unresolved rr);
}.

Lemma resolve_spec root_canonical :
  misuse ctx = false →
  ∃ rr, resolve_proof_chain root_canonical store ctx max = Some (Ok rr) ∧
        resolution_spec root_canonical rr.
Proof.
  intros Hm. destruct (verify_proof_spec root_canonical ctx Hm) as (root & Hr & _).
  destruct (resolve_loop_spec store ctx max root
    (resolve_fuel (ctx_limits ctx) max (len (vr_referenced_proofs root))) (start_walk root) Hm
    (start_inv store ctx max root)) as (w & Hl & Hw & Hq).
  { unfold resolve_fuel, potential. cbn [start_walk wk_queue wk_resolved]. rewrite len_map, len_nil.
    rewrite N.sub_0_r. done. }
  eexists. split.
  { unfold resolve_proof_chain. rewrite Hr. cbn [mbind option_bind]. by rewrite Hl. }
  split; cbn [rr_root rr_resolved rr_unresolved]; [done|by eapply wi_nodup|by eapply wi_resolved
    |by eapply wi_unresolved| |].
  - intros id d Hin. split; [by eapply entries_not_root|]. eapply wi_linked; [done|]. by left.
  - intros id d Hl'. by eapply walk_reach.
Qed.

End resolution.

(** * Ancestors *)

Lemma depths_resolved l (m : gmap string (N * bool)) :
  NoDup (map rp_id l) → (∀ p, p ∈ l → m !! rp_id p = None) →
  ∀ id e, foldl (λ m r, match m !! rp_id r with
                        | Some e => <[rp_id r := (N.min e.1 (rp_depth r), true)]> m
                        | None => <[rp_id r := (rp_depth r, true)]> m
                        end) m l !! id = Some e ↔
  m !! id = Some e ∨ ∃ p, p ∈ l ∧ rp_id p = id ∧ e = (rp_depth p, true).
Proof.
  revert m. induction l as [|p l IH]; intros m Hnd Hm id e; simpl; [set_solver|].
  apply NoDup_cons in Hnd as [Hp Hnd]. rewrite (Hm p) by left.
  rewrite IH; [|done|].
  - rewrite lookup_insert_Some. setoid_rewrite elem_of_cons. pose proof (Hm p ltac:(left)) as Hmp.
    split; [naive_solver|]. intros [He|(q & [->|Hq] & <- & ->)]; [|by left; left|by eauto 6].
    left. right. split; [|done]. intros <-. congruence.
  - intros q Hq. rewrite lookup_insert_ne; [apply Hm; by right|].
    intros Heq. apply Hp. rewrite Heq. apply list_elem_of_fmap. by exists q.
Qed.

Lemma depths_unresolved l (m : gmap string (N * bool)) :
  NoDup (map ur_id l) → (∀ u, u ∈ l → m !! ur_id u = None) →
  ∀ id e, foldl (λ m u, match m !! ur_id u with
                        | Some _ => m
                        | None => <[ur_id u := (ur_depth u, false)]> m
                        end) m l !! id = Some e ↔
  m !! id = Some e ∨ ∃ u, u ∈ l ∧ ur_id u = id ∧ e = (ur_depth u, false).
Proof.
  revert m. induction l as [|u l IH]; intros m Hnd Hm id e; simpl; [set_solver|].
  apply NoDup_cons in Hnd as [Hp Hnd]. rewrite (Hm u) by left.
  rewrite IH; [|done|].
  - rewrite lookup_insert_Some. setoid_rewrite elem_of_cons. pose proof (Hm u ltac:(left)) as Hmp.
    split; [naive_solver|]. intros [He|(q & [->|Hq] & <- & ->)]; [|by left; left|by eauto 6].
    left. right. split; [|done]. intros <-. congruence.
  - intros q Hq. rewrite lookup_insert_ne; [apply Hm; by right|].
    intros Heq. apply Hp. rewrite Heq. apply list_elem_of_fmap. by exists q.
Qed.

(** The ancestors are the recorded names. *)
Lemma ancestors_elem rr a :
  NoDup (map fst (entries (rr_resolved rr) (rr_unresolved rr))) →
  a ∈ ancestors rr ↔
  (∃ p, p ∈ rr_resolved rr ∧ a = mkAncestor (rp_id p) (rp_depth p) true) ∨
  (∃ u, u ∈ rr_unresolved rr ∧ a = mkAncestor (ur_id u) (ur_depth u) false).
Proof.
  unfold entries. rewrite map_app, !map_map. cbn [fst]. intros (Hn1 & Hdis & Hn2)%NoDup_app.
  unfold ancestors. rewrite sort_by_perm, list_elem_of_fmap.
  assert (∀ id e, ancestor_depths rr !! id = Some e ↔
    (∃ p, p ∈ rr_resolved rr ∧ rp_id p = id ∧ e = (rp_depth p, true)) ∨
    (∃ u, u ∈ rr_unresolved rr ∧ ur_id u = id ∧ e = (ur_depth u, false))) as Hlook.
  { intros id e. unfold ancestor_depths. rewrite depths_unresolved, depths_resolved; try done.
    - rewrite lookup_empty. naive_solver.
    - intros u Hu. apply eq_None_not_Some. intros [x Hx].
      rewrite depths_resolved in Hx by done. destruct Hx as [Hx|(p & Hp & Hpu & _)]; [done|].
      apply (Hdis (rp_id p)); [apply list_elem_of_fmap; by exists p|]. rewrite Hpu.
      apply list_elem_of_fmap. by exists u. }
  split.
  - intros ([id [d b]] & -> & Hin%btree_entries_elem). apply Hlook in Hin. naive_solver.
  - intros [(p & Hp & ->)|(u & Hu & ->)].
    + exists (rp_id p, (rp_depth p, true)). split; [done|]. apply btree_entries_elem, Hlook. eauto.
    + exists (ur_id u, (ur_depth u, false)). split; [done|]. apply btree_entries_elem, Hlook. eauto.
Qed.

Lemma ancestor_leb_total a b : ancestor_leb a b = true ∨ ancestor_leb b a = true.
Proof.
  unfold ancestor_leb. rewrite (N.eqb_sym (an_depth b)).
  destruct (N.eqb_spec (an_depth a) (an_depth b)); [apply leb_total|].
  destruct (N.ltb_spec (an_depth a) (an_depth b)); [by left|right]. apply N.ltb_lt. lia.
Qed.
Lemma ancestor_leb_trans a b c :
  ancestor_leb a b = true → ancestor_leb b c = true → ancestor_leb a c = true.
Proof.
  unfold ancestor_leb. destruct (N.eqb_spec (an_depth a) (an_depth b)) as [E1|E1],
    (N.eqb_spec (an_depth b) (an_depth c)) as [E2|E2], (N.eqb_spec (an_depth a) (an_depth c)) as [E3|E3];
    rewrite ?N.ltb_lt; try lia; try done.
  apply leb_trans.
Qed.
#[export] Hint Resolve ancestor_leb_total ancestor_leb_trans : engine.

(** * Descendants *)

Section descendants_facts.
Context `{Base64UrlLaws, Sha2, SignatureSchemes, HashOrderLaws} `{ArtifactStore St}.
Context (ctx : VerifyCtx).

(** A candidate names the id its bytes carry. *)
Definition candidate_id (candidates : list (list byte)) (id : string) (bytes : list byte) : Prop :=
  bytes ∈ candidates ∧ ∃ r, verify_proof bytes ctx = Some (Ok r) ∧ vr_proof_id r = Some id.

Lemma collect_candidates_spec (Hm : misuse ctx = false) candidates mem ids r :
  collect_candidates ctx mem ids candidates = Some (Ok r) →
  (∀ id bytes, ms_inner mem !! id = Some bytes → ms_inner r.1 !! id = Some bytes) ∧
  (∀ id, id ∈ r.2 ↔ id ∈ ids ∨ ∃ bytes, candidate_id candidates id bytes) ∧
  (∀ id bytes, candidate_id candidates id bytes → ms_inner r.1 !! id = Some bytes).
Proof.
  revert mem ids. induction candidates as [|bytes candidates IH]; intros mem ids;
    cbn [collect_candidates].
  { intros [= <-]. split_and!; [done| |].
    - intros id. split; [by left|]. intros [?|(? & Hin & _)]; [done|by apply elem_of_nil in Hin].
    - intros id bytes [Hin _]. by apply elem_of_nil in Hin. }
  destruct (verify_proof_spec bytes ctx Hm) as (rep & Hrep & _). rewrite Hrep. cbn [mbind option_bind].
  assert (∀ id b, candidate_id (bytes :: candidates) id b ↔
    (b = bytes ∧ vr_proof_id rep = Some id) ∨ candidate_id candidates id b) as Hcand.
  { intros id b. unfold candidate_id. rewrite elem_of_cons. split.
    - intros ([->|Hb] & r' & Hr' & Hid); [|eauto 6]. left. by simplify_eq.
    - intros [[-> Hid]|(Hb & Hr')]; [|eauto]. split; [by left|eauto]. }
  setoid_rewrite Hcand.
  destruct (vr_proof_id rep) as [pid|] eqn:Hpid.
  2: { intros Hc. apply IH in Hc as (I1 & I2 & I3). split_and!; [done| |naive_solver].
       intros id. rewrite I2. naive_solver. }
  destruct (put mem pid bytes) as [mem'|e] eqn:Hput; [|done]. intros Hc.
  apply IH in Hc as (I1 & I2 & I3). apply memory_put_Ok in Hput as [(_ & _ & _ & Hold) ->].
  cbn [ms_inner] in I1. split_and!.
  - intros id b Hb. apply I1. destruct (decide (id = pid)) as [->|Hne].
    + rewrite lookup_insert_eq. destruct Hold; congruence.
    + by rewrite lookup_insert_ne.
  - intros id. rewrite I2, elem_of_app, list_elem_of_singleton. naive_solver.
  - intros id b [[-> [= <-]]|Hb]; [|by apply I3]. apply I1. by rewrite lookup_insert_eq.
Qed.

(** [target] is an ancestor of the proof in [bytes]. *)
Definition reaches (u : UnionStore MemoryStore St) (max : N) (bytes : list byte) (target : string) : Prop :=
  ∃ rr d, resolve_proof_chain bytes u ctx max = Some (Ok rr) ∧
    vr_proof_id (rr_root rr) ≠ Some target ∧ linked (rr_root rr) (rr_resolved rr) d target.

Lemma ancestors_reach (Hm : misuse ctx = false) (u : UnionStore MemoryStore St) max bytes rr target :
  resolve_proof_chain bytes u ctx max = Some (Ok rr) →
  existsb (λ a, bool_decide (an_id a = target)) (ancestors rr) = true ↔ reaches u max bytes target.
Proof.
  intros Hr. destruct (resolve_spec u ctx max bytes Hm) as (rr' & Hr' & Hs).
  rewrite Hr in Hr'. injection Hr' as <-. rewrite existsb_true.
  assert ((∃ a, a ∈ ancestors rr ∧ bool_decide (an_id a = target) = true) ↔
    ∃ d, (target, d) ∈ entries (rr_resolved rr) (rr_unresolved rr)) as ->.
  { setoid_rewrite (ancestors_elem rr); [|apply Hs]. setoid_rewrite bool_decide_eq_true.
    setoid_rewrite elem_of_app. setoid_rewrite list_elem_of_fmap. split.
    - intros (a & [(p & Hp & ->)|(x & Hx & ->)] & <-); simpl; eauto 6.
    - intros (d & [(p & [= -> ->] & Hp)|(x & [= -> ->] & Hx)]).
      + exists (mkAncestor (rp_id p) (rp_depth p) true). eauto 6.
      + exists (mkAncestor (ur_id x) (ur_depth x) false). eauto 6. }
  split.
  - intros [d Hd]. apply (rs_sound _ _ _ _ _ Hs) in Hd as [Hne Hl]. by exists rr, d.
  - intros (rr' & d & Hr' & Hne & Hl). rewrite Hr in Hr'. injection Hr' as <-.
    destruct (rs_shortest _ _ _ _ _ Hs _ _ Hl) as [?|(e & _ & He)]; [done|by exists e].
Qed.

Lemma filter_descendants_spec (Hm : misuse ctx = false) target u max ids out out' :
  filter_descendants target u ctx max out ids = Some (Ok out') →
  ∀ id, id ∈ out' ↔ id ∈ out ∨
    id ∈ ids ∧ id ≠ target ∧ ∃ bytes, get u id = Ok (Some bytes) ∧ reaches u max bytes target.
Proof.
  revert out. induction ids as [|id ids IH]; intros out; cbn [filter_descendants].
  { intros [= <-] id. split; [by left|]. intros [?|[Hin _]]; [done|by apply elem_of_nil in Hin]. }
  case_bool_decide as Ht.
  { intros Hf i. rewrite (IH _ Hf), elem_of_cons. naive_solver. }
  destruct (get u id) as [[bytes|]|e] eqn:Hg; [|done..].
  destruct (resolve_spec u ctx max bytes Hm) as (rr & Hr & _). rewrite Hr. cbn [mbind option_bind].
  pose proof (ancestors_reach Hm u max bytes rr target Hr) as Hanc.
  intros Hf i. rewrite (IH _ Hf), elem_of_cons. clear IH Hf.
  destruct (existsb _ (ancestors rr)).
  - rewrite elem_of_app, list_elem_of_singleton. naive_solver.
  - assert (¬ reaches u max bytes target) as Hno by (intros Hn%Hanc; discriminate Hn). split; [naive_solver|].
    intros [?|([->|?] & ? & b & Hb & Hrb)]; [by left| |right; eauto]. exfalso.
    rewrite Hg in Hb. by simplify_eq.
Qed.
End descendants_facts.

Section lineage.
Context `{Base64UrlLaws, Sha2, SignatureSchemes, HashOrderLaws} `{ArtifactStore St}.

Lemma collect_candidates_total ctx mem ids candidates :
  misuse ctx = false → is_Some (collect_candidates ctx mem ids candidates).
Proof.
  intros Hm. revert mem ids. induction candidates as [|bytes candidates IH]; intros mem ids;
    cbn [collect_candidates]; [by eexists|].
  destruct (verify_proof_spec bytes ctx Hm) as (rep & -> & _). cbn [mbind option_bind].
  destruct (vr_proof_id rep); [|apply IH]. destruct (put mem _ bytes); [apply IH|by eexists].
Qed.

Lemma filter_descendants_total target (u : UnionStore MemoryStore St) ctx max out ids :
  misuse ctx = false → is_Some (filter_descendants target u ctx max out ids).
Proof.
  intros Hm. revert out. induction ids as [|id ids IH]; intros out; cbn [filter_descendants]; [by eexists|].
  case_bool_decide; [apply IH|]. destruct (get u id) as [[bytes|]|e]; [|by eexists..].
  destruct (resolve_spec u ctx max bytes Hm) as (rr & -> & _). apply IH.
Qed.

(** Descendants are the candidates that reach the target.  The search over a
    set of candidate proofs always returns; when it returns a list, that list is
    sorted, and an id is in it exactly when it is not the target itself, some
    candidate carries it, and a chain of references from that candidate's bytes
    reaches the target in the candidates joined with the given store. *)
Theorem descendants_exact target candidates (store : St) ctx max (Hm : misuse ctx = false) :
  is_Some (descendants_of target candidates store ctx max) ∧
  ∀ out, descendants_of target candidates store ctx max = Some (Ok out) →
  ∃ mem ids, collect_candidates ctx memory_new [] candidates = Some (Ok (mem, ids)) ∧
  StronglySorted (λ x y, str_leb x y = true) out ∧
  ∀ id, id ∈ out ↔ id ≠ target ∧
    ∃ bytes, candidate_id ctx candidates id bytes ∧
             get {| us_a := mem; us_b := store |} id = Ok (Some bytes) ∧
             reaches ctx {| us_a := mem; us_b := store |} max bytes target.
Proof.
  unfold descendants_of.
  destruct (collect_candidates_total ctx memory_new [] candidates Hm) as [[[mem ids]|e] Hc];
    rewrite Hc; cbn [mbind option_bind]; [|by split; [eexists|]].
  destruct (filter_descendants_total target {| us_a := mem; us_b := store |} ctx max [] ids Hm)
    as [[out'|e] Hf]; rewrite Hf; cbn [mbind option_bind]; [|by split; [eexists|]].
  split; [by eexists|]. intros out [= <-]. exists mem, ids. split_and!; [done| |].
  { apply sort_by_sorted; [apply leb_total|apply leb_trans]. }
  intros id. rewrite sort_by_perm, (filter_descendants_spec ctx Hm _ _ _ _ _ _ Hf).
  destruct (collect_candidates_spec ctx Hm _ _ _ _ Hc) as (_ & Hids & Hmem). cbn [fst snd] in *.
  rewrite Hids. split.
  - intros [Hin|([Hin|(b & Hcand)] & Hne & bytes & Hg & Hr)]; [by apply elem_of_nil in Hin..|].
    split; [done|]. exists bytes. split_and!; [|done..].
    assert (bytes = b) as ->; [|done]. apply Hmem in Hcand.
    apply union_get_iff in Hg. cbn [us_a get memory_store] in Hg. unfold memory_get in Hg.
    rewrite Hcand in Hg. destruct Hg as [[? _]|[? _]]; congruence.
  - intros (Hne & bytes & Hcand & Hg & Hr). right. eauto 8.
Qed.
End lineage.

(** * A sample chain: a built proof that references the sample proof *)

Module ResolveSamples.
Import Toy GraphSamples CoseSamples PipelineSamples BuilderSamples.

Definition parent_id : string := Eval vm_compute in prf_proof_id proof.
Definition child : BuiltProof := Eval vm_compute in
  ok_default (mkBuiltProof proof [] "")
    (b ← add_referenced_proof (add_event (builder_new SchemaSamples.proposition 160) event_member)
           parent_id;
     build b default_limits).
Definition child_bytes : list byte := Eval vm_compute in bp_canonical child.
Definition child_id : string := Eval vm_compute in bp_id child.
Definition parents : MemoryStore := {| ms_inner := {[parent_id := bytes]}; ms_max_bytes := 1048576 |}.
End ResolveSamples.

Section resolve_witnesses.
Import Toy GraphSamples CoseSamples PipelineSamples BuilderSamples ResolveSamples.

Lemma run_resolution :
  match resolve_proof_chain child_bytes parents ctx 2 with
  | Some (Ok rr) => map (λ p, (rp_id p, rp_depth p)) (rr_resolved rr) = [(parent_id, 1)] ∧
                    resolution_complete rr = true
  | _ => False
  end.
Proof. vm_compute. split; reflexivity. Qed.


Lemma run_descendants : descendants_of parent_id [child_bytes] parents ctx 2 = Some (Ok [child_id]).
Proof. vm_compute. reflexivity. Qed.

End resolve_witnesses.
