(* ===== verification/Envelope.v ===== *)
(** Envelope: artifacts in transit (envelope.rs of proof-format and of
    proof-crypto, bundle.rs).

    An envelope carries canonical bytes as hexadecimal text next to an advisory
    id and signature; [verify_envelope] re-derives both.  A bundle carries
    envelopes and content blobs.  The theorems: what an accepted envelope
    establishes, that envelopes of created artifacts are accepted, and two gaps,
    one in the signature check and one in the blob lookup. *)
From Stdlib Require Import Strings.Byte NArith ZArith Lia.
From S2P Require Import Prelude Text Core External Cbor Schema Graph Ident Claim Cose.
From S2P Require Import Report Pipeline PipelineFacts Verdicts Builder.

(** * Envelopes *)

Definition CONTAINER_VERSION : N := 1.

Module ArtifactKind.
Inductive t : Set := Event | Attestation | Evidence | Relationship | Proof | Status.
#[global] Instance eq_dec : EqDecision t.
Proof. solve_decision. Defined.
Definition as_str (k : t) : string :=
  match k with
  | Event => "event" | Attestation => "attestation" | Evidence => "evidence"
  | Relationship => "relationship" | Proof => "proof" | Status => "status"
  end.
Definition parse (s : string) : option t :=
  if bool_decide (s = "event") then Some Event
  else if bool_decide (s = "attestation") then Some Attestation
  else if bool_decide (s = "evidence") then Some Evidence
  else if bool_decide (s = "relationship") then Some Relationship
  else if bool_decide (s = "proof") then Some Proof
  else if bool_decide (s = "status") then Some Status
  else None.
Lemma parse_iff s k : parse s = Some k ↔ s = as_str k.
Proof. unfold parse. split; [|intros ->; by destruct k]. intros Hs. repeat case_bool_decide; by simplify_eq. Qed.
End ArtifactKind.

Record ArtifactEnvelope : Set := mkEnvelope {
  ae_container_version : N;
  ae_kind : ArtifactKind.t;
  ae_id : string;
  ae_cbor_hex : string;
  ae_sign1_b64u : option string;
}.

Section envelope.
Context `{Hex}.

Definition envelope_new (kind : ArtifactKind.t) (id : string) (cbor : list byte)
    (sign1_b64u : option string) : ArtifactEnvelope := {|
  ae_container_version := CONTAINER_VERSION; ae_kind := kind; ae_id := id;
  ae_cbor_hex := hex_to_text cbor; ae_sign1_b64u := sign1_b64u |}.

Definition cbor_bytes (env : ArtifactEnvelope) (limits : Limits) : Result (list byte) :=
  raw ← ok_or (hex_of_text (trim (ae_cbor_hex env))) ErrorCode.Malformed;
  if max_proof_size limits <? len raw then Err ErrorCode.LimitExceeded else
  if len raw =? 0 then Err ErrorCode.Malformed else Ok raw.
End envelope.

(** Attestations and status objects travel with a signature. *)
Definition carries_signature (k : ArtifactKind.t) : bool :=
  match k with ArtifactKind.Attestation | ArtifactKind.Status => true | _ => false end.

Section verify_envelope.
Context `{Hex, Base64Url, Sha2, SignatureSchemes}.

(** The member id sets bound by a proof id. *)
Definition member_id_sets (p : Proof_)
    : Result (list string * list string * list string * list string) :=
  eids ← mapM (λ e, v ← event_to_cbor e; Ok (event_id (encode_canonical v))) (prf_events p);
  Ok (eids, map member_attestation_id (prf_attestations p), map member_evidence_id (prf_evidence p),
      map member_relationship_id (prf_relationships p)).

(** The id re-derived from the decoded value. *)
Definition recomputed_id (kind : ArtifactKind.t) (value : CborValue) (limits : Limits)
    : Result string :=
  match kind with
  | ArtifactKind.Event =>
      e ← cbor_to_event value limits;
      v ← event_to_cbor e;
      Ok (event_id (encode_canonical v))
  | ArtifactKind.Evidence =>
      e ← cbor_to_evidence value limits; Ok (evidence_id (encode_canonical (evidence_to_cbor e)))
  | ArtifactKind.Relationship =>
      r ← cbor_to_relationship value limits;
      Ok (relationship_id (encode_canonical (relationship_to_cbor r)))
  | ArtifactKind.Attestation | ArtifactKind.Status =>
      a ← cbor_to_attestation value limits;
      Ok (attestation_id (encode_canonical (attestation_to_cbor a)))
  | ArtifactKind.Proof =>
      p ← cbor_to_proof value limits;
      '(eids, aids, vids, rids) ← member_id_sets p;
      Ok (proof_id_full (proposition_to_cbor (prf_proposition p)) (prf_created_at p)
            eids aids vids rids (prf_referenced_proofs p)
            (map (λ vd, (voc_ns vd, voc_version vd)) (prf_vocabularies p)))
  end.

(** The signature that travels with the envelope. *)
Definition check_signature (text : string) (bytes : list byte) (limits : Limits)
    (expected_issuer : option string) (allowed : option AllowedAlgs) : Result unit :=
  sig ← ok_or (b64_decode text) ErrorCode.Malformed;
  _ ← parse_sign1 sig limits;
  match expected_issuer, allowed with
  | Some issuer, Some al => _ ← verify_sign1 sig issuer al limits; Ok tt
  | _, _ =>
      value ← decode_and_check_canonical bytes limits;
      entry ← cbor_to_attestation value limits;
      match verify_sign1 sig (att_issuer entry) (default algs_strict allowed) limits with
      | Ok _ => Ok tt
      | Err _ => Err ErrorCode.SignatureInvalid
      end
  end.

Definition verify_envelope (env : ArtifactEnvelope) (limits : Limits)
    (expected_issuer : option string) (allowed : option AllowedAlgs) : Result (list byte) :=
  if negb (ae_container_version env =? CONTAINER_VERSION) then Err ErrorCode.UnsupportedVersion else
  bytes ← cbor_bytes env limits;
  value ← decode_and_check_canonical bytes limits;
  recomputed ← recomputed_id (ae_kind env) value limits;
  if bool_decide (recomputed ≠ ae_id env) then Err ErrorCode.IdMismatch else
  if carries_signature (ae_kind env) then
    match ae_sign1_b64u env with
    | Some s => _ ← check_signature s bytes limits expected_issuer allowed; Ok bytes
    | None => Ok bytes
    end
  else Ok bytes.
End verify_envelope.

(** * Bundles *)

Record BundleBlob : Set := mkBlob { bb_digest : HashRef; bb_bytes : list byte }.
Record Bundle : Set := mkBundle {
  bu_container_version : N;
  bu_proofs : list ArtifactEnvelope;
  bu_blobs : list BundleBlob;
}.
Definition bundle_new : Bundle := mkBundle CONTAINER_VERSION [] [].
Definition with_proof (b : Bundle) (env : ArtifactEnvelope) : Bundle :=
  mkBundle (bu_container_version b) (bu_proofs b ++ [env]) (bu_blobs b).
Definition with_blob (b : Bundle) (digest : HashRef) (bytes : list byte) : Bundle :=
  mkBundle (bu_container_version b) (bu_proofs b) (bu_blobs b ++ [mkBlob digest bytes]).

Definition find_blob (b : Bundle) (want : HashRef) : option (list byte) :=
  bb_bytes <$> List.find (λ x, bool_decide (bb_digest x = want)) (bu_blobs b).

Definition bundle_validate (b : Bundle) (limits : Limits) : Result unit :=
  if max_array_items limits <? len (bu_proofs b) then Err ErrorCode.LimitExceeded else
  if max_evidence_items limits <? len (bu_blobs b) then Err ErrorCode.LimitExceeded else
  if existsb (λ x, max_field_size limits <? len (bb_bytes x)) (bu_blobs b)
  then Err ErrorCode.LimitExceeded else Ok tt.

Definition check_blob_against_digest `{Sha2} (bytes : list byte) (want : HashRef) : Result unit :=
  let computed :=
    match hr_alg want with
    | HashAlgorithm.Sha256 => sha256 bytes
    | HashAlgorithm.Sha384 => sha384 bytes
    end in
  if negb (len computed =? len (hr_digest want)) || bool_decide (computed ≠ hr_digest want)
  then Err ErrorCode.IdMismatch else Ok tt.

(** * What an accepted envelope establishes *)

Section envelope_facts.
Context `{HexLaws, Base64UrlLaws, Sha2Laws, SignatureLaws}.

(** The object an envelope of each kind carries, and the id it must have. *)
Definition identified (kind : ArtifactKind.t) (limits : Limits) (value : CborValue)
    (bytes : list byte) (id : string) : Prop :=
  match kind with
  | ArtifactKind.Event =>
      (∃ e, cbor_to_event value limits = Ok e) ∧ id = event_id bytes
  | ArtifactKind.Evidence =>
      (∃ e, cbor_to_evidence value limits = Ok e) ∧ id = evidence_id bytes
  | ArtifactKind.Relationship =>
      (∃ r, cbor_to_relationship value limits = Ok r) ∧ id = relationship_id bytes
  | ArtifactKind.Attestation | ArtifactKind.Status =>
      (∃ a, cbor_to_attestation value limits = Ok a) ∧ id = attestation_id bytes
  | ArtifactKind.Proof =>
      ∃ p, cbor_to_proof value limits = Ok p ∧ recomputed_proof_id p = Ok id
  end.

Lemma member_id_sets_Ok p id :
  (∃ eids aids vids rids, member_id_sets p = Ok (eids, aids, vids, rids) ∧
     id = proof_id_full (proposition_to_cbor (prf_proposition p)) (prf_created_at p)
            eids aids vids rids (prf_referenced_proofs p)
            (map (λ vd, (voc_ns vd, voc_version vd)) (prf_vocabularies p))) ↔
  recomputed_proof_id p = Ok id.
Proof.
  unfold member_id_sets, recomputed_proof_id.
  assert (∀ ids, mapM (λ e, v ← event_to_cbor e; Ok (event_id (encode_canonical v))) (prf_events p) = Ok ids ↔
    mapM member_event_id (prf_events p) = Ok ids) as Hm.
  { intros ids. rewrite !mapM_Ok. unfold member_event_id.
    split; intros HF; (eapply Forall2_impl; [exact HF|]); intros e i; cbn beta; (destruct (event_to_cbor e); cbn [mbind result_bind]; [done|discriminate]). }
  split.
  - intros (eids & aids & vids & rids & Hs & ->). apply bind_Ok in Hs as (ids & Hids%Hm & [= <- <- <- <-]).
    rewrite Hids. done.
  - intros Hr. apply bind_Ok in Hr as (ids & Hids%Hm & [= <-]). rewrite Hids.
    by eexists _, _, _, _.
Qed.

(** Re-encoding what a member parser returned gives back the bytes, so the id
    is the id of the bytes. *)
Lemma reprint_id {A} (parse : Result A) (print : A → CborValue) (wf : A → bool)
    (make_id : list byte → string) limits bytes value id :
  decode_strict bytes limits = Ok value →
  (∀ a, parse = Ok a → wf a = true ∧ value = sort_maps (print a)) →
  (a ← parse; Ok (make_id (encode_canonical (print a)))) = Ok id ↔
  (∃ a, parse = Ok a) ∧ id = make_id bytes.
Proof.
  intros Hd Hp. apply decode_strict_inv in Hd as (Hb & _).
  assert (∀ a, parse = Ok a → encode_canonical (print a) = bytes) as Hre.
  { intros a Ha. destruct (Hp a Ha) as [_ ->]. rewrite <- Hb. unfold encode_canonical.
    by rewrite encode_sort_maps. }
  rewrite bind_Ok. split.
  - intros (a & Ha & [= <-]). rewrite (Hre a Ha). eauto.
  - intros [[a Ha] ->]. exists a. by rewrite (Hre a Ha).
Qed.

Lemma recomputed_id_iff kind limits bytes value id :
  decode_strict bytes limits = Ok value →
  recomputed_id kind value limits = Ok id ↔ identified kind limits value bytes id.
Proof.
  intros Hd. pose proof Hd as (_ & Hs & Henc & _)%decode_strict_inv.
  assert (canonical_value value = true) as Hc by (rewrite <- Hs; by eapply encodable_canonical).
  destruct kind; unfold recomputed_id, identified.
  - rewrite <- (reprint_id (cbor_to_event value limits) event_cbor (event_wf limits) event_id limits)
      by (done || intros a Ha; by apply cbor_to_event_spec').
    assert (∀ e, cbor_to_event value limits = Ok e → event_to_cbor e = Ok (event_cbor e)) as Hev.
    { intros e [Hwf _]%cbor_to_event_spec'; [|done]. apply event_to_cbor_Ok. split; [|done].
      unfold event_wf in Hwf. by bool_split. }
    destruct (cbor_to_event value limits) as [e|]; [|done]. cbn [mbind result_bind].
    by rewrite (Hev e eq_refl).
  - apply (reprint_id _ attestation_to_cbor (attestation_wf limits) _ limits bytes value); [done|].
    intros a Ha. by apply cbor_to_attestation_spec.
  - apply (reprint_id _ evidence_to_cbor (evidence_wf limits) _ limits bytes value); [done|].
    intros a Ha. by apply cbor_to_evidence_spec.
  - apply (reprint_id _ relationship_to_cbor (relationship_wf limits) _ limits bytes value); [done|].
    intros a Ha. by apply cbor_to_relationship_spec.
  - rewrite bind_Ok. cut (∀ p, (('(eids, aids, vids, rids) ← member_id_sets p;
      Ok (proof_id_full (proposition_to_cbor (prf_proposition p)) (prf_created_at p)
            eids aids vids rids (prf_referenced_proofs p)
            (map (λ vd, (voc_ns vd, voc_version vd)) (prf_vocabularies p)))) : Result string) = Ok id ↔
      recomputed_proof_id p = Ok id); [intros Hcut; by setoid_rewrite Hcut|].
    intros p. rewrite <- member_id_sets_Ok, bind_Ok. split.
    + intros ([[[eids aids] vids] rids] & Hm & [= <-]). by exists eids, aids, vids, rids.
    + intros (eids & aids & vids & rids & Hm & ->). by exists (eids, aids, vids, rids).
  - apply (reprint_id _ attestation_to_cbor (attestation_wf limits) _ limits bytes value); [done|].
    intros a Ha. by apply cbor_to_attestation_spec.
Qed.

(** An envelope of bytes that decode is opened to those bytes. *)
Lemma open_new kind id bytes sign1 limits value :
  decode_strict bytes limits = Ok value →
  cbor_bytes (envelope_new kind id bytes sign1) limits = Ok bytes.
Proof.
  intros Hd. pose proof Hd as (_ & _ & _ & Hsize)%decode_strict_inv.
  unfold cbor_bytes. cbn [envelope_new ae_cbor_hex]. rewrite trim_visible by apply hex_visible.
  rewrite hex_of_to. cbn [ok_or mbind result_bind]. rewrite (proj2 (N.ltb_ge _ _)) by done.
  destruct bytes as [|b bytes].
  { exfalso. unfold decode_strict, Decoder.levels_at_root in Hd. by destruct (_ <? _). }
  rewrite len_cons.
  by rewrite (proj2 (N.eqb_neq _ 0)) by lia.
Qed.

(** Acceptance, with the signature check apart. *)
Lemma verify_envelope_iff env limits issuer allowed bytes :
  verify_envelope env limits issuer allowed = Ok bytes ↔
  ae_container_version env = CONTAINER_VERSION ∧ cbor_bytes env limits = Ok bytes ∧
  ∃ value, decode_strict bytes limits = Ok value ∧
    identified (ae_kind env) limits value bytes (ae_id env) ∧
    ∀ s, carries_signature (ae_kind env) = true → ae_sign1_b64u env = Some s →
         check_signature s bytes limits issuer allowed = Ok tt.
Proof.
  unfold verify_envelope. rewrite ite_Ok, negb_false_iff, N.eqb_eq, bind_Ok. split.
  - intros (Hv & raw & Hraw & Hr). apply bind_Ok in Hr as (value & Hd & Hr).
    rewrite (proj1 (recheck_redundant _ _)) in Hd. apply bind_Ok in Hr as (id & Hid & Hr).
    apply (recomputed_id_iff _ _ _ _ _ Hd) in Hid. case_bool_decide as Heq; [done|]. subst id.
    assert (bytes = raw) as ->.
    { destruct (carries_signature _); [destruct (ae_sign1_b64u env); [apply bind_Ok in Hr as (? & _ & Hr)|]|];
        by simplify_eq. }
    split_and!; [done..|]. exists value. split_and!; [done..|]. intros s Hk Hs. rewrite Hk, Hs in Hr.
    by apply bind_Ok in Hr as ([] & Hsig & _).
  - intros (Hv & Hraw & value & Hd & Hid & Hsig). split; [done|]. exists bytes. split; [done|].
    rewrite (proj1 (recheck_redundant _ _)), Hd. cbn [mbind result_bind].
    apply (recomputed_id_iff _ _ _ _ _ Hd) in Hid. rewrite Hid. cbn [mbind result_bind].
    rewrite bool_decide_eq_false_2 by (by intros []).
    destruct (carries_signature _); [|done]. destruct (ae_sign1_b64u env) as [s|]; [|done].
    by rewrite (Hsig s eq_refl eq_refl).
Qed.

(** What the signature check of an envelope establishes: someone signed
    something.  The signer is the expected issuer, or the issuer the content
    names; the payload is not mentioned. *)
Lemma check_signature_sound s bytes limits issuer allowed :
  check_signature s bytes limits issuer allowed = Ok tt →
  ∃ sig p signer al, b64_decode s = Some sig ∧ signed_by EXTERNAL_AAD al signer p ∧
    sig = encode_canonical (sign1_envelope (p_protected_raw p) (p_payload p) (p_signature p)) ∧
    (issuer = Some signer ∧ allowed = Some al ∨
     (∃ value a, decode_strict bytes limits = Ok value ∧ cbor_to_attestation value limits = Ok a ∧
        signer = att_issuer a) ∧ al = default algs_strict allowed).
Proof.
  unfold check_signature. intros Hc. apply bind_Ok in Hc as (sig & Hsig%ok_or_Ok & Hc).
  apply bind_Ok in Hc as (p0 & _ & Hc).
  assert (∀ issuer' al, (∃ p, verify_sign1 sig issuer' al limits = Ok p) →
    ∃ p, signed_by EXTERNAL_AAD al issuer' p ∧
      sig = encode_canonical (sign1_envelope (p_protected_raw p) (p_payload p) (p_signature p))) as Hver.
  { intros issuer' al [p Hp]. apply verify_sign1_aad_sound in Hp as (Hb & _ & Hs). by exists p. }
  destruct issuer as [i|], allowed as [al|].
  1: { apply bind_Ok in Hc as (p & Hp & _). destruct (Hver i al) as (q & Hq & He); [by exists p|].
       exists sig, q, i, al. split_and!; [done..|]. by left. }
  all: apply bind_Ok in Hc as (value & Hd & Hc); apply bind_Ok in Hc as (a & Ha & Hc);
    rewrite (proj1 (recheck_redundant _ _)) in Hd;
    destruct (verify_sign1 sig (att_issuer a) _ limits) as [p|] eqn:Hp; [|done];
    destruct (Hver _ _ (ex_intro _ p Hp)) as (q & Hq & He);
    eexists sig, q, _, _; split_and!; [done|exact Hq|done|];
    right; split; [eauto 6|done].
Qed.

(** C28: what an accepted envelope establishes.  Its version is known, its
    hexadecimal text decodes to the returned bytes, those bytes are canonical and
    parse as the announced kind of object within the limits, and the advisory id
    is the one derived from them; a signature that travels along was made, over
    some payload, by the expected issuer or by the issuer the content names. *)
Theorem verify_envelope_sound env limits issuer allowed bytes
  (Hv : verify_envelope env limits issuer allowed = Ok bytes) :
  ae_container_version env = 1 ∧ hex_of_text (trim (ae_cbor_hex env)) = Some bytes ∧
  (∃ value, decode_strict bytes limits = Ok value ∧
     identified (ae_kind env) limits value bytes (ae_id env)) ∧
  ∀ s, carries_signature (ae_kind env) = true → ae_sign1_b64u env = Some s →
  ∃ sig p signer al, b64_decode s = Some sig ∧ signed_by EXTERNAL_AAD al signer p ∧
    sig = encode_canonical (sign1_envelope (p_protected_raw p) (p_payload p) (p_signature p)) ∧
    (issuer = Some signer ∧ allowed = Some al ∨
     (∃ value a, decode_strict bytes limits = Ok value ∧ cbor_to_attestation value limits = Ok a ∧
        signer = att_issuer a) ∧ al = default algs_strict allowed).
Proof.
  apply verify_envelope_iff in Hv as (Hver & Hraw & value & Hd & Hid & Hsig).
  split; [done|]. split.
  { unfold cbor_bytes in Hraw. apply bind_Ok in Hraw as (raw & Hraw%ok_or_Ok & Hr).
    rewrite Hraw. destruct (_ <? _); [done|]. destruct (_ =? _); [done|]. by simplify_eq. }
  split; [by exists value|]. intros s Hk Hs. by apply (check_signature_sound s bytes limits), Hsig.
Qed.

Lemma verify_sign1_parses sig issuer al limits p :
  verify_sign1 sig issuer al limits = Ok p → ∃ q, parse_sign1 sig limits = Ok q.
Proof.
  unfold verify_sign1, verify_sign1_with_aad. destruct (_ <? _); [done|]. intros Hv.
  apply bind_Ok in Hv as (q & Hq & _). by exists q.
Qed.

Lemma b64_roundtrip sig : b64_decode (b64u_nopad sig) = Some sig.
Proof. apply b64_decode_encode. Qed.

(** An envelope with the right id and a signature of the content's issuer. *)
Lemma attestation_envelope_accepted limits bytes value a sig allowed p :
  decode_strict bytes limits = Ok value → cbor_to_attestation value limits = Ok a →
  verify_sign1 sig (att_issuer a) algs_strict limits = Ok p →
  allowed = None ∨ allowed = Some algs_strict →
  ∀ issuer, issuer = None ∨ issuer = Some (att_issuer a) →
  verify_envelope (envelope_new ArtifactKind.Attestation (attestation_id bytes) bytes
    (Some (b64u_nopad sig))) limits issuer allowed = Ok bytes.
Proof.
  intros Hd Ha Hv Hal issuer Hiss. apply verify_envelope_iff. split; [done|].
  split; [by eapply open_new|]. exists value. split_and!; [done|split; [by exists a|done]|].
  intros s _ [= <-]. unfold check_signature. rewrite b64_roundtrip. cbn [ok_or mbind result_bind].
  destruct (verify_sign1_parses _ _ _ _ _ Hv) as [q ->]. cbn [mbind result_bind].
  rewrite (proj1 (recheck_redundant _ _)), Hd. cbn [mbind result_bind]. rewrite Ha. cbn [mbind result_bind].
  destruct Hal as [->| ->], Hiss as [->| ->]; cbn [from_option id]; by rewrite Hv.
Qed.

(** What the builders hand out decodes and carries its id. *)
Lemma create_event_identified limits content e :
  create_event content limits = Ok e →
  ∃ v, decode_strict (ce_canonical e) limits = Ok v ∧
       identified ArtifactKind.Event limits v (ce_canonical e) (ce_id e).
Proof.
  unfold create_event. destruct (negb _); [done|]. intros Hc.
  apply bind_Ok in Hc as (w & Hw & Hc). apply bind_Ok in Hc as (d & Hd & Hc).
  apply bind_Ok in Hc as (back & Hb & Hc). rewrite (proj1 (recheck_redundant _ _)) in Hd.
  case_bool_decide; [done|]. injection Hc as <-. exists d. split; [exact Hd|]. cbn. eauto.
Qed.

Lemma make_evidence_identified limits kind digest aref hint e :
  make_evidence kind digest aref hint limits = Ok e →
  ∃ v, decode_strict (cv_canonical e) limits = Ok v ∧
       identified ArtifactKind.Evidence limits v (cv_canonical e) (cv_id e).
Proof.
  unfold make_evidence. intros Hc. apply bind_Ok in Hc as (u & _ & Hc).
  apply bind_Ok in Hc as (d & Hd & Hc). apply bind_Ok in Hc as (back & Hb & Hc).
  rewrite (proj1 (recheck_redundant _ _)) in Hd.
  case_bool_decide; [done|]. injection Hc as <-. exists d. split; [exact Hd|]. cbn. eauto.
Qed.

Lemma make_relationship_identified limits content r :
  make_relationship content limits = Ok r →
  ∃ v, decode_strict (cr_canonical r) limits = Ok v ∧
       identified ArtifactKind.Relationship limits v (cr_canonical r) (cr_id r).
Proof.
  unfold make_relationship. destruct (negb _); [done|]. intros Hc.
  apply bind_Ok in Hc as (d & Hd & Hc). apply bind_Ok in Hc as (back & Hb & Hc).
  rewrite (proj1 (recheck_redundant _ _)) in Hd.
  case_bool_decide; [done|]. injection Hc as <-. exists d. split; [exact Hd|]. cbn. eauto.
Qed.

Lemma attest_decodes limits content seed a :
  attest content seed limits = Ok a →
  ∃ v, decode_strict (ca_canonical a) limits = Ok v ∧ cbor_to_attestation v limits = Ok content.
Proof.
  unfold attest. destruct (negb _); [done|]. case_bool_decide; [done|]. intros Ha.
  apply bind_Ok in Ha as (d & Hd & Ha). apply bind_Ok in Ha as (back & Hb & Ha).
  rewrite (proj1 (recheck_redundant _ _)) in Hd. case_bool_decide; [done|]. injection Ha as <-.
  subst back. by exists d.
Qed.

Lemma build_identified limits b bp :
  honest limits b → build b limits = Ok bp →
  ∃ v, decode_strict (bp_canonical bp) limits = Ok v ∧
       identified ArtifactKind.Proof limits v (bp_canonical bp) (bp_id bp).
Proof.
  intros Hb Hbuild. unfold build in Hbuild.
  apply bind_Ok in Hbuild as (prop & Hprop%ok_or_Ok & Hbuild). destruct (negb _); [done|]. cbn zeta in Hbuild.
  do 4 (apply bind_Ok in Hbuild as (? & _ & Hbuild)). unfold bind_and_emit in Hbuild.
  destruct (_ <? _); [done|]. destruct (_ <? _); [done|]. destruct (existsb _ _); [done|].
  unfold emit in Hbuild. apply bind_Ok in Hbuild as (w & Hw & Hbuild). cbn zeta in Hbuild.
  destruct (_ <? _); [done|]. apply bind_Ok in Hbuild as (d & Hd & Hbuild).
  apply bind_Ok in Hbuild as (back & Hbk & Hbuild). rewrite (proj1 (recheck_redundant _ _)) in Hd.
  case_bool_decide as Heq; [done|]. injection Hbuild as <-. subst back.
  exists d. split; [exact Hd|]. cbn. eexists. split; [exact Hbk|].
  by eapply recomputed_assembled, normalize_inv, honest_inv.
Qed.

(** Created artifacts travel.  Wrapping a created event, evidence item,
    relationship, attestation or an honestly built proof in an envelope, with its
    id and for an attestation its signature, and opening the envelope gives back
    exactly the canonical bytes; no trust input is needed. *)
Theorem envelope_roundtrip limits :
  (∀ content e, create_event content limits = Ok e →
     verify_envelope (envelope_new ArtifactKind.Event (ce_id e) (ce_canonical e) None)
       limits None None = Ok (ce_canonical e)) ∧
  (∀ kind digest aref hint e, make_evidence kind digest aref hint limits = Ok e →
     verify_envelope (envelope_new ArtifactKind.Evidence (cv_id e) (cv_canonical e) None)
       limits None None = Ok (cv_canonical e)) ∧
  (∀ content r, make_relationship content limits = Ok r →
     verify_envelope (envelope_new ArtifactKind.Relationship (cr_id r) (cr_canonical r) None)
       limits None None = Ok (cr_canonical r)) ∧
  (∀ content seed a, attest content seed limits = Ok a →
     cose_fits limits (ca_canonical a) = true → len (ca_sign1 a) <= max_proof_size limits →
     verify_envelope (envelope_new ArtifactKind.Attestation (ca_id a) (ca_canonical a)
       (Some (b64u_nopad (ca_sign1 a)))) limits None None = Ok (ca_canonical a)) ∧
  (∀ b bp, honest limits b → build b limits = Ok bp →
     verify_envelope (envelope_new ArtifactKind.Proof (bp_id bp) (bp_canonical bp) None)
       limits None None = Ok (bp_canonical bp)).
Proof.
  assert (∀ kind id bytes value, carries_signature kind = false → decode_strict bytes limits = Ok value →
    identified kind limits value bytes id →
    verify_envelope (envelope_new kind id bytes None) limits None None = Ok bytes) as Hplain.
  { intros kind id bytes value Hk Hd Hid. apply verify_envelope_iff. split; [done|].
    split; [by eapply open_new|]. exists value. split_and!; [done..|]. intros s Hk'.
    cbn [envelope_new ae_kind] in Hk'. congruence. }
  split_and!.
  - intros content e (v & Hd & Hid)%create_event_identified. by eapply Hplain.
  - intros kind digest aref hint e (v & Hd & Hid)%make_evidence_identified. by eapply Hplain.
  - intros content r (v & Hd & Hid)%make_relationship_identified. by eapply Hplain.
  - intros content seed a Ha Hfit Hsize. pose proof (attest_verifies _ _ _ _ Ha Hfit Hsize) as Hv.
    pose proof (attest_Ok _ _ _ _ Ha) as (_ & _ & Hiss & Hcan & Hid & _).
    unfold verify_attestation in Hv. apply bind_Ok in Hv as (p & Hp & _).
    apply attest_decodes in Ha as (v & Hd & Hb). rewrite Hid, <- Hcan.
    eapply attestation_envelope_accepted; [done|exact Hb|by rewrite Hiss|by left|by left].
  - intros b bp Hb Hbuild. destruct (build_identified limits b bp Hb Hbuild) as (v & Hd & Hid).
    by eapply Hplain.
Qed.

(** C29: the signature of an envelope is not bound to its content.  Take any
    attestation an issuer really signed, and any other content that names the
    same issuer: an envelope with the bytes and the id of the second and the
    signature of the first is accepted, with and without trust inputs, although
    the issuer never signed those bytes. *)
Theorem envelope_signature_unbound limits content seed a bytes value forged
  (Ha : attest content seed limits = Ok a)
  (Hfit : cose_fits limits (ca_canonical a) = true)
  (Hsize : len (ca_sign1 a) <= max_proof_size limits)
  (Hd : decode_strict bytes limits = Ok value)
  (Hf : cbor_to_attestation value limits = Ok forged)
  (Hiss : att_issuer forged = key_ref seed) :
  let env := envelope_new ArtifactKind.Attestation (attestation_id bytes) bytes
               (Some (b64u_nopad (ca_sign1 a))) in
  verify_envelope env limits None None = Ok bytes ∧
  verify_envelope env limits (Some (key_ref seed)) (Some algs_strict) = Ok bytes ∧
  verify_attestation (ca_sign1 a) (key_ref seed) algs_strict limits = Ok (content, ca_id a).
Proof.
  pose proof (attest_verifies _ _ _ _ Ha Hfit Hsize) as Hv. cbn zeta.
  pose proof Hv as Hp. unfold verify_attestation in Hp. apply bind_Ok in Hp as (p & Hp & _).
  rewrite <- Hiss in Hp |- *. rewrite <- Hiss in Hv.
  split_and!; [eapply attestation_envelope_accepted; eauto..|done].
Qed.
End envelope_facts.

(** * Blobs *)

Section blobs.
Context `{Sha2}.

(** The digest check compares the digest of the bytes with the wanted one. *)
Lemma check_blob_iff bytes want :
  check_blob_against_digest bytes want = Ok tt ↔
  hr_digest want = match hr_alg want with
                   | HashAlgorithm.Sha256 => sha256 bytes
                   | HashAlgorithm.Sha384 => sha384 bytes
                   end.
Proof.
  unfold check_blob_against_digest. set (computed := match hr_alg want with _ => _ end). cbn zeta.
  split.
  - destruct (_ || _) eqn:E; [done|]. apply orb_false_iff in E as [_ E%bool_decide_eq_false].
    intros _. symmetry. by apply dec_stable.
  - intros ->. rewrite N.eqb_refl, bool_decide_eq_false_2 by (by intros []). done.
Qed.

(** The lookup goes by the label of a blob: it returns the first blob labelled
    with the wanted digest, whatever its bytes are.  Authentication is left to
    [check_blob_against_digest]. *)
Lemma find_blob_first b want bytes :
  find_blob b want = Some bytes →
  ∃ before x after, bu_blobs b = before ++ x :: after ∧ bb_digest x = want ∧ bb_bytes x = bytes ∧
    ∀ y, y ∈ before → bb_digest y ≠ want.
Proof.
  unfold find_blob. induction (bu_blobs b) as [|x l IH]; [done|]. cbn [List.find].
  case_bool_decide as Hx.
  - intros [= <-]. exists [], x, l. split_and!; [done..|]. intros y Hy. by apply elem_of_nil in Hy.
  - intros (before & z & after & -> & ? & ? & Hb)%IH. exists (x :: before), z, after.
    split_and!; [done..|]. intros y [->|Hy]%elem_of_cons; [done|by apply Hb].
Qed.
Lemma find_blob_unauthenticated want bytes :
  find_blob (with_blob bundle_new want bytes) want = Some bytes.
Proof. unfold find_blob. cbn. by rewrite bool_decide_eq_true_2. Qed.
End blobs.

(** * Sample envelopes *)

Section envelope_witnesses.
Import Toy CoseSamples PipelineSamples BuilderSamples.

Lemma verify_envelope_sound_witness :
  hex_of_text (trim (hex_to_text (ca_canonical first_statement))) = Some (ca_canonical first_statement).
Proof.
  refine (proj1 (proj2 (verify_envelope_sound
    (envelope_new ArtifactKind.Attestation (ca_id first_statement) (ca_canonical first_statement)
       (Some (b64u_nopad (ca_sign1 first_statement))))
    default_limits None None (ca_canonical first_statement) _))).
  vm_compute. reflexivity.
Defined.

(** The second statement under the signature of the first. *)
Lemma envelope_signature_unbound_witness :
  verify_envelope (envelope_new ArtifactKind.Attestation
      (attestation_id (ca_canonical second_statement)) (ca_canonical second_statement)
      (Some (b64u_nopad (ca_sign1 first_statement)))) default_limits None None =
    Ok (ca_canonical second_statement).
Proof.
  refine (proj1 (envelope_signature_unbound default_limits content seed first_statement
    (ca_canonical second_statement) (sort_maps (attestation_to_cbor content2)) content2 _ _ _ _ _ _));
    vm_compute; (reflexivity || congruence).
Defined.
End envelope_witnesses.
