(* ===== verification/Scitt.v ===== *)
(** Scitt: the SCITT transparency adapter ([crates/proof-adapter-scitt],
    statement.rs and map.rs).

    A signed statement is a record, its compact JSON and a detached Ed25519
    signature over that JSON.  Inbound, a verified statement becomes attestation
    content and digest-bound evidence; outbound, attestation content becomes the
    JSON again.  [serde_json] is the interface of [External]; the two text
    decoders of statement.rs are the adapter's own and are modelled byte by byte.
    The theorems: which signed statements verify, and that the mapping through a
    signed and verified attestation gives back the same bytes. *)
From Stdlib Require Import Strings.Byte NArith ZArith Lia.
From S2P Require Import Prelude Core External Cbor Schema Ident Claim Cose Pipeline.

(** * The SCITT-side record (statement.rs) *)

Record ScittStatement : Set := mkStatement {
  st_v : N;
  st_feed : string;
  st_cti : string;
  st_payload_sha256 : string;
  st_issued_at : N;
  st_kid : string;
}.
#[global] Instance ScittStatement_eq_dec : EqDecision ScittStatement.
Proof. solve_decision. Defined.

Record SignedStatement : Set := mkSigned {
  sg_statement : ScittStatement;
  sg_signature_b64u : string;
}.

Module Statement.
(** [u8::is_ascii_hexdigit], [is_ascii_uppercase] and [is_ascii_alphanumeric]. *)
Definition is_ascii_hexdigit (b : byte) : bool :=
  in_range 0x30 0x39 b || in_range 0x41 0x46 b || in_range 0x61 0x66 b.
Definition is_ascii_uppercase (b : byte) : bool := in_range 0x41 0x5A b.
Definition is_ascii_alphanumeric (b : byte) : bool :=
  in_range 0x30 0x39 b || in_range 0x41 0x5A b || in_range 0x61 0x7A b.

(** [char::to_digit(16)] and [u8::from_str_radix(s, 16).ok()]: an optional plus
    sign, then digits of either case, refused when empty or above [u8::MAX]. *)
Definition to_digit_16 (b : byte) : option N :=
  if in_range 0x30 0x39 b then Some (b2n b - 0x30)
  else if in_range 0x41 0x46 b then Some (b2n b - 0x41 + 10)
  else if in_range 0x61 0x66 b then Some (b2n b - 0x61 + 10) else None.
Definition from_str_radix_16 (s : list byte) : option byte :=
  let digits := match s with Byte.x2b :: (_ :: _) as rest => rest | _ => s end in
  match digits with
  | [] => None
  | _ =>
      u8 <$> foldl (λ acc c,
        a ← acc; d ← to_digit_16 c;
        if a * 16 + d <=? u8_max then Some (a * 16 + d) else None) (Some 0) digits
  end.

(** The slices [s[i..i + 2]] for [i] in [(0..s.len()).step_by(2)]. *)
Fixpoint hex_pairs (s : list byte) : option (list byte) :=
  match s with
  | a :: b :: s' => x ← from_str_radix_16 [a; b]; rest ← hex_pairs s'; Some (x :: rest)
  | [] => Some []
  | [_] => None
  end.
Definition hex_decode (s : string) : option (list byte) :=
  if negb (slen s mod 2 =? 0) || negb (forallb is_ascii_hexdigit (as_bytes s)) then None else
  if existsb is_ascii_uppercase (as_bytes s) then None else
  hex_pairs (as_bytes s).

(** The six bits of one base64url character. *)
Definition b64u_value (c : byte) : option N :=
  if in_range 0x41 0x5A c then Some (b2n c - 0x41)
  else if in_range 0x61 0x7A c then Some (b2n c - 0x61 + 26)
  else if in_range 0x30 0x39 c then Some (b2n c - 0x30 + 52)
  else if b2n c =? 0x2D then Some 62
  else if b2n c =? 0x5F then Some 63 else None.
(** [buf] is a [u32]: the left shift drops what leaves the word. *)
Fixpoint b64u_loop (s : list byte) (buf bits : N) (out : list byte)
    : option (N * N * list byte) :=
  match s with
  | [] => Some (buf, bits, out)
  | c :: s' =>
      v ← b64u_value c;
      let buf := N.lor (N.land (N.shiftl buf 6) u32_max) v in
      let bits := bits + 6 in
      if 8 <=? bits then
        let bits := bits - 8 in
        b64u_loop s' (N.land buf (N.shiftl 1 bits - 1)) bits (out ++ [u8 (N.shiftr buf bits)])
      else b64u_loop s' buf bits out
  end.
Definition b64u_decode (s : string) : option (list byte) :=
  if existsb (λ b, negb (is_ascii_alphanumeric b || (b2n b =? 0x2D) || (b2n b =? 0x5F)))
       (as_bytes s) then None else
  '(buf, bits, out) ← b64u_loop (as_bytes s) 0 0 [];
  if (0 <? bits) && negb (buf =? 0) then None else Some out.

Definition validate (st : ScittStatement) : Result unit :=
  if negb (st_v st =? 1) then Err ErrorCode.UnsupportedVersion else
  if sempty (st_feed st) || (128 <? slen (st_feed st)) then Err ErrorCode.SchemaViolation else
  if sempty (st_cti st) || (256 <? slen (st_cti st)) then Err ErrorCode.SchemaViolation else
  raw ← ok_or (hex_decode (st_payload_sha256 st)) ErrorCode.SchemaViolation;
  if negb (len raw =? 32) then Err ErrorCode.SchemaViolation else
  if sempty (st_kid st) then Err ErrorCode.SchemaViolation else Ok tt.

(** The fields [#[derive(Serialize)]] writes, in declaration order. *)
Definition serialize (st : ScittStatement) : list (string * JsonScalar) :=
  [("v", SUint (st_v st)); ("feed", SText (st_feed st)); ("cti", SText (st_cti st));
   ("payload_sha256", SText (st_payload_sha256 st)); ("issued_at", SUint (st_issued_at st));
   ("kid", SText (st_kid st))].

Definition subject (st : ScittStatement) : string :=
  "scitt:" +:+ st_feed st +:+ ":" +:+ st_cti st.

Section statement.
Context `{SerdeJsonWriter, Sha2, Base64Url, SignatureSchemes}.

Definition canonical_json (st : ScittStatement) : Result (list byte) :=
  _ ← validate st;
  ok_or (json_to_vec (serialize st)) ErrorCode.Malformed.

(** The copy into a 32-byte array is the identity on a SHA-256 output. *)
Definition digest (st : ScittStatement) : Result (list byte) :=
  bytes ← canonical_json st;
  compute_digest bytes 0.

Definition verify_ed25519 (pubkey msg sig : list byte) : Result unit :=
  if negb (ed25519_vk pubkey) then Err ErrorCode.Malformed else
  if negb (ed25519_verify pubkey msg sig) then Err ErrorCode.SignatureInvalid else Ok tt.

Definition verify (signed : SignedStatement) : Result ScittStatement :=
  let st := sg_statement signed in
  _ ← validate st;
  if negb (is_supported_keyref (st_kid st)) then Err ErrorCode.SchemaViolation else
  bytes ← canonical_json st;
  sig ← ok_or (b64u_decode (sg_signature_b64u signed)) ErrorCode.SchemaViolation;
  if negb (len sig =? 64) then Err ErrorCode.SignatureInvalid else
  raw ← parse_ed25519_keyref (st_kid st);
  _ ← verify_ed25519 raw bytes sig;
  Ok st.
End statement.
End Statement.

(** * The mapping (map.rs) *)

Definition CLAIM_SCITT_STATEMENT := "scitt.statement".

Section mapping.
Context `{SerdeJsonWriter, Sha2, Base64Url, SignatureSchemes}.

Definition hex_of (bytes : list byte) : string :=
  of_bytes (flat_map (λ b,
    [Ascii.byte_of_ascii (hex_digit (N.shiftr (b2n b) 4));
     Ascii.byte_of_ascii (hex_digit (N.land (b2n b) 0xf))]) bytes).

Definition statement_content (signed : SignedStatement) (issued_at : N) (expires_at : option N)
    (limits : Limits) : Result AttestationContent :=
  st ← Statement.verify signed;
  digest ← Statement.digest st;
  Ok {| att_v := 1;
        att_issuer := st_kid st;
        att_subject := Statement.subject st;
        att_claim := {| claim_type := CLAIM_SCITT_STATEMENT;
                        claim_fields := [("cti", MText (st_cti st)); ("feed", MText (st_feed st));
                                         ("payload_sha256", MText (st_payload_sha256 st));
                                         ("statement_digest", MText (hex_of digest))] |};
        att_issued_at := issued_at;
        att_expires_at := expires_at;
        att_evidence_ref := None |}.

Definition registration_evidence (st : ScittStatement) (limits : Limits) : Result Evidence :=
  digest ← Statement.digest st;
  h ← HashRef_new HashAlgorithm.Sha256 digest;
  cv_content <$> make_evidence EvidenceKind.TRANSPARENCY_REGISTRATION h None None limits.

Definition checkpoint_content (log_keyref log_name : string) (sequence : N) (subject : string)
    (issued_at : N) (expires_at : option N) : Result AttestationContent :=
  if negb (is_supported_keyref log_keyref) then Err ErrorCode.SchemaViolation else
  if sempty log_name || (128 <? slen log_name) then Err ErrorCode.SchemaViolation else
  Ok {| att_v := 1;
        att_issuer := log_keyref;
        att_subject := subject;
        att_claim := {| claim_type := CLAIM_TRANSPARENCY_CHECKPOINT;
                        claim_fields := [("log", MText log_name); ("sequence", MUint sequence)] |};
        att_issued_at := issued_at;
        att_expires_at := expires_at;
        att_evidence_ref := None |}.

Definition receipt_evidence (st : ScittStatement) (checkpoint_attestation_id : string)
    (limits : Limits) : Result Evidence :=
  digest ← Statement.digest st;
  h ← HashRef_new HashAlgorithm.Sha256 digest;
  cv_content <$> make_evidence EvidenceKind.TRANSPARENCY_RECEIPT h
    (Some checkpoint_attestation_id) None limits.

(** The closure [field]: the first entry of that name, which must be text. *)
Definition text_field (content : AttestationContent) (name : string) : Result string :=
  ok_or ('(_, v) ← List.find (λ p, bool_decide (p.1 = name)) (claim_fields (att_claim content));
         match v with MText t => Some t | _ => None end)
    ErrorCode.SchemaViolation.

Definition statement_json (content : AttestationContent) : Result (list byte) :=
  if bool_decide (claim_type (att_claim content) ≠ CLAIM_SCITT_STATEMENT)
  then Err ErrorCode.SchemaViolation else
  feed ← text_field content "feed";
  cti ← text_field content "cti";
  payload_sha256 ← text_field content "payload_sha256";
  let st := {| st_v := 1; st_feed := feed; st_cti := cti; st_payload_sha256 := payload_sha256;
               st_issued_at := att_issued_at content; st_kid := att_issuer content |} in
  stated ← text_field content "statement_digest";
  digest ← Statement.digest st;
  if bool_decide (stated ≠ hex_of digest) then Err ErrorCode.SchemaViolation else
  if bool_decide (att_subject content ≠ Statement.subject st) then Err ErrorCode.SchemaViolation else
  Statement.canonical_json st.
End mapping.

(** * Text codecs *)

(** Lowercase hexadecimal, read and written. *)
Lemma hex_of_cons b bytes :
  as_bytes (hex_of (b :: bytes)) =
    Ascii.byte_of_ascii (hex_digit (N.shiftr (b2n b) 4))
    :: Ascii.byte_of_ascii (hex_digit (N.land (b2n b) 0xf)) :: as_bytes (hex_of bytes).
Proof. unfold hex_of. rewrite !as_of_bytes. reflexivity. Qed.

(** The digits [hex_decode] lets through to the pairs. *)
Definition lower_digit (b : byte) : bool :=
  Statement.is_ascii_hexdigit b && negb (Statement.is_ascii_uppercase b).

Lemma hex_pair_value a b :
  lower_digit a = true → lower_digit b = true →
  ∃ x, Statement.from_str_radix_16 [a; b] = Some x ∧
    a = Ascii.byte_of_ascii (hex_digit (N.shiftr (b2n x) 4)) ∧
    b = Ascii.byte_of_ascii (hex_digit (N.land (b2n x) 0xf)).
Proof.
  intros Ha Hb. destruct a; try discriminate Ha; destruct b; try discriminate Hb;
    (eexists; split; [reflexivity|]; split; reflexivity).
Qed.

Lemma hex_pair_of x :
  lower_digit (Ascii.byte_of_ascii (hex_digit (N.shiftr (b2n x) 4))) = true ∧
  lower_digit (Ascii.byte_of_ascii (hex_digit (N.land (b2n x) 0xf))) = true ∧
  Statement.from_str_radix_16
    [Ascii.byte_of_ascii (hex_digit (N.shiftr (b2n x) 4));
     Ascii.byte_of_ascii (hex_digit (N.land (b2n x) 0xf))] = Some x.
Proof. by destruct x. Qed.

Lemma hex_decode_alt s :
  Statement.hex_decode s =
    if (slen s mod 2 =? 0) && forallb lower_digit (as_bytes s)
    then Statement.hex_pairs (as_bytes s) else None.
Proof.
  unfold Statement.hex_decode. destruct (slen s mod 2 =? 0); [|done]. cbn [negb orb andb].
  destruct (existsb _ _) eqn:Hu.
  - rewrite (proj2 (forallb_false lower_digit (as_bytes s))); [by destruct (forallb _ _)|].
    apply existsb_true in Hu as (b & Hin & Hb). exists b. split; [done|].
    unfold lower_digit. rewrite Hb. by destruct (Statement.is_ascii_hexdigit b).
  - replace (forallb lower_digit (as_bytes s))
      with (forallb Statement.is_ascii_hexdigit (as_bytes s)); [by destruct (forallb _ _)|].
    revert Hu. generalize (as_bytes s). induction l as [|b l IH]; [done|]. cbn [forallb existsb].
    intros [Hb Hl]%orb_false_iff. rewrite (IH Hl). unfold lower_digit. rewrite Hb. cbn [negb].
    by rewrite andb_true_r.
Qed.

(** The decoder accepts exactly the lowercase spelling of the bytes it returns. *)
Lemma hex_decode_iff s b : Statement.hex_decode s = Some b ↔ s = hex_of b.
Proof.
  rewrite hex_decode_alt. split.
  - intros Hd. apply as_bytes_inj. destruct (_ && _) eqn:Hok; [|done].
    apply andb_true_iff in Hok as [_ Hl]. revert Hd Hl. generalize (as_bytes s) as l.
    induction b as [|z b IH]; intros [|x [|y l]] Hd Hl; try discriminate Hd; [done| |].
    all: cbn [Statement.hex_pairs] in Hd; cbn [forallb] in Hl.
    all: apply andb_true_iff in Hl as [Hx [Hy Hl]%andb_true_iff].
    all: destruct (hex_pair_value x y Hx Hy) as (w & Hw & -> & ->).
    all: rewrite Hw in Hd; cbn [mbind option_bind] in Hd.
    all: destruct (Statement.hex_pairs l) as [rest|] eqn:Hrest; [|done]; cbn [mbind option_bind] in Hd; simplify_eq.
    rewrite hex_of_cons. by rewrite (IH l Hrest Hl).
  - intros ->. assert (slen (hex_of b) mod 2 = 0 ∧ forallb lower_digit (as_bytes (hex_of b)) = true
      ∧ Statement.hex_pairs (as_bytes (hex_of b)) = Some b) as (-> & -> & ->); [|done].
    rewrite slen_as_bytes. induction b as [|x b (IHl & IHd & IHp)]; [done|].
    rewrite hex_of_cons. destruct (hex_pair_of x) as (Hh & Hl & Hp). split_and!.
    + rewrite !len_cons. replace (_ + 1 + 1) with (len (as_bytes (hex_of b)) + 1 * 2) by lia.
      by rewrite N.Div0.mod_add.
    + cbn [forallb]. by rewrite Hh, Hl.
    + cbn [Statement.hex_pairs]. rewrite Hp. cbn [mbind option_bind]. by rewrite IHp.
Qed.

Lemma hex_of_inj a b : hex_of a = hex_of b → a = b.
Proof.
  intros Heq. pose proof (proj2 (hex_decode_iff (hex_of a) a) eq_refl) as Ha.
  rewrite Heq, (proj2 (hex_decode_iff (hex_of b) b) eq_refl) in Ha. congruence.
Qed.

(** The value of a base64url text in base 64. *)
Fixpoint base64_value (acc : N) (digits : list N) : N :=
  match digits with
  | [] => acc
  | d :: digits' => base64_value (64 * acc + d) digits'
  end.

(** A text spells bytes when its characters are of the alphabet and its value,
    six bits a character, is that of the bytes followed by fewer than eight zero
    bits. *)
Definition spells (text : string) (bytes : list byte) : Prop :=
  ∃ digits pad, mapM Statement.b64u_value (as_bytes text) = Some digits ∧
    pad < 8 ∧ 6 * slen text = 8 * len bytes + pad ∧
    base64_value 0 digits = from_be_bytes bytes * 2 ^ pad.

Lemma b64u_value_lt c v : Statement.b64u_value c = Some v → v < 64.
Proof. destruct c; vm_compute; intros Hv; by simplify_eq. Qed.

Lemma b64u_value_inj c d v :
  Statement.b64u_value c = Some v → Statement.b64u_value d = Some v → c = d.
Proof.
  assert (∀ c v, Statement.b64u_value c = Some v → c = nth (N.to_nat v)
    (as_bytes "ABCDEFGHIJKLMNOPQRSTUVWXYZabcdefghijklmnopqrstuvwxyz0123456789-_") Byte.x00) as Hc.
  { intros x w. destruct x; vm_compute; intros Hv; by simplify_eq. }
  intros Hv Hd. apply Hc in Hv, Hd. congruence.
Qed.

(** Six fresh bits do not meet a number shifted past them. *)
Lemma shifted_disjoint n v : v < 64 → N.land (N.shiftl n 6) v = 0.
Proof.
  intros Hv. apply N.bits_inj_0. intros i. rewrite N.land_spec. destruct (N.lt_ge_cases i 6).
  - by rewrite N.shiftl_spec_low.
  - destruct (N.eq_0_gt_0_cases v) as [->|Hpos]; [by rewrite N.bits_0, andb_false_r|].
    rewrite (N.bits_above_log2 v), andb_false_r; [done|].
    apply N.log2_lt_pow2; [done|]. eapply N.lt_le_trans; [exact Hv|].
    change 64 with (2 ^ 6). by apply N.pow_le_mono_r.
Qed.

(** One turn of the loop keeps the value read so far in [out] and [buf]. *)
Lemma push_bits acc buf bits v out :
  buf < 2 ^ bits → bits < 8 → v < 64 → acc = from_be_bytes out * 2 ^ bits + buf →
  let buf' := N.lor (N.land (N.shiftl buf 6) u32_max) v in
  buf' = 64 * buf + v ∧ buf' < 2 ^ (bits + 6) ∧
  64 * acc + v = from_be_bytes out * 2 ^ (bits + 6) + buf'.
Proof.
  intros Hb Hbits Hv ->. cbn zeta.
  assert (buf < 2 ^ 8) as Hb8 by (eapply N.lt_le_trans; [exact Hb|apply N.pow_le_mono_r; lia]).
  change u32_max with (N.ones 32). rewrite N.land_ones, N.shiftl_mul_pow2.
  rewrite N.mod_small by (change (2 ^ 8) with 256 in Hb8; change (2 ^ 6) with 64;
    change (2 ^ 32) with 4294967296; lia).
  assert (N.lor (buf * 2 ^ 6) v = 64 * buf + v) as ->.
  { pose proof (shifted_disjoint buf v Hv) as Hz.
    rewrite <- N.shiftl_mul_pow2, <- N.lxor_lor, <- N.add_nocarry_lxor by done.
    rewrite N.shiftl_mul_pow2. change (2 ^ 6) with 64. lia. }
  rewrite N.pow_add_r. change (2 ^ 6) with 64. split_and!; [done|nia|nia].
Qed.

(** Taking the top byte out of a full buffer. *)
Lemma pop_byte out buf bits :
  bits < 8 → buf < 2 ^ (bits + 8) →
  N.land buf (N.shiftl 1 bits - 1) < 2 ^ bits ∧
  from_be_bytes out * 2 ^ (bits + 8) + buf =
    from_be_bytes (out ++ [u8 (N.shiftr buf bits)]) * 2 ^ bits
    + N.land buf (N.shiftl 1 bits - 1).
Proof.
  intros Hbits Hbuf. rewrite N.shiftl_1_l, <- N.pred_sub, <- N.ones_equiv, N.land_ones.
  rewrite N.shiftr_div_pow2, from_be_bytes_snoc. rewrite N.pow_add_r in *.
  change (2 ^ 8) with 256 in *. assert (2 ^ bits ≠ 0) as Hne by (by apply N.pow_nonzero).
  rewrite b2n_u8_small by (apply N.Div0.div_lt_upper_bound; lia).
  split; [by apply N.mod_lt|]. pose proof (N.div_mod buf (2 ^ bits) Hne). nia.
Qed.

(** The loop, started with a consistent buffer, returns on every text of the
    alphabet and keeps the value of what it has read. *)
Lemma b64u_loop_spec s digits acc buf bits out :
  mapM Statement.b64u_value s = Some digits →
  buf < 2 ^ bits → bits < 8 → acc = from_be_bytes out * 2 ^ bits + buf →
  ∃ buf' bits' out', Statement.b64u_loop s buf bits out = Some (buf', bits', out') ∧
    buf' < 2 ^ bits' ∧ bits' < 8 ∧
    6 * len s + 8 * len out + bits = 8 * len out' + bits' ∧
    base64_value acc digits = from_be_bytes out' * 2 ^ bits' + buf'.
Proof.
  revert digits acc buf bits out.
  induction s as [|c s IH]; intros digits acc buf bits out Hm Hbuf Hbits Hacc.
  - injection Hm as <-. exists buf, bits, out. split_and!; (done || len_lia).
  - cbn [mapM] in Hm. destruct (Statement.b64u_value c) as [v|] eqn:Hv; [|done].
    cbn [mbind option_bind] in Hm. fold (mapM Statement.b64u_value s) in Hm.
    destruct (mapM _ s) as [digits'|]; [|done]. injection Hm as <-.
    destruct (push_bits acc buf bits v out Hbuf Hbits (b64u_value_lt _ _ Hv) Hacc)
      as (_ & Hlt & Hval).
    cbn [Statement.b64u_loop base64_value]. rewrite Hv. cbn [mbind option_bind].
    set (buf1 := N.lor _ _) in *. destruct (N.leb_spec 8 (bits + 6)) as [Hge|Hlow].
    + replace (bits + 6) with ((bits + 6 - 8) + 8) in Hlt, Hval by lia.
      destruct (pop_byte out buf1 (bits + 6 - 8) ltac:(lia) Hlt) as [Hr Heq].
      destruct (IH digits' _ _ (bits + 6 - 8) _ eq_refl Hr ltac:(lia) (eq_trans Hval Heq))
        as (b' & n' & o' & -> & ? & ? & Hlen & ?).
      exists b', n', o'. split_and!; try done. len_lia.
    + destruct (IH digits' _ buf1 (bits + 6) out eq_refl Hlt ltac:(lia) Hval)
        as (b' & n' & o' & -> & ? & ? & Hlen & ?).
      exists b', n', o'. split_and!; try done. len_lia.
Qed.

Lemma alphabet_test c :
  negb (Statement.is_ascii_alphanumeric c || (b2n c =? 0x2D) || (b2n c =? 0x5F)) =
  bool_decide (Statement.b64u_value c = None).
Proof. by destruct c. Qed.

(** The decoder accepts exactly the texts that spell the bytes it returns. *)
Lemma b64u_decode_iff text bytes : Statement.b64u_decode text = Some bytes ↔ spells text bytes.
Proof.
  unfold Statement.b64u_decode, spells. rewrite slen_as_bytes.
  destruct (mapM Statement.b64u_value (as_bytes text)) as [digits|] eqn:Hm.
  - assert (existsb (λ c, negb (Statement.is_ascii_alphanumeric c || (b2n c =? 0x2D)
      || (b2n c =? 0x5F))) (as_bytes text) = false) as ->.
    { apply existsb_false. apply mapM_Some in Hm. intros c Hc.
      apply list_elem_of_lookup in Hc as [i Hi].
      destruct (Forall2_lookup_l _ _ _ _ _ Hm Hi) as (v & _ & Hv).
      rewrite alphabet_test. by rewrite bool_decide_eq_false_2 by congruence. }
    destruct (b64u_loop_spec (as_bytes text) digits 0 0 0 [] Hm ltac:(done) ltac:(done) ltac:(done))
      as (buf & bits & out & -> & Hbuf & Hbits & Hlen & Hval).
    cbn [mbind option_bind]. split.
    + intros Hd. exists digits, bits. destruct (_ && _) eqn:Hz; [done|]. injection Hd as <-.
      split_and!; [done|done|len_lia|]. rewrite Hval. enough (buf = 0) by lia.
      destruct (N.ltb_spec 0 bits) as [Hp|Hp]; cbn [andb] in Hz.
      * by apply negb_false_iff, N.eqb_eq in Hz.
      * replace bits with 0 in Hbuf by lia. change (2 ^ 0) with 1 in Hbuf. lia.
    + intros (digits' & pad & ? & Hpad & Hlen' & Hval'). simplify_eq.
      assert (len bytes = len out ∧ bits = pad) as [Hl ->] by len_lia.
      assert (from_be_bytes out = from_be_bytes bytes ∧ buf = 0) as [Hv ->].
      { apply (N.div_mod_unique (2 ^ pad)); [done| |lia].
        apply N.neq_0_lt_0. by apply N.pow_nonzero. }
      rewrite andb_false_r. f_equal. rewrite <- (to_from_be_bytes out), Hv.
      rewrite <- (to_from_be_bytes bytes) at 2. f_equal. unfold len in Hl. lia.
  - split; [|by intros (? & ? & ? & _)]. destruct (existsb _ _) eqn:Hex; [done|].
    exfalso. apply eq_None_not_Some in Hm. apply Hm, mapM_is_Some_2, Forall_forall. intros c Hc.
    rewrite existsb_false in Hex. specialize (Hex c Hc). rewrite alphabet_test in Hex.
    apply bool_decide_eq_false in Hex. by apply not_eq_None_Some.
Qed.

Lemma base64_value_inj ds ds' acc acc' :
  Forall (λ d, d < 64) ds → Forall (λ d, d < 64) ds' → length ds = length ds' →
  base64_value acc ds = base64_value acc' ds' → acc = acc' ∧ ds = ds'.
Proof.
  intros Hf. revert ds' acc acc'.
  induction Hf as [|d ds Hd Hf IH]; intros [|d' ds'] acc acc' Hf' Hlen Heq; try done.
  inversion Hf' as [|? ? Hd' Hf'']; subst. injection Hlen as Hlen. cbn [base64_value] in Heq.
  destruct (IH _ _ _ Hf'' Hlen Heq) as [Hacc ->].
  destruct (N.div_mod_unique 64 acc acc' d d') as [-> ->]; done.
Qed.

Lemma pad_determined n a b p p' :
  n mod 3 ≠ 0 → p < 8 → p' < 8 → 6 * a = 8 * n + p → 6 * b = 8 * n + p' → p = p'.
Proof.
  intros Hn Hp Hp' Ha Hb. pose proof (N.div_mod n 3 ltac:(done)) as Hdm.
  pose proof (N.mod_lt n 3 ltac:(done)) as Hlt.
  remember (n mod 3) as r eqn:Er. remember (n / 3) as q eqn:Eq. clear Er Eq.
  assert (r = 1 ∨ r = 2) as [-> | ->]; lia.
Qed.

(** Bytes whose number is not a multiple of three have one spelling. *)
Lemma spells_unique text text' bytes :
  len bytes mod 3 ≠ 0 → spells text bytes → spells text' bytes → text = text'.
Proof.
  intros Hn (ds & pad & Hm & Hpad & Hlen & Hv) (ds' & pad' & Hm' & Hpad' & Hlen' & Hv').
  assert (pad = pad') as <- by (by apply (pad_determined (len bytes) (slen text) (slen text'))).
  rewrite slen_as_bytes in Hlen, Hlen'. apply as_bytes_inj.
  apply mapM_Some in Hm, Hm'.
  assert (∀ s l, Forall2 (λ c v, Statement.b64u_value c = Some v) s l → Forall (λ d, d < 64) l) as Hb.
  { intros s l HF. apply Forall_forall. intros v Hin. apply list_elem_of_lookup in Hin as [i Hi].
    destruct (Forall2_lookup_r _ _ _ _ _ HF Hi) as (c & _ & Hc). by apply b64u_value_lt in Hc. }
  destruct (base64_value_inj ds ds' 0 0) as [_ <-]; [by eapply Hb|by eapply Hb| |congruence|].
  { rewrite <- (Forall2_length _ _ _ Hm), <- (Forall2_length _ _ _ Hm'). unfold len in *. lia. }
  clear -Hm Hm'. revert Hm'. generalize (as_bytes text') as s'.
  induction Hm as [|c v s l Hc HF IH]; intros s' HF'; inversion HF'; subst; [done|].
  f_equal; [by eapply b64u_value_inj|by apply IH].
Qed.

(** * Statements *)

(** The shape [validate] asks for. *)
Record valid_statement (st : ScittStatement) : Prop := {
  vs_version : st_v st = 1;
  vs_feed : 1 <= slen (st_feed st) <= 128;
  vs_cti : 1 <= slen (st_cti st) <= 256;
  vs_payload : ∃ d, len d = 32 ∧ st_payload_sha256 st = hex_of d;
  vs_kid : st_kid st ≠ "";
}.

Lemma validate_iff st : Statement.validate st = Ok tt ↔ valid_statement st.
Proof.
  unfold Statement.validate. rewrite !sempty_slen. split.
  - intros Hv. destruct (N.eqb_spec (st_v st) 1); [|done]. cbn [negb] in Hv.
    destruct (_ || _) eqn:Hf in Hv; [done|]. destruct (_ || _) eqn:Hc in Hv; [done|].
    rewrite orb_false_iff, N.eqb_neq, N.ltb_ge in Hf, Hc.
    apply bind_Ok in Hv as (raw & Hr & Hv). rewrite ok_or_Ok, hex_decode_iff in Hr.
    destruct (N.eqb_spec (len raw) 32); [|done]. cbn [negb] in Hv.
    destruct (N.eqb_spec (slen (st_kid st)) 0) as [|Hk]; [done|].
    split; [done|lia|lia|by exists raw|]. intros Hz. by rewrite Hz in Hk.
  - intros [Hv Hf Hc (d & Hd & Hp) Hk]. rewrite Hv, Hp. cbn [N.eqb Pos.eqb negb].
    rewrite (proj2 (N.eqb_neq (slen (st_feed st)) 0)), (proj2 (N.ltb_ge 128 (slen (st_feed st)))),
      (proj2 (N.eqb_neq (slen (st_cti st)) 0)), (proj2 (N.ltb_ge 256 (slen (st_cti st)))) by lia.
    rewrite (proj2 (hex_decode_iff (hex_of d) d) eq_refl). cbn [ok_or mbind result_bind].
    rewrite Hd. cbn [N.eqb Pos.eqb negb]. destruct (N.eqb_spec (slen (st_kid st)) 0) as [Hz|]; [|done].
    destruct Hk. destruct (st_kid st); [done|]. unfold slen in Hz. cbn in Hz. lia.
Qed.

Lemma serialize_inj st st' : Statement.serialize st = Statement.serialize st' → st = st'.
Proof. destruct st, st'. unfold Statement.serialize. cbn. by intros [= -> -> -> -> -> ->]. Qed.

Section scitt_facts.
Context `{SerdeJsonWriterLaws, Sha2Laws, Base64UrlLaws, SignatureLaws}.

Lemma canonical_json_Ok st bytes :
  Statement.canonical_json st = Ok bytes ↔
  valid_statement st ∧ json_to_vec (Statement.serialize st) = Some bytes.
Proof.
  unfold Statement.canonical_json. rewrite bind_Ok, <- validate_iff. split.
  - intros ([] & Hv & Hj). by rewrite ok_or_Ok in Hj.
  - intros [Hv Hj]. exists tt. by rewrite ok_or_Ok.
Qed.

Lemma digest_Ok st d :
  Statement.digest st = Ok d ↔
  ∃ bytes, Statement.canonical_json st = Ok bytes ∧ d = sha256 bytes.
Proof.
  unfold Statement.digest. rewrite bind_Ok. cbn [compute_digest]. split.
  - intros (bytes & Hb & Hd). exists bytes. split; [done|]. congruence.
  - intros (bytes & Hb & ->). by exists bytes.
Qed.

(** The canonical bytes name the statement. *)
Lemma canonical_json_inj st st' bytes :
  Statement.canonical_json st = Ok bytes → Statement.canonical_json st' = Ok bytes → st = st'.
Proof.
  rewrite !canonical_json_Ok. intros [_ Hj] [_ Hj']. apply serialize_inj, json_to_vec_inj. congruence.
Qed.

Lemma b64_nonempty key : len key = 32 → 1 <= slen (b64_encode key).
Proof.
  intros Hl. destruct (b64_encode key) as [|c s] eqn:He; [|unfold slen; cbn [String.length]; lia].
  pose proof (b64_encode_len []) as Hn. pose proof (b64_decode_encode key) as Hk.
  pose proof (b64_decode_encode []) as Hd. destruct (b64_encode []) as [|c s]; [|done].
  rewrite He in Hk. rewrite Hk in Hd. injection Hd as ->. done.
Qed.

Lemma ed25519_supported key :
  len key = 32 → is_supported_keyref ("key:ed25519:" +:+ b64u_nopad key) = true.
Proof.
  intros Hl. apply existsb_true. exists "key:ed25519:". split; [set_solver|].
  apply andb_true_iff. split; [apply starts_with_spec; by eexists|]. apply N.ltb_lt.
  pose proof (b64_nonempty key Hl). unfold b64u_nopad, slen in *.
  change (String.length ("key:ed25519:" +:+ b64_encode key))
    with (12 + String.length (b64_encode key))%nat. cbn [String.length]. lia.
Qed.

Lemma verify_ed25519_Ok key msg sig :
  Statement.verify_ed25519 key msg sig = Ok tt ↔
  ed25519_vk key = true ∧ ed25519_verify key msg sig = true.
Proof.
  unfold Statement.verify_ed25519. destruct (ed25519_vk key), (ed25519_verify key msg sig);
    cbn [negb]; split; try done; by intros [? ?].
Qed.

(** What a signature over a statement is. *)
Definition signed_statement (st : ScittStatement) (text : string) : Prop :=
  ∃ key sig bytes, st_kid st = "key:ed25519:" +:+ b64u_nopad key ∧ len key = 32 ∧
    json_to_vec (Statement.serialize st) = Some bytes ∧ len sig = 64 ∧ spells text sig ∧
    ed25519_vk key = true ∧ ed25519_verify key bytes sig = true.

Lemma verify_spec signed st :
  Statement.verify signed = Ok st ↔
  st = sg_statement signed ∧ valid_statement st ∧ signed_statement st (sg_signature_b64u signed).
Proof.
  unfold Statement.verify. cbn zeta. split.
  - intros Hv. apply bind_Ok in Hv as ([] & Hval & Hv). apply validate_iff in Hval.
    destruct (is_supported_keyref _); [|done]. cbn [negb] in Hv.
    apply bind_Ok in Hv as (bytes & Hb & Hv). apply canonical_json_Ok in Hb as [_ Hb].
    apply bind_Ok in Hv as (sig & Hs & Hv). rewrite ok_or_Ok, b64u_decode_iff in Hs.
    destruct (N.eqb_spec (len sig) 64) as [Hl|]; [|done]. cbn [negb] in Hv.
    apply bind_Ok in Hv as (key & Hk & Hv). apply parse_ed25519_spec in Hk as [Hk Hkl].
    apply bind_Ok in Hv as ([] & He & Hv). apply verify_ed25519_Ok in He as [Hvk He].
    injection Hv as <-. split_and!; [done|done|]. by exists key, sig, bytes.
  - intros (-> & Hval & key & sig & bytes & Hk & Hkl & Hb & Hl & Hs & Hvk & He).
    rewrite (proj2 (validate_iff _) Hval). cbn [mbind result_bind].
    rewrite Hk, ed25519_supported by done. cbn [negb].
    rewrite (proj2 (canonical_json_Ok _ bytes)) by done. cbn [mbind result_bind].
    rewrite (proj2 (b64u_decode_iff _ sig)) by done. cbn [ok_or mbind result_bind].
    rewrite Hl. cbn [N.eqb Pos.eqb negb].
    rewrite (proj2 (parse_ed25519_spec _ key)) by done. cbn [mbind result_bind].
    by rewrite (proj2 (verify_ed25519_Ok key bytes sig)).
Qed.

(** Which signed statements the adapter accepts.  Verification returns the
    statement exactly when it has the documented shape, its [kid] is the canonical
    reference of an Ed25519 key, and its signature text spells 64 bytes that are a
    valid signature of that key over the canonical JSON; and a 64-byte signature
    has a single spelling. *)
Theorem statement_verify_exact signed :
  (∀ st, Statement.verify signed = Ok st ↔
    st = sg_statement signed ∧ valid_statement st ∧
    signed_statement st (sg_signature_b64u signed)) ∧
  (∀ sig text, len sig = 64 → Statement.b64u_decode (sg_signature_b64u signed) = Some sig →
    Statement.b64u_decode text = Some sig → text = sg_signature_b64u signed).
Proof.
  split; [intros st; apply verify_spec|]. intros sig text Hl Hs Ht.
  apply b64u_decode_iff in Hs, Ht. apply (spells_unique _ _ sig); [by rewrite Hl|done|done].
Qed.

(** * The mapping *)

Lemma statement_content_Ok signed issued_at expires_at limits content :
  statement_content signed issued_at expires_at limits = Ok content →
  ∃ bytes, Statement.verify signed = Ok (sg_statement signed) ∧
    Statement.canonical_json (sg_statement signed) = Ok bytes ∧
    content = {| att_v := 1; att_issuer := st_kid (sg_statement signed);
                 att_subject := Statement.subject (sg_statement signed);
                 att_claim := {| claim_type := CLAIM_SCITT_STATEMENT;
                   claim_fields := [("cti", MText (st_cti (sg_statement signed)));
                     ("feed", MText (st_feed (sg_statement signed)));
                     ("payload_sha256", MText (st_payload_sha256 (sg_statement signed)));
                     ("statement_digest", MText (hex_of (sha256 bytes)))] |};
                 att_issued_at := issued_at; att_expires_at := expires_at;
                 att_evidence_ref := None |}.
Proof.
  unfold statement_content. intros Hc. apply bind_Ok in Hc as (st & Hv & Hc).
  apply bind_Ok in Hc as (d & Hd & Hc). injection Hc as <-. apply digest_Ok in Hd as (bytes & Hb & ->).
  pose proof Hv as Hv'. apply verify_spec in Hv as (-> & _ & _). by exists bytes.
Qed.

(** The statement that outbound mapping rebuilds from inbound content. *)
Definition redated (st : ScittStatement) (issued_at : N) : ScittStatement :=
  {| st_v := 1; st_feed := st_feed st; st_cti := st_cti st;
     st_payload_sha256 := st_payload_sha256 st; st_issued_at := issued_at; st_kid := st_kid st |}.

Lemma redated_valid st issued_at : valid_statement st → valid_statement (redated st issued_at).
Proof. intros []. by constructor. Qed.

Lemma redated_json st issued_at :
  valid_statement st → ∃ bytes, Statement.canonical_json (redated st issued_at) = Ok bytes.
Proof.
  intros Hv. destruct (json_to_vec_total (Statement.serialize (redated st issued_at))) as [bytes Hb].
  exists bytes. apply canonical_json_Ok. split; [by apply redated_valid|done].
Qed.

(** Outbound mapping of inbound content compares two digests and nothing else. *)
Lemma statement_json_inbound signed issued_at expires_at limits content bytes other :
  statement_content signed issued_at expires_at limits = Ok content →
  Statement.canonical_json (sg_statement signed) = Ok bytes →
  Statement.canonical_json (redated (sg_statement signed) issued_at) = Ok other →
  statement_json content =
    if decide (sha256 bytes = sha256 other) then Ok other else Err ErrorCode.SchemaViolation.
Proof.
  intros (bytes' & _ & Hb' & ->)%statement_content_Ok Hb Ho. rewrite Hb in Hb'. injection Hb' as <-.
  unfold statement_json. cbn [att_claim claim_type]. rewrite bool_decide_eq_false_2 by (by intros []).
  match goal with |- context [text_field ?c "feed"] =>
    change (text_field c "feed") with (Ok (E := ErrorCode.t) (st_feed (sg_statement signed)));
    change (text_field c "cti") with (Ok (E := ErrorCode.t) (st_cti (sg_statement signed)));
    change (text_field c "payload_sha256")
      with (Ok (E := ErrorCode.t) (st_payload_sha256 (sg_statement signed)));
    change (text_field c "statement_digest") with (Ok (E := ErrorCode.t) (hex_of (sha256 bytes)))
  end.
  cbn [mbind result_bind att_issued_at att_issuer att_subject].
  fold (redated (sg_statement signed) issued_at). unfold Statement.digest.
  rewrite Ho. cbn [mbind result_bind compute_digest].
  destruct (decide (sha256 bytes = sha256 other)) as [Heq|Hne].
  - rewrite bool_decide_eq_false_2 by (intros Hn; apply Hn; by rewrite Heq).
    rewrite bool_decide_eq_false_2; [done|]. intros Hn. by apply Hn.
  - rewrite bool_decide_eq_true_2; [done|]. by intros ?%hex_of_inj.
Qed.

(** C30: through the engine and back.  A signed statement that the adapter maps to
    content, and whose content is attested within the limits, yields an envelope
    that verifies to that content; mapped outbound, the content gives back the
    canonical bytes of the statement when it was dated like the statement, and is
    otherwise refused with SCHEMA_VIOLATION (or two documents with one SHA-256
    digest have been found). *)
Theorem scitt_roundtrip signed issued_at expires_at limits seed content created
  (Hin : statement_content signed issued_at expires_at limits = Ok content)
  (Ha : attest content seed limits = Ok created)
  (Hfit : cose_fits limits (ca_canonical created) = true)
  (Hsize : len (ca_sign1 created) <= max_proof_size limits) :
  verify_attestation (ca_sign1 created) (st_kid (sg_statement signed)) algs_strict limits =
    Ok (content, ca_id created) ∧
  ∃ bytes, Statement.canonical_json (sg_statement signed) = Ok bytes ∧
    if decide (issued_at = st_issued_at (sg_statement signed))
    then statement_json content = Ok bytes
    else statement_json content = Err ErrorCode.SchemaViolation ∨
         ∃ other, other ≠ bytes ∧ sha256 other = sha256 bytes.
Proof.
  destruct (statement_content_Ok _ _ _ _ _ Hin) as (bytes & Hv & Hb & Hc).
  apply verify_spec in Hv as (_ & Hval & _). split.
  - destruct (attest_Ok _ _ _ _ Ha) as (_ & _ & Hiss & _). rewrite Hc in Hiss. cbn in Hiss.
    rewrite Hiss. by apply attest_verifies.
  - exists bytes. split; [done|]. destruct (redated_json _ issued_at Hval) as [other Ho].
    rewrite (statement_json_inbound _ _ _ _ _ _ _ Hin Hb Ho).
    destruct (decide (issued_at = _)) as [->|Hne].
    + assert (redated (sg_statement signed) (st_issued_at (sg_statement signed)) = sg_statement signed)
        as Hr by (destruct Hval as [Hver _ _ _ _]; unfold redated; rewrite <- Hver;
          by destruct (sg_statement signed)).
      rewrite Hr, Hb in Ho. injection Ho as <-. by rewrite decide_True.
    + destruct (decide _) as [Heq|]; [|by left]. right. exists other. split; [|done].
      intros ->. pose proof (canonical_json_inj _ _ _ Hb Ho) as Hst. apply Hne.
      by rewrite Hst at 1.
Qed.

(** Whatever maps outbound is the statement that the content names: its fields,
    its issuer, its date, and a digest that reproduces. *)
Lemma statement_json_Ok content bytes :
  statement_json content = Ok bytes →
  ∃ st, valid_statement st ∧ json_to_vec (Statement.serialize st) = Some bytes ∧
    claim_type (att_claim content) = CLAIM_SCITT_STATEMENT ∧
    att_issuer content = st_kid st ∧ att_issued_at content = st_issued_at st ∧
    att_subject content = Statement.subject st ∧
    text_field content "feed" = Ok (st_feed st) ∧ text_field content "cti" = Ok (st_cti st) ∧
    text_field content "payload_sha256" = Ok (st_payload_sha256 st) ∧
    text_field content "statement_digest" = Ok (hex_of (sha256 bytes)).
Proof.
  unfold statement_json. case_bool_decide as Hty; [done|]. intros Hj.
  apply bind_Ok in Hj as (feed & Hfeed & Hj). apply bind_Ok in Hj as (cti & Hcti & Hj).
  apply bind_Ok in Hj as (payload & Hpay & Hj). cbn zeta in Hj.
  set (st := mkStatement _ _ _ _ _ _) in Hj.
  apply bind_Ok in Hj as (stated & Hst & Hj). apply bind_Ok in Hj as (d & Hd & Hj).
  case_bool_decide as Hne; [done|]. case_bool_decide as Hsub; [done|].
  apply digest_Ok in Hd as (bytes' & Hb & ->). rewrite Hj in Hb. injection Hb as <-.
  apply canonical_json_Ok in Hj as [Hval Hj]. exists st. subst stated. split_and!; try done.
Qed.

Lemma make_evidence_content kind h r hint limits e :
  make_evidence kind h r hint limits = Ok e →
  cv_content e = {| evd_v := 1; evd_kind := kind; evd_digest := h; evd_attestation_ref := r;
                    evd_hint := hint |}.
Proof.
  unfold make_evidence. intros Hm. apply bind_Ok in Hm as ([] & _ & Hm).
  apply bind_Ok in Hm as (v & _ & Hm). apply bind_Ok in Hm as (back & _ & Hm).
  case_bool_decide; [done|]. by injection Hm as <-.
Qed.

Lemma bound_evidence_Ok st e kind r limits :
  (digest ← Statement.digest st; h ← HashRef_new HashAlgorithm.Sha256 digest;
   cv_content <$> make_evidence kind h r None limits) = Ok e →
  evd_kind e = kind ∧ evd_attestation_ref e = r ∧
  ∃ bytes, Statement.canonical_json st = Ok bytes ∧ hr_digest (evd_digest e) = sha256 bytes.
Proof.
  intros He. apply bind_Ok in He as (d & Hd & He). apply bind_Ok in He as (h & Hh & He).
  destruct (make_evidence _ _ _ _ _) as [cv|] eqn:Hm; [|done]. injection He as <-.
  rewrite (make_evidence_content _ _ _ _ _ _ Hm). cbn.
  apply digest_Ok in Hd as (bytes & Hb & ->). split_and!; [done|done|]. exists bytes.
  unfold HashRef_new in Hh. destruct (negb _); [done|]. by injection Hh as <-.
Qed.

(** The evidence names the statement: registration and receipt evidence with one
    digest come from one statement, unless SHA-256 has collided. *)
Lemma evidence_binds_statement st st' cp limits e e' :
  registration_evidence st limits = Ok e → receipt_evidence st' cp limits = Ok e' →
  evd_digest e = evd_digest e' →
  st = st' ∨ ∃ a b, a ≠ b ∧ sha256 a = sha256 b.
Proof.
  intros (_ & _ & a & Ha & Hd)%bound_evidence_Ok (_ & _ & b & Hb & Hd')%bound_evidence_Ok Heq.
  rewrite Heq, Hd' in Hd. destruct (decide (a = b)) as [->|Hne]; [left|right; by exists a, b].
  by apply (canonical_json_inj _ _ b).
Qed.
End scitt_facts.

(** The decoder is not injective in general: a lone zero character is dropped. *)
Example b64u_decode_lone_zero :
  Statement.b64u_decode "A" = Some [] ∧ Statement.b64u_decode "" = Some [] ∧
  Statement.b64u_decode "AAECA" = Statement.b64u_decode "AAEC".
Proof. by vm_compute. Qed.

Module ScittSamples.
Import Toy.
Definition seed : list byte := repeat Byte.x09 32.
Definition statement : ScittStatement := {|
  st_v := 1; st_feed := "builds"; st_cti := "release-7";
  st_payload_sha256 := hex_of (repeat Byte.xab 32); st_issued_at := 150;
  st_kid := key_ref seed |}.
Definition json : list byte := default [] (json_to_vec (Statement.serialize statement)).
(** The signature spelled in base64url: four bytes of the sample scheme, then zeros. *)
Definition zeros (n : nat) : string := of_bytes (repeat Byte.x41 n).
Definition signed : SignedStatement := {|
  sg_statement := statement; sg_signature_b64u := "9dOTVQ" +:+ zeros 80 |}.
End ScittSamples.

Section scitt_witnesses.
Import Toy ScittSamples.

Lemma signed_verifies : Statement.verify signed = Ok statement.
Proof. vm_compute. reflexivity. Qed.

Lemma scitt_roundtrip_witness :
  ∃ content created,
    statement_content signed 150 (Some 900) default_limits = Ok content ∧
    attest content seed default_limits = Ok created ∧
    verify_attestation (ca_sign1 created) (key_ref seed) algs_strict default_limits =
      Ok (content, ca_id created) ∧
    statement_json content = Ok json.
Proof.
  destruct (statement_content signed 150 (Some 900) default_limits) as [content|] eqn:Hc;
    [|vm_compute in Hc; discriminate Hc].
  destruct (attest content seed default_limits) as [created|] eqn:Ha;
    [|vm_compute in Hc; injection Hc as <-; vm_compute in Ha; discriminate Ha].
  exists content, created. split; [done|]. split; [done|].
  destruct (scitt_roundtrip signed 150 (Some 900) default_limits seed content created Hc Ha)
    as (Hv & bytes & Hb & Hj).
  - vm_compute in Hc. injection Hc as <-. vm_compute in Ha. injection Ha as <-. reflexivity.
  - vm_compute in Hc. injection Hc as <-. vm_compute in Ha. injection Ha as <-. vm_compute. congruence.
  - split; [exact Hv|]. rewrite decide_True in Hj by reflexivity. rewrite Hj.
    vm_compute in Hb. injection Hb as <-. reflexivity.
Defined.
End scitt_witnesses.
