(* ===== verification/Policy.v ===== *)
(** Policy: the policy language of [crates/proof-policy/src/policy.rs] and
    [expr.rs].

    [Requirement], [PolicyExpr] and [Policy] are the documents, [parse_policy]
    the validator from JSON ([parse_requirement_inner], [parse_expression] with
    its node budget), [policy_to_canonical_cbor] and [canonical_policy_hash]
    the canonical form, and the [policy_uses_*] helpers of [lib.rs] close the
    file's operations.  JSON itself is the [SerdeJson] interface.

    [policy_doc] is the schema of policy documents, stated without the parser.
    The theorems: the parser reads exactly the documents of well-formed policies, its
    budget is the node count, the frozen version 1 never yields a version 2
    requirement, and the canonical hash identifies the policy. *)
From Stdlib Require Import Strings.Byte NArith ZArith Lia.
From S2P Require Import Prelude Core External Cbor Schema Ident.

(** * Requirements *)

Module FieldOp.
Inductive t : Set := Eq | Ne | Gt | Gte | Lt | Lte.
#[global] Instance eq_dec : EqDecision t.
Proof. solve_decision. Defined.
Definition as_str (o : t) : string :=
  match o with
  | Eq => "eq" | Ne => "ne" | Gt => "gt" | Gte => "gte" | Lt => "lt" | Lte => "lte"
  end.
Definition parse (s : string) : option t :=
  if bool_decide (s = "eq") then Some Eq
  else if bool_decide (s = "ne") then Some Ne
  else if bool_decide (s = "gt") then Some Gt
  else if bool_decide (s = "gte") then Some Gte
  else if bool_decide (s = "lt") then Some Lt
  else if bool_decide (s = "lte") then Some Lte
  else None.
End FieldOp.

Inductive FieldValue : Set :=
| FText (s : string)
| FUint (n : N)
| FBool (b : bool).
#[global] Instance FieldValue_eq_dec : EqDecision FieldValue.
Proof. solve_decision. Defined.

Inductive Requirement : Set :=
| SignatureValid
| IssuerTrusted (issuer : string)
| IssuerExcluded (issuer : string)
| RelationshipExists (relationship : string)
| NotExpired
| NotRevoked
| NotSuperseded
| EvidencePresent (kind : string)
| TransparencyPresent
| ProofFresh (max_age_seconds : N)
| DelegatedAuthority (root issuer : string) (scope : option string)
| IdentityBound (a b : string)
| TransparencyInclusion (log : string)
| NoConflictingEvidence
| VocabularyAccepted (ns : string) (max_version : N)
| EvidenceUsable (kind : string)
| EvidenceBound (kind : string)
| RequiresReference (id : string)
| ForbidsReference (id : string)
| ClaimField (claim_type subject : option string) (field : string) (op : FieldOp.t)
    (value : FieldValue).
#[global] Instance Requirement_eq_dec : EqDecision Requirement.
Proof. solve_decision. Defined.

(** A double quote, for rendering text values. *)
Definition dquote : string := String (Ascii.ascii_of_N 34) EmptyString.
Definition bool_str (b : bool) : string := if b then "true" else "false".

Definition describe (r : Requirement) : string :=
  match r with
  | SignatureValid => "signature_valid"
  | IssuerTrusted issuer => "issuer_trusted(" +:+ issuer +:+ ")"
  | IssuerExcluded issuer => "issuer_excluded(" +:+ issuer +:+ ")"
  | RelationshipExists relationship => "relationship_exists(" +:+ relationship +:+ ")"
  | NotExpired => "not_expired"
  | NotRevoked => "not_revoked"
  | NotSuperseded => "not_superseded"
  | EvidencePresent kind => "evidence_present(" +:+ kind +:+ ")"
  | TransparencyPresent => "transparency_present"
  | ProofFresh max_age => "proof_fresh(" +:+ pretty max_age +:+ "s)"
  | DelegatedAuthority root issuer None =>
      "delegated_authority(root=" +:+ root +:+ ", issuer=" +:+ issuer +:+ ")"
  | DelegatedAuthority root issuer (Some sc) =>
      "delegated_authority(root=" +:+ root +:+ ", issuer=" +:+ issuer +:+ ", scope=" +:+ sc +:+ ")"
  | IdentityBound a b => "identity_bound(" +:+ a +:+ ", " +:+ b +:+ ")"
  | TransparencyInclusion log => "transparency_inclusion(" +:+ log +:+ ")"
  | NoConflictingEvidence => "no_conflicting_evidence"
  | VocabularyAccepted ns max_version =>
      "vocabulary_accepted(" +:+ ns +:+ ", max_version=" +:+ pretty max_version +:+ ")"
  | EvidenceUsable kind => "evidence_usable(" +:+ kind +:+ ")"
  | EvidenceBound kind => "evidence_bound(" +:+ kind +:+ ")"
  | RequiresReference id => "requires_reference(" +:+ id +:+ ")"
  | ForbidsReference id => "forbids_reference(" +:+ id +:+ ")"
  | ClaimField claim_type subject field op value =>
      let val :=
        match value with
        | FText s => dquote +:+ s +:+ dquote
        | FUint n => pretty n
        | FBool b => bool_str b
        end in
      let scope :=
        match claim_type with Some t => "type=" +:+ t +:+ " " | None => "" end +:+
        match subject with Some s => "subject=" +:+ s +:+ " " | None => "" end in
      "claim_field(" +:+ scope +:+ field +:+ " " +:+ FieldOp.as_str op +:+ " " +:+ val +:+ ")"
  end.

Definition type_str (r : Requirement) : string :=
  match r with
  | SignatureValid => "signature_valid"
  | IssuerTrusted _ => "issuer_trusted"
  | IssuerExcluded _ => "issuer_excluded"
  | RelationshipExists _ => "relationship_exists"
  | NotExpired => "not_expired"
  | NotRevoked => "not_revoked"
  | NotSuperseded => "not_superseded"
  | EvidencePresent _ => "evidence_present"
  | TransparencyPresent => "transparency_present"
  | ProofFresh _ => "proof_fresh"
  | DelegatedAuthority _ _ _ => "delegated_authority"
  | IdentityBound _ _ => "identity_bound"
  | TransparencyInclusion _ => "transparency_inclusion"
  | NoConflictingEvidence => "no_conflicting_evidence"
  | VocabularyAccepted _ _ => "vocabulary_accepted"
  | EvidenceUsable _ => "evidence_usable"
  | EvidenceBound _ => "evidence_bound"
  | RequiresReference _ => "requires_reference"
  | ForbidsReference _ => "forbids_reference"
  | ClaimField _ _ _ _ _ => "claim_field"
  end.

Definition is_v2_only (r : Requirement) : bool :=
  match r with
  | DelegatedAuthority _ _ _ | IdentityBound _ _ | TransparencyInclusion _
  | NoConflictingEvidence | VocabularyAccepted _ _ | EvidenceUsable _ | EvidenceBound _
  | RequiresReference _ | ForbidsReference _ | ClaimField _ _ _ _ _ => true
  | _ => false
  end.

(** * Expressions *)

Unset Elimination Schemes.
Inductive PolicyExpr : Set :=
| Leaf (r : Requirement)
| All (cs : list PolicyExpr)
| Any (cs : list PolicyExpr)
| Not (c : PolicyExpr)
| Threshold (k : N) (options : list PolicyExpr).
Set Elimination Schemes.

(** Induction through the nested lists. *)
Section PolicyExpr_ind.
Context (P : PolicyExpr → Prop).
Context (HLeaf : ∀ r, P (Leaf r)) (HAll : ∀ cs, Forall P cs → P (All cs))
  (HAny : ∀ cs, Forall P cs → P (Any cs)) (HNot : ∀ c, P c → P (Not c))
  (HThreshold : ∀ k cs, Forall P cs → P (Threshold k cs)).
Fixpoint PolicyExpr_ind (e : PolicyExpr) : P e :=
  let fix go l : Forall P l :=
    match l with
    | [] => Forall_nil_2 _
    | x :: l' => Forall_cons_2 _ _ _ (PolicyExpr_ind x) (go l')
    end in
  match e with
  | Leaf r => HLeaf r
  | All cs => HAll cs (go cs)
  | Any cs => HAny cs (go cs)
  | Not c => HNot c (PolicyExpr_ind c)
  | Threshold k cs => HThreshold k cs (go cs)
  end.
End PolicyExpr_ind.

(** [items.join(sep)]. *)
Fixpoint join (sep : string) (l : list string) : string :=
  match l with
  | [] => ""
  | [s] => s
  | s :: l' => s +:+ sep +:+ join sep l'
  end.

Fixpoint describe_expr (e : PolicyExpr) : string :=
  match e with
  | Leaf r => describe r
  | All cs => "all[" +:+ join ", " (map describe_expr cs) +:+ "]"
  | Any cs => "any[" +:+ join ", " (map describe_expr cs) +:+ "]"
  | Not c => "not(" +:+ describe_expr c +:+ ")"
  | Threshold k options =>
      "threshold(" +:+ pretty k +:+ "/" +:+ pretty (len options) +:+ ")[" +:+
      join ", " (map describe_expr options) +:+ "]"
  end.

Definition sum_list (l : list N) : N := foldr N.add 0 l.

Fixpoint node_count (e : PolicyExpr) : N :=
  match e with
  | Leaf _ => 1
  | All cs | Any cs => 1 + sum_list (map node_count cs)
  | Not c => 1 + node_count c
  | Threshold _ options => 1 + sum_list (map node_count options)
  end.

Record Policy : Set := mkPolicy {
  pol_version : N;
  pol_id : string;
  pol_requirements : list Requirement;
  pol_expression : option PolicyExpr;
}.

(** * Canonical form *)

(** The match of [requirement_to_cbor]: the entries after [type]. *)
Definition requirement_fields (req : Requirement) : list (CborValue * CborValue) :=
  match req with
  | IssuerTrusted issuer | IssuerExcluded issuer => [(Text "issuer", Text issuer)]
  | RelationshipExists relationship => [(Text "relationship", Text relationship)]
  | EvidencePresent kind | EvidenceUsable kind | EvidenceBound kind => [(Text "kind", Text kind)]
  | RequiresReference id | ForbidsReference id => [(Text "id", Text id)]
  | ProofFresh max_age => [(Text "max_age_seconds", Uint max_age)]
  | DelegatedAuthority root issuer scope =>
      [(Text "root", Text root); (Text "issuer", Text issuer)]
      ++ match scope with Some sc => [(Text "scope", Text sc)] | None => [] end
  | IdentityBound a b => [(Text "a", Text a); (Text "b", Text b)]
  | TransparencyInclusion log => [(Text "log", Text log)]
  | VocabularyAccepted ns max_version =>
      [(Text "ns", Text ns); (Text "max_version", Uint max_version)]
  | ClaimField claim_type subject field op value =>
      match claim_type with Some t => [(Text "claim_type", Text t)] | None => [] end
      ++ match subject with Some s => [(Text "subject", Text s)] | None => [] end
      ++ [ (Text "field", Text field); (Text "op", Text (FieldOp.as_str op));
           (Text "value",
             match value with FText s => Text s | FUint n => Uint n | FBool b => Bool b end) ]
  | _ => []
  end.

Definition requirement_to_cbor (req : Requirement) : CborValue :=
  Map (sort_by pair_leb ((Text "type", Text (type_str req)) :: requirement_fields req)).

Fixpoint expression_to_cbor (e : PolicyExpr) : CborValue :=
  match e with
  | Leaf r => requirement_to_cbor r
  | All cs => Map [(Text "all", Array (map expression_to_cbor cs))]
  | Any cs => Map [(Text "any", Array (map expression_to_cbor cs))]
  | Not c => Map [(Text "not", expression_to_cbor c)]
  | Threshold k options =>
      Map [(Text "threshold",
            Map [(Text "k", Uint k); (Text "of", Array (map expression_to_cbor options))])]
  end.

(** The map [policy_to_canonical_cbor] encodes. *)
Definition policy_to_cbor (policy : Policy) : CborValue :=
  Map ([ (Text "policy_id", Text (pol_id policy));
         (Text "policy_version", Uint (pol_version policy)) ]
       ++ if pol_version policy =? 2 then
            match pol_expression policy with
            | Some expr => [(Text "expression", expression_to_cbor expr)]
            | None => []
            end
          else [(Text "requirements", Array (map requirement_to_cbor (pol_requirements policy)))]).

Definition policy_to_canonical_cbor (policy : Policy) : list byte :=
  encode_canonical (policy_to_cbor policy).

Definition canonical_policy_hash `{Base64Url, Sha2} (policy : Policy) : string :=
  "policy:v" +:+ pretty (pol_version policy) +:+ ":" +:+
  b64u_nopad (sha256 (policy_to_canonical_cbor policy)).

(** * What a policy evaluates *)

Fixpoint expr_uses (e : PolicyExpr) (want : string) : bool :=
  match e with
  | Leaf r => bool_decide (type_str r = want)
  | All cs | Any cs => existsb (λ c, expr_uses c want) cs
  | Not c => expr_uses c want
  | Threshold _ options => existsb (λ c, expr_uses c want) options
  end.

(** The common body of the two helpers of [lib.rs]. *)
Definition policy_uses (want : string) (policy : Policy) : bool :=
  if pol_version policy =? 2 then
    match pol_expression policy with
    | Some expr => expr_uses expr want
    | None => false
    end
  else existsb (λ r, bool_decide (type_str r = want)) (pol_requirements policy).
Definition policy_uses_proof_fresh : Policy → bool := policy_uses "proof_fresh".
Definition policy_uses_not_expired : Policy → bool := policy_uses "not_expired".

(** * The parser *)

Abbreviation PolicyErr := (Err ErrorCode.PolicyInvalid).

Section parser.
Context `{SerdeJson, Base64Url}.

Definition object_t : Type := list (string * json).

(** [map.get(key)] and [map.contains_key(key)]. *)
Fixpoint get (obj : object_t) (key : string) : option json :=
  match obj with
  | [] => None
  | (k, v) :: obj' => if bool_decide (k = key) then Some v else get obj' key
  end.
Definition contains_key (obj : object_t) (key : string) : bool :=
  bool_decide (is_Some (get obj key)).

(** [v.as_object()], [v.as_array()] and [v.as_u64()]. *)
Definition as_object (v : json) : option object_t :=
  match json_view v with JObject o => Some o | _ => None end.
Definition as_array (v : json) : option (list json) :=
  match json_view v with JArray l => Some l | _ => None end.
Definition as_u64 (v : json) : option N :=
  match json_view v with JNumber n => n | _ => None end.

Definition reject_extra_keys (obj : object_t) (allowed : list string) : Result unit :=
  if forallb (λ p : string * json, bool_decide (p.1 ∈ allowed)) obj then Ok tt else PolicyErr.

Definition req_string (obj : object_t) (key : string) : Result string :=
  match get obj key with
  | Some v => match json_view v with JString s => Ok s | _ => PolicyErr end
  | None => PolicyErr
  end.

(** A required [u64] field. *)
Definition req_u64 (obj : object_t) (key : string) : Result N :=
  v ← ok_or (get obj key) ErrorCode.PolicyInvalid;
  ok_or (as_u64 v) ErrorCode.PolicyInvalid.

(** An optional non-empty text field. *)
Definition opt_string (obj : object_t) (key : string) : Result (option string) :=
  match get obj key with
  | None => Ok None
  | Some v =>
      match json_view v with
      | JString s => if negb (sempty s) then Ok (Some s) else PolicyErr
      | _ => PolicyErr
      end
  end.

Definition require_proof_ref (obj : object_t) (key : string) : Result string :=
  v ← req_string obj key;
  match check_proof_ref_id v with Ok _ => Ok v | Err _ => PolicyErr end.

Definition require_keyref (obj : object_t) (key : string) : Result string :=
  v ← req_string obj key;
  if negb (is_supported_keyref v) then PolicyErr else Ok v.

(** The [value] of a [claim_field] leaf. *)
Definition field_value (obj : object_t) : Result FieldValue :=
  match get obj "value" with
  | Some v =>
      match json_view v with
      | JString s => Ok (FText s)
      | JNumber n => u ← ok_or n ErrorCode.PolicyInvalid; Ok (FUint u)
      | JBool b => Ok (FBool b)
      | _ => PolicyErr
      end
  | None => PolicyErr
  end.

(** Ordering only on [u64]; text and booleans allow [eq] and [ne]. *)
Definition op_allowed (op : FieldOp.t) (value : FieldValue) : bool :=
  match value, op with
  | FUint _, _ => true
  | _, FieldOp.Eq | _, FieldOp.Ne => true
  | _, _ => false
  end.

Definition parse_claim_field (obj : object_t) : Result Requirement :=
  _ ← reject_extra_keys obj ["type"; "claim_type"; "subject"; "field"; "op"; "value"];
  claim_type ← opt_string obj "claim_type";
  subject ← opt_string obj "subject";
  field ← req_string obj "field";
  if sempty field || (128 <? slen field) then PolicyErr else
  if bool_decide (field = "type") then PolicyErr else
  op_s ← req_string obj "op";
  op ← ok_or (FieldOp.parse op_s) ErrorCode.PolicyInvalid;
  value ← field_value obj;
  if op_allowed op value then Ok (ClaimField claim_type subject field op value) else PolicyErr.

Definition V2_ONLY : list string :=
  [ "delegated_authority"; "identity_bound"; "transparency_inclusion"; "no_conflicting_evidence";
    "vocabulary_accepted"; "evidence_usable"; "evidence_bound"; "requires_reference";
    "forbids_reference"; "claim_field" ].

(** A leaf without parameters. *)
Definition plain (obj : object_t) (r : Requirement) : Result Requirement :=
  _ ← reject_extra_keys obj ["type"]; Ok r.
(** A leaf with one parameter, read by [read]. *)
Definition with_field {A} (obj : object_t) (key : string) (read : object_t → string → Result A)
    (make : A → Requirement) : Result Requirement :=
  _ ← reject_extra_keys obj ["type"; key]; x ← read obj key; Ok (make x).

(** The match of [parse_requirement_inner] on the type name. *)
Definition parse_leaf (obj : object_t) (t : string) : Result Requirement :=
  if bool_decide (t = "signature_valid") then plain obj SignatureValid else
  if bool_decide (t = "issuer_trusted") then with_field obj "issuer" require_keyref IssuerTrusted else
  if bool_decide (t = "issuer_excluded") then with_field obj "issuer" require_keyref IssuerExcluded else
  if bool_decide (t = "relationship_exists") then
    with_field obj "relationship" req_string RelationshipExists else
  if bool_decide (t = "not_expired") then plain obj NotExpired else
  if bool_decide (t = "not_revoked") then plain obj NotRevoked else
  if bool_decide (t = "not_superseded") then plain obj NotSuperseded else
  if bool_decide (t = "evidence_present") then with_field obj "kind" req_string EvidencePresent else
  if bool_decide (t = "transparency_present") then plain obj TransparencyPresent else
  if bool_decide (t = "proof_fresh") then with_field obj "max_age_seconds" req_u64 ProofFresh else
  if bool_decide (t = "delegated_authority") then
    _ ← reject_extra_keys obj ["type"; "root"; "issuer"; "scope"];
    scope ← opt_string obj "scope";
    root ← require_keyref obj "root";
    issuer ← require_keyref obj "issuer";
    Ok (DelegatedAuthority root issuer scope) else
  if bool_decide (t = "identity_bound") then
    _ ← reject_extra_keys obj ["type"; "a"; "b"];
    a ← req_string obj "a";
    b ← req_string obj "b";
    if sempty a || sempty b then PolicyErr else Ok (IdentityBound a b) else
  if bool_decide (t = "transparency_inclusion") then
    with_field obj "log" require_keyref TransparencyInclusion else
  if bool_decide (t = "no_conflicting_evidence") then plain obj NoConflictingEvidence else
  if bool_decide (t = "vocabulary_accepted") then
    _ ← reject_extra_keys obj ["type"; "ns"; "max_version"];
    ns ← req_string obj "ns";
    if sempty ns || (128 <? slen ns) then PolicyErr else
    max_version ← req_u64 obj "max_version";
    Ok (VocabularyAccepted ns max_version) else
  if bool_decide (t = "evidence_usable") then with_field obj "kind" req_string EvidenceUsable else
  if bool_decide (t = "evidence_bound") then with_field obj "kind" req_string EvidenceBound else
  if bool_decide (t = "requires_reference") then
    with_field obj "id" require_proof_ref RequiresReference else
  if bool_decide (t = "forbids_reference") then
    with_field obj "id" require_proof_ref ForbidsReference else
  if bool_decide (t = "claim_field") then parse_claim_field obj else
  PolicyErr.

Definition parse_requirement_inner (obj : object_t) (v1_only : bool) : Result Requirement :=
  t ← req_string obj "type";
  if v1_only && bool_decide (t ∈ V2_ONLY) then PolicyErr else parse_leaf obj t.

Definition parse_requirement (v : json) : Result Requirement :=
  obj ← ok_or (as_object v) ErrorCode.PolicyInvalid;
  parse_requirement_inner obj true.
Definition parse_requirement_v2_leaf (obj : object_t) : Result Requirement :=
  parse_requirement_inner obj false.

(** The item loop of [all], [any] and [threshold]: the budget is threaded
    through the calls. *)
Fixpoint parse_items (parse : json → N → Result (PolicyExpr * N)) (items : list json) (budget : N)
    : Result (list PolicyExpr * N) :=
  match items with
  | [] => Ok ([], budget)
  | item :: items' =>
      '(e, budget) ← parse item budget;
      '(es, budget) ← parse_items parse items' budget;
      Ok (e :: es, budget)
  end.

(** The connectives an expression object names. *)
Definition connectives (obj : object_t) : list string :=
  List.filter (contains_key obj) ["all"; "any"; "not"; "threshold"].

(** [parse_expression]: [budget] is the [&mut usize].  The recursion is on
    [fuel]; a nested call gets at most one node less than its caller, so any
    fuel from [budget] up gives the same result ([parse_expression_fuel]). *)
Fixpoint parse_expression (fuel : nat) (v : json) (budget : N) : Result (PolicyExpr * N) :=
  if budget =? 0 then Err ErrorCode.LimitExceeded else
  match fuel with
  | O => Err ErrorCode.LimitExceeded
  | S fuel =>
      let budget := budget - 1 in
      obj ← ok_or (as_object v) ErrorCode.PolicyInvalid;
      if contains_key obj "type" then r ← parse_requirement_v2_leaf obj; Ok (Leaf r, budget) else
      match connectives obj with
      | [kind] =>
          _ ← reject_extra_keys obj [kind];
          body ← ok_or (get obj kind) ErrorCode.PolicyInvalid;
          if bool_decide (kind = "all") || bool_decide (kind = "any") then
            items ← ok_or (as_array body) ErrorCode.PolicyInvalid;
            if len items =? 0 then PolicyErr else
            '(out, budget) ← parse_items (parse_expression fuel) items budget;
            Ok (if bool_decide (kind = "all") then All out else Any out, budget)
          else if bool_decide (kind = "not") then
            '(c, budget) ← parse_expression fuel body budget;
            Ok (Not c, budget)
          else
            t ← ok_or (as_object body) ErrorCode.PolicyInvalid;
            _ ← reject_extra_keys t ["k"; "of"];
            k ← req_u64 t "k";
            of_ ← ok_or (get t "of") ErrorCode.PolicyInvalid;
            options ← ok_or (as_array of_) ErrorCode.PolicyInvalid;
            if len options =? 0 then PolicyErr else
            if (k =? 0) || (len options <? k) then PolicyErr else
            '(out, budget) ← parse_items (parse_expression fuel) options budget;
            Ok (Threshold k out, budget)
      | _ => PolicyErr
      end
  end.

Definition parse_policy (v : json) (limits : Limits) : Result Policy :=
  root ← ok_or (as_object v) ErrorCode.PolicyInvalid;
  version ← req_u64 root "policy_version";
  id ← req_string root "policy_id";
  if sempty id || (128 <? slen id) then PolicyErr else
  if version =? 1 then
    _ ← reject_extra_keys root ["policy_version"; "policy_id"; "requirements"];
    reqs ← ok_or (get root "requirements") ErrorCode.PolicyInvalid;
    reqs ← ok_or (as_array reqs) ErrorCode.PolicyInvalid;
    if len reqs =? 0 then PolicyErr else
    if max_policy_requirements limits <? len reqs then Err ErrorCode.LimitExceeded else
    out ← mapM parse_requirement reqs;
    Ok {| pol_version := 1; pol_id := id; pol_requirements := out; pol_expression := None |}
  else if version =? 2 then
    _ ← reject_extra_keys root ["policy_version"; "policy_id"; "expression"];
    if contains_key root "requirements" then PolicyErr else
    expr_value ← ok_or (get root "expression") ErrorCode.PolicyInvalid;
    let budget := max_policy_requirements limits in
    '(expr, _) ← parse_expression (N.to_nat budget) expr_value budget;
    Ok {| pol_version := 2; pol_id := id; pol_requirements := []; pol_expression := Some expr |}
  else Err ErrorCode.UnsupportedVersion.
End parser.

(** * Well-formed policies

    What the parser promises: an abstract description, independent of JSON. *)

Definition opt_nonempty (o : option string) : bool :=
  match o with Some s => negb (sempty s) | None => true end.

Definition requirement_wf `{Base64Url} (r : Requirement) : bool :=
  match r with
  | IssuerTrusted i | IssuerExcluded i | TransparencyInclusion i => is_supported_keyref i
  | ProofFresh n => n <=? u64_max
  | DelegatedAuthority root issuer scope =>
      is_supported_keyref root && is_supported_keyref issuer && opt_nonempty scope
  | IdentityBound a b => negb (sempty a) && negb (sempty b)
  | VocabularyAccepted ns n => negb (sempty ns) && (slen ns <=? 128) && (n <=? u64_max)
  | RequiresReference id | ForbidsReference id => is_ok (check_proof_ref_id id)
  | ClaimField ty subject field op value =>
      opt_nonempty ty && opt_nonempty subject && negb (sempty field) && (slen field <=? 128)
      && negb (bool_decide (field = "type")) && op_allowed op value
      && match value with FUint n => n <=? u64_max | _ => true end
  | _ => true
  end.

Fixpoint expr_wf `{Base64Url} (e : PolicyExpr) : bool :=
  match e with
  | Leaf r => requirement_wf r
  | All cs | Any cs => negb (len cs =? 0) && forallb expr_wf cs
  | Not c => expr_wf c
  | Threshold k cs =>
      (1 <=? k) && (k <=? len cs) && (k <=? u64_max) && forallb expr_wf cs
  end.

Definition policy_wf `{Base64Url} (limits : Limits) (p : Policy) : bool :=
  negb (sempty (pol_id p)) && (slen (pol_id p) <=? 128) &&
  if pol_version p =? 1 then
    negb (len (pol_requirements p) =? 0)
    && (len (pol_requirements p) <=? max_policy_requirements limits)
    && forallb (λ r, requirement_wf r && negb (is_v2_only r)) (pol_requirements p)
    && match pol_expression p with None => true | Some _ => false end
  else
    (pol_version p =? 2) && (len (pol_requirements p) =? 0)
    && match pol_expression p with
       | Some e => expr_wf e && (node_count e <=? max_policy_requirements limits)
       | None => false
       end.

Section parser_facts.
Context `{SerdeJsonLaws, Base64Url}.

Lemma contains_key_elem obj k : contains_key obj k = true ↔ k ∈ map fst obj.
Proof.
  unfold contains_key. rewrite bool_decide_eq_true.
  induction obj as [|[k' v] obj IH]; simpl; [split; [by intros []|set_solver]|].
  case_bool_decide; [subst; split; [left|by eexists]|]. rewrite IH, elem_of_cons. naive_solver.
Qed.

Lemma reject_extra_keys_Ok obj allowed u :
  reject_extra_keys obj allowed = Ok u ↔ ∀ k, k ∈ map fst obj → k ∈ allowed.
Proof.
  unfold reject_extra_keys. destruct (forallb _ obj) eqn:E.
  - split; [|by destruct u]. intros _ k Hk. apply list_elem_of_fmap in Hk as (p & -> & Hp).
    apply forallb_Forall in E. rewrite Forall_forall in E. by apply E, bool_decide_eq_true in Hp.
  - split; [done|]. intros Hall. apply forallb_false in E as (p & Hin & E).
    apply bool_decide_eq_false in E. destruct E. by apply Hall, list_elem_of_fmap_2.
Qed.

Lemma req_string_Ok obj key s :
  req_string obj key = Ok s ↔ ∃ v, get obj key = Some v ∧ json_view v = JString s.
Proof.
  unfold req_string. split.
  - destruct (get obj key) as [v|]; [|done]. destruct (json_view v) eqn:E; try done.
    intros [= ->]. by exists v.
  - by intros (v & -> & ->).
Qed.

Lemma req_u64_bound obj key n : req_u64 obj key = Ok n → n <= u64_max.
Proof.
  unfold req_u64, as_u64. intros Hr. simplify_result.
  destruct (json_view a) eqn:E; simplify_eq. by eapply json_u64.
Qed.

Lemma opt_string_wf obj key o : opt_string obj key = Ok o → opt_nonempty o = true.
Proof.
  unfold opt_string. destruct (get obj key) as [v|]; [|by intros [= <-]].
  destruct (json_view v); try done. destruct (negb (sempty s)) eqn:E; [|done]. by intros [= <-].
Qed.

Lemma require_keyref_wf obj key s : require_keyref obj key = Ok s → is_supported_keyref s = true.
Proof.
  unfold require_keyref. intros Hr. simplify_result.
  destruct (is_supported_keyref a) eqn:E; simplify_eq/=; done.
Qed.

Lemma require_proof_ref_wf obj key s :
  require_proof_ref obj key = Ok s → is_ok (check_proof_ref_id s) = true.
Proof.
  unfold require_proof_ref. intros Hr. simplify_result.
  destruct (check_proof_ref_id a) eqn:E; simplify_eq. by rewrite E.
Qed.

Lemma field_value_wf obj v :
  field_value obj = Ok v → match v with FUint n => n <=? u64_max | _ => true end = true.
Proof.
  unfold field_value. destruct (get obj "value") as [j|]; [|done].
  destruct (json_view j) eqn:E; intros Hv; simplify_result; try done.
  apply N.leb_le. by eapply json_u64.
Qed.

Lemma with_field_Ok {A} obj key (read : object_t → string → Result A) make r :
  with_field obj key read make = Ok r → ∃ x, read obj key = Ok x ∧ r = make x.
Proof. unfold with_field. intros Hr. simplify_result. eauto. Qed.

Lemma parse_claim_field_wf obj r :
  parse_claim_field obj = Ok r → requirement_wf r = true ∧ is_v2_only r = true.
Proof.
  unfold parse_claim_field. intros Hr.
  apply bind_Ok in Hr as (? & _ & Hr). apply bind_Ok in Hr as (ty & Hty & Hr).
  apply bind_Ok in Hr as (sub & Hsub & Hr). apply bind_Ok in Hr as (field & Hf & Hr).
  destruct (sempty field || _) eqn:Hlen; [done|]. case_bool_decide as Hft; [done|].
  apply bind_Ok in Hr as (ops & _ & Hr). apply bind_Ok in Hr as (op & _ & Hr).
  apply bind_Ok in Hr as (value & Hv & Hr). destruct (op_allowed op value) eqn:Hop; simplify_eq.
  split; [|done]. simpl. apply orb_false_iff in Hlen as [He Hl].
  rewrite (opt_string_wf _ _ _ Hty), (opt_string_wf _ _ _ Hsub), He, Hop, bool_decide_eq_false_2 by done.
  rewrite (field_value_wf _ _ Hv). apply N.ltb_ge in Hl. by rewrite (proj2 (N.leb_le _ _) Hl).
Qed.

(** One arm of the dispatch on the type name. *)
Lemma dispatch_ind (t lit : string) (m k : Result Requirement) (P : Requirement → Prop) :
  (t = lit → ∀ r, m = Ok r → P r) → (∀ r, k = Ok r → P r) →
  ∀ r, (if bool_decide (t = lit) then m else k) = Ok r → P r.
Proof. intros Hm Hk r. case_bool_decide; auto. Qed.

Definition leaf_ok (v1 : bool) (r : Requirement) : Prop :=
  requirement_wf r = true ∧ (v1 = true → is_v2_only r = false).

Lemma plain_ok obj r0 v1 :
  leaf_ok v1 r0 → ∀ r, plain obj r0 = Ok r → leaf_ok v1 r.
Proof. unfold plain. intros Hr0 r Hr. by simplify_result. Qed.
Lemma with_field_ok {A} v1 obj key (read : object_t → string → Result A) make :
  (∀ x, read obj key = Ok x → leaf_ok v1 (make x)) →
  ∀ r, with_field obj key read make = Ok r → leaf_ok v1 r.
Proof. intros Hm r (x & Hx & ->)%with_field_Ok. auto. Qed.

(** Soundness of the leaf parser. *)
Lemma parse_requirement_inner_wf obj v1 r :
  parse_requirement_inner obj v1 = Ok r → leaf_ok v1 r.
Proof.
  unfold parse_requirement_inner, parse_leaf. intros Hr. apply bind_Ok in Hr as (t & _ & Hr).
  destruct (v1 && _) eqn:Hv1; [done|].
  assert (t ∈ V2_ONLY → v1 = false) as Hv.
  { intros Ht. destruct v1; [|done]. by apply bool_decide_eq_false in Hv1. }
  clear Hv1. revert r Hr.
  repeat (apply dispatch_ind; [intros ->|]); [..|done];
    try (assert (v1 = false) as -> by (apply Hv, (bool_decide_unpack _); vm_compute; exact I));
    clear Hv; try (apply plain_ok; done);
    try (apply with_field_ok; intros x Hx; split; [|done]; simpl;
         eauto using require_keyref_wf, require_proof_ref_wf).
  - by eapply N.leb_le, req_u64_bound.
  - intros r Hr. simplify_result. split; [|done]. simpl.
    by rewrite (require_keyref_wf _ _ _ Ha1), (require_keyref_wf _ _ _ Ha2), (opt_string_wf _ _ _ Ha0).
  - intros r Hr. simplify_result. destruct (sempty a0) eqn:E0, (sempty a1) eqn:E1; simplify_eq/=.
    split; [|done]. simpl. by rewrite E0, E1.
  - intros r Hr. apply bind_Ok in Hr as (? & _ & Hr). apply bind_Ok in Hr as (ns & _ & Hr).
    destruct (sempty ns) eqn:He; [done|]. simpl in Hr. destruct (128 <? slen ns) eqn:Hl; [done|].
    simplify_result. split; [|done]. simpl. apply N.ltb_ge, N.leb_le in Hl. rewrite He, Hl.
    by eapply N.leb_le, req_u64_bound.
  - intros r Hr. apply parse_claim_field_wf in Hr as [? _]. by split.
Qed.

(** The budget: a parsed expression costs its node count. *)
Lemma parse_items_spec parse (Q : PolicyExpr → Prop) items b out b' :
  (∀ v b e b', parse v b = Ok (e, b') → Q e ∧ b = b' + node_count e) →
  parse_items parse items b = Ok (out, b') →
  Forall Q out ∧ length out = length items ∧ b = b' + sum_list (map node_count out).
Proof.
  intros Hp. revert b out. induction items as [|v items IH]; intros b out Hi; simpl in Hi.
  - simplify_eq. split_and!; [done..|simpl; lia].
  - apply bind_Ok in Hi as ([e b1] & He & Hi). apply bind_Ok in Hi as ([es b2] & Hes & Hi).
    simplify_eq. apply Hp in He as [HQ ->]. apply IH in Hes as (HF & Hl & ->).
    split_and!; [by constructor|simpl; congruence|simpl; lia].
Qed.

Lemma len_eq {A B} (l : list A) (k : list B) : length l = length k → len l = len k.
Proof. unfold len. lia. Qed.

Lemma forallb_expr_wf cs : Forall (λ e, expr_wf e = true) cs → forallb expr_wf cs = true.
Proof. apply forallb_Forall. Qed.

Lemma parse_expression_wf fuel v b e b' :
  parse_expression fuel v b = Ok (e, b') → expr_wf e = true ∧ b = b' + node_count e.
Proof.
  revert v b e b'. induction fuel as [|fuel IH]; intros v b e b' He; simpl in He.
  { by destruct (b =? 0). }
  destruct (N.eqb_spec b 0) as [|Hb]; [done|].
  apply bind_Ok in He as (obj & _ & He). destruct (contains_key obj "type").
  { apply bind_Ok in He as (r & Hr%parse_requirement_inner_wf & He). simplify_eq.
    split; [apply Hr|simpl; lia]. }
  destruct (connectives obj) as [|kind [|]]; [done| |done].
  apply bind_Ok in He as (_ & _ & He). apply bind_Ok in He as (body & _ & He).
  destruct (bool_decide (kind = "all") || bool_decide (kind = "any")).
  { apply bind_Ok in He as (items & _ & He). destruct (len items =? 0) eqn:Hne; [done|].
    apply bind_Ok in He as ([out b1] & Hout & He). simplify_eq.
    eapply parse_items_spec in Hout as (HF & Hl & Hb1); [|exact IH].
    apply forallb_expr_wf in HF. rewrite <- (len_eq _ _ Hl) in Hne.
    case_bool_decide; simpl; rewrite Hne, HF; (split; [done|lia]). }
  case_bool_decide.
  { apply bind_Ok in He as ([c b1] & Hc & He). simplify_eq. apply IH in Hc as [Hc Hb1].
    simpl. split; [done|lia]. }
  apply bind_Ok in He as (t & _ & He). apply bind_Ok in He as (_ & _ & He).
  apply bind_Ok in He as (k & Hk & He). apply bind_Ok in He as (of_ & _ & He).
  apply bind_Ok in He as (options & _ & He). destruct (len options =? 0); [done|].
  destruct ((k =? 0) || (len options <? k)) eqn:Hkn; [done|].
  apply bind_Ok in He as ([out b1] & Hout & He). simplify_eq.
  eapply parse_items_spec in Hout as (HF & Hl & Hb1); [|exact IH].
  apply forallb_expr_wf in HF. apply req_u64_bound in Hk. simpl. rewrite HF.
  rewrite <- (len_eq _ _ Hl) in Hkn.
  apply orb_false_iff in Hkn as [Hk0 Hkl]. apply N.eqb_neq in Hk0. apply N.ltb_ge in Hkl.
  split; [|lia]. rewrite !andb_true_iff, !N.leb_le. split_and!; lia || done.
Qed.

(** Any fuel from the budget up gives the same result. *)
Lemma parse_items_ext (p q : json → N → Result (PolicyExpr * N)) items b :
  (∀ v b' e b'', q v b' = Ok (e, b'') → b'' <= b') →
  (∀ v b', b' <= b → p v b' = q v b') → parse_items p items b = parse_items q items b.
Proof.
  intros Hle. revert b. induction items as [|v items IH]; intros b Hpq; simpl; [done|].
  rewrite Hpq by done. destruct (q v b) as [[e b1]|] eqn:Hq; [|done]. simpl.
  rewrite IH; [done|]. intros v' b' Hb'. apply Hpq. apply Hle in Hq. lia.
Qed.

Lemma parse_expression_fuel fuel fuel' v b :
  (N.to_nat b <= fuel)%nat → (N.to_nat b <= fuel')%nat →
  parse_expression fuel v b = parse_expression fuel' v b.
Proof.
  revert fuel' v b. induction fuel as [|fuel IH]; intros fuel' v b Hf Hf'.
  { assert (b = 0) as -> by lia. by destruct fuel'. }
  destruct (N.eqb_spec b 0) as [->|Hb]; [by destruct fuel'|].
  destruct fuel' as [|fuel']; [lia|]. simpl. destruct (N.eqb_spec b 0) as [|_]; [done|].
  assert (∀ v b', b' <= b - 1 → parse_expression fuel v b' = parse_expression fuel' v b') as Hpq.
  { intros v' b' Hb'. apply IH; lia. }
  assert (∀ items, parse_items (parse_expression fuel) items (b - 1) =
                   parse_items (parse_expression fuel') items (b - 1)) as Hitems.
  { intros items. apply parse_items_ext; [|done].
    intros ? ? ? ? [_ ->]%parse_expression_wf. lia. }
  destruct (as_object v) as [obj|]; [|done]. simpl. destruct (contains_key obj "type"); [done|].
  destruct (connectives obj) as [|kind [|]]; [done| |done].
  destruct (reject_extra_keys _ _); [|done]. simpl. destruct (get obj kind) as [body|]; [|done]. simpl.
  destruct (bool_decide (kind = "all") || bool_decide (kind = "any")).
  { destruct (as_array body); [|done]. simpl. by rewrite Hitems. }
  case_bool_decide; [by rewrite Hpq|].
  destruct (as_object body) as [t|]; [|done]. simpl. destruct (reject_extra_keys _ _); [|done]. simpl.
  destruct (req_u64 t "k"); [|done]. simpl. destruct (get t "of") as [o|]; [|done]. simpl.
  destruct (as_array o); [|done]. simpl. by rewrite Hitems.
Qed.

(** * The documents of a policy

    The schema of policy documents, independent of the parser: which entries an
    object has for each requirement, connective and policy version.  An object is
    a finite map, so the order of its entries does not matter. *)

(** The entries of the document of a requirement. *)
Definition leaf_entries (r : Requirement) : list (string * FieldValue) :=
  let opt key o := match o with Some s => [(key, FText s)] | None => [] end in
  match r with
  | SignatureValid => [("type", FText "signature_valid")]
  | IssuerTrusted i => [("type", FText "issuer_trusted"); ("issuer", FText i)]
  | IssuerExcluded i => [("type", FText "issuer_excluded"); ("issuer", FText i)]
  | RelationshipExists t => [("type", FText "relationship_exists"); ("relationship", FText t)]
  | NotExpired => [("type", FText "not_expired")]
  | NotRevoked => [("type", FText "not_revoked")]
  | NotSuperseded => [("type", FText "not_superseded")]
  | EvidencePresent k => [("type", FText "evidence_present"); ("kind", FText k)]
  | TransparencyPresent => [("type", FText "transparency_present")]
  | ProofFresh n => [("type", FText "proof_fresh"); ("max_age_seconds", FUint n)]
  | DelegatedAuthority root issuer scope =>
      ("type", FText "delegated_authority") :: ("root", FText root) :: ("issuer", FText issuer)
      :: opt "scope" scope
  | IdentityBound a b => [("type", FText "identity_bound"); ("a", FText a); ("b", FText b)]
  | TransparencyInclusion l => [("type", FText "transparency_inclusion"); ("log", FText l)]
  | NoConflictingEvidence => [("type", FText "no_conflicting_evidence")]
  | VocabularyAccepted ns n =>
      [("type", FText "vocabulary_accepted"); ("ns", FText ns); ("max_version", FUint n)]
  | EvidenceUsable k => [("type", FText "evidence_usable"); ("kind", FText k)]
  | EvidenceBound k => [("type", FText "evidence_bound"); ("kind", FText k)]
  | RequiresReference i => [("type", FText "requires_reference"); ("id", FText i)]
  | ForbidsReference i => [("type", FText "forbids_reference"); ("id", FText i)]
  | ClaimField ty subject field op value =>
      ("type", FText "claim_field") :: ("field", FText field) :: ("op", FText (FieldOp.as_str op))
      :: ("value", value) :: opt "claim_type" ty ++ opt "subject" subject
  end.

Definition view_of (x : FieldValue) : JsonView json :=
  match x with FText s => JString s | FUint n => JNumber (Some n) | FBool b => JBool b end.
Fixpoint assoc (q : list (string * FieldValue)) (key : string) : option FieldValue :=
  match q with
  | [] => None
  | (k, x) :: q' => if bool_decide (k = key) then Some x else assoc q' key
  end.

(** [obj] has the scalar [x] under [key]. *)
Definition holds (obj : object_t) (key : string) (x : FieldValue) : Prop :=
  ∃ v, get obj key = Some v ∧ json_view v = view_of x.
(** [obj] has exactly the entries [q]. *)
Definition spells (obj : object_t) (q : list (string * FieldValue)) : Prop :=
  ∀ key, match assoc q key with Some x => holds obj key x | None => get obj key = None end.
(** [v] is an object with exactly the entries [entries]. *)
Definition object_doc (v : json) (entries : object_t) : Prop :=
  ∃ obj, json_view v = JObject obj ∧ ∀ key, get obj key = get entries key.

Definition requirement_doc (v : json) (r : Requirement) : Prop :=
  ∃ obj, json_view v = JObject obj ∧ spells obj (leaf_entries r).

Inductive expression_doc : json → PolicyExpr → Prop :=
| doc_leaf v r : requirement_doc v r → expression_doc v (Leaf r)
| doc_all v body items cs :
    object_doc v [("all", body)] → json_view body = JArray items →
    Forall2 expression_doc items cs → expression_doc v (All cs)
| doc_any v body items cs :
    object_doc v [("any", body)] → json_view body = JArray items →
    Forall2 expression_doc items cs → expression_doc v (Any cs)
| doc_not v body c :
    object_doc v [("not", body)] → expression_doc body c → expression_doc v (Not c)
| doc_threshold v t kv body k items cs :
    object_doc v [("threshold", t)] → object_doc t [("k", kv); ("of", body)] →
    json_view kv = JNumber (Some k) → json_view body = JArray items →
    Forall2 expression_doc items cs → expression_doc v (Threshold k cs).

Definition policy_doc (v : json) (p : Policy) : Prop :=
  ∃ version id body,
    json_view version = JNumber (Some (pol_version p)) ∧ json_view id = JString (pol_id p) ∧
    if pol_version p =? 1 then
      object_doc v [("policy_version", version); ("policy_id", id); ("requirements", body)] ∧
      ∃ items, json_view body = JArray items ∧ Forall2 requirement_doc items (pol_requirements p)
    else
      object_doc v [("policy_version", version); ("policy_id", id); ("expression", body)] ∧
      ∃ e, pol_expression p = Some e ∧ expression_doc body e.

(** ** What the readers of fields find *)

Lemma get_None_keys obj key : get obj key = None ↔ key ∉ map fst obj.
Proof.
  rewrite <- contains_key_elem. unfold contains_key. rewrite bool_decide_eq_true.
  destruct (get obj key); naive_solver.
Qed.
Lemma assoc_None_keys q key : assoc q key = None ↔ key ∉ map fst q.
Proof.
  induction q as [|[k x] q IH]; simpl; [set_solver|].
  case_bool_decide; [set_solver|]. rewrite IH. set_solver.
Qed.
Lemma assoc_elem q key x : assoc q key = Some x → (key, x) ∈ q.
Proof.
  induction q as [|[k y] q IH]; simpl; [done|]. case_bool_decide; [|set_solver].
  intros [= ->]. subst. left.
Qed.
Lemma closed_get obj allowed u key :
  reject_extra_keys obj allowed = Ok u → key ∉ allowed → get obj key = None.
Proof. intros Hc Hk. apply get_None_keys. rewrite reject_extra_keys_Ok in Hc. auto. Qed.

Lemma req_string_holds obj key s : req_string obj key = Ok s ↔ holds obj key (FText s).
Proof. apply req_string_Ok. Qed.
Lemma req_u64_holds obj key n : req_u64 obj key = Ok n ↔ holds obj key (FUint n).
Proof.
  unfold req_u64, as_u64, holds. split.
  - intros Hr. simplify_result. exists a. destruct (json_view a); simplify_eq/=.
    destruct (get obj key); naive_solver.
  - intros (v & -> & Hv). simpl. by rewrite Hv.
Qed.
Lemma opt_string_holds obj key o :
  opt_string obj key = Ok o ↔
  opt_nonempty o = true ∧ match o with Some s => holds obj key (FText s) | None => get obj key = None end.
Proof.
  split.
  - intros Ho. split; [by eapply opt_string_wf|]. revert Ho. unfold opt_string, holds.
    destruct (get obj key) as [v|]; [|by intros [= <-]].
    destruct (json_view v) eqn:E; try done. destruct (negb (sempty s)); [|done].
    intros [= <-]. eauto.
  - unfold opt_string. destruct o as [s|]; simpl; [|by intros [_ ->]].
    intros (Hs & v & -> & ->). simpl. by rewrite Hs.
Qed.
Lemma require_keyref_holds obj key s :
  require_keyref obj key = Ok s ↔ holds obj key (FText s) ∧ is_supported_keyref s = true.
Proof.
  rewrite <- req_string_holds. unfold require_keyref.
  destruct (req_string obj key) as [s'|] eqn:E; simpl; [|by split; [|intros [? _]]].
  destruct (is_supported_keyref s') eqn:E'; simpl; (split; [|intros [[= ->] ?]]); congruence || by intros [= ->].
Qed.
Lemma require_proof_ref_holds obj key s :
  require_proof_ref obj key = Ok s ↔ holds obj key (FText s) ∧ is_ok (check_proof_ref_id s) = true.
Proof.
  rewrite <- req_string_holds. unfold require_proof_ref.
  destruct (req_string obj key) as [s'|] eqn:E; simpl; [|by split; [|intros [? _]]].
  destruct (check_proof_ref_id s') eqn:E'; simpl; (split; [|intros [[= ->] Hs]; rewrite E' in Hs]); try done.
  intros [= ->]. by rewrite E'.
Qed.
Lemma field_value_holds obj x : field_value obj = Ok x ↔ holds obj "value" x.
Proof.
  unfold field_value, holds. destruct (get obj "value") as [v|]; [|naive_solver].
  split; [|intros (? & [= <-] & ->); by destruct x].
  destruct (json_view v) as [| |[]| | |] eqn:E; try done; intros [= <-]; eauto.
Qed.

(** The entries an object has when it is closed over [allowed] and the named
    fields were read. *)
Lemma spells_intro obj allowed u q :
  reject_extra_keys obj allowed = Ok u → Forall (λ p, holds obj p.1 p.2) q →
  Forall (λ k, k ∈ map fst q ∨ get obj k = None) allowed → spells obj q.
Proof.
  intros Hc Hq Hall key. rewrite Forall_forall in Hq. rewrite Forall_forall in Hall.
  destruct (assoc q key) as [x|] eqn:E; [by apply (Hq (key, x)), assoc_elem|].
  apply assoc_None_keys in E. destruct (decide (key ∈ allowed)) as [Hk|Hk].
  - by destruct (Hall _ Hk).
  - by eapply closed_get.
Qed.

Section spelled.
Context (obj : object_t) (q : list (string * FieldValue)) (Hq : spells obj q).

Lemma spelled_holds key x : assoc q key = Some x → holds obj key x.
Proof. intros Ha. generalize (Hq key). by rewrite Ha. Qed.
Lemma spelled_string key s : assoc q key = Some (FText s) → req_string obj key = Ok s.
Proof. intros. by apply req_string_holds, spelled_holds. Qed.
Lemma spelled_u64 key n : assoc q key = Some (FUint n) → req_u64 obj key = Ok n.
Proof. intros. by apply req_u64_holds, spelled_holds. Qed.
Lemma spelled_opt key o :
  opt_nonempty o = true → assoc q key = FText <$> o → opt_string obj key = Ok o.
Proof.
  intros Ho Ha. apply opt_string_holds. split; [done|]. generalize (Hq key). rewrite Ha. by destruct o.
Qed.
Lemma spelled_value x : assoc q "value" = Some x → field_value obj = Ok x.
Proof. intros. by apply field_value_holds, spelled_holds. Qed.
Lemma spelled_keyref key s :
  assoc q key = Some (FText s) → is_supported_keyref s = true → require_keyref obj key = Ok s.
Proof. intros. apply require_keyref_holds. eauto using spelled_holds. Qed.
Lemma spelled_proof_ref key s :
  assoc q key = Some (FText s) → is_ok (check_proof_ref_id s) = true →
  require_proof_ref obj key = Ok s.
Proof. intros. apply require_proof_ref_holds. eauto using spelled_holds. Qed.
Lemma spelled_closed allowed :
  forallb (λ k, bool_decide (k ∈ allowed)) (map fst q) = true →
  reject_extra_keys obj allowed = Ok tt.
Proof.
  intros Hall. apply reject_extra_keys_Ok. intros k Hk.
  rewrite forallb_Forall, Forall_forall in Hall. apply (bool_decide_eq_true (k ∈ allowed)), Hall.
  destruct (decide (k ∈ map fst q)) as [|Hn%assoc_None_keys]; [done|].
  specialize (Hq k). rewrite Hn in Hq. by apply get_None_keys in Hq.
Qed.

Lemma spelled_plain r :
  forallb (λ k, bool_decide (k ∈ ["type"])) (map fst q) = true → plain obj r = Ok r.
Proof. intros Hc. unfold plain. by rewrite (spelled_closed _ Hc). Qed.
Lemma spelled_field {A} key (read : object_t → string → Result A) make x :
  forallb (λ k, bool_decide (k ∈ ["type"; key])) (map fst q) = true → read obj key = Ok x →
  with_field obj key read make = Ok (make x).
Proof. intros Hc Hx. unfold with_field. rewrite (spelled_closed _ Hc). simpl. by rewrite Hx. Qed.
End spelled.

Lemma op_parse_as_str op : FieldOp.parse (FieldOp.as_str op) = Some op.
Proof. by destruct op. Qed.
Lemma op_parse_Some s op : FieldOp.parse s = Some op → s = FieldOp.as_str op.
Proof. unfold FieldOp.parse. intros Hp. repeat case_bool_decide; by simplify_eq/=. Qed.

Lemma spelled_claim_field obj ty subject field op value :
  let r := ClaimField ty subject field op value in
  spells obj (leaf_entries r) → requirement_wf r = true → parse_claim_field obj = Ok r.
Proof.
  intros r Hs Hwf. subst r. simpl in Hwf. rewrite !andb_true_iff in Hwf.
  destruct Hwf as [[[[[[Hty Hsub] Hne] Hlen] Hft] Hop] _].
  unfold parse_claim_field.
  rewrite (spelled_closed _ _ Hs) by (by destruct ty, subject). simpl.
  rewrite (spelled_opt _ _ Hs "claim_type" ty); [|done|by destruct ty, subject]. simpl.
  rewrite (spelled_opt _ _ Hs "subject" subject); [|done|by destruct ty, subject]. simpl.
  rewrite (spelled_string _ _ Hs "field" field) by done. simpl.
  apply negb_true_iff in Hne. rewrite Hne. apply N.leb_le, N.ltb_ge in Hlen. rewrite Hlen. simpl.
  apply negb_true_iff in Hft. rewrite Hft.
  rewrite (spelled_string _ _ Hs "op" (FieldOp.as_str op)) by done. simpl.
  rewrite op_parse_as_str. simpl. rewrite (spelled_value _ _ Hs value) by done. simpl. by rewrite Hop.
Qed.

(** The arm each requirement is parsed by accepts its spelling. *)
Lemma parse_leaf_spelled obj r :
  spells obj (leaf_entries r) → requirement_wf r = true → parse_leaf obj (type_str r) = Ok r.
Proof.
  intros Hs Hwf. destruct r; simpl in Hwf;
    try (apply (spelled_plain _ _ Hs); reflexivity);
    try (apply (spelled_field _ _ Hs); [reflexivity|];
         first [by apply (spelled_string _ _ Hs) | by apply (spelled_keyref _ _ Hs)
               |by apply (spelled_u64 _ _ Hs) | by apply (spelled_proof_ref _ _ Hs)]).
  - rewrite !andb_true_iff in Hwf. destruct Hwf as [[Hr Hi] Hsc].
    change (parse_leaf obj (type_str _)) with
      (_ ← reject_extra_keys obj ["type"; "root"; "issuer"; "scope"];
       scope ← opt_string obj "scope"; root ← require_keyref obj "root";
       issuer ← require_keyref obj "issuer"; Ok (DelegatedAuthority root issuer scope)).
    rewrite (spelled_closed _ _ Hs) by (by destruct scope). simpl.
    rewrite (spelled_opt _ _ Hs "scope" scope); [|done|by destruct scope]. simpl.
    rewrite (spelled_keyref _ _ Hs "root" root) by done. simpl.
    by rewrite (spelled_keyref _ _ Hs "issuer" issuer) by done.
  - apply andb_true_iff in Hwf as [Ha Hb].
    change (parse_leaf obj (type_str _)) with
      (_ ← reject_extra_keys obj ["type"; "a"; "b"]; a ← req_string obj "a"; b ← req_string obj "b";
       if sempty a || sempty b then PolicyErr else Ok (IdentityBound a b) : Result Requirement).
    rewrite (spelled_closed _ _ Hs), (spelled_string _ _ Hs "a" a), (spelled_string _ _ Hs "b" b) by done.
    simpl. apply negb_true_iff in Ha, Hb. by rewrite Ha, Hb.
  - rewrite !andb_true_iff in Hwf. destruct Hwf as [[Hne Hlen] Hn].
    change (parse_leaf obj (type_str _)) with
      (_ ← reject_extra_keys obj ["type"; "ns"; "max_version"]; ns ← req_string obj "ns";
       if sempty ns || (128 <? slen ns) then PolicyErr else
       max_version ← req_u64 obj "max_version"; Ok (VocabularyAccepted ns max_version) : Result Requirement).
    rewrite (spelled_closed _ _ Hs), (spelled_string _ _ Hs "ns" ns) by done. simpl.
    apply negb_true_iff in Hne. apply N.leb_le, N.ltb_ge in Hlen. rewrite Hne, Hlen. simpl.
    by rewrite (spelled_u64 _ _ Hs "max_version" max_version).
  - by apply spelled_claim_field.
Qed.

(** ** The leaf parser reads the document of its result *)

Ltac leaf_spelled Hc :=
  apply (spells_intro _ _ _ _ Hc);
  [repeat (apply Forall_cons; split; simpl); [..|apply Forall_nil; done]; try done
  |repeat (apply Forall_cons; split); [..|apply Forall_nil; done]; try (left; set_solver)].

Lemma plain_spells obj r :
  req_string obj "type" = Ok (type_str r) → leaf_entries r = [("type", FText (type_str r))] →
  ∀ r', plain obj r = Ok r' → spells obj (leaf_entries r').
Proof.
  unfold plain. intros Ht%req_string_holds Hr r' Hp. apply bind_Ok in Hp as (u & Hc & [= <-]).
  rewrite Hr. by leaf_spelled Hc.
Qed.
Lemma with_field_spells {A} obj key (read : object_t → string → Result A) make (view : A → FieldValue) :
  (∀ x, leaf_entries (make x) = [("type", FText (type_str (make x))); (key, view x)]) →
  (∀ x, read obj key = Ok x → holds obj key (view x)) →
  (∀ x, req_string obj "type" = Ok (type_str (make x))) →
  ∀ r, with_field obj key read make = Ok r → spells obj (leaf_entries r).
Proof.
  unfold with_field. intros Hm Hread Ht r Hr. apply bind_Ok in Hr as (u & Hc & Hr).
  apply bind_Ok in Hr as (x & Hx%Hread & [= <-]). specialize (Ht x). apply req_string_holds in Ht.
  rewrite Hm. by leaf_spelled Hc.
Qed.

Lemma parse_claim_field_spells obj r :
  req_string obj "type" = Ok "claim_field" → parse_claim_field obj = Ok r → spells obj (leaf_entries r).
Proof.
  unfold parse_claim_field. intros Ht%req_string_holds Hr.
  apply bind_Ok in Hr as (u & Hc & Hr). apply bind_Ok in Hr as (ty & [_ Hty]%opt_string_holds & Hr).
  apply bind_Ok in Hr as (sub & [_ Hsub]%opt_string_holds & Hr).
  apply bind_Ok in Hr as (field & Hf%req_string_holds & Hr).
  destruct (sempty field || _); [done|]. case_bool_decide; [done|].
  apply bind_Ok in Hr as (ops & Hops%req_string_holds & Hr). apply bind_Ok in Hr as (op & Hop & Hr).
  apply bind_Ok in Hr as (value & Hv%field_value_holds & Hr).
  destruct (op_allowed op value); simplify_eq.
  assert (ops = FieldOp.as_str op) as -> by (apply ok_or_Ok in Hop; by apply op_parse_Some).
  destruct ty, sub; leaf_spelled Hc; by right.
Qed.

Lemma parse_leaf_spells obj t r :
  req_string obj "type" = Ok t → parse_leaf obj t = Ok r → spells obj (leaf_entries r).
Proof.
  intros Ht. unfold parse_leaf. revert r.
  repeat (apply dispatch_ind; [intros ->|]); [..|done];
    try (by apply plain_spells);
    try (eapply (with_field_spells _ _ _ _ FText); [done| |done]; intros x Hx;
         first [by apply req_string_holds|by apply require_keyref_holds in Hx as []
               |by apply require_proof_ref_holds in Hx as []]).
  - eapply (with_field_spells _ _ _ _ FUint); [done| |done]. intros x. apply req_u64_holds.
  - intros r Hr. apply req_string_holds in Ht. apply bind_Ok in Hr as (u & Hc & Hr).
    apply bind_Ok in Hr as (scope & [_ Hs]%opt_string_holds & Hr).
    apply bind_Ok in Hr as (root & [Hroot _]%require_keyref_holds & Hr).
    apply bind_Ok in Hr as (issuer & [Hi _]%require_keyref_holds & [= <-]).
    destruct scope; leaf_spelled Hc. by right.
  - intros r Hr. apply req_string_holds in Ht. apply bind_Ok in Hr as (u & Hc & Hr).
    apply bind_Ok in Hr as (a & Ha%req_string_holds & Hr).
    apply bind_Ok in Hr as (b & Hb%req_string_holds & Hr). destruct (_ || _); simplify_eq.
    leaf_spelled Hc.
  - intros r Hr. apply req_string_holds in Ht. apply bind_Ok in Hr as (u & Hc & Hr).
    apply bind_Ok in Hr as (ns & Hns%req_string_holds & Hr). destruct (_ || _); [done|].
    apply bind_Ok in Hr as (n & Hn%req_u64_holds & [= <-]). leaf_spelled Hc.
  - intros r. by apply parse_claim_field_spells.
Qed.

(** The type names of version 2 are those of the requirements of version 2. *)
Lemma v2_only_type_str r : type_str r ∈ V2_ONLY ↔ is_v2_only r = true.
Proof.
  split; intros Hr; destruct r; try done;
    first [exfalso; revert Hr; apply (bool_decide_eq_false_1 _); vm_compute; reflexivity
          |apply (bool_decide_unpack _); vm_compute; exact I].
Qed.

Lemma parse_requirement_inner_iff obj v1 r :
  parse_requirement_inner obj v1 = Ok r ↔ spells obj (leaf_entries r) ∧ leaf_ok v1 r.
Proof.
  split.
  - intros Hr. split; [|by eapply parse_requirement_inner_wf]. unfold parse_requirement_inner in Hr.
    apply bind_Ok in Hr as (t & Ht & Hr). destruct (v1 && _); [done|]. by eapply parse_leaf_spells.
  - intros (Hs & Hwf & Hv1). unfold parse_requirement_inner.
    rewrite (spelled_string _ _ Hs "type" (type_str r)) by (by destruct r). simpl.
    destruct (v1 && _) eqn:E; [|by apply parse_leaf_spelled].
    apply andb_true_iff in E as [-> E%bool_decide_eq_true%v2_only_type_str].
    by rewrite Hv1 in E.
Qed.

Lemma parse_requirement_iff v r :
  parse_requirement v = Ok r ↔ requirement_doc v r ∧ requirement_wf r = true ∧ is_v2_only r = false.
Proof.
  unfold parse_requirement, requirement_doc, as_object. split.
  - intros Hr. apply bind_Ok in Hr as (obj & Ho & (Hs & Hwf & Hv1)%parse_requirement_inner_iff).
    destruct (json_view v); simplify_eq/=. split_and!; [by eexists|done|by apply Hv1].
  - intros ((obj & -> & Hs) & Hwf & Hv1). simpl. by apply parse_requirement_inner_iff.
Qed.

(** ** Expressions *)

Lemma object_doc_intro v obj entries u :
  json_view v = JObject obj → reject_extra_keys obj (map fst entries) = Ok u →
  Forall (λ p, get obj p.1 = Some p.2) entries → object_doc v entries.
Proof.
  intros Hv Hc Hall. exists obj. split; [done|]. intros key.
  destruct (get entries key) as [x|] eqn:E.
  - clear Hc. induction Hall as [|[k y] entries Hk _ IH]; simpl in *; [done|].
    case_bool_decide; naive_solver.
  - apply get_None_keys in E. by eapply closed_get.
Qed.
Lemma object_doc_elim v entries :
  object_doc v entries →
  ∃ obj, as_object v = Some obj ∧ reject_extra_keys obj (map fst entries) = Ok tt ∧
    ∀ key, get obj key = get entries key.
Proof.
  intros (obj & Hv & Hg). exists obj. unfold as_object. rewrite Hv. split_and!; [done| |done].
  apply reject_extra_keys_Ok. intros k Hk. destruct (decide (k ∈ map fst entries)) as [|Hn]; [done|].
  apply get_None_keys in Hn. rewrite <- Hg in Hn. by apply get_None_keys in Hn.
Qed.

Lemma as_object_Ok v (e : ErrorCode.t) obj : ok_or (as_object v) e = Ok obj → json_view v = JObject obj.
Proof. unfold as_object. destruct (json_view v); naive_solver. Qed.
Lemma as_array_Ok v (e : ErrorCode.t) items : ok_or (as_array v) e = Ok items → json_view v = JArray items.
Proof. unfold as_array. destruct (json_view v); naive_solver. Qed.

(** The four single-entry documents. *)
Lemma connective_elim v kind body :
  object_doc v [(kind, body)] → kind ∈ ["all"; "any"; "not"; "threshold"] →
  ∃ obj, as_object v = Some obj ∧ contains_key obj "type" = false ∧
    connectives obj = [kind] ∧ reject_extra_keys obj [kind] = Ok tt ∧ get obj kind = Some body.
Proof.
  intros (obj & Hv & Hc & Hg)%object_doc_elim Hk. exists obj. split; [done|].
  assert (∀ key, contains_key obj key = contains_key [(kind, body)] key) as Hkey.
  { intros key. unfold contains_key. by rewrite Hg. }
  rewrite Hkey, Hg. unfold connectives. rewrite (List.filter_ext _ _ Hkey).
  rewrite !elem_of_cons, elem_of_nil in Hk.
  destruct Hk as [->|[->|[->|[->|[]]]]]; split_and!; done.
Qed.
Lemma connectives_elem obj kind : connectives obj = [kind] → kind ∈ ["all"; "any"; "not"; "threshold"].
Proof.
  intros Hc. assert (kind ∈ connectives obj) as Hk by (rewrite Hc; set_solver).
  apply list_elem_of_In, filter_In in Hk as [Hk _]. by apply list_elem_of_In.
Qed.

Lemma parse_items_doc parse items b out b' :
  (∀ v b e b', parse v b = Ok (e, b') → expression_doc v e) →
  parse_items parse items b = Ok (out, b') → Forall2 expression_doc items out.
Proof.
  intros Hp. revert b out. induction items as [|v items IH]; intros b out Hi; simpl in Hi.
  - simplify_eq. constructor.
  - apply bind_Ok in Hi as ([e b1] & He & Hi). apply bind_Ok in Hi as ([es b2] & Hes & Hi).
    simplify_eq. constructor; eauto.
Qed.

Lemma parse_expression_doc fuel v b e b' :
  parse_expression fuel v b = Ok (e, b') → expression_doc v e.
Proof.
  revert v b e b'. induction fuel as [|fuel IH]; intros v b e b' He; simpl in He.
  { by destruct (b =? 0). }
  destruct (b =? 0); [done|].
  apply bind_Ok in He as (obj & Ho%as_object_Ok & He). destruct (contains_key obj "type").
  { apply bind_Ok in He as (r & [Hs _]%parse_requirement_inner_iff & He). simplify_eq.
    constructor. by exists obj. }
  destruct (connectives obj) as [|kind [|]] eqn:Hk; [done| |done]. apply connectives_elem in Hk.
  apply bind_Ok in He as (u & Hc & He). apply bind_Ok in He as (body & Hg%ok_or_Ok & He).
  assert (object_doc v [(kind, body)]) as Hd by (eapply object_doc_intro; [done..|by repeat constructor]).
  rewrite !elem_of_cons, elem_of_nil in Hk. destruct Hk as [->|[->|[->|[->|[]]]]]; simpl in He.
  1,2: apply bind_Ok in He as (items & Hb%as_array_Ok & He); destruct (len items =? 0); [done|];
    apply bind_Ok in He as ([out b1] & Hout%parse_items_doc & He); [|done]; simplify_eq; by econstructor.
  - apply bind_Ok in He as ([c b1] & Hcc%IH & He). simplify_eq. by econstructor.
  - apply bind_Ok in He as (t & Ht%as_object_Ok & He). apply bind_Ok in He as (u' & Hc' & He).
    apply bind_Ok in He as (k & (kv & Hkv & Hk)%req_u64_holds & He).
    apply bind_Ok in He as (of_ & Hof%ok_or_Ok & He). apply bind_Ok in He as (options & Hb%as_array_Ok & He).
    destruct (len options =? 0); [done|]. destruct (_ || _); [done|].
    apply bind_Ok in He as ([out b1] & Hout%parse_items_doc & He); [|done]. simplify_eq.
    eapply (doc_threshold _ body kv of_); [done| |done..].
    eapply object_doc_intro; [done..|by repeat constructor].
Qed.

(** [v] is parsed to [e] under every large enough budget. *)
Definition parses_to (v : json) (e : PolicyExpr) : Prop :=
  ∀ fuel b, node_count e <= b → (N.to_nat b <= fuel)%nat →
    parse_expression fuel v b = Ok (e, b - node_count e).

Lemma node_count_pos e : 1 <= node_count e.
Proof. destruct e; simpl; lia. Qed.

Lemma parse_items_complete items cs fuel b :
  Forall2 parses_to items cs →
  sum_list (map node_count cs) <= b → (N.to_nat b <= fuel)%nat →
  parse_items (parse_expression fuel) items b = Ok (cs, b - sum_list (map node_count cs)).
Proof.
  intros HF. revert b. induction HF as [|v e items cs Hv _ IH]; intros b Hb Hf; simpl in *.
  { by rewrite N.sub_0_r. }
  rewrite Hv by lia. simpl. rewrite IH by lia. simpl. do 2 f_equal. lia.
Qed.

Lemma items_parse_to items cs :
  Forall (λ e, ∀ v, expression_doc v e → expr_wf e = true → parses_to v e) cs →
  Forall2 expression_doc items cs → forallb expr_wf cs = true → Forall2 parses_to items cs.
Proof.
  intros IH HF. revert IH. induction HF as [|v e items cs Hv _ IHF]; simpl; [constructor|].
  intros [He Hcs]%Forall_cons. rewrite andb_true_iff. intros [Hwf Hwfs]. constructor; auto.
Qed.

Ltac open_connective Hd obj Hg :=
  let Ho := fresh in let Ht := fresh in let Hc := fresh in let Hr := fresh in
  apply connective_elim in Hd as (obj & Ho & Ht & Hc & Hr & Hg); [|set_solver];
  intros fuel b Hb Hf; destruct fuel as [|fuel]; [simpl in Hb; lia|];
  simpl; destruct (N.eqb_spec b 0) as [|_]; [simpl in Hb; lia|];
  rewrite Ho; simpl; rewrite Ht, Hc, Hr; simpl; rewrite Hg; simpl.

Lemma parse_expression_complete e v : expression_doc v e → expr_wf e = true → parses_to v e.
Proof.
  revert v. induction e as [r|cs IH|cs IH|c IH|k cs IH]; intros v Hd Hwf; simpl in Hwf; inversion_clear Hd.
  2,3: apply andb_true_iff in Hwf as [Hne%negb_true_iff Hwf];
    match goal with Hi : Forall2 _ _ _ |- _ => pose proof (items_parse_to _ _ IH Hi Hwf) as Hi' end;
    match goal with Ho : object_doc _ _ |- _ => open_connective Ho obj Hg end;
    unfold as_array; match goal with Ha : json_view _ = _ |- _ => rewrite Ha end;
    simpl;
    rewrite (len_eq _ _ (Forall2_length _ _ _ Hi')), Hne; simpl in Hb;
    rewrite (parse_items_complete _ _ _ _ Hi') by lia; simpl; do 2 f_equal; lia.
  - intros fuel b Hb Hf. destruct fuel as [|fuel]; [simpl in Hb; lia|]. simpl.
    destruct (N.eqb_spec b 0) as [|_]; [simpl in Hb; lia|].
    match goal with Hr : requirement_doc _ _ |- _ => destruct Hr as (obj & Hv & Hs) end.
    unfold as_object. rewrite Hv. simpl.
    assert (contains_key obj "type" = true) as ->.
    { unfold contains_key. apply bool_decide_eq_true.
      destruct (spelled_holds _ _ Hs "type" (FText (type_str r))) as (t & -> & _); [by destruct r|done]. }
    unfold parse_requirement_v2_leaf. by rewrite (proj2 (parse_requirement_inner_iff obj false r)).
  - match goal with Hc : expression_doc _ _ |- _ => pose proof (IH _ Hc Hwf) as Hbody end.
    match goal with Ho : object_doc _ _ |- _ => open_connective Ho obj Hg end.
    simpl in Hb. rewrite Hbody by lia. simpl. do 2 f_equal. lia.
  - rewrite !andb_true_iff, !N.leb_le in Hwf. destruct Hwf as [[[Hk1 Hkn] Hku] Hwf].
    match goal with Hi : Forall2 _ _ _ |- _ => pose proof (items_parse_to _ _ IH Hi Hwf) as Hi' end.
    match goal with Ho : object_doc _ [("k", _); _] |- _ =>
      apply object_doc_elim in Ho as (to & Hto & Htc & Htg) end.
    match goal with Ho : object_doc _ _ |- _ => open_connective Ho obj Hg end.
    rewrite Hto. simpl. simpl in Htc. rewrite Htc. simpl.
    rewrite (proj2 (req_u64_holds to "k" k)) by (eexists; rewrite Htg; done). simpl.
    rewrite Htg. simpl. unfold as_array.
    match goal with Ha : json_view _ = JArray _ |- _ => rewrite Ha end. simpl.
    rewrite (len_eq _ _ (Forall2_length _ _ _ Hi')).
    destruct (N.eqb_spec (len cs) 0) as [|_]; [lia|]. destruct (N.eqb_spec k 0) as [|_]; [lia|].
    rewrite (proj2 (N.ltb_ge _ _) Hkn). simpl. simpl in Hb.
    rewrite (parse_items_complete _ _ _ _ Hi') by lia. simpl. do 2 f_equal. lia.
Qed.

(** The same document under another budget: exactly the node count decides. *)
Lemma parse_items_budget (p p' : json → N → Result (PolicyExpr * N)) items B out B' b :
  (∀ v B e B', p v B = Ok (e, B') → ∀ b', b' <= b →
     p' v b' = if node_count e <=? b' then Ok (e, b' - node_count e) else Err ErrorCode.LimitExceeded) →
  parse_items p items B = Ok (out, B') →
  parse_items p' items b =
    if sum_list (map node_count out) <=? b then Ok (out, b - sum_list (map node_count out))
    else Err ErrorCode.LimitExceeded.
Proof.
  revert B out b. induction items as [|v items IH]; intros B out b Hp Hi; simpl in *.
  { simplify_eq. simpl. rewrite N.sub_0_r. by destruct b. }
  apply bind_Ok in Hi as ([e B1] & He & Hi). apply bind_Ok in Hi as ([es B2] & Hes & Hi).
  simplify_eq. simpl. rewrite (Hp _ _ _ _ He b) by done.
  destruct (N.leb_spec (node_count e) b) as [Hle|Hgt]; simpl.
  - rewrite (IH _ _ (b - node_count e) ltac:(intros; eapply Hp; [done|lia]) Hes).
    destruct (N.leb_spec (sum_list (map node_count es)) (b - node_count e)),
      (N.leb_spec (node_count e + sum_list (map node_count es)) b); simpl; try lia; [|done].
    do 2 f_equal. lia.
  - rewrite (proj2 (N.leb_gt _ _)) by lia. done.
Qed.

Lemma parse_expression_budget fuel v B e B' :
  parse_expression fuel v B = Ok (e, B') →
  ∀ fuel' b, (N.to_nat b <= fuel')%nat →
  parse_expression fuel' v b =
    if node_count e <=? b then Ok (e, b - node_count e) else Err ErrorCode.LimitExceeded.
Proof.
  revert v B e B'. induction fuel as [|fuel IH]; intros v B e B' He fuel' b Hb.
  { simpl in He. by destruct (B =? 0). }
  destruct (N.eqb_spec b 0) as [->|Hb0].
  { pose proof (node_count_pos e). rewrite (proj2 (N.leb_gt _ _)) by lia. by destruct fuel'. }
  destruct fuel' as [|fuel']; [lia|]. simpl in *. destruct (B =? 0); [done|].
  destruct (N.eqb_spec b 0) as [|_]; [done|].
  assert (∀ v B e B', parse_expression fuel v B = Ok (e, B') → ∀ b', b' <= b - 1 →
    parse_expression fuel' v b' =
      if node_count e <=? b' then Ok (e, b' - node_count e) else Err ErrorCode.LimitExceeded) as Hp.
  { intros ? ? ? ? Hq b' Hb'. eapply IH; [exact Hq|lia]. }
  assert (∀ n, (n <=? b - 1) = (1 + n <=? b)) as Hle.
  { intros n. destruct (N.leb_spec n (b - 1)), (N.leb_spec (1 + n) b); lia || done. }
  apply bind_Ok in He as (obj & -> & He). simpl. destruct (contains_key obj "type").
  { apply bind_Ok in He as (r & -> & He). simplify_eq. simpl. by rewrite (proj2 (N.leb_le _ _)) by lia. }
  destruct (connectives obj) as [|kind [|]]; [done| |done].
  apply bind_Ok in He as (u & -> & He). simpl. apply bind_Ok in He as (body & -> & He). simpl.
  destruct (bool_decide (kind = "all") || bool_decide (kind = "any")).
  { apply bind_Ok in He as (items & -> & He). simpl. destruct (len items =? 0); [done|].
    apply bind_Ok in He as ([out B1] & Hout & He). simplify_eq.
    rewrite (parse_items_budget _ _ _ _ _ _ _ Hp Hout), Hle.
    case_bool_decide; simpl; destruct (_ <=? b); simpl; try done; do 2 f_equal; lia. }
  case_bool_decide.
  { apply bind_Ok in He as ([c B1] & Hc & He). simplify_eq. rewrite (Hp _ _ _ _ Hc), Hle by done.
    simpl. destruct (_ <=? b); simpl; try done. do 2 f_equal. lia. }
  apply bind_Ok in He as (t & -> & He). simpl. apply bind_Ok in He as (u' & -> & He). simpl.
  apply bind_Ok in He as (k & -> & He). simpl. apply bind_Ok in He as (of_ & -> & He). simpl.
  apply bind_Ok in He as (options & -> & He). simpl. destruct (len options =? 0); [done|].
  destruct (_ || _); [done|]. apply bind_Ok in He as ([out B1] & Hout & He). simplify_eq.
  rewrite (parse_items_budget _ _ _ _ _ _ _ Hp Hout), Hle.
  simpl. destruct (_ <=? b); simpl; try done. do 2 f_equal. lia.
Qed.

(** ** Policies *)

Lemma requirements_doc_iff items reqs :
  mapM parse_requirement items = Ok reqs ↔
  Forall2 requirement_doc items reqs ∧
  forallb (λ r, requirement_wf r && negb (is_v2_only r)) reqs = true.
Proof.
  rewrite mapM_Ok. split.
  - intros HF. split; [eapply Forall2_impl; [exact HF|]; by intros v r [? _]%parse_requirement_iff|].
    apply forallb_Forall. induction HF as [|v r items reqs Hr _ IH]; constructor; [|done].
    apply parse_requirement_iff in Hr as (_ & -> & ->). done.
  - intros [HF Hwf%forallb_Forall]. induction HF as [|v r items reqs Hr _ IH]; [constructor|].
    apply Forall_cons in Hwf as [[Hwf Hv%negb_true_iff]%andb_true_iff Hwfs].
    constructor; [by apply parse_requirement_iff|auto].
Qed.

Lemma parse_policy_doc v limits p :
  parse_policy v limits = Ok p → policy_doc v p ∧ policy_wf limits p = true.
Proof.
  unfold parse_policy. intros Hp.
  apply bind_Ok in Hp as (root & Ho%as_object_Ok & Hp).
  apply bind_Ok in Hp as (version & (vv & Hvv & Hver)%req_u64_holds & Hp).
  apply bind_Ok in Hp as (id & (iv & Hiv & Hid)%req_string_holds & Hp).
  destruct (_ || _) eqn:Hlens; [done|].
  apply orb_false_iff in Hlens as [Hne Hlen]. apply N.ltb_ge, N.leb_le in Hlen.
  unfold policy_wf, policy_doc. destruct (N.eqb_spec version 1) as [->|_].
  - apply bind_Ok in Hp as (u & Hc & Hp). apply bind_Ok in Hp as (body & Hg%ok_or_Ok & Hp).
    apply bind_Ok in Hp as (items & Hb%as_array_Ok & Hp). destruct (len items =? 0) eqn:Hlen0; [done|].
    destruct (_ <? len items) eqn:Hmax; [done|].
    apply bind_Ok in Hp as (out & [HF Hwf]%requirements_doc_iff & [= <-]). simpl.
    apply N.ltb_ge, N.leb_le in Hmax.
    rewrite Hne, Hlen, Hwf, <- (len_eq _ _ (Forall2_length _ _ _ HF)), Hlen0, Hmax. split; [|done].
    exists vv, iv, body. split_and!; [done..| |by exists items].
    eapply object_doc_intro; [done..|by repeat constructor].
  - destruct (N.eqb_spec version 2) as [->|]; [|done]. apply bind_Ok in Hp as (u & Hc & Hp).
    destruct (contains_key root "requirements"); [done|].
    apply bind_Ok in Hp as (ev & Hg%ok_or_Ok & Hp). apply bind_Ok in Hp as ([e b] & He & [= <-]). simpl.
    destruct (parse_expression_wf _ _ _ _ _ He) as [-> Hb]. apply parse_expression_doc in He.
    rewrite Hne, Hlen, (proj2 (N.leb_le _ _)) by lia. split; [|done].
    exists vv, iv, ev. split_and!; [done..| |by exists e].
    eapply object_doc_intro; [done..|by repeat constructor].
Qed.

Lemma parse_policy_complete v limits p :
  policy_doc v p → policy_wf limits p = true → parse_policy v limits = Ok p.
Proof.
  destruct p as [version id reqs expr]. unfold policy_doc, policy_wf, parse_policy. simpl.
  intros (vv & iv & body & Hvv & Hiv & Hd). rewrite !andb_true_iff, negb_true_iff.
  intros [[Hne Hlen] Hbody]. apply N.leb_le, N.ltb_ge in Hlen.
  destruct (N.eqb_spec version 1) as [->|Hv1].
  - rewrite !andb_true_iff, negb_true_iff in Hbody. destruct Hbody as [[[Hlen0 Hmax] Hr] He].
    destruct expr; [done|]. apply N.leb_le, N.ltb_ge in Hmax.
    destruct Hd as [(root & Ho & Hc & Hg)%object_doc_elim (items & Hb & HF)]. rewrite Ho. simpl.
    rewrite (proj2 (req_u64_holds root "policy_version" 1)) by (exists vv; by rewrite Hg). simpl.
    rewrite (proj2 (req_string_holds root "policy_id" id)) by (exists iv; by rewrite Hg). simpl.
    simpl in Hc. rewrite Hne, Hlen, Hc, Hg. simpl. unfold as_array. rewrite Hb. simpl.
    rewrite (len_eq _ _ (Forall2_length _ _ _ HF)), Hlen0, Hmax.
    by rewrite (proj2 (requirements_doc_iff items reqs)).
  - rewrite !andb_true_iff in Hbody. destruct Hbody as [[Hv2%N.eqb_eq Hlen0] He]. subst version.
    destruct reqs; [|done].
    destruct Hd as [(root & Ho & Hc & Hg)%object_doc_elim (e & -> & Hd)]. rewrite Ho. simpl.
    apply andb_true_iff in He as [He Hmax%N.leb_le].
    rewrite (proj2 (req_u64_holds root "policy_version" 2)) by (exists vv; by rewrite Hg). simpl.
    rewrite (proj2 (req_string_holds root "policy_id" id)) by (exists iv; by rewrite Hg). simpl.
    simpl in Hc. rewrite Hne, Hlen, Hc. simpl. unfold contains_key. rewrite !Hg. simpl.
    by rewrite (parse_expression_complete e body).
Qed.

(** ** Every well-formed policy has a document *)

Lemma get_Permutation obj obj' key : NoDup (map fst obj) → obj' ≡ₚ obj → get obj' key = get obj key.
Proof.
  intros Hnd Hp. assert (NoDup (map fst obj')) as Hnd' by (by rewrite Hp). revert Hnd Hnd'.
  induction Hp as [|[k v] l l' _ IH|[k v] [k' v'] l|l l' l'' Hp IH Hp' IH']; simpl; [done|..].
  - intros [_ ?]%NoDup_cons [_ ?]%NoDup_cons. case_bool_decide; auto.
  - intros [Hk _]%NoDup_cons _. repeat case_bool_decide; subst; [|done..]. set_solver.
  - intros Hnd Hnd''. assert (NoDup (map fst l')) by (by rewrite Hp'). rewrite IH, IH'; done.
Qed.
Lemma object_doc_exists entries : NoDup (map fst entries) → ∃ v, object_doc v entries.
Proof.
  intros Hnd. destruct (json_object entries Hnd) as (v & entries' & Hv & Hp).
  exists v, entries'. split; [done|]. intros key. by apply get_Permutation.
Qed.

Lemma scalar_exists x : match x with FUint n => n <= u64_max | _ => True end → ∃ v, json_view v = view_of x.
Proof. destruct x; [intros _; apply json_string|apply json_number|intros _; apply json_bool]. Qed.
Lemma spells_exists q :
  Forall (λ p, match p.2 with FUint n => n <= u64_max | _ => True end) q →
  ∃ obj, map fst obj = map fst q ∧ spells obj q.
Proof.
  induction 1 as [|[k x] q Hx _ (obj & Hk & IH)]; [by exists []|].
  destruct (scalar_exists x Hx) as [v Hv]. exists ((k, v) :: obj). split; [simpl; by rewrite Hk|].
  intros key. unfold holds. simpl. case_bool_decide; [by exists v|apply IH].
Qed.

Lemma requirement_doc_exists r : requirement_wf r = true → ∃ v, requirement_doc v r.
Proof.
  intros Hwf. destruct (spells_exists (leaf_entries r)) as (obj & Hk & Hs).
  { destruct r; simpl in Hwf; repeat constructor; rewrite ?andb_true_iff, ?N.leb_le in Hwf; simpl;
      try done; try tauto.
    - destruct scope; repeat constructor.
    - destruct value; [done| |done]. destruct Hwf as [_ Hn]. by apply N.leb_le.
    - destruct claim_type, subject; repeat constructor. }
  destruct (object_doc_exists obj) as (v & obj' & Hv & Hg).
  { rewrite Hk. destruct r; repeat match goal with o : option string |- _ => destruct o end;
      apply (bool_decide_unpack _); vm_compute; exact I. }
  exists v, obj'. split; [done|]. intros key. unfold holds. rewrite Hg. apply Hs.
Qed.

Lemma docs_exist {A} (doc : json → A → Prop) (wf : A → bool) (l : list A) :
  Forall (λ x, wf x = true → ∃ v, doc v x) l → forallb wf l = true →
  ∃ body items, json_view body = JArray items ∧ Forall2 doc items l.
Proof.
  intros HF Hwf%forallb_Forall. assert (∃ items, Forall2 doc items l) as [items Hi].
  { induction HF as [|x l Hx _ IH]; [by exists []|]. apply Forall_cons in Hwf as [Hw Hws].
    destruct (Hx Hw) as [v Hv], (IH Hws) as [items Hi]. exists (v :: items). by constructor. }
  destruct (json_array items) as [body Hb]. eauto.
Qed.

Lemma expression_doc_exists e : expr_wf e = true → ∃ v, expression_doc v e.
Proof.
  induction e as [r|cs IH|cs IH|c IH|k cs IH]; intros Hwf; simpl in Hwf.
  - destruct (requirement_doc_exists r Hwf) as [v Hv]. exists v. by constructor.
  - apply andb_true_iff in Hwf as [_ Hwf]. destruct (docs_exist _ _ _ IH Hwf) as (body & items & Hb & Hi).
    destruct (object_doc_exists [("all", body)]) as [v Hv]; [apply NoDup_singleton|].
    exists v. by econstructor.
  - apply andb_true_iff in Hwf as [_ Hwf]. destruct (docs_exist _ _ _ IH Hwf) as (body & items & Hb & Hi).
    destruct (object_doc_exists [("any", body)]) as [v Hv]; [apply NoDup_singleton|].
    exists v. by econstructor.
  - destruct (IH Hwf) as [body Hb].
    destruct (object_doc_exists [("not", body)]) as [v Hv]; [apply NoDup_singleton|].
    exists v. by econstructor.
  - rewrite !andb_true_iff, !N.leb_le in Hwf. destruct Hwf as [[_ Hku] Hwf].
    destruct (docs_exist _ _ _ IH Hwf) as (body & items & Hb & Hi), (json_number k Hku) as [kv Hkv].
    destruct (object_doc_exists [("k", kv); ("of", body)]) as [t Ht].
    { apply (bool_decide_unpack _); vm_compute; exact I. }
    destruct (object_doc_exists [("threshold", t)]) as [v Hv]; [apply NoDup_singleton|].
    exists v. by econstructor.
Qed.

Lemma policy_doc_exists limits p : policy_wf limits p = true → ∃ v, policy_doc v p.
Proof.
  unfold policy_wf, policy_doc. rewrite !andb_true_iff. intros [_ Hb].
  destruct (json_string (pol_id p)) as [iv Hiv].
  destruct (N.eqb_spec (pol_version p) 1) as [Hv|_].
  - rewrite !andb_true_iff in Hb. destruct Hb as [[_ Hr] _].
    destruct (docs_exist requirement_doc (λ r, requirement_wf r && negb (is_v2_only r)) (pol_requirements p))
      as (body & items & Hbody & Hi); [|done|].
    { apply Forall_true. intros r [Hwf _]%andb_true_iff. by apply requirement_doc_exists. }
    destruct (json_number (pol_version p)) as [vv Hvv]; [rewrite Hv; unfold u64_max; lia|].
    destruct (object_doc_exists [("policy_version", vv); ("policy_id", iv); ("requirements", body)]) as [v Hd].
    { apply (bool_decide_unpack _); vm_compute; exact I. }
    exists v, vv, iv, body. eauto 10.
  - rewrite !andb_true_iff in Hb. destruct Hb as [[Hv%N.eqb_eq _] He].
    destruct (pol_expression p) as [e|]; [|done]. apply andb_true_iff in He as [He _].
    destruct (expression_doc_exists e He) as [body Hbody].
    destruct (json_number (pol_version p)) as [vv Hvv]; [rewrite Hv; unfold u64_max; lia|].
    destruct (object_doc_exists [("policy_version", vv); ("policy_id", iv); ("expression", body)]) as [v Hd].
    { apply (bool_decide_unpack _); vm_compute; exact I. }
    exists v, vv, iv, body. eauto 10.
Qed.


(** The expression budget is exact and the recursion terminates.  A
    document that parses at all costs exactly the node count of its tree: with
    at least that budget it parses to the same tree and leaves the rest, with
    less it is refused with [LimitExceeded], at every fuel from the budget up. *)
Theorem parse_expression_budget_exact fuel v big e rest
  (Hp : parse_expression fuel v big = Ok (e, rest)) :
  expr_wf e = true ∧ big = rest + node_count e ∧
  ∀ fuel' b, (N.to_nat b <= fuel')%nat →
    parse_expression fuel' v b =
      if node_count e <=? b then Ok (e, b - node_count e) else Err ErrorCode.LimitExceeded.
Proof.
  destruct (parse_expression_wf _ _ _ _ _ Hp) as [Hwf Hb]. split_and!; [done..|].
  by eapply parse_expression_budget.
Qed.
End parser_facts.

(** * The canonical form identifies the policy *)

(** The record of a requirement in canonical key order: shorter keys first. *)
Definition value_cbor (x : FieldValue) : CborValue :=
  match x with FText s => Text s | FUint n => Uint n | FBool b => Bool b end.
Definition requirement_record (r : Requirement) : list (string * CborValue) :=
  let type := ("type", Text (type_str r)) in
  let opt key o := match o with Some s => [(key, Text s)] | None => [] end in
  match r with
  | IssuerTrusted i | IssuerExcluded i => [type; ("issuer", Text i)]
  | RelationshipExists t => [type; ("relationship", Text t)]
  | EvidencePresent k | EvidenceUsable k | EvidenceBound k => [("kind", Text k); type]
  | ProofFresh n => [type; ("max_age_seconds", Uint n)]
  | DelegatedAuthority root issuer scope =>
      ("root", Text root) :: type :: opt "scope" scope ++ [("issuer", Text issuer)]
  | IdentityBound a b => [("a", Text a); ("b", Text b); type]
  | TransparencyInclusion l => [("log", Text l); type]
  | VocabularyAccepted ns n => [("ns", Text ns); type; ("max_version", Uint n)]
  | RequiresReference i | ForbidsReference i => [("id", Text i); type]
  | ClaimField ty subject field op value =>
      [("op", Text (FieldOp.as_str op)); type; ("field", Text field); ("value", value_cbor value)]
      ++ opt "subject" subject ++ opt "claim_type" ty
  | _ => [type]
  end.

Lemma requirement_to_cbor_record r :
  requirement_to_cbor r = Map (to_pairs (requirement_record r)) ∧
  sort_maps (requirement_to_cbor r) = Map (to_pairs (requirement_record r)).
Proof.
  destruct r; try destruct scope as [sc|]; try destruct value;
    try match goal with ty : option string |- _ => destruct ty end;
    try match goal with ty : option string |- _ => destruct ty end;
    split; vm_compute; reflexivity.
Qed.
Lemma sort_requirement r :
  sort_maps (requirement_to_cbor r) = Map (to_pairs (requirement_record r)).
Proof. apply requirement_to_cbor_record. Qed.
Lemma to_pairs_inj q q' : to_pairs q = to_pairs q' → q = q'.
Proof.
  revert q'. induction q as [|[] q IH]; intros [|[] q']; simpl; try done.
  intros [= -> -> Hq]. f_equal. by apply IH.
Qed.
Lemma op_as_str_inj op op' : FieldOp.as_str op = FieldOp.as_str op' → op = op'.
Proof. by destruct op, op'. Qed.
Lemma value_cbor_inj x y : value_cbor x = value_cbor y → x = y.
Proof. destruct x, y; simpl; congruence. Qed.

(** The type name and the record determine the requirement. *)
Lemma requirement_record_inj r r' : requirement_record r = requirement_record r' → r = r'.
Proof.
  destruct r, r'; simpl; intros Heq; try done; try congruence.
  - destruct scope, scope0; simpl in Heq; congruence.
  - injection Heq as Hop Hf Hv Hrest.
    apply op_as_str_inj in Hop as ->. apply value_cbor_inj in Hv as ->. subst.
    destruct claim_type, subject, claim_type0, subject0; simpl in Hrest; congruence.
Qed.

Lemma sort_connective kind body :
  sort_maps (Map [(Text kind, body)]) = Map [(Text kind, sort_maps body)].
Proof. done. Qed.
Lemma sort_threshold k cs :
  sort_maps (Map [(Text "k", Uint k); (Text "of", Array cs)]) =
  Map [(Text "k", Uint k); (Text "of", Array (map sort_maps cs))].
Proof. done. Qed.

(** A leaf is never a connective. *)
Lemma leaf_not_connective r kind body :
  kind ≠ "type" → Map (to_pairs (requirement_record r)) ≠ Map [(Text kind, body)].
Proof.
  intros Hk. destruct r; simpl; congruence.
Qed.

Lemma expression_to_cbor_inj e e' :
  sort_maps (expression_to_cbor e) = sort_maps (expression_to_cbor e') → e = e'.
Proof.
  assert (∀ cs cs', Forall (λ e, ∀ e', sort_maps (expression_to_cbor e) = sort_maps (expression_to_cbor e') →
    e = e') cs → map sort_maps (map expression_to_cbor cs) = map sort_maps (map expression_to_cbor cs') →
    cs = cs') as Hl.
  { intros cs cs' HF. revert cs'. induction HF as [|x cs Hx _ IH]; intros [|y cs']; simpl; try done.
    intros [= Hxy Hcs]. f_equal; auto. }
  revert e'. induction e as [r|cs IH|cs IH|c IH|k cs IH]; intros [r'|cs'|cs'|c'|k' cs'];
    cbn [expression_to_cbor];
    rewrite ?sort_connective, ?sort_threshold, ?sort_requirement, ?sort_array;
    intros Heq; try (exfalso; revert Heq; by apply leaf_not_connective);
    try (exfalso; symmetry in Heq; revert Heq; by apply leaf_not_connective); try discriminate.
  - injection Heq as Heq. f_equal. by apply requirement_record_inj, to_pairs_inj.
  - injection Heq as Heq. f_equal. auto.
  - injection Heq as Heq. f_equal. auto.
  - injection Heq as Heq. f_equal. auto.
  - injection Heq as -> Heq. f_equal. auto.
Qed.

Lemma requirements_to_cbor_inj l l' :
  map sort_maps (map requirement_to_cbor l) = map sort_maps (map requirement_to_cbor l') → l = l'.
Proof.
  revert l'. induction l as [|r l IH]; intros [|r' l']; cbn [map]; try done.
  rewrite !sort_requirement. intros [= Hr Hl]. f_equal; [|auto].
  by apply requirement_record_inj, to_pairs_inj.
Qed.

(** The policy record in canonical key order. *)
Lemma sort_policy id version key body :
  key = "expression" ∨ key = "requirements" →
  sort_maps (Map [(Text "policy_id", Text id); (Text "policy_version", Uint version); (Text key, body)]) =
  Map [(Text "policy_id", Text id); (Text key, sort_maps body); (Text "policy_version", Uint version)].
Proof. by intros [->| ->]. Qed.

Lemma policy_to_cbor_inj `{Base64Url} limits p q :
  policy_wf limits p = true → policy_wf limits q = true →
  sort_maps (policy_to_cbor p) = sort_maps (policy_to_cbor q) → p = q.
Proof.
  assert (∀ p, policy_wf limits p = true →
    (pol_version p = 1 ∧ pol_expression p = None) ∨
    (pol_version p = 2 ∧ pol_requirements p = [] ∧ is_Some (pol_expression p))) as Hshape.
  { intros [v id reqs e]. unfold policy_wf. simpl. destruct (N.eqb_spec v 1) as [->|Hv];
      rewrite !andb_true_iff; [intros [_ [_ He]]; left; by destruct e|].
    rewrite N.eqb_eq. intros [_ [[-> Hr] He]]. right. by destruct reqs, e. }
  intros Hp Hq. apply Hshape in Hp, Hq.
  destruct p as [v id reqs e], q as [v' id' reqs' e']. simpl in Hp, Hq.
  unfold policy_to_cbor. cbn [pol_id pol_version pol_requirements pol_expression].
  destruct Hp as [[-> ->]|(-> & -> & [x ->])], Hq as [[-> ->]|(-> & -> & [y ->])];
    cbn [N.eqb Pos.eqb app];
    rewrite !sort_policy, ?sort_array by auto; intros [= -> Heq]; f_equal.
  - by apply requirements_to_cbor_inj.
  - f_equal. by apply expression_to_cbor_inj.
Qed.

Section policy_hash.
Context `{Base64UrlLaws, Sha2}.

(** The policy hash identifies the policy.  Two well-formed policies with
    the same canonical hash are the same policy (version, id, and every
    requirement or the whole expression tree), or their canonical encodings are
    an explicit SHA-256 collision. *)
Theorem policy_hash_binds limits levels p q
  (Hlim : limits_wf limits = true)
  (Hp : policy_wf limits p = true) (Hq : policy_wf limits q = true)
  (Hpe : encodable limits levels (policy_to_cbor p) = true)
  (Hqe : encodable limits levels (policy_to_cbor q) = true)
  (Hh : canonical_policy_hash p = canonical_policy_hash q) :
  p = q ∨ (policy_to_canonical_cbor p ≠ policy_to_canonical_cbor q ∧
           sha256 (policy_to_canonical_cbor p) = sha256 (policy_to_canonical_cbor q)).
Proof.
  assert (∀ p, policy_wf limits p = true → pol_version p = 1 ∨ pol_version p = 2) as Hv.
  { intros [v id reqs e]. unfold policy_wf. simpl. destruct (N.eqb_spec v 1) as [->|Hv]; [by left|].
    rewrite !andb_true_iff, N.eqb_eq. by intros [_ [[-> _] _]]; right. }
  assert (sha256 (policy_to_canonical_cbor p) = sha256 (policy_to_canonical_cbor q)) as Hsha.
  { apply b64_inj. unfold canonical_policy_hash, b64u_nopad in Hh. apply str_app_inj in Hh.
    assert (pretty 1 = "1" ∧ pretty 2 = "2") as [E1 E2] by done.
    destruct (Hv p Hp) as [Hvp|Hvp], (Hv q Hq) as [Hvq|Hvq]; rewrite Hvp, Hvq in Hh;
      try (by apply str_app_inj, str_app_inj in Hh); rewrite E1, E2 in Hh; discriminate Hh. }
  destruct (decide (policy_to_canonical_cbor p = policy_to_canonical_cbor q)) as [He|]; [left|by right].
  eapply policy_to_cbor_inj; [done..|].
  pose proof (decode_encode limits Hlim levels _ [] Hpe) as Hd1.
  pose proof (decode_encode limits Hlim levels _ [] Hqe) as Hd2.
  unfold policy_to_canonical_cbor, encode_canonical in He. rewrite He in Hd1. congruence.
Qed.
End policy_hash.

Module PolicySamples.
(** At least one of two: a named relationship, or a fresh proof that is not
    excluded by reference. *)
Definition expr : PolicyExpr :=
  Threshold 1 [Leaf (RelationshipExists "SETTLES"); Not (Leaf (ProofFresh 60))].
Definition policy : Policy :=
  {| pol_version := 2; pol_id := "p"; pol_requirements := []; pol_expression := Some expr |}.
Definition document : Toy.tree :=
  Toy.TObject [("threshold", Toy.TObject [("k", Toy.TUint 1); ("of", Toy.TArray
    [ Toy.TObject [("type", Toy.TText "relationship_exists"); ("relationship", Toy.TText "SETTLES")];
      Toy.TObject [("not", Toy.TObject [("type", Toy.TText "proof_fresh");
                                        ("max_age_seconds", Toy.TUint 60)])] ])])].
Definition root_document : Toy.tree :=
  Toy.TObject [("expression", document); ("policy_id", Toy.TText "p"); ("policy_version", Toy.TUint 2)].
End PolicySamples.

Section policy_witnesses.
Import Toy PolicySamples.


(** Exchanged names are exchanged policies: the document of a trusted issuer is not
    the document of an excluded one. *)
Example trusted_is_not_excluded i v :
  requirement_doc v (IssuerTrusted i) → ~ requirement_doc v (IssuerExcluded i).
Proof.
  intros (obj & Hv & Hs) (obj' & Hv' & Hs'). rewrite Hv in Hv'. injection Hv' as <-.
  destruct (Hs "type") as (t & Ht & Hn), (Hs' "type") as (t' & Ht' & Hn').
  rewrite Ht in Ht'. injection Ht' as <-. rewrite Hn in Hn'. done.
Qed.

End policy_witnesses.
