(* ===== verification/State.v ===== *)
(** State: the policy view of a verified proof,
    [crates/proof-policy/src/state.rs].

    [state_from_report_and_proof] projects a report and the proof it describes
    onto [VerifiedState], the only thing policy evaluation reads.  The lemmas
    say what the projection of a pipeline run contains: its statements are
    authentic attestations of the proof, its active ids are those the lifecycle
    machine found active, and its evidence bindings are digest matches. *)
From Stdlib Require Import Strings.Byte NArith ZArith Lia.
From S2P Require Import Prelude Core External Cbor Schema Graph Ident Claim Cose.
From S2P Require Import Report Pipeline PipelineFacts.

(** * The view *)

Record ClaimSummary : Set := mkClaimSummary {
  cs_attestation_id : string;
  cs_issuer : string;
  cs_subject : string;
  cs_claim_type : string;
  cs_fields : list (string * MetaValue);
}.

Record EdgeFact : Set := mkEdgeFact {
  ef_from : string;
  ef_rel_type : string;
  ef_to : string;
  ef_attester : option string;
  ef_attestation : option string;
}.

Record Delegation : Set := mkDelegation {
  dl_attestation_id : string;
  dl_delegator : string;
  dl_delegatee : string;
  dl_scope : option string;
  dl_issued_at : N;
  dl_expires_at : option N;
}.

Record EvidenceBinding : Set := mkEvidenceBinding {
  eb_attestation_id : string;
  eb_evidence_id : string;
}.

Record IdentityBinding : Set := mkIdentityBinding {
  ib_attestation_id : string;
  ib_asserter : string;
  ib_subject : string;
  ib_equivalent : string;
}.

Record EvidenceStatusEntry : Set := mkEvidenceStatusEntry {
  ee_id : string;
  ee_kind : string;
  ee_status : EvidenceStatus.t;
  ee_attestation_ref : option string;
}.

Record VerifiedState : Set := mkState {
  vs_proof_id : string;
  vs_crypto_valid : bool;
  vs_evidence_valid : bool;
  vs_status_inputs_valid : bool;
  vs_verified_issuers : list string;
  vs_attestation_ids : list string;
  vs_active_attestation_ids : list string;
  vs_superseded_ids : list string;
  vs_attestation_times : list (N * option N);
  vs_rel_types : list string;
  vs_evidence_kinds : list string;
  vs_proof_created_at : N;
  vs_claims : list ClaimSummary;
  vs_edges : list EdgeFact;
  vs_delegations : list Delegation;
  vs_identity_bindings : list IdentityBinding;
  vs_evidence_bindings : list EvidenceBinding;
  vs_withdrawn_ids : list string;
  vs_vocabularies_used : list string;
  vs_vocabularies_declared : list VocabularyDecl;
  vs_conflicts : list ConflictRecord;
  vs_referenced_proofs : list string;
  vs_evidence_statuses : list EvidenceStatusEntry;
}.

Definition has_transparency (st : VerifiedState) : bool :=
  bool_decide (EvidenceKind.TRANSPARENCY_RECEIPT ∈ vs_evidence_kinds st).

(** * The projection *)

(** The ids of the passed SIGNATURES records. *)
Definition signed_ids (report : VerifyReport) : gset string :=
  list_to_set (omap (λ c, strip_prefix "att:" (chk_object c))
    (List.filter (λ c, chk_ok c && bool_decide (chk_stage c = "SIGNATURES")) (vr_checks report))).

(** The ids of the lifecycle records with a given status. *)
Definition ids_with_status (s : LifecycleStatus.t) (report : VerifyReport) : list string :=
  omap (λ l, strip_prefix "att:" (lc_object l))
    (List.filter (λ l, bool_decide (lc_status l = s)) (vr_lifecycle report)).

(** [fields.iter().find_map(..)]: the first text value under [key]. *)
Fixpoint find_map_text (fields : list (string * MetaValue)) (key : string) : option string :=
  match fields with
  | [] => None
  | (k, v) :: fields' =>
      if bool_decide (k = key) then
        match v with MText s => Some s | _ => find_map_text fields' key end
      else find_map_text fields' key
  end.

Section projection.
Context `{Base64Url, Sha2}.

(** The attestations with their ids. *)
Definition with_ids (proof : Proof_) : list (string * AttestationContent) :=
  map (λ a, (member_attestation_id a, sa_content a)) (prf_attestations proof).

(** The second loop: verified attestations that are no embedded status. *)
Definition statements (report : VerifyReport) (proof : Proof_) : list (string * AttestationContent) :=
  List.filter (λ p : string * AttestationContent,
      bool_decide (p.1 ∈ signed_ids report) && negb (bool_decide (p.1 ∈ vr_status_objects report)))
    (with_ids proof).

Definition issuer_by_id (report : VerifyReport) (proof : Proof_) : gmap string string :=
  hash_map (map (λ p, (p.1, att_issuer p.2))
    (List.filter (λ p : string * AttestationContent, bool_decide (p.1 ∈ signed_ids report))
      (with_ids proof))).

Definition claim_summary (p : string * AttestationContent) : ClaimSummary := {|
  cs_attestation_id := p.1; cs_issuer := att_issuer p.2; cs_subject := att_subject p.2;
  cs_claim_type := claim_type (att_claim p.2); cs_fields := claim_fields (att_claim p.2) |}.

Definition delegation_of (p : string * AttestationContent) : option Delegation :=
  if bool_decide (claim_type (att_claim p.2) = CLAIM_DELEGATE) then
    Some {| dl_attestation_id := p.1; dl_delegator := att_issuer p.2;
            dl_delegatee := att_subject p.2;
            dl_scope := find_map_text (claim_fields (att_claim p.2)) "scope";
            dl_issued_at := att_issued_at p.2; dl_expires_at := att_expires_at p.2 |}
  else None.

Definition identity_binding_of (p : string * AttestationContent) : option IdentityBinding :=
  if bool_decide (claim_type (att_claim p.2) = CLAIM_DELEGATE) then None
  else if bool_decide (claim_type (att_claim p.2) = CLAIM_IDENTITY_BIND) then
    match find_map_text (claim_fields (att_claim p.2)) "equivalent" with
    | Some equivalent =>
        Some {| ib_attestation_id := p.1; ib_asserter := att_issuer p.2;
                ib_subject := att_subject p.2; ib_equivalent := equivalent |}
    | None => None
    end
  else None.

(** One iteration of the evidence-binding loop. *)
Definition evidence_binding_of (report : VerifyReport) (active : list string)
    (digests : gmap string string) (p : string * AttestationContent) : option EvidenceBinding :=
  if negb (bool_decide (p.1 ∈ signed_ids report)) || negb (bool_decide (p.1 ∈ active)) then None else
  if negb (is_statement p) then None else
  match evidence_digest_hex (att_claim p.2) with
  | Some (Ok claimed) =>
      match att_evidence_ref p.2 with
      | Some eref =>
          if bool_decide (digests !! eref = Some claimed)
          then Some {| eb_attestation_id := p.1; eb_evidence_id := eref |} else None
      | None => None
      end
  | _ => None
  end.

Definition evidence_bindings (report : VerifyReport) (proof : Proof_) : list EvidenceBinding :=
  omap (evidence_binding_of report (ids_with_status LifecycleStatus.Active report)
          (digest_by_evd (zip (prf_evidence proof) (map member_evidence_id (prf_evidence proof)))))
    (with_ids proof).

Definition edge_fact (report : VerifyReport) (proof : Proof_) (r : Relationship) : EdgeFact := {|
  ef_from := rel_from r; ef_rel_type := rel_type r; ef_to := rel_to r;
  ef_attester :=
    match rel_attestation_ref r with
    | Some aref =>
        if bool_decide (aref ∈ signed_ids report) then issuer_by_id report proof !! aref else None
    | None => None
    end;
  ef_attestation := rel_attestation_ref r |}.

(** The namespaces of the member labels, collected in a set and sorted. *)
Definition vocabularies_used (proof : Proof_) : list string :=
  sort_by str_leb (elements (list_to_set (C := gset string)
    (map (λ e, vocabulary_ns (ev_type e)) (prf_events proof)
     ++ map (λ a, vocabulary_ns (claim_type (att_claim (sa_content a)))) (prf_attestations proof)
     ++ map (λ e, vocabulary_ns (evd_kind e)) (prf_evidence proof)
     ++ map (λ r, vocabulary_ns (rel_type r)) (prf_relationships proof)
     ++ [ vocabulary_ns (prop_kind (prf_proposition proof));
          vocabulary_ns (prop_predicate (prf_proposition proof)) ]))).

Definition evidence_statuses (report : VerifyReport) (proof : Proof_) : list EvidenceStatusEntry :=
  let by_object :=
    hash_map (omap (λ rec, match strip_prefix "evd:" (es_object rec) with
                           | Some id => Some (id, es_status rec)
                           | None => None
                           end) (vr_evidence_status report)) in
  map (λ e,
    {| ee_id := member_evidence_id e; ee_kind := evd_kind e;
       ee_status := default EvidenceStatus.Unknown (by_object !! member_evidence_id e);
       ee_attestation_ref := evd_attestation_ref e |}) (prf_evidence proof).

Definition state_from_report_and_proof (report : VerifyReport) (proof : Proof_)
    : Result VerifiedState :=
  rid ← ok_or (vr_proof_id report) ErrorCode.SchemaViolation;
  if bool_decide (rid ≠ prf_proof_id proof) then Err ErrorCode.SchemaViolation else
  let sts := statements report proof in
  Ok {|
    vs_proof_id := rid;
    vs_crypto_valid := bool_decide (cryptographic_validity report = Validity.Valid);
    vs_evidence_valid := bool_decide (evidence_validity report = Validity.Valid);
    vs_status_inputs_valid := status_inputs_valid report;
    vs_verified_issuers := map (λ p, att_issuer p.2) sts;
    vs_attestation_ids := map fst sts;
    vs_active_attestation_ids := ids_with_status LifecycleStatus.Active report;
    vs_superseded_ids := ids_with_status LifecycleStatus.Superseded report;
    vs_attestation_times := map (λ p, (att_issued_at p.2, att_expires_at p.2)) sts;
    vs_rel_types := map rel_type (prf_relationships proof);
    vs_evidence_kinds := map evd_kind (prf_evidence proof);
    vs_proof_created_at := prf_created_at proof;
    vs_claims := map claim_summary sts;
    vs_edges := map (edge_fact report proof) (prf_relationships proof);
    vs_delegations := omap delegation_of sts;
    vs_identity_bindings := omap identity_binding_of sts;
    vs_evidence_bindings := evidence_bindings report proof;
    vs_withdrawn_ids := vr_withdrawn_ids report;
    vs_vocabularies_used := vocabularies_used proof;
    vs_vocabularies_declared := prf_vocabularies proof;
    vs_conflicts := vr_conflicts report;
    vs_referenced_proofs := prf_referenced_proofs proof;
    vs_evidence_statuses := evidence_statuses report proof |}.
End projection.

(** * The projection of a pipeline run *)

Section run_projection.
Context `{Base64UrlLaws, Sha2, SignatureSchemes, HashOrderLaws}.

Lemma passed_signature ctx a c :
  c ∈ (attestation_outcome ctx a).1 → chk_ok c = true → chk_stage c = "SIGNATURES" →
  authentic ctx a ∧ chk_object c = "att:" +:+ member_attestation_id a.
Proof.
  destruct (attestation_outcome_spec ctx a) as [[Ha ->]|[_ (c' & -> & Hf)]]; simpl.
  - rewrite !elem_of_cons, elem_of_nil. by intros [->|[->|[]]].
  - intros ->%list_elem_of_singleton. congruence.
Qed.

Lemma signature_records ctx proof c :
  c ∈ (signatures_stage ctx proof (map member_attestation_id (prf_attestations proof))).1 →
  chk_ok c = true → chk_stage c = "SIGNATURES" → is_Some (strip_prefix "att:" (chk_object c)) →
  ∃ a, a ∈ prf_attestations proof ∧ authentic ctx a ∧ chk_object c = "att:" +:+ member_attestation_id a.
Proof.
  rewrite signatures_stage_eq. simpl. rewrite elem_of_app. intros [Hc|Hc] Hok Hst Hobj.
  - apply list_elem_of_In, in_concat in Hc as (l & Hl & Hin). apply in_map_iff in Hl as (a & <- & Ha).
    apply list_elem_of_In in Hin, Ha.
    destruct (passed_signature ctx a c Hin Hok Hst). eauto.
  - destruct (_ =? 0); [|by apply elem_of_nil in Hc]. apply list_elem_of_singleton in Hc as ->.
    by destruct Hobj.
Qed.

Lemma preamble_tagged ctx proof :
  tagged ["PARSE"; "SCHEMA"] ([check_ok "PARSE" "proof:bytes"]
    ++ [check_ok "SCHEMA" ("proof:" +:+ prf_proof_id proof)] ++ vocabulary_notes ctx proof).
Proof.
  rewrite !tagged_app, !tagged_cons. split_and!; [stage_solve|apply tagged_nil|stage_solve|apply tagged_nil|].
  unfold vocabulary_notes. apply tagged_app. split.
  - destruct (negb _); [|apply tagged_nil]. apply tagged_map. intros. stage_solve.
  - destruct (negb _); [|apply tagged_nil]. apply tagged_app.
    split; [apply tagged_omap|apply tagged_map]; intros; repeat case_match; simplify_eq; stage_solve.
Qed.

(** The signed ids of a completed run are those of its authentic attestations. *)
Lemma signed_ids_spec bytes ctx r proof ids rid later id :
  full_run bytes ctx r proof ids rid later →
  id ∈ signed_ids r ↔ ∃ a, a ∈ prf_attestations proof ∧ authentic ctx a ∧ id = member_attestation_id a.
Proof.
  intros [_ _ _ Hl Hr]. unfold signed_ids. rewrite elem_of_list_to_set, list_elem_of_omap.
  setoid_rewrite list_elem_of_In. setoid_rewrite filter_In. setoid_rewrite <- list_elem_of_In.
  setoid_rewrite andb_true_iff. setoid_rewrite bool_decide_eq_true. rewrite Hr. cbn [vr_checks finalize].
  split.
  - intros (c & (Hc & Hok & Hst) & Hobj).
    assert (c ∈ (signatures_stage ctx proof (map member_attestation_id (prf_attestations proof))).1) as Hin.
    { apply later_stages_tagged in Hl.
      apply elem_of_app in Hc as [Hc|Hc]; [|by apply list_elem_of_singleton in Hc as ->].
      apply elem_of_app in Hc as [Hc|Hc]; [exfalso|].
      { assert (tagged ["PARSE"; "SCHEMA"] ([check_ok "PARSE" "proof:bytes"]
          ++ [check_ok "SCHEMA" ("proof:" +:+ prf_proof_id proof)] ++ vocabulary_notes ctx proof)) as Ht
          by apply preamble_tagged.
        apply Ht in Hc. rewrite Hst in Hc. revert Hc. stage_solve. }
      apply elem_of_app in Hc as [Hc|Hc]; [by apply list_elem_of_singleton in Hc as ->|].
      apply elem_of_app in Hc as [Hc|Hc].
      { apply list_elem_of_singleton in Hc as ->. unfold identifier_check in Hst. by case_bool_decide. }
      apply elem_of_app in Hc as [Hc|Hc]; [done|].
      apply Hl in Hc. rewrite Hst in Hc. exfalso. revert Hc. stage_solve. }
    destruct (signature_records _ _ _ Hin Hok Hst) as (a & Ha & Hau & Heq); [by eexists|].
    exists a. split_and!; [done..|]. rewrite Heq, strip_prefix_app in Hobj. by simplify_eq.
  - intros (a & Ha & Hau & ->). exists (check_ok "SIGNATURES" ("att:" +:+ member_attestation_id a)).
    split; [|apply strip_prefix_app]. split_and!; [|done|done].
    rewrite !elem_of_app. left. do 3 right. left. rewrite signatures_stage_eq. simpl. apply elem_of_app. left.
    apply list_elem_of_In, in_concat. exists (attestation_outcome ctx a).1.
    destruct (attestation_outcome_spec ctx a) as [[_ Ho]|[Hn _]]; [|done].
    split; [apply in_map_iff; exists a; split; [done|by apply list_elem_of_In]|].
    rewrite Ho. by left.
Qed.
End run_projection.

(** The two validity bits are those of the report. *)
Lemma state_validities `{Base64Url, Sha2} r proof st :
  state_from_report_and_proof r proof = Ok st →
  vs_crypto_valid st = bool_decide (cryptographic_validity r = Validity.Valid) ∧
  vs_evidence_valid st = bool_decide (evidence_validity r = Validity.Valid).
Proof.
  unfold state_from_report_and_proof. intros Hs. apply bind_Ok in Hs as (rid & _ & Hs).
  case_bool_decide; [done|]. by injection Hs as <-.
Qed.
