(* ===== verification/Eval.v ===== *)
(** Eval: the policy evaluator, [crates/proof-policy/src/eval.rs].

    [evaluate_policy] guards on the proof's validity and folds [eval_one] over
    the version 1 list or [eval_expr] over the version 2 tree; [eval_one] is the
    dispatch over requirements, with the two breadth-first searches
    ([delegation_chain], [identity_path]) behind the adjudication leaves.  The
    [message] texts of the results are not modelled; the paths they count are.

    [satisfies] and [decides] are the abstract meaning of a requirement and of
    an expression, stated without the evaluator's data structures; the
    evaluator refines them. *)
From Stdlib Require Import Strings.Byte NArith ZArith Lia.
From S2P Require Import Prelude Core External Cbor Schema Ident Claim Report Policy State.

Record RevocationSet : Type := mkRevocations { revoked : gset string }.
Definition RevocationSet_empty : RevocationSet := {| revoked := ∅ |}.
Definition RevocationSet_new (ids : list string) : RevocationSet := {| revoked := list_to_set ids |}.

Record EvalInputs : Type := mkInputs {
  in_trusted_issuers : list string;
  in_revocations : RevocationSet;
  in_verified_at : N;
  in_skew_leeway : N;
}.
Definition default_inputs : EvalInputs :=
  {| in_trusted_issuers := []; in_revocations := RevocationSet_empty; in_verified_at := 0;
     in_skew_leeway := 300 |}.

Record RequirementResult : Set := mkResult {
  rr_requirement : string;
  rr_passed : bool;
}.
Record PolicyOutcome : Set := mkOutcome {
  po_policy_id : string;
  po_decision : PolicyDecision.t;
  po_has_note : bool;
  po_results : list RequirementResult;
}.

Definition pass (req : string) : RequirementResult := {| rr_requirement := req; rr_passed := true |}.
Definition fail (req : string) : RequirementResult := {| rr_requirement := req; rr_passed := false |}.
(** [if b { pass(..) } else { fail(..) }]. *)
Definition verdict (b : bool) (req : string) : RequirementResult := if b then pass req else fail req.

(** * Breadth-first search

    The loop the two path searches share: [queue] is the [VecDeque], [seen] and
    [prev] the visited set and the predecessor map. *)

(** [for n in nexts { if seen.insert(n) { prev.insert(n, cur); queue.push_back(n) } }] *)
Fixpoint visit (cur : string) (nexts : list string) (seen : gset string) (prev : gmap string string)
    (queue : list string) : gset string * gmap string string * list string :=
  match nexts with
  | [] => (seen, prev, queue)
  | n :: nexts' =>
      if bool_decide (n ∈ seen) then visit cur nexts' seen prev queue
      else visit cur nexts' ({[n]} ∪ seen) (<[n := cur]> prev) (queue ++ [n])
  end.

(** [while at != root { p = prev.get(at).unwrap_or(root); chain.push(p); at = p }],
    then [chain.reverse()]; [None] is out of fuel. *)
Fixpoint rebuild (fuel : nat) (prev : gmap string string) (root at_ : string) (chain : list string)
    : option (list string) :=
  if bool_decide (at_ = root) then Some chain else
  match fuel with
  | O => None
  | S fuel => let p := default root (prev !! at_) in rebuild fuel prev root p (p :: chain)
  end.

(** [Some None] is "no path", [None] is out of fuel. *)
Fixpoint bfs (fuel : nat) (adj : gmap string (list string)) (root target : string)
    (seen : gset string) (prev : gmap string string) (queue : list string)
    : option (option (list string)) :=
  match queue with
  | [] => Some None
  | cur :: queue =>
      match fuel with
      | O => None
      | S fuel =>
          if bool_decide (cur = target) then Some <$> rebuild (size prev) prev root target [target]
          else
            let '(seen, prev, queue) := visit cur (default [] (adj !! cur)) seen prev queue in
            bfs fuel adj root target seen prev queue
      end
  end.

(** Every queued node but the first is a fresh adjacency entry. *)
Definition bfs_fuel (adj : gmap string (list string)) : nat :=
  S (length (concat (map snd (map_to_list adj)))).
Definition search (adj : gmap string (list string)) (root target : string)
    : option (option (list string)) :=
  bfs (bfs_fuel adj) adj root target {[root]} ∅ [root].

(** * Path searches *)

Definition link_usable (st : VerifiedState) (scope : option string) (d : Delegation) : bool :=
  bool_decide (dl_attestation_id d ∈ vs_active_attestation_ids st) &&
  match scope with Some required => bool_decide (dl_scope d = Some required) | None => true end.

Definition delegation_adj (st : VerifiedState) (scope : option string) : gmap string (list string) :=
  foldl (λ adj d, entry_extend adj (dl_delegator d) [dl_delegatee d]) ∅
    (List.filter (link_usable st scope) (vs_delegations st)).

Definition delegation_chain (st : VerifiedState) (root target : string) (scope : option string)
    : option (option (list string)) :=
  if bool_decide (target = root) then Some (Some [root])
  else search (delegation_adj st scope) root target.

Definition link_edge (adj : gmap string (list string)) (x y : string) : gmap string (list string) :=
  entry_extend (entry_extend adj x [y]) y [x].

Definition trusted (inputs : EvalInputs) (issuer : string) : bool :=
  bool_decide (issuer ∈ in_trusted_issuers inputs).

Definition binding_live (st : VerifiedState) (inputs : EvalInputs) (b : IdentityBinding) : bool :=
  trusted inputs (ib_asserter b) && bool_decide (ib_attestation_id b ∈ vs_active_attestation_ids st).

Definition edge_live (st : VerifiedState) (inputs : EvalInputs) (e : EdgeFact) : bool :=
  bool_decide (ef_rel_type e = RelType.EQUIVALENT) &&
  match ef_attestation e with
  | Some aref =>
      bool_decide (aref ∈ vs_active_attestation_ids st) &&
      match ef_attester e with Some t => trusted inputs t | None => false end
  | None => false
  end.

Definition identity_adj (st : VerifiedState) (inputs : EvalInputs) : gmap string (list string) :=
  let adj := foldl (λ adj b, link_edge adj (ib_subject b) (ib_equivalent b)) ∅
               (List.filter (binding_live st inputs) (vs_identity_bindings st)) in
  foldl (λ adj e, link_edge adj (ef_from e) (ef_to e)) adj
    (List.filter (edge_live st inputs) (vs_edges st)).

Definition identity_path (st : VerifiedState) (inputs : EvalInputs) (a b : string)
    : option (option (list string)) :=
  if bool_decide (a = b) then Some (Some [a]) else search (identity_adj st inputs) a b.

(** * Leaves *)

Definition transparency_binding (st : VerifiedState) (log : string) : option string :=
  let checkpoints :=
    map cs_attestation_id
      (List.filter (λ c, bool_decide (cs_claim_type c = CLAIM_TRANSPARENCY_CHECKPOINT)
                         && bool_decide (cs_issuer c = log)
                         && bool_decide (cs_attestation_id c ∈ vs_active_attestation_ids st))
        (vs_claims st)) in
  if len checkpoints =? 0 then None else
  ee_id <$> List.find (λ entry,
    bool_decide (ee_kind entry = EvidenceKind.TRANSPARENCY_RECEIPT) &&
    match ee_attestation_ref entry with
    | Some aref => bool_decide (aref ∈ checkpoints)
    | None => false
    end) (vs_evidence_statuses st).

(** The comparison of one field value; [None] is a type mismatch. *)
Definition field_matches (actual : MetaValue) (value : FieldValue) (op : FieldOp.t) : option bool :=
  match actual, value, op with
  | MUint a, FUint b, FieldOp.Eq => Some (a =? b)
  | MUint a, FUint b, FieldOp.Ne => Some (negb (a =? b))
  | MUint a, FUint b, FieldOp.Gt => Some (b <? a)
  | MUint a, FUint b, FieldOp.Gte => Some (b <=? a)
  | MUint a, FUint b, FieldOp.Lt => Some (a <? b)
  | MUint a, FUint b, FieldOp.Lte => Some (a <=? b)
  | MText a, FText b, FieldOp.Eq => Some (bool_decide (a = b))
  | MText a, FText b, FieldOp.Ne => Some (negb (bool_decide (a = b)))
  | MBool a, FBool b, FieldOp.Eq => Some (Bool.eqb a b)
  | MBool a, FBool b, FieldOp.Ne => Some (negb (Bool.eqb a b))
  | _, _, _ => None
  end.

(** Does the optional filter let the value through? *)
Definition in_scope (filter : option string) (actual : string) : bool :=
  match filter with Some t => bool_decide (actual = t) | None => true end.

Definition claim_matches (st : VerifiedState) (ty subject : option string) (field : string)
    (op : FieldOp.t) (value : FieldValue) (c : ClaimSummary) : bool :=
  if negb (bool_decide (cs_attestation_id c ∈ vs_active_attestation_ids st)) then false else
  if negb (in_scope ty (cs_claim_type c)) then false else
  if negb (in_scope subject (cs_subject c)) then false else
  match List.find (λ p : string * MetaValue, bool_decide (p.1 = field)) (cs_fields c) with
  | None => false
  | Some (_, actual) => default false (field_matches actual value op)
  end.

Definition eval_claim_field (st : VerifiedState) (name : string) (ty subject : option string)
    (field : string) (op : FieldOp.t) (value : FieldValue) : RequirementResult :=
  verdict (existsb (claim_matches st ty subject field op value) (vs_claims st)) name.

(** The loop of [not_expired] over ids zipped with times. *)
Definition within_times (inputs : EvalInputs) (t : N * option N) : bool :=
  (t.1 <=? u64_saturating_add (in_verified_at inputs) (in_skew_leeway inputs)) &&
  match t.2 with
  | Some exp => in_verified_at inputs <=? u64_saturating_add exp (in_skew_leeway inputs)
  | None => true
  end.

Definition evidence_available (kind : string) (e : EvidenceStatusEntry) : bool :=
  bool_decide (ee_kind e = kind) && bool_decide (ee_status e = EvidenceStatus.Available).

Definition is_path (r : option (option (list string))) : option bool :=
  match r with
  | Some (Some _) => Some true
  | Some None => Some false
  | None => None
  end.

(** [eval_one], as the [passed] flag; [None] is a search out of fuel. *)
Definition eval_passed (req : Requirement) (st : VerifiedState) (inputs : EvalInputs) : option bool :=
  match req with
  | SignatureValid => Some true
  | IssuerTrusted issuer => Some (trusted inputs issuer && bool_decide (issuer ∈ vs_verified_issuers st))
  | IssuerExcluded issuer => Some (negb (bool_decide (issuer ∈ vs_verified_issuers st)))
  | RelationshipExists relationship => Some (bool_decide (relationship ∈ vs_rel_types st))
  | NotExpired =>
      Some (forallb (λ p : string * (N * option N), within_times inputs p.2)
              (zip (vs_attestation_ids st) (vs_attestation_times st)))
  | NotRevoked =>
      Some (forallb (λ id, negb (bool_decide (id ∈ revoked (in_revocations inputs))))
              (vs_attestation_ids st))
  | NotSuperseded => Some (len (vs_superseded_ids st) =? 0)
  | EvidencePresent kind => Some (bool_decide (kind ∈ vs_evidence_kinds st))
  | TransparencyPresent => Some (has_transparency st)
  | ProofFresh max_age =>
      Some (if in_verified_at inputs =? 0 then false
            else u64_saturating_sub (in_verified_at inputs) (vs_proof_created_at st) <=? max_age)
  | DelegatedAuthority root issuer scope =>
      if negb (trusted inputs root) then Some false else
      if negb (bool_decide (issuer ∈ vs_verified_issuers st)) then Some false else
      is_path (delegation_chain st root issuer scope)
  | IdentityBound a b => is_path (identity_path st inputs a b)
  | TransparencyInclusion log => Some (bool_decide (is_Some (transparency_binding st log)))
  | NoConflictingEvidence => Some (len (vs_conflicts st) =? 0)
  | VocabularyAccepted ns max_version =>
      let over := map voc_version
                    (List.filter (λ vd, bool_decide (voc_ns vd = ns)) (vs_vocabularies_declared st)) in
      Some (if existsb (λ v, max_version <? v) over then false
            else if bool_decide (ns ∈ vs_vocabularies_used st)
                    && negb (existsb (λ v, v <=? max_version) over) then false
            else true)
  | EvidenceUsable kind => Some (existsb (evidence_available kind) (vs_evidence_statuses st))
  | EvidenceBound kind =>
      let available := map ee_id (List.filter (evidence_available kind) (vs_evidence_statuses st)) in
      Some (existsb (λ b, bool_decide (eb_evidence_id b ∈ available)) (vs_evidence_bindings st))
  | RequiresReference id => Some (bool_decide (id ∈ vs_referenced_proofs st))
  | ForbidsReference id => Some (negb (bool_decide (id ∈ vs_referenced_proofs st)))
  | ClaimField ty subject field op value =>
      Some (rr_passed (eval_claim_field st (describe req) ty subject field op value))
  end.

Definition eval_one (req : Requirement) (st : VerifiedState) (inputs : EvalInputs)
    : option RequirementResult :=
  b ← eval_passed req st inputs; Some (verdict b (describe req)).

(** The children of a connective, in order, with the pushed results. *)
Fixpoint eval_list (eval : PolicyExpr → option (bool * list RequirementResult))
    (cs : list PolicyExpr) : option (list bool * list RequirementResult) :=
  match cs with
  | [] => Some ([], [])
  | c :: cs' =>
      '(b, rs) ← eval c; '(bs, rs') ← eval_list eval cs'; Some (b :: bs, rs ++ rs')
  end.

(** The number of passing options, the [count] of the threshold loop. *)
Definition count_true (bs : list bool) : N := len (List.filter (λ b : bool, b) bs).

(** [eval_expr]: the outcome and the results it pushes. *)
Fixpoint eval_expr (e : PolicyExpr) (st : VerifiedState) (inputs : EvalInputs)
    : option (bool * list RequirementResult) :=
  match e with
  | Leaf req => res ← eval_one req st inputs; Some (rr_passed res, [res])
  | All cs =>
      '(bs, rs) ← eval_list (λ c, eval_expr c st inputs) cs;
      Some (foldl (λ ok b, b && ok) true bs, rs)
  | Any cs =>
      '(bs, rs) ← eval_list (λ c, eval_expr c st inputs) cs;
      Some (foldl (λ ok b, b || ok) false bs, rs)
  | Not c => '(b, rs) ← eval_expr c st inputs; Some (negb b, rs)
  | Threshold k options =>
      '(bs, rs) ← eval_list (λ c, eval_expr c st inputs) options;
      Some (k <=? count_true bs, rs)
  end.

Definition decision_of (passed : bool) : PolicyDecision.t :=
  if passed then PolicyDecision.Pass else PolicyDecision.Fail.

(** [evaluate_policy]; [None] only if a search ran out of fuel. *)
Definition evaluate_policy (st : VerifiedState) (policy : Policy) (inputs : EvalInputs)
    : option PolicyOutcome :=
  if negb (vs_crypto_valid st) || negb (vs_evidence_valid st) then
    Some {| po_policy_id := pol_id policy; po_decision := PolicyDecision.Indeterminate;
            po_has_note := true; po_results := [] |}
  else if pol_version policy =? 2 then
    match pol_expression policy with
    | Some expr =>
        '(passed, results) ← eval_expr expr st inputs;
        Some {| po_policy_id := pol_id policy; po_decision := decision_of passed;
                po_has_note := false; po_results := results |}
    | None =>
        Some {| po_policy_id := pol_id policy; po_decision := PolicyDecision.Indeterminate;
                po_has_note := true; po_results := [] |}
    end
  else
    results ← mapM (λ req, eval_one req st inputs) (pol_requirements policy);
    Some {| po_policy_id := pol_id policy; po_decision := decision_of (forallb rr_passed results);
            po_has_note := false; po_results := results |}.

(** * The search decides reachability *)

(** A walk along [R], with the nodes it visits. *)
Inductive walk (R : string → string → Prop) : string → string → list string → Prop :=
| walk_one x : walk R x x [x]
| walk_step x y z l : R x y → walk R y z l → walk R x z (x :: l).

Lemma walk_rtc R x y l : walk R x y l → rtc R x y.
Proof. induction 1; [done|]. by eapply rtc_l. Qed.

Lemma size_list_to_set_le (l : list string) : (size (list_to_set l : gset string) <= length l)%nat.
Proof.
  induction l as [|x l IH]; [done|]. cbn [list_to_set length].
  rewrite size_union_alt, size_singleton.
  pose proof (subseteq_size _ _ (subseteq_difference_l (list_to_set l : gset string) {[x]} _ (reflexivity _))).
  lia.
Qed.
Lemma rtc_closed {A} (R : relation A) (P : A → Prop) x y :
  (∀ a b, P a → R a b → P b) → rtc R x y → P x → P y.
Proof. intros Hcl. induction 1; eauto. Qed.

Section search.
Context (adj : gmap string (list string)) (root target : string).
Definition succ (x y : string) : Prop := y ∈ default [] (adj !! x).
Definition entries : gset string := list_to_set (concat (map snd (map_to_list adj))).

Lemma succ_entries x y : succ x y → y ∈ entries.
Proof.
  unfold succ, entries. destruct (adj !! x) as [l|] eqn:Hx; simpl; [|by intros ?%elem_of_nil].
  intros Hy. apply elem_of_list_to_set, list_elem_of_In, in_concat. exists l.
  split; [|by apply list_elem_of_In]. apply in_map_iff. exists (x, l). split; [done|].
  by apply list_elem_of_In, elem_of_map_to_list.
Qed.

(** The predecessor map leads back to the root in [k] steps. *)
Inductive traced (prev : gmap string string) : string → nat → Prop :=
| traced_root : traced prev root 0
| traced_step n p k : n ≠ root → prev !! n = Some p → succ p n → traced prev p k → traced prev n (S k).

Lemma traced_insert prev n m p k :
  prev !! n = None → traced prev m k → traced (<[n := p]> prev) m k.
Proof.
  intros Hn. induction 1 as [|m q k Hm Hq Hs _ IH]; [constructor|].
  apply traced_step with q; [done| |done|done]. rewrite lookup_insert_ne; [done|congruence].
Qed.

Record bfs_inv (seen : gset string) (prev : gmap string string) (queue : list string) : Prop := {
  bi_root : root ∈ seen;
  bi_queue : ∀ n, n ∈ queue → n ∈ seen;
  bi_prev : ∀ n, is_Some (prev !! n) → n ∈ seen;
  bi_traced : ∀ n, n ∈ seen → ∃ k, traced prev n k ∧ (k <= size prev)%nat;
}.

(** What one round of successors establishes. *)
Lemma visit_spec cur nexts seen prev queue seen' prev' queue' :
  visit cur nexts seen prev queue = (seen', prev', queue') →
  bfs_inv seen prev queue → cur ∈ seen → (∀ n, n ∈ nexts → succ cur n) →
  bfs_inv seen' prev' queue' ∧ (∀ n, n ∈ nexts → n ∈ seen') ∧ seen ⊆ seen' ∧
  (∀ n, n ∈ seen' → n ∈ seen ∨ n ∈ queue') ∧ (∀ n, n ∈ queue → n ∈ queue') ∧
  (length queue' + size (entries ∖ seen') <= length queue + size (entries ∖ seen))%nat.
Proof.
  revert seen prev queue. induction nexts as [|n nexts IH]; intros seen prev queue Hv Hinv Hcur Hs;
    simpl in Hv.
  { simplify_eq. split_and!; try done; [by intros n Hn%elem_of_nil|auto]. }
  case_bool_decide as Hn.
  { apply IH in Hv as (Hi & Hnx & Hsub & Hnew & Hq & Hm); [|done|done|set_solver].
    split_and!; try done. set_solver. }
  assert (succ cur n) as Hcn by (apply Hs; left).
  assert (prev !! n = None) as Hpn.
  { destruct (prev !! n) eqn:E; [|done]. destruct Hn. apply (bi_prev _ _ _ Hinv). by eexists. }
  apply IH in Hv as (Hi & Hnx & Hsub & Hnew & Hq & Hm); [|..].
  - split_and!; [done| |set_solver| |set_solver|].
    + intros x [->|Hx]%elem_of_cons; [set_solver|auto].
    + intros x [Hx|Hx]%Hnew; [|by right]. apply elem_of_union in Hx as [Hx|Hx]; [|by left].
      right. apply Hq. set_solver.
    + rewrite length_app in Hm. simpl in Hm.
      assert (size (entries ∖ seen) = S (size (entries ∖ ({[n]} ∪ seen)))) as Hsz; [|lia].
      assert (entries ∖ seen = {[n]} ∪ entries ∖ ({[n]} ∪ seen)) as ->.
      { apply set_eq. intros x. apply succ_entries in Hcn.
        rewrite elem_of_union, !elem_of_difference, elem_of_union, elem_of_singleton.
        destruct (decide (x = n)) as [->|]; naive_solver. }
      rewrite size_union by set_solver. by rewrite size_singleton.
  - destruct Hinv as [Hr Hqs Hp Ht]. split; [set_solver|set_solver| |].
    + intros x. rewrite lookup_insert_is_Some'. intros [->|Hx]; [set_solver|]. apply Hp in Hx. set_solver.
    + intros x Hx. rewrite map_size_insert_None by done.
      apply elem_of_union in Hx as [->%elem_of_singleton|Hx].
      * destruct (Ht cur Hcur) as (k & Hk & Hle). exists (S k). split; [|lia].
        apply traced_step with cur; [intros ->; done|by rewrite lookup_insert_eq|done|].
        by apply traced_insert.
      * destruct (Ht x Hx) as (k & Hk & Hle). exists k. split; [by apply traced_insert|lia].
  - set_solver.
  - set_solver.
Qed.

Lemma rebuild_spec prev fuel at_ k chain :
  traced prev at_ k → (k <= fuel)%nat → walk succ at_ target chain →
  ∃ path, rebuild fuel prev root at_ chain = Some path ∧ walk succ root target path.
Proof.
  intros Ht. revert fuel chain. induction Ht as [|n p k Hn Hp Hs _ IH]; intros fuel chain Hf Hw.
  - exists chain. destruct fuel; simpl; by rewrite bool_decide_eq_true_2.
  - destruct fuel as [|fuel]; [lia|]. simpl. rewrite bool_decide_eq_false_2, Hp by done. simpl.
    apply IH; [lia|]. by eapply walk_step.
Qed.

(** The loop returns, with a walk to the target or with the certainty that
    there is none. *)
Lemma bfs_spec fuel seen prev queue :
  bfs_inv seen prev queue →
  (∀ x, x ∈ seen → x ∉ queue → x ≠ target ∧ ∀ y, succ x y → y ∈ seen) →
  (length queue + size (entries ∖ seen) <= fuel)%nat →
  (∃ path, bfs fuel adj root target seen prev queue = Some (Some path) ∧ walk succ root target path) ∨
  (bfs fuel adj root target seen prev queue = Some None ∧ ¬ rtc succ root target).
Proof.
  revert seen prev queue. induction fuel as [|fuel IH]; intros seen prev queue Hinv Hdone Hf.
  all: destruct queue as [|cur queue]; [right; split; [done|]|simpl in Hf].
  1,3: (intros Hr; apply (rtc_closed _ (.∈ seen)) in Hr; [|intros a b Ha; apply Hdone; [done|by intros ?%elem_of_nil]|apply Hinv];
    by destruct (Hdone target Hr) as [[] _]; [intros ?%elem_of_nil|]).
  { lia. }
  simpl. case_bool_decide as Hct.
  { subst cur. left. destruct (bi_traced _ _ _ Hinv target) as (k & Hk & Hle).
    { apply (bi_queue _ _ _ Hinv). left. }
    destruct (rebuild_spec prev (size prev) target k [target]) as (path & -> & Hw); [done..|constructor|].
    by exists path. }
  destruct (visit cur (default [] (adj !! cur)) seen prev queue) as [[seen' prev'] queue'] eqn:Hv.
  assert (cur ∈ seen) as Hcur by (apply (bi_queue _ _ _ Hinv); left).
  apply visit_spec in Hv as (Hi & Hnx & Hsub & Hnew & Hq & Hm); [| |done|done].
  - apply IH; [done| |lia]. intros x Hx Hxq.
    destruct (Hnew x Hx) as [Hxs|]; [|done]. destruct (decide (x = cur)) as [->|Hxc].
    + split; [done|]. intros y Hy. by apply Hnx.
    + destruct (Hdone x Hxs) as [Hxt Hsucc]; [|split; [done|set_solver]].
      rewrite elem_of_cons. intros [->|Hxq']; [done|]. by apply Hxq, Hq.
  - destruct Hinv as [Hr Hqs Hp Ht]. split; [done| |done|done]. intros n Hn. apply Hqs. by right.
Qed.

Lemma search_spec :
  (∃ path, search adj root target = Some (Some path) ∧ walk succ root target path) ∨
  (search adj root target = Some None ∧ ¬ rtc succ root target).
Proof.
  apply bfs_spec.
  - split; [set_solver|set_solver|by intros n [? [=]]|].
    intros n ->%elem_of_singleton. exists 0%nat. split; [constructor|lia].
  - intros x ->%elem_of_singleton Hx. set_solver.
  - unfold bfs_fuel. simpl. assert (size (entries ∖ {[root]}) <= length (concat (map snd (map_to_list adj))))%nat; [|lia].
    etrans; [apply subseteq_size, subseteq_difference_l; reflexivity|apply size_list_to_set_le].
Qed.
End search.

(** * What a requirement means

    Stated on the verified state and the verifier's inputs, without the
    evaluator's maps, queues and loops. *)

Section meaning.
Context (st : VerifiedState) (inputs : EvalInputs).
Abbreviation active id := (id ∈ vs_active_attestation_ids st).
Abbreviation listed id := (id ∈ in_trusted_issuers inputs).

(** [x] grants authority to [y] by an active grant of the required scope. *)
Definition delegates (scope : option string) (x y : string) : Prop :=
  ∃ d, d ∈ vs_delegations st ∧ active (dl_attestation_id d) ∧
       (∀ sc, scope = Some sc → dl_scope d = Some sc) ∧ dl_delegator d = x ∧ dl_delegatee d = y.

(** A trusted, active assertion that [x] and [y] are the same. *)
Inductive asserted (x y : string) : Prop :=
| asserted_binding b : b ∈ vs_identity_bindings st → listed (ib_asserter b) →
    active (ib_attestation_id b) → ib_subject b = x → ib_equivalent b = y → asserted x y
| asserted_edge e aref t : e ∈ vs_edges st → ef_rel_type e = RelType.EQUIVALENT →
    ef_attestation e = Some aref → active aref → ef_attester e = Some t → listed t →
    ef_from e = x → ef_to e = y → asserted x y.
Definition same_identity (x y : string) : Prop := asserted x y ∨ asserted y x.

Definition compares (actual : MetaValue) (op : FieldOp.t) (value : FieldValue) : Prop :=
  match actual, value with
  | MUint a, FUint b =>
      match op with
      | FieldOp.Eq => a = b | FieldOp.Ne => a ≠ b | FieldOp.Gt => b < a
      | FieldOp.Gte => b <= a | FieldOp.Lt => a < b | FieldOp.Lte => a <= b
      end
  | MText a, FText b =>
      match op with FieldOp.Eq => a = b | FieldOp.Ne => a ≠ b | _ => False end
  | MBool a, FBool b =>
      match op with FieldOp.Eq => a = b | FieldOp.Ne => a ≠ b | _ => False end
  | _, _ => False
  end.

(** The first value of a field. *)
Inductive has_field (field : string) (v : MetaValue) : list (string * MetaValue) → Prop :=
| has_here l : has_field field v ((field, v) :: l)
| has_later k w l : k ≠ field → has_field field v l → has_field field v ((k, w) :: l).

Definition satisfies (r : Requirement) : Prop :=
  match r with
  | SignatureValid => True
  | IssuerTrusted i => listed i ∧ i ∈ vs_verified_issuers st
  | IssuerExcluded i => i ∉ vs_verified_issuers st
  | RelationshipExists t => t ∈ vs_rel_types st
  | NotExpired =>
      ∀ k id issued expires, vs_attestation_ids st !! k = Some id →
        vs_attestation_times st !! k = Some (issued, expires) →
        issued <= u64_saturating_add (in_verified_at inputs) (in_skew_leeway inputs) ∧
        ∀ e, expires = Some e → in_verified_at inputs <= u64_saturating_add e (in_skew_leeway inputs)
  | NotRevoked => ∀ id, id ∈ vs_attestation_ids st → id ∉ revoked (in_revocations inputs)
  | NotSuperseded => vs_superseded_ids st = []
  | EvidencePresent k => k ∈ vs_evidence_kinds st
  | TransparencyPresent => EvidenceKind.TRANSPARENCY_RECEIPT ∈ vs_evidence_kinds st
  | ProofFresh m => in_verified_at inputs ≠ 0 ∧ in_verified_at inputs <= vs_proof_created_at st + m
  | DelegatedAuthority root issuer scope =>
      listed root ∧ issuer ∈ vs_verified_issuers st ∧ rtc (delegates scope) root issuer
  | IdentityBound a b => rtc same_identity a b
  | TransparencyInclusion log =>
      ∃ c e, c ∈ vs_claims st ∧ cs_claim_type c = CLAIM_TRANSPARENCY_CHECKPOINT ∧
        cs_issuer c = log ∧ active (cs_attestation_id c) ∧
        e ∈ vs_evidence_statuses st ∧ ee_kind e = EvidenceKind.TRANSPARENCY_RECEIPT ∧
        ee_attestation_ref e = Some (cs_attestation_id c)
  | NoConflictingEvidence => vs_conflicts st = []
  | VocabularyAccepted ns m =>
      (∀ vd, vd ∈ vs_vocabularies_declared st → voc_ns vd = ns → voc_version vd <= m) ∧
      (ns ∈ vs_vocabularies_used st → ∃ vd, vd ∈ vs_vocabularies_declared st ∧ voc_ns vd = ns)
  | EvidenceUsable k =>
      ∃ e, e ∈ vs_evidence_statuses st ∧ ee_kind e = k ∧ ee_status e = EvidenceStatus.Available
  | EvidenceBound k =>
      ∃ e b, e ∈ vs_evidence_statuses st ∧ ee_kind e = k ∧ ee_status e = EvidenceStatus.Available ∧
        b ∈ vs_evidence_bindings st ∧ eb_evidence_id b = ee_id e
  | RequiresReference id => id ∈ vs_referenced_proofs st
  | ForbidsReference id => id ∉ vs_referenced_proofs st
  | ClaimField ty subject field op value =>
      ∃ c v, c ∈ vs_claims st ∧ active (cs_attestation_id c) ∧
        (∀ t, ty = Some t → cs_claim_type c = t) ∧ (∀ s, subject = Some s → cs_subject c = s) ∧
        has_field field v (cs_fields c) ∧ compares v op value
  end.

(** What an expression decides. *)
Inductive decides : PolicyExpr → bool → Prop :=
| decides_leaf r (b : bool) : (b = true ↔ satisfies r) → decides (Leaf r) b
| decides_all cs bs : Forall2 decides cs bs → decides (All cs) (forallb id bs)
| decides_any cs bs : Forall2 decides cs bs → decides (Any cs) (existsb id bs)
| decides_not c b : decides c b → decides (Not c) (negb b)
| decides_threshold k cs bs :
    Forall2 decides cs bs → decides (Threshold k cs) (k <=? count_true bs).

(** ** Adjacency *)

Lemma link_usable_iff scope d :
  link_usable st scope d = true ↔
  active (dl_attestation_id d) ∧ (∀ sc, scope = Some sc → dl_scope d = Some sc).
Proof.
  unfold link_usable. rewrite andb_true_iff, bool_decide_eq_true.
  destruct scope as [sc|]; rewrite ?bool_decide_eq_true; naive_solver.
Qed.

Lemma elem_filter {A} (f : A → bool) (l : list A) x : x ∈ List.filter f l ↔ x ∈ l ∧ f x = true.
Proof. by rewrite list_elem_of_In, filter_In, <- list_elem_of_In. Qed.

Lemma entry_succ adj k v x y : succ (entry_extend adj k [v]) x y ↔ succ adj x y ∨ (k = x ∧ v = y).
Proof.
  unfold succ. rewrite entry_extend_lookup, elem_of_app. case_decide as Hk.
  - rewrite list_elem_of_singleton. naive_solver.
  - rewrite elem_of_nil. naive_solver.
Qed.
Lemma succ_empty x y : ¬ succ ∅ x y.
Proof. unfold succ. rewrite lookup_empty. by intros ?%elem_of_nil. Qed.

(** The adjacency map built from a list of links. *)
Lemma foldl_succ {A} (f : gmap string (list string) → A → gmap string (list string))
    (R : A → string → string → Prop) l adj x y :
  (∀ adj a, succ (f adj a) x y ↔ succ adj x y ∨ R a x y) →
  succ (foldl f adj l) x y ↔ succ adj x y ∨ ∃ a, a ∈ l ∧ R a x y.
Proof.
  intros Hf. revert adj. induction l as [|a l IH]; intros adj; simpl; [set_solver|].
  rewrite IH, Hf. set_solver.
Qed.

Lemma delegation_adj_succ scope x y : succ (delegation_adj st scope) x y ↔ delegates scope x y.
Proof.
  unfold delegation_adj.
  rewrite (foldl_succ _ (λ d x y, dl_delegator d = x ∧ dl_delegatee d = y)) by (intros; apply entry_succ).
  unfold delegates. setoid_rewrite elem_filter. setoid_rewrite link_usable_iff.
  split; [intros [?%succ_empty|]|right]; naive_solver.
Qed.

Lemma link_edge_succ adj u v x y :
  succ (link_edge adj u v) x y ↔ succ adj x y ∨ (u = x ∧ v = y ∨ u = y ∧ v = x).
Proof. unfold link_edge. rewrite !entry_succ. naive_solver. Qed.

Lemma edge_live_iff e :
  edge_live st inputs e = true ↔
  ef_rel_type e = RelType.EQUIVALENT ∧ ∃ aref t, ef_attestation e = Some aref ∧ active aref ∧
    ef_attester e = Some t ∧ listed t.
Proof.
  unfold edge_live, trusted. rewrite andb_true_iff, bool_decide_eq_true.
  destruct (ef_attestation e) as [aref|]; [|naive_solver].
  rewrite andb_true_iff, bool_decide_eq_true.
  destruct (ef_attester e) as [t|]; rewrite ?bool_decide_eq_true; naive_solver.
Qed.

Lemma identity_adj_succ x y : succ (identity_adj st inputs) x y ↔ same_identity x y.
Proof.
  unfold identity_adj.
  rewrite (foldl_succ _ (λ e x y, ef_from e = x ∧ ef_to e = y ∨ ef_from e = y ∧ ef_to e = x))
    by (intros; apply link_edge_succ).
  rewrite (foldl_succ _ (λ b x y, ib_subject b = x ∧ ib_equivalent b = y ∨
                                  ib_subject b = y ∧ ib_equivalent b = x))
    by (intros; apply link_edge_succ).
  setoid_rewrite elem_filter. setoid_rewrite edge_live_iff.
  unfold binding_live, trusted. setoid_rewrite andb_true_iff. setoid_rewrite bool_decide_eq_true.
  unfold same_identity. split.
  - intros [[?%succ_empty|(b & (Hb & Ht & Ha) & [[]|[]])]
           |(e & (He & Hty & aref & t & Har & Hact & Hat & Hl) & [[]|[]])]; [done|..].
    + left. by eapply asserted_binding.
    + right. by eapply asserted_binding.
    + left. by eapply asserted_edge.
    + right. by eapply asserted_edge.
  - intros [[b|e]|[b|e]]; [left; right; exists b|right; exists e|left; right; exists b|right; exists e];
      naive_solver.
Qed.
End meaning.

(** * The evaluator refines the meaning *)

Lemma rtc_iff {A} (R S : relation A) x y : (∀ a b, R a b ↔ S a b) → rtc R x y ↔ rtc S x y.
Proof. intros HRS. split; apply rtc_subrel; intros ? ?; apply HRS. Qed.

Lemma walk_impl (R S : string → string → Prop) x y l :
  (∀ a b, R a b → S a b) → walk R x y l → walk S x y l.
Proof. intros HRS. induction 1; econstructor; eauto. Qed.

Section refinement.
Context (st : VerifiedState) (inputs : EvalInputs).

Lemma delegation_chain_spec scope root target :
  (∃ chain, delegation_chain st root target scope = Some (Some chain) ∧
            walk (delegates st scope) root target chain) ∨
  (delegation_chain st root target scope = Some None ∧ ¬ rtc (delegates st scope) root target).
Proof.
  unfold delegation_chain. case_bool_decide as Heq.
  { left. exists [root]. subst. split; [done|constructor]. }
  destruct (search_spec (delegation_adj st scope) root target) as [(path & -> & Hw)|[-> Hn]].
  - left. exists path. split; [done|]. eapply walk_impl; [|exact Hw].
    intros a b. apply delegation_adj_succ.
  - right. split; [done|]. contradict Hn. revert Hn. apply rtc_iff. intros. by rewrite delegation_adj_succ.
Qed.

Lemma identity_path_spec a b :
  (∃ path, identity_path st inputs a b = Some (Some path) ∧
           walk (same_identity st inputs) a b path) ∨
  (identity_path st inputs a b = Some None ∧ ¬ rtc (same_identity st inputs) a b).
Proof.
  unfold identity_path. case_bool_decide as Heq.
  { left. exists [a]. subst. split; [done|constructor]. }
  destruct (search_spec (identity_adj st inputs) a b) as [(path & -> & Hw)|[-> Hn]].
  - left. exists path. split; [done|]. eapply walk_impl; [|exact Hw].
    intros x y. apply identity_adj_succ.
  - right. split; [done|]. contradict Hn. revert Hn. apply rtc_iff. intros. by rewrite identity_adj_succ.
Qed.

(** A boolean leaf. *)
Lemma passed_iff (b : bool) (P : Prop) : (b = true ↔ P) → ∃ b', Some b = Some b' ∧ (b' = true ↔ P).
Proof. eauto. Qed.

Lemma within_times_iff t :
  within_times inputs t = true ↔
  t.1 <= u64_saturating_add (in_verified_at inputs) (in_skew_leeway inputs) ∧
  ∀ e, t.2 = Some e → in_verified_at inputs <= u64_saturating_add e (in_skew_leeway inputs).
Proof.
  unfold within_times. rewrite andb_true_iff, N.leb_le.
  destruct t.2 as [e|]; rewrite ?N.leb_le; naive_solver.
Qed.

Lemma not_expired_iff :
  forallb (λ p : string * (N * option N), within_times inputs p.2)
    (zip (vs_attestation_ids st) (vs_attestation_times st)) = true ↔ satisfies st inputs NotExpired.
Proof.
  rewrite forallb_Forall, Forall_lookup. simpl. split.
  - intros Hall k id issued expires Hid Ht.
    apply (within_times_iff (issued, expires)), (Hall k (id, (issued, expires))).
    apply lookup_zip_Some. done.
  - intros Hall k [id [issued expires]] [Hid Ht]%lookup_zip_Some. simpl.
    apply within_times_iff. by eapply Hall.
Qed.

Lemma transparency_iff log :
  bool_decide (is_Some (transparency_binding st log)) = true ↔
  satisfies st inputs (TransparencyInclusion log).
Proof.
  rewrite bool_decide_eq_true. unfold transparency_binding.
  set (cps := map cs_attestation_id _).
  assert (∀ id, id ∈ cps ↔ ∃ c, c ∈ vs_claims st ∧ cs_claim_type c = CLAIM_TRANSPARENCY_CHECKPOINT ∧
    cs_issuer c = log ∧ cs_attestation_id c ∈ vs_active_attestation_ids st ∧ id = cs_attestation_id c) as Hcps.
  { intros id. unfold cps. rewrite list_elem_of_fmap. setoid_rewrite elem_filter.
    setoid_rewrite andb_true_iff. setoid_rewrite andb_true_iff. setoid_rewrite bool_decide_eq_true.
    naive_solver. }
  assert ((if len cps =? 0 then None else
    ee_id <$> List.find (λ entry, bool_decide (ee_kind entry = EvidenceKind.TRANSPARENCY_RECEIPT) &&
      match ee_attestation_ref entry with Some aref => bool_decide (aref ∈ cps) | None => false end)
      (vs_evidence_statuses st)) = ee_id <$> List.find (λ entry,
      bool_decide (ee_kind entry = EvidenceKind.TRANSPARENCY_RECEIPT) &&
      match ee_attestation_ref entry with Some aref => bool_decide (aref ∈ cps) | None => false end)
      (vs_evidence_statuses st)) as ->.
  { destruct cps as [|x l]; [|done]. simpl. clear Hcps.
    induction (vs_evidence_statuses st) as [|e es IH]; [done|]. simpl.
    destruct (ee_attestation_ref e); simpl; by rewrite andb_false_r. }
  rewrite fmap_is_Some. simpl. split.
  - intros [e He]. apply find_some in He as [Hin [Hk Hr]%andb_true_iff].
    apply bool_decide_eq_true in Hk. destruct (ee_attestation_ref e) as [aref|] eqn:Hr'; [|done].
    apply bool_decide_eq_true, Hcps in Hr as (c & Hc & Hty & Hi & Ha & ->).
    exists c, e. split_and!; try done. by apply list_elem_of_In.
  - intros (c & e & Hc & Hty & Hi & Ha & He & Hk & Hr).
    destruct (List.find _ _) as [e'|] eqn:Hf; [by eexists|].
    apply list_elem_of_In in He. pose proof (find_none _ _ Hf e He) as Hn. simpl in Hn.
    rewrite Hk, Hr, !bool_decide_eq_true_2 in Hn; [done| |done]. apply Hcps. eauto 10.
Qed.

Lemma has_field_iff field v l :
  (∃ k, List.find (λ p : string * MetaValue, bool_decide (p.1 = field)) l = Some (k, v)) ↔
  has_field field v l.
Proof.
  induction l as [|[k w] l IH]; simpl.
  - split; [by intros [? [=]]|by inversion 1].
  - case_bool_decide as Hk.
    + subst. split; [intros [? [= -> ->]]; constructor|]. inversion 1; subst; [by eexists|done].
    + rewrite IH. split; [by apply has_later|]. inversion 1; subst; done.
Qed.

Lemma compares_iff v op value :
  default false (field_matches v value op) = true ↔ compares v op value.
Proof.
  destruct v, value, op; simpl; rewrite ?negb_true_iff, ?N.eqb_eq, ?N.eqb_neq, ?N.ltb_lt, ?N.leb_le,
    ?bool_decide_eq_true, ?bool_decide_eq_false, ?eqb_true_iff, ?eqb_false_iff; done.
Qed.

Lemma in_scope_iff o s : in_scope o s = true ↔ ∀ t, o = Some t → s = t.
Proof. destruct o; simpl; rewrite ?bool_decide_eq_true; naive_solver. Qed.

Lemma claim_field_iff ty subject field op value :
  existsb (claim_matches st ty subject field op value) (vs_claims st) = true ↔
  satisfies st inputs (ClaimField ty subject field op value).
Proof.
  rewrite existsb_true. simpl. split.
  - intros (c & Hc & Hm). unfold claim_matches in Hm.
    destruct (bool_decide (_ ∈ _)) eqn:Ha; [|done]. apply bool_decide_eq_true in Ha.
    destruct (in_scope ty _) eqn:Hty; [|done]. destruct (in_scope subject _) eqn:Hs; [|done]. simpl in Hm.
    destruct (List.find _ _) as [[k v]|] eqn:Hf; [|done]. apply compares_iff in Hm.
    rewrite in_scope_iff in Hty, Hs. exists c, v. split_and!; try done. apply has_field_iff. by eexists.
  - intros (c & v & Hc & Ha & Hty & Hs & Hf & Hm). exists c. split; [done|]. unfold claim_matches.
    rewrite <- in_scope_iff in Hty, Hs. rewrite bool_decide_eq_true_2, Hty, Hs by done. simpl.
    apply has_field_iff in Hf as [k ->]. by apply compares_iff.
Qed.

Lemma vocabulary_iff ns m :
  let over := map voc_version
                (List.filter (λ vd, bool_decide (voc_ns vd = ns)) (vs_vocabularies_declared st)) in
  (if existsb (λ v, m <? v) over then false
   else if bool_decide (ns ∈ vs_vocabularies_used st) && negb (existsb (λ v, v <=? m) over) then false
   else true) = true ↔ satisfies st inputs (VocabularyAccepted ns m).
Proof.
  intros over.
  assert (∀ v, v ∈ over ↔ ∃ vd, vd ∈ vs_vocabularies_declared st ∧ voc_ns vd = ns ∧ v = voc_version vd) as Hover.
  { intros v. unfold over. rewrite list_elem_of_fmap. setoid_rewrite elem_filter.
    setoid_rewrite bool_decide_eq_true. naive_solver. }
  simpl. destruct (existsb (λ v, m <? v) over) eqn:E1.
  - split; [done|]. intros [Hle _]. apply existsb_true in E1 as (v & Hv & Hlt%N.ltb_lt).
    apply Hover in Hv as (vd & Hin & Hns & ->). specialize (Hle vd Hin Hns). lia.
  - assert (∀ vd, vd ∈ vs_vocabularies_declared st → voc_ns vd = ns → voc_version vd <= m) as Hle.
    { intros vd Hin Hns. apply N.ltb_ge. apply (proj1 (existsb_false _ _) E1). apply Hover. eauto. }
    case_bool_decide as Hu; simpl; [|by split].
    destruct (existsb (λ v, v <=? m) over) eqn:E2; simpl.
    + split; [|done]. intros _. split; [done|]. intros _.
      apply existsb_true in E2 as (v & (vd & Hin & Hns & _)%Hover & _). eauto.
    + split; [done|]. intros [_ Hd]. destruct (Hd Hu) as (vd & Hin & Hns).
      assert (voc_version vd <=? m = false) as Hf.
      { apply (proj1 (existsb_false _ _) E2). apply Hover. eauto. }
      apply N.leb_gt in Hf. specialize (Hle vd Hin Hns). lia.
Qed.

Lemma available_iff kind e :
  evidence_available kind e = true ↔ ee_kind e = kind ∧ ee_status e = EvidenceStatus.Available.
Proof. unfold evidence_available. by rewrite andb_true_iff, !bool_decide_eq_true. Qed.

Lemma bound_iff kind :
  existsb (λ b, bool_decide (eb_evidence_id b ∈
    map ee_id (List.filter (evidence_available kind) (vs_evidence_statuses st))))
    (vs_evidence_bindings st) = true ↔ satisfies st inputs (EvidenceBound kind).
Proof.
  rewrite existsb_true. setoid_rewrite bool_decide_eq_true. setoid_rewrite list_elem_of_fmap.
  setoid_rewrite elem_filter. setoid_rewrite available_iff. simpl. naive_solver.
Qed.

Lemma len_nil_iff {A} (l : list A) : (len l =? 0) = true ↔ l = [].
Proof. rewrite N.eqb_eq. unfold len. destruct l; simpl; [done|]. split; [lia|done]. Qed.

Lemma is_path_iff r (R : string → string → Prop) x y :
  (∃ path, r = Some (Some path) ∧ walk R x y path) ∨ (r = Some None ∧ ¬ rtc R x y) →
  ∃ b, is_path r = Some b ∧ (b = true ↔ rtc R x y).
Proof.
  intros [(path & -> & Hw)|[-> Hn]]; [exists true|exists false]; simpl; (split; [done|]).
  - split; [intros _; by eapply walk_rtc|done].
  - by split.
Qed.

(** Every leaf returns, and passes exactly when the requirement is satisfied. *)
Lemma eval_passed_spec r : ∃ b, eval_passed r st inputs = Some b ∧ (b = true ↔ satisfies st inputs r).
Proof.
  destruct r; cbn [eval_passed]; unfold trusted; try apply passed_iff.
  - done.
  - by rewrite andb_true_iff, !bool_decide_eq_true.
  - by rewrite negb_true_iff, bool_decide_eq_false.
  - by rewrite bool_decide_eq_true.
  - apply not_expired_iff.
  - rewrite forallb_Forall, Forall_forall. simpl. setoid_rewrite negb_true_iff.
    by setoid_rewrite bool_decide_eq_false.
  - apply len_nil_iff.
  - by rewrite bool_decide_eq_true.
  - unfold has_transparency. by rewrite bool_decide_eq_true.
  - simpl. destruct (N.eqb_spec (in_verified_at inputs) 0); [naive_solver|].
    unfold u64_saturating_sub. rewrite N.leb_le. split; [intros; split; [done|lia]|lia].
  - simpl. case_bool_decide; simpl; [|apply passed_iff; naive_solver].
    case_bool_decide; simpl; [|apply passed_iff; naive_solver].
    destruct (is_path_iff _ _ _ _ (delegation_chain_spec scope root issuer)) as (b & -> & Hb).
    apply passed_iff. rewrite Hb. naive_solver.
  - apply is_path_iff, identity_path_spec.
  - apply transparency_iff.
  - apply len_nil_iff.
  - apply vocabulary_iff.
  - rewrite existsb_true. setoid_rewrite available_iff. done.
  - apply bound_iff.
  - by rewrite bool_decide_eq_true.
  - by rewrite negb_true_iff, bool_decide_eq_false.
  - unfold eval_claim_field, verdict. rewrite <- claim_field_iff. by destruct (existsb _ _).
Qed.

(** The result of a leaf says what it is about and whether it holds. *)
Definition reports (r : Requirement) (res : RequirementResult) : Prop :=
  rr_requirement res = describe r ∧ (rr_passed res = true ↔ satisfies st inputs r).

Lemma eval_one_spec r : ∃ res, eval_one r st inputs = Some res ∧ reports r res.
Proof.
  unfold eval_one, reports. destruct (eval_passed_spec r) as (b & -> & Hb). simpl.
  eexists. split; [done|]. by destruct b.
Qed.

Lemma eval_all_spec reqs :
  ∃ results, mapM (λ req, eval_one req st inputs) reqs = Some results ∧ Forall2 reports reqs results.
Proof.
  induction reqs as [|r reqs (results & IH & HF)]; [by exists []|].
  destruct (eval_one_spec r) as (res & Hr & Hres). exists (res :: results).
  simpl. rewrite Hr. simpl. rewrite IH. split; [done|by constructor].
Qed.

(** The leaves of an expression, in evaluation order. *)
Fixpoint leaves (e : PolicyExpr) : list Requirement :=
  match e with
  | Leaf r => [r]
  | All cs | Any cs | Threshold _ cs => concat (map leaves cs)
  | Not c => leaves c
  end.

Definition evaluates (e : PolicyExpr) : Prop :=
  ∃ b rs, eval_expr e st inputs = Some (b, rs) ∧ decides st inputs e b ∧ Forall2 reports (leaves e) rs.

Lemma eval_list_spec cs :
  Forall evaluates cs →
  ∃ bs rs, eval_list (λ c, eval_expr c st inputs) cs = Some (bs, rs) ∧
    Forall2 (decides st inputs) cs bs ∧ Forall2 reports (concat (map leaves cs)) rs.
Proof.
  induction 1 as [|c cs (b & rs & Hc & Hd & Hr) _ (bs & rs' & IH & HF & HR)]; [by exists [], []|].
  exists (b :: bs), (rs ++ rs'). simpl. rewrite Hc. simpl. rewrite IH. simpl.
  split_and!; [done|by constructor|by apply Forall2_app].
Qed.

Lemma foldl_andb bs acc : foldl (λ ok b, b && ok) acc bs = acc && forallb id bs.
Proof.
  revert acc. induction bs as [|b bs IH]; intros acc; simpl; [by rewrite andb_true_r|].
  rewrite IH. unfold id at 2. rewrite (andb_comm b acc). by rewrite andb_assoc.
Qed.
Lemma foldl_orb bs acc : foldl (λ ok b, b || ok) acc bs = acc || existsb id bs.
Proof.
  revert acc. induction bs as [|b bs IH]; intros acc; simpl; [by rewrite orb_false_r|].
  rewrite IH. unfold id at 2. rewrite (orb_comm b acc). by rewrite orb_assoc.
Qed.

Lemma eval_expr_spec e : evaluates e.
Proof.
  induction e as [r|cs IH|cs IH|c (b & rs & Hc & Hd & Hr)|k cs IH]; unfold evaluates; cbn [eval_expr].
  - destruct (eval_one_spec r) as (res & -> & Hres). exists (rr_passed res), [res].
    split_and!; [done|apply decides_leaf, Hres|by apply Forall2_cons].
  - destruct (eval_list_spec cs IH) as (bs & rs & -> & HF & HR). exists (forallb id bs), rs.
    simpl. rewrite foldl_andb. split_and!; [done|by apply decides_all|done].
  - destruct (eval_list_spec cs IH) as (bs & rs & -> & HF & HR). exists (existsb id bs), rs.
    simpl. rewrite foldl_orb. split_and!; [done|by apply decides_any|done].
  - rewrite Hc. exists (negb b), rs. split_and!; [done|by apply decides_not|done].
  - destruct (eval_list_spec cs IH) as (bs & rs & -> & HF & HR). eexists _, rs.
    split_and!; [done|by apply decides_threshold|done].
Qed.

(** An expression decides one way only. *)
Lemma decides_fun e b b' : decides st inputs e b → decides st inputs e b' → b = b'.
Proof.
  assert (∀ cs, Forall (λ e, ∀ b b', decides st inputs e b → decides st inputs e b' → b = b') cs →
    ∀ bs bs', Forall2 (decides st inputs) cs bs → Forall2 (decides st inputs) cs bs' → bs = bs') as Hl.
  { induction 1 as [|c cs Hc _ IH]; intros bs bs' H1 H2.
    - by apply Forall2_nil_inv_l in H1 as ->; apply Forall2_nil_inv_l in H2 as ->.
    - apply Forall2_cons_inv_l in H1 as (b1 & bs1 & Hb1 & Hbs1 & ->).
      apply Forall2_cons_inv_l in H2 as (b2 & bs2 & Hb2 & Hbs2 & ->). f_equal; eauto. }
  revert b b'. induction e as [r|cs IH|cs IH|c IH|k cs IH]; intros b b' H1 H2;
    inversion H1; inversion H2; subst; try (f_equal; by eauto).
  - apply eq_true_iff_eq. etrans; [done|by symmetry].
  - f_equal. f_equal. eauto.
Qed.

(** What the whole evaluation promises. *)
Inductive outcome_spec (policy : Policy) : PolicyDecision.t → list RequirementResult → Prop :=
| outcome_broken :
    vs_crypto_valid st = false ∨ vs_evidence_valid st = false →
    outcome_spec policy PolicyDecision.Indeterminate []
| outcome_v1 (b : bool) results :
    vs_crypto_valid st = true → vs_evidence_valid st = true → pol_version policy ≠ 2 →
    Forall2 reports (pol_requirements policy) results →
    (b = true ↔ ∀ r, r ∈ pol_requirements policy → satisfies st inputs r) →
    outcome_spec policy (decision_of b) results
| outcome_v2 e b results :
    vs_crypto_valid st = true → vs_evidence_valid st = true → pol_version policy = 2 →
    pol_expression policy = Some e → decides st inputs e b →
    Forall2 reports (leaves e) results →
    outcome_spec policy (decision_of b) results
| outcome_no_expression :
    vs_crypto_valid st = true → vs_evidence_valid st = true → pol_version policy = 2 →
    pol_expression policy = None → outcome_spec policy PolicyDecision.Indeterminate [].

Lemma reports_all reqs results :
  Forall2 reports reqs results →
  forallb rr_passed results = true ↔ ∀ r, r ∈ reqs → satisfies st inputs r.
Proof.
  induction 1 as [|r res reqs results [_ Hr] _ IH]; simpl; [set_solver|].
  rewrite andb_true_iff, Hr, IH. set_solver.
Qed.

Lemma evaluate_policy_spec policy :
  ∃ o, evaluate_policy st policy inputs = Some o ∧ po_policy_id o = pol_id policy ∧
       outcome_spec policy (po_decision o) (po_results o).
Proof.
  unfold evaluate_policy.
  destruct (vs_crypto_valid st) eqn:Hc; simpl;
    [|eexists; split_and!; [done..|by apply outcome_broken; left]].
  destruct (vs_evidence_valid st) eqn:He; simpl;
    [|eexists; split_and!; [done..|by apply outcome_broken; right]].
  destruct (N.eqb_spec (pol_version policy) 2) as [Hv|Hv].
  - destruct (pol_expression policy) as [e|] eqn:Hexpr.
    + destruct (eval_expr_spec e) as (b & rs & -> & Hd & Hr). eexists. split_and!; [done..|].
      by eapply outcome_v2.
    + eexists. split_and!; [done..|]. by apply outcome_no_expression.
  - destruct (eval_all_spec (pol_requirements policy)) as (results & -> & HF).
    eexists. split_and!; [done..|]. apply outcome_v1; try done. by apply reports_all.
Qed.


(** The searches behind the adjudication leaves decide reachability.  Both
    return; a delegation chain is found exactly when the root reaches the issuer
    by active grants of the required scope, an identity path exactly when the
    two identifiers are connected by trusted, active assertions; and what is
    returned is such a chain from the first to the second. *)
Theorem path_searches_exact scope root target a b :
  ((∃ chain, delegation_chain st root target scope = Some (Some chain) ∧
             walk (delegates st scope) root target chain) ∨
   (delegation_chain st root target scope = Some None ∧ ¬ rtc (delegates st scope) root target)) ∧
  ((∃ path, identity_path st inputs a b = Some (Some path) ∧
            walk (same_identity st inputs) a b path) ∨
   (identity_path st inputs a b = Some None ∧ ¬ rtc (same_identity st inputs) a b)).
Proof. split; [apply delegation_chain_spec|apply identity_path_spec]. Qed.

(** Freshness does not bound the future.  A proof dated after the verifier's
    clock passes [proof_fresh] for every maximal age, however far ahead it is
    dated. *)
Theorem proof_fresh_accepts_future max_age
  (Hclock : in_verified_at inputs ≠ 0)
  (Hfuture : in_verified_at inputs <= vs_proof_created_at st) :
  eval_one (ProofFresh max_age) st inputs = Some (pass (describe (ProofFresh max_age))).
Proof.
  unfold eval_one, eval_passed, verdict. destruct (N.eqb_spec (in_verified_at inputs) 0); [done|].
  unfold u64_saturating_sub. replace (in_verified_at inputs - vs_proof_created_at st) with 0 by lia.
  by destruct max_age.
Qed.
End refinement.
