(* ===== verification/Context.v ===== *)
(** Context: the caller-facing inputs of verification and batch runs,
    [crates/proof-verify/src/context.rs], [status.rs] and [batch.rs].

    [StatusSource] is the trait as a class, with its in-memory implementation;
    [VerificationContext] is the single normative context and [to_verify_ctx]
    its projection to the pipeline's inputs; [verify_batch] runs the pipeline
    on many proofs.  The theorem: a batch is exactly the sequence of its lone
    runs, whatever some of its members are. *)
From Stdlib Require Import Strings.Byte NArith ZArith Lia.
From S2P Require Import Prelude Core External Cbor Schema Graph Ident Claim Cose.
From S2P Require Import Report Pipeline PipelineFacts Verdicts.

(** * Status sources *)

(** The trait; [known_at] defaults to [None] in the source. *)
Class StatusSource (Src : Type) := {
  status_at : Src → N → Result (list SignedStatus);
  known_at : Src → option N;
}.

Record VecStatusSource : Set := mkVecSource {
  vss_objects : list SignedStatus;
  vss_known_at : option N;
}.
#[export] Instance vec_status_source : StatusSource VecStatusSource := {|
  status_at s _ := Ok (vss_objects s);
  known_at s := vss_known_at s;
|}.

(** * The normative context *)

Record VerificationContext : Type := mkVerificationContext {
  vc_verified_at : N;
  vc_clock_skew_leeway : N;
  vc_allowed_algs : AllowedAlgs;
  vc_trusted_issuers : list string;
  vc_revocation_authorities : list string;
  vc_status_objects : list SignedStatus;
  vc_revocations_known_at : option N;
  vc_limits : Limits;
  vc_allow_remote : bool;
  vc_report_all_failures : bool;
  vc_accepted_vocabularies : list VocabularyAccept;
  vc_extra_grounded : list string;
  vc_require_acyclic_provenance : bool;
  vc_require_status_feed : bool;
}.

Definition default_context : VerificationContext := {|
  vc_verified_at := 0; vc_clock_skew_leeway := 300; vc_allowed_algs := algs_strict;
  vc_trusted_issuers := []; vc_revocation_authorities := []; vc_status_objects := [];
  vc_revocations_known_at := None; vc_limits := default_limits; vc_allow_remote := false;
  vc_report_all_failures := false; vc_accepted_vocabularies := []; vc_extra_grounded := [];
  vc_require_acyclic_provenance := false; vc_require_status_feed := true |}.

Definition to_verify_ctx (c : VerificationContext) : VerifyCtx := {|
  verified_at := vc_verified_at c; clock_skew_leeway := vc_clock_skew_leeway c;
  trusted_issuers := vc_trusted_issuers c; allow_remote := vc_allow_remote c;
  allowed_algs := vc_allowed_algs c; ctx_limits := vc_limits c;
  ctx_status_objects := vc_status_objects c;
  revocation_authorities := vc_revocation_authorities c;
  revocations_known_at := vc_revocations_known_at c;
  report_all_failures := vc_report_all_failures c;
  accepted_vocabularies := vc_accepted_vocabularies c; extra_grounded := vc_extra_grounded c;
  require_acyclic_provenance := vc_require_acyclic_provenance c;
  require_status_feed := vc_require_status_feed c |}.

(** [revocations_known_at] is only filled in when the caller left it open. *)
Definition fill_known_at (have from_source : option N) : option N :=
  match have with None => from_source | Some _ => have end.

(** [VerificationContext::with_status_source]. *)
Definition context_with_status_source `{StatusSource Src} (c : VerificationContext) (source : Src)
    : Result VerificationContext :=
  objects ← status_at source (vc_verified_at c);
  Ok {| vc_verified_at := vc_verified_at c; vc_clock_skew_leeway := vc_clock_skew_leeway c;
        vc_allowed_algs := vc_allowed_algs c; vc_trusted_issuers := vc_trusted_issuers c;
        vc_revocation_authorities := vc_revocation_authorities c; vc_status_objects := objects;
        vc_revocations_known_at := fill_known_at (vc_revocations_known_at c) (known_at source);
        vc_limits := vc_limits c; vc_allow_remote := vc_allow_remote c;
        vc_report_all_failures := vc_report_all_failures c;
        vc_accepted_vocabularies := vc_accepted_vocabularies c;
        vc_extra_grounded := vc_extra_grounded c;
        vc_require_acyclic_provenance := vc_require_acyclic_provenance c;
        vc_require_status_feed := vc_require_status_feed c |}.

(** [VerifyCtx::with_status_source]. *)
Definition ctx_with_status_source `{StatusSource Src} (ctx : VerifyCtx) (source : Src)
    : Result VerifyCtx :=
  objects ← status_at source (verified_at ctx);
  Ok {| verified_at := verified_at ctx; clock_skew_leeway := clock_skew_leeway ctx;
        trusted_issuers := trusted_issuers ctx; allow_remote := allow_remote ctx;
        allowed_algs := allowed_algs ctx; ctx_limits := ctx_limits ctx;
        ctx_status_objects := objects; revocation_authorities := revocation_authorities ctx;
        revocations_known_at := fill_known_at (revocations_known_at ctx) (known_at source);
        report_all_failures := report_all_failures ctx;
        accepted_vocabularies := accepted_vocabularies ctx; extra_grounded := extra_grounded ctx;
        require_acyclic_provenance := require_acyclic_provenance ctx;
        require_status_feed := require_status_feed ctx |}.

(** * Batches *)

Record BatchMember : Set := mkBatchMember { bm_index : N; bm_report : VerifyReport }.
Record BatchReport : Set := mkBatchReport {
  br_members : list BatchMember;
  br_crypto_valid_count : N;
  br_evidence_valid_count : N;
}.

Definition batch_complete (b : BatchReport) (inputs : N) : bool := len (br_members b) =? inputs.
Definition all_valid (b : BatchReport) : bool :=
  negb (len (br_members b) =? 0)
  && (br_crypto_valid_count b =? len (br_members b))
  && (br_evidence_valid_count b =? len (br_members b)).

Section batch.
Context `{Base64Url, Sha2, SignatureSchemes, HashOrder}.

(** The member loop, over the index and the two counters. *)
Fixpoint batch_loop (ctx : VerifyCtx) (index : N) (canonicals : list (list byte)) (acc : BatchReport)
    : option (Result BatchReport) :=
  match canonicals with
  | [] => Some (Ok acc)
  | bytes :: canonicals' =>
      r ← verify_proof bytes ctx;
      match r with
      | Err e => Some (Err e)
      | Ok report =>
          batch_loop ctx (index + 1) canonicals'
            {| br_members := br_members acc ++ [{| bm_index := index; bm_report := report |}];
               br_crypto_valid_count := br_crypto_valid_count acc +
                 (if bool_decide (cryptographic_validity report = Validity.Valid) then 1 else 0);
               br_evidence_valid_count := br_evidence_valid_count acc +
                 (if bool_decide (evidence_validity report = Validity.Valid) then 1 else 0) |}
      end
  end.

Definition verify_batch (canonicals : list (list byte)) (ctx : VerifyCtx) (max_batch_size : N)
    : option (Result BatchReport) :=
  if max_batch_size <? len canonicals then Some (Err ErrorCode.LimitExceeded) else
  batch_loop ctx 0 canonicals
    {| br_members := []; br_crypto_valid_count := 0; br_evidence_valid_count := 0 |}.
End batch.

(** Both ways of attaching a feed give the pipeline the same inputs. *)
Lemma status_source_commutes `{StatusSource Src} c (source : Src) :
  (to_verify_ctx <$> context_with_status_source c source) =
  ctx_with_status_source (to_verify_ctx c) source.
Proof.
  unfold context_with_status_source, ctx_with_status_source. simpl.
  by destruct (status_at source (vc_verified_at c)).
Qed.

Section batch_facts.
Context `{Base64Url, Sha2, SignatureSchemes, HashOrderLaws}.

Definition is_valid (r : VerifyReport) : Prop :=
  cryptographic_validity r = Validity.Valid ∧ evidence_validity r = Validity.Valid.

(** Members, counters and indices of a list of reports. *)
Definition tally (p : VerifyReport → Validity.t) (rs : list VerifyReport) : N :=
  len (List.filter (λ r, bool_decide (p r = Validity.Valid)) rs).
Definition members_from (i : N) (rs : list VerifyReport) : list BatchMember :=
  map (λ p, {| bm_index := p.1; bm_report := p.2 |}) (enumerate_from i rs).

Lemma tally_cons p r rs :
  tally p (r :: rs) = (if bool_decide (p r = Validity.Valid) then 1 else 0) + tally p rs.
Proof. unfold tally. simpl. case_bool_decide; rewrite ?len_cons; lia. Qed.

Lemma batch_loop_spec ctx cs rs i acc :
  Forall2 (λ bytes r, verify_proof bytes ctx = Some (Ok r)) cs rs →
  batch_loop ctx i cs acc =
  Some (Ok {| br_members := br_members acc ++ members_from i rs;
              br_crypto_valid_count := br_crypto_valid_count acc + tally cryptographic_validity rs;
              br_evidence_valid_count := br_evidence_valid_count acc + tally evidence_validity rs |}).
Proof.
  intros HF. revert i acc. induction HF as [|bytes r cs rs Hr _ IH]; intros i acc.
  { simpl. unfold members_from, tally. simpl. rewrite app_nil_r, !N.add_0_r. by destruct acc. }
  cbn [batch_loop]. rewrite Hr. cbn [mbind option_bind]. rewrite IH.
  cbn [br_members br_crypto_valid_count br_evidence_valid_count].
  rewrite !tally_cons, <- app_assoc. do 3 f_equal; lia.
Qed.

Lemma reports_exist ctx cs :
  misuse ctx = false → ∃ rs, Forall2 (λ bytes r, verify_proof bytes ctx = Some (Ok r)) cs rs.
Proof.
  intros Hm. induction cs as [|bytes cs [rs IH]]; [by exists []|].
  destruct (verify_proof_spec bytes ctx Hm) as (r & Hr & _). exists (r :: rs). by constructor.
Qed.

Lemma tally_all p rs : tally p rs = len rs ↔ ∀ r, r ∈ rs → p r = Validity.Valid.
Proof.
  induction rs as [|r rs IH]; [unfold tally; simpl; set_solver|].
  assert (tally p rs <= len rs) as Hle.
  { clear. unfold tally. induction rs as [|r rs IH]; simpl; [done|].
    case_bool_decide; rewrite ?len_cons; lia. }
  rewrite tally_cons, len_cons. case_bool_decide as Hr.
  - split; [intros Heq|intros Hall].
    + assert (tally p rs = len rs) as Ht by lia. rewrite IH in Ht. set_solver.
    + assert (tally p rs = len rs) by (apply IH; set_solver). lia.
  - split; [lia|]. intros Hall. destruct Hr. apply Hall. left.
Qed.

Lemma members_lookup rs i n r :
  rs !! n = Some r → members_from i rs !! n = Some {| bm_index := i + N.of_nat n; bm_report := r |}.
Proof.
  unfold members_from. revert i n. induction rs as [|r' rs IH]; intros i n Hn; [done|].
  destruct n as [|n]; simpl in *; [simplify_eq; do 2 f_equal; lia|].
  rewrite IH by done. do 2 f_equal. lia.
Qed.
Lemma members_length rs i : length (members_from i rs) = length rs.
Proof.
  unfold members_from. rewrite length_map. revert i. induction rs; intros; simpl; [done|]. by f_equal.
Qed.

(** A batch is its lone runs.  Within the size cap and without caller
    misuse a batch returns one member per input, in order, each the report a
    lone run on that input gives, invalid members included; and the batch is
    valid exactly when it is not empty and every lone run is valid in both
    dimensions. *)
Theorem verify_batch_sequential cs ctx max
  (Hmax : len cs <= max) (Hm : misuse ctx = false) :
  ∃ b, verify_batch cs ctx max = Some (Ok b) ∧ batch_complete b (len cs) = true ∧
    (∀ n bytes, cs !! n = Some bytes → ∃ r, verify_proof bytes ctx = Some (Ok r) ∧
       br_members b !! n = Some {| bm_index := N.of_nat n; bm_report := r |}) ∧
    (all_valid b = true ↔ cs ≠ [] ∧
       ∀ bytes, bytes ∈ cs → ∃ r, verify_proof bytes ctx = Some (Ok r) ∧ is_valid r).
Proof.
  destruct (reports_exist ctx cs Hm) as [rs HF].
  pose proof (Forall2_length _ _ _ HF) as Hlen.
  unfold verify_batch. rewrite (proj2 (N.ltb_ge _ _) Hmax), (batch_loop_spec _ _ _ _ _ HF).
  eexists. split; [done|]. unfold batch_complete, all_valid.
  cbn [br_members br_crypto_valid_count br_evidence_valid_count app].
  assert (len (members_from 0 rs) = len rs) as -> by (unfold len; by rewrite members_length).
  split_and!.
  - apply N.eqb_eq. unfold len. by rewrite Hlen.
  - intros n bytes Hn. destruct (Forall2_lookup_l _ _ _ _ _ HF Hn) as (r & Hr & Hv).
    exists r. split; [done|]. by rewrite (members_lookup rs 0 n r Hr).
  - rewrite !andb_true_iff, negb_true_iff, N.eqb_neq, !N.eqb_eq, !N.add_0_l, !tally_all. split.
    + intros [[Hne Hc] He]. split; [intros ->; by apply Forall2_nil_inv_l in HF as ->|].
      intros bytes (n & Hn)%list_elem_of_lookup.
      destruct (Forall2_lookup_l _ _ _ _ _ HF Hn) as (r & Hr & Hv). exists r. split; [done|].
      apply list_elem_of_lookup_2 in Hr. by split; auto.
    + intros [Hne Hall].
      assert (∀ r, r ∈ rs → is_valid r) as Hv.
      { intros r (n & Hn)%list_elem_of_lookup.
        destruct (Forall2_lookup_r _ _ _ _ _ HF Hn) as (bytes & Hb & Hr).
        destruct (Hall bytes) as (r' & Hr' & Hv); [by eapply list_elem_of_lookup_2|]. congruence. }
      split_and!; [|intros r Hr; by apply Hv..].
      by destruct cs, rs.
Qed.
End batch_facts.

Section batch_witness.
Import Toy GraphSamples PipelineSamples.
End batch_witness.
