(* ===== verification/Combine.v ===== *)
(** Combine: verify a proof and decide a policy on it in one call,
    [crates/proof-policy/src/combine.rs].

    [verify_and_evaluate] composes the pipeline, the projection and the
    evaluator under one context.  The theorems are end to end: from the bytes
    and the caller's inputs to the decision. *)
From Stdlib Require Import Strings.Byte NArith ZArith Lia.
From S2P Require Import Prelude Core External Cbor Schema Graph Ident Claim Cose.
From S2P Require Import Report Pipeline PipelineFacts Verdicts Policy State Eval Context.

Record VerifiedDecision : Type := mkDecision {
  vd_report : VerifyReport;
  vd_state : VerifiedState;
  vd_outcome : PolicyOutcome;
}.

(** [EvalInputs::from(&ctx)], with the revocation set replaced. *)
Definition inputs_from (ctx : VerificationContext) (revocations : RevocationSet) : EvalInputs :=
  {| in_trusted_issuers := vc_trusted_issuers ctx; in_revocations := revocations;
     in_verified_at := vc_verified_at ctx; in_skew_leeway := vc_clock_skew_leeway ctx |}.

Section combine.
Context `{Base64Url, Sha2, SignatureSchemes, HashOrder}.

Definition verify_and_evaluate (bytes : list byte) (ctx : VerificationContext) (policy : Policy)
    (revocations : RevocationSet) : option (Result VerifiedDecision) :=
  if max_trusted_issuers (vc_limits ctx) <? len (vc_trusted_issuers ctx)
  then Some (Err ErrorCode.LimitExceeded) else
  if max_status_objects (vc_limits ctx) <? N.of_nat (size (revoked revocations))
  then Some (Err ErrorCode.LimitExceeded) else
  r ← verify_proof bytes (to_verify_ctx ctx);
  match r with
  | Err e => Some (Err e)
  | Ok report =>
      match (value ← decode_strict bytes (vc_limits ctx);
             proof ← cbor_to_proof value (vc_limits ctx);
             state_from_report_and_proof report proof) with
      | Err e => Some (Err e)
      | Ok st =>
          outcome ← evaluate_policy st policy (inputs_from ctx revocations);
          Some (Ok {| vd_report := report; vd_state := st; vd_outcome := outcome |})
      end
  end.
End combine.

(** * End to end *)

Section end_to_end.
Context `{Base64UrlLaws, Sha2, SignatureSchemes, HashOrderLaws}.

(** The one-shot call refuses exactly what its parts refuse. *)
Definition refused (ctx : VerificationContext) (revocations : RevocationSet) : bool :=
  misuse (to_verify_ctx ctx)
  || (max_status_objects (vc_limits ctx) <? N.of_nat (size (revoked revocations))).

Lemma state_of_run bytes ctx r proof ids rid later :
  full_run bytes ctx r proof ids rid later → ∃ st, state_from_report_and_proof r proof = Ok st.
Proof.
  intros [_ _ _ _ ->]. unfold state_from_report_and_proof. cbn [vr_proof_id finalize ok_or mbind result_bind].
  rewrite bool_decide_eq_false_2 by (intros Hn; by apply Hn). by eexists.
Qed.

(** A decision was taken on a full run. *)
Record decided (bytes : list byte) (ctx : VerificationContext) (policy : Policy)
    (revocations : RevocationSet) (d : VerifiedDecision) (proof : Proof_) : Prop := {
  dc_run : ∃ ids rid later, full_run bytes (to_verify_ctx ctx) (vd_report d) proof ids rid later;
  dc_state : state_from_report_and_proof (vd_report d) proof = Ok (vd_state d);
  dc_outcome : evaluate_policy (vd_state d) policy (inputs_from ctx revocations) = Some (vd_outcome d);
}.

Lemma verify_and_evaluate_inv bytes ctx policy revocations d :
  verify_and_evaluate bytes ctx policy revocations = Some (Ok d) →
  ∃ proof, decided bytes ctx policy revocations d proof.
Proof.
  unfold verify_and_evaluate. destruct (_ <? _); [done|]. destruct (_ <? _); [done|]. intros Hd.
  apply bind_Some in Hd as (res & Hv & Hd). destruct res as [report|]; [|done].
  destruct (decode_strict bytes (vc_limits ctx)) as [value|] eqn:Hdec; [|done]. simpl in Hd.
  destruct (cbor_to_proof value (vc_limits ctx)) as [proof|] eqn:Hp; [|done]. simpl in Hd.
  destruct (state_from_report_and_proof report proof) as [st|] eqn:Hst; [|done]. simpl in Hd.
  apply bind_Some in Hd as (o & Ho & Hd). simplify_eq. exists proof. split; [|done|done].
  apply verify_proof_inv in Hv as [_ [Hs|(proof' & ids & rid & later & Hf)]].
  { exfalso. eapply (stopped_parses _ _ _ proof Hs). by exists value. }
  assert (proof' = proof) as <-.
  { eapply parses_inj; [apply Hf|]. by exists value. }
  by exists ids, rid, later.
Qed.

(** One-shot verification is total.  It returns, with a decision exactly
    when the inputs are within their bounds, no remote fetch is asked for and
    the bytes parse as a proof; every other run is an error, never a decision. *)
Theorem verify_and_evaluate_total bytes ctx policy revocations :
  (∃ res, verify_and_evaluate bytes ctx policy revocations = Some res) ∧
  ((∃ d, verify_and_evaluate bytes ctx policy revocations = Some (Ok d)) ↔
   refused ctx revocations = false ∧ ∃ proof, parses bytes (to_verify_ctx ctx) proof).
Proof.
  unfold verify_and_evaluate, refused.
  destruct (max_trusted_issuers (vc_limits ctx) <? len (vc_trusted_issuers ctx)) eqn:Ht.
  { split; [by eexists|]. split; [by intros []|]. unfold misuse. simpl. rewrite Ht.
    rewrite !orb_true_r. by intros []. }
  destruct (max_status_objects (vc_limits ctx) <? N.of_nat (size (revoked revocations))) eqn:Hrv.
  { split; [by eexists|]. split; [by intros []|]. rewrite orb_true_r. by intros []. }
  rewrite orb_false_r. destruct (misuse (to_verify_ctx ctx)) eqn:Hm.
  { destruct (verify_proof_misuse bytes _ Hm) as (e & -> & _). simpl.
    split; [by eexists|]. split; [by intros []|by intros []]. }
  destruct (verify_proof_spec bytes _ Hm) as (r & -> & Hrun). simpl.
  destruct Hrun as [Hs|(proof & ids & rid & later & Hf)].
  - assert (∀ proof, ¬ parses bytes (to_verify_ctx ctx) proof) as Hnp
      by (intros proof; by eapply stopped_parses).
    destruct (decode_strict bytes (vc_limits ctx)) as [value|e] eqn:Hdec; simpl;
      [|split; [by eexists|split; [by intros []|intros [_ [p Hp]]; by destruct (Hnp p)]]].
    destruct (cbor_to_proof value (vc_limits ctx)) as [p|e] eqn:Hp; simpl.
    { destruct (Hnp p). by exists value. }
    split; [by eexists|split; [by intros []|intros [_ [p Hp']]; by destruct (Hnp p)]].
  - destruct (fr_parse _ _ _ _ _ _ _ Hf) as (value & Hdec & Hp). simpl in Hdec, Hp.
    rewrite Hdec. simpl. rewrite Hp. simpl. destruct (state_of_run _ _ _ _ _ _ _ Hf) as (st & ->).
    destruct (evaluate_policy_spec st (inputs_from ctx revocations) policy) as (o & -> & _). simpl.
    split; [by eexists|]. split; [intros _|by eexists]. split; [done|]. exists proof. apply Hf.
Qed.
(** A policy demands a requirement if it cannot pass without it: a listed one
    in version 1, a leaf under nothing but [all] in version 2. *)
Inductive demanded (r : Requirement) : PolicyExpr → Prop :=
| demanded_leaf : demanded r (Leaf r)
| demanded_all c cs : c ∈ cs → demanded r c → demanded r (All cs).
Inductive demands (policy : Policy) (r : Requirement) : Prop :=
| demands_v1 : pol_version policy ≠ 2 → r ∈ pol_requirements policy → demands policy r
| demands_v2 e : pol_version policy = 2 → pol_expression policy = Some e → demanded r e →
    demands policy r.

Lemma decides_leaf_inv st inputs r b : decides st inputs (Leaf r) b → (b = true ↔ satisfies st inputs r).
Proof. by inversion 1. Qed.
Lemma decides_all_inv st inputs cs b :
  decides st inputs (All cs) b → ∃ bs, Forall2 (decides st inputs) cs bs ∧ b = forallb id bs.
Proof. inversion 1; eauto. Qed.

Lemma demanded_satisfied st inputs r e :
  demanded r e → decides st inputs e true → satisfies st inputs r.
Proof.
  induction 1 as [|c cs Hin _ IH]; intros Hd.
  - by apply decides_leaf_inv in Hd as [Hd _]; apply Hd.
  - apply IH. apply decides_all_inv in Hd as (bs & HF & Heq). symmetry in Heq.
    apply list_elem_of_lookup in Hin as [i Hi].
    destruct (Forall2_lookup_l _ _ _ _ _ HF Hi) as (b & Hb & Hc).
    rewrite forallb_Forall, Forall_forall in Heq. apply list_elem_of_lookup_2, Heq in Hb.
    unfold id in Hb. by subst.
Qed.

(** What a PASS rests on. *)
Lemma pass_spec st inputs policy o :
  evaluate_policy st policy inputs = Some o → po_decision o = PolicyDecision.Pass →
  vs_crypto_valid st = true ∧ vs_evidence_valid st = true ∧
  ∀ r, demands policy r → satisfies st inputs r.
Proof.
  intros Ho Hp. destruct (evaluate_policy_spec st inputs policy) as (o' & Ho' & _ & Hs).
  assert (o' = o) as -> by congruence. rewrite Hp in Hs.
  remember PolicyDecision.Pass as dec eqn:Hdec. destruct Hs as [?|b rs Hc He Hv HF Hb|e b rs Hc He Hv Hx Hd HF|?];
    try done; (split_and!; [done..|]); intros r; unfold decision_of in Hdec; destruct b; try done.
  - intros [_ Hin|? Hv2]; [|done]. by apply Hb.
  - intros [Hv1|e' _ He' Hd']; [done|]. simplify_eq. by eapply demanded_satisfied.
Qed.

(** An authentic statement of the proof that still stands. *)
Definition standing_statement (ctx : VerifyCtx) (proof : Proof_) (a : StoredAttestation) : Prop :=
  a ∈ prf_attestations proof ∧ authentic ctx a ∧
  claim_kind (sa_content a) = ClaimKind.Statement ∧
  standing ctx proof (member_attestation_id a, sa_content a).

Section run.
Context (bytes : list byte) (ctx : VerifyCtx) (r : VerifyReport) (proof : Proof_)
  (ids : list string) (rid : string) (later : Later)
  (Hf : full_run bytes ctx r proof ids rid later)
  (Hcrypto : cryptographic_validity r = Validity.Valid)
  (Hevidence : evidence_validity r = Validity.Valid).

Lemma run_authentic a : a ∈ prf_attestations proof → authentic ctx a.
Proof. apply (full_run_crypto _ _ _ _ _ _ _ Hf) in Hcrypto as [_ Ha]. apply Ha. Qed.

Lemma run_status_objects : vr_status_objects r = embedded_ids ctx proof.
Proof.
  destruct (full_run_later _ _ _ _ _ _ _ Hf) as (_ & _ & Hs & _).
  destruct Hf as [_ _ _ _ ->]. cbn [vr_status_objects finalize]. by rewrite Hs.
Qed.

(** Every projected statement is an authentic statement that stands. *)
Lemma run_statements id c :
  (id, c) ∈ statements r proof →
  ∃ a, standing_statement ctx proof a ∧ id = member_attestation_id a ∧ c = sa_content a.
Proof.
  unfold statements. rewrite elem_filter. cbn [fst].
  rewrite andb_true_iff, negb_true_iff, bool_decide_eq_false, run_status_objects.
  intros [Hin [_ Hns]]. unfold with_ids in Hin.
  apply list_elem_of_fmap in Hin as (a & [= -> ->] & Ha).
  pose proof (run_authentic a Ha) as Hau.
  assert ((member_attestation_id a, sa_content a) ∈ verified_of ctx proof) as Hv
    by (apply verified_of_elem; eauto).
  assert (claim_kind (sa_content a) = ClaimKind.Statement) as Hst.
  { destruct (decide (claim_kind (sa_content a) = ClaimKind.Statement)) as [|Hk]; [done|].
    destruct Hns. unfold embedded_ids, embedded_effects. cbn [snd].
    apply list_elem_of_fmap. exists (member_attestation_id a, sa_content a). split; [done|].
    rewrite elem_filter. split; [done|]. unfold is_statement. by rewrite bool_decide_eq_false_2. }
  exists a. split_and!; try done. unfold standing_statement. split_and!; try done.
  apply (full_run_evidence _ _ _ _ _ _ _ Hf) in Hevidence. by apply (cs_standing _ _ _ Hevidence).
Qed.
End run.

(** A passing decision rests on a full run, valid in both dimensions. *)
Lemma pass_run bytes ctx policy revocations d :
  verify_and_evaluate bytes ctx policy revocations = Some (Ok d) →
  po_decision (vd_outcome d) = PolicyDecision.Pass →
  ∃ proof ids rid later, full_run bytes (to_verify_ctx ctx) (vd_report d) proof ids rid later ∧
    state_from_report_and_proof (vd_report d) proof = Ok (vd_state d) ∧
    cryptographic_validity (vd_report d) = Validity.Valid ∧
    evidence_validity (vd_report d) = Validity.Valid ∧
    ∀ r, demands policy r → satisfies (vd_state d) (inputs_from ctx revocations) r.
Proof.
  intros Hd Hpass.
  destruct (verify_and_evaluate_inv _ _ _ _ _ Hd) as (proof & [(ids & rid & later & Hf) Hst Ho]).
  destruct (pass_spec _ _ _ _ Ho Hpass) as (Hc & He & Hall).
  destruct (state_validities _ _ _ Hst) as [Hcv Hev]. rewrite Hcv in Hc. rewrite Hev in He.
  apply bool_decide_eq_true in Hc, He.
  exists proof, ids, rid, later. by split_and!.
Qed.

(** C6: a PASS is never given to a broken proof.  If the one-shot call passes,
    the bytes parse, the stored id is the recomputed one, every attestation is
    authentic, the proof is consistent with its status inputs, and every
    requirement the policy demands is satisfied by the verified state. *)
Theorem pass_is_sound bytes ctx policy revocations d
  (Hd : verify_and_evaluate bytes ctx policy revocations = Some (Ok d))
  (Hpass : po_decision (vd_outcome d) = PolicyDecision.Pass) :
  ∃ proof ids, parses bytes (to_verify_ctx ctx) proof ∧
    recomputed_proof_id proof = Ok (prf_proof_id proof) ∧
    (∀ a, a ∈ prf_attestations proof → authentic (to_verify_ctx ctx) a) ∧
    mapM member_event_id (prf_events proof) = Ok ids ∧ consistent (to_verify_ctx ctx) proof ids ∧
    ∀ r, demands policy r → satisfies (vd_state d) (inputs_from ctx revocations) r.
Proof.
  destruct (pass_run _ _ _ _ _ Hd Hpass) as (proof & ids & rid & later & Hf & Hst & Hc & He & Hall).
  exists proof, ids. split_and!; [apply Hf| | |apply Hf| |done].
  - pose proof (fr_id _ _ _ _ _ _ _ Hf) as Hid.
    apply (full_run_crypto _ _ _ _ _ _ _ Hf) in Hc as [Heq _]. congruence.
  - intros a. by eapply run_authentic.
  - by apply (full_run_evidence _ _ _ _ _ _ _ Hf).
Qed.

(** Projections of the state of a decision. *)
Lemma state_issuers r proof st i :
  state_from_report_and_proof r proof = Ok st → i ∈ vs_verified_issuers st →
  ∃ id c, (id, c) ∈ statements r proof ∧ att_issuer c = i.
Proof.
  unfold state_from_report_and_proof. intros Hs. apply bind_Ok in Hs as (rid & _ & Hs).
  case_bool_decide; [done|]. injection Hs as <-. cbn [vs_verified_issuers].
  intros ([id c] & -> & Hin)%list_elem_of_fmap. eauto.
Qed.
Lemma state_claims r proof st s :
  state_from_report_and_proof r proof = Ok st → s ∈ vs_claims st →
  ∃ id c, (id, c) ∈ statements r proof ∧ s = claim_summary (id, c).
Proof.
  unfold state_from_report_and_proof. intros Hs. apply bind_Ok in Hs as (rid & _ & Hs).
  case_bool_decide; [done|]. injection Hs as <-. cbn [vs_claims].
  intros ([id c] & -> & Hin)%list_elem_of_fmap. eauto.
Qed.

(** C7: trust is never conferred by a signature alone, nor by a listing alone.
    If a passing policy demands [issuer_trusted i], then [i] is on the
    verifier's list and the proof carries a statement by [i] that verifies
    under the key [i] names and still stands: within its window, not revoked,
    not issued by a compromised key. *)
Theorem issuer_trusted_sound bytes ctx policy revocations d i
  (Hd : verify_and_evaluate bytes ctx policy revocations = Some (Ok d))
  (Hpass : po_decision (vd_outcome d) = PolicyDecision.Pass)
  (Hr : demands policy (IssuerTrusted i)) :
  i ∈ vc_trusted_issuers ctx ∧
  ∃ proof a, parses bytes (to_verify_ctx ctx) proof ∧
    standing_statement (to_verify_ctx ctx) proof a ∧ att_issuer (sa_content a) = i.
Proof.
  destruct (pass_run _ _ _ _ _ Hd Hpass) as (proof & ids & rid & later & Hf & Hst & Hc & He & Hall). destruct (Hall _ Hr) as [Hl Hi]. split; [done|].
  destruct (state_issuers _ _ _ _ Hst Hi) as (id & c & Hin & <-).
  destruct (run_statements _ _ _ _ _ _ _ Hf Hc He _ _ Hin) as (a & Ha & _ & ->).
  exists proof, a. split_and!; [apply Hf|done|done].
Qed.

(** An adjudicated claim field is a signed fact.  If a passing policy
    demands a [claim_field], some statement of the proof that is authentic and
    still stands carries the field, in the asked type and subject, with a value
    that compares as asked. *)
Theorem claim_field_sound bytes ctx policy revocations d ty subject field op value
  (Hd : verify_and_evaluate bytes ctx policy revocations = Some (Ok d))
  (Hpass : po_decision (vd_outcome d) = PolicyDecision.Pass)
  (Hr : demands policy (ClaimField ty subject field op value)) :
  ∃ proof a v, parses bytes (to_verify_ctx ctx) proof ∧
    standing_statement (to_verify_ctx ctx) proof a ∧
    (∀ t, ty = Some t → claim_type (att_claim (sa_content a)) = t) ∧
    (∀ s, subject = Some s → att_subject (sa_content a) = s) ∧
    has_field field v (claim_fields (att_claim (sa_content a))) ∧ compares v op value.
Proof.
  destruct (pass_run _ _ _ _ _ Hd Hpass) as (proof & ids & rid & later & Hf & Hst & Hc & He & Hall).
  destruct (Hall _ Hr) as (s & v & Hs & _ & Hty & Hsub & Hfield & Hcmp).
  destruct (state_claims _ _ _ _ Hst Hs) as (id & c & Hin & ->).
  destruct (run_statements _ _ _ _ _ _ _ Hf Hc He _ _ Hin) as (a & Ha & _ & ->).
  exists proof, a, v. split_and!; [apply Hf|done..].
Qed.
End end_to_end.

Module DecisionSamples.
Import Toy GraphSamples CoseSamples PipelineSamples.
Definition context (issuers : list string) : VerificationContext := {|
  vc_verified_at := 150; vc_clock_skew_leeway := 300; vc_allowed_algs := algs_strict;
  vc_trusted_issuers := issuers; vc_revocation_authorities := []; vc_status_objects := [];
  vc_revocations_known_at := Some 140; vc_limits := default_limits; vc_allow_remote := false;
  vc_report_all_failures := false; vc_accepted_vocabularies := []; vc_extra_grounded := [];
  vc_require_acyclic_provenance := true; vc_require_status_feed := false |}.
Definition issuer : string := Eval vm_compute in key_ref seed.
Definition field : Requirement :=
  ClaimField (Some "observed") None "order" FieldOp.Eq (FText "ord-1").
(** The issuer is trusted and says that the order is [ord-1]. *)
Definition policy : Policy := {|
  pol_version := 2; pol_id := "orders"; pol_requirements := [];
  pol_expression := Some (All [Leaf (IssuerTrusted issuer); Leaf field]) |}.
Definition state : VerifiedState := Eval vm_compute in
  match state_from_report_and_proof report proof with
  | Ok st => st
  | Err _ => mkState "" false false false [] [] [] [] [] [] [] 0 [] [] [] [] [] [] [] [] [] [] []
  end.
End DecisionSamples.

Section decision_witnesses.
Import Toy GraphSamples CoseSamples PipelineSamples DecisionSamples.

(** The one-shot run on the sample proof passes for a trusting verifier. *)
Lemma decision_run :
  ∃ d, verify_and_evaluate bytes (context [issuer]) policy RevocationSet_empty = Some (Ok d) ∧
       po_decision (vd_outcome d) = PolicyDecision.Pass.
Proof. eexists. split; vm_compute; reflexivity. Qed.

Lemma pass_is_sound_witness : ∃ p, recomputed_proof_id p = Ok (prf_proof_id p).
Proof.
  destruct decision_run as (d & Hd & Hp).
  destruct (pass_is_sound bytes (context [issuer]) policy RevocationSet_empty d Hd Hp)
    as (p & ids & _ & Hid & _).
  exists p. exact Hid.
Defined.

Lemma issuer_trusted_sound_witness :
  ∃ p a, standing_statement (to_verify_ctx (context [issuer])) p a ∧ att_issuer (sa_content a) = issuer.
Proof.
  destruct decision_run as (d & Hd & Hp).
  destruct (issuer_trusted_sound bytes (context [issuer]) policy RevocationSet_empty d issuer Hd Hp)
    as (_ & p & a & _ & Ha).
  { eapply demands_v2; [reflexivity..|]. eapply demanded_all; [left|constructor]. }
  exists p, a. exact Ha.
Defined.

End decision_witnesses.
