(* ===== verification/Api.v ===== *)
(** Api: the HTTP-facing entry points, [crates/proof-api/src/api.rs].

    [route] answers one request (method, path and body) with a status and a
    body.  Every trust input arrives in the body: [context_from] builds the
    verifier's inputs from it, [proof_bytes] the proof, [parse_statuses] the
    status objects, and the verify, evaluate and ingest routes call the engine.

    A body of an answer keeps its data ([Response]); the JSON value that renders it
    is [Explain.response_json], and the error messages are left out.  The
    theorems: every request is answered and with which status, an evaluation is
    the one-shot decision of [Combine], what the currency flag means, and what
    ingestion returns. *)
From Stdlib Require Import Strings.Byte NArith ZArith Lia.
From S2P Require Import Prelude Core External Cbor Schema Graph Ident Claim Cose.
From S2P Require Import Report Pipeline PipelineFacts Verdicts Envelope Scitt.
From S2P Require Import Policy State Eval Context Combine Text.

(** * Requests *)

Section api.
Context `{SerdeJsonReader, Base64Url, Sha2, SignatureSchemes, HashOrder}.

(** [Value::get(name)], [as_str] and [as_bool]. *)
Definition field (v : json) (name : string) : option json := obj ← as_object v; get obj name.
Definition as_str (v : json) : option string :=
  match json_view v with JString s => Some s | _ => None end.
Definition as_bool (v : json) : option bool :=
  match json_view v with JBool b => Some b | _ => None end.

Definition limits : Limits := default_limits.

Definition hex_decode (s : string) : option (list byte) :=
  if negb (slen s mod 2 =? 0) || negb (forallb Statement.is_ascii_hexdigit (as_bytes s))
  then None else Statement.hex_pairs (as_bytes s).

(** The decoder of statement.rs, repeated in api.rs. *)
Definition b64u_decode (s : string) : option (list byte) :=
  if existsb (λ b, negb (Statement.is_ascii_alphanumeric b || (b2n b =? 0x2D) || (b2n b =? 0x5F)))
       (as_bytes s) then None else
  '(buf, bits, out) ← Statement.b64u_loop (as_bytes s) 0 0 [];
  if (0 <? bits) && negb (buf =? 0) then None else Some out.

Definition proof_of (bytes : list byte) (limits : Limits) : Result Proof_ :=
  value ← decode_strict bytes limits;
  cbor_to_proof value limits.

(** An error of a request is a message, which is not kept. *)
Definition proof_bytes (v : json) : option (list byte) :=
  proof ← field v "proof";
  hex_str ← or_else (field proof "cbor_hex") (field proof "cbor") ≫= as_str;
  bytes ← hex_decode hex_str;
  match or_else (field proof "id") (field proof "proof_id") ≫= as_str with
  | Some claimed =>
      match proof_of bytes limits with
      | Ok parsed => if bool_decide (claimed ≠ prf_proof_id parsed) then None else Some bytes
      | Err _ => None
      end
  | None => Some bytes
  end.

Definition u64_field (v : json) (name : string) (required : bool) : option (option N) :=
  match field v name with
  | None => if required then None else Some None
  | Some x => match json_view x with JNumber n => Some <$> n | _ => None end
  end.

Definition str_list (v : json) (name : string) : option (list string) :=
  match field v name with
  | None => Some []
  | Some x => match json_view x with JArray items => mapM as_str items | _ => None end
  end.

Definition parse_status (item : json) (limits : Limits) : option SignedStatus :=
  issuer ← field item "issuer" ≫= as_str;
  sign1_b64 ← field item "sign1_b64" ≫= as_str;
  sign1 ← b64u_decode sign1_b64;
  match verify_status_object sign1 issuer algs_strict limits with
  | Ok content => Some {| ss_content := content; ss_sign1 := sign1 |}
  | Err _ => None
  end.
Definition parse_statuses (v : json) (limits : Limits) : option (list SignedStatus) :=
  match field v "status" with
  | None => Some []
  | Some x =>
      match json_view x with
      | JArray items => mapM (λ item, parse_status item limits) items
      | _ => None
      end
  end.

Definition bool_field (v : json) (name : string) : bool :=
  default false (field v name ≫= as_bool).

(** One [ns:max] entry of [accepted_vocab]. *)
Definition parse_vocabulary (entry : json) : option VocabularyAccept :=
  s ← as_str entry;
  '(ns, max) ← split_once colon s;
  if sempty ns then None else
  max_version ← parse_u64 (trim max);
  Some {| acc_ns := ns; acc_max_version := max_version |}.
Definition parse_vocabularies (v : json) : option (list VocabularyAccept) :=
  match field v "accepted_vocab" with
  | None => Some []
  | Some x => match json_view x with JArray items => mapM parse_vocabulary items | _ => None end
  end.

Definition context_from (v : json) (limits : Limits) : option VerifyCtx :=
  let production := bool_field v "production" in
  let allowed := algs_strict in
  let allowed := if bool_field v "esp256" then with_esp256 allowed else allowed in
  let allowed := if bool_field v "historical" || bool_field v "allow_deprecated"
                 then with_deprecated allowed else allowed in
  accepted ← parse_vocabularies v;
  clock ← u64_field v "clock" true;
  skew ← u64_field v "skew" false;
  trusted ← str_list v "trusted";
  statuses ← parse_statuses v limits;
  authorities ← str_list v "authority";
  known_at ← u64_field v "revocations_known_at" false;
  grounded ← str_list v "extra_grounded";
  Some {| verified_at := default 0 clock; clock_skew_leeway := default 300 skew;
          trusted_issuers := trusted; allow_remote := allow_remote default_ctx;
          allowed_algs := allowed; ctx_limits := ctx_limits default_ctx;
          ctx_status_objects := statuses; revocation_authorities := authorities;
          revocations_known_at := known_at; report_all_failures := bool_field v "report_all";
          accepted_vocabularies := accepted; extra_grounded := grounded;
          require_acyclic_provenance := bool_field v "require_acyclic" || production;
          require_status_feed := negb (bool_field v "no_require_status") |}.

(** * Answers *)

(** Valid history that is not current: superseded or unknown records. *)
Definition currently_acceptable (report : VerifyReport) : bool :=
  if existsb (λ l, bool_decide (lc_status l = LifecycleStatus.Superseded)
                   || bool_decide (lc_status l = LifecycleStatus.Unknown)) (vr_lifecycle report)
  then false else
  if existsb (λ e, bool_decide (es_status e = EvidenceStatus.Superseded)
                   || (bool_decide (es_status e = EvidenceStatus.Unknown)
                       && str_contains "provenance hint unverified" (es_message e)))
       (vr_evidence_status report)
  then false else true.

Inductive Response : Type :=
| Health
| Version
| Failed
| Verified (report : VerifyReport) (acceptable : bool)
| Evaluated (report : VerifyReport) (outcome : PolicyOutcome) (acceptable currency_fail : bool)
    (explained : bool)
| Ingested (ids : list string) (skipped : list N) (dry_run : bool).

(** [meta]: comma-separated [key=value] pairs with neither side empty. *)
Definition equals_sign : Ascii.ascii := Ascii.ascii_of_N 61.
Definition comma : Ascii.ascii := Ascii.ascii_of_N 44.
Definition parse_pair (pair : string) : option (string * MetaValue) :=
  '(k, val) ← split_once equals_sign pair;
  if sempty k || sempty val then None else Some (k, MText val).
Definition parse_meta (obj : object_t) : option (list (string * MetaValue)) :=
  match get obj "meta" with
  | None => Some []
  | Some meta => s ← as_str meta; mapM parse_pair (split_on comma s)
  end.

Definition digest_algorithm (digest : list byte) : option HashAlgorithm.t :=
  if len digest =? 32 then Some HashAlgorithm.Sha256
  else if len digest =? 48 then Some HashAlgorithm.Sha384 else None.

Definition RECORD_FIELDS : list string := ["type"; "subject"; "payload_hex"; "effective_at"; "meta"].

Definition ok {E A} (r : result E A) : option A := match r with Ok a => Some a | Err _ => None end.

(** The closure [str_field]: a text field that is not empty. *)
Definition str_field (obj : object_t) (name : string) : option string :=
  s ← get obj name ≫= as_str;
  if sempty s then None else Some s.

(** The event a record describes. *)
Definition record_event (value : json) : option EventContent :=
  obj ← as_object value;
  if negb (forallb (λ p : string * json, bool_decide (p.1 ∈ RECORD_FIELDS)) obj) then None else
  digest ← (get obj "payload_hex" ≫= as_str) ≫= hex_decode;
  alg ← digest_algorithm digest;
  metadata ← parse_meta obj;
  event_type ← str_field obj "type";
  subject ← str_field obj "subject";
  effective_at ← get obj "effective_at" ≫= as_u64;
  payload_ref ← ok (HashRef_new alg digest);
  Some {| ev_v := 1; ev_type := event_type; ev_subject := subject; ev_effective_at := effective_at;
          ev_payload_ref := payload_ref; ev_metadata := metadata |}.
Definition ingest_record (value : json) (limits : Limits) : option string :=
  content ← record_event value;
  ce_id <$> ok (create_event content limits).

(** The loop over the lines: blank ones are neither counted nor read; a failure
    ends the loop, or is noted by its line number when [skip_bad]. *)
Fixpoint ingest_loop (limits : Limits) (skip_bad : bool) (text : list string) (line_no : N)
    (ids : list string) (skipped : list N) : result N (list string * list N) :=
  match text with
  | [] => Ok (ids, skipped)
  | raw :: text' =>
      let line := trim raw in
      if sempty line then ingest_loop limits skip_bad text' line_no ids skipped else
      let line_no := line_no + 1 in
      match json_from_slice (as_bytes line) ≫= λ value, ingest_record value limits with
      | Some id => ingest_loop limits skip_bad text' line_no (ids ++ [id]) skipped
      | None =>
          if skip_bad then ingest_loop limits skip_bad text' line_no ids (skipped ++ [line_no])
          else Err line_no
      end
  end.

Definition ingest_route (v : json) (limits : Limits) : N * Response :=
  match field v "records" ≫= as_str with
  | None => (400, Failed)
  | Some text =>
      if N.shiftl 8 20 <? slen text then (400, Failed) else
      match ingest_loop limits (bool_field v "skip_bad") (lines text) 0 [] [] with
      | Err _ => (400, Failed)
      | Ok (ids, skipped) => (200, Ingested ids skipped (bool_field v "dry_run"))
      end
  end.

(** The policy-side inputs of an evaluation. *)
Definition eval_inputs (v : json) (ctx : VerifyCtx) : EvalInputs :=
  {| in_trusted_issuers := default [] (str_list v "trusted");
     in_revocations := RevocationSet_new (default [] (str_list v "revoked"));
     in_verified_at := verified_at ctx; in_skew_leeway := clock_skew_leeway ctx |}.

(** [None] is out of fuel, as in the engine. *)
Definition evaluate_route (path : string) (v : json) (limits : Limits) : option (N * Response) :=
  match proof_bytes v with
  | None => Some (400, Failed)
  | Some bytes =>
  match field v "policy" with
  | None => Some (400, Failed)
  | Some policy_doc =>
  match parse_policy policy_doc limits with
  | Err _ => Some (400, Failed)
  | Ok policy =>
  match context_from v limits with
  | None => Some (400, Failed)
  | Some ctx =>
  r ← verify_proof bytes ctx;
  match r with
  | Err _ => Some (422, Failed)
  | Ok report =>
  match (proof ← proof_of bytes limits; state_from_report_and_proof report proof) with
  | Err _ => Some (422, Failed)
  | Ok st =>
      outcome ← evaluate_policy st policy (eval_inputs v ctx);
      let strict := bool_field v "strict_current" || bool_field v "production" in
      let acceptable := currently_acceptable report in
      Some (200, Evaluated report outcome acceptable (strict && negb acceptable)
                   (bool_decide (path = "/v1/explain")))
  end end end end end end.

Definition verify_route (v : json) (limits : Limits) : option (N * Response) :=
  match proof_bytes v with
  | None => Some (400, Failed)
  | Some bytes =>
  match context_from v limits with
  | None => Some (400, Failed)
  | Some ctx =>
  r ← verify_proof bytes ctx;
  match r with
  | Ok report => Some (200, Verified report (currently_acceptable report))
  | Err _ => Some (422, Failed)
  end end end.

Definition route (method path : string) (body : list byte) : option (N * Response) :=
  if bool_decide (method = "GET") then
    Some (if bool_decide (path = "/v1/health") then (200, Health)
          else if bool_decide (path = "/v1/version") then (200, Version) else (404, Failed))
  else if bool_decide (method ≠ "POST") then Some (405, Failed) else
  match json_from_slice body with
  | None => Some (400, Failed)
  | Some v =>
      if bool_decide (path = "/v1/verify") then verify_route v limits
      else if bool_decide (path = "/v1/evaluate") || bool_decide (path = "/v1/explain")
      then evaluate_route path v limits
      else if bool_decide (path = "/v1/ingest") then Some (ingest_route v limits)
      else Some (404, Failed)
  end.
End api.

(** * The currency flag *)

(** The evidence status of an item follows the lifecycle of what backs it. *)
Lemma evidence_item_currency ap lifecycle p :
  let e := (evidence_item ap (lifecycle_by_att lifecycle) p).2 in
  (es_status e = EvidenceStatus.Superseded →
    ∃ l, l ∈ lifecycle ∧ lc_status l = LifecycleStatus.Superseded) ∧
  (es_status e = EvidenceStatus.Unknown →
    es_message e = hint_unverified ∨
    ∃ l, l ∈ lifecycle ∧ lc_status l = LifecycleStatus.Unknown).
Proof.
  assert (∀ aref s, lifecycle_by_att lifecycle !! aref = Some s →
    ∃ l, l ∈ lifecycle ∧ lc_status l = s) as Hby.
  { intros aref s Hl. apply hash_map_elem, list_elem_of_omap in Hl as (l & Hin & Hl).
    destruct (strip_prefix "att:" (lc_object l)); [|done]. injection Hl as _ <-. by exists l. }
  unfold evidence_item, evidence_outcome.
  destruct (existsb _ _); [split; discriminate|]. destruct (applies_to _ _ _); [split; discriminate|].
  destruct (evd_attestation_ref p.1) as [aref|]; cbn [mbind option_bind].
  - destruct (lifecycle_by_att lifecycle !! aref) as [s|] eqn:Hl.
    + apply Hby in Hl. destruct s; cbn; split; try discriminate; auto.
    + rewrite bool_decide_eq_false_2 by done. cbn. split; [discriminate|by left].
  - rewrite bool_decide_eq_true_2 by done. cbn. split; discriminate.
Qed.

Lemma hint_is_found : str_contains "provenance hint unverified" hint_unverified = true.
Proof. vm_compute. reflexivity. Qed.

Section api_facts.
Context `{SerdeJsonReader, Base64UrlLaws, Sha2, SignatureSchemes, HashOrderLaws}.

(** The records of a report: none at all, or those of one pass. *)
Lemma report_records bytes ctx r :
  verify_proof bytes ctx = Some (Ok r) →
  (vr_lifecycle r = [] ∧ vr_evidence_status r = []) ∨
  ∃ ap evidence, vr_evidence_status r =
    map snd (map (evidence_item ap (lifecycle_by_att (vr_lifecycle r))) evidence).
Proof.
  intros [_ [Hs|(proof & ids & rid & later & Hf)]]%verify_proof_inv.
  - left. by destruct Hs.
  - right. destruct Hf as [_ _ _ Hl ->]. cbn [vr_evidence_status vr_lifecycle finalize].
    unfold later_stages in Hl. cbn zeta in Hl. apply bind_Some in Hl as (gc & _ & Hl).
    injection Hl as <-. cbn [lt_evidence_status lt_lifecycle evidence_stage snd]. eauto.
Qed.

Definition current_lifecycle (s : LifecycleStatus.t) : Prop :=
  s ≠ LifecycleStatus.Superseded ∧ s ≠ LifecycleStatus.Unknown.
Definition current_evidence (s : EvidenceStatus.t) : Prop :=
  s ≠ EvidenceStatus.Superseded ∧ s ≠ EvidenceStatus.Unknown.

Lemma currently_acceptable_spec bytes ctx r :
  verify_proof bytes ctx = Some (Ok r) →
  currently_acceptable r = true ↔
    Forall (λ l, current_lifecycle (lc_status l)) (vr_lifecycle r) ∧
    Forall (λ e, current_evidence (es_status e)) (vr_evidence_status r).
Proof.
  intros Hv. unfold currently_acceptable. split.
  - destruct (existsb _ (vr_lifecycle r)) eqn:Hl; [done|].
    destruct (existsb _ (vr_evidence_status r)) eqn:He; [done|]. intros _.
    rewrite existsb_false in Hl. rewrite existsb_false in He.
    assert (Forall (λ l, current_lifecycle (lc_status l)) (vr_lifecycle r)) as HF.
    { apply Forall_forall. intros l Hin. specialize (Hl l Hin). cbn beta in Hl.
      by rewrite orb_false_iff, !bool_decide_eq_false in Hl. }
    split; [done|]. rewrite Forall_forall in HF.
    destruct (report_records _ _ _ Hv) as [[_ ->]|(ap & evidence & Heq)]; [done|].
    apply Forall_forall. intros e Hin. specialize (He e Hin). cbn beta in He.
    rewrite orb_false_iff, bool_decide_eq_false in He. destruct He as [Hns Hhint].
    split; [done|]. intros Hu. rewrite Hu, bool_decide_eq_true_2 in Hhint by done.
    rewrite Heq, map_map in Hin. apply list_elem_of_fmap in Hin as (p & -> & _).
    destruct (proj2 (evidence_item_currency ap (vr_lifecycle r) p) Hu) as [Hm|(l & Hin & Hlu)].
    + rewrite Hm, hint_is_found in Hhint. done.
    + by destruct (HF l Hin).
  - intros [Hl He]. rewrite Forall_forall in Hl. rewrite Forall_forall in He.
    rewrite (proj2 (existsb_false _ (vr_lifecycle r))),
      (proj2 (existsb_false _ (vr_evidence_status r))); [done|..].
    + intros e Hin. destruct (He e Hin) as [Hs Hu]. by rewrite !bool_decide_eq_false_2.
    + intros l Hin. destruct (Hl l Hin) as [Hs Hu]. by rewrite !bool_decide_eq_false_2.
Qed.

(** * Routes *)

(** What the routes answer once the request is read. *)
Lemma verify_proof_total_cases bytes ctx :
  (∃ e, verify_proof bytes ctx = Some (Err e) ∧ misuse ctx = true) ∨
  (∃ r, verify_proof bytes ctx = Some (Ok r) ∧ misuse ctx = false).
Proof.
  destruct (misuse ctx) eqn:Hm; [left|right].
  - destruct (verify_proof_misuse bytes ctx Hm) as (e & He & _). by exists e.
  - destruct (verify_proof_spec bytes ctx Hm) as (r & Hr & _). by exists r.
Qed.

(** The request context as a context of the one-shot call. *)
Definition one_shot_context (ctx : VerifyCtx) : VerificationContext := {|
  vc_verified_at := verified_at ctx; vc_clock_skew_leeway := clock_skew_leeway ctx;
  vc_allowed_algs := allowed_algs ctx; vc_trusted_issuers := trusted_issuers ctx;
  vc_revocation_authorities := revocation_authorities ctx;
  vc_status_objects := ctx_status_objects ctx;
  vc_revocations_known_at := revocations_known_at ctx; vc_limits := ctx_limits ctx;
  vc_allow_remote := allow_remote ctx; vc_report_all_failures := report_all_failures ctx;
  vc_accepted_vocabularies := accepted_vocabularies ctx; vc_extra_grounded := extra_grounded ctx;
  vc_require_acyclic_provenance := require_acyclic_provenance ctx;
  vc_require_status_feed := require_status_feed ctx |}.

Lemma one_shot_context_id ctx : to_verify_ctx (one_shot_context ctx) = ctx.
Proof. by destruct ctx. Qed.

Lemma context_from_Some v ctx :
  context_from v limits = Some ctx →
  str_list v "trusted" = Some (trusted_issuers ctx) ∧ ctx_limits ctx = limits ∧
  allow_remote ctx = false.
Proof.
  unfold context_from. intros Hc.
  apply bind_Some in Hc as (accepted & _ & Hc). apply bind_Some in Hc as (clock & _ & Hc).
  apply bind_Some in Hc as (skew & _ & Hc). apply bind_Some in Hc as (trusted & Ht & Hc).
  apply bind_Some in Hc as (statuses & _ & Hc). apply bind_Some in Hc as (auths & _ & Hc).
  apply bind_Some in Hc as (known & _ & Hc). apply bind_Some in Hc as (grounded & _ & Hc).
  by injection Hc as <-.
Qed.

(** The revocation set of a request, as the evaluation reads it. *)
Definition request_revocations (v : json) : RevocationSet :=
  RevocationSet_new (default [] (str_list v "revoked")).

Lemma eval_inputs_one_shot v ctx :
  context_from v limits = Some ctx →
  eval_inputs v ctx = inputs_from (one_shot_context ctx) (request_revocations v).
Proof. intros (Ht & _ & _)%context_from_Some. unfold eval_inputs. by rewrite Ht. Qed.

(** A malformed [revoked] field counts as an empty set. *)
Lemma malformed_revocations_ignored v :
  str_list v "revoked" = None → request_revocations v = RevocationSet_empty.
Proof. intros Hn. unfold request_revocations. by rewrite Hn. Qed.

Definition strict_request (v : json) : bool :=
  bool_field v "strict_current" || bool_field v "production".

(** The answer to a read evaluation request, from the result of the engine. *)
Definition evaluation_answer (path : string) (v : json) (res : Result VerifiedDecision)
    : N * Response :=
  match res with
  | Ok d =>
      let acceptable := currently_acceptable (vd_report d) in
      (200, Evaluated (vd_report d) (vd_outcome d) acceptable (strict_request v && negb acceptable)
              (bool_decide (path = "/v1/explain")))
  | Err _ => (422, Failed)
  end.

Lemma one_shot_bounds bytes ctx policy revocations :
  misuse ctx = false →
  N.of_nat (size (revoked revocations)) <= max_status_objects (ctx_limits ctx) →
  verify_and_evaluate bytes (one_shot_context ctx) policy revocations =
    (r ← verify_proof bytes ctx;
     match r with
     | Err e => Some (Err e)
     | Ok report =>
         match (value ← decode_strict bytes (ctx_limits ctx);
                proof ← cbor_to_proof value (ctx_limits ctx);
                state_from_report_and_proof report proof) with
         | Err e => Some (Err e)
         | Ok st =>
             outcome ← evaluate_policy st policy (inputs_from (one_shot_context ctx) revocations);
             Some (Ok {| vd_report := report; vd_state := st; vd_outcome := outcome |})
         end
     end).
Proof.
  intros Hm Hb. unfold verify_and_evaluate. rewrite one_shot_context_id. cbn [vc_limits one_shot_context vc_trusted_issuers].
  unfold misuse in Hm. rewrite !orb_false_iff in Hm. destruct Hm as [[_ Ht] _]. rewrite Ht.
  by rewrite (proj2 (N.ltb_ge _ _) Hb).
Qed.

Lemma one_shot_misuse bytes ctx policy revocations :
  misuse ctx = true →
  ∃ e, verify_and_evaluate bytes (one_shot_context ctx) policy revocations = Some (Err e).
Proof.
  intros Hm. destruct (verify_proof_misuse bytes ctx Hm) as (e & He & _).
  unfold verify_and_evaluate. rewrite one_shot_context_id, He. cbn [mbind option_bind].
  destruct (_ <? _); [by eexists|]. destruct (_ <? _); by eexists.
Qed.

Lemma evaluate_route_spec path v bytes doc policy ctx :
  proof_bytes v = Some bytes → field v "policy" = Some doc →
  parse_policy doc limits = Ok policy → context_from v limits = Some ctx →
  N.of_nat (size (revoked (request_revocations v))) <= max_status_objects limits →
  evaluate_route path v limits =
    evaluation_answer path v <$>
      verify_and_evaluate bytes (one_shot_context ctx) policy (request_revocations v).
Proof.
  intros Hb Hd Hp Hc Hn. destruct (context_from_Some _ _ Hc) as (_ & Hlim & _).
  unfold evaluate_route. rewrite Hb, Hd, Hp, Hc. rewrite (eval_inputs_one_shot _ _ Hc).
  destruct (verify_proof_total_cases bytes ctx) as [(e & He & Hm)|(r & Hr & Hm)].
  - rewrite He. cbn [mbind option_bind].
    by destruct (one_shot_misuse bytes ctx policy (request_revocations v) Hm) as [e' ->].
  - rewrite one_shot_bounds by (rewrite ?Hlim; done). rewrite Hr. cbn [mbind option_bind].
    unfold proof_of. rewrite Hlim.
    destruct (decode_strict bytes limits) as [value|]; [|done]. cbn [mbind result_bind].
    destruct (cbor_to_proof value limits) as [proof|]; [|done]. cbn [mbind result_bind].
    destruct (state_from_report_and_proof r proof) as [st|]; [|done].
    by destruct (evaluate_policy st policy _) as [o|].
Qed.

(** What follows the report of a run: no state without a proof, a state with one. *)
Lemma stopped_no_state bytes ctx r :
  stopped bytes ctx r → ctx_limits ctx = limits →
  ∃ e, (proof ← proof_of bytes limits; state_from_report_and_proof r proof) = Err e.
Proof.
  intros Hs Hlim. unfold proof_of. rewrite <- Hlim. destruct Hs as [e He|w e Hw He]; rewrite ?He, ?Hw;
    cbn [mbind result_bind]; rewrite ?He; by eexists.
Qed.
Lemma full_run_state bytes ctx r proof ids rid later :
  full_run bytes ctx r proof ids rid later → ctx_limits ctx = limits →
  ∃ st, (proof ← proof_of bytes limits; state_from_report_and_proof r proof) = Ok st.
Proof.
  intros Hf Hlim. destruct (fr_parse _ _ _ _ _ _ _ Hf) as (w & Hw & Hp). unfold proof_of. rewrite <- Hlim, Hw.
  cbn [mbind result_bind]. rewrite Hp. cbn [mbind result_bind]. by eapply state_of_run.
Qed.

Lemma evaluate_answers path v :
  ∃ status resp, evaluate_route path v limits = Some (status, resp) ∧
    (status = 200 ∧ (∃ r o a f x, resp = Evaluated r o a f x) ∨
     (status = 400 ∧ resp = Failed) ∨
     (status = 422 ∧ resp = Failed ∧ ∃ bytes ctx, proof_bytes v = Some bytes ∧
        context_from v limits = Some ctx ∧
        (misuse ctx = true ∨ ∀ proof, ¬ parses bytes ctx proof))).
Proof.
  unfold evaluate_route. destruct (proof_bytes v) as [bytes|] eqn:Hb; [|by eauto 8].
  destruct (field v "policy") as [doc|]; [|by eauto 8].
  destruct (parse_policy doc limits) as [policy|]; [|by eauto 8].
  destruct (context_from v limits) as [ctx|] eqn:Hc; [|by eauto 8].
  destruct (context_from_Some _ _ Hc) as (_ & Hlim & _).
  destruct (verify_proof_total_cases bytes ctx) as [(e & He & Hm)|(r & Hr & _)].
  { rewrite He. cbn [mbind option_bind]. do 2 eexists. split; [done|]. right; right. eauto 10. }
  rewrite Hr. cbn [mbind option_bind].
  destruct (verify_proof_inv _ _ _ Hr) as [_ [Hs|(proof & ids & rid & later & Hf)]].
  - destruct (stopped_no_state _ _ _ Hs Hlim) as [e ->].
    do 2 eexists. split; [done|]. right; right. split_and!; [done..|]. exists bytes, ctx.
    split_and!; [done..|]. right. intros p. by eapply stopped_parses.
  - destruct (full_run_state _ _ _ _ _ _ _ Hf Hlim) as (st & ->).
    destruct (evaluate_policy_spec st (eval_inputs v ctx) policy) as (o & -> & _).
    cbn [mbind option_bind]. do 2 eexists. split; [done|]. left. eauto 10.
Qed.

Lemma verify_answers v :
  ∃ status resp, verify_route v limits = Some (status, resp) ∧
    ((status = 200 ∧ ∃ r bytes ctx, resp = Verified r (currently_acceptable r) ∧
        proof_bytes v = Some bytes ∧ context_from v limits = Some ctx ∧
        verify_proof bytes ctx = Some (Ok r)) ∨
     (status = 400 ∧ resp = Failed) ∨
     (status = 422 ∧ resp = Failed ∧ ∃ bytes ctx, proof_bytes v = Some bytes ∧
        context_from v limits = Some ctx ∧ misuse ctx = true)).
Proof.
  unfold verify_route. destruct (proof_bytes v) as [bytes|] eqn:Hb; [|by eauto 8].
  destruct (context_from v limits) as [ctx|] eqn:Hc; [|by eauto 8].
  destruct (verify_proof_total_cases bytes ctx) as [(e & He & Hm)|(r & Hr & _)].
  - rewrite He. cbn [mbind option_bind]. do 2 eexists. split; [done|]. right; right. eauto 10.
  - rewrite Hr. cbn [mbind option_bind]. do 2 eexists. split; [done|]. left. eauto 12.
Qed.

Lemma ingest_answers v :
  ∃ status resp, ingest_route v limits = (status, resp) ∧
    (status = 200 ∧ (∃ ids skipped dry, resp = Ingested ids skipped dry) ∨ status = 400 ∧ resp = Failed).
Proof.
  unfold ingest_route. destruct (field v "records" ≫= as_str) as [text|]; [|by eauto 8].
  destruct (_ <? _); [by eauto 8|]. destruct (ingest_loop _ _ _ _ _ _) as [[ids skipped]|]; eauto 10.
Qed.

(** The paths of the engine, and the requests that spell what these need: a proof and
    a context, and a policy where a decision is asked for. *)
Definition engine_path (path : string) : Prop :=
  path = "/v1/verify" ∨ path = "/v1/evaluate" ∨ path = "/v1/explain".
Definition well_formed (path : string) (v : json) (bytes : list byte) (ctx : VerifyCtx) : Prop :=
  proof_bytes v = Some bytes ∧ context_from v limits = Some ctx ∧
  (path ≠ "/v1/verify" → ∃ doc policy, field v "policy" = Some doc ∧ parse_policy doc limits = Ok policy).
(** The engine refuses: the lists of the context are over the bounds, or a decision
    is asked for on bytes that are not a proof. *)
Definition refused_by_engine (path : string) (bytes : list byte) (ctx : VerifyCtx) : Prop :=
  misuse ctx = true ∨ path ≠ "/v1/verify" ∧ ∀ proof, ¬ parses bytes ctx proof.

(** What an engine path answers to a JSON body. *)
Definition engine_route (path : string) (v : json) : option (N * Response) :=
  if bool_decide (path = "/v1/verify") then verify_route v limits else evaluate_route path v limits.
Ltac malformed :=
  do 2 eexists; (split; [reflexivity|]); left; (split_and!; [done..|]); intros ? ? (? & ? & Hpol');
  try done; destruct (Hpol' ltac:(done)) as (? & ? & [= <-] & ?); congruence.
Lemma engine_answers path v :
  ∃ status resp, engine_route path v = Some (status, resp) ∧
    ((status = 400 ∧ resp = Failed ∧ ∀ bytes ctx, ¬ well_formed path v bytes ctx) ∨
     ∃ bytes ctx, well_formed path v bytes ctx ∧
       (status = 422 ∧ resp = Failed ∧ refused_by_engine path bytes ctx ∨
        status = 200 ∧ resp ≠ Failed ∧ ¬ refused_by_engine path bytes ctx)).
Proof.
  unfold engine_route, well_formed, refused_by_engine, verify_route, evaluate_route.
  destruct (proof_bytes v) as [bytes|] eqn:Hb; [|case_bool_decide; malformed].
  case_bool_decide as Hp.
  - destruct (context_from v limits) as [ctx|]; [|malformed].
    destruct (verify_proof_total_cases bytes ctx) as [(e & He & Hm)|(r & Hr & Hm)].
    + rewrite He. do 2 eexists. split; [done|]. right. exists bytes, ctx. split; [done|]. by left; auto.
    + rewrite Hr. do 2 eexists. split; [done|]. right. exists bytes, ctx. split; [by eauto 6|].
      right. split_and!; [done..|]. intros [Hm'|[? _]]; congruence.
  - destruct (field v "policy") as [doc|]; [|malformed].
    destruct (parse_policy doc limits) as [policy|] eqn:Hpol; [|malformed].
    destruct (context_from v limits) as [ctx|] eqn:Hc; [|malformed].
    destruct (context_from_Some _ _ Hc) as (_ & Hlim & _).
    destruct (verify_proof_total_cases bytes ctx) as [(e & He & Hm)|(r & Hr & Hm)].
    { rewrite He. do 2 eexists. split; [done|]. right. exists bytes, ctx. split; [by eauto 6|]. by left; auto. }
    rewrite Hr. cbn [mbind option_bind].
    destruct (verify_proof_inv _ _ _ Hr) as [_ [Hs|(proof & ids & rid & later & Hf)]].
    + destruct (stopped_no_state _ _ _ Hs Hlim) as [e ->].
      do 2 eexists. split; [done|]. right. exists bytes, ctx. split; [by eauto 6|]. left.
      split_and!; [done..|]. right. split; [done|]. intros p. by eapply stopped_parses.
    + pose proof (fr_parse _ _ _ _ _ _ _ Hf) as Hparse.
      destruct (full_run_state _ _ _ _ _ _ _ Hf Hlim) as (st & ->).
      destruct (evaluate_policy_spec st (eval_inputs v ctx) policy) as (o & -> & _).
      cbn [mbind option_bind]. do 2 eexists. split; [done|]. right. exists bytes, ctx. split; [by eauto 6|].
      right. split_and!; [done..|]. intros [Hm'|[_ Hn]]; [congruence|by apply (Hn proof)].
Qed.

Lemma route_engine path body v :
  engine_path path → json_from_slice body = Some v → route "POST" path body = engine_route path v.
Proof.
  intros Hp Hv. unfold route, engine_route. rewrite bool_decide_eq_false_2, bool_decide_eq_false_2, Hv by (done || by intros []).
  destruct Hp as [->|[-> | ->]]; done.
Qed.

(** A POST to an engine path that spells what the engine needs. *)
Definition spelled_request (method path : string) (body bytes : list byte) (ctx : VerifyCtx) : Prop :=
  method = "POST" ∧ engine_path path ∧ ∃ v, json_from_slice body = Some v ∧ well_formed path v bytes ctx.
(** The paths that are served. *)
Definition served (method path : string) : Prop :=
  method = "GET" ∧ (path = "/v1/health" ∨ path = "/v1/version") ∨
  method = "POST" ∧ (engine_path path ∨ path = "/v1/ingest").

(** What the status of an answer says about the request. *)
Definition status_fits (method path : string) (body : list byte) (status : N) (resp : Response) : Prop :=
  status ∈ [200; 400; 404; 405; 422] ∧
  (status = 200 ↔ resp ≠ Failed) ∧
  (status = 405 ↔ method ≠ "GET" ∧ method ≠ "POST") ∧
  (status = 422 ↔ ∃ bytes ctx, spelled_request method path body bytes ctx ∧ refused_by_engine path bytes ctx) ∧
  (method = "POST" → engine_path path →
     status = 400 ↔ ¬ ∃ bytes ctx, spelled_request method path body bytes ctx) ∧
  (status = 404 ↔ (method = "GET" ∨ method = "POST" ∧ is_Some (json_from_slice body)) ∧ ¬ served method path).

(** A request that is no POST to an engine path has none of the engine's answers. *)
Lemma status_fits_other method path body status resp :
  ¬ (method = "POST" ∧ engine_path path) →
  status ∈ [200; 400; 404; 405] → (status = 200 ↔ resp ≠ Failed) →
  (status = 405 ↔ method ≠ "GET" ∧ method ≠ "POST") →
  (status = 404 ↔ (method = "GET" ∨ method = "POST" ∧ is_Some (json_from_slice body)) ∧ ¬ served method path) →
  status_fits method path body status resp.
Proof.
  intros Hn Hs H200 H405 H404. unfold status_fits. split_and!; [set_solver|exact H200|exact H405| | |exact H404].
  - split; [intros ->; exfalso; set_solver|]. intros (b & c & (Hm & Hp & _) & _). by destruct Hn.
  - intros Hm Hp. by destruct Hn.
Qed.

Lemma route_get path body : ∃ status resp,
  route "GET" path body = Some (status, resp) ∧ status_fits "GET" path body status resp.
Proof.
  unfold route. rewrite bool_decide_eq_true_2 by done.
  destruct (decide (path = "/v1/health")) as [->|Hn1]; [|destruct (decide (path = "/v1/version")) as [->|Hn2]].
  1,2: do 2 eexists; (split; [reflexivity|]); apply status_fits_other;
    [by intros [[=] _]|set_solver|done|split; [done|intros [[] _]; done]|];
    (split; [done|]); intros [_ []]; left; auto.
  rewrite !bool_decide_eq_false_2 by done. do 2 eexists. split; [reflexivity|].
  apply status_fits_other; [by intros [[=] _]|set_solver|done|split; [done|intros [[] _]; done]|].
  split; [|done]. intros _. split; [by left|]. intros [(_ & [|])|([=] & _)]; done.
Qed.
Lemma route_ingest_other path body : ¬ engine_path path → ∃ status resp,
  route "POST" path body = Some (status, resp) ∧ status_fits "POST" path body status resp.
Proof.
  intros Hp. unfold route. rewrite bool_decide_eq_false_2, bool_decide_eq_false_2 by (done || by intros []).
  assert (path ≠ "/v1/verify" ∧ path ≠ "/v1/evaluate" ∧ path ≠ "/v1/explain") as (Hn1 & Hn2 & Hn3)
    by (unfold engine_path in Hp; tauto).
  rewrite !bool_decide_eq_false_2 by done. cbn [orb].
  assert (∀ status resp, status ∈ [200; 400; 404] → (status = 200 ↔ resp ≠ Failed) →
    (status = 404 ↔ is_Some (json_from_slice body) ∧ path ≠ "/v1/ingest") →
    status_fits "POST" path body status resp) as Hfits.
  { intros status resp Hs H200 H404. apply status_fits_other; [by intros []|set_solver|done| |].
    - split; [intros ->; exfalso; set_solver|by intros [_ []]].
    - rewrite H404. unfold served. split; [intros [Hj Hi]; split; [by right|]|].
      + intros [([=] & _)|(_ & [|])]; done.
      + intros [[[=]|[_ Hj]] Hn]. split; [done|]. intros Hi. apply Hn. by right; auto. }
  destruct (json_from_slice body) as [v|]; [|do 2 eexists; split; [reflexivity|]; apply Hfits; [by right; left|done|]].
  2: { split; [done|]. by intros [[? [=]] _]. }
  case_bool_decide as Hi.
  - destruct (ingest_answers v) as (status & resp & -> & Hcase). exists status, resp. split; [done|].
    destruct Hcase as [(-> & ids & sk & dry & ->)|[-> ->]]; apply Hfits;
      [by left|done|by split; [|intros [_ []]]|by right; left|done|by split; [|intros [_ []]]].
  - do 2 eexists. split; [reflexivity|]. apply Hfits; [by right; right; left|done|]. split; [|done]. intros _. split; [by eexists|done].
Qed.
Lemma route_engine_fits path body : engine_path path → ∃ status resp,
  route "POST" path body = Some (status, resp) ∧ status_fits "POST" path body status resp.
Proof.
  intros Hp. unfold status_fits, spelled_request.
  assert (served "POST" path) as Hserved by (right; auto).
  destruct (json_from_slice body) as [v|] eqn:Hv.
  - rewrite (route_engine _ _ _ Hp Hv).
    destruct (engine_answers path v) as (status & resp & -> & Hcase). exists status, resp. split; [done|].
    destruct Hcase as [(-> & -> & Hn)|(bytes & ctx & Hwf & Hcase)].
    + split_and!; [set_solver|done|by split; [|intros [_ []]]| | |by split; [|intros [_ []]]].
      * split; [done|]. intros (b & c & (_ & _ & v' & [= <-] & Hwf) & _). by destruct (Hn b c).
      * intros _ _. split; [|done]. intros _ (b & c & _ & _ & v' & [= <-] & Hwf). by destruct (Hn b c).
    + assert (∀ b c, well_formed path v b c → b = bytes ∧ c = ctx) as Huniq
        by (intros b c (Hb & Hc & _); destruct Hwf as (Hb' & Hc' & _); split; congruence).
      assert (∃ b c, "POST" = "POST" ∧ engine_path path ∧ ∃ v', Some v = Some v' ∧ well_formed path v' b c)
        as Hsp by (eauto 10).
      destruct Hcase as [(-> & -> & Hr)|(-> & Hne & Hr)].
      * split_and!; [set_solver|done|by split; [|intros [_ []]]| |by intros _ _; split; [|intros []]|by split; [|intros [_ []]]].
        split; [|done]. intros _. eauto 10.
      * split_and!; [set_solver|done|by split; [|intros [_ []]]| |by intros _ _; split; [|intros []]|by split; [|intros [_ []]]].
        split; [done|]. intros (b & c & (_ & _ & v' & [= <-] & Hwf') & Hr').
        destruct (Huniq _ _ Hwf') as [-> ->]. by destruct Hr.
  - unfold route. rewrite bool_decide_eq_false_2, bool_decide_eq_false_2, Hv by (done || by intros []).
    do 2 eexists. split; [reflexivity|].
    split_and!; [set_solver|done|by split; [|intros [_ []]]| | |by split; [|intros [_ []]]].
    + split; [done|]. by intros (b & c & (_ & _ & v' & [=] & _) & _).
    + intros _ _. split; [|done]. by intros _ (b & c & _ & _ & v' & [=] & _).
Qed.

Lemma route_total method path body :
  ∃ status resp, route method path body = Some (status, resp) ∧ status_fits method path body status resp.
Proof.
  destruct (decide (method = "GET")) as [->|Hg]; [apply route_get|].
  destruct (decide (method = "POST")) as [->|Hp].
  - destruct (decide (path ∈ ["/v1/verify"; "/v1/evaluate"; "/v1/explain"])) as [Hin|Hin];
      rewrite !elem_of_cons, elem_of_nil in Hin; [apply route_engine_fits|apply route_ingest_other];
      unfold engine_path; tauto.
  - unfold route. rewrite bool_decide_eq_false_2, bool_decide_eq_true_2 by done. do 2 eexists. split; [reflexivity|].
    apply status_fits_other; [by intros []|set_solver|done|done|]. split; [done|]. by intros [[|[? _]] _].
Qed.

(** C19: every request is answered, with the status that fits it.  Routing returns on
    every method, path and body.  The status is 200 exactly when the body is not an
    error; 405 exactly when the method is neither GET nor POST; 422 exactly when a
    POST to verify, evaluate or explain spells a proof and a context (and, unless it
    is a verification, a policy that parses) and the engine refuses them: lists over
    their bounds or, where a decision is asked for, bytes that are not a proof; such a
    POST is answered with 400 exactly when it does not spell these; 404 exactly when
    the path is not served, by a GET or by a POST whose body is JSON; and no other
    status than these is used. *)
Theorem route_answers method path body :
  ∃ status resp, route method path body = Some (status, resp) ∧
    status ∈ [200; 400; 404; 405; 422] ∧
    (status = 200 ↔ resp ≠ Failed) ∧
    (status = 405 ↔ method ≠ "GET" ∧ method ≠ "POST") ∧
    (status = 422 ↔ ∃ bytes ctx, spelled_request method path body bytes ctx ∧ refused_by_engine path bytes ctx) ∧
    (method = "POST" → engine_path path →
       status = 400 ↔ ¬ ∃ bytes ctx, spelled_request method path body bytes ctx) ∧
    (status = 404 ↔ (method = "GET" ∨ method = "POST" ∧ is_Some (json_from_slice body)) ∧ ¬ served method path).
Proof. apply route_total. Qed.

(** What the currency flag of an answer means.  A verify request is answered
    with the report of the engine on the proof and context the body spells, and
    with the flag that is true exactly when no attestation and no evidence item of
    the report is superseded or unknown. *)
Theorem currency_exact method path body r acceptable
  (Hr : route method path body = Some (200, Verified r acceptable)) :
  ∃ v bytes ctx, json_from_slice body = Some v ∧ proof_bytes v = Some bytes ∧
    context_from v limits = Some ctx ∧ verify_proof bytes ctx = Some (Ok r) ∧
    (acceptable = true ↔
      Forall (λ l, current_lifecycle (lc_status l)) (vr_lifecycle r) ∧
      Forall (λ e, current_evidence (es_status e)) (vr_evidence_status r)).
Proof.
  unfold route in Hr. case_bool_decide.
  { destruct (bool_decide (path = "/v1/health")), (bool_decide (path = "/v1/version")); discriminate. }
  case_bool_decide; [discriminate|]. destruct (json_from_slice body) as [v|]; [|discriminate].
  case_bool_decide.
  - destruct (verify_answers v) as (status & resp & Heq & Hcase). rewrite Heq in Hr.
    injection Hr as -> ->.
    destruct Hcase as [(_ & r' & bytes & ctx & Hv & Hb & Hc & Hp)|[[? ?]|(? & ? & _)]]; [|done..].
    injection Hv as -> ->. exists v, bytes, ctx. split_and!; try done.
    all: by apply (currently_acceptable_spec bytes ctx).
  - destruct (_ || _).
    { destruct (evaluate_answers path v) as (status & resp & Heq & Hcase). rewrite Heq in Hr.
      injection Hr as -> ->. destruct Hcase as [(_ & ? & ? & ? & ? & ? & ?)|[[? ?]|(? & ? & _)]]; done. }
    case_bool_decide; [|discriminate].
    destruct (ingest_answers v) as (status & resp & Heq & Hcase). rewrite Heq in Hr.
    injection Hr as -> ->. by destruct Hcase as [(_ & ? & ? & ? & ?)|[? ?]].
Qed.

(** C18: an evaluation request is the one-shot decision.  When the body spells a
    proof, a policy and a context, and its revocation set is within the bound of
    the one-shot call, the answer is the decision of [verify_and_evaluate] on
    exactly these (or 422 when it refuses); a larger set the one-shot call refuses,
    while the request is still decided. *)
Theorem evaluate_is_one_shot path body v bytes doc policy ctx
  (Hpath : path = "/v1/evaluate" ∨ path = "/v1/explain")
  (Hj : json_from_slice body = Some v) (Hb : proof_bytes v = Some bytes)
  (Hd : field v "policy" = Some doc) (Hp : parse_policy doc limits = Ok policy)
  (Hc : context_from v limits = Some ctx) :
  let revocations := request_revocations v in
  if N.of_nat (size (revoked revocations)) <=? max_status_objects limits
  then route "POST" path body =
         evaluation_answer path v <$>
           verify_and_evaluate bytes (one_shot_context ctx) policy revocations
  else (∃ e, verify_and_evaluate bytes (one_shot_context ctx) policy revocations = Some (Err e)) ∧
       (misuse ctx = false → (∃ proof, parses bytes ctx proof) →
        ∃ r o a f x, route "POST" path body = Some (200, Evaluated r o a f x)).
Proof.
  cbn zeta. assert (route "POST" path body = evaluate_route path v limits) as ->.
  { unfold route. rewrite bool_decide_eq_false_2, bool_decide_eq_false_2, Hj by (done || by intros []).
    by destruct Hpath as [-> | ->]. }
  destruct (N.leb_spec (N.of_nat (size (revoked (request_revocations v)))) (max_status_objects limits))
    as [Hle|Hgt]; [by apply evaluate_route_spec with (doc := doc)|].
  destruct (context_from_Some _ _ Hc) as (_ & Hlim & _). split.
  - unfold verify_and_evaluate. destruct (_ <? _); [by eexists|].
    cbn [vc_limits one_shot_context]. rewrite Hlim, (proj2 (N.ltb_lt _ _) Hgt). by eexists.
  - intros Hm [proof Hparse]. destruct (evaluate_answers path v) as (status & resp & Heq & Hcase).
    destruct Hcase as [(-> & r & o & a & f & x & ->)|[[-> ->]|(-> & -> & b & c & Hb' & Hc' & Hr)]].
    + rewrite Heq. eauto 6.
    + exfalso. unfold evaluate_route in Heq. rewrite Hb, Hd, Hp, Hc in Heq.
      apply bind_Some in Heq as ([r|] & Hr & Heq); [|done]. destruct (_ ≫= _); [|done].
      apply bind_Some in Heq as (o & _ & Heq). done.
    + exfalso. simplify_eq. destruct Hr as [|Hn]; [congruence|]. by apply (Hn proof).
Qed.

(** * Ingestion *)

(** The lines that are records, and what becomes of each. *)
Definition records (text : string) : list string :=
  List.filter (λ line, negb (sempty line)) (map trim (lines text)).
Definition record_outcome (line : string) : option string :=
  json_from_slice (as_bytes line) ≫= λ value, ingest_record value limits.
(** The numbers of the records that fail, from [n]. *)
Definition failures (n : N) (outcomes : list (option string)) : list N :=
  omap (λ p : N * option string, match p.2 with None => Some p.1 | Some _ => None end)
    (enumerate_from n outcomes).

Lemma ingest_loop_spec skip_bad text n ids skipped :
  let outcomes := map record_outcome (List.filter (λ line, negb (sempty line)) (map trim text)) in
  ingest_loop limits skip_bad text n ids skipped =
    match failures (n + 1) outcomes with
    | i :: _ => if skip_bad then Ok (ids ++ omap id outcomes, skipped ++ failures (n + 1) outcomes)
                else Err i
    | [] => Ok (ids ++ omap id outcomes, skipped)
    end.
Proof.
  revert n ids skipped. induction text as [|raw text IH]; intros n ids skipped.
  { cbn. by rewrite app_nil_r. }
  cbn [ingest_loop map List.filter]. destruct (sempty (trim raw)) eqn:He; cbn [negb]; [apply IH|].
  cbn [map]. fold (record_outcome (trim raw)). unfold failures. cbn [enumerate_from omap list_omap].
  set (outcomes := map record_outcome _) in *. fold (failures (n + 1 + 1) outcomes).
  destruct (record_outcome (trim raw)) as [i|]; cbn [snd fst id].
  - rewrite IH. fold outcomes. rewrite <- (app_assoc ids). cbn [app]. done.
  - destruct skip_bad; [|done]. rewrite IH. fold outcomes.
    destruct (failures (n + 1 + 1) outcomes); by rewrite <- ?app_assoc.
Qed.

(** What a record that is ingested describes. *)
Lemma record_outcome_event line id :
  record_outcome line = Some id →
  ∃ value content, json_from_slice (as_bytes line) = Some value ∧
    record_event value = Some content ∧ event_wf limits content = true ∧
    id = event_id (encode_canonical (event_cbor content)).
Proof.
  intros Ho. apply bind_Some in Ho as (value & Hv & Ho). apply bind_Some in Ho as (content & Hc & Ho).
  destruct (create_event content limits) as [created|] eqn:Hcr; [|done].
  injection Ho as <-. apply create_event_Ok in Hcr as (Hwf & _ & _ & Hid). by exists value, content.
Qed.

(** What ingestion returns.  The records are the non-blank trimmed lines,
    numbered from one.  The answer lists the ids of the records that describe an
    event, in order, and the numbers of the others; without [skip_bad] a single
    failure refuses the request.  Every id is that of a well-formed event. *)
Theorem ingest_exact body v text
  (Hj : json_from_slice body = Some v) (Ht : field v "records" ≫= as_str = Some text)
  (Hsize : slen text <= N.shiftl 8 20) :
  let outcomes := map record_outcome (records text) in
  let bad := failures 1 outcomes in
  route "POST" "/v1/ingest" body =
    (if bool_field v "skip_bad" || bool_decide (bad = [])
     then Some (200, Ingested (omap id outcomes) bad (bool_field v "dry_run"))
     else Some (400, Failed)) ∧
  (∀ i, i ∈ omap id outcomes → ∃ content, event_wf limits content = true ∧
     i = event_id (encode_canonical (event_cbor content))).
Proof.
  cbn zeta. split.
  - transitivity (Some (ingest_route v limits)); [unfold route; by rewrite Hj|].
    unfold ingest_route. rewrite Ht, (proj2 (N.ltb_ge _ _) Hsize).
    rewrite ingest_loop_spec. cbn zeta. fold (records text). change (0 + 1) with 1.
    set (outcomes := map record_outcome (records text)).
    destruct (failures 1 outcomes) as [|i bad]; cbn [app].
    + rewrite bool_decide_eq_true_2, orb_true_r by done. done.
    + rewrite bool_decide_eq_false_2, orb_false_r by done. by destruct (bool_field v "skip_bad").
  - intros i Hi. apply list_elem_of_omap in Hi as (o & Ho & Hi). unfold id in Hi. subst o.
    apply list_elem_of_fmap in Ho as (line & Hl & _). symmetry in Hl.
    apply record_outcome_event in Hl as (value & content & _ & _ & Hwf & Hid). by exists content.
Qed.
End api_facts.

Module ApiSamples.
Import Toy GraphSamples CoseSamples PipelineSamples.
Definition issuer : string := Eval vm_compute in key_ref seed.
Definition proof_hex : string := Eval vm_compute in hex_of bytes.
Definition proof_doc : tree := TObject [("id", TText (prf_proof_id proof)); ("cbor", TText proof_hex)].
Definition policy_doc : json :=
  TObject [("policy_version", TUint 1); ("policy_id", TText "orders"); ("requirements", TArray
    [TObject [("type", TText "issuer_trusted"); ("issuer", TText issuer)];
     TObject [("type", TText "not_revoked")]])].
(** One request for every route, with the given fields added. *)
Definition request (extra : list (string * tree)) : json :=
  TObject ([("proof", proof_doc); ("policy", policy_doc); ("clock", TUint 150);
            ("trusted", TArray [TText issuer]); ("revocations_known_at", TUint 140);
            ("no_require_status", TBool true)] ++ extra).
Definition hexes (n : nat) : string := of_bytes (repeat Byte.x61 (2 * n)).
Definition record : tree :=
  TObject [("type", TText "payment.created"); ("subject", TText "order-7");
           ("payload_hex", TText (hexes 32)); ("effective_at", TUint 90); ("meta", TText "a=1,b=2")].
Definition batch : string := of_bytes
  (as_bytes "record" ++ [Byte.x0d; Byte.x0a; Byte.x20; Byte.x0a] ++ as_bytes "{" ++ [Byte.x0a]).
Definition ingest_doc : json := TObject [("records", TText batch); ("skip_bad", TBool true)].
(** A reader that knows three documents by name. *)
Definition documents : list (string * tree) :=
  [("request", request []); ("record", record);
   ("ingest", ingest_doc)].
#[export] Instance reader : SerdeJsonReader :=
  {| json_from_slice body :=
       snd <$> List.find (λ p : string * tree, bool_decide (as_bytes p.1 = body)) documents |}.
End ApiSamples.

Section api_witnesses.
Import Toy GraphSamples CoseSamples PipelineSamples ApiSamples.

Lemma route_answers_witness :
  ∃ status resp, route "POST" "/v1/verify" (as_bytes "nonsense") = Some (status, resp) ∧
    (status = 200 ↔ resp ≠ Failed).
Proof.
  destruct (route_answers "POST" "/v1/verify" (as_bytes "nonsense")) as (s & r & Hr & _ & Hs & _).
  exists s, r. exact (conj Hr Hs).
Defined.

Lemma sample_verify_run :
  ∃ r, route "POST" "/v1/verify" (as_bytes "request") = Some (200, Verified r true).
Proof. eexists. vm_compute. reflexivity. Qed.

Lemma evaluate_is_one_shot_witness :
  ∃ bytes policy ctx d,
    verify_and_evaluate bytes (one_shot_context ctx) policy RevocationSet_empty = Some (Ok d) ∧
    po_decision (vd_outcome d) = PolicyDecision.Pass ∧
    route "POST" "/v1/explain" (as_bytes "request") =
      Some (200, Evaluated (vd_report d) (vd_outcome d) true false true).
Proof.
  destruct (proof_bytes (request [])) as [b|] eqn:Hb; [|vm_compute in Hb; discriminate Hb].
  destruct (parse_policy policy_doc limits) as [p|] eqn:Hp; [|vm_compute in Hp; discriminate Hp].
  destruct (context_from (request []) limits) as [c|] eqn:Hc; [|vm_compute in Hc; discriminate Hc].
  pose proof (evaluate_is_one_shot "/v1/explain" (as_bytes "request") (request []) b policy_doc p c
    ltac:(right; reflexivity) ltac:(vm_compute; reflexivity) Hb ltac:(reflexivity) Hp Hc) as Hroute.
  cbn zeta in Hroute. change (request_revocations (request [])) with RevocationSet_empty in Hroute.
  rewrite (proj2 (N.leb_le _ _)) in Hroute by (vm_compute; discriminate).
  exists b, p, c.
  assert (∃ d, verify_and_evaluate b (one_shot_context c) p RevocationSet_empty = Some (Ok d) ∧
    po_decision (vd_outcome d) = PolicyDecision.Pass ∧
    currently_acceptable (vd_report d) = true) as (d & Hd & Hpass & Hcur).
  { vm_compute in Hb, Hp, Hc. injection Hb as <-. injection Hp as <-. injection Hc as <-.
    eexists. split; [vm_compute; reflexivity|]. split; vm_compute; reflexivity. }
  exists d. split; [exact Hd|]. split; [exact Hpass|].
  rewrite Hroute, Hd. cbn. by rewrite Hcur.
Defined.

End api_witnesses.
