(* ===== verification/Server.v ===== *)
(** Server: the HTTP plumbing around the router,
    [crates/proof-api/src/server.rs] and the accept loop of
    [crates/proof-api/src/main.rs].

    A connection is the list of what its reads return; [handle_inner] reads the
    head, bounds and reads the body, calls [Api.route] and writes the answer,
    and [serve] handles the accepted connections one after the other with the
    shared counters.  The JSON text of an answer is a parameter.

    The theorems: how the bytes are cut into reads does not matter for heads up to the
    size of a read buffer (and does for longer ones), what is
    buffered is bounded, the counters account for every answer, and an answer is
    framed by the length it announces. *)
From Stdlib Require Import Strings.Byte NArith ZArith Lia.
From stdpp Require Import pretty.
From S2P Require Import Prelude Text Core External Cbor Schema Graph Ident Claim Cose.
From S2P Require Import Report Pipeline PipelineFacts Envelope Eval Api.

(** [serde_json::Value::to_string] on an object of texts and unsigned integers
    and on the document of a routed answer. *)
Class SerdeJsonText := {
  object_text : list (string * JsonScalar) → string;
  response_text : Response → string;
}.

Definition MAX_BODY_BYTES : N := 8388608.
(** The largest number of bytes one read returns: the length of its buffer. *)
Definition READ_BUFFER : N := 8192.

(** * Counters *)

Record Metrics : Type := mkMetrics {
  requests : N;
  ok_2xx : N;
  err_4xx : N;
  bytes_in : N;
  bytes_out : N;
}.
Definition default_metrics : Metrics := mkMetrics 0 0 0 0 0.
(** [AtomicU64::fetch_add] wraps around. *)
Definition fetch_add (counter n : N) : N := (counter + n) mod 2 ^ 64.
Definition record (m : Metrics) (status b_in b_out : N) : Metrics :=
  let success := (200 <=? status) && (status <? 300) in {|
  requests := fetch_add (requests m) 1;
  ok_2xx := if success then fetch_add (ok_2xx m) 1 else ok_2xx m;
  err_4xx := if success then err_4xx m else fetch_add (err_4xx m) 1;
  bytes_in := fetch_add (bytes_in m) b_in;
  bytes_out := fetch_add (bytes_out m) b_out |}.
Definition snapshot (m : Metrics) : list (string * JsonScalar) :=
  [("requests_total", SUint (requests m)); ("responses_2xx", SUint (ok_2xx m));
   ("responses_4xx", SUint (err_4xx m)); ("bytes_in", SUint (bytes_in m));
   ("bytes_out", SUint (bytes_out m))].

(** * Reading *)

(** What [stream.read] returns: bytes (none at the end of the stream) or an
    error, a timeout included. *)
Inductive Read : Set :=
| Received (chunk : list byte)
| ReadFailed.

(** [raw.windows(4).position(|w| w == b"\r\n\r\n").map(|p| p + 4)]. *)
Fixpoint header_end_position (raw : list byte) : option N :=
  match raw with
  | [] => None
  | b0 :: raw' =>
      match raw with
      | Byte.x0d :: Byte.x0a :: Byte.x0d :: Byte.x0a :: _ => Some 0
      | _ => N.succ <$> header_end_position raw'
      end
  end.
Definition find_header_end (raw : list byte) : option N :=
  (λ p, p + 4) <$> header_end_position raw.

Inductive HeadRead : Type :=
| HeadClosed
| HeadTooLarge
| HeadAt (raw : list byte) (header_end : N) (rest : list Read).

(** The first loop of [handle_inner]; a stream with no more reads is at its end. *)
Fixpoint read_head (raw : list byte) (stream : list Read) : HeadRead :=
  match stream with
  | [] | Received [] :: _ | ReadFailed :: _ => HeadClosed
  | Received chunk :: rest =>
      let raw := raw ++ chunk in
      if 16384 <? len raw then HeadTooLarge
      else match find_header_end raw with
           | Some p => HeadAt raw p rest
           | None => read_head raw rest
           end
  end.

Inductive BodyRead : Type :=
| BodyClosed
| BodyTooLarge
| BodyIs (body : list byte).

(** The loop over the body: it stops at the announced length or at the end. *)
Fixpoint read_body (n : N) (body : list byte) (stream : list Read) : BodyRead :=
  if len body <? n then
    match stream with
    | [] | Received [] :: _ => BodyIs body
    | ReadFailed :: _ => BodyClosed
    | Received chunk :: rest =>
        let body := body ++ chunk in
        if MAX_BODY_BYTES + 16384 <? len body then BodyTooLarge else read_body n body rest
    end
  else BodyIs body.

(** * The head *)

(** The last [Content-Length] line before the blank line decides, in either of
    two spellings; a value that is no number unsets it. *)
Fixpoint content_length (found : option N) (header : list string) : option N :=
  match header with
  | [] => found
  | line :: header' =>
      if sempty line then found
      else content_length
        (match or_else (strip_prefix "Content-Length:" line) (strip_prefix "content-length:" line) with
         | Some v => parse_u64 (trim v)
         | None => found
         end) header'
  end.

Record RequestHead : Type := {
  rh_method : string;
  rh_path : string;
  rh_version : string;
  rh_content_length : option N;
}.
Definition parse_head (head_text : string) : RequestHead :=
  let header := lines head_text in
  let parts := split_whitespace (default "" (header !! 0%nat)) in {|
  rh_method := default "" (parts !! 0%nat);
  rh_path := default "" (parts !! 1%nat);
  rh_version := default "" (parts !! 2%nat);
  rh_content_length := content_length None (tail header) |}.
(** METHOD PATH HTTP/1.x. *)
Definition strict_request_line (h : RequestHead) : bool :=
  negb (sempty (rh_method h)) && negb (sempty (rh_path h)) &&
  (bool_decide (rh_version h = "HTTP/1.0") || bool_decide (rh_version h = "HTTP/1.1")).

(** * Answering *)

Definition reason (status : N) : string :=
  if status =? 200 then "OK" else if status =? 400 then "Bad Request"
  else if status =? 404 then "Not Found" else if status =? 405 then "Method Not Allowed"
  else if status =? 413 then "Content Too Large" else if status =? 422 then "Unprocessable Entity"
  else "Error".
Definition crlf : string := of_bytes [Byte.x0d; Byte.x0a].
Definition respond (status : N) (body : string) : string :=
  "HTTP/1.1 " +:+ pretty status +:+ " " +:+ reason status +:+ crlf +:+
  "Content-Type: application/json" +:+ crlf +:+ "Content-Length: " +:+ pretty (slen body) +:+ crlf +:+
  "Connection: close" +:+ crlf +:+ crlf +:+ body.

(** What handling a connection leaves: the status for the log (0 when nothing is
    answered), the counters and the text written. *)
Record Served : Type := mkServed {
  served_status : N;
  served_metrics : Metrics;
  served_text : string;
}.

Section server.
Context `{SerdeJsonReader, Base64Url, Sha2, SignatureSchemes, HashOrder, SerdeJsonText}.

Definition err_json (message : string) : string := object_text [("error", SText message)].
Definition respond_with (m : Metrics) (status : N) (body : string) : Served :=
  mkServed status (record m status 0 (slen body)) (respond status body).
Definition closed (m : Metrics) : Served := mkServed 0 m "".

(** The end of [handle_inner]: the counters answer for themselves, everything
    else is routed. *)
Definition answer (m : Metrics) (method path : string) (body : list byte) : option Served :=
  if bool_decide (method = "GET") && bool_decide (path = "/v1/metrics")
  then Some (respond_with m 200 (object_text (snapshot m)))
  else
    '(status, resp) ← route method path body;
    let out := response_text resp in
    Some (mkServed status (record m status (len body) (slen out)) (respond status out)).

Definition handle_inner (stream : list Read) (m : Metrics) : option Served :=
  match read_head [] stream with
  | HeadClosed => Some (closed m)
  | HeadTooLarge => Some (respond_with m 413 (err_json "headers too large"))
  | HeadAt raw header_end rest =>
      let h := parse_head (from_utf8_lossy (take (N.to_nat header_end) raw)) in
      if negb (strict_request_line h) then Some (respond_with m 400 (err_json "bad request line")) else
      let body := drop (N.to_nat header_end) raw in
      if bool_decide (rh_method h = "POST") then
        match rh_content_length h with
        | Some n =>
            if n <=? MAX_BODY_BYTES then
              match read_body n body rest with
              | BodyClosed => Some (closed m)
              | BodyTooLarge => Some (respond_with m 413 (err_json "body too large"))
              | BodyIs body => answer m (rh_method h) (rh_path h) (take (N.to_nat n) body)
              end
            else Some (respond_with m 413 (err_json "body required with Content-Length ≤ 8 MiB"))
        | None => Some (respond_with m 413 (err_json "body required with Content-Length ≤ 8 MiB"))
        end
      else answer m (rh_method h) (rh_path h) body
  end.
Definition handle : list Read → Metrics → option Served := handle_inner.

(** The accept loop: a connection that was not accepted is skipped, a status
    other than 0 is logged. *)
Fixpoint serve (m : Metrics) (incoming : list (option (list Read))) : option (list N * Metrics) :=
  match incoming with
  | [] => Some ([], m)
  | None :: incoming' => serve m incoming'
  | Some stream :: incoming' =>
      s ← handle stream m;
      '(log, m') ← serve (served_metrics s) incoming';
      Some (if served_status s =? 0 then (log, m') else (served_status s :: log, m'))
  end.
End server.

(** The addresses the binary binds to. *)
Definition bind_allowed (bind : string) : bool :=
  starts_with "127." bind || starts_with "localhost" bind || starts_with "[::1]" bind.

(** * The end of the head *)

Lemma header_end_app raw more p :
  header_end_position raw = Some p → header_end_position (raw ++ more) = Some p.
Proof.
  revert p. induction raw as [|b0 raw IH]; intros p; [done|]. cbn [header_end_position app].
  assert (∀ o, o = N.succ <$> header_end_position raw → o = Some p →
    N.succ <$> header_end_position (raw ++ more) = Some p) as Hgo.
  { intros o -> (q & Hq & ->)%fmap_Some. by rewrite (IH q Hq). }
  destruct b0; try (eapply Hgo; reflexivity).
  destruct raw as [|[] raw]; try (eapply Hgo; reflexivity). { done. }
  destruct raw as [|[] raw]; try (eapply Hgo; reflexivity). { done. }
  destruct raw as [|[] raw]; try (eapply Hgo; reflexivity). { done. }
  done.
Qed.

(** A position is that of four bytes that end the head. *)
Lemma header_end_bound raw p : header_end_position raw = Some p → p + 4 <= len raw.
Proof.
  revert p. induction raw as [|b0 raw IH]; intros p; [done|]. cbn [header_end_position].
  assert (∀ o, o = N.succ <$> header_end_position raw → o = Some p → p + 4 <= len (b0 :: raw)) as Hgo.
  { intros o -> (q & Hq & ->)%fmap_Some. specialize (IH q Hq). len_lia. }
  destruct b0; try (eapply Hgo; reflexivity).
  destruct raw as [|[] raw]; try (eapply Hgo; reflexivity).
  destruct raw as [|[] raw]; try (eapply Hgo; reflexivity).
  destruct raw as [|[] raw]; try (eapply Hgo; reflexivity).
  intros [= <-]. len_lia.
Qed.

Lemma find_header_end_app raw more p :
  find_header_end raw = Some p → find_header_end (raw ++ more) = Some p.
Proof.
  unfold find_header_end. intros (q & Hq & ->)%fmap_Some. by rewrite (header_end_app _ _ _ Hq).
Qed.
Lemma find_header_end_bound raw p : find_header_end raw = Some p → p <= len raw.
Proof.
  unfold find_header_end. intros (q & Hq & ->)%fmap_Some. by apply header_end_bound.
Qed.

(** The end of the head depends on the bytes before it only. *)
Lemma header_end_prefix raw more p :
  header_end_position (raw ++ more) = Some p → p + 4 <= len raw → header_end_position raw = Some p.
Proof.
  revert p. induction raw as [|b0 raw IH]; intros p Hp Hle; [unfold len in Hle; cbn in Hle; lia|].
  cbn [header_end_position app] in *.
  assert (∀ o, o = N.succ <$> header_end_position (raw ++ more) → o = Some p →
    N.succ <$> header_end_position raw = Some p) as Hgo.
  { intros o -> (q & Hq & ->)%fmap_Some. rewrite (IH q Hq); [done|]. rewrite len_cons in Hle. lia. }
  destruct b0; try (eapply Hgo; [reflexivity|exact Hp]).
  destruct raw as [|[] raw]; try (eapply Hgo; [reflexivity|exact Hp]); [len_lia|].
  destruct raw as [|[] raw]; try (eapply Hgo; [reflexivity|exact Hp]); [len_lia|].
  destruct raw as [|[] raw]; try (eapply Hgo; [reflexivity|exact Hp]); [len_lia|].
  done.
Qed.
Lemma find_header_end_prefix raw more p :
  find_header_end (raw ++ more) = Some p → p <= len raw → find_header_end raw = Some p.
Proof.
  unfold find_header_end. intros (q & Hq & ->)%fmap_Some Hle. by rewrite (header_end_prefix _ _ _ Hq Hle).
Qed.

(** * The reading loops *)

(** What a read with a buffer of [READ_BUFFER] bytes can return. *)
Definition read_ok (r : Read) : Prop :=
  match r with Received chunk => len chunk <= READ_BUFFER | ReadFailed => True end.
Definition full_reads (chunks : list (list byte)) : Prop :=
  Forall (λ c, 0 < len c <= READ_BUFFER) chunks.

(** The head is found in the same place however the bytes arrive. *)
Lemma read_head_found raw chunks p :
  find_header_end raw = None → full_reads chunks →
  find_header_end (raw ++ concat chunks) = Some p → p <= READ_BUFFER + 1 →
  ∃ pre post, chunks = pre ++ post ∧
    read_head raw (map Received chunks) = HeadAt (raw ++ concat pre) p (map Received post) ∧
    p <= len (raw ++ concat pre).
Proof.
  intros Hn Hc. revert raw Hn. induction Hc as [|c chunks [Hc1 Hc2] Hc IH]; intros raw Hn Hp Hle.
  { cbn [concat] in Hp. rewrite app_nil_r in Hp. congruence. }
  cbn [map concat] in *. rewrite app_assoc in Hp.
  assert (len raw < p) as Hlt.
  { destruct (N.lt_ge_cases (len raw) p) as [|Hge]; [done|]. rewrite <- app_assoc in Hp.
    apply (find_header_end_prefix _ _ _ Hp) in Hge. congruence. }
  destruct c as [|b c]; [unfold len in Hc1; cbn in Hc1; lia|]. cbn [read_head].
  rewrite (proj2 (N.ltb_ge _ _)) by (unfold READ_BUFFER in *; len_lia).
  destruct (find_header_end (raw ++ b :: c)) as [q|] eqn:Hq.
  - exists [b :: c], chunks. split; [done|]. rewrite (find_header_end_app _ _ _ Hq) in Hp.
    injection Hp as ->. cbn [concat]. rewrite app_nil_r. split; [done|].
    by apply find_header_end_bound.
  - destruct (IH _ Hq Hp Hle) as (pre & post & -> & Hr & Hb).
    exists ((b :: c) :: pre), post. split; [done|]. cbn [concat]. by rewrite app_assoc.
Qed.

Lemma read_head_none raw chunks :
  full_reads chunks → find_header_end (raw ++ concat chunks) = None →
  len (raw ++ concat chunks) <= 16384 → read_head raw (map Received chunks) = HeadClosed.
Proof.
  intros Hc. revert raw. induction Hc as [|c chunks [Hc1 Hc2] Hc IH]; intros raw Hn Hle; [done|].
  cbn [map concat] in *. rewrite app_assoc in Hn, Hle.
  destruct c as [|b c]; [unfold len in Hc1; cbn in Hc1; lia|]. cbn [read_head].
  rewrite (proj2 (N.ltb_ge _ _)) by len_lia.
  destruct (find_header_end (raw ++ b :: c)) as [q|] eqn:Hq; [|by apply IH].
  rewrite (find_header_end_app _ _ _ Hq) in Hn. done.
Qed.

Lemma take_app_le {A} (n : nat) (l k : list A) : (n <= length l)%nat → take n (l ++ k) = take n l.
Proof. intros Hn. rewrite take_app. replace (n - length l)%nat with 0%nat by lia. by rewrite app_nil_r. Qed.

Lemma read_body_full n body chunks :
  n <= MAX_BODY_BYTES → full_reads chunks →
  ∃ b, read_body n body (map Received chunks) = BodyIs b ∧
    take (N.to_nat n) b = take (N.to_nat n) (body ++ concat chunks).
Proof.
  intros Hn Hc. revert body. induction Hc as [|c chunks [Hc1 Hc2] Hc IH]; intros body; cbn [map read_body concat].
  { exists body. rewrite app_nil_r. by destruct (_ <? _). }
  destruct (N.ltb_spec (len body) n) as [Hlt|Hge].
  - destruct c as [|b c]; [unfold len in Hc1; cbn in Hc1; lia|].
    rewrite (proj2 (N.ltb_ge _ _)) by (unfold READ_BUFFER in *; len_lia).
    destruct (IH (body ++ b :: c)) as (b' & Hr & Ht). exists b'. split; [done|]. by rewrite Ht, <- app_assoc.
  - exists body. split; [done|]. symmetry. apply take_app_le. unfold len in Hge. lia.
Qed.

(** What the loops buffer, whatever the reads return. *)
Lemma read_head_bounded raw stream raw' p rest :
  read_head raw stream = HeadAt raw' p rest →
  len raw' <= 16384 ∧ p <= len raw' ∧ ∃ used, stream = used ++ rest.
Proof.
  revert raw. induction stream as [|[chunk|] stream IH]; intros raw; [done| |done]. cbn [read_head].
  destruct chunk as [|b chunk]; [done|].
  destruct (N.ltb_spec 16384 (len (raw ++ b :: chunk))) as [|Hle]; [done|].
  destruct (find_header_end (raw ++ b :: chunk)) as [q|] eqn:Hq.
  - intros [= <- <- <-]. split_and!; [done|by apply find_header_end_bound|]. by exists [Received (b :: chunk)].
  - intros (? & ? & used & ->)%IH. split_and!; [done..|]. by exists (Received (b :: chunk) :: used).
Qed.

Lemma read_body_bounded n body stream :
  n <= MAX_BODY_BYTES → Forall read_ok stream →
  match read_body n body stream with
  | BodyTooLarge => False
  | BodyClosed => ReadFailed ∈ stream
  | BodyIs b => len b < N.max (len body + 1) (n + READ_BUFFER)
  end.
Proof.
  intros Hn Hs. revert body.
  induction Hs as [|r stream Hr Hs IH]; intros body; cbn [read_body];
    (destruct (N.ltb_spec (len body) n) as [Hlt|Hge]; [|lia]); [lia|].
  destruct r as [chunk|]; [|left]. destruct chunk as [|b chunk]; [lia|]. cbn [read_ok] in Hr.
  rewrite (proj2 (N.ltb_ge _ _)) by (unfold READ_BUFFER in *; len_lia).
  specialize (IH (body ++ b :: chunk)). destruct (read_body _ _ stream) as [| |b'] eqn:Hb; [by right|done|].
  assert (len (body ++ b :: chunk) + 1 <= n + READ_BUFFER) by (unfold READ_BUFFER in *; len_lia). lia.
Qed.

(** * Connections *)

Section server_facts.
Context `{SerdeJsonReader, Base64UrlLaws, Sha2, SignatureSchemes, HashOrderLaws, SerdeJsonText}.

(** The answer to the bytes of a request that are all there: status and text. *)
Definition answer_at_once (m : Metrics) (bytes : list byte) : option (N * string) :=
  let refuse status message := Some (status, respond status (err_json message)) in
  let reply method path body := (λ s, (served_status s, served_text s)) <$> answer m method path body in
  match find_header_end bytes with
  | None => Some (0, "")
  | Some p =>
      let h := parse_head (from_utf8_lossy (take (N.to_nat p) bytes)) in
      if negb (strict_request_line h) then refuse 400 "bad request line"
      else if bool_decide (rh_method h = "POST") then
        match rh_content_length h with
        | Some n =>
            if n <=? MAX_BODY_BYTES
            then reply (rh_method h) (rh_path h) (take (N.to_nat n) (drop (N.to_nat p) bytes))
            else refuse 413 "body required with Content-Length ≤ 8 MiB"
        | None => refuse 413 "body required with Content-Length ≤ 8 MiB"
        end
      else reply (rh_method h) (rh_path h) []
  end.

(** Only a POST looks at its body. *)
Lemma answer_ignores_body m method path body body' :
  method ≠ "POST" →
  (λ s, (served_status s, served_text s)) <$> answer m method path body =
  (λ s, (served_status s, served_text s)) <$> answer m method path body'.
Proof.
  intros Hm. unfold answer. destruct (_ && _); [done|].
  assert (route method path body = route method path body') as ->.
  { unfold route. case_bool_decide; [done|]. by rewrite bool_decide_eq_true_2. }
  by destruct (route method path body') as [[? ?]|].
Qed.

(** C37: how the network cuts a request into reads does not change the answer, for
    heads up to the size of a read buffer.  For every way to receive bytes, without a
    read error, whose head ends within 8193 bytes (or never ends, in at most 16384
    bytes), status and text written are those of handling the bytes at once; bytes
    after the announced length are ignored.  (For longer heads the cut does matter:
    [long_head_cut].) *)
Theorem framing_independent m chunks
  (Hc : full_reads chunks)
  (Hp : match find_header_end (concat chunks) with
        | Some p => p <= READ_BUFFER + 1
        | None => len (concat chunks) <= 16384
        end) :
  (λ s, (served_status s, served_text s)) <$> handle (map Received chunks) m =
  answer_at_once m (concat chunks).
Proof.
  unfold handle, handle_inner, answer_at_once. destruct (find_header_end (concat chunks)) as [p|] eqn:Hf.
  - destruct (read_head_found [] chunks p) as (pre & post & -> & -> & Hb); try done.
    cbn [app] in Hb. rewrite concat_app in *. unfold full_reads in Hc. rewrite Forall_app in Hc.
    destruct Hc as [Hpre Hpost]. cbn zeta. rewrite app_nil_l.
    rewrite (take_app_le (N.to_nat p) (concat pre)) by (unfold len in Hb; lia).
    set (h := parse_head _). destruct (negb (strict_request_line h)); [done|].
    case_bool_decide as Hm; [|by apply answer_ignores_body].
    destruct (rh_content_length h) as [n|]; [|done].
    destruct (N.leb_spec n MAX_BODY_BYTES) as [Hn|]; [|done].
    destruct (read_body_full n (drop (N.to_nat p) (concat pre)) post) as (b & -> & ->); [done..|].
    rewrite drop_app_le by (unfold len in Hb; lia). done.
  - rewrite (read_head_none [] chunks) by done. done.
Qed.


Definition STATUSES : list N := [200; 400; 404; 405; 413; 422].

(** Nothing is answered and counted, or one answer is. *)
Definition answered (m : Metrics) (s : Served) : Prop :=
  (served_status s = 0 ∧ served_metrics s = m ∧ served_text s = "") ∨
  (served_status s ∈ STATUSES ∧ ∃ b_in body,
     served_metrics s = record m (served_status s) b_in (slen body) ∧
     served_text s = respond (served_status s) body).

(** Handling always returns. *)
Lemma handle_total stream m :
  ∃ s, handle stream m = Some s ∧ answered m s.
Proof.
  assert (∀ status body, status ∈ STATUSES → ∃ s, Some (respond_with m status body) = Some s ∧ answered m s) as Hw.
  { intros status body Hin. eexists. split; [done|]. right. split; [done|]. by exists 0, body. }
  assert (∀ method path body, ∃ s, answer m method path body = Some s ∧ answered m s) as Ha.
  { intros method path body. unfold answer. destruct (_ && _); [apply Hw; set_solver|].
    destruct (route_total method path body) as (status & resp & -> & Hin & _).
    eexists. split; [done|]. right. cbn [served_status served_metrics served_text].
    split; [set_solver|by exists (len body), (response_text resp)]. }
  unfold handle, handle_inner.
  destruct (read_head [] stream) as [| |raw p rest]; [eexists; split; [done|by left]|apply Hw; set_solver|].
  cbn zeta. destruct (negb _); [apply Hw; set_solver|]. case_bool_decide; [|apply Ha].
  destruct (rh_content_length _) as [n|]; [|apply Hw; set_solver].
  destruct (n <=? MAX_BODY_BYTES); [|apply Hw; set_solver].
  destruct (read_body _ _ _); [eexists; split; [done|by left]|apply Hw; set_solver|apply Ha].
Qed.

(** [count] more events on a wrapping counter. *)
Lemma fetch_add_many counter n k : fetch_add (fetch_add counter n) k = fetch_add counter (n + k).
Proof. unfold fetch_add. rewrite N.Div0.add_mod_idemp_l. f_equal. lia. Qed.

Definition succeeded (status : N) : bool := (200 <=? status) && (status <? 300).

Lemma serve_counts incoming m :
  requests m < 2 ^ 64 → ok_2xx m < 2 ^ 64 → err_4xx m < 2 ^ 64 →
  ∃ log m', serve m incoming = Some (log, m') ∧ Forall (λ s, s ∈ STATUSES) log ∧
    requests m' = fetch_add (requests m) (len log) ∧
    ok_2xx m' = fetch_add (ok_2xx m) (len (List.filter succeeded log)) ∧
    err_4xx m' = fetch_add (err_4xx m) (len (List.filter (λ s, negb (succeeded s)) log)).
Proof.
  assert (∀ c, c < 2 ^ 64 → c = fetch_add c 0) as Hz
    by (intros c Hc; unfold fetch_add; rewrite N.add_0_r; by rewrite N.mod_small).
  assert (∀ c n, fetch_add c n < 2 ^ 64) as Hlt by (intros; by apply N.mod_lt).
  revert m. induction incoming as [|[stream|] incoming IH]; intros m Hr Ho He; cbn [serve].
  - exists [], m. split_and!; auto.
  - destruct (handle_total stream m) as (s & -> & Hcase). cbn [mbind option_bind].
    destruct Hcase as [(Hs & -> & _)|(Hs & b_in & body & -> & _)].
    + destruct (IH m Hr Ho He) as (log & m' & -> & Hlog). rewrite Hs. by exists log, m'.
    + destruct (IH (record m (served_status s) b_in (slen body))) as (log & m' & -> & Hf & Hrq & Hok & Her);
        [apply Hlt|cbn [record ok_2xx]; destruct (_ && _); [apply Hlt|done]
        |cbn [record err_4xx]; destruct (_ && _); [done|apply Hlt]|].
      assert (served_status s ≠ 0) as Hne%N.eqb_neq by (intros Heq; rewrite Heq in Hs; set_solver).
      cbn [mbind option_bind]. rewrite Hne. eexists _, m'. split; [done|]. split; [by constructor|].
      rewrite Hrq, Hok, Her. cbn [record requests ok_2xx err_4xx List.filter].
      fold (succeeded (served_status s)). rewrite fetch_add_many, len_cons.
      destruct (succeeded (served_status s)); cbn [negb]; rewrite ?fetch_add_many, ?len_cons;
        split_and!; try done; f_equal; lia.
  - by apply IH.
Qed.

(** The counters account for the answers.  From a fresh start the accept loop
    handles every sequence of connections, each answered connection has one of
    six statuses, and the counters are the numbers of answers, of 2xx answers and
    of the others, as 64-bit counters. *)
Theorem metrics_account incoming :
  ∃ log m, serve default_metrics incoming = Some (log, m) ∧ Forall (λ s, s ∈ STATUSES) log ∧
    requests m = len log mod 2 ^ 64 ∧
    ok_2xx m = len (List.filter (N.eqb 200) log) mod 2 ^ 64 ∧
    requests m = (ok_2xx m + err_4xx m) mod 2 ^ 64.
Proof.
  destruct (serve_counts incoming default_metrics) as (log & m & Hs & Hlog & Hr & Ho & He); [done..|].
  exists log, m. split; [done|]. split; [done|]. rewrite Hr, Ho, He. unfold fetch_add.
  cbn [requests ok_2xx err_4xx default_metrics]. rewrite !N.add_0_l. split; [done|].
  assert (len log = len (List.filter succeeded log) + len (List.filter (λ s, negb (succeeded s)) log)) as Hlen.
  { clear. induction log as [|s log IH]; [done|]. cbn [List.filter].
    destruct (succeeded s); cbn [negb]; rewrite !len_cons; lia. }
  split; [|by rewrite Hlen, <- N.Div0.add_mod].
  do 2 f_equal. clear -Hlog. induction Hlog as [|s log Hin Hlog IH]; [done|]. cbn [List.filter].
  rewrite IH. unfold STATUSES in Hin.
  repeat (apply elem_of_cons in Hin as [->|Hin]; [done|]). by apply elem_of_nil in Hin.
Qed.
End server_facts.

(** * The text of an answer *)

Abbreviation CRLF := [Byte.x0d; Byte.x0a].

Lemma header_end_digits d rest :
  decimal d → header_end_position rest = None → header_end_position (as_bytes d ++ rest) = None.
Proof.
  unfold decimal. generalize (as_bytes d) as l. induction 1 as [|c l Hc Hl IH]; intros Hr; [done|].
  cbn [app header_end_position]. rewrite IH by done. by destruct c.
Qed.

(** The head ends at the first blank line. *)
Lemma find_header_end_first a rest :
  header_end_position (a ++ CRLF ++ [Byte.x0d]) = None →
  find_header_end (a ++ CRLF ++ CRLF ++ rest) = Some (len a + 4).
Proof.
  intros Hq. unfold find_header_end.
  assert (∃ q, header_end_position (a ++ CRLF ++ CRLF) = Some q ∧ q <= len a) as (q & Hs & Hle).
  { clear. induction a as [|b a [q [Hq Hle]]]; [by exists 0|]. cbn [app].
    change (b :: a ++ CRLF ++ CRLF) with ([b] ++ (a ++ CRLF ++ CRLF)).
    destruct (header_end_position ([b] ++ a ++ CRLF ++ CRLF)) as [q'|] eqn:Hq'.
    - exists q'. split; [done|]. apply header_end_bound in Hq'. len_lia.
    - exfalso. cbn [app header_end_position] in Hq'. cbn [app] in Hq. rewrite Hq in Hq'.
      by repeat case_match. }
  rewrite !app_assoc in *. rewrite (header_end_app _ _ _ Hs). cbn [fmap option_fmap option_map].
  do 2 f_equal. destruct (N.lt_ge_cases q (len a)) as [Hlt|]; [exfalso|lia].
  assert (header_end_position ((a ++ CRLF) ++ [Byte.x0d]) = Some q); [|congruence].
  apply (header_end_prefix _ [Byte.x0a]); [by rewrite <- !app_assoc in *|]. len_lia.
Qed.

(** The status line and the first header, as the bytes before the length. *)
Definition answer_start (status : N) : string :=
  "HTTP/1.1 " +:+ pretty status +:+ " " +:+ reason status +:+ crlf +:+
  "Content-Type: application/json" +:+ crlf +:+ "Content-Length: ".
Definition answer_head (status n : N) : string :=
  answer_start status +:+ pretty n +:+ crlf +:+ "Connection: close".

Lemma respond_bytes status body :
  as_bytes (respond status body) =
  as_bytes (answer_head status (slen body)) ++ CRLF ++ CRLF ++ as_bytes body.
Proof.
  unfold respond, answer_head, answer_start, crlf. rewrite !as_bytes_app, !as_of_bytes, <- !app_assoc.
  done.
Qed.

Lemma answer_head_quiet status n :
  status ∈ STATUSES →
  header_end_position (as_bytes (answer_head status n) ++ CRLF ++ [Byte.x0d]) = None.
Proof.
  intros Hs. unfold answer_head. rewrite !as_bytes_app, <- !app_assoc.
  pose proof (header_end_digits (pretty n)
    (as_bytes crlf ++ as_bytes "Connection: close" ++ CRLF ++ [Byte.x0d]) (pretty_decimal n) eq_refl) as Hd.
  revert Hd. generalize (as_bytes (pretty n) ++ as_bytes crlf ++ as_bytes "Connection: close" ++ CRLF ++ [Byte.x0d]) as rest.
  intros rest Hd. unfold STATUSES in Hs.
  repeat (apply elem_of_cons in Hs as [->|Hs];
    [match goal with |- header_end_position (?a ++ _) = _ =>
       let a' := eval vm_compute in a in change a with a' end;
     cbn [app header_end_position]; by rewrite Hd|]).
  by apply elem_of_nil in Hs.
Qed.

Lemma trim_after_space d : decimal d → trim (String (Ascii.ascii_of_N 32) d) = d.
Proof.
  intros Hd. transitivity (trim d).
  - unfold trim. cbn zeta. rewrite as_bytes_cons. reflexivity.
  - apply trim_visible. unfold decimal in Hd. eapply Forall_impl; [exact Hd|]. cbn beta.
    unfold in_range. intros c [Hlo%N.leb_le Hhi%N.leb_le]%andb_true_iff. lia.
Qed.

Lemma lines_of_cons line rest :
  rest ≠ [] → lines_of (line :: rest) = strip_carriage_return line :: lines_of rest.
Proof. by destruct rest. Qed.

Lemma split_line p s :
  contains_char newline p = false →
  split_on newline (p +:+ crlf +:+ s) = (p +:+ String carriage_return "") :: split_on newline s.
Proof.
  intros Hp. apply split_on_app; [done|]. unfold crlf. cbn [of_bytes].
  rewrite <- str_app_nil at 1. done.
Qed.

(** The lines of the head of an answer. *)
Lemma answer_head_lines status n :
  status ∈ STATUSES →
  tail (lines (answer_head status n +:+ crlf +:+ crlf)) =
  ["Content-Type: application/json"; "Content-Length: " +:+ pretty n; "Connection: close"; ""].
Proof.
  intros Hs. unfold lines, answer_head, answer_start. rewrite !str_app_assoc.
  set (line := "HTTP/1.1 " +:+ pretty status +:+ " " +:+ reason status).
  assert (contains_char newline line = false) as Hline.
  { unfold STATUSES in Hs. repeat (apply elem_of_cons in Hs as [->|Hs]; [by vm_compute|]).
    by apply elem_of_nil in Hs. }
  replace (_ +:+ _) with (line +:+ crlf +:+ "Content-Type: application/json" +:+ crlf +:+
    ("Content-Length: " +:+ pretty n) +:+ crlf +:+ "Connection: close" +:+ crlf +:+ "" +:+ crlf +:+ "")
    by (unfold line; by rewrite !str_app_assoc).
  rewrite !split_line; try reflexivity; try done.
  - rewrite !lines_of_cons by done. cbn [tail]. by rewrite !strip_carriage_return_app.
  - by apply contains_char_app, decimal_no_char; [..|apply pretty_decimal|].
Qed.

(** An answer is framed by the length it announces.  Read back with the
    server's own reader, the head of every answer ends exactly where its body
    starts and its [Content-Length] is the length of the body. *)
Theorem answer_framed status body (Hs : status ∈ STATUSES) (Hb : slen body <= u64_max) :
  ∃ p, find_header_end (as_bytes (respond status body)) = Some p ∧
    of_bytes (drop (N.to_nat p) (as_bytes (respond status body))) = body ∧
    content_length None (tail (lines (of_bytes (take (N.to_nat p) (as_bytes (respond status body))))))
      = Some (slen body).
Proof.
  rewrite respond_bytes. set (h := answer_head status (slen body)).
  exists (len (as_bytes h) + 4). split; [by apply find_header_end_first, answer_head_quiet|].
  rewrite app_assoc, (app_assoc _ CRLF (as_bytes body)).
  assert (N.to_nat (len (as_bytes h) + 4) = length ((as_bytes h ++ CRLF) ++ CRLF)) as ->
    by (unfold len; rewrite !length_app; cbn [length]; lia).
  rewrite drop_app_length, take_app_length. split; [apply of_as_bytes|].
  assert (of_bytes ((as_bytes h ++ CRLF) ++ CRLF) = h +:+ crlf +:+ crlf) as ->.
  { rewrite <- app_assoc, <- (of_as_bytes (h +:+ crlf +:+ crlf)), !as_bytes_app. done. }
  unfold h. rewrite answer_head_lines by done.
  assert (or_else (strip_prefix "Content-Length:" ("Content-Length: " +:+ pretty (slen body)))
    (strip_prefix "content-length:" ("Content-Length: " +:+ pretty (slen body))) =
    Some (String (Ascii.ascii_of_N 32) (pretty (slen body)))) as Hv by reflexivity.
  cbn [content_length]. rewrite Hv, trim_after_space, parse_u64_pretty by auto using pretty_decimal.
  reflexivity.
Qed.

(** Host names that only start like a loopback address are bound as well. *)
Example loopback_prefix_only :
  bind_allowed "127.0.0.1:8902" = true ∧ bind_allowed "0.0.0.0:8902" = false ∧
  bind_allowed "localhost.example.com:8902" = true.
Proof. by vm_compute. Qed.

Module ServerSamples.
Import Toy.
#[export] Instance texts : SerdeJsonText :=
  {| object_text entries := "{}"; response_text r := match r with Failed => "no" | _ => "yes" end |}.
Definition text_of (ls : list string) (body : string) : list byte :=
  as_bytes (foldr (λ l rest, l +:+ crlf +:+ rest) (crlf +:+ body) ls).
(** A verify request with bytes past its announced length. *)
Definition verify_request : list byte :=
  text_of ["POST /v1/verify HTTP/1.1"; "Host: here"; "Content-Length: 7"] "requestMORE".
(** The same bytes in one read and in reads of ten. *)
Fixpoint cut (fuel n : nat) (l : list byte) : list (list byte) :=
  match fuel, l with
  | S fuel, _ :: _ => take n l :: cut fuel n (drop n l)
  | _, _ => []
  end.
Definition chunks : list (list byte) := Eval vm_compute in cut 100 10 verify_request.
(** A body announced as longer than what is sent. *)
Definition short_request : list byte :=
  text_of ["POST /v1/verify HTTP/1.1"; "Content-Length: 70"] "request".
Definition requests : list (option (list Read)) :=
  [Some (map Received chunks); None; Some [Received (text_of ["GET /v1/metrics HTTP/1.0"] "")];
   Some [Received (as_bytes "POST"); ReadFailed]; Some [Received (text_of ["PRI * HTTP/2.0"] "")];
   Some [Received short_request]; Some [Received (text_of ["POST /v1/verify HTTP/1.1"] "")]].
(** A request with a head of 9000 bytes, and a body that is no JSON. *)
Definition long_head : list byte :=
  text_of ["POST /v1/verify HTTP/1.1"; "Content-Length: 8000"; "X: " +:+ of_bytes (repeat Byte.x61 (N.to_nat 8945))] "".
Definition long_body : list byte := repeat Byte.x7b (N.to_nat 8000).
(** The head cut off from the body, and a read that crosses its end. *)
Definition cut_at_head : list (list byte) := [take (N.to_nat 8192) long_head; drop (N.to_nat 8192) long_head; long_body].
Definition cut_across : list (list byte) :=
  [take (N.to_nat 8192) long_head; take 500 (drop (N.to_nat 8192) long_head); drop (N.to_nat 8692) long_head ++ take (N.to_nat 7884) long_body;
   drop (N.to_nat 7884) long_body].
End ServerSamples.

Section server_witnesses.
Import Toy GraphSamples ApiSamples ServerSamples.

(** A body shorter than announced is routed as it is. *)
Example serve_sample :
  serve default_metrics requests = Some ([200; 200; 400; 200; 413], mkMetrics 5 3 2 14 12).
Proof. vm_compute. reflexivity. Qed.

(** Past the size of a read buffer the cut into reads matters: the limit on the head
    is compared with all that was read, so the same bytes are routed or refused with
    413 depending on how much of the body arrives with the end of the head. *)
Example long_head_cut :
  len long_head = 9000 ∧ full_reads cut_at_head ∧ full_reads cut_across ∧
  concat cut_at_head = concat cut_across ∧
  served_status <$> handle (map Received cut_at_head) default_metrics = Some 400 ∧
  served_status <$> handle (map Received cut_across) default_metrics = Some 413.
Proof.
  unfold full_reads.
  split_and!; [vm_compute; reflexivity|repeat (constructor; [by vm_compute|]); constructor..|
    vm_compute; reflexivity|vm_compute; reflexivity|vm_compute; reflexivity].
Qed.

Lemma framing_independent_witness :
  (λ s, (served_status s, served_text s)) <$> handle (map Received chunks) default_metrics =
  Some (200, respond 200 "yes").
Proof.
  rewrite framing_independent.
  - vm_compute. reflexivity.
  - unfold full_reads, chunks. repeat (constructor; [by vm_compute|]). constructor.
  - vm_compute. discriminate.
Defined.


End server_witnesses.
