(* ===== verification/Cli.v ===== *)
(** Cli: the command line, [crates/proof-cli/src/lib.rs].

    [Cli.parse] turns the arguments into a command with its positional
    arguments, valued flags (last value and all values) and boolean flags; a
    flag outside the command's allowlist is a usage error.  The accessors, the
    [k=v] field parser and the terminal sanitizer complete the file.  A usage
    error is a message that no command inspects, so its text is not kept.

    The theorems: what an accepted command line may contain, the documented
    flags that the allowlist makes unusable, and that sanitized text holds no
    control character. *)
From Stdlib Require Import Strings.Byte NArith ZArith Lia.
From S2P Require Import Prelude Text Core Cbor Schema.

Definition EXIT_OK : Z := 0.
Definition EXIT_FAIL : Z := 1.
Definition EXIT_ERR : Z := 2.

(** An error is a message; [Said] keeps the text of the errors that a command
    inspects. *)
Inductive CliError : Set :=
| Said (text : string)
| Other.
#[global] Instance CliError_eq_dec : EqDecision CliError.
Proof. solve_decision. Defined.
Abbreviation CliResult := (result CliError).
Abbreviation UsageErr := (Err Other).

Record Cli : Type := mkCli {
  cli_command : string;
  cli_positional : list string;
  cli_values : gmap string string;
  cli_multi : gmap string (list string);
  cli_flags : gset string;
}.

(** * Flags *)

Definition short_flag_alias (name : string) : string :=
  if bool_decide (name = "o") then "out"
  else if bool_decide (name = "h") then "help"
  else if bool_decide (name = "q") then "quiet"
  else if bool_decide (name = "j") then "json"
  else if bool_decide (name = "p") then "proof"
  else if bool_decide (name = "c") then "clock"
  else if bool_decide (name = "k") then "skew"
  else if bool_decide (name = "s") then "subject"
  else if bool_decide (name = "t") then "type" else name.

Definition GLOBAL_FLAGS : list string := ["help"; "quiet"; "json"; "out"; "verbose"].
Definition COMMAND_FLAGS : list (string * list string) :=
  [
   ("create-event", ["type"; "subject"; "effective-at"; "payload-hex"; "payload-file"; "meta"]);
   ("attest", ["seed"; "seed-file"; "subject"; "claim-type"; "claim"; "issued-at"; "expires-at";
      "evidence-ref"; "production"]);
   ("add-evidence", ["kind"; "digest-hex"; "digest-file"; "attestation-ref"; "hint"]);
   ("relate", ["from"; "to"; "type"; "evidence-ref"; "attestation-ref"; "allow-ungrounded"]);
   ("revoke", ["seed"; "seed-file"; "target"; "reason"; "at"; "production"]);
   ("supersede", ["seed"; "seed-file"; "target"; "old"; "new"; "successor"; "reason"; "at";
      "production"]);
   ("withdraw", ["seed"; "seed-file"; "target"; "reason"; "at"; "production"]);
   ("compromise", ["seed"; "seed-file"; "target"; "compromised-at"; "reason"; "at";
      "production"]);
   ("build", ["kind"; "subject"; "predicate"; "object"; "at-time"; "created-at"; "context";
      "events"; "attestations"; "evidence"; "relationships"; "out"]);
   ("verify", ["proof"; "clock"; "skew"; "revocations-known-at"; "trusted"; "authority";
      "status"; "esp256"; "historical"; "allow-deprecated"; "accepted-vocab"; "extra-grounded";
      "report-all"; "require-acyclic"; "require-status"; "no-require-status"; "strict-current";
      "production"; "seen-store"; "seen-context"; "seen-record"]);
   ("evaluate", ["proof"; "policy"; "clock"; "skew"; "revocations-known-at"; "trusted";
      "authority"; "status"; "esp256"; "historical"; "allow-deprecated"; "accepted-vocab";
      "extra-grounded"; "report-all"; "require-acyclic"; "require-status"; "no-require-status";
      "strict-current"; "production"; "seen-store"; "seen-context"; "seen-record"]);
   ("explain", ["proof"; "policy"; "clock"; "skew"; "revocations-known-at"; "trusted";
      "authority"; "status"; "esp256"; "historical"; "allow-deprecated"; "accepted-vocab";
      "extra-grounded"; "report-all"; "require-acyclic"; "require-status"; "no-require-status";
      "strict-current"; "production"; "seen-store"; "seen-context"; "seen-record"]);
   ("batch-verify", ["proofs"; "clock"; "skew"; "revocations-known-at"; "trusted"; "authority";
      "status"; "esp256"; "historical"; "allow-deprecated"; "accepted-vocab"; "extra-grounded";
      "report-all"; "require-acyclic"; "require-status"; "no-require-status"; "strict-current";
      "production"; "max-batch"]);
   ("inspect", ["proof"]);
   ("id", ["artifact"; "field"]);
   ("commit", ["value"; "value-file"; "salt"; "alg"; "production"]);
   ("graph", ["proof"; "format"; "depth"]);
   ("export", ["proof"]);
   ("import", ["proof"]);
   ("convert", ["proof"]);
   ("compose", ["proofs"; "kind"; "subject"; "predicate"; "object"; "at-time"; "created-at";
      "context"; "events"; "attestations"; "evidence"; "relationships"; "out"; "status";
      "authority"]);
   ("resolve", ["proof"; "status"; "store"; "clock"; "skew"; "revocations-known-at"; "trusted";
      "authority"; "esp256"; "historical"; "allow-deprecated"; "accepted-vocab";
      "extra-grounded"; "report-all"; "require-acyclic"; "require-status"; "no-require-status";
      "strict-current"; "production"]);
   ("ingest", ["in"; "out-dir"; "dry-run"; "skip-bad"]);
   ("init-policy", ["issuer"; "attestation"; "proof"; "relationship"; "evidence-kind";
      "template"; "out"]);
   ("demo", ["interactive"]);
   ("doctor", []);
   ("completion", ["shell"])].

Definition allowed_flags (command : string) : option (list string) :=
  '(_, specific) ← List.find (λ p, bool_decide (p.1 = command)) COMMAND_FLAGS;
  Some (GLOBAL_FLAGS ++ specific).

(** [allowed] is [None] for a command without a table entry: it takes any flag. *)
Definition flag_ok (allowed : option (list string)) (name : string) : bool :=
  match allowed with Some names => bool_decide (name ∈ names) | None => true end.

(** * Parsing *)

Definition push_positional (cli : Cli) (a : string) : Cli :=
  {| cli_command := cli_command cli; cli_positional := cli_positional cli ++ [a];
     cli_values := cli_values cli; cli_multi := cli_multi cli; cli_flags := cli_flags cli |}.
Definition insert_flag (cli : Cli) (name : string) : Cli :=
  {| cli_command := cli_command cli; cli_positional := cli_positional cli;
     cli_values := cli_values cli; cli_multi := cli_multi cli;
     cli_flags := {[name]} ∪ cli_flags cli |}.
(** The last value wins in [values]; [multi] keeps them all, in order. *)
Definition insert_value (cli : Cli) (name value : string) : Cli :=
  {| cli_command := cli_command cli; cli_positional := cli_positional cli;
     cli_values := <[name := value]> (cli_values cli);
     cli_multi := <[name := default [] (cli_multi cli !! name) ++ [value]]> (cli_multi cli);
     cli_flags := cli_flags cli |}.

Definition dash : Ascii.ascii := Ascii.ascii_of_N 45.
Definition equals_sign : Ascii.ascii := Ascii.ascii_of_N 61.
Definition comma : Ascii.ascii := Ascii.ascii_of_N 44.

(** [-x]: one byte after a dash, itself not a dash. *)
Definition short_name (a : string) : option string :=
  s ← strip_prefix "-" a;
  if negb (starts_with "-" s) && (slen s =? 1) then Some s else None.

(** The loop over the arguments after the command. *)
Fixpoint parse_args (allowed : option (list string)) (cli : Cli) (args : list string)
    : CliResult Cli :=
  match args with
  | [] => Ok cli
  | a :: rest =>
      if bool_decide (a = "-") then parse_args allowed (push_positional cli a) rest else
      match short_name a with
      | Some name =>
          let long_name := short_flag_alias name in
          if negb (flag_ok allowed long_name) then UsageErr else
          match rest with
          | v :: rest' =>
              if negb (starts_with "-" v)
              then parse_args allowed (insert_value cli long_name v) rest'
              else parse_args allowed (insert_flag cli long_name) rest
          | [] => parse_args allowed (insert_flag cli long_name) rest
          end
      | None =>
      match strip_prefix "--" a with
      | None => parse_args allowed (push_positional cli a) rest
      | Some name =>
      match split_once equals_sign name with
      | Some (n, v) =>
          if negb (flag_ok allowed n) then UsageErr
          else parse_args allowed (insert_value cli n v) rest
      | None =>
          if negb (flag_ok allowed name) then UsageErr else
          match rest with
          | v :: rest' =>
              if bool_decide (v = "-") || (negb (starts_with "--" v) && negb (starts_with "-" v))
              then parse_args allowed (insert_value cli name v) rest'
              else parse_args allowed (insert_flag cli name) rest
          | [] => parse_args allowed (insert_flag cli name) rest
          end
      end
      end
      end
  end.

Definition command_of (raw : string) : string :=
  if bool_decide (raw ∈ ["--help"; "-h"]) then "help"
  else if bool_decide (raw = "--version") then "version" else raw.
Definition empty_cli (command : string) : Cli :=
  {| cli_command := command; cli_positional := []; cli_values := ∅; cli_multi := ∅;
     cli_flags := ∅ |}.
Definition parse (args : list string) : CliResult Cli :=
  match args with
  | [] => UsageErr
  | raw :: rest =>
      let command := command_of raw in
      parse_args (allowed_flags command) (empty_cli command) rest
  end.

(** * Accessors *)

Definition opt (cli : Cli) (name : string) : option string := cli_values cli !! name.
Definition req (cli : Cli) (name : string) : CliResult string := ok_or (opt cli name) Other.
Definition many (cli : Cli) (name : string) : list string := default [] (cli_multi cli !! name).
Definition has (cli : Cli) (name : string) : bool := bool_decide (name ∈ cli_flags cli).
Definition quiet (cli : Cli) : bool := has cli "quiet".
Definition verbose (cli : Cli) : bool := has cli "verbose".
Definition proof_path (cli : Cli) : CliResult string :=
  match opt cli "proof" with
  | Some p => Ok p
  | None => match cli_positional cli with [p] => Ok p | _ => UsageErr end
  end.
Definition req_u64 (cli : Cli) (name : string) : CliResult N :=
  v ← req cli name;
  ok_or (parse_u64 v) Other.
Definition opt_u64 (cli : Cli) (name : string) : CliResult (option N) :=
  match opt cli name with
  | None => Ok None
  | Some v => Some <$> ok_or (parse_u64 v) Other
  end.

(** * Fields *)

(** The value of a field: a boolean, an unsigned integer, or text. *)
Definition field_of_text (v : string) : MetaValue :=
  if bool_decide (v = "true") then MBool true
  else if bool_decide (v = "false") then MBool false
  else match parse_u64 v with Some n => MUint n | None => MText v end.
Definition parse_pair (pair : string) : CliResult (string * MetaValue) :=
  '(k, v) ← ok_or (split_once equals_sign pair) Other;
  if sempty k || sempty v then UsageErr else Ok (k, field_of_text v).
(** The order of the encoder: by the canonical encoding of the key. *)
Definition key_leb (a b : string * MetaValue) : bool :=
  bytes_leb (encode_canonical (Text a.1)) (encode_canonical (Text b.1)).
Definition parse_fields (spec : option string) : CliResult (list (string * MetaValue)) :=
  match spec with
  | None => Ok []
  | Some spec => out ← mapM parse_pair (split_on comma spec); Ok (sort_by key_leb out)
  end.

(** * Terminal text *)

(** The characters of a well-formed UTF-8 text, each with its bytes. *)
Fixpoint chars (fuel : nat) (l : list byte) : list (list byte) :=
  match fuel, l with
  | S fuel, c :: _ =>
      let width := if b2n c <? 0x80 then 1%nat else if b2n c <? 0xE0 then 2%nat
                   else if b2n c <? 0xF0 then 3%nat else 4%nat in
      take width l :: chars fuel (drop width l)
  | _, _ => []
  end.
(** [char::is_control]: U+0000 to U+001F and U+007F to U+009F. *)
Definition is_control (c : list byte) : bool :=
  match c with
  | [x] => (b2n x <? 0x20) || (b2n x =? 0x7F)
  | [x; y] => (b2n x =? 0xC2) && (b2n y <? 0xA0)
  | _ => false
  end.
Definition is_char (n : N) (c : list byte) : bool :=
  match c with [x] => b2n x =? n | _ => false end.
Definition is_final (c : list byte) : bool :=
  match c with [x] => (0x40 <=? b2n x) && (b2n x <=? 0x7E) | _ => false end.

(** [Plain]: ordinary text; [Escape]: after ESC; [Csi]: inside [ESC [ ... ]. *)
Inductive Mode : Set := Plain | Escape | Csi.
Fixpoint sanitize_chars (mode : Mode) (l : list (list byte)) : list (list byte) :=
  match l with
  | [] => []
  | c :: l' =>
      match mode with
      | Escape => sanitize_chars (if is_char 0x5B c then Csi else Plain) l'
      | Csi => sanitize_chars (if is_final c then Plain else Csi) l'
      | Plain =>
          if is_char 0x1B c then sanitize_chars Escape l'
          else if is_control c && negb (is_char 0x0A c) && negb (is_char 0x09 c)
          then sanitize_chars Plain l'
          else c :: sanitize_chars Plain l'
      end
  end.
Definition sanitize (s : string) : string :=
  let l := as_bytes s in of_bytes (concat (sanitize_chars Plain (chars (length l) l))).

(** * What an accepted command line contains *)

(** The state the parser builds: every flag is allowed, and the last value of a
    flag is the last of its values. *)
Record cli_wf (allowed : option (list string)) (cli : Cli) : Prop := {
  wf_values : ∀ k v, cli_values cli !! k = Some v →
    flag_ok allowed k = true ∧ last (many cli k) = Some v;
  wf_multi : ∀ k vs, cli_multi cli !! k = Some vs → is_Some (cli_values cli !! k);
  wf_flags : ∀ k, k ∈ cli_flags cli → flag_ok allowed k = true;
}.

Lemma push_positional_wf allowed cli a : cli_wf allowed cli → cli_wf allowed (push_positional cli a).
Proof. by intros []. Qed.
Lemma insert_flag_wf allowed cli name :
  flag_ok allowed name = true → cli_wf allowed cli → cli_wf allowed (insert_flag cli name).
Proof.
  intros Hok [Hv Hm Hf]. split; [done|done|]. intros k. cbn [cli_flags insert_flag].
  intros [->%elem_of_singleton|Hk]%elem_of_union; auto.
Qed.
Lemma insert_value_wf allowed cli name value :
  flag_ok allowed name = true → cli_wf allowed cli → cli_wf allowed (insert_value cli name value).
Proof.
  intros Hok [Hv Hm Hf]. split; [| |done]; cbn [cli_values cli_multi insert_value].
  - intros k v. unfold many. cbn [cli_multi insert_value].
    destruct (decide (name = k)) as [<-|Hne].
    + rewrite !lookup_insert_eq. intros [= ->]. split; [done|apply last_snoc].
    + rewrite !lookup_insert_ne by done. apply Hv.
  - intros k vs. destruct (decide (name = k)) as [<-|Hne];
      [rewrite !lookup_insert_eq; intros _; by eexists|rewrite !lookup_insert_ne by done; apply Hm].
Qed.
Lemma empty_cli_wf allowed command : cli_wf allowed (empty_cli command).
Proof. split; cbn; [intros ? ? Hk|intros ? ? Hk|]; [by rewrite lookup_empty in Hk..|set_solver]. Qed.
#[export] Hint Resolve push_positional_wf insert_flag_wf insert_value_wf empty_cli_wf : engine.

(** What the parser does with the head of the arguments, as a relation. *)
Inductive arg_step (allowed : option (list string)) : list string → (Cli → Cli) → list string → Prop :=
| step_positional a rest :
    a = "-" ∨ (short_name a = None ∧ strip_prefix "--" a = None) →
    arg_step allowed (a :: rest) (λ cli, push_positional cli a) rest
| step_flag a name rest :
    a ≠ "-" → (short_flag_alias <$> short_name a = Some name ∨
               short_name a = None ∧
               strip_prefix "--" a = Some name ∧ split_once equals_sign name = None) →
    flag_ok allowed name = true →
    arg_step allowed (a :: rest) (λ cli, insert_flag cli name) rest
| step_value a name v rest :
    a ≠ "-" → (short_flag_alias <$> short_name a = Some name ∨
               short_name a = None ∧
               strip_prefix "--" a = Some name ∧ split_once equals_sign name = None) →
    flag_ok allowed name = true → v = "-" ∨ starts_with "-" v = false →
    arg_step allowed (a :: v :: rest) (λ cli, insert_value cli name v) rest
| step_inline a b name v rest :
    a ≠ "-" → short_name a = None → strip_prefix "--" a = Some b →
    split_once equals_sign b = Some (name, v) → flag_ok allowed name = true →
    arg_step allowed (a :: rest) (λ cli, insert_value cli name v) rest.

Inductive parses_to (allowed : option (list string)) : Cli → list string → Cli → Prop :=
| parses_nil cli : parses_to allowed cli [] cli
| parses_cons cli args f rest cli' :
    arg_step allowed args f rest → parses_to allowed (f cli) rest cli' →
    parses_to allowed cli args cli'.

Lemma starts_with_dashes v : starts_with "-" v = false → starts_with "--" v = false.
Proof.
  intros Hd. apply not_true_is_false. intros (r & ->)%starts_with_spec.
  apply not_true_iff_false in Hd. apply Hd, starts_with_spec. by exists ("-" +:+ r).
Qed.

Lemma parse_args_steps allowed args cli cli' :
  parse_args allowed cli args = Ok cli' → parses_to allowed cli args cli'.
Proof.
  remember (length args) as n eqn:Hn. revert args Hn cli.
  induction n as [n IH] using lt_wf_ind. intros args -> cli.
  destruct args as [|a rest]; [intros [= ->]; constructor|]. cbn [parse_args].
  assert (∀ f r, arg_step allowed (a :: rest) f r → (length r <= length rest)%nat →
    parse_args allowed (f cli) r = Ok cli' → parses_to allowed cli (a :: rest) cli') as Hgo.
  { intros f r Hs Hl Hp. econstructor; [exact Hs|]. eapply IH; [|reflexivity|exact Hp]. cbn. lia. }
  clear IH. case_bool_decide as Hdash.
  { eapply (Hgo (λ cli, push_positional cli a)); [constructor; by left|done]. }
  destruct (short_name a) as [name|] eqn:Hs.
  - destruct (flag_ok allowed _) eqn:Hok; [|done]. cbn [negb].
    destruct rest as [|v rest'].
    { eapply (Hgo (λ cli, insert_flag cli _)); [eapply step_flag; [done|left; by rewrite Hs|done]|done]. }
    destruct (starts_with "-" v) eqn:Hv; cbn [negb].
    + eapply (Hgo (λ cli, insert_flag cli _)); [eapply step_flag; [done|left; by rewrite Hs|done]|done].
    + eapply (Hgo (λ cli, insert_value cli _ v));
        [eapply step_value; [done|left; by rewrite Hs|done|by right]|cbn; lia].
  - destruct (strip_prefix "--" a) as [name|] eqn:Hp.
    2: { eapply (Hgo (λ cli, push_positional cli a)); [constructor; by right|done]. }
    destruct (split_once equals_sign name) as [[k v]|] eqn:Hsp.
    { destruct (flag_ok allowed k) eqn:Hok; [|done]. cbn [negb].
      eapply (Hgo (λ cli, insert_value cli k v)); [by eapply step_inline|done]. }
    destruct (flag_ok allowed name) eqn:Hok; [|done]. cbn [negb]. destruct rest as [|v rest'].
    { eapply (Hgo (λ cli, insert_flag cli name)); [eapply step_flag; [done|by right|done]|done]. }
    destruct (bool_decide (v = "-") || _) eqn:Hv.
    + eapply (Hgo (λ cli, insert_value cli name v)); [eapply step_value; [done|by right|done|]|cbn; lia].
      apply orb_true_iff in Hv as [Hv|[_ Hv]%andb_true_iff]; [left; by apply bool_decide_eq_true in Hv|].
      right. by apply negb_true_iff in Hv.
    + eapply (Hgo (λ cli, insert_flag cli name)); [eapply step_flag; [done|by right|done]|done].
Qed.

Lemma arg_step_wf allowed args f rest cli :
  arg_step allowed args f rest → cli_wf allowed cli → cli_wf allowed (f cli).
Proof. destruct 1; eauto with engine. Qed.

Lemma parses_to_wf allowed cli args cli' :
  parses_to allowed cli args cli' → cli_wf allowed cli → cli_wf allowed cli'.
Proof. induction 1; eauto using arg_step_wf. Qed.

(** Parse errors carry no inspected text. *)
Lemma parse_args_no_text allowed cli args text : parse_args allowed cli args ≠ Err (Said text).
Proof.
  remember (length args) as n eqn:Hn. revert args Hn cli.
  induction n as [n IH] using lt_wf_ind. intros args -> cli.
  assert (∀ cli r, (length r < length args)%nat → parse_args allowed cli r ≠ Err (Said text)) as Hgo
    by (intros; eapply IH; eauto).
  clear IH. destruct args as [|a rest]; [done|]. cbn [parse_args].
  repeat case_match; try done; apply Hgo; cbn; lia.
Qed.

(** An argument that spells a long flag, with or without a value. *)
Definition names_flag (a name : string) : Prop :=
  contains_char equals_sign name = false ∧
  (a = "--" +:+ name ∨ ∃ v, a = "--" +:+ (name +:+ String equals_sign v)).

Lemma names_flag_spec a name :
  names_flag a name →
  a ≠ "-" ∧ short_name a = None ∧ starts_with "-" a = true ∧
  ∃ b, strip_prefix "--" a = Some b ∧
    (b = name ∧ split_once equals_sign b = None ∨ ∃ v, split_once equals_sign b = Some (name, v)).
Proof.
  intros [Hc Ha]. assert (∃ b, a = "--" +:+ b ∧
    (b = name ∧ split_once equals_sign b = None ∨ ∃ v, split_once equals_sign b = Some (name, v)))
    as (b & -> & Hb).
  { destruct Ha as [-> |[v ->]]; (eexists; split; [reflexivity|]).
    - left. split; [done|]. unfold contains_char in Hc. apply bool_decide_eq_false in Hc.
      by apply eq_None_not_Some.
    - right. exists v. by apply split_once_app. }
  split; [done|]. split; [done|].
  split; [apply starts_with_spec; by exists ("-" +:+ b)|]. exists b. split; [apply strip_prefix_app|done].
Qed.

(** No step passes over an argument that names a flag outside the allowlist. *)
Lemma bad_flag_stuck allowed args f rest a name :
  arg_step allowed args f rest → a ∈ args → names_flag a name → flag_ok allowed name = false →
  a ∈ rest.
Proof.
  intros Hs Hin (Hd & Hsn & Hst & b & Hb & Hcase)%names_flag_spec Hbad.
  destruct Hs as [a' rest Hp|a' n rest Hne Hn Hok|a' n v rest Hne Hn Hok Hv|a' b' n v rest Hne Hsn' Hb' Hsp Hok];
    (apply elem_of_cons in Hin as [<-|Hin]; [exfalso|try done]).
  - destruct Hp as [|[_ Hp]]; congruence.
  - rewrite Hsn in Hn. destruct Hn as [|(_ & Hn & Hsp)]; [done|]. rewrite Hb in Hn. injection Hn as ->.
    destruct Hcase as [[-> _]|[v Hv]]; congruence.
  - rewrite Hsn in Hn. destruct Hn as [|(_ & Hn & Hsp)]; [done|]. rewrite Hb in Hn. injection Hn as ->.
    destruct Hcase as [[-> _]|[v' Hv']]; congruence.
  - apply elem_of_cons in Hin as [<-|]; [|done]. exfalso. destruct Hv; congruence.
  - rewrite Hb in Hb'. injection Hb' as <-. destruct Hcase as [[-> Hn]|[v' Hv']]; congruence.
Qed.

Lemma parse_allowed raw args names cli :
  allowed_flags (command_of raw) = Some names → parse (raw :: args) = Ok cli →
  (∀ k v, opt cli k = Some v → k ∈ names ∧ last (many cli k) = Some v) ∧
  (∀ k, has cli k = true → k ∈ names).
Proof.
  intros Hn Hp. unfold parse in Hp. rewrite Hn in Hp.
  apply parse_args_steps, parses_to_wf in Hp as [Hv _ Hf]; [|eauto with engine]. split.
  - intros k v [Hok Hl]%Hv. split; [by apply bool_decide_eq_true in Hok|done].
  - intros k Hk. apply bool_decide_eq_true, Hf in Hk. by apply bool_decide_eq_true in Hk.
Qed.

Lemma unknown_flag_refused raw args names a name :
  allowed_flags (command_of raw) = Some names → a ∈ args → names_flag a name → name ∉ names →
  parse (raw :: args) = UsageErr.
Proof.
  intros Hn Hin Hna Hbad. unfold parse. rewrite Hn.
  destruct (parse_args _ _ args) as [cli|e] eqn:Hp.
  - exfalso. apply parse_args_steps in Hp. revert Hin. induction Hp as [|cli' args f rest cli Hs Hp IH];
      [by intros ?%elem_of_nil|]. intros Hin. apply IH.
    eapply bad_flag_stuck; [done..|]. by apply bool_decide_eq_false.
  - destruct e; [|done]. exfalso. by eapply parse_args_no_text.
Qed.

(** C26: the allowlist fails closed.  Whatever parses carries only flags of its
    command's allowlist, each valued flag with the last of its values; and a
    command line that names any other long flag, anywhere, is a usage error. *)
Theorem flags_fail_closed raw args names (Hn : allowed_flags (command_of raw) = Some names) :
  (∀ cli, parse (raw :: args) = Ok cli →
    (∀ k v, opt cli k = Some v → k ∈ names ∧ last (many cli k) = Some v) ∧
    (∀ k, has cli k = true → k ∈ names)) ∧
  (∀ a name, a ∈ args → names_flag a name → name ∉ names → parse (raw :: args) = UsageErr).
Proof.
  split; [intros cli; by apply parse_allowed|intros a name; by apply unknown_flag_refused].
Qed.

(** Three flags that the help texts and the commands read are outside the
    allowlists: no command line with them is accepted. *)
Lemma documented_flags_refused pre post :
  parse ("evaluate" :: pre ++ "--revoked" :: post) = UsageErr ∧
  parse ("resolve" :: pre ++ "--depth" :: post) = UsageErr ∧
  parse ("compose" :: pre ++ "--extra-grounded" :: post) = UsageErr.
Proof.
  assert (∀ name raw names, allowed_flags (command_of raw) = Some names →
    contains_char equals_sign name = false → bool_decide (name ∈ names) = false →
    parse (raw :: pre ++ ("--" +:+ name) :: post) = UsageErr) as Hr.
  { intros name raw names Hn Hc Hin%bool_decide_eq_false.
    eapply unknown_flag_refused; [done| |split; [exact Hc|by left]|done].
    apply elem_of_app. right. left. }
  split_and!; [eapply (Hr "revoked")|eapply (Hr "depth")|eapply (Hr "extra-grounded")]; reflexivity.
Qed.

(** A boolean flag with a value, inline or not, is a valued flag: [has] does not
    see it. *)
Example production_with_value :
  ∃ cli cli', parse ["verify"; "proof.json"; "--production=true"] = Ok cli ∧
    parse ["verify"; "--production"; "proof.json"] = Ok cli' ∧
    has cli "production" = false ∧ has cli' "production" = false ∧ cli_positional cli' = [].
Proof. do 2 eexists. split; [reflexivity|]. split; [reflexivity|]. by vm_compute. Qed.

(** The short spelling of [--out -] writes to no output: the dash is positional. *)
Example short_out_dash :
  ∃ cli, parse ["verify"; "proof.json"; "-o"; "-"] = Ok cli ∧ opt cli "out" = None ∧
    cli_positional cli = ["proof.json"; "-"].
Proof. eexists. split; [reflexivity|]. by vm_compute. Qed.

(** * Sanitized text *)

Definition char_width (c : byte) : nat :=
  if b2n c <? 0x80 then 1%nat else if b2n c <? 0xE0 then 2%nat
  else if b2n c <? 0xF0 then 3%nat else 4%nat.

(** A list of characters as [chars] produces them: each as long as its first
    byte says, except that the text may end inside the last one. *)
Inductive grouped : list (list byte) → Prop :=
| grouped_nil : grouped []
| grouped_last c l : (length (c :: l) <= char_width c)%nat → grouped [c :: l]
| grouped_cons c l gs :
    length (c :: l) = char_width c → grouped gs → grouped ((c :: l) :: gs).

Lemma char_width_pos c : (1 <= char_width c)%nat.
Proof. unfold char_width. repeat case_match; lia. Qed.

Lemma chars_cons fuel c l :
  chars (S fuel) (c :: l) = take (char_width c) (c :: l) :: chars fuel (drop (char_width c) (c :: l)).
Proof. done. Qed.

Lemma chars_grouped fuel l : grouped (chars fuel l).
Proof.
  revert l. induction fuel as [|fuel IH]; intros [|c l]; try constructor.
  rewrite chars_cons. pose proof (char_width_pos c).
  destruct (char_width c) as [|w] eqn:Hw; [lia|]. cbn [take drop].
  destruct (le_lt_dec w (length l)) as [Hle|Hlt].
  - apply grouped_cons; [cbn; rewrite length_take, Hw; lia|apply IH].
  - rewrite drop_ge by lia. assert (chars fuel [] = []) as -> by (by destruct fuel).
    apply grouped_last. cbn. rewrite length_take, Hw. lia.
Qed.

Lemma chars_concat fuel l : (length l <= fuel)%nat → concat (chars fuel l) = l.
Proof.
  revert l. induction fuel as [|fuel IH]; intros [|c l] Hl; cbn in Hl; try done; [lia|].
  rewrite chars_cons. cbn [concat]. rewrite IH; [apply take_drop|].
  rewrite length_drop. pose proof (char_width_pos c). cbn [length]. lia.
Qed.

(** Grouped characters are read back as they are. *)
Lemma grouped_chars gs fuel :
  grouped gs → (length (concat gs) <= fuel)%nat → chars fuel (concat gs) = gs.
Proof.
  intros Hg. revert fuel. induction Hg as [|c l Hw|c l gs Hw Hg IH]; intros fuel Hf.
  - by destruct fuel.
  - cbn [concat] in *. rewrite app_nil_r in *. destruct fuel as [|fuel]; [cbn in Hf; lia|].
    rewrite chars_cons, take_ge, drop_ge by lia. by destruct fuel.
  - cbn [concat] in *. destruct fuel as [|fuel]; [cbn in Hf; lia|].
    cbn [app] in *. rewrite chars_cons. change (c :: l ++ concat gs) with ((c :: l) ++ concat gs).
    rewrite <- Hw, take_app_length, drop_app_length. f_equal. apply IH.
    cbn [length] in Hf. rewrite length_app in Hf. lia.
Qed.

Lemma grouped_sublist gs gs' : grouped gs → sublist gs' gs → grouped gs'.
Proof.
  intros Hg. revert gs'. induction Hg as [|c l Hw|c l gs Hw Hg IH]; intros gs' Hs.
  - apply sublist_nil_r in Hs as ->. constructor.
  - apply sublist_cons_r in Hs as [Hs|(k & -> & Hs)]; apply sublist_nil_r in Hs as ->;
      [constructor|by apply grouped_last].
  - apply sublist_cons_r in Hs as [Hs|(k & -> & Hs)]; [by apply IH|].
    apply grouped_cons; [done|by apply IH].
Qed.

Lemma sanitize_sublist mode l : sublist (sanitize_chars mode l) l.
Proof.
  revert mode. induction l as [|c l IH]; intros mode; [done|]. cbn [sanitize_chars].
  destruct mode; repeat case_match; try (by apply sublist_cons, IH). by apply sublist_skip.
Qed.

(** Printable: no escape and no control character but newline and tab. *)
Definition printable (c : list byte) : bool :=
  negb (is_char 0x1B c) && (negb (is_control c) || is_char 0x0A c || is_char 0x09 c).

Lemma sanitize_printable mode l : Forall (λ c, printable c = true) (sanitize_chars mode l).
Proof.
  revert mode. induction l as [|c l IH]; intros mode; [constructor|]. cbn [sanitize_chars].
  destruct mode; [|apply IH|apply IH].
  destruct (is_char 0x1B c) eqn:He; [apply IH|].
  destruct (is_control c && _ && _) eqn:Hc; [apply IH|]. constructor; [|apply IH].
  unfold printable. rewrite He. cbn [negb andb].
  by destruct (is_control c), (is_char 0x0A c), (is_char 0x09 c).
Qed.

Lemma sanitize_printable_id l :
  Forall (λ c, printable c = true) l → sanitize_chars Plain l = l.
Proof.
  induction 1 as [|c l Hc HF IH]; [done|]. cbn [sanitize_chars]. unfold printable in Hc.
  destruct (is_char 0x1B c); [done|]. cbn [negb andb] in Hc.
  destruct (is_control c), (is_char 0x0A c), (is_char 0x09 c); cbn [andb negb orb] in *; by rewrite ?IH.
Qed.

Abbreviation text_chars := (λ s : string, chars (length (as_bytes s)) (as_bytes s)).

Lemma sanitize_chars_of s : text_chars (sanitize s) = sanitize_chars Plain (text_chars s).
Proof.
  unfold sanitize. cbn zeta. rewrite as_of_bytes. apply grouped_chars; [|done].
  eapply grouped_sublist; [apply chars_grouped|apply sanitize_sublist].
Qed.

(** What the terminal gets.  Sanitized text holds no escape and no control
    character but newlines and tabs, whatever the input; sanitizing again changes
    nothing; and text without such characters is left as it is. *)
Theorem sanitize_clean s :
  Forall (λ c, printable c = true) (text_chars (sanitize s)) ∧
  sanitize (sanitize s) = sanitize s ∧
  (forallb printable (text_chars s) = true → sanitize s = s).
Proof.
  assert (∀ t, Forall (λ c, printable c = true) (text_chars t) → sanitize t = t) as Hid.
  { intros t Ht. unfold sanitize. cbn zeta. rewrite sanitize_printable_id by done.
    rewrite chars_concat by done. apply of_as_bytes. }
  assert (Forall (λ c, printable c = true) (text_chars (sanitize s))) as Hs
    by (rewrite sanitize_chars_of; apply sanitize_printable).
  split; [done|]. split; [by apply Hid|]. intros Hp. apply Hid. by apply forallb_Forall.
Qed.

Lemma flags_fail_closed_witness :
  parse ["verify"; "proof.json"; "--producton"; "--clock"; "5"] = UsageErr ∧
  ∃ cli, parse ["verify"; "proof.json"; "--clock"; "5"; "--production"] = Ok cli ∧
    opt cli "clock" = Some "5" ∧ last (many cli "clock") = Some "5" ∧ has cli "production" = true.
Proof.
  split.
  - apply (proj2 (flags_fail_closed "verify" ["proof.json"; "--producton"; "--clock"; "5"] _ eq_refl)
      "--producton" "producton"); [right; left|split; [reflexivity|left; reflexivity]|].
    apply (bool_decide_unpack _). vm_compute. exact I.
  - destruct (parse ["verify"; "proof.json"; "--clock"; "5"; "--production"]) as [cli|] eqn:Hp;
      [|vm_compute in Hp; discriminate Hp].
    pose proof (proj1 (proj1 (flags_fail_closed "verify" _ _ eq_refl) cli Hp) "clock" "5") as Hl.
    exists cli. vm_compute in Hp. injection Hp as <-. split; [reflexivity|].
    split; [reflexivity|]. split; [|reflexivity]. apply Hl. reflexivity.
Defined.

