(* ===== verification/Files.v ===== *)
(** Files: the input and output of the command line and its artifact files,
    [crates/proof-cli/src/lib.rs] and [crates/proof-cli/src/artifact.rs].

    A command runs in a [World]: the files, what is left of the standard input
    and what was printed on the standard output.  [Cmd] threads it with the
    errors of the code; running out of the fuel of an engine call is [None].
    Notes on the standard error are left out.  Wrappers are JSON documents around
    the canonical bytes; loaders re-verify the bytes, writers print what the
    builders of proof-crypto return.

    The theorems: what a loader accepts, and that what a writer writes is loaded
    back. *)
From Stdlib Require Import Strings.Byte NArith ZArith Lia.
From stdpp Require Import pretty.
From S2P Require Import Prelude Text Core External Cbor Schema Graph Ident Claim Cose.
From S2P Require Import Report Pipeline Builder Envelope Policy State Eval Context Resolve Cli.

(** * The world of a command *)

(** The operating system: which paths can be opened for reading and for writing,
    and which directories can be made. *)
Class Os := {
  can_read : string → bool;
  can_write : string → bool;
  can_mkdir : string → bool;
}.

(** Documents whose text is rendered from a result; the rendering is left out. *)
Inductive Document : Type :=
| ReportDoc (report : VerifyReport)
| DecisionDoc (outcome : PolicyOutcome) (report : VerifyReport) (explained : bool)
| DecisionProse (outcome : PolicyOutcome) (report : VerifyReport) (explained : bool)
| BatchDoc (batch : BatchReport) (acceptable currency_failed : N)
| ResolutionDoc (resolution : ResolutionReport) (max_depth : N)
| ManifestDoc (ids : list string) (skipped : list N) (dry_run : bool).

(** The texts of the errors and documents that are not kept otherwise: of the
    operating system (by path), of [serde_json] and [hex] (by input), of the
    engine (by the bytes it refuses), and the quoted form of a text. *)
Class CliTexts := {
  io_text : string → string;
  json_text : string → string;
  hex_text : string → string;
  decode_text : list byte → string;
  debug_text : string → string;
  document_text : Document → string;
}.

Inductive Printed `{SerdeJson} : Type :=
| PrintedJson (v : json)
| PrintedCompact (v : json)
| PrintedDocument (d : Document)
| PrintedText (s : string).

Record World `{SerdeJson} : Type := mkWorld {
  w_files : gmap string (list byte);
  w_stdin : option (list byte);
  w_stdout : list Printed;
}.
Definition Cmd `{SerdeJson} (A : Type) : Type := World → option (CliResult A * World).

Section commands.
Context `{SerdeJson}.

#[global] Instance cmd_ret : MRet Cmd := λ A a w, Some (Ok a, w).
#[global] Instance cmd_bind : MBind Cmd := λ A B f m w,
  match m w with
  | Some (Ok a, w') => f a w'
  | Some (Err e, w') => Some (Err e, w')
  | None => None
  end.
#[global] Instance cmd_fmap : FMap Cmd := λ A B f m, m ≫= λ a, mret (f a).
(** A result of pure code, an engine result whose message is not kept, and an
    engine call with fuel. *)
Definition pure {A} (r : CliResult A) : Cmd A := λ w, Some (r, w).
Definition fails {A} (e : CliError) : Cmd A := pure (Err e).
Definition engine {A} (r : Result A) : Cmd A :=
  pure (match r with Ok a => Ok a | Err _ => Err Other end).
Definition fuelled {A} (r : option (Result A)) : Cmd A := λ w, r ≫= λ r, engine r w.
(** The error of a call as a value. *)
Definition attempt {A} (m : Cmd A) : Cmd (CliResult A) := λ w,
  match m w with Some (r, w') => Some (Ok r, w') | None => None end.

Definition get_world : Cmd World := λ w, Some (Ok w, w).
Definition print (p : Printed) : Cmd () := λ w,
  Some (Ok (), mkWorld _ (w_files w) (w_stdin w) (w_stdout w ++ [p])).
End commands.

(** The loop [for x in xs { ... }] with [?] inside, collecting the results. *)
Fixpoint each `{SerdeJson} {A B} (f : A → Cmd B) (l : list A) : Cmd (list B) :=
  match l with
  | [] => mret []
  | x :: l' => y ← f x; ys ← each f l'; mret (y :: ys)
  end.

(** * Input *)

Definition MAX_INPUT_FILE_BYTES : N := 8388608.

(** The first [n] elements of a list, and the others. *)
Fixpoint take_n {A} (n : N) (l : list A) : list A :=
  match l with
  | [] => []
  | x :: l' => if n =? 0 then [] else x :: take_n (n - 1) l'
  end.
Fixpoint drop_n {A} (n : N) (l : list A) : list A :=
  match l with
  | [] => []
  | x :: l' => if n =? 0 then l else drop_n (n - 1) l'
  end.

Section input.
Context `{SerdeJson, Os, CliTexts}.

(** [take(MAX + 1).read_to_end]: what is not read stays in the stream. *)
Definition read_stdin_bytes : Cmd (list byte) := λ w,
  match w_stdin w with
  | None => Some (Err (Said ("read stdin: " +:+ io_text "-")), w)
  | Some input =>
      let buf := take_n (MAX_INPUT_FILE_BYTES + 1) input in
      let w' := mkWorld _ (w_files w) (Some (drop_n (MAX_INPUT_FILE_BYTES + 1) input)) (w_stdout w) in
      Some (if MAX_INPUT_FILE_BYTES <? len buf then Err (Said "stdin: input too large") else Ok buf, w')
  end.
Definition read_file_bytes (path : string) : Cmd (list byte) :=
  w ← get_world;
  match (if can_read path then w_files w !! path else None) with
  | None => fails (Said ("read " +:+ path +:+ ": " +:+ io_text path))
  | Some content =>
      let buf := take_n (MAX_INPUT_FILE_BYTES + 1) content in
      if MAX_INPUT_FILE_BYTES <? len buf
      then fails (Said (path +:+ ": file too large (>8388608 bytes)")) else mret buf
  end.

Definition utf8_text (label : string) (buf : list byte) : Cmd string :=
  pure (ok_or (from_utf8 buf) (Said (label +:+ ": invalid UTF-8"))).

Definition read_stdin_text : Cmd string := buf ← read_stdin_bytes; utf8_text "stdin" buf.
Definition read_input_file (path : string) : Cmd string := buf ← read_file_bytes path; utf8_text path buf.
Definition read_input_text (path : string) : Cmd (string * string) :=
  if bool_decide (path = "-")
  then text ← read_stdin_text; mret (text, "stdin")
  else text ← read_input_file path; mret (text, path).
Definition read_input_bytes (path : string) : Cmd (list byte) :=
  if bool_decide (path = "-") then read_stdin_bytes else read_file_bytes path.

(** * Output *)

Definition write_file (path : string) (text : list byte) : Cmd () := λ w,
  Some (if can_write path
        then (Ok (), mkWorld _ (<[path := text]> (w_files w)) (w_stdin w) (w_stdout w))
        else (Err Other, w)).
Definition line_end : list byte := [Byte.x0a].
End input.

Section json_io.
Context `{SerdeJsonReader, !SerdeJsonBuilder, Os, CliTexts}.

Definition write_json (path : string) (v : json) : Cmd () :=
  if bool_decide (path = "-") then print (PrintedJson v)
  else write_file path (as_bytes (json_pretty v) ++ line_end).

Definition parse_json (label text : string) : Cmd json :=
  pure (ok_or (json_from_slice (as_bytes text)) (Said ("parse " +:+ label +:+ ": " +:+ json_text text))).
Definition read_json (path : string) : Cmd json :=
  '(text, label) ← read_input_text path;
  parse_json label text.

(** * Wrappers *)

Definition wrapper_label (path : string) : string :=
  if bool_decide (path = "-") then "stdin" else path.

Definition PROOF_WRAPPER_ALLOWED : list string := ["cbor"; "id"; "kind"; "container_version"].
Definition EVENT_WRAPPER_ALLOWED : list string := ["cbor"; "id"; "kind"; "container_version"].
Definition EVIDENCE_WRAPPER_ALLOWED : list string := ["cbor"; "id"; "kind"; "container_version"].
Definition RELATIONSHIP_WRAPPER_ALLOWED : list string := ["cbor"; "id"; "kind"; "container_version"].
Definition ATTESTATION_WRAPPER_ALLOWED : list string :=
  ["cbor"; "id"; "kind"; "issuer"; "sign1_b64"; "sign1"; "container_version"].
Definition STATUS_WRAPPER_ALLOWED : list string :=
  ["cbor"; "id"; "kind"; "issuer"; "claim_type"; "sign1_b64"; "sign1"; "container_version"].

(** [Vec::join]. *)
Fixpoint join (sep : string) (l : list string) : string :=
  match l with
  | [] => ""
  | [x] => x
  | x :: l' => x +:+ sep +:+ join sep l'
  end.
Definition quote : string := of_bytes [Byte.x22].

(** The first unknown key in the order of the text is named. *)
Definition reject_unknown_wrapper_fields (v : json) (label : string) (allowed : list string)
    : CliResult () :=
  match as_object v with
  | None => Err (Said (label +:+ ": wrapper must be a JSON object"))
  | Some obj =>
      match sort_by str_leb (List.filter (λ k, negb (bool_decide (k ∈ allowed))) (map fst obj)) with
      | [] => Ok ()
      | key :: _ =>
          Err (Said (label +:+ ": wrapper has unknown field " +:+ quote +:+ key +:+ quote +:+
            " (allowed: " +:+ join "," allowed +:+ " — unknown wrapper fields rejected fail-closed)"))
      end
  end.

(** [v.get(key)] and [.and_then(|x| x.as_str())]. *)
Definition entry (v : json) (key : string) : option json := obj ← as_object v; get obj key.
Definition text_of (v : json) : option string :=
  match json_view v with JString s => Some s | _ => None end.
Definition req_str (v : json) (key : string) : CliResult string := ok_or (entry v key ≫= text_of) Other.
Definition opt_str (v : json) (key : string) : CliResult (option string) :=
  match entry v key with
  | None => Ok None
  | Some x =>
      match json_view x with
      | JNull => Ok None
      | JString s => Ok (Some s)
      | _ => UsageErr
      end
  end.
(** [v.get(a).or_else(|| v.get(b))], then text: the second spelling only counts
    when the first is absent. *)
Definition either_text (v : json) (a b : string) : option string :=
  match entry v a with Some x => text_of x | None => entry v b ≫= text_of end.
End json_io.

(** * Lists of inputs *)

(** [item.split([',', ':'])]. *)
Definition split_list (item : string) : list string :=
  concat (map (split_on colon) (split_on comma item)).
Fixpoint list_items (items : list string) : CliResult (list string) :=
  match items with
  | [] => Ok []
  | item :: items' =>
      if sempty item then list_items items'
      else if existsb sempty (split_list item) then UsageErr
      else rest ← list_items items'; Ok (split_list item ++ rest)
  end.
(** An explicit empty value is an intentional empty list. *)
Definition input_list (cli : Cli) (name : string) : CliResult (list string) :=
  out ← list_items (many cli name);
  match out with
  | [] => if existsb sempty (many cli name) then Ok [] else UsageErr
  | _ => Ok out
  end.
Definition opt_input_list (cli : Cli) (name : string) : CliResult (list string) :=
  match many cli name with [] => Ok [] | _ => input_list cli name end.

(** * Artifact ids *)

(** [s.splitn(3, ':')] as three parts. *)
Definition splitn3 (s : string) : option (string * string * string) :=
  '(p, rest) ← split_once colon s;
  '(v, rest) ← split_once colon rest;
  Some (p, v, rest).
Definition looks_like_artifact_id (s : string) : bool :=
  match splitn3 s with
  | Some (p, v, rest) =>
      bool_decide (v = "v1") && bool_decide (p ∈ ["evt"; "att"; "evd"; "rel"; "prf"]) && negb (sempty rest)
  | None => false
  end.
Definition space : Ascii.ascii := Ascii.ascii_of_N 32.
Definition slash : Ascii.ascii := Ascii.ascii_of_N 47.
Definition looks_shaped (s : string) : bool :=
  match splitn3 s with
  | Some (p, v, rest) =>
      negb (sempty p) && negb (contains_char space p) && negb (contains_char slash p) &&
      (1 <? slen v) &&
      match as_bytes v with
      | c :: digits => (b2n c =? 0x76) && forallb (in_range 0x30 0x39) digits
      | [] => false
      end && negb (sempty rest)
  | None => false
  end.
(** [u8::is_ascii_whitespace]. *)
Definition is_ascii_whitespace (b : byte) : bool :=
  bool_decide (b2n b ∈ [0x20; 0x09; 0x0A; 0x0C; 0x0D]).
Definition is_free_identity_ref (s : string) : bool :=
  negb (sempty s) && (slen s <=? 256) && negb (existsb is_ascii_whitespace (as_bytes s)) &&
  negb (looks_shaped s).

(** * Keys and digests *)

Definition TEST_SEED : list byte := repeat Byte.x09 32.

Section material.
Context `{SerdeJson, Os, CliTexts, Hex}.

Definition hash_ref_from_hex (s : string) : CliResult HashRef :=
  d ← ok_or (hex_of_text s) Other;
  alg ← (if len d =? 32 then Ok HashAlgorithm.Sha256
         else if len d =? 48 then Ok HashAlgorithm.Sha384 else UsageErr);
  match HashRef_new alg d with Ok r => Ok r | Err _ => UsageErr end.

(** A key is its seed. *)
Definition load_key_material (seed : string) : CliResult (list byte) :=
  if bool_decide (seed = "test") then Ok TEST_SEED else
  bytes ← ok_or (hex_of_text seed) Other;
  if len bytes =? 32 then Ok bytes else UsageErr.
Definition load_key : string → CliResult (list byte) := load_key_material.
Definition load_key_opt (cli : Cli) : Cmd (list byte) :=
  match opt cli "seed", opt cli "seed-file" with
  | Some _, Some _ => fails Other
  | None, Some path => seed ← read_input_file path; pure (load_key_material (trim seed))
  | Some seed, None => if has cli "production" then fails Other else pure (load_key seed)
  | None, None => fails Other
  end.
End material.

(** * Writers *)

Section writers.
Context `{SerdeJsonReader, !SerdeJsonBuilder, Os, CliTexts, Hex, Base64Url, Sha2, SignatureSchemes}.

Definition limits : Limits := default_limits.
Definition cbor_to_hex (bytes : list byte) : string := hex_to_text bytes.
(** [json!] on an object of texts. *)
Definition text_object (entries : list (string * string)) : json :=
  json_of (JObject (map (λ p, (p.1, json_of (JString p.2))) entries)).

(** The digest of a file, or the digest given in hexadecimal. *)
Definition digest_input (cli : Cli) (file_flag hex_flag : string) : Cmd HashRef :=
  match opt cli file_flag with
  | Some path => bytes ← read_input_bytes path; engine (HashRef_new HashAlgorithm.Sha256 (sha256 bytes))
  | None => s ← pure (req cli hex_flag); pure (hash_ref_from_hex s)
  end.

Definition write_event (cli : Cli) : Cmd string :=
  payload_ref ← digest_input cli "payload-file" "payload-hex";
  event_type ← pure (req cli "type");
  subject ← pure (req cli "subject");
  effective_at ← pure (req_u64 cli "effective-at");
  metadata ← pure (parse_fields (opt cli "meta"));
  created ← engine (create_event {| ev_v := 1; ev_type := event_type; ev_subject := subject;
    ev_effective_at := effective_at; ev_payload_ref := payload_ref; ev_metadata := metadata |} limits);
  out ← pure (req cli "out");
  _ ← write_json out (text_object [("kind", "event"); ("id", ce_id created);
    ("cbor", cbor_to_hex (ce_canonical created))]);
  mret (ce_id created).

(** The checks on a claim field named [evidence_digest]. *)
Definition evidence_digest_ok (evidence_ref : option string) (field : string * MetaValue) : bool :=
  if bool_decide (field.1 = "evidence_digest") then
    match field.2 with
    | MText s =>
        let norm := to_lowercase (strip_0x s) in
        ((slen norm =? 64) || (slen norm =? 96)) && forallb is_ascii_hexdigit (as_bytes norm) &&
        bool_decide (is_Some evidence_ref)
    | _ => false
    end
  else true.

Definition write_attestation (cli : Cli) : Cmd string :=
  key ← load_key_opt cli;
  _ ← pure (check (match opt cli "evidence-ref" with Some r => starts_with "evd:v1:" r | None => true end)
              Other);
  fields ← pure (parse_fields (opt cli "claim"));
  _ ← pure (check (forallb (evidence_digest_ok (opt cli "evidence-ref")) fields) Other);
  subject ← pure (req cli "subject");
  claim_type ← pure (req cli "claim-type");
  issued_at ← pure (req_u64 cli "issued-at");
  expires_at ← pure (opt_u64 cli "expires-at");
  created ← engine (attest {| att_v := 1; att_issuer := key_ref key; att_subject := subject;
    att_claim := {| claim_type := claim_type; claim_fields := fields |}; att_issued_at := issued_at;
    att_expires_at := expires_at; att_evidence_ref := opt cli "evidence-ref" |} key limits);
  out ← pure (req cli "out");
  _ ← write_json out (text_object [("kind", "attestation"); ("id", ca_id created);
    ("issuer", att_issuer (ca_content created)); ("cbor", cbor_to_hex (ca_canonical created));
    ("sign1_b64", b64u_nopad (ca_sign1 created))]);
  mret (ca_id created).

Definition write_evidence (cli : Cli) : Cmd string :=
  digest ← digest_input cli "digest-file" "digest-hex";
  _ ← pure (check (match opt cli "attestation-ref" with Some r => starts_with "att:v1:" r | None => true end)
              Other);
  kind ← pure (req cli "kind");
  created ← engine (make_evidence kind digest (opt cli "attestation-ref") (opt cli "hint") limits);
  out ← pure (req cli "out");
  _ ← write_json out (text_object [("kind", "evidence"); ("id", cv_id created);
    ("cbor", cbor_to_hex (cv_canonical created))]);
  mret (cv_id created).

(** An endpoint of an edge: an artifact id or, for EQUIVALENT, a free name. *)
Definition endpoint_ok (rel_type v : string) : bool :=
  looks_like_artifact_id v ||
  (bool_decide (rel_type = RelType.EQUIVALENT) && is_free_identity_ref v).
(** A reference of the wanted type. *)
Definition typed_ref_ok (want : string) (r : option string) : bool :=
  match r with Some v => looks_like_artifact_id v && starts_with want v | None => true end.

Definition write_relationship (cli : Cli) : Cmd string :=
  rel_type ← pure (req cli "type");
  from ← pure (req cli "from");
  _ ← pure (check (endpoint_ok rel_type from) Other);
  to ← pure (req cli "to");
  _ ← pure (check (endpoint_ok rel_type to) Other);
  _ ← pure (check (typed_ref_ok "evd:v1:" (opt cli "evidence-ref")) Other);
  _ ← pure (check (typed_ref_ok "att:v1:" (opt cli "attestation-ref")) Other);
  let content := {| rel_v := 1; rel_type := rel_type; rel_from := from; rel_to := to;
    rel_evidence_ref := opt cli "evidence-ref"; rel_attestation_ref := opt cli "attestation-ref" |} in
  _ ← pure (check (has cli "allow-ungrounded" || negb (RelType.requires_grounding rel_type) ||
                   bool_decide (is_Some (opt cli "evidence-ref")) ||
                   bool_decide (is_Some (opt cli "attestation-ref"))) Other);
  created ← engine (make_relationship content limits);
  out ← pure (req cli "out");
  _ ← write_json out (text_object [("kind", "relationship"); ("id", cr_id created);
    ("cbor", cbor_to_hex (cr_canonical created))]);
  mret (cr_id created).

Definition status_object (cli : Cli) (kind : string) (key : list byte) (at_ : N)
    : CliResult CreatedAttestation :=
  let engine {A} (r : Result A) : CliResult A := match r with Ok a => Ok a | Err _ => UsageErr end in
  if bool_decide (kind = "revoke") then
    target ← req cli "target"; engine (revoke_attestation target (opt cli "reason") key at_ limits)
  else if bool_decide (kind = "withdraw") then
    target ← req cli "target"; engine (withdraw_attestation target (opt cli "reason") key at_ limits)
  else if bool_decide (kind = "compromise") then
    at_time ← req_u64 cli "compromised-at";
    target ← req cli "target";
    engine (compromise_attestation target at_time (opt cli "reason") key at_ limits)
  else
    old ← ok_or (or_else (opt cli "old") (opt cli "target")) Other;
    new ← ok_or (or_else (opt cli "new") (opt cli "successor")) Other;
    engine (supersede_attestation old new key at_ limits).
Definition write_status_object (cli : Cli) (kind : string) : Cmd string :=
  key ← load_key_opt cli;
  at_ ← pure (req_u64 cli "at");
  created ← pure (status_object cli kind key at_);
  out ← pure (req cli "out");
  _ ← write_json out (text_object [("kind", "status"); ("id", ca_id created);
    ("issuer", att_issuer (ca_content created));
    ("claim_type", claim_type (att_claim (ca_content created)));
    ("cbor", cbor_to_hex (ca_canonical created)); ("sign1_b64", b64u_nopad (ca_sign1 created))]);
  mret (ca_id created).

Definition write_proof_file (path id : string) (canonical : list byte) : Cmd () :=
  write_json path (text_object [("kind", "proof"); ("id", id); ("cbor", cbor_to_hex canonical)]).

(** * Loaders *)

(** The wrapper of an artifact, with no field outside the allowlist. *)
Definition read_wrapper (path : string) (allowed : list string) : Cmd json :=
  v ← read_json path;
  _ ← pure (reject_unknown_wrapper_fields v (wrapper_label path) allowed);
  mret v.
Definition wrapped_bytes (v : json) : CliResult (list byte) :=
  s ← req_str v "cbor";
  ok_or (hex_of_text s) Other.
Definition load_event (path : string) : Cmd EventContent :=
  v ← read_wrapper path EVENT_WRAPPER_ALLOWED;
  bytes ← pure (wrapped_bytes v);
  expect ← pure (opt_str v "id");
  _ ← engine (verify_event bytes expect limits);
  value ← engine (decode_strict bytes limits);
  engine (cbor_to_event value limits).

Definition load_evidence (path : string) : Cmd Evidence :=
  v ← read_wrapper path EVIDENCE_WRAPPER_ALLOWED;
  bytes ← pure (wrapped_bytes v);
  expect ← pure (opt_str v "id");
  _ ← engine (verify_evidence bytes expect limits);
  value ← engine (decode_strict bytes limits);
  engine (cbor_to_evidence value limits).

Definition load_relationship (path : string) : Cmd Relationship :=
  v ← read_wrapper path RELATIONSHIP_WRAPPER_ALLOWED;
  bytes ← pure (wrapped_bytes v);
  expect ← pure (opt_str v "id");
  _ ← engine (verify_relationship bytes expect limits);
  value ← engine (decode_strict bytes limits);
  engine (cbor_to_relationship value limits).

(** The envelope authenticates the statement; the bytes beside it must be the
    canonical bytes of the same statement. *)
Definition load_attestation (path : string) : Cmd CreatedAttestation :=
  v ← read_wrapper path ATTESTATION_WRAPPER_ALLOWED;
  sign1_b64 ← pure (ok_or (either_text v "sign1_b64" "sign1") Other);
  bytes ← pure (wrapped_bytes v);
  sign1 ← engine (b64u_decode sign1_b64);
  issuer ← pure (opt_str v "issuer" ≫= λ o, ok_or o Other);
  '(content, id) ← engine (verify_attestation sign1 issuer algs_strict limits);
  expect ← pure (opt_str v "id");
  _ ← pure (check (match expect with Some e => bool_decide (e = id) | None => true end) Other);
  value ← engine (decode_strict bytes limits);
  _ ← pure (check (bool_decide (encode_canonical value = bytes)) Other);
  content2 ← engine (cbor_to_attestation value limits);
  _ ← pure (check (bool_decide (content2 = content)) Other);
  mret {| ca_content := content; ca_canonical := bytes; ca_id := id; ca_sign1 := sign1 |}.

Definition load_status (path : string) : Cmd SignedStatus :=
  v ← read_wrapper path STATUS_WRAPPER_ALLOWED;
  sign1_b64 ← pure (ok_or (either_text v "sign1_b64" "sign1") Other);
  sign1 ← engine (b64u_decode sign1_b64);
  issuer ← pure (req_str v "issuer");
  content ← engine (verify_status_object sign1 issuer algs_strict limits);
  mret {| ss_content := content; ss_sign1 := sign1 |}.
End writers.

(** * Commands that succeed *)

Section command_facts.
Context `{SerdeJson}.

Lemma cmd_bind_Ok {A B} (m : Cmd A) (f : A → Cmd B) w b w' :
  (m ≫= f) w = Some (Ok b, w') ↔ ∃ a w1, m w = Some (Ok a, w1) ∧ f a w1 = Some (Ok b, w').
Proof.
  unfold mbind, cmd_bind. destruct (m w) as [[[a|e] w1]|]; split; try naive_solver.
Qed.
Lemma pure_Ok {A} (r : CliResult A) w a w' :
  pure r w = Some (Ok a, w') ↔ r = Ok a ∧ w' = w.
Proof. unfold pure. naive_solver. Qed.
Lemma engine_Ok {A} (r : Result A) w a w' :
  engine r w = Some (Ok a, w') ↔ r = Ok a ∧ w' = w.
Proof. unfold engine. rewrite pure_Ok. destruct r; naive_solver. Qed.
Lemma fuelled_Ok {A} (r : option (Result A)) w a w' :
  fuelled r w = Some (Ok a, w') ↔ r = Some (Ok a) ∧ w' = w.
Proof.
  unfold fuelled. destruct r as [r|]; cbn [mbind option_bind]; [|naive_solver].
  rewrite engine_Ok. naive_solver.
Qed.
Lemma ret_Ok {A} (a b : A) w w' : (mret a : Cmd A) w = Some (Ok b, w') ↔ a = b ∧ w' = w.
Proof. unfold mret, cmd_ret. naive_solver. Qed.
Lemma cmd_bind_run {A B} (m : Cmd A) (f : A → Cmd B) w a w1 :
  m w = Some (Ok a, w1) → (m ≫= f) w = f a w1.
Proof. unfold mbind, cmd_bind. by intros ->. Qed.
End command_facts.

(** Inverts the runs of commands that succeed. *)
Ltac cmd_inv :=
  repeat match goal with
  | _ => progress simplify_eq
  | H : (_ ≫= _) _ = Some (Ok _, _) |- _ =>
      let a := fresh "a" in let w := fresh "w" in let Ha := fresh "Ha" in
      apply cmd_bind_Ok in H as (a & w & Ha & H)
  | H : pure _ _ = Some (Ok _, _) |- _ => apply pure_Ok in H as [H ->]
  | H : engine _ _ = Some (Ok _, _) |- _ => apply engine_Ok in H as [H ->]
  | H : fuelled _ _ = Some (Ok _, _) |- _ => apply fuelled_Ok in H as [H ->]
  | H : mret _ _ = Some (Ok _, _) |- _ => apply ret_Ok in H as [H ->]
  | H : fails _ _ = Some (Ok _, _) |- _ => discriminate H
  | H : check _ _ = Ok ?u |- _ => apply check_Ok in H; try destruct u
  | H : ok_or _ _ = Ok _ |- _ => apply ok_or_Ok in H
  | H : (let '(_, _) := ?p in _) _ = Some (Ok _, _) |- _ =>
      let E := fresh "E" in destruct p eqn:E
  | H : (match ?p with (_, _) => _ end) _ = Some (Ok _, _) |- _ => is_var p; destruct p
  | u : () |- _ => destruct u
  end.

(** * Documents *)

Section wrapper_facts.
Context `{SerdeJsonBuilderLaws, Os, CliTexts}.

Lemma get_perm (l l' : object_t) k :
  NoDup (map fst l) → l' ≡ₚ l → get l' k = get l k.
Proof.
  intros Hnd Hp. symmetry in Hp. revert Hnd. induction Hp as [|[k1 v1] l l' Hp IH|[k1 v1] [k2 v2] l|l1 l2 l3 Hp1 IH1 Hp2 IH2];
    intros Hnd; [done| | |].
  - cbn [get map fst] in *. apply NoDup_cons in Hnd as [_ Hnd]. by rewrite IH.
  - cbn [get map fst] in *. repeat case_bool_decide; try done. subst.
    apply NoDup_cons in Hnd as [Hn _]. destruct Hn. by left.
  - rewrite IH2, IH1; [done|done|]. by rewrite <- Hp1.
Qed.

(** The lookup of a text in a wrapper under construction. *)
Fixpoint field_text (entries : list (string * string)) (key : string) : option string :=
  match entries with
  | [] => None
  | (k, s) :: entries' => if bool_decide (k = key) then Some s else field_text entries' key
  end.

Lemma text_object_view entries :
  NoDup (map fst entries) →
  ∃ obj, json_view (text_object entries) = JObject obj ∧ map fst obj ≡ₚ map fst entries ∧
    ∀ k, get obj k = (λ s, json_of (JString s)) <$> field_text entries k.
Proof.
  intros Hnd. set (es := map (λ p : string * string, (p.1, json_of (JString p.2))) entries).
  assert (map fst es = map fst entries) as Hf.
  { unfold es. rewrite map_map. by apply map_ext. }
  destruct (json_of_object es) as (obj & Hv & Hp); [by rewrite Hf|].
  exists obj. split; [exact Hv|]. split; [by rewrite Hp, Hf|]. intros k.
  rewrite (get_perm _ _ k (eq_ind_r _ Hnd Hf) Hp). clear. unfold es.
  induction entries as [|[k' s] entries IH]; [done|]. cbn [map get field_text fst snd].
  case_bool_decide; [done|]. apply IH.
Qed.

Lemma text_object_plain entries : NoDup (map fst entries) → built_value (text_object entries).
Proof.
  intros Hnd. apply built_object.
  - rewrite map_map. cbn [fst]. exact Hnd.
  - apply Forall_map, Forall_forall. intros p _. constructor.
Qed.

Lemma entry_text entries k :
  NoDup (map fst entries) →
  entry (text_object entries) k = (λ s, json_of (JString s)) <$> field_text entries k.
Proof.
  intros (obj & Hv & _ & Hg)%text_object_view. unfold entry, as_object. rewrite Hv. apply Hg.
Qed.
Lemma req_str_text entries k :
  NoDup (map fst entries) →
  req_str (text_object entries) k = ok_or (field_text entries k) Other.
Proof.
  intros Hnd. unfold req_str. rewrite entry_text by done. destruct (field_text entries k); [|done].
  cbn. unfold text_of. by rewrite json_of_string.
Qed.
Lemma opt_str_text entries k :
  NoDup (map fst entries) → opt_str (text_object entries) k = Ok (field_text entries k).
Proof.
  intros Hnd. unfold opt_str. rewrite entry_text by done. destruct (field_text entries k); [|done].
  cbn. by rewrite json_of_string.
Qed.
Lemma either_text_first entries a b s :
  NoDup (map fst entries) → field_text entries a = Some s →
  either_text (text_object entries) a b = Some s.
Proof.
  intros Hnd Hs. unfold either_text. rewrite entry_text, Hs by done. cbn. unfold text_of.
  by rewrite json_of_string.
Qed.

Lemma text_object_accepted entries label allowed :
  NoDup (map fst entries) → forallb (λ k, bool_decide (k ∈ allowed)) (map fst entries) = true →
  reject_unknown_wrapper_fields (text_object entries) label allowed = Ok ().
Proof.
  intros Hnd Hall. destruct (text_object_view _ Hnd) as (obj & Hv & Hp & _).
  unfold reject_unknown_wrapper_fields, as_object. rewrite Hv.
  assert (List.filter (λ k, negb (bool_decide (k ∈ allowed))) (map fst obj) = []) as ->; [|done].
  rewrite forallb_Forall in Hall. rewrite <- Hp in Hall.
  clear -Hall. induction Hall as [|k l Hk _ IH]; [done|]. cbn [List.filter] in *. by rewrite Hk, IH.
Qed.

Lemma take_n_all {A} n (l : list A) : len l <= n → take_n n l = l.
Proof.
  revert n. induction l as [|x l IH]; intros n Hn; [done|]. cbn [take_n]. rewrite len_cons in Hn.
  rewrite (proj2 (N.eqb_neq _ _)) by lia. by rewrite IH by lia.
Qed.

(** A file of acceptable size is read as it is. *)
Lemma read_file_run path w text :
  can_read path = true → w_files w !! path = Some text → len text <= MAX_INPUT_FILE_BYTES →
  utf8_valid text = true → path ≠ "-" →
  read_input_text path w = Some (Ok (of_bytes text, path), w).
Proof.
  intros Hr Hl Hn Hu Hp. unfold read_input_text. rewrite bool_decide_eq_false_2 by done.
  unfold read_input_file, read_file_bytes, mbind, cmd_bind, get_world, utf8_text, pure.
  rewrite Hr, Hl, take_n_all by lia. rewrite (proj2 (N.ltb_ge _ _)) by lia.
  cbn [mret cmd_ret]. unfold mret, cmd_ret, from_utf8. by rewrite Hu.
Qed.

Lemma utf8_valid_line l : utf8_valid l = true → utf8_valid (l ++ line_end) = true.
Proof.
  remember (length l) as n eqn:Hn. revert l Hn. induction n as [n IH] using lt_wf_ind. intros l ->.
  destruct l as [|b0 l0]; [done|]. cbn [app utf8_valid].
  destruct (b2n b0 <? 0x80); [apply (IH (length l0)); [cbn; lia|done]|].
  destruct l0 as [|b1 l1]; [done|]. cbn [app].
  destruct (in_range 0xC2 0xDF b0).
  { intros [-> Hv]%andb_true_iff. apply (IH (length l1)); [cbn; lia|done|done]. }
  destruct l1 as [|b2 l2]; [done|]. cbn [app]. destruct (in_range 0xE0 0xEF b0).
  { intros [-> Hv]%andb_true_iff. apply (IH (length l2)); [cbn; lia|done|done]. }
  destruct l2 as [|b3 l3]; [done|]. cbn [app]. intros [-> Hv]%andb_true_iff.
  apply (IH (length l3)); [cbn; lia|done|done].
Qed.

(** What a command wrote is read back by the loaders. *)
Definition readable (w : World) (path : string) : Prop :=
  path ≠ "-" ∧ can_read path = true ∧
  ∀ text, w_files w !! path = Some text → len text <= MAX_INPUT_FILE_BYTES.

Lemma written_json_read v path w w' :
  built_value v → write_json path v w = Some (Ok (), w') → readable w' path →
  read_json path w' = Some (Ok v, w').
Proof.
  intros Hv Hw (Hp & Hr & Hn). unfold write_json in Hw. rewrite bool_decide_eq_false_2 in Hw by done.
  unfold write_file in Hw. destruct (can_write path); [|done]. injection Hw as <-.
  specialize (Hn _ (lookup_insert_eq _ _ _)). unfold read_json.
  erewrite cmd_bind_run; [|eapply read_file_run; [done|apply lookup_insert_eq|done| |done]].
  2: { apply utf8_valid_line, json_pretty_utf8. }
  unfold parse_json, pure. rewrite as_of_bytes. unfold line_end. by rewrite json_pretty_read.
Qed.

Lemma written_wrapper_read entries allowed path w w' :
  NoDup (map fst entries) → forallb (λ k, bool_decide (k ∈ allowed)) (map fst entries) = true →
  write_json path (text_object entries) w = Some (Ok (), w') → readable w' path →
  read_wrapper path allowed w' = Some (Ok (text_object entries), w').
Proof.
  intros Hnd Hall Hw Hr. unfold read_wrapper.
  erewrite cmd_bind_run; [|by eapply written_json_read; [apply text_object_plain|..]].
  unfold mbind, cmd_bind, pure. by rewrite text_object_accepted.
Qed.
End wrapper_facts.

(** * Artifact files *)

Section artifact_facts.
Context `{SerdeJsonBuilderLaws, Os, CliTexts, HexLaws, Base64UrlLaws, Sha2Laws, SignatureLaws}.

(** An attestation that verifies is what the builder asks of a member. *)
Lemma verified_genuine sign1 issuer content id canonical :
  verify_attestation sign1 issuer algs_strict limits = Ok (content, id) →
  genuine_attestation limits {| ca_content := content; ca_canonical := canonical; ca_id := id; ca_sign1 := sign1 |}.
Proof.
  intros Hv. unfold genuine_attestation. cbn [ca_content ca_id ca_sign1].
  pose proof Hv as Hv'. unfold verify_attestation in Hv'. apply bind_Ok in Hv' as (p & Hp & Hv').
  apply bind_Ok in Hv' as (v & Hd & Hv'). apply bind_Ok in Hv' as (c & Hc & Hv').
  case_bool_decide as Hiss; [done|]. injection Hv' as -> <-.
  destruct (attestation_reprint _ _ _ _ Hd Hc) as [Hwf Hpay]. subst issuer.
  split_and!; [|by rewrite <- Hpay|done].
  unfold stored_wf. cbn [sa_content sa_sign1]. rewrite Hwf. apply negb_true_iff, orb_false_iff. split.
  - apply N.eqb_neq. apply verify_sign1_aad_sound in Hp as (Hb & _).
    destruct sign1 as [|b sign1]; [discriminate Hb|]. rewrite len_cons. lia.
  - unfold verify_sign1, verify_sign1_with_aad in Hp. destruct (1024 <? _); [done|].
    apply bind_Ok in Hp as (q & Hq & _). unfold parse_sign1 in Hq. by destruct (max_proof_size _ <? _).
Qed.

Lemma load_attestation_genuine path w a w' :
  load_attestation path w = Some (Ok a, w') →
  genuine_attestation limits a ∧
  ca_canonical a = encode_canonical (attestation_to_cbor (ca_content a)).
Proof.
  unfold load_attestation. intros Hl. cmd_inv. cbn [ca_canonical ca_content].
  repeat match goal with Hb : bool_decide _ = true |- _ => apply bool_decide_eq_true in Hb; subst end.
  split; [by eapply verified_genuine|].
  match goal with Hd : decode_strict _ _ = Ok _, Hc : cbor_to_attestation _ _ = Ok _ |- _ =>
    rewrite <- (proj1 (recheck_redundant _ _)) in Hd;
    exact (proj2 (attestation_reprint _ _ _ _ Hd Hc)) end.
Qed.

(** The wrapper of written bytes is unwrapped to them. *)
Lemma wrapped_bytes_text entries bytes :
  NoDup (map fst entries) → field_text entries "cbor" = Some (cbor_to_hex bytes) →
  wrapped_bytes (text_object entries) = Ok bytes.
Proof.
  intros Hnd Hf. unfold wrapped_bytes. rewrite req_str_text, Hf by done. cbn. unfold cbor_to_hex.
  by rewrite hex_of_to.
Qed.

(** The builders check what they build by reading it back. *)
Lemma created_event_reads content e :
  create_event content limits = Ok e →
  ∃ v, decode_strict (ce_canonical e) limits = Ok v ∧ cbor_to_event v limits = Ok content ∧
    ce_id e = event_id (ce_canonical e).
Proof.
  unfold create_event. destruct (negb _); [done|]. intros Hc.
  apply bind_Ok in Hc as (w & _ & Hc). apply bind_Ok in Hc as (v & Hd & Hc).
  apply bind_Ok in Hc as (back & Hb & Hc). case_bool_decide as Hback; [done|]. injection Hc as <-. subst back.
  exists v. by rewrite <- (proj1 (recheck_redundant _ _)).
Qed.
Lemma created_evidence_reads kind digest aref hint e :
  make_evidence kind digest aref hint limits = Ok e →
  ∃ v, decode_strict (cv_canonical e) limits = Ok v ∧ cbor_to_evidence v limits = Ok (cv_content e) ∧
    cv_id e = evidence_id (cv_canonical e).
Proof.
  unfold make_evidence. intros Hc. apply bind_Ok in Hc as (w & _ & Hc). apply bind_Ok in Hc as (v & Hd & Hc).
  apply bind_Ok in Hc as (back & Hb & Hc). case_bool_decide as Hback; [done|]. injection Hc as <-. subst back.
  exists v. by rewrite <- (proj1 (recheck_redundant _ _)).
Qed.
Lemma created_relationship_reads content r :
  make_relationship content limits = Ok r →
  ∃ v, decode_strict (cr_canonical r) limits = Ok v ∧ cbor_to_relationship v limits = Ok (cr_content r) ∧
    cr_id r = relationship_id (cr_canonical r).
Proof.
  unfold make_relationship. destruct (negb _); [done|]. intros Hc. apply bind_Ok in Hc as (v & Hd & Hc).
  apply bind_Ok in Hc as (back & Hb & Hc). case_bool_decide as Hback; [done|]. injection Hc as <-. subst back.
  exists v. by rewrite <- (proj1 (recheck_redundant _ _)).
Qed.

(** The wrappers the commands write. *)
Definition id_entries (kind id : string) (canonical : list byte) : list (string * string) :=
  [("kind", kind); ("id", id); ("cbor", cbor_to_hex canonical)].

Lemma id_entries_keys kind id canonical : NoDup (map fst (id_entries kind id canonical)).
Proof. cbn. repeat (apply NoDup_cons; split; [set_solver|]). apply NoDup_nil_2. Qed.

(** Reading the wrapper of an unsigned artifact, up to the engine. *)
Lemma unsigned_file_loads {A} (k : list byte → option string → Cmd A) allowed kind id canonical path w w' :
  forallb (λ k, bool_decide (k ∈ allowed)) ["kind"; "id"; "cbor"] = true →
  write_json path (text_object (id_entries kind id canonical)) w = Some (Ok (), w') → readable w' path →
  (v ← read_wrapper path allowed; bytes ← pure (wrapped_bytes v); expect ← pure (opt_str v "id");
   k bytes expect) w' = k canonical (Some id) w'.
Proof.
  intros Hall Hw Hr. pose proof (id_entries_keys kind id canonical) as Hnd.
  erewrite cmd_bind_run; [|by eapply written_wrapper_read].
  erewrite cmd_bind_run; [|apply pure_Ok; split; [by apply wrapped_bytes_text|done]].
  erewrite cmd_bind_run; [|apply pure_Ok; split; [by apply opt_str_text|done]]. done.
Qed.

Lemma event_file_loads e content path w w' :
  create_event content limits = Ok e →
  write_json path (text_object (id_entries "event" (ce_id e) (ce_canonical e))) w = Some (Ok (), w') →
  readable w' path → load_event path w' = Some (Ok content, w').
Proof.
  intros (v & Hd & Hb & Hid)%created_event_reads Hw Hr. unfold load_event.
  erewrite unsigned_file_loads by done.
  unfold verify_event. rewrite (proj1 (recheck_redundant _ _)), Hd. cbn [mbind result_bind].
  rewrite Hb. cbn [mbind result_bind]. rewrite (proj2 (verify_id_spec id_prefix.EVENT _ _) Hid).
  unfold mbind, cmd_bind, engine, pure. cbn. by rewrite Hb.
Qed.
Lemma evidence_file_loads kind digest aref hint e path w w' :
  make_evidence kind digest aref hint limits = Ok e →
  write_json path (text_object (id_entries "evidence" (cv_id e) (cv_canonical e))) w = Some (Ok (), w') →
  readable w' path → load_evidence path w' = Some (Ok (cv_content e), w').
Proof.
  intros (v & Hd & Hb & Hid)%created_evidence_reads Hw Hr. unfold load_evidence.
  erewrite unsigned_file_loads by done.
  unfold verify_evidence. rewrite (proj1 (recheck_redundant _ _)), Hd. cbn [mbind result_bind].
  rewrite Hb. cbn [mbind result_bind]. rewrite (proj2 (verify_id_spec id_prefix.EVIDENCE _ _) Hid).
  unfold mbind, cmd_bind, engine, pure. cbn. by rewrite Hb.
Qed.
Lemma relationship_file_loads content r path w w' :
  make_relationship content limits = Ok r →
  write_json path (text_object (id_entries "relationship" (cr_id r) (cr_canonical r))) w = Some (Ok (), w') →
  readable w' path → load_relationship path w' = Some (Ok (cr_content r), w').
Proof.
  intros (v & Hd & Hb & Hid)%created_relationship_reads Hw Hr. unfold load_relationship.
  erewrite unsigned_file_loads by done.
  unfold verify_relationship. rewrite (proj1 (recheck_redundant _ _)), Hd. cbn [mbind result_bind].
  rewrite Hb. cbn [mbind result_bind]. rewrite (proj2 (verify_id_spec id_prefix.REL _ _) Hid).
  unfold mbind, cmd_bind, engine, pure. cbn. by rewrite Hb.
Qed.

Definition signed_entries (a : CreatedAttestation) : list (string * string) :=
  [("kind", "attestation"); ("id", ca_id a); ("issuer", att_issuer (ca_content a));
   ("cbor", cbor_to_hex (ca_canonical a)); ("sign1_b64", b64u_nopad (ca_sign1 a))].
Definition status_entries (a : CreatedAttestation) : list (string * string) :=
  [("kind", "status"); ("id", ca_id a); ("issuer", att_issuer (ca_content a));
   ("claim_type", claim_type (att_claim (ca_content a))); ("cbor", cbor_to_hex (ca_canonical a));
   ("sign1_b64", b64u_nopad (ca_sign1 a))].
(** The envelope of an attestation fits the limits. *)
Definition envelope_fits (a : CreatedAttestation) : Prop :=
  cose_fits limits (ca_canonical a) = true ∧ len (ca_sign1 a) <= max_proof_size limits.

Lemma b64u_decode_nopad b : b64u_decode (b64u_nopad b) = Ok b.
Proof.
  unfold b64u_decode, b64u_nopad. by rewrite b64_decode_encode.
Qed.

Lemma attestation_file_loads content seed a path w w' :
  attest content seed limits = Ok a → envelope_fits a →
  write_json path (text_object (signed_entries a)) w = Some (Ok (), w') → readable w' path →
  load_attestation path w' = Some (Ok a, w').
Proof.
  intros Ha [Hfit Hsize] Hw Hr. pose proof (attest_verifies _ _ _ _ Ha Hfit Hsize) as Hv.
  assert (NoDup (map fst (signed_entries a))) as Hnd
    by (cbn; repeat (apply NoDup_cons; split; [set_solver|]); apply NoDup_nil_2).
  unfold attest in Ha. destruct (negb _); [done|]. case_bool_decide as Hiss; [done|].
  apply bind_Ok in Ha as (decoded & Hd & Ha). apply bind_Ok in Ha as (back & Hb & Ha).
  case_bool_decide as Hback; [done|]. injection Ha as Ha. subst back.
  rewrite (proj1 (recheck_redundant _ _)) in Hd.
  assert (ca_content a = content ∧ decode_strict (ca_canonical a) limits = Ok decoded) as [Hca Hda]
    by (by rewrite <- Ha).
  unfold load_attestation.
  erewrite cmd_bind_run; [|by eapply written_wrapper_read].
  erewrite cmd_bind_run; [|apply pure_Ok; split; [by apply ok_or_Ok, either_text_first|done]].
  erewrite cmd_bind_run; [|apply pure_Ok; split; [by apply wrapped_bytes_text|done]].
  erewrite cmd_bind_run; [|apply engine_Ok; split; [apply b64u_decode_nopad|done]].
  erewrite cmd_bind_run; [|apply pure_Ok; split; [by rewrite opt_str_text|done]].
  rewrite Hca, Hiss.
  erewrite cmd_bind_run; [|apply engine_Ok; split; [exact Hv|done]]. cbn beta iota.
  erewrite cmd_bind_run; [|apply pure_Ok; split; [by apply opt_str_text|done]].
  unfold mbind, cmd_bind, pure, engine. cbn [field_text signed_entries].
  rewrite bool_decide_eq_false_2 by done. rewrite bool_decide_eq_true_2 by done.
  rewrite bool_decide_eq_true_2 by done. cbn [check pure]. unfold pure. rewrite Hda.
  destruct (decode_strict_inv _ _ _ Hda) as [Henc _]. rewrite bool_decide_eq_true_2 by done.
  cbn [check]. rewrite Hb. rewrite bool_decide_eq_true_2 by done. cbn [check].
  unfold mret, cmd_ret. do 3 f_equal. rewrite <- Ha. done.
Qed.

Lemma status_file_loads content seed a path w w' :
  attest content seed limits = Ok a → envelope_fits a → ClaimKind.is_status (claim_kind content) = true →
  write_json path (text_object (status_entries a)) w = Some (Ok (), w') → readable w' path →
  load_status path w' = Some (Ok {| ss_content := content; ss_sign1 := ca_sign1 a |}, w').
Proof.
  intros Ha [Hfit Hsize] Hst Hw Hr. pose proof (attest_verifies _ _ _ _ Ha Hfit Hsize) as Hv.
  apply attest_Ok in Ha as (_ & Hca & Hiss & _).
  assert (NoDup (map fst (status_entries a))) as Hnd
    by (cbn; repeat (apply NoDup_cons; split; [set_solver|]); apply NoDup_nil_2).
  unfold load_status.
  erewrite cmd_bind_run; [|by eapply written_wrapper_read].
  erewrite cmd_bind_run; [|apply pure_Ok; split; [by apply ok_or_Ok, either_text_first|done]].
  erewrite cmd_bind_run; [|apply engine_Ok; split; [apply b64u_decode_nopad|done]].
  erewrite cmd_bind_run; [|apply pure_Ok; split; [by rewrite req_str_text|done]].
  erewrite cmd_bind_run; [done|]. apply engine_Ok. split; [|done].
  unfold verify_status_object. rewrite Hca, Hiss, Hv. cbn [mbind result_bind]. by rewrite Hst.
Qed.

(** The status commands sign status claims. *)
Lemma status_object_attests cli kind key at_ created :
  status_object cli kind key at_ = Ok created →
  ∃ content, attest content key limits = Ok created ∧ ClaimKind.is_status (claim_kind content) = true.
Proof.
  assert (∀ (r : Result CreatedAttestation), (match r with Ok a => Ok a | Err _ => UsageErr end) = Ok created →
    r = Ok created) as Hr by (intros [] ?; naive_solver).
  unfold status_object. intros Hs.
  repeat (case_bool_decide || (apply bind_Ok in Hs as (? & _ & Hs))); apply Hr in Hs; clear Hr;
    unfold revoke_attestation, withdraw_attestation, compromise_attestation, supersede_attestation in Hs;
    (destruct (sempty _ || _) || destruct (sempty _)); try done;
    first [case_bool_decide; [done|]|apply bind_Ok in Hs as (reason & _ & Hs)];
    (eexists; split; [exact Hs|reflexivity]).
Qed.

(** Artifact files round trip.  What [create-event], [add-evidence],
    [relate], [attest] and the status commands write to a file is loaded back by
    the loader of its kind, to the object with the announced id; an attestation
    or status object whose envelope fits the limits is loaded with its signature
    verified. *)
Theorem artifact_files_roundtrip (cli : Cli) (w w' : World) (id out kind : string)
  (Hout : opt cli "out" = Some out) (Hr : readable w' out) :
  (write_event cli w = Some (Ok id, w') →
     ∃ e, load_event out w' = Some (Ok e, w') ∧ id = event_id (encode_canonical (event_cbor e))) ∧
  (write_evidence cli w = Some (Ok id, w') →
     ∃ e, load_evidence out w' = Some (Ok e, w') ∧ id = member_evidence_id e) ∧
  (write_relationship cli w = Some (Ok id, w') →
     ∃ r, load_relationship out w' = Some (Ok r, w') ∧ id = member_relationship_id r) ∧
  (write_attestation cli w = Some (Ok id, w') →
     ∃ a, id = ca_id a ∧ (envelope_fits a → load_attestation out w' = Some (Ok a, w'))) ∧
  (write_status_object cli kind w = Some (Ok id, w') →
     ∃ a, id = ca_id a ∧ (envelope_fits a →
       load_status out w' = Some (Ok {| ss_content := ca_content a; ss_sign1 := ca_sign1 a |}, w'))).
Proof.
  assert (req cli "out" = Ok out) as Hreq by (unfold req; by rewrite Hout).
  split_and!; intros Hw.
  - unfold write_event in Hw. cmd_inv. rewrite Hreq in *. cmd_inv.
    match goal with Hc : create_event _ _ = Ok _ |- _ => pose proof Hc as Hc';
      apply create_event_Ok in Hc' as (_ & _ & _ & ->) end.
    eexists. split; [by eapply event_file_loads|done].
  - unfold write_evidence in Hw. cmd_inv. rewrite Hreq in *. cmd_inv.
    match goal with Hc : make_evidence _ _ _ _ _ = Ok _ |- _ => pose proof Hc as Hc';
      apply make_evidence_Ok in Hc' as [_ ->] end.
    eexists. split; [by eapply evidence_file_loads|done].
  - unfold write_relationship in Hw. cmd_inv. rewrite Hreq in *. cmd_inv.
    match goal with Hc : make_relationship _ _ = Ok _ |- _ => pose proof Hc as Hc';
      apply make_relationship_Ok in Hc' as [_ ->] end.
    eexists. split; [by eapply relationship_file_loads|done].
  - unfold write_attestation in Hw. cmd_inv. rewrite Hreq in *. cmd_inv.
    eexists. split; [done|]. intros Hfit. by eapply attestation_file_loads.
  - unfold write_status_object in Hw. cmd_inv. rewrite Hreq in *. cmd_inv.
    match goal with Hc : status_object _ _ _ _ = Ok _ |- _ =>
      apply status_object_attests in Hc as (content & Hatt & Hst) end.
    pose proof (proj1 (proj2 (attest_Ok _ _ _ _ Hatt))) as Hca.
    eexists. split; [done|]. intros Hfit. rewrite Hca. by eapply status_file_loads.
Qed.
End artifact_facts.

(** * Sample files *)

Module FileSamples.
Import Toy.
(** Every path can be opened; texts that are not kept are empty. *)
#[export] Instance os : Os := {| can_read _ := true; can_write _ := true; can_mkdir _ := true |}.
#[export] Instance texts : CliTexts := {|
  io_text _ := ""; json_text _ := ""; hex_text _ := ""; decode_text _ := "";
  debug_text s := s; document_text _ := "" |}.

Definition command (args : list string) : Cli :=
  match parse args with Ok cli => cli | Err _ => empty_cli "" end.
Definition no_files : World := mkWorld _ ∅ None [].
Definition digest_hex : string := of_bytes (repeat Byte.x61 64).
Definition event_command : Cli := Eval vm_compute in
  command ["create-event"; "--type"; "payment.created"; "--subject"; "acct:1"; "--effective-at"; "5";
           "--payload-hex"; digest_hex; "--meta"; "order=ord-1"; "--out"; "e.json"].
Definition attest_command : Cli := Eval vm_compute in
  command ["attest"; "--seed"; "test"; "--subject"; "evt:v1:00"; "--claim-type"; "observed";
           "--claim"; "order=ord-1"; "--issued-at"; "100"; "--expires-at"; "200"; "--out"; "a.json"].
Definition outcome {A} (m : Cmd A) (d : A) (w : World) : A * World :=
  match m w with Some (Ok a, w') => (a, w') | _ => (d, w) end.

(** A path that is not too long to be read. *)
Definition small (path : string) (w : World) : bool :=
  match w_files w !! path with Some text => len text <=? MAX_INPUT_FILE_BYTES | None => true end.
End FileSamples.

Section file_witnesses.
Import Toy Toy.Reader FileSamples.

(** A run that a test accepts, found by evaluation. *)
Lemma run_check {A} (m : Cmd A) w (test : A → World → bool) :
  match m w with Some (Ok a, w') => test a w' | _ => false end = true →
  ∃ a w', m w = Some (Ok a, w') ∧ test a w' = true.
Proof. destruct (m w) as [[[a|e] w']|]; intros Ht; [by exists a, w'|done..]. Qed.
Lemma small_readable path w : path ≠ "-" → small path w = true → readable w path.
Proof.
  intros Hp Hs. split; [done|]. split; [done|]. intros text Ht. unfold small in Hs. rewrite Ht in Hs.
  by apply N.leb_le.
Qed.

End file_witnesses.
