(* ===== verification/Commands.v ===== *)
(** Commands: the commands that decide, [crates/proof-cli/src/check.rs],
    [seen.rs] and [make.rs].

    [load_proof] reads a proof wrapper, [verify], [batch_verify] and [evaluate]
    run the engine on it and turn its report into an exit code, [gate] is the
    replay guardrail on the seen-store file, [build] assembles artifact files,
    [init_policy] generates a policy.  Errors of [load_proof] keep their text,
    which [verify] searches; notes on the standard error are left out.

    The theorems: what exit code 0 of [verify] and of [evaluate] means, replay
    protection, and that what [build] writes verifies. *)
From Stdlib Require Import Strings.Byte NArith ZArith Lia.
From stdpp Require Import pretty.
From S2P Require Import Prelude Text Core External Cbor Schema Graph Ident Claim Cose.
From S2P Require Import Report Pipeline PipelineFacts Verdicts Builder Envelope.
From S2P Require Import Policy State Eval Context Combine Resolve Api Cli Files.

(** * Reports *)

(** Valid history that is not current: superseded or unknown records. *)
Definition is_currently_acceptable (report : VerifyReport) : bool :=
  if existsb (λ l, bool_decide (lc_status l = LifecycleStatus.Superseded)
                   || bool_decide (lc_status l = LifecycleStatus.Unknown)) (vr_lifecycle report)
  then false else
  if existsb (λ e, bool_decide (es_status e = EvidenceStatus.Superseded)
                   || (bool_decide (es_status e = EvidenceStatus.Unknown)
                       && str_contains "provenance hint unverified" (es_message e)))
       (vr_evidence_status report)
  then false else true.

Definition verdict_exit (report : VerifyReport) : Z :=
  if passed_crypto report && bool_decide (evidence_validity report = Validity.Valid)
  then EXIT_OK else EXIT_FAIL.

Module VerdictKind.
Inductive t : Set := Valid | Historical | Invalid.
End VerdictKind.
Definition verdict_kind (report : VerifyReport) : VerdictKind.t :=
  if negb (passed_crypto report && bool_decide (evidence_validity report = Validity.Valid))
  then VerdictKind.Invalid
  else if is_currently_acceptable report then VerdictKind.Valid else VerdictKind.Historical.
Definition human_verdict_label (report : VerifyReport) : string :=
  if passed_crypto report && bool_decide (evidence_validity report = Validity.Valid) then
    if is_currently_acceptable report then "VALID"
    else "HISTORICALLY_VALID (not currently acceptable; use --production/--strict-current or check currently_acceptable:false)"
  else "INVALID".

(** A report on bytes that never parsed. *)
Definition failed_report (proof_id : option string) (check : CheckRecord) (note_object : string)
    : VerifyReport := {|
  vr_proof_id := proof_id; cryptographic_validity := Validity.Invalid;
  evidence_validity := Validity.Invalid; policy_decision := PolicyDecision.Indeterminate;
  lifecycle_checked := false; vr_lifecycle := []; vr_status_objects := []; vr_withdrawn_ids := [];
  vr_referenced_proofs := []; vr_vocabularies := []; vr_evidence_status := []; vr_conflicts := [];
  vr_checks := [check; check_note "POLICY" note_object]; status_inputs_valid := true |}.
Definition malformed_report (stage : string) (code : ErrorCode.t) : VerifyReport :=
  failed_report None (check_fail stage "proof:bytes" code) "proof:bytes".
Definition envelope_kind_mismatch_report : VerifyReport :=
  failed_report None (check_fail "SCHEMA" "proof:bytes" ErrorCode.SchemaViolation) "proof:bytes".
Definition envelope_mismatch_report (claimed actual : string) : VerifyReport :=
  failed_report (Some actual) (check_fail "IDENTIFIERS" ("proof:" +:+ claimed) ErrorCode.IdMismatch)
    ("proof:" +:+ actual).

(** * Searching error texts *)

(** The text before and after the first occurrence of a needle. *)
Fixpoint split_at (needle s : string) : option (string * string) :=
  match strip_prefix needle s with
  | Some after => Some ("", after)
  | None =>
      match s with
      | EmptyString => None
      | String c s' => '(before, after) ← split_at needle s'; Some (String c before, after)
      end
  end.
(** [trim_end_matches] on a set of ASCII characters. *)
Fixpoint trim_end_matches (set : list N) (l : list byte) : list byte :=
  match l with
  | [] => []
  | c :: l' =>
      match trim_end_matches set l' with
      | [] => if bool_decide (b2n c ∈ set) then [] else [c]
      | l'' => c :: l''
      end
  end.
Definition trim_end_text (set : list N) (s : string) : string := of_bytes (trim_end_matches set (as_bytes s)).

Definition parse_envelope_mismatch (msg : string) : option (string * string) :=
  '(_, from_claimed) ← split_at "wrapper says " msg;
  '(claimed, rest) ← split_at ", bytes bind " from_claimed;
  actual ← head (split_whitespace (trim_end_text [0x29; 0x0A; 0x20] rest));
  Some (trim claimed, trim_end_text [0x29] actual).

Record LoadedProof : Set := mkLoaded { lp_canonical : list byte; lp_proof : Proof_ }.

(** * Loading *)

Section loading.
Context `{SerdeJsonReader, Os, CliTexts, Hex, Base64Url}.

Definition kind_field (label : string) (v : json) : CliResult () :=
  match entry v "kind" with
  | None => Ok ()
  | Some k =>
      match text_of k with
      | Some kind =>
          if bool_decide (kind = "proof") then Ok ()
          else Err (Said (label +:+ ": envelope kind mismatch (wrapper says kind " +:+ quote +:+ kind +:+
            quote +:+ ", expected " +:+ quote +:+ "proof" +:+ quote +:+ ")"))
      | None => Err (Said (label +:+ ": wrapper `kind` must be a string"))
      end
  end.
Definition cbor_field (label : string) (v : json) : CliResult (list byte) :=
  hex_str ← ok_or (entry v "cbor" ≫= text_of) (Said (label +:+ ": missing `cbor`"));
  ok_or (hex_of_text hex_str) (Said (label +:+ ": bad hex: " +:+ hex_text hex_str)).
(** An engine error in a text that is kept. *)
Definition refused {A} (label : string) (bytes : list byte) (r : Result A) : CliResult A :=
  match r with Ok a => Ok a | Err _ => Err (Said (label +:+ ": " +:+ decode_text bytes)) end.

(** The bytes of a wrapper as a proof. *)
Definition unwrap_proof (label : string) (v : json) : CliResult LoadedProof :=
  _ ← reject_unknown_wrapper_fields v label PROOF_WRAPPER_ALLOWED;
  _ ← kind_field label v;
  bytes ← cbor_field label v;
  value ← refused label bytes (decode_strict bytes limits);
  proof ← refused label bytes (cbor_to_proof value limits);
  match entry v "id" ≫= text_of with
  | Some claimed =>
      if bool_decide (claimed ≠ prf_proof_id proof)
      then Err (Said (label +:+ ": envelope id mismatch (wrapper says " +:+ claimed +:+
                      ", bytes bind " +:+ prf_proof_id proof +:+ ")"))
      else Ok {| lp_canonical := bytes; lp_proof := proof |}
  | None => Ok {| lp_canonical := bytes; lp_proof := proof |}
  end.
Definition load_proof (path : string) : Cmd LoadedProof :=
  '(text, label) ← read_input_text path;
  v ← parse_json label text;
  pure (unwrap_proof label v).
Definition load_proof_bytes_raw (path : string) : Cmd (list byte) :=
  '(text, label) ← read_input_text path;
  v ← parse_json label text;
  pure (cbor_field label v).

Definition emit_report (report : VerifyReport) (out : option string) : Cmd () :=
  match out with
  | Some path =>
      if bool_decide (path = "-") then print (PrintedDocument (ReportDoc report))
      else write_file path (as_bytes (document_text (ReportDoc report)) ++ line_end)
  | None => print (PrintedDocument (ReportDoc report))
  end.
End loading.

(** * The replay guardrail *)

Record SeenRequest : Set := mkSeenRequest {
  sr_store : string;
  sr_context : string;
  sr_record : bool;
}.
Definition seen_request (cli : Cli) : CliResult (option SeenRequest) :=
  match opt cli "seen-store", opt cli "seen-context" with
  | None, None => if has cli "seen-record" then UsageErr else Ok None
  | None, Some _ => UsageErr
  | Some _, None => UsageErr
  | Some store, Some context =>
      if sempty context then UsageErr
      else Ok (Some {| sr_store := store; sr_context := context; sr_record := has cli "seen-record" |})
  end.
Definition seen_key (context proof_id : string) : string := context +:+ "::" +:+ proof_id.

Section guardrail.
Context `{SerdeJsonReader, !SerdeJsonBuilder, Os, CliTexts}.

(** [fs::read_to_string]: a missing file is an empty store. *)
Definition load_seen (path : string) : Cmd (gset string) :=
  w ← get_world;
  match w_files w !! path with
  | None => mret ∅
  | Some content =>
      _ ← pure (check (can_read path) Other);
      text ← pure (ok_or (from_utf8 content) Other);
      v ← pure (ok_or (json_from_slice (as_bytes text)) Other);
      items ← pure (ok_or (entry v "seen" ≫= as_array) Other);
      ids ← pure (ok_or (mapM text_of items) Other);
      mret (list_to_set ids)
  end.
(** The sorted set as a document. *)
Definition seen_document (seen : gset string) : json :=
  json_of (JObject [("seen", json_of (JArray
    (map (λ s, json_of (JString s)) (sort_by str_leb (elements seen)))))]).
Definition gate (req : SeenRequest) (proof_id : string) : Cmd bool :=
  seen ← load_seen (sr_store req);
  let k := seen_key (sr_context req) proof_id in
  if bool_decide (k ∈ seen) then mret true else
  _ ← (if sr_record req
       then write_file (sr_store req)
              (as_bytes (json_pretty (seen_document ({[k]} ∪ seen))) ++ line_end)
       else mret ());
  mret false.
End guardrail.

(** * Inputs of the verifier *)

Record CommonInputs : Set := mkCommon {
  ci_verified_at : N;
  ci_skew : N;
  ci_revocations_known_at : option N;
}.
Definition common (cli : Cli) : CliResult CommonInputs :=
  verified_at ← req_u64 cli "clock";
  skew ← opt_u64 cli "skew";
  known_at ← opt_u64 cli "revocations-known-at";
  Ok {| ci_verified_at := verified_at; ci_skew := default 300 skew; ci_revocations_known_at := known_at |}.

Record VerifierPolicy : Set := mkVerifierPolicy {
  vp_allowed_algs : AllowedAlgs;
  vp_report_all_failures : bool;
  vp_accepted_vocabularies : list VocabularyAccept;
  vp_extra_grounded : list string;
  vp_require_acyclic_provenance : bool;
  vp_require_status_feed : bool;
  vp_production : bool;
}.
(** Comma-separated entries of a repeatable flag, trimmed, without the empty ones. *)
Definition entries_of (cli : Cli) (name : string) : list string :=
  List.filter (λ s, negb (sempty s)) (map trim (concat (map (split_on comma) (many cli name)))).
Definition extra_grounded_flag (cli : Cli) : list string := entries_of cli "extra-grounded".
Definition accepted_vocabulary (entry : string) : CliResult VocabularyAccept :=
  '(ns, max) ← ok_or (split_once colon entry) Other;
  let ns := trim ns in
  if sempty ns then UsageErr else
  max_version ← ok_or (parse_u64 (trim max)) Other;
  Ok {| acc_ns := ns; acc_max_version := max_version |}.
Definition verifier_policy (cli : Cli) : CliResult VerifierPolicy :=
  let allowed := algs_strict in
  let allowed := if has cli "esp256" then with_esp256 allowed else allowed in
  let allowed := if has cli "historical" || has cli "allow-deprecated"
                 then with_deprecated allowed else allowed in
  accepted ← mapM accepted_vocabulary (entries_of cli "accepted-vocab");
  let production := has cli "production" in
  Ok {| vp_allowed_algs := allowed; vp_report_all_failures := has cli "report-all";
        vp_accepted_vocabularies := accepted; vp_extra_grounded := extra_grounded_flag cli;
        vp_require_acyclic_provenance := has cli "require-acyclic" || production;
        vp_require_status_feed := negb (has cli "no-require-status"); vp_production := production |}.
Definition cli_inputs (cli : Cli) (c : CommonInputs) : EvalInputs := {|
  in_trusted_issuers := many cli "trusted";
  in_revocations := RevocationSet_new (concat (map (split_on comma) (many cli "revoked")));
  in_verified_at := ci_verified_at c; in_skew_leeway := ci_skew c |}.
(** The context the commands build from their flags and status files. *)
Definition cli_ctx (cli : Cli) (c : CommonInputs) (vp : VerifierPolicy) (statuses : list SignedStatus)
    : VerifyCtx := {|
  verified_at := ci_verified_at c; clock_skew_leeway := ci_skew c;
  trusted_issuers := many cli "trusted"; allow_remote := allow_remote default_ctx;
  allowed_algs := vp_allowed_algs vp; ctx_limits := ctx_limits default_ctx;
  ctx_status_objects := statuses; revocation_authorities := many cli "authority";
  revocations_known_at := ci_revocations_known_at c;
  report_all_failures := vp_report_all_failures vp;
  accepted_vocabularies := vp_accepted_vocabularies vp; extra_grounded := vp_extra_grounded vp;
  require_acyclic_provenance := vp_require_acyclic_provenance vp;
  require_status_feed := vp_require_status_feed vp |}.
Definition strict_mode (cli : Cli) : bool := has cli "strict-current" || has cli "production".

(** * Deciding *)

Section deciding.
Context `{SerdeJsonReader, !SerdeJsonBuilder, Os, CliTexts, Hex, Base64Url, Sha2, SignatureSchemes, HashOrder}.

Definition load_statuses (cli : Cli) : Cmd (list SignedStatus) := each load_status (many cli "status").
(** [filter_map(|p| load_status(p).ok())]. *)
Definition load_statuses_lenient (cli : Cli) : Cmd (list SignedStatus) :=
  results ← each (λ p, attempt (load_status p)) (many cli "status");
  mret (omap (λ r, match r with Ok s => Some s | Err _ => None end) results).

(** A proof that does not load: a report on tampered wrappers and malformed
    bytes, the error itself otherwise. *)
Definition verify_unloaded (cli : Cli) (c : CommonInputs) (vp : VerifierPolicy) (proof_path : string)
    (e : CliError) : Cmd Z :=
  let text := match e with Said text => text | Other => "" end in
  if str_contains "envelope id mismatch" text then
    let '(claimed, actual) := default ("?", "?") (parse_envelope_mismatch text) in
    _ ← emit_report (envelope_mismatch_report claimed actual) (opt cli "out");
    mret EXIT_FAIL
  else if str_contains "envelope kind mismatch" text then
    _ ← emit_report envelope_kind_mismatch_report (opt cli "out");
    mret EXIT_FAIL
  else if str_contains "wrapper has unknown field" text || str_contains "wrapper must be a JSON object" text
          || str_contains "wrapper `kind` must be a string" text then fails e
  else
    raw ← attempt (load_proof_bytes_raw proof_path);
    match raw with
    | Err _ => fails e
    | Ok raw =>
        statuses ← load_statuses_lenient cli;
        r ← (λ w, r ← verify_proof raw (cli_ctx cli c vp statuses); Some (Ok r, w));
        match r with
        | Ok report => _ ← emit_report report (opt cli "out"); mret (verdict_exit report)
        | Err _ =>
            _ ← emit_report (malformed_report "PARSE" ErrorCode.Malformed) (opt cli "out");
            mret EXIT_FAIL
        end
    end.

(** A proof that loads. *)
Definition verify_loaded (cli : Cli) (c : CommonInputs) (vp : VerifierPolicy)
    (seen_req : option SeenRequest) (proof : LoadedProof) : Cmd Z :=
  statuses ← load_statuses cli;
  report ← fuelled (verify_proof (lp_canonical proof) (cli_ctx cli c vp statuses));
  _ ← emit_report report (opt cli "out");
  if strict_mode cli && negb (is_currently_acceptable report) then mret EXIT_FAIL else
  let base := verdict_exit report in
  if negb (base =? EXIT_OK)%Z then mret base else
  match seen_req with
  | None => mret base
  | Some req =>
      replayed ← gate req (prf_proof_id (lp_proof proof));
      mret (if (replayed : bool) then EXIT_FAIL else base)
  end.

Definition verify (cli : Cli) : Cmd Z :=
  c ← pure (common cli);
  vp ← pure (verifier_policy cli);
  seen_req ← pure (seen_request cli);
  path ← pure (proof_path cli);
  loaded ← attempt (load_proof path);
  match loaded with
  | Ok proof => verify_loaded cli c vp seen_req proof
  | Err e => verify_unloaded cli c vp path e
  end.

(** The members that a strict mode fails: valid but not current. *)
Definition currency_failed (report : VerifyReport) : bool :=
  passed_crypto report && bool_decide (evidence_validity report = Validity.Valid)
  && negb (is_currently_acceptable report).
Definition write_document (d : Document) (out : option string) : Cmd () :=
  match out with
  | None => print (PrintedDocument d)
  | Some path =>
      if bool_decide (path = "-") then print (PrintedDocument d)
      else write_file path (as_bytes (document_text d) ++ line_end)
  end.
Definition batch_verify (cli : Cli) : Cmd Z :=
  paths ← pure (input_list cli "proofs");
  _ ← pure (check (negb (bool_decide (paths = []))) Other);
  c ← pure (common cli);
  statuses ← load_statuses cli;
  max_batch ← pure (opt_u64 cli "max-batch");
  proofs ← each load_proof paths;
  vp ← pure (verifier_policy cli);
  rep ← fuelled (verify_batch (map lp_canonical proofs) (cli_ctx cli c vp statuses) (default 256 max_batch));
  let strict := strict_mode cli in
  let reports := map bm_report (br_members rep) in
  let failed := if strict then len (List.filter currency_failed reports) else 0 in
  _ ← write_document (BatchDoc rep (len (List.filter is_currently_acceptable reports)) failed) (opt cli "out");
  if strict && (0 <? failed) then mret EXIT_FAIL
  else mret (if all_valid rep then EXIT_OK else EXIT_FAIL).

(** The notes that the prose of [evaluate] carries on the standard output. *)
Definition currency_note (cli : Cli) : string :=
  "  note: " +:+ (if has cli "production" then "--production" else "--strict-current") +:+
  ": SUPERSEDED or unverified-provenance present -> FAIL (historically valid, not currently acceptable; policy outcome preserved above)".
Definition replay_note : string :=
  "  note: --seen-store: replay detected -> FAIL (decision above stands; the reuse, not the proof, is refused)".

Definition evaluate (cli : Cli) (explain : bool) : Cmd Z :=
  path ← pure (proof_path cli);
  proof ← load_proof path;
  c ← pure (common cli);
  seen_req ← pure (seen_request cli);
  policy_path ← pure (req cli "policy");
  policy_text ← read_input_file policy_path;
  _ ← pure (check (negb (str_contains "REPLACE_WITH" policy_text)) Other);
  policy_val ← parse_json policy_path policy_text;
  policy ← engine (parse_policy policy_val limits);
  statuses ← load_statuses cli;
  vp ← pure (verifier_policy cli);
  report ← fuelled (verify_proof (lp_canonical proof) (cli_ctx cli c vp statuses));
  state ← engine (state_from_report_and_proof report (lp_proof proof));
  outcome ← fuelled (Ok <$> evaluate_policy state policy (cli_inputs cli c));
  _ ← match opt cli "out" with Some path => emit_report report (Some path) | None => mret () end;
  _ ← print (PrintedDocument ((if has cli "json" then DecisionDoc else DecisionProse) outcome report explain));
  let prose := negb explain && negb (has cli "json") in
  let note text : Cmd () := if prose then print (PrintedText text) else mret () in
  if strict_mode cli && negb (is_currently_acceptable report)
  then _ ← note (currency_note cli); mret EXIT_FAIL else
  match po_decision outcome, seen_req with
  | PolicyDecision.Pass, Some req =>
      replayed ← gate req (prf_proof_id (lp_proof proof));
      if (replayed : bool) then _ ← note replay_note; mret EXIT_FAIL else mret EXIT_OK
  | PolicyDecision.Pass, None => mret EXIT_OK
  | PolicyDecision.Fail, _ | PolicyDecision.Indeterminate, _ => mret EXIT_FAIL
  end.

(** * Making *)

Definition created_event (content : EventContent) : Cmd CreatedEvent :=
  engine (create_event content limits).
Definition created_evidence (content : Evidence) : Cmd CreatedEvidence :=
  engine (make_evidence (evd_kind content) (evd_digest content) (evd_attestation_ref content)
            (evd_hint content) limits).
Definition created_relationship (content : Relationship) : Cmd CreatedRelationship :=
  engine (make_relationship content limits).

Definition proposition_flags (cli : Cli) : CliResult Proposition_ :=
  context ← parse_fields (opt cli "context");
  kind ← req cli "kind";
  subject ← req cli "subject";
  predicate ← req cli "predicate";
  at_time ← opt_u64 cli "at-time";
  Ok {| prop_v := 1; prop_kind := kind; prop_subject := subject; prop_predicate := predicate;
        prop_object := opt cli "object"; prop_at_time := at_time; prop_context := context |}.

(** [build], named after the command: [build] is the builder of proof-verify. *)
Definition build_command (cli : Cli) : Cmd string :=
  proposition ← pure (proposition_flags cli);
  created_at ← pure (req_u64 cli "created-at");
  let b := builder_new proposition created_at in
  events ← pure (input_list cli "events");
  events ← each (λ path, load_event path ≫= created_event) events;
  let b := foldl add_event b events in
  attestations ← pure (input_list cli "attestations");
  attestations ← each load_attestation attestations;
  let b := foldl add_attestation b attestations in
  evidence ← pure (opt_input_list cli "evidence");
  evidence ← each (λ path, load_evidence path ≫= created_evidence) evidence;
  let b := foldl add_evidence b evidence in
  relationships ← pure (opt_input_list cli "relationships");
  relationships ← each (λ path, load_relationship path ≫= created_relationship) relationships;
  let b := foldl add_relationship b relationships in
  built ← engine (build b limits);
  out ← pure (req cli "out");
  _ ← write_proof_file out (bp_id built) (bp_canonical built);
  _ ← (if bool_decide (out = "-") then mret ()
       else print (PrintedText ("proof   " +:+ bp_id built +:+ " -> " +:+ out)));
  mret (bp_id built).

(** The requirements of a template, with the name of its policy. *)
Definition leaf (type : string) (fields : list (string * json)) : json :=
  json_of (JObject (("type", json_of (JString type)) :: fields)).
Definition text_field (key value : string) : string * json := (key, json_of (JString value)).
Definition template_policy (template issuer rel evkind : string) : option (string * list json) :=
  let signature := leaf "signature_valid" [] in
  let trusted := leaf "issuer_trusted" [text_field "issuer" issuer] in
  let not_expired := leaf "not_expired" [] in
  let not_revoked := leaf "not_revoked" [] in
  let related := leaf "relationship_exists" [text_field "relationship" rel] in
  let evidenced := leaf "evidence_present" [text_field "kind" evkind] in
  if bool_decide (template ∈ ["standard"; "settlement"]) then
    Some ("standard_v1", [signature; trusted; not_expired; not_revoked; related; evidenced])
  else if bool_decide (template ∈ ["strict"; "strict-document"]) then
    Some ("strict_v1", [signature; trusted; not_expired; not_revoked; leaf "not_superseded" [];
                        related; evidenced])
  else if bool_decide (template ∈ ["fresh"; "fresh-only"]) then
    Some ("fresh_v1", [signature; trusted;
      leaf "proof_fresh" [("max_age_seconds", json_of (JNumber (Some 3600)))]])
  else if bool_decide (template ∈ ["basic"; "basic-payment"]) then
    Some ("basic_v1", [signature; trusted; related])
  else if bool_decide (template = "minimal") then
    Some ("minimal_v1", [signature; trusted; not_expired; not_revoked])
  else None.
(** Whether a template lacks the vocabulary it pins. *)
Definition vocabulary_missing (template : string) (has_proof has_rel has_kind : bool) : bool :=
  bool_decide (template ∈ ["standard"; "settlement"; "strict"; "strict-document"; "basic"; "basic-payment"])
  && negb has_proof
  && (if bool_decide (template = "basic-payment") then negb has_rel else negb (has_rel && has_kind)).
Definition policy_document (policy_id : string) (requirements : list json) : json :=
  json_of (JObject [("policy_version", json_of (JNumber (Some 1)));
    ("policy_id", json_of (JString policy_id)); ("requirements", json_of (JArray requirements))]).

Definition policy_issuer (cli : Cli) : Cmd string :=
  match opt cli "attestation" with
  | Some att_path =>
      text ← read_input_file att_path;
      v ← parse_json att_path text;
      pure (ok_or (entry v "issuer" ≫= text_of) Other)
  | None => pure (req cli "issuer")
  end.
(** The vocabulary of the first members of a proof. *)
Definition inferred_vocabulary (cli : Cli) : Cmd (option string * option string) :=
  match opt cli "proof" with
  | Some path =>
      loaded ← load_proof path;
      mret (rel_type <$> head (prf_relationships (lp_proof loaded)),
            evd_kind <$> head (prf_evidence (lp_proof loaded)))
  | None => mret (None, None)
  end.
Definition init_policy (cli : Cli) : Cmd string :=
  issuer ← policy_issuer cli;
  _ ← pure (check (starts_with "key:ed25519:" issuer || starts_with "key:p256:" issuer) Other);
  _ ← pure (check (negb (str_contains "REPLACE_WITH" issuer)) Other);
  let template := default "standard" (opt cli "template") in
  '(infer_rel, infer_kind) ← inferred_vocabulary cli;
  let rel := default "SETTLES" (or_else (opt cli "relationship") infer_rel) in
  let evkind := default "transaction_record" (or_else (opt cli "evidence-kind") infer_kind) in
  _ ← pure (check (negb (vocabulary_missing template (bool_decide (is_Some (opt cli "proof")))
                           (bool_decide (is_Some (opt cli "relationship")))
                           (bool_decide (is_Some (opt cli "evidence-kind"))))) Other);
  '(policy_id, requirements) ← pure (ok_or (template_policy template issuer rel evkind) Other);
  let policy_val := policy_document policy_id requirements in
  _ ← engine (parse_policy policy_val limits);
  out ← pure (req cli "out");
  _ ← write_json out policy_val;
  mret out.
End deciding.

(** * Texts *)

Lemma str_contains_spec needle s :
  str_contains needle s = true ↔ ∃ before after, s = before +:+ needle +:+ after.
Proof.
  split.
  - induction s as [|c s IH]; cbn [str_contains].
    + rewrite orb_false_r. intros [after Ha]%starts_with_spec. by exists "", after.
    + intros [[after Ha]%starts_with_spec|(before & after & ->)%IH]%orb_true_iff.
      * by exists "", after.
      * by exists (String c before), after.
  - intros (before & after & ->). induction before as [|c before IH].
    + rewrite str_app_nil. assert (starts_with needle (needle +:+ after) = true) as Hs
        by (apply starts_with_spec; by exists after).
      by destruct (needle +:+ after); cbn [str_contains]; rewrite Hs.
    + rewrite str_app_cons. cbn [str_contains]. by rewrite IH, orb_true_r.
Qed.
(** A needle in a part of the text is in the text. *)
Lemma str_contains_part needle before part after :
  str_contains needle part = true → str_contains needle (before +:+ part +:+ after) = true.
Proof.
  intros (a & b & ->)%str_contains_spec. apply str_contains_spec. exists (before +:+ a), (b +:+ after).
  by rewrite !str_app_assoc.
Qed.

Lemma str_contains_end needle before part :
  str_contains needle part = true → str_contains needle (before +:+ part) = true.
Proof.
  intros (a & b & ->)%str_contains_spec. apply str_contains_spec. exists (before +:+ a), b.
  by rewrite !str_app_assoc.
Qed.

(** The command line and the request router agree on currency. *)
Lemma currency_agrees report : is_currently_acceptable report = currently_acceptable report.
Proof. done. Qed.

Lemma verdict_exit_ok report :
  verdict_exit report = EXIT_OK ↔
  cryptographic_validity report = Validity.Valid ∧ evidence_validity report = Validity.Valid.
Proof.
  unfold verdict_exit, passed_crypto. repeat case_bool_decide; naive_solver.
Qed.

(** * Loading a proof *)

Section loading_facts.
Context `{SerdeJsonReader, Os, CliTexts, Hex, Base64Url}.

(** The texts of a refused wrapper that [verify] recognizes. *)
Definition tampered (text : string) : bool :=
  str_contains "envelope id mismatch" text || str_contains "envelope kind mismatch" text.
Definition bad_wrapper (text : string) : bool :=
  str_contains "wrapper has unknown field" text || str_contains "wrapper must be a JSON object" text
  || str_contains "wrapper `kind` must be a string" text.
Definition not_a_proof (bytes : list byte) : Prop :=
  ∀ value proof, decode_strict bytes limits = Ok value → cbor_to_proof value limits ≠ Ok proof.

(** Why a wrapper is refused: a text the command recognizes, no bytes, or bytes
    that are not a proof. *)
Lemma unwrap_proof_Err label v e :
  unwrap_proof label v = Err e →
  (∃ text, e = Said text ∧ (tampered text = true ∨ bad_wrapper text = true)) ∨
  cbor_field label v = Err e ∨
  ∃ bytes, cbor_field label v = Ok bytes ∧ not_a_proof bytes.
Proof.
  unfold unwrap_proof. intros Hu. apply bind_Err in Hu as [Hu|([] & _ & Hu)].
  { left. unfold reject_unknown_wrapper_fields in Hu. destruct (as_object v) as [obj|].
    - destruct (sort_by _ _) as [|key rest]; [done|]. injection Hu as <-. eexists. split; [done|].
      right. unfold bad_wrapper. by rewrite (str_contains_part "wrapper has unknown field").
    - injection Hu as <-. eexists. split; [done|]. right. unfold bad_wrapper.
      by rewrite (str_contains_end "wrapper must be a JSON object"), orb_true_r. }
  apply bind_Err in Hu as [Hu|([] & _ & Hu)].
  { left. unfold kind_field in Hu. destruct (entry v "kind") as [k|]; [|done].
    destruct (text_of k) as [kind|].
    - case_bool_decide; [done|]. injection Hu as <-. eexists. split; [done|]. left. unfold tampered.
      by rewrite (str_contains_part "envelope kind mismatch"), orb_true_r.
    - injection Hu as <-. eexists. split; [done|]. right. unfold bad_wrapper.
      by rewrite (str_contains_end "wrapper `kind` must be a string"), !orb_true_r. }
  apply bind_Err in Hu as [Hu|(bytes & Hb & Hu)]; [right; by left|].
  assert (∀ {A} (r : Result A) e, refused label bytes r = Err e → ∀ a, r ≠ Ok a) as Hrf
    by (intros A [x|x] e' Hr a; [done|congruence]).
  apply bind_Err in Hu as [Hu|(value & Hd & Hu)].
  { right; right. exists bytes. split; [done|]. intros value proof Hd. by destruct (Hrf _ _ _ Hu value). }
  apply bind_Err in Hu as [Hu|(proof & Hc & Hu)].
  { right; right. exists bytes. split; [done|]. intros value' proof Hd'.
    assert (value' = value) as ->; [|by apply (Hrf _ _ _ Hu)].
    unfold refused in Hd. rewrite Hd' in Hd. congruence. }
  left. destruct (entry v "id" ≫= text_of) as [claimed|]; [|done]. case_bool_decide; [|done].
  injection Hu as <-. eexists. split; [done|]. left. unfold tampered.
  by rewrite (str_contains_part "envelope id mismatch").
Qed.

Lemma unwrap_proof_Ok label v loaded :
  unwrap_proof label v = Ok loaded →
  cbor_field label v = Ok (lp_canonical loaded) ∧
  ∃ value, decode_strict (lp_canonical loaded) limits = Ok value ∧
    cbor_to_proof value limits = Ok (lp_proof loaded).
Proof.
  assert (∀ {A} b (r : Result A) a, refused label b r = Ok a → r = Ok a) as Hrf
    by (intros A b [x|x] a; unfold refused; congruence).
  unfold unwrap_proof. intros Hu. apply bind_Ok in Hu as ([] & _ & Hu).
  apply bind_Ok in Hu as ([] & _ & Hu). apply bind_Ok in Hu as (bytes & Hb & Hu).
  apply bind_Ok in Hu as (value & Hd%Hrf & Hu). apply bind_Ok in Hu as (proof & Hp%Hrf & Hu).
  assert (loaded = {| lp_canonical := bytes; lp_proof := proof |}) as ->; [|by eauto].
  destruct (entry v "id" ≫= text_of); [case_bool_decide; [done|]|]; congruence.
Qed.
End loading_facts.

(** * Reading twice *)

Section rereading.
Context `{SerdeJsonBuilderLaws, Os, CliTexts, Hex, Base64UrlLaws}.

(** The standard input is read to its end. *)
Definition stdin_fits (w : World) (path : string) : Prop :=
  path = "-" → ∀ input, w_stdin w = Some input → len input <= MAX_INPUT_FILE_BYTES.

Lemma drop_n_all {A} n (l : list A) : len l <= n → drop_n n l = [].
Proof.
  revert n. induction l as [|x l IH]; intros n Hn; [done|]. cbn [drop_n]. rewrite len_cons in Hn.
  rewrite (proj2 (N.eqb_neq _ _)) by lia. apply IH. lia.
Qed.

(** A file is read again as before. *)
Lemma read_file_same path w :
  path ≠ "-" → ∃ r, read_input_text path w = Some (r, w).
Proof.
  intros Hp. unfold read_input_text. rewrite bool_decide_eq_false_2 by done.
  unfold read_input_file, read_file_bytes, mbind, cmd_bind, get_world, fails, pure, utf8_text, pure.
  destruct (if can_read path then _ else _) as [content|]; [|by eexists]. cbn zeta.
  destruct (_ <? _); [by eexists|]. unfold mret, cmd_ret. destruct (ok_or _ _); by eexists.
Qed.
(** The standard input is not. *)
Lemma read_stdin_rest w r w1 :
  stdin_fits w "-" → read_input_text "-" w = Some (r, w1) →
  ∃ e w2, load_proof_bytes_raw "-" w1 = Some (Err e, w2).
Proof.
  intros Hfit Hr. specialize (Hfit eq_refl).
  assert (w_stdin w1 = None ∨ w_stdin w1 = Some []) as Hw1.
  { unfold read_input_text in Hr. rewrite bool_decide_eq_true_2 in Hr by done.
    unfold read_stdin_text, read_stdin_bytes, mbind, cmd_bind in Hr.
    destruct (w_stdin w) as [input|] eqn:Hi; [|injection Hr as _ <-; by left]. right.
    specialize (Hfit _ eq_refl). rewrite take_n_all, drop_n_all in Hr by lia.
    rewrite (proj2 (N.ltb_ge _ _)) in Hr by lia. unfold utf8_text, pure in Hr.
    destruct (ok_or _ _); injection Hr as _ <-; done. }
  unfold load_proof_bytes_raw, read_input_text. rewrite bool_decide_eq_true_2 by done.
  unfold read_stdin_text, read_stdin_bytes, mbind, cmd_bind.
  destruct Hw1 as [-> | ->]; [by do 2 eexists|]. cbn.
  rewrite (proj2 (N.ltb_ge _ _)) by done. unfold utf8_text, pure, from_utf8. cbn [ok_or utf8_valid].
  unfold parse_json, pure, mret, cmd_ret. rewrite as_of_bytes, json_empty. by do 2 eexists.
Qed.

Lemma unloaded_raw path w e w1 :
  load_proof path w = Some (Err e, w1) → stdin_fits w path →
  (∃ text, e = Said text ∧ (tampered text = true ∨ bad_wrapper text = true)) ∨
  (∃ e' w2, load_proof_bytes_raw path w1 = Some (Err e', w2)) ∨
  (∃ bytes w2, load_proof_bytes_raw path w1 = Some (Ok bytes, w2) ∧ not_a_proof bytes).
Proof.
  intros Hl Hfit. destruct (decide (path = "-")) as [->|Hp].
  - right; left. unfold load_proof in Hl.
    destruct (read_input_text "-" w) as [[r w0]|] eqn:Hr;
      [|unfold mbind, cmd_bind in Hl; by rewrite Hr in Hl].
    assert (w1 = w0) as ->; [|by eapply read_stdin_rest].
    unfold mbind, cmd_bind in Hl. rewrite Hr in Hl. destruct r as [[text label]|]; [|congruence].
    unfold parse_json, pure in Hl. destruct (ok_or _ _); congruence.
  - destruct (read_file_same path w Hp) as [r Hr]. unfold load_proof in Hl.
    unfold mbind, cmd_bind in Hl. rewrite Hr in Hl.
    unfold load_proof_bytes_raw, mbind, cmd_bind. 
    destruct r as [[text label]|e']; [|injection Hl as <- <-; rewrite Hr; by eauto].
    unfold parse_json, pure in *. destruct (ok_or _ _) as [v|e'] eqn:Hj; [|injection Hl as <- <-; rewrite Hr, Hj; by eauto].
    injection Hl as Hu <-. rewrite Hr, Hj. destruct (unwrap_proof_Err _ _ _ Hu) as [?|[Hc|(bytes & Hc & Hn)]];
      [by left|right; left|right; right]; rewrite Hc; by eauto.
Qed.
End rereading.

(** * What exit code 0 means *)

Section exit_codes.
Context `{SerdeJsonBuilderLaws, Os, CliTexts, Hex, Base64UrlLaws, Sha2, SignatureSchemes, HashOrderLaws}.

(** Bytes that are not a proof are never reported valid. *)
Lemma not_a_proof_fails bytes ctx report :
  ctx_limits ctx = limits → not_a_proof bytes → verify_proof bytes ctx = Some (Ok report) →
  verdict_exit report ≠ EXIT_OK.
Proof.
  intros Hl Hn Hv [Hc _]%verdict_exit_ok. apply (cryptographic_validity_spec _ _ _ Hv) in Hc.
  destruct Hc as (proof & (value & Hd & Hp) & _). rewrite Hl in Hd, Hp. by apply (Hn value proof).
Qed.

Lemma attempt_run {A} (m : Cmd A) w r w' : m w = Some (r, w') → attempt m w = Some (Ok r, w').
Proof. unfold attempt. by intros ->. Qed.

(** The fallback for a proof that does not load never accepts. *)
Lemma unloaded_not_accepted cli c vp path w e w1 w' :
  load_proof path w = Some (Err e, w1) → stdin_fits w path →
  verify_unloaded cli c vp path e w1 ≠ Some (Ok EXIT_OK, w').
Proof.
  intros Hl Hfit Hv. unfold verify_unloaded in Hv. cbn zeta in Hv.
  set (text := match e with Said text => text | Other => "" end) in Hv.
  destruct (str_contains "envelope id mismatch" text) eqn:Hid.
  { destruct (default _ _) as [claimed actual]. cmd_inv. }
  destruct (str_contains "envelope kind mismatch" text) eqn:Hk; [cmd_inv|].
  destruct (_ || _) eqn:Hb; [cmd_inv|].
  destruct (unloaded_raw path w e w1 Hl Hfit) as [(t & -> & Ht)|Hraw].
  { unfold tampered, bad_wrapper in Ht. cbn in text. subst text. rewrite Hid, Hk, Hb in Ht.
    by destruct Ht. }
  destruct Hraw as [(e' & w2 & Hr)|(bytes & w2 & Hr & Hn)];
    rewrite (cmd_bind_run _ _ _ _ w2 (attempt_run _ _ _ _ Hr)) in Hv; [by cmd_inv|].
  cmd_inv. match goal with Hp : mbind _ _ = Some (Ok _, _) |- _ =>
    apply bind_Some in Hp as (r & Hp & [= <- <-]) end.
  destruct r as [report|]; cmd_inv. by apply (not_a_proof_fails bytes (cli_ctx cli c vp a) report).
Qed.

(** What has to happen for [verify] to accept. *)
Definition verify_accepts (cli : Cli) (w w' : World) : Prop :=
  ∃ c vp seen path proof w1 statuses w2 report w3,
    common cli = Ok c ∧ verifier_policy cli = Ok vp ∧ seen_request cli = Ok seen ∧
    proof_path cli = Ok path ∧ load_proof path w = Some (Ok proof, w1) ∧
    load_statuses cli w1 = Some (Ok statuses, w2) ∧
    verify_proof (lp_canonical proof) (cli_ctx cli c vp statuses) = Some (Ok report) ∧
    (cryptographic_validity report = Validity.Valid ∧ evidence_validity report = Validity.Valid) ∧
    (strict_mode cli = true → is_currently_acceptable report = true) ∧
    emit_report report (opt cli "out") w2 = Some (Ok (), w3) ∧
    match seen with
    | None => w' = w3
    | Some req => gate req (prf_proof_id (lp_proof proof)) w3 = Some (Ok false, w')
    end.

Lemma verify_loaded_accepts cli c vp seen proof w1 w' :
  verify_loaded cli c vp seen proof w1 = Some (Ok EXIT_OK, w') ↔
  ∃ statuses w2 report w3,
    load_statuses cli w1 = Some (Ok statuses, w2) ∧
    verify_proof (lp_canonical proof) (cli_ctx cli c vp statuses) = Some (Ok report) ∧
    (cryptographic_validity report = Validity.Valid ∧ evidence_validity report = Validity.Valid) ∧
    (strict_mode cli = true → is_currently_acceptable report = true) ∧
    emit_report report (opt cli "out") w2 = Some (Ok (), w3) ∧
    match seen with
    | None => w' = w3
    | Some req => gate req (prf_proof_id (lp_proof proof)) w3 = Some (Ok false, w')
    end.
Proof.
  unfold verify_loaded. split.
  - intros Hv. cmd_inv. destruct (strict_mode cli && _) eqn:Hst; [cmd_inv|].
    destruct (negb (verdict_exit _ =? EXIT_OK)%Z) eqn:Hx.
    { cmd_inv. match goal with He : verdict_exit _ = EXIT_OK |- _ => by rewrite He in Hx end. }
    apply negb_false_iff, Z.eqb_eq in Hx. pose proof Hx as Hok%verdict_exit_ok.
    do 4 eexists. split; [eassumption|]. split; [eassumption|]. split; [exact Hok|].
    split; [intros Hs; rewrite Hs in Hst; by apply negb_false_iff in Hst|]. split; [eassumption|].
    destruct seen as [req|]; cmd_inv; [|done].
    match goal with Hr : (if ?b then _ else _) = EXIT_OK |- _ => destruct b end; done.
  - intros (statuses & w2 & report & w3 & Hs & Hv & Hok%verdict_exit_ok & Hst & He & Hg).
    rewrite (cmd_bind_run _ _ _ _ _ Hs). erewrite cmd_bind_run; [|by apply fuelled_Ok].
    rewrite (cmd_bind_run _ _ _ _ _ He).
    assert (strict_mode cli && negb (is_currently_acceptable report) = false) as ->
      by (destruct (strict_mode cli); [by rewrite Hst|done]).
    rewrite Hok. cbn [negb Z.eqb EXIT_OK]. destruct seen as [req|]; [|by subst].
    by rewrite (cmd_bind_run _ _ _ _ _ Hg).
Qed.

Lemma verify_accepts_iff cli w w'
  (Hfit : ∀ path, proof_path cli = Ok path → stdin_fits w path) :
  verify cli w = Some (Ok EXIT_OK, w') ↔ verify_accepts cli w w'.
Proof.
  unfold verify, verify_accepts. split.
  - intros Hv. cmd_inv. unfold attempt in Ha3.
    match goal with Hp : proof_path cli = Ok ?path |- _ =>
      specialize (Hfit _ Hp); destruct (load_proof path w) as [[[proof|e] w1]|] eqn:Hl end; [| |done].
    + simplify_eq. apply verify_loaded_accepts in Hv as (statuses & w2 & report & w3 & Hv).
      do 10 eexists. do 5 (split; [eassumption|]). exact Hv.
    + simplify_eq. by apply (unloaded_not_accepted _ _ _ _ _ _ _ _ Hl Hfit) in Hv.
  - intros (c & vp & seen & path & proof & w1 & statuses & w2 & report & w3 & Hc & Hvp & Hse & Hp & Hl & Hv).
    erewrite cmd_bind_run; [|by apply pure_Ok]. erewrite cmd_bind_run; [|by apply pure_Ok].
    erewrite cmd_bind_run; [|by apply pure_Ok]. erewrite cmd_bind_run; [|by apply pure_Ok].
    erewrite cmd_bind_run; [|by apply attempt_run]. apply verify_loaded_accepts. by do 4 eexists.
Qed.

(** C9: what exit code 0 of [verify] means.  Unless the proof comes from more than
    8 MiB of standard input, [verify] exits with 0 exactly when the wrapper loads
    as a proof, every status file loads, the report on its bytes is valid in both
    dimensions, a strict mode finds it current, and the replay guardrail, when
    asked for, has not seen it: no wrapper that is refused is ever accepted by the
    fallback for malformed proofs. *)
Theorem verify_exit_ok cli w w'
  (Hfit : ∀ path, proof_path cli = Ok path → stdin_fits w path) :
  verify cli w = Some (Ok EXIT_OK, w') ↔ verify_accepts cli w w'.
Proof. by apply verify_accepts_iff. Qed.

Lemma take_drop_n_app {A} (l k : list A) : take_n (len l) (l ++ k) = l ∧ drop_n (len l) (l ++ k) = k.
Proof.
  induction l as [|x l [IHt IHd]]; [by destruct k|]. cbn [app take_n drop_n].
  assert (len (x :: l) - 1 = len l ∧ len (x :: l) ≠ 0) as [-> Hn%N.eqb_neq] by (rewrite len_cons; lia).
  by rewrite Hn, IHt, IHd.
Qed.

(** C40: the size cap of the standard input can be stepped over.  When the proof is
    read from the standard input and a first part of 8 MiB and one byte precedes a
    wrapper, the first read refuses the input, the fallback for malformed proofs
    reads the wrapper that follows, and the exit code is the bare verdict on its
    bytes: neither the strict modes nor the replay guardrail are consulted. *)
Theorem oversized_stdin_accepted cli c vp seen w junk rest v bytes report
  (Hc : common cli = Ok c) (Hvp : verifier_policy cli = Ok vp) (Hs : seen_request cli = Ok seen)
  (Hp : proof_path cli = Ok "-") (Hin : w_stdin w = Some (junk ++ rest))
  (Hj : len junk = MAX_INPUT_FILE_BYTES + 1) (Hl : len rest <= MAX_INPUT_FILE_BYTES)
  (Hu : utf8_valid rest = true) (Hv : json_from_slice rest = Some v)
  (Hb : cbor_field "stdin" v = Ok bytes) (Hst : many cli "status" = []) (Ho : opt cli "out" = None)
  (Hr : verify_proof bytes (cli_ctx cli c vp []) = Some (Ok report)) :
  ∃ w', verify cli w = Some (Ok (verdict_exit report), w') ∧ w_files w' = w_files w.
Proof.
  pose proof (take_drop_n_app junk rest) as [Ht Hd]. rewrite Hj in Ht, Hd.
  set (w1 := mkWorld _ (w_files w) (Some rest) (w_stdout w)).
  assert (load_proof "-" w = Some (Err (Said "stdin: input too large"), w1)) as Hload.
  { unfold load_proof, read_input_text. rewrite bool_decide_eq_true_2 by done.
    unfold read_stdin_text, read_stdin_bytes, mbind, cmd_bind. rewrite Hin, Ht, Hd.
    by rewrite (proj2 (N.ltb_lt _ _)) by lia. }
  assert (∃ w2, load_proof_bytes_raw "-" w1 = Some (Ok bytes, w2) ∧ w_files w2 = w_files w) as (w2 & Hraw & Hw2).
  { unfold load_proof_bytes_raw, read_input_text. rewrite bool_decide_eq_true_2 by done.
    unfold read_stdin_text, read_stdin_bytes, mbind, cmd_bind. cbn [w_stdin w1].
    rewrite take_n_all, drop_n_all by lia. rewrite (proj2 (N.ltb_ge _ _)) by lia.
    unfold utf8_text, pure, from_utf8. rewrite Hu. cbn [ok_or]. unfold mret, cmd_ret, parse_json, pure.
    rewrite as_of_bytes, Hv. cbn [ok_or]. rewrite Hb. by eexists. }
  unfold verify. erewrite cmd_bind_run; [|by apply pure_Ok]. erewrite cmd_bind_run; [|by apply pure_Ok].
  erewrite cmd_bind_run; [|by apply pure_Ok]. erewrite cmd_bind_run; [|by apply pure_Ok].
  erewrite cmd_bind_run; [|by apply attempt_run]. unfold verify_unloaded.
  change (str_contains "envelope id mismatch" "stdin: input too large") with false.
  change (str_contains "envelope kind mismatch" "stdin: input too large") with false. cbn iota.
  change (str_contains "wrapper has unknown field" "stdin: input too large"
    || str_contains "wrapper must be a JSON object" "stdin: input too large"
    || str_contains "wrapper `kind` must be a string" "stdin: input too large") with false. cbn iota.
  erewrite cmd_bind_run; [|by apply attempt_run].
  assert (load_statuses_lenient cli w2 = Some (Ok [], w2)) as Hls
    by (unfold load_statuses_lenient; by rewrite Hst).
  cbn beta iota. rewrite (cmd_bind_run _ _ _ _ _ Hls).
  erewrite (cmd_bind_run _ _ _ (Ok report) w2); [|by rewrite Hr].
  rewrite Ho. eexists. split; [reflexivity|]. exact Hw2.
Qed.
End exit_codes.

(** * Replay *)

Section reading.
Context `{SerdeJson}.

(** A command that only reads the given files: its result depends on nothing else
    and the world stays as it is. *)
Definition reads_only {A} (paths : list string) (m : Cmd A) : Prop :=
  ∀ w w', (∀ p, p ∈ paths → w_files w !! p = w_files w' !! p) →
    ∃ o, m w = (λ r, (r, w)) <$> o ∧ m w' = (λ r, (r, w')) <$> o.

Lemma reads_pure {A} paths (r : CliResult A) : reads_only paths (pure r).
Proof. intros w w' _. by exists (Some r). Qed.
Lemma reads_engine {A} paths (r : Result A) : reads_only paths (engine r).
Proof. apply reads_pure. Qed.
Lemma reads_ret {A} paths (a : A) : reads_only paths (mret a).
Proof. exact (reads_pure paths (Ok a)). Qed.
Lemma reads_bind {A B} paths (m : Cmd A) (f : A → Cmd B) :
  reads_only paths m → (∀ a, reads_only paths (f a)) → reads_only paths (m ≫= f).
Proof.
  intros Hm Hf w w' Heq. destruct (Hm w w' Heq) as (o & Hw & Hw').
  unfold mbind, cmd_bind. rewrite Hw, Hw'. destruct o as [[a|e]|]; cbn [fmap option_fmap option_map].
  - apply (Hf a w w' Heq).
  - by exists (Some (Err e)).
  - by exists None.
Qed.
Lemma reads_weaken {A} paths paths' (m : Cmd A) :
  paths ⊆ paths' → reads_only paths m → reads_only paths' m.
Proof. intros Hs Hm w w' Heq. apply Hm. intros p Hp. apply Heq. by apply Hs. Qed.
Lemma reads_each {A} (f : string → Cmd A) l :
  (∀ p, p ∈ l → reads_only [p] (f p)) → reads_only l (each f l).
Proof.
  induction l as [|p l IH]; intros Hf; cbn [each]; [apply reads_ret|].
  apply reads_bind; [eapply reads_weaken; [|apply Hf; left]; set_solver|]. intros a.
  apply reads_bind; [|intros; apply reads_ret]. eapply reads_weaken; [|apply IH].
  - set_solver.
  - intros q Hq. apply Hf. by right.
Qed.

Lemma reads_twice {A} paths (m : Cmd A) w a w1 w' :
  reads_only paths m → (∀ p, p ∈ paths → w_files w !! p = w_files w' !! p) →
  m w = Some (Ok a, w1) → w1 = w ∧ m w' = Some (Ok a, w').
Proof.
  intros Hm Heq Hw. destruct (Hm w w' Heq) as (o & Ho & ->). rewrite Hw in Ho.
  destruct o as [r|]; [|done]. cbn in Ho. injection Ho as <- ->. done.
Qed.
End reading.
#[local] Hint Resolve reads_pure reads_engine reads_ret : core.

Section loader_reads.
Context `{SerdeJsonReader, Os, CliTexts, Hex, Base64Url, Sha2, SignatureSchemes}.

Lemma reads_text path : path ≠ "-" → reads_only [path] (read_input_text path).
Proof.
  intros Hp. unfold read_input_text. rewrite bool_decide_eq_false_2 by done.
  apply reads_bind; [|auto]. unfold read_input_file. apply reads_bind; [|intros; apply reads_pure].
  intros w w' Heq. unfold read_file_bytes, mbind, cmd_bind, get_world.
  rewrite (Heq path) by set_solver. destruct (if can_read path then _ else _) as [content|];
    [|by eexists (Some _)]. cbn zeta. destruct (_ <? _); by eexists (Some _).
Qed.
Lemma reads_proof path : path ≠ "-" → reads_only [path] (load_proof path).
Proof.
  intros Hp. apply reads_bind; [by apply reads_text|]. intros [text label].
  apply reads_bind; [apply reads_pure|auto].
Qed.
Lemma reads_status path : path ≠ "-" → reads_only [path] (load_status path).
Proof.
  intros Hp. unfold load_status, read_wrapper, read_json.
  repeat first [apply reads_bind; [|intros] | case_match | by auto | by apply reads_text | apply reads_pure].
Qed.
Lemma reads_statuses cli : "-" ∉ many cli "status" → reads_only (many cli "status") (load_statuses cli).
Proof. intros Hn. apply reads_each. intros p Hp. apply reads_status. by intros ->. Qed.
End loader_reads.

Create HintDb keeping.

Section replay.
Context `{SerdeJsonBuilderLaws, Os, CliTexts, Hex, Base64UrlLaws, Sha2, SignatureSchemes, HashOrderLaws}.

(** The store file of a set of keys is read back to the set. *)
Lemma seen_document_read path w seen :
  can_read path = true →
  w_files w !! path = Some (as_bytes (json_pretty (seen_document seen)) ++ line_end) →
  load_seen path w = Some (Ok seen, w).
Proof.
  intros Hc Hf. set (items := map (λ s, json_of (JString s)) (sort_by str_leb (elements seen))).
  assert (NoDup (map fst [("seen", json_of (JArray items))])) as Hnd by (cbn; apply NoDup_singleton).
  destruct (json_of_object _ Hnd) as (obj & Hv & Hp).
  assert (built_value (seen_document seen)) as Hb.
  { apply built_object; [cbn; apply NoDup_singleton|]. apply Forall_singleton. cbn. constructor.
    apply Forall_map, Forall_forall. intros s _. constructor. }
  unfold load_seen, mbind, cmd_bind, get_world. rewrite Hf, Hc. unfold pure. cbn [check].
  unfold from_utf8. rewrite utf8_valid_line by apply json_pretty_utf8. cbn [ok_or]. rewrite as_of_bytes.
  unfold line_end. rewrite json_pretty_read by done. cbn [ok_or].
  assert (entry (seen_document seen) "seen" = Some (json_of (JArray items))) as ->.
  { unfold entry, as_object, seen_document. fold items. rewrite Hv. cbn.
    by rewrite (get_perm _ _ _ Hnd Hp). }
  cbn. unfold as_array. rewrite json_of_array. cbn [ok_or].
  assert (mapM text_of items = Some (sort_by str_leb (elements seen))) as ->.
  { apply mapM_Some. unfold items. apply Forall2_fmap_l, Forall_Forall2_diag, Forall_forall. intros s _.
    cbn. unfold text_of. by rewrite json_of_string. }
  cbn [ok_or]. unfold mret, cmd_ret. do 3 f_equal. apply set_eq. intros s.
  rewrite elem_of_list_to_set, (sort_by_perm str_leb (elements seen)). apply elem_of_elements.
Qed.

Lemma load_seen_same path w seen w' : load_seen path w = Some (Ok seen, w') → w' = w.
Proof.
  intros Hl. unfold load_seen in Hl. rewrite (cmd_bind_run get_world _ w w w) in Hl by done.
  destruct (w_files w !! path); cmd_inv; done.
Qed.

(** A key that was recorded is found. *)
Lemma gate_recorded req id w w' :
  gate req id w = Some (Ok false, w') → sr_record req = true → can_read (sr_store req) = true →
  ∀ w'', w_files w'' !! sr_store req = w_files w' !! sr_store req →
    gate req id w'' = Some (Ok true, w'').
Proof.
  unfold gate. intros Hg Hr Hc w'' Hf. cmd_inv. case_bool_decide; cmd_inv. rewrite Hr in *.
  unfold write_file in *. destruct (can_write (sr_store req)); [|done]. simplify_eq.
  cbn [w_files] in Hf. rewrite lookup_insert_eq in Hf.
  rewrite (cmd_bind_run _ _ _ _ _ (seen_document_read _ _ _ Hc Hf)).
  rewrite bool_decide_eq_true_2; [done|]. set_solver.
Qed.

(** Keys of ids of one length are distinct for distinct contexts or ids. *)
Lemma seen_key_inj context id context' id' :
  slen id = slen id' → seen_key context id = seen_key context' id' → context = context' ∧ id = id'.
Proof.
  unfold seen_key. intros Hlen Heq. apply (f_equal as_bytes) in Heq. rewrite !as_bytes_app, !app_assoc in Heq.
  assert (length (as_bytes id) = length (as_bytes id')) as Hl.
  { rewrite !slen_as_bytes in Hlen. unfold len in Hlen. lia. }
  apply app_inj_2 in Heq as [Hc Hi]; [|done]. apply app_inj_2 in Hc as [Hc _]; [|done].
  by split; apply as_bytes_inj.
Qed.

(** Another key is found after the recording exactly when it was before. *)
Lemma gate_others req id w w' req' id' :
  gate req id w = Some (Ok false, w') → can_read (sr_store req) = true →
  sr_store req' = sr_store req → slen id' = slen id → (sr_context req', id') ≠ (sr_context req, id) →
  (∃ w1, gate req' id' w' = Some (Ok true, w1)) ↔ (∃ w1, gate req' id' w = Some (Ok true, w1)).
Proof.
  intros Hg Hc Hst Hlen Hne.
  assert (∀ w seen, load_seen (sr_store req) w = Some (Ok seen, w) →
    (∃ w1, gate req' id' w = Some (Ok true, w1)) ↔ seen_key (sr_context req') id' ∈ seen) as Hgate.
  { intros w0 seen Hl. unfold gate. rewrite Hst, (cmd_bind_run _ _ _ _ _ Hl).
    case_bool_decide as Hin; split; try done; [by eexists|]. intros [w1 Hw]. cmd_inv. }
  unfold gate in Hg. cmd_inv.
  apply load_seen_same in Ha as Hw0. subst w0.
  case_bool_decide as Hin; cmd_inv. destruct (sr_record req); cmd_inv; [|done].
  unfold write_file in *. destruct (can_write (sr_store req)); [|done]. simplify_eq.
  rewrite (Hgate _ _ (seen_document_read _ _ _ Hc (lookup_insert_eq _ _ _))), (Hgate _ _ Ha).
  rewrite elem_of_union, elem_of_singleton. split; [|by right]. intros [Hk|]; [|done].
  apply seen_key_inj in Hk as [Hk1 Hk2]; [|done]. by rewrite Hk1, Hk2 in Hne.
Qed.

(** Writing a report works or fails whatever the world, and touches one file at
    most. *)
Lemma emit_report_files report out w w' p :
  emit_report report out w = Some (Ok (), w') → out ≠ Some p → w_files w' !! p = w_files w !! p.
Proof.
  unfold emit_report, print, write_file. intros He Hp. destruct out as [path|]; [|by simplify_eq].
  case_bool_decide; [by simplify_eq|]. destruct (can_write path); [|done]. simplify_eq. cbn [w_files].
  apply lookup_insert_ne. congruence.
Qed.
Lemma emit_report_again report out w w' w0 :
  emit_report report out w = Some (Ok (), w') → ∃ w1, emit_report report out w0 = Some (Ok (), w1).
Proof.
  unfold emit_report, print, write_file. intros He. destruct out as [path|]; [|by eexists].
  case_bool_decide; [by eexists|]. destruct (can_write path); [by eexists|done].
Qed.
Lemma gate_files req id w b w' p :
  gate req id w = Some (Ok b, w') → p ≠ sr_store req → w_files w' !! p = w_files w !! p.
Proof.
  unfold gate. intros Hg Hp. cmd_inv. apply load_seen_same in Ha as ->.
  case_bool_decide; cmd_inv; [done|]. destruct (sr_record req); cmd_inv; [|done].
  unfold write_file in *. destruct (can_write _); [|done]. simplify_eq. by apply lookup_insert_ne.
Qed.

(** The files [verify] reads are neither its output nor its store. *)
Definition separate (cli : Cli) (path store : string) : Prop :=
  let inputs := path :: many cli "status" in
  ("-" ∉ inputs) ∧ (store ∉ inputs) ∧ opt cli "out" ≠ Some store ∧ Forall (λ p, opt cli "out" ≠ Some p) inputs.

(** ** What every run does to a store *)

(** The store file holds a key. *)
Definition recorded (store k : string) (w : World) : Prop :=
  ∃ seen, load_seen store w = Some (Ok seen, w) ∧ k ∈ seen.
(** A command after which the keys of the store are still there, whatever it
    returns. *)
Definition keeps {A} (store : string) (m : Cmd A) : Prop :=
  ∀ w r w' k, m w = Some (r, w') → recorded store k w → recorded store k w'.

Lemma recorded_file store k w w' :
  w_files w' !! store = w_files w !! store → recorded store k w → recorded store k w'.
Proof.
  intros Hf (seen & Hl & Hk). exists seen. split; [|done]. revert Hl.
  unfold load_seen, mbind, cmd_bind, get_world. rewrite Hf. destruct (w_files w !! store); [|by intros [= <-]].
  unfold pure, mret, cmd_ret. repeat case_match; by intros [= <-].
Qed.
(** A store with a key is a file that can be read. *)
Lemma recorded_readable store k w : recorded store k w → can_read store = true.
Proof.
  intros (seen & Hl & Hk). unfold load_seen in Hl. rewrite (cmd_bind_run get_world _ w w w) in Hl by done.
  destruct (w_files w !! store); [cmd_inv; done|].
  injection Hl as <-. by apply (not_elem_of_empty (C:=gset string)) in Hk.
Qed.
Lemma keeps_files {A} store (m : Cmd A) :
  (∀ w r w', m w = Some (r, w') → w_files w' !! store = w_files w !! store) → keeps store m.
Proof. intros Hm w r w' k Hw. apply recorded_file. by eapply Hm. Qed.
Lemma keeps_bind {A B} store (m : Cmd A) (f : A → Cmd B) :
  keeps store m → (∀ a, keeps store (f a)) → keeps store (m ≫= f).
Proof.
  intros Hm Hf w r w' k. unfold mbind, cmd_bind. destruct (m w) as [[[a|e] w1]|] eqn:E; [| |done].
  - intros Hw Hr. eapply Hf; [done|]. by eapply Hm.
  - intros [= _ <-] Hr. by eapply Hm.
Qed.
Lemma keeps_pure {A} store (r : CliResult A) : keeps store (pure r).
Proof. by intros w r' w' k [= _ <-]. Qed.
Lemma keeps_ret {A} store (a : A) : keeps store (mret a).
Proof. apply (keeps_pure store (Ok a)). Qed.
Lemma keeps_fails {A} store e : keeps (A:=A) store (fails e).
Proof. apply keeps_pure. Qed.
Lemma keeps_engine {A} store (r : Result A) : keeps store (engine r).
Proof. apply keeps_pure. Qed.
Lemma keeps_option {A} store (o : option A) : keeps store (λ w, r ← o; Some (Ok r, w)).
Proof. intros w r w' k Hw. apply bind_Some in Hw as (x & _ & [= _ <-]). done. Qed.
Lemma keeps_fuelled {A} store (r : option (Result A)) : keeps store (fuelled r).
Proof. intros w r' w' k Hw. apply bind_Some in Hw as (x & _ & Hw). by eapply keeps_engine. Qed.
Lemma keeps_attempt {A} store (m : Cmd A) : keeps store m → keeps store (attempt m).
Proof.
  intros Hm w r w' k. unfold attempt. destruct (m w) as [[r' w1]|] eqn:E; [|done].
  intros [= _ <-]. by eapply Hm.
Qed.
Lemma keeps_each {A B} store (f : A → Cmd B) l : (∀ x, keeps store (f x)) → keeps store (each f l).
Proof.
  intros Hf. induction l as [|x l IH]; cbn [each]; [apply keeps_ret|].
  apply keeps_bind; [done|]. intros y. apply keeps_bind; [done|]. intros ys. apply keeps_ret.
Qed.
Lemma keeps_print store p : keeps store (print p).
Proof. apply keeps_files. by intros w r w' [= _ <-]. Qed.
Lemma keeps_input store path : keeps store (read_input_file path).
Proof.
  apply keeps_bind; [|intros; apply keeps_pure]. apply keeps_bind; [by intros w r w' k [= _ <-]|].
  intros w. destruct (if can_read path then _ else _); [|apply keeps_pure]. cbn zeta. case_match; [apply keeps_pure|apply keeps_ret].
Qed.
Lemma keeps_text store path : keeps store (read_input_text path).
Proof.
  unfold read_input_text. case_bool_decide; (apply keeps_bind; [|intros; apply keeps_ret]); [|apply keeps_input].
  apply keeps_bind; [|intros; apply keeps_pure]. apply keeps_files. intros w r w'. unfold read_stdin_bytes.
  destruct (w_stdin w); by intros [= _ <-].
Qed.
Lemma keeps_write store path text : path ≠ store → keeps store (write_file path text).
Proof.
  intros Hp. apply keeps_files. intros w r w'. unfold write_file. destruct (can_write path); intros [= _ <-]; [|done].
  by apply lookup_insert_ne.
Qed.
Lemma keeps_report store report out : out ≠ Some store → keeps store (emit_report report out).
Proof.
  intros Ho. unfold emit_report. destruct out as [path|]; [|apply keeps_print].
  case_bool_decide; [apply keeps_print|]. apply keeps_write. congruence.
Qed.
#[local] Hint Resolve keeps_pure keeps_ret keeps_fails keeps_engine keeps_option keeps_fuelled keeps_attempt keeps_each keeps_print
  keeps_input keeps_text keeps_report : keeping.
Ltac keeping :=
  repeat first [solve [eauto 2 with keeping] | apply keeps_bind; [|intros] | apply keeps_attempt
               | apply keeps_each; intros | case_match].

(** The guardrail adds keys to its store and never drops one. *)
Lemma keeps_gate store req id : keeps store (gate req id).
Proof.
  intros w r w' k Hg Hk. destruct (decide (sr_store req = store)) as [<-|Hne].
  - destruct (Hk) as (seen & Hl & Hin). unfold gate in Hg. rewrite (cmd_bind_run _ _ _ _ _ Hl) in Hg.
    case_bool_decide; [by injection Hg as _ <-|]. destruct (sr_record req); [|by injection Hg as _ <-].
    unfold mbind, cmd_bind, write_file in Hg. destruct (can_write (sr_store req)); injection Hg as _ <-; [|done].
    eexists. split; [|apply elem_of_union_r, Hin].
    apply seen_document_read; [by eapply recorded_readable|]. apply lookup_insert_eq.
  - revert Hg Hk. apply (keeps_bind store _ _); [|intros seen; cbn zeta; case_bool_decide; [apply keeps_ret|]].
    + apply keeps_files. intros w0 r0 w0'. unfold load_seen, mbind, cmd_bind, get_world.
      destruct (w_files w0 !! sr_store req); [|by intros [= _ <-]].
      unfold pure, mret, cmd_ret. repeat case_match; by intros [= _ <-].
    + apply keeps_bind; [|intros; apply keeps_ret]. destruct (sr_record req); [by apply keeps_write|apply keeps_ret].
Qed.
#[local] Hint Resolve keeps_gate : keeping.

Lemma keeps_proof store path : keeps store (load_proof path).
Proof. unfold load_proof, parse_json. keeping. Qed.
Lemma keeps_statuses store cli : keeps store (load_statuses cli).
Proof. unfold load_statuses, load_status, read_wrapper, read_json, parse_json. keeping. Qed.
#[local] Hint Resolve keeps_proof keeps_statuses : keeping.
Lemma keeps_unloaded store cli c vp path e :
  opt cli "out" ≠ Some store → keeps store (verify_unloaded cli c vp path e).
Proof.
  intros Ho. unfold verify_unloaded, load_proof_bytes_raw, load_statuses_lenient, load_status, read_wrapper,
    read_json, parse_json. cbn zeta. keeping.
Qed.
#[local] Hint Resolve keeps_unloaded : keeping.
Lemma keeps_verify store cli : opt cli "out" ≠ Some store → keeps store (verify cli).
Proof. intros Ho. unfold verify, verify_loaded. keeping. Qed.
Lemma keeps_evaluate store cli explain : opt cli "out" ≠ Some store → keeps store (evaluate cli explain).
Proof. intros Ho. unfold evaluate, parse_json. cbn zeta. keeping. Qed.

(** Any number of later runs of the commands with a guardrail, with any arguments
    and results, none of which writes its report over the store. *)
Inductive later_runs (store : string) : World → World → Prop :=
| no_more_runs w : later_runs store w w
| then_verify cli w r w' w'' :
    opt cli "out" ≠ Some store → verify cli w = Some (r, w') →
    later_runs store w' w'' → later_runs store w w''
| then_evaluate cli explain w r w' w'' :
    opt cli "out" ≠ Some store → evaluate cli explain w = Some (r, w') →
    later_runs store w' w'' → later_runs store w w''.

Lemma later_runs_keep store k w w' : later_runs store w w' → recorded store k w → recorded store k w'.
Proof.
  induction 1 as [|cli w r w' w'' Ho Hv _ IH|cli explain w r w' w'' Ho Hv _ IH]; intros Hk; [done|..].
  - apply IH. by eapply keeps_verify.
  - apply IH. by eapply keeps_evaluate.
Qed.

Lemma gate_refuses req id w r w' :
  recorded (sr_store req) (seen_key (sr_context req) id) w → gate req id w = Some (r, w') → r = Ok true.
Proof.
  intros (seen & Hl & Hk) Hg. unfold gate in Hg. rewrite (cmd_bind_run _ _ _ _ _ Hl) in Hg.
  rewrite bool_decide_eq_true_2 in Hg by done. by injection Hg as <- _.
Qed.
Lemma gate_records req id w w' :
  gate req id w = Some (Ok false, w') → sr_record req = true → can_read (sr_store req) = true →
  recorded (sr_store req) (seen_key (sr_context req) id) w'.
Proof.
  unfold gate. intros Hg Hr Hc. cmd_inv. case_bool_decide; cmd_inv. rewrite Hr in *.
  unfold write_file in *. destruct (can_write (sr_store req)); [|done]. simplify_eq.
  eexists. split; [apply seen_document_read; [done|apply lookup_insert_eq]|]. set_solver.
Qed.

Section recorded_proof.
Context (cli : Cli) (req : SeenRequest) (path : string) (proof : LoadedProof) (w w1 : World).
Hypotheses (Hreq : seen_request cli = Ok (Some req)) (Hpath : proof_path cli = Ok path)
  (Hout : opt cli "out" ≠ Some (sr_store req)) (Hload : load_proof path w = Some (Ok proof, w1))
  (Hrec : recorded (sr_store req) (seen_key (sr_context req) (prf_proof_id (lp_proof proof))) w).

Lemma recorded_not_verified code w' : verify cli w = Some (Ok code, w') → code = EXIT_FAIL.
Proof using All.
  unfold verify. rewrite Hreq, Hpath. intros Hv. cmd_inv.
  match goal with Ha : attempt _ _ = _ |- _ => unfold attempt in Ha; rewrite Hload in Ha; injection Ha as <- <- end.
  apply (keeps_proof _ _ _ _ _ _ Hload) in Hrec. unfold verify_loaded in Hv. cmd_inv.
  destruct (strict_mode cli && _); [by cmd_inv|]. unfold verdict_exit in Hv.
  destruct (_ && _); cbn [negb Z.eqb EXIT_OK EXIT_FAIL] in Hv; [|by cmd_inv]. cmd_inv.
  match goal with Hg : gate _ _ _ = _ |- _ => apply gate_refuses in Hg as [= ->]; [done|] end.
  eapply keeps_report; [exact Hout|eassumption|]. by eapply keeps_statuses.
Qed.
Lemma recorded_not_evaluated explain code w' : evaluate cli explain w = Some (Ok code, w') → code = EXIT_FAIL.
Proof using All.
  unfold evaluate, parse_json. cbn zeta. rewrite Hreq, Hpath. intros Hv.
  apply cmd_bind_Ok in Hv as (path' & wp & [[= <-] ->]%pure_Ok & Hv). rewrite (cmd_bind_run _ _ _ _ _ Hload) in Hv.
  apply (keeps_proof _ _ _ _ _ _ Hload) in Hrec. cmd_inv.
  match goal with Hp : read_input_file _ _ = Some _ |- _ => apply (keeps_input _ _ _ _ _ _ Hp) in Hrec end.
  match goal with Hp : load_statuses _ _ = Some _ |- _ => apply (keeps_statuses _ _ _ _ _ _ Hp) in Hrec end.
  match goal with Hp : (match opt cli "out" with _ => _ end) _ = Some (_, ?w) |- _ =>
    assert (recorded (sr_store req) (seen_key (sr_context req) (prf_proof_id (lp_proof proof))) w) as Hrec1 end.
  { destruct (opt cli "out"); [by eapply keeps_report|by eapply keeps_ret]. }
  match goal with Hp : print _ _ = Some _ |- _ => apply (keeps_print _ _ _ _ _ _ Hp) in Hrec1 end.
  destruct (strict_mode cli && _); [by cmd_inv|].
  destruct (po_decision _); [|by cmd_inv..]. cmd_inv.
  match goal with Hg : gate _ _ _ = _ |- _ => apply gate_refuses in Hg as [= ->]; [by cmd_inv|done] end.
Qed.
End recorded_proof.

(** A run of a command with a guardrail that ends with exit code 0. *)
Definition accepts (cli : Cli) (w w' : World) : Prop :=
  verify cli w = Some (Ok EXIT_OK, w') ∨ ∃ explain, evaluate cli explain w = Some (Ok EXIT_OK, w').
(** A proof that is accepted with recording is in the store afterwards. *)
Lemma accepted_recorded cli w w' path req :
  accepts cli w w' → proof_path cli = Ok path → stdin_fits w path →
  seen_request cli = Ok (Some req) → sr_record req = true → can_read (sr_store req) = true →
  ∃ proof w1, load_proof path w = Some (Ok proof, w1) ∧
    recorded (sr_store req) (seen_key (sr_context req) (prf_proof_id (lp_proof proof))) w'.
Proof.
  intros [Hv|[explain Hv]] Hp Hfit Hreq Hrec Hcr.
  - apply verify_accepts_iff in Hv; [|intros p Hp'; rewrite Hp in Hp'; by injection Hp' as <-].
    destruct Hv as (c & vp & seen & path' & proof & w1 & statuses & w2 & report & w3 & _ & _ & Hse & Hp' &
      Hl & _ & _ & _ & _ & _ & Hg).
    rewrite Hreq in Hse. injection Hse as <-. rewrite Hp in Hp'. injection Hp' as <-.
    exists proof, w1. split; [done|]. by eapply gate_records.
  - unfold evaluate, parse_json in Hv. cbn zeta in Hv. rewrite Hp, Hreq in Hv. cmd_inv.
    match goal with Hl : load_proof _ w = Some (Ok ?proof, ?w1) |- _ => exists proof, w1; split; [done|] end.
    destruct (strict_mode cli && _); [by cmd_inv|]. destruct (po_decision _); [|by cmd_inv..]. cmd_inv.
    match goal with Hg : gate _ _ _ = Some (Ok ?b, _) |- _ => destruct b; cmd_inv end. by eapply gate_records.
Qed.

(** The same command on the resulting files runs through, up to the guardrail. *)
Lemma same_command_refused cli w w' path req
  (Hv : verify cli w = Some (Ok EXIT_OK, w')) (Hp : proof_path cli = Ok path)
  (Hreq : seen_request cli = Ok (Some req)) (Hrec : sr_record req = true)
  (Hsep : separate cli path (sr_store req)) (Hcr : can_read (sr_store req) = true) :
  ∃ w'', verify cli w' = Some (Ok EXIT_FAIL, w'').
Proof.
  destruct Hsep as (Hstd & Hst & Hout & Houts). apply not_elem_of_cons in Hstd as [Hpath%not_eq_sym Hstd].
  assert (verify_accepts cli w w') as Hacc.
  { apply verify_accepts_iff; [|done]. intros p Hp'. rewrite Hp in Hp'. injection Hp' as <-. by intros ->. }
  destruct Hacc as (c & vp & seen & path' & proof & w1 & statuses & w2 & report & w3 & Hc & Hvp & Hse & Hp' &
    Hl & Hs & Hr & Hok%verdict_exit_ok & Hstrict & He & Hg).
  rewrite Hreq in Hse. injection Hse as <-. rewrite Hp in Hp'. injection Hp' as <-.
  assert (∀ p, p ∈ path :: many cli "status" → w_files w !! p = w_files w' !! p) as Hsame.
  { intros p Hin. rewrite Forall_forall in Houts.
    rewrite (gate_files _ _ _ _ _ p Hg), (emit_report_files _ _ _ _ p He); [|by apply Houts|set_solver].
    destruct (reads_twice [path] _ _ _ _ w (reads_proof path Hpath) (λ _ _, eq_refl) Hl) as [-> _].
    by destruct (reads_twice _ _ _ _ _ w (reads_statuses cli Hstd) (λ _ _, eq_refl) Hs) as [-> _]. }
  assert (∀ p, p ∈ [path] → w_files w !! p = w_files w' !! p) as Hsame1 by set_solver.
  assert (∀ p, p ∈ many cli "status" → w_files w !! p = w_files w' !! p) as Hsame2 by set_solver.
  destruct (reads_twice [path] _ _ _ _ w' (reads_proof path Hpath) Hsame1 Hl) as [-> Hl'].
  destruct (reads_twice _ _ _ _ _ w' (reads_statuses cli Hstd) Hsame2 Hs) as [-> Hs'].
  destruct (emit_report_again _ _ _ _ w' He) as [w4 He'].
  unfold verify. erewrite cmd_bind_run; [|by apply pure_Ok]. erewrite cmd_bind_run; [|by apply pure_Ok].
  erewrite cmd_bind_run; [|by apply pure_Ok]. erewrite cmd_bind_run; [|by apply pure_Ok].
  erewrite cmd_bind_run; [|by apply attempt_run]. unfold verify_loaded.
  rewrite (cmd_bind_run _ _ _ _ _ Hs'). erewrite cmd_bind_run; [|by apply fuelled_Ok].
  rewrite (cmd_bind_run _ _ _ _ _ He').
  assert (strict_mode cli && negb (is_currently_acceptable report) = false) as ->
    by (destruct (strict_mode cli); [by rewrite Hstrict|done]).
  rewrite Hok. cbn [negb Z.eqb EXIT_OK].
  assert (gate req (prf_proof_id (lp_proof proof)) w4 = Some (Ok true, w4)) as Hg'.
  { eapply gate_recorded; [exact Hg|done|done|]. by apply (emit_report_files _ _ _ _ _ He'). }
  rewrite (cmd_bind_run _ _ _ _ _ Hg'). by eexists.
Qed.

(** C11: the replay guardrail.  Once [verify], [evaluate] or [explain] has accepted a
    proof and recorded it in a seen-store (not read from more than 8 MiB of standard
    input, its report not written over the store, the store file readable), no later
    run accepts a proof with its id in the same context: after any number of runs of
    these commands, with any arguments and results, on any files, none of which
    writes its report over the store, a run with the same store and context whose
    proof loads with that id ends with exit code 1 or an error.  And the same
    [verify] command on the resulting files, when its inputs are files apart from its
    output and the store, does return 1. *)
Theorem replay_refused cli w w' path req
  (Hacc : accepts cli w w') (Hp : proof_path cli = Ok path) (Hfit : stdin_fits w path)
  (Hreq : seen_request cli = Ok (Some req)) (Hrec : sr_record req = true)
  (Hcr : can_read (sr_store req) = true) :
  (∃ proof w1, load_proof path w = Some (Ok proof, w1) ∧
     ∀ later, later_runs (sr_store req) w' later →
     ∀ cli' record path' proof' w2,
       seen_request cli' = Ok (Some (mkSeenRequest (sr_store req) (sr_context req) record)) →
       opt cli' "out" ≠ Some (sr_store req) → proof_path cli' = Ok path' →
       load_proof path' later = Some (Ok proof', w2) →
       prf_proof_id (lp_proof proof') = prf_proof_id (lp_proof proof) →
       (∀ code w3, verify cli' later = Some (Ok code, w3) → code = EXIT_FAIL) ∧
       (∀ explain code w3, evaluate cli' explain later = Some (Ok code, w3) → code = EXIT_FAIL)) ∧
  (verify cli w = Some (Ok EXIT_OK, w') → separate cli path (sr_store req) →
   ∃ w'', verify cli w' = Some (Ok EXIT_FAIL, w'')).
Proof.
  split; [|intros; by eapply same_command_refused].
  destruct (accepted_recorded _ _ _ _ _ Hacc Hp Hfit Hreq Hrec Hcr) as (proof & w1 & Hl & Hk).
  exists proof, w1. split; [done|].
  intros later Hruns cli' record path' proof' w2 Hreq' Hout' Hp' Hl' Hid.
  apply (later_runs_keep _ _ _ _ Hruns) in Hk. rewrite <- Hid in Hk.
  split; [by eapply (recorded_not_verified cli')|]. intros explain. by eapply (recorded_not_evaluated cli').
Qed.
End replay.

(** * Evaluation *)

(** A flag outside the allowlist has no values. *)
Lemma many_allowed raw args names cli k :
  allowed_flags (command_of raw) = Some names → parse (raw :: args) = Ok cli →
  bool_decide (k ∈ names) = false → many cli k = [].
Proof.
  intros Hn Hp Hk%bool_decide_eq_false. unfold parse in Hp. rewrite Hn in Hp.
  apply parse_args_steps, parses_to_wf in Hp as [Hv Hm _]; [|eauto with engine].
  unfold many. destruct (cli_multi cli !! k) as [vs|] eqn:Hvs; [|done].
  destruct (Hm _ _ Hvs) as [v [Hok%bool_decide_eq_true _]%Hv]. done.
Qed.

Section evaluating.
Context `{SerdeJsonBuilderLaws, Os, CliTexts, Hex, Base64UrlLaws, Sha2, SignatureSchemes, HashOrderLaws}.

Lemma load_proof_parses path w proof w1 :
  load_proof path w = Some (Ok proof, w1) →
  ∃ value, decode_strict (lp_canonical proof) limits = Ok value ∧
    cbor_to_proof value limits = Ok (lp_proof proof).
Proof. unfold load_proof. intros Hl. cmd_inv. by apply unwrap_proof_Ok in Hl as [_ ?]. Qed.

(** The engine calls of [evaluate] are the one-shot decision. *)
Lemma evaluation_one_shot cli c vp statuses proof value report st policy outcome :
  many cli "revoked" = [] →
  decode_strict (lp_canonical proof) limits = Ok value →
  cbor_to_proof value limits = Ok (lp_proof proof) →
  verify_proof (lp_canonical proof) (cli_ctx cli c vp statuses) = Some (Ok report) →
  state_from_report_and_proof report (lp_proof proof) = Ok st →
  evaluate_policy st policy (cli_inputs cli c) = Some outcome →
  verify_and_evaluate (lp_canonical proof) (one_shot_context (cli_ctx cli c vp statuses)) policy
    RevocationSet_empty = Some (Ok {| vd_report := report; vd_state := st; vd_outcome := outcome |}).
Proof.
  intros Hrev Hd Hc Hv Hs He. rewrite one_shot_bounds.
  - rewrite Hv. cbn [mbind option_bind]. change (ctx_limits (cli_ctx cli c vp statuses)) with limits.
    rewrite Hd. cbn [mbind result_bind]. rewrite Hc. cbn [mbind result_bind]. rewrite Hs.
    assert (inputs_from (one_shot_context (cli_ctx cli c vp statuses)) RevocationSet_empty = cli_inputs cli c)
      as -> by (unfold cli_inputs; by rewrite Hrev).
    by rewrite He.
  - by apply verify_proof_inv in Hv as [? _].
  - change (ctx_limits (cli_ctx cli c vp statuses)) with default_limits. by vm_compute.
Qed.

(** C10: what exit code 0 of [evaluate] and [explain] means.  The proof and the
    policy file load, the one-shot decision of the engine on them (with no
    unsigned revocations, since the flag for them is refused) is PASS, a strict
    mode finds the proof current, and the replay guardrail, when asked for, has
    not seen it. *)
Theorem evaluate_exit_ok raw args cli explain w w'
  (Hcmd : raw = "evaluate" ∨ raw = "explain") (Hparse : parse (raw :: args) = Ok cli)
  (He : evaluate cli explain w = Some (Ok EXIT_OK, w')) :
  ∃ c vp path proof w1 policy_path text w2 doc policy statuses w3 d,
    common cli = Ok c ∧ verifier_policy cli = Ok vp ∧ proof_path cli = Ok path ∧
    load_proof path w = Some (Ok proof, w1) ∧ opt cli "policy" = Some policy_path ∧
    read_input_file policy_path w1 = Some (Ok text, w2) ∧ json_from_slice (as_bytes text) = Some doc ∧
    parse_policy doc limits = Ok policy ∧ load_statuses cli w2 = Some (Ok statuses, w3) ∧
    verify_and_evaluate (lp_canonical proof) (one_shot_context (cli_ctx cli c vp statuses)) policy
      RevocationSet_empty = Some (Ok d) ∧
    po_decision (vd_outcome d) = PolicyDecision.Pass ∧
    (strict_mode cli = true → is_currently_acceptable (vd_report d) = true) ∧
    ∀ req, seen_request cli = Ok (Some req) →
      ∃ w4, gate req (prf_proof_id (lp_proof proof)) w4 = Some (Ok false, w').
Proof.
  assert (many cli "revoked" = []) as Hrev.
  { destruct Hcmd as [-> | ->]; (eapply (many_allowed _ args); [|exact Hparse|]; [reflexivity|reflexivity]). }
  unfold evaluate in He. cmd_inv.
  match goal with Hl : load_proof _ _ = Some (Ok _, _) |- _ =>
    destruct (load_proof_parses _ _ _ _ Hl) as (value & Hd & Hc) end.
  match goal with Hev : Ok <$> evaluate_policy _ _ _ = Some (Ok _) |- _ =>
    apply fmap_Some in Hev as (outcome & Hev & [= <-]) end.
  match goal with Hst : state_from_report_and_proof _ _ = Ok _,
    Hv : verify_proof _ _ = Some (Ok _), Hev : evaluate_policy _ _ _ = Some _ |- _ =>
    pose proof (evaluation_one_shot _ _ _ _ _ _ _ _ _ _ Hrev Hd Hc Hv Hst Hev) as Hone end.
  destruct (strict_mode cli && _) eqn:Hstrict; [cmd_inv|].
  match goal with Hj : parse_json _ _ _ = _ |- _ => unfold parse_json in Hj; cmd_inv end.
  match goal with Hq : req cli "policy" = Ok _ |- _ => unfold req in Hq; cmd_inv end.
  do 13 eexists. do 9 (split; [eassumption|]). split; [exact Hone|]. cbn [vd_outcome vd_report].
  destruct (po_decision _); [|cmd_inv..]. split; [done|].
  split; [intros Hs; rewrite Hs in Hstrict; by apply negb_false_iff in Hstrict|].
  intros request Hreq. assert (a2 = Some request) as -> by congruence. cmd_inv.
  match goal with Hg : gate _ _ _ = Some (Ok ?b, _) |- _ => destruct b end; cmd_inv. by eexists.
Qed.
End evaluating.

(** * Building *)

(** A loop of adders keeps the invariant of the builder. *)
Lemma foldl_keeps {A B} (inv : B → Prop) (P : A → Prop) (add : B → A → B) b l :
  (∀ b x, inv b → P x → inv (add b x)) → inv b → Forall P l → inv (foldl add b l).
Proof.
  intros Hadd Hb Hl. revert b Hb. induction Hl as [|x l Hx _ IH]; intros b Hb; [done|].
  cbn [foldl]. apply IH. by apply Hadd.
Qed.
Lemma each_Forall `{SerdeJson} {A B} (f : A → Cmd B) (P : B → Prop) l w ys w' :
  (∀ x w y w', f x w = Some (Ok y, w') → P y) → each f l w = Some (Ok ys, w') → Forall P ys.
Proof.
  intros Hf. revert w ys. induction l as [|x l IH]; intros w ys He; cbn [each] in He; cmd_inv; constructor; eauto.
Qed.

Section building.
Context `{SerdeJsonBuilderLaws, Os, CliTexts, HexLaws, Base64UrlLaws, Sha2Laws, SignatureLaws, HashOrderLaws}.

Lemma load_proof_json path w v w' :
  read_json path w = Some (Ok v, w') → load_proof path w = Some (unwrap_proof (wrapper_label path) v, w').
Proof.
  unfold read_json, load_proof. intros Hr. apply cmd_bind_Ok in Hr as ([text label] & w1 & Ht & Hr).
  rewrite (cmd_bind_run _ _ _ _ _ Ht). cbn beta iota in *. rewrite (cmd_bind_run _ _ _ _ _ Hr).
  assert (label = wrapper_label path) as ->; [|done].
  unfold read_input_text, wrapper_label in *. case_bool_decide; by cmd_inv.
Qed.

(** The file of a proof that binds its id is loaded. *)
Lemma written_proof_loads path id canonical value proof w w' :
  decode_strict canonical limits = Ok value → cbor_to_proof value limits = Ok proof →
  prf_proof_id proof = id → write_proof_file path id canonical w = Some (Ok (), w') → readable w' path →
  load_proof path w' = Some (Ok {| lp_canonical := canonical; lp_proof := proof |}, w').
Proof.
  intros Hd Hc Hid Hw Hr. pose proof (id_entries_keys "proof" id canonical) as Hnd.
  change (write_json path (text_object (id_entries "proof" id canonical)) w = Some (Ok (), w')) in Hw.
  rewrite (load_proof_json path w' (text_object (id_entries "proof" id canonical)) w')
    by (by eapply written_json_read; [apply text_object_plain|..]).
  assert (∀ k s, field_text (id_entries "proof" id canonical) k = Some s →
    entry (text_object (id_entries "proof" id canonical)) k = Some (json_of (JString s)) ∧
    text_of (json_of (JString s)) = Some s) as He.
  { intros k s Hs. rewrite entry_text, Hs by done. split; [done|]. unfold text_of. by rewrite json_of_string. }
  do 2 f_equal. unfold unwrap_proof. rewrite text_object_accepted by done. cbn [mbind result_bind].
  unfold kind_field, cbor_field. destruct (He "kind" "proof" eq_refl) as [-> ->]. cbn [mbind result_bind].
  destruct (He "cbor" (cbor_to_hex canonical) eq_refl) as [-> Ht]. cbn [mbind option_bind]. rewrite Ht.
  cbn [ok_or mbind result_bind]. unfold cbor_to_hex. rewrite hex_of_to. cbn [ok_or mbind result_bind].
  rewrite Hd. cbn [refused mbind result_bind]. rewrite Hc. cbn [refused mbind result_bind].
  destruct (He "id" id eq_refl) as [-> Ht']. cbn [mbind option_bind]. rewrite Ht', Hid.
  by rewrite bool_decide_eq_false_2 by (by intros []).
Qed.

(** And it still is while the file stays. *)
Lemma written_proof_stays path id canonical value proof w w1 w' :
  decode_strict canonical limits = Ok value → cbor_to_proof value limits = Ok proof →
  prf_proof_id proof = id → write_proof_file path id canonical w = Some (Ok (), w1) →
  w_files w' !! path = w_files w1 !! path → readable w' path →
  load_proof path w' = Some (Ok {| lp_canonical := canonical; lp_proof := proof |}, w').
Proof.
  intros Hd Hc Hid Hw Hf Hr. assert (readable w1 path) as Hr1 by (unfold readable; by rewrite <- Hf).
  pose proof (written_proof_loads _ _ _ _ _ _ _ Hd Hc Hid Hw Hr1) as Hl.
  assert (∀ p, p ∈ [path] → w_files w1 !! p = w_files w' !! p) as Hsame
    by (intros p Hp; apply list_elem_of_singleton in Hp as ->; by rewrite Hf).
  by destruct (reads_twice [path] _ _ _ _ w' (reads_proof path (proj1 Hr)) Hsame Hl) as [_ ?].
Qed.

(** The members [build_command] loads are genuine. *)
Lemma build_command_inv cli w id w' :
  build_command cli w = Some (Ok id, w') →
  ∃ b bp out w1 w2, builder_inv limits b ∧ build b limits = Ok bp ∧ bp_id bp = id ∧
    opt cli "out" = Some out ∧ write_proof_file out id (bp_canonical bp) w1 = Some (Ok (), w2) ∧
    w_files w' = w_files w2.
Proof.
  unfold build_command, req. intros Hb. cmd_inv. do 5 eexists.
  split; [|split_and!; [eassumption|done|eassumption..|]].
  - apply (foldl_keeps _ _ _ _ _ (add_relationship_inv limits)).
    2: { eapply each_Forall; [|eassumption]. intros. unfold created_relationship in *. cmd_inv. by eapply make_relationship_Ok. }
    apply (foldl_keeps _ _ _ _ _ (add_evidence_inv limits)).
    2: { eapply each_Forall; [|eassumption]. intros. unfold created_evidence in *. cmd_inv. by eapply make_evidence_Ok. }
    apply (foldl_keeps _ _ _ _ _ (add_attestation_inv limits)).
    2: { eapply each_Forall; [|eassumption]. intros. by eapply load_attestation_genuine. }
    apply (foldl_keeps _ _ _ _ _ (add_event_inv limits)); [apply builder_new_inv|].
    eapply each_Forall; [|eassumption]. intros. unfold created_event in *. cmd_inv. by eapply genuine_event.
  - case_bool_decide; cmd_inv; [done|]. match goal with Hp : print _ _ = _ |- _ => by injection Hp as <- end.
Qed.

(** C23: what [build] writes verifies.  When the command succeeds, the file it
    wrote loads as a proof with the announced id, and every verifier with the
    default algorithm policy and limits finds it cryptographically valid: the
    loaders only let genuine artifacts in. *)
Theorem built_file_verifies cli w w' id out ctx
  (Hb : build_command cli w = Some (Ok id, w')) (Hout : opt cli "out" = Some out) (Hr : readable w' out)
  (Hctx : ctx_limits ctx = limits ∧ allowed_algs ctx = algs_strict ∧ misuse ctx = false) :
  ∃ proof report, load_proof out w' = Some (Ok proof, w') ∧ prf_proof_id (lp_proof proof) = id ∧
    verify_proof (lp_canonical proof) ctx = Some (Ok report) ∧
    cryptographic_validity report = Validity.Valid ∧ vr_proof_id report = Some id.
Proof.
  apply build_command_inv in Hb as (b & bp & out' & w1 & w2 & Hinv & Hb & <- & Hout' & Hw & Hf).
  rewrite Hout in Hout'. injection Hout' as <-.
  destruct (built_valid _ _ _ _ Hinv Hb Hctx) as (report & Hv).
  destruct (build_Ok _ _ _ Hb) as (prop & v & _ & Hid & Hd & Hc).
  assert (w_files w' !! out = w_files w2 !! out) as Hfo by (by rewrite Hf).
  pose proof (written_proof_stays _ _ _ _ _ _ _ _ Hd Hc (eq_sym Hid) Hw Hfo Hr) as Hl.
  eexists _, report. split_and!; [exact Hl|by symmetry|apply Hv..].
Qed.
End building.

(** * A session *)

Module SessionSamples.
Import Toy Toy.Reader GraphSamples FileSamples.
Definition issuer : string := Eval vm_compute in key_ref TEST_SEED.
Definition build_cli : Cli := Eval vm_compute in
  command ["build"; "--kind"; "payment"; "--subject"; "acct:1"; "--predicate"; "settled";
           "--created-at"; "150"; "--events"; "e.json"; "--attestations"; "a.json"; "--out"; "p.json"].
Definition policy_cli : Cli := Eval vm_compute in
  command ["init-policy"; "--template"; "minimal"; "--issuer"; issuer; "--out"; "policy.json"].
Definition check_flags : list string :=
  ["--clock"; "150"; "--revocations-known-at"; "140"; "--no-require-status"; "--trusted"; issuer].
Definition verify_cli : Cli := Eval vm_compute in command (["verify"; "--proof"; "p.json"] ++ check_flags).
Definition evaluate_args : list string :=
  ["--proof"; "p.json"; "--policy"; "policy.json"] ++ check_flags.
Definition evaluate_cli : Cli := Eval vm_compute in command ("evaluate" :: evaluate_args).
Definition seen_flags : list string :=
  ["--seen-store"; "seen.json"; "--seen-context"; "till-1"; "--seen-record"].
Definition once_cli : Cli := Eval vm_compute in
  command (["verify"; "--proof"; "p.json"] ++ check_flags ++ seen_flags).
Definition stdin_cli : Cli := Eval vm_compute in
  command (["verify"; "--proof"; "-"; "--strict-current"] ++ check_flags ++ seen_flags).

(** An event and a statement, the proof of them and a policy. *)
Definition members : Cmd () :=
  _ ← write_event event_command; _ ← write_attestation attest_command; mret ().
Definition session : Cmd () := _ ← members; _ ← build_command build_cli; _ ← init_policy policy_cli; mret ().
Definition exits (code : Z) (m : Cmd Z) (w : World) : bool :=
  match m w with Some (Ok c, _) => (c =? code)%Z | _ => false end.

(** The inputs of the run on the standard input. *)
Definition stdin_inputs : CommonInputs := mkCommon 150 300 (Some 140).
Definition stdin_policy : VerifierPolicy := Eval vm_compute in
  match verifier_policy stdin_cli with
  | Ok vp => vp
  | Err _ => mkVerifierPolicy algs_strict false [] [] false false false
  end.
Definition once_request : SeenRequest := mkSeenRequest "seen.json" "till-1" true.
Definition stdin_verdict (text : list byte) : option VerifyReport :=
  v ← json_from_slice text;
  match cbor_field "stdin" v with
  | Ok bytes =>
      match verify_proof bytes (cli_ctx stdin_cli stdin_inputs stdin_policy []) with
      | Some (Ok report) => Some report
      | _ => None
      end
  | Err _ => None
  end.
(** Whether the text is a wrapper whose bytes verify. *)
Definition accepted_text (text : list byte) : bool :=
  match stdin_verdict text with Some report => (verdict_exit report =? EXIT_OK)%Z | None => false end.
End SessionSamples.

Section session_witnesses.
Import Toy Toy.Reader GraphSamples FileSamples SessionSamples.

Lemma verify_exit_ok_witness : ∃ w w', verify_accepts verify_cli w w'.
Proof.
  destruct (run_check session no_files (λ _ w, exits EXIT_OK (verify verify_cli) w)) as (u & w & _ & Hs);
    [vm_compute; reflexivity|].
  destruct (run_check (verify verify_cli) w (λ c _, (c =? EXIT_OK)%Z)) as (c & w' & Hv & Hc%Z.eqb_eq).
  { exact Hs. }
  subst c. exists w, w'. apply verify_exit_ok; [|exact Hv].
  intros path Hp. assert (proof_path verify_cli = Ok "p.json") as Hp' by (vm_compute; reflexivity).
  rewrite Hp' in Hp. injection Hp as <-. discriminate.
Defined.

Lemma evaluate_exit_ok_witness : ∃ path proof w w1, load_proof path w = Some (Ok proof, w1).
Proof.
  destruct (run_check session no_files (λ _ w, exits EXIT_OK (evaluate evaluate_cli false) w))
    as (u & w & _ & Hs); [vm_compute; reflexivity|].
  destruct (run_check (evaluate evaluate_cli false) w (λ c _, (c =? EXIT_OK)%Z)) as (c & w' & Hv & Hc%Z.eqb_eq).
  { exact Hs. }
  subst c. assert (parse ("evaluate" :: evaluate_args) = Ok evaluate_cli) as Hparse by (vm_compute; reflexivity).
  destruct (evaluate_exit_ok "evaluate" evaluate_args evaluate_cli false w w' (or_introl eq_refl) Hparse Hv)
    as (ci & vp & path & proof & w1 & policy_path & text & w2 & doc & policy & statuses & w3 & d & _ & _ & _ & Hl & _).
  exists path, proof, w, w1. exact Hl.
Defined.

Lemma replay_refused_witness : ∃ w w'', verify once_cli w = Some (Ok EXIT_FAIL, w'').
Proof.
  destruct (run_check session no_files (λ _ w, exits EXIT_OK (verify once_cli) w)) as (u & w & _ & Hs);
    [vm_compute; reflexivity|].
  destruct (run_check (verify once_cli) w (λ c _, (c =? EXIT_OK)%Z)) as (c & w' & Hv & Hc%Z.eqb_eq).
  { exact Hs. }
  subst c. exists w'. assert (proof_path once_cli = Ok "p.json") as Hp by (vm_compute; reflexivity).
  assert (seen_request once_cli = Ok (Some once_request)) as Hreq by (vm_compute; reflexivity).
  assert (stdin_fits w "p.json") as Hfit by discriminate.
  refine (proj2 (replay_refused once_cli w w' "p.json" once_request (or_introl Hv) Hp Hfit Hreq eq_refl eq_refl) Hv _).
  assert (many once_cli "status" = [] ∧ opt once_cli "out" = None) as [Hst Ho] by (vm_compute; split; reflexivity).
  unfold separate. rewrite Hst, Ho. split_and!; [set_solver|set_solver|discriminate|].
  apply Forall_singleton. discriminate.
Defined.

Lemma oversized_stdin_accepted_witness : ∃ w w', verify stdin_cli w = Some (Ok EXIT_OK, w').
Proof.
  destruct (run_check session no_files (λ _ w, small "p.json" w
    && match w_files w !! "p.json" with Some text => utf8_valid text && accepted_text text | None => false end))
    as (u & w & _ & Hs); [vm_compute; reflexivity|].
  unfold small in Hs. destruct (w_files w !! "p.json") as [rest|]; [|discriminate].
  apply andb_true_iff in Hs as [Hl%N.leb_le [Hu Hs]%andb_true_iff]. unfold accepted_text, stdin_verdict in Hs.
  destruct (json_from_slice rest) as [v|] eqn:Hv; [|discriminate]. cbn [mbind option_bind] in Hs.
  destruct (cbor_field "stdin" v) as [bytes|] eqn:Hb; [|discriminate].
  destruct (verify_proof bytes _) as [[report|]|] eqn:Hr; [|discriminate..]. apply Z.eqb_eq in Hs.
  assert (∃ junk : list byte, len junk = MAX_INPUT_FILE_BYTES + 1) as [junk Hj].
  { exists (repeat Byte.x00 (N.to_nat (MAX_INPUT_FILE_BYTES + 1))). unfold len. by rewrite repeat_length, N2Nat.id. }
  assert (common stdin_cli = Ok stdin_inputs) as Hc by (vm_compute; reflexivity).
  assert (verifier_policy stdin_cli = Ok stdin_policy) as Hvp by (vm_compute; reflexivity).
  assert (seen_request stdin_cli = Ok (Some once_request)) as Hreq by (vm_compute; reflexivity).
  assert (proof_path stdin_cli = Ok "-") as Hp by (vm_compute; reflexivity).
  assert (many stdin_cli "status" = [] ∧ opt stdin_cli "out" = None) as [Hst Ho] by (vm_compute; split; reflexivity).
  destruct (oversized_stdin_accepted stdin_cli stdin_inputs stdin_policy (Some once_request)
    (mkWorld _ ∅ (Some (junk ++ rest)) []) junk rest v bytes report Hc Hvp Hreq Hp eq_refl Hj Hl Hu Hv Hb Hst Ho Hr)
    as (w' & Hrun & _).
  rewrite Hs in Hrun. exists (mkWorld _ ∅ (Some (junk ++ rest)) []), w'. exact Hrun.
Defined.

Lemma built_file_verifies_witness :
  ∃ w proof report, load_proof "p.json" w = Some (Ok proof, w) ∧
    verify_proof (lp_canonical proof) default_ctx = Some (Ok report) ∧
    cryptographic_validity report = Validity.Valid.
Proof.
  destruct (run_check members no_files (λ _ w, match build_command build_cli w with
    | Some (Ok _, w') => small "p.json" w' | _ => false end)) as (u & w & _ & Hs); [vm_compute; reflexivity|].
  destruct (run_check (build_command build_cli) w (λ _ w', small "p.json" w')) as (id & w' & Hb & Hsm).
  { exact Hs. }
  assert (opt build_cli "out" = Some "p.json") as Hout by (vm_compute; reflexivity).
  assert (readable w' "p.json") as Hr by (apply small_readable; [discriminate|exact Hsm]).
  destruct (built_file_verifies build_cli w w' id "p.json" default_ctx Hb Hout Hr) as (proof & report & Hl & _ & Hv & Hc & _).
  { split; [reflexivity|]. split; vm_compute; reflexivity. }
  exists w', proof, report. exact (conj Hl (conj Hv Hc)).
Defined.
End session_witnesses.
