(* ===== verification/Port.v ===== *)
(** Port: the commands that move artifacts, [crates/proof-cli/src/port.rs],
    [store.rs], [ingest.rs], [commit.rs] and [id.rs].

    [FileStore] keeps artifacts in a directory behind the store interface;
    [resolve_command] follows the references of a proof in it.  [export], [import]
    and [convert] translate between wrappers and envelopes, [compose] unites the
    members of several proofs, [ingest] turns lines of records into events,
    [commit_value] and [id_value] print one text.  The iteration orders of the hash
    maps are parameters.

    The theorems: the file store keeps what was put; what [compose] writes is the
    union of its inputs, verifies, does not depend on the iteration orders and
    never buries a conflict; unsigned artifacts survive the way out and back. *)
From Stdlib Require Import Strings.Byte NArith ZArith Lia.
From stdpp Require Import pretty.
From S2P Require Import Prelude Text Core External Cbor Schema Graph Ident Claim Cose Store.
From S2P Require Import Report Pipeline PipelineFacts Verdicts Builder Envelope Resolve.
From S2P Require Import Policy State Eval Context Combine Api Cli Files Commands.

(** * The file store *)

(** [PathBuf::join] with a plain file name. *)
Definition path_join (dir name : string) : string :=
  if sempty dir then name
  else if bool_decide (last (as_bytes dir) = Some Byte.x2f) then dir +:+ name
  else dir +:+ "/" +:+ name.

(** The store with the files it sees. *)
Record FileStore : Type := mkFileStore {
  fs_dir : string;
  fs_files : gmap string (list byte);
}.

Section file_store.
Context `{Os, CliTexts}.

Definition unsafe_id (id : string) : bool :=
  sempty id || contains_char slash id || contains_char (Ascii.ascii_of_N 92) id || str_contains ".." id.
Definition store_path (s : FileStore) (id : string) : StoreResult string :=
  if unsafe_id id then Err ("store refuses unsafe id " +:+ debug_text id)
  else Ok (path_join (fs_dir s) (id +:+ ".cbor")).
Definition store_read (path : string) (content : list byte) : StoreResult (list byte) :=
  if can_read path then Ok content else Err ("store read " +:+ path +:+ ": " +:+ io_text path).
Definition file_put (s : FileStore) (id : string) (cbor : list byte) : StoreResult FileStore :=
  if len cbor =? 0 then Err "store put requires non-empty bytes" else
  path ← store_path s id;
  match fs_files s !! path with
  | Some content =>
      prev ← store_read path content;
      if bool_decide (prev ≠ cbor)
      then Err ("store conflict: " +:+ id +:+ " already held with different bytes") else Ok s
  | None =>
      if can_write path
      then Ok {| fs_dir := fs_dir s; fs_files := <[path := cbor]> (fs_files s) |}
      else Err ("store write " +:+ path +:+ ": " +:+ io_text path)
  end.
Definition file_get (s : FileStore) (id : string) : StoreResult (option (list byte)) :=
  path ← store_path s id;
  match fs_files s !! path with
  | Some content => b ← store_read path content; Ok (Some b)
  | None => Ok None
  end.
#[global] Instance file_store : ArtifactStore FileStore := {| Store.put := file_put; Store.get := file_get |}.
End file_store.

Section directories.
Context `{SerdeJson, Os}.
Definition create_dir_all (dir : string) : Cmd () := pure (check (can_mkdir dir) Other).
(** [FileStore::open] on the files of the world. *)
Definition open_store (dir : string) : Cmd FileStore :=
  _ ← create_dir_all dir;
  w ← get_world;
  mret {| fs_dir := dir; fs_files := w_files w |}.
End directories.

(** * Resolving *)

Section resolving.
Context `{SerdeJsonReader, Os, CliTexts, Hex, Base64Url, Sha2, SignatureSchemes, HashOrder}.

Definition resolve_command (cli : Cli) : Cmd Z :=
  path ← pure (proof_path cli);
  proof ← load_proof path;
  c ← pure (common cli);
  statuses ← load_statuses cli;
  store_dir ← pure (req cli "store");
  store ← open_store store_dir;
  max_depth ← pure (opt_u64 cli "depth");
  let max_depth := default 8 max_depth in
  vp ← pure (verifier_policy cli);
  rep ← fuelled (resolve_proof_chain (lp_canonical proof) store (cli_ctx cli c vp statuses) max_depth);
  _ ← print (PrintedDocument (ResolutionDoc rep max_depth));
  mret (if resolution_complete rep then EXIT_OK else EXIT_FAIL).
End resolving.

(** * Envelopes *)

(** [str::to_lowercase] beyond ASCII is Unicode's. *)
Class UnicodeCase := lowercase : string → string.

Section envelopes.
Context `{SerdeJsonReader, !SerdeJsonBuilder, Os, CliTexts, Hex, Base64Url, Sha2, SignatureSchemes, UnicodeCase}.

Definition text_entry (v : json) (key : string) : CliResult string := ok_or (entry v key ≫= text_of) Other.
Definition kind_entry (v : json) : CliResult ArtifactKind.t :=
  kind_str ← text_entry v "kind";
  ok_or (ArtifactKind.parse kind_str) Other.

Definition export (cli : Cli) : Cmd () :=
  src ← pure (proof_path cli);
  out ← pure (req cli "out");
  v ← read_json src;
  kind ← pure (kind_entry v);
  id ← pure (text_entry v "id");
  cbor_hex ← pure (text_entry v "cbor");
  let sign1 := either_text v "sign1_b64" "sign1" in
  let env := {| ae_container_version := CONTAINER_VERSION; ae_kind := kind; ae_id := id;
                ae_cbor_hex := cbor_hex; ae_sign1_b64u := sign1 |} in
  _ ← engine (verify_envelope env limits None None);
  write_json out (json_of (JObject [("container_version", json_of (JNumber (Some CONTAINER_VERSION)));
    text_field "kind" (ArtifactKind.as_str kind); text_field "id" id; text_field "cbor" cbor_hex;
    ("sign1", json_of (match sign1 with Some s => JString s | None => JNull end))])).

(** The version of the container, or the shape of a file from before there was one. *)
Definition container_ok (v : json) : bool :=
  (default 0 (entry v "container_version" ≫= as_u64) =? CONTAINER_VERSION)
  || (bool_decide (entry v "container_version" = None) && bool_decide (is_Some (entry v "id"))
      && bool_decide (is_Some (entry v "cbor"))).
Definition import (cli : Cli) : Cmd () :=
  src ← pure (proof_path cli);
  out ← pure (req cli "out");
  v ← read_json src;
  kind ← pure (kind_entry v);
  _ ← pure (check (container_ok v) Other);
  id ← pure (text_entry v "id");
  cbor_hex ← pure (text_entry v "cbor");
  let sign1 := either_text v "sign1" "sign1_b64" in
  let env := {| ae_container_version := CONTAINER_VERSION; ae_kind := kind; ae_id := id;
                ae_cbor_hex := cbor_hex; ae_sign1_b64u := sign1 |} in
  _ ← engine (verify_envelope env limits None None);
  write_json out (json_of (JObject (
    [text_field "kind" (ArtifactKind.as_str kind); text_field "id" id; text_field "cbor" cbor_hex]
    ++ match sign1 with Some s => [text_field "sign1_b64" s] | None => [] end
    ++ match entry v "issuer" with Some iss => [("issuer", iss)] | None => [] end))).

(** [map.insert]. *)
Definition set_entry (obj : object_t) (key : string) (value : json) : object_t :=
  List.filter (λ p : string * json, negb (bool_decide (p.1 = key))) obj ++ [(key, value)].
(** The three normalizations of [convert]. *)
Definition convert_version (obj : object_t) : object_t :=
  if contains_key obj "kind" && contains_key obj "cbor" && negb (contains_key obj "container_version")
  then set_entry obj "container_version" (json_of (JNumber (Some CONTAINER_VERSION))) else obj.
Definition convert_signature (obj : object_t) : object_t :=
  match (match get obj "sign1" with Some x => text_of x | None => get obj "sign1_b64" ≫= text_of end) with
  | Some s => set_entry (set_entry obj "sign1" (json_of (JString s))) "sign1_b64" (json_of (JString s))
  | None => obj
  end.
Definition convert_case (obj : object_t) : object_t :=
  match get obj "cbor" ≫= text_of with
  | Some cbor => set_entry obj "cbor" (json_of (JString (lowercase cbor)))
  | None => obj
  end.
Definition convert (cli : Cli) : Cmd () :=
  src ← pure (proof_path cli);
  out ← pure (req cli "out");
  v ← read_json src;
  obj ← pure (ok_or (as_object v) Other);
  write_json out (json_of (JObject (convert_case (convert_signature (convert_version obj))))).

(** * One text *)

Definition id_value (cli : Cli) : Cmd string :=
  path ← pure (req cli "artifact");
  let field := default "id" (opt cli "field") in
  _ ← pure (check (bool_decide (field ∈ ["id"; "issuer"])) Other);
  text ← read_input_file path;
  v ← parse_json path text;
  s ← pure (text_entry v field);
  _ ← pure (check (negb (sempty s)) Other);
  mret s.

Definition commit_secret (cli : Cli) : Cmd string :=
  match opt cli "value", opt cli "value-file" with
  | Some _, Some _ => fails Other
  | None, None => fails Other
  | Some v, None => if has cli "production" then fails Other else mret v
  | None, Some path => bytes ← read_input_bytes path; pure (ok_or (from_utf8 bytes) Other)
  end.
Definition commit_value (cli : Cli) : Cmd string :=
  let alg := default "sha256" (opt cli "alg") in
  salt ← pure (req cli "salt");
  secret ← commit_secret cli;
  let input := as_bytes (salt +:+ "|" +:+ secret) in
  hex ← pure (if bool_decide (alg = "sha256") then Ok (hex_to_text (sha256 input))
              else if bool_decide (alg = "sha384") then Ok (hex_to_text (sha384 input)) else UsageErr);
  _ ← match opt cli "out" with
      | Some out => write_json out (text_object [("kind", "commitment"); ("alg", alg); ("digest", hex)])
      | None => print (PrintedText hex)
      end;
  mret hex.

(** * Ingestion *)

Definition line_field (obj : object_t) (name : string) : CliResult string :=
  s ← ok_or (get obj name ≫= text_of) Other;
  if sempty s then UsageErr else Ok s.
Definition line_event (value : json) : CliResult EventContent :=
  obj ← ok_or (as_object value) Other;
  event_type ← line_field obj "type";
  subject ← line_field obj "subject";
  payload_hex ← line_field obj "payload_hex";
  effective_at ← ok_or (get obj "effective_at" ≫= as_u64) Other;
  meta ← match get obj "meta" with
         | None => Ok None
         | Some v => match text_of v with Some s => Ok (Some s) | None => UsageErr end
         end;
  _ ← check (forallb (λ p : string * json, bool_decide (p.1 ∈ RECORD_FIELDS)) obj) Other;
  payload_ref ← hash_ref_from_hex payload_hex;
  metadata ← parse_fields meta;
  Ok {| ev_v := 1; ev_type := event_type; ev_subject := subject; ev_effective_at := effective_at;
        ev_payload_ref := payload_ref; ev_metadata := metadata |}.
Definition ingest_line (value : json) (out_dir : string) (dry_run : bool) : Cmd string :=
  content ← pure (line_event value);
  created ← engine (create_event content limits);
  _ ← (if dry_run then mret () else
       write_json (out_dir +:+ "/" +:+ ce_id created +:+ ".json")
         (text_object (id_entries "event" (ce_id created) (ce_canonical created))));
  mret (ce_id created).

(** Blank lines are not counted; a bad line ends the run or, with [skip_bad], is
    listed. *)
Fixpoint ingest_lines (out_dir : string) (dry_run skip_bad : bool) (text : list string) (line_no : N)
    : Cmd (list string * list N) :=
  match text with
  | [] => mret ([], [])
  | raw :: text' =>
      let line := trim raw in
      if sempty line then ingest_lines out_dir dry_run skip_bad text' line_no else
      outcome ← attempt (value ← pure (ok_or (json_from_slice (as_bytes line)) Other);
                         ingest_line value out_dir dry_run);
      match outcome with
      | Ok id =>
          '(ids, skipped) ← ingest_lines out_dir dry_run skip_bad text' (line_no + 1);
          mret (id :: ids, skipped)
      | Err e =>
          if skip_bad then
            '(ids, skipped) ← ingest_lines out_dir dry_run skip_bad text' (line_no + 1);
            mret (ids, (line_no + 1) :: skipped)
          else fails Other
      end
  end.
Definition ingest (cli : Cli) : Cmd Z :=
  '(text, _) ← read_input_text (default "-" (opt cli "in"));
  out_dir ← pure (req cli "out-dir");
  let dry_run := has cli "dry-run" in
  _ ← (if dry_run then mret () else create_dir_all out_dir);
  '(ids, skipped) ← ingest_lines out_dir dry_run (has cli "skip-bad") (lines text) 0;
  _ ← write_document (ManifestDoc ids skipped dry_run) (opt cli "out");
  mret (match skipped with [] => EXIT_OK | _ => EXIT_FAIL end).
End envelopes.

(** * Composition *)

(** The iteration order of a [HashMap] keyed by claim type and subject. *)
Class ClaimOrder := claim_order : gset (string * string) → list (string * string).
Class ClaimOrderLaws `{ClaimOrder} : Prop := claim_order_perm s : claim_order s ≡ₚ elements s.

(** [map.entry(k).or_insert(v)]. *)
Definition or_insert {A} (k : string) (v : A) (m : gmap string A) : gmap string A :=
  match m !! k with Some _ => m | None => <[k := v]> m end.
(** The values of a hash map in its iteration order. *)
Definition hash_values `{HashOrder} {A} (m : gmap string A) : list A := omap (λ k, m !! k) (hash_order (dom m)).

(** The united members, by id, and the ids of the sources. *)
Record Union : Type := mkUnion {
  un_events : gmap string EventContent;
  un_attestations : gmap string CreatedAttestation;
  un_evidence : gmap string Evidence;
  un_relationships : gmap string Relationship;
  un_sources : gset string;
}.
Definition empty_union : Union := mkUnion ∅ ∅ ∅ ∅ ∅.

Section composition.
Context `{SerdeJsonReader, !SerdeJsonBuilder, Os, CliTexts, Hex, Base64Url, Sha2, SignatureSchemes, HashOrder, ClaimOrder}.

Fixpoint merge_events (m : gmap string EventContent) (l : list EventContent)
    : Result (gmap string EventContent) :=
  match l with
  | [] => Ok m
  | e :: l' => v ← event_to_cbor e; merge_events (or_insert (event_id (encode_canonical v)) e m) l'
  end.
Fixpoint merge_attestations (m : gmap string CreatedAttestation) (l : list StoredAttestation)
    : Result (gmap string CreatedAttestation) :=
  match l with
  | [] => Ok m
  | a :: l' =>
      let canon := encode_canonical (attestation_to_cbor (sa_content a)) in
      let id := attestation_id canon in
      match m !! id with
      | Some _ => merge_attestations m l'
      | None =>
          '(content, vid) ← verify_attestation (sa_sign1 a) (att_issuer (sa_content a)) algs_strict limits;
          if bool_decide (vid ≠ id) || bool_decide (content ≠ sa_content a) then Err ErrorCode.IdMismatch else
          merge_attestations (<[id := {| ca_content := sa_content a; ca_canonical := canon; ca_id := id;
                                         ca_sign1 := sa_sign1 a |}]> m) l'
      end
  end.
Definition merge_proof (u : Union) (p : Proof_) : Result Union :=
  if bool_decide (prf_proof_id p ∈ un_sources u) then Ok u else
  events ← merge_events (un_events u) (prf_events p);
  attestations ← merge_attestations (un_attestations u) (prf_attestations p);
  Ok {| un_events := events; un_attestations := attestations;
        un_evidence := foldl (λ m e, or_insert (member_evidence_id e) e m) (un_evidence u) (prf_evidence p);
        un_relationships := foldl (λ m r, or_insert (member_relationship_id r) r m) (un_relationships u)
                              (prf_relationships p);
        un_sources := {[prf_proof_id p]} ∪ un_sources u |}.
Fixpoint unite (u : Union) (paths : list string) : Cmd Union :=
  match paths with
  | [] => mret u
  | path :: paths' =>
      loaded ← load_proof path;
      u ← engine (merge_proof u (lp_proof loaded));
      unite u paths'
  end.

(** The statements of one claim type about one subject, by id. *)
Definition claim_key (a : CreatedAttestation) : string * string :=
  (claim_type (att_claim (ca_content a)), att_subject (ca_content a)).
Definition claim_group (m : gmap string CreatedAttestation) (key : string * string)
    : list (string * CreatedAttestation) :=
  sort_by (by_id fst) (List.filter (λ p, bool_decide (claim_key p.2 = key)) (map_to_list m)).
Definition divergent_group (m : gmap string CreatedAttestation) (key : string * string)
    : list (string * string * string * string) :=
  match claim_group m key with
  | [] => []
  | base :: rest =>
      map (λ c, (key.1, key.2, base.1, c.1))
        (List.filter (λ c, negb (bool_decide (claim_fields (att_claim (ca_content base.2)) =
                                              claim_fields (att_claim (ca_content c.2))))) rest)
  end.
Definition divergent_pairs (m : gmap string CreatedAttestation) : list (string * string * string * string) :=
  concat (map (divergent_group m) (claim_order (list_to_set (map (λ p, claim_key p.2) (map_to_list m))))).

Fixpoint add_references (b : ProofBuilder) (ids : list string) : Result ProofBuilder :=
  match ids with
  | [] => Ok b
  | id :: ids' => b ← add_referenced_proof b id; add_references b ids'
  end.
(** The builder of the composite. *)
Definition union_builder (proposition : Proposition_) (created_at : N) (u : Union) : Result ProofBuilder :=
  b ← add_references (builder_new proposition created_at) (sort_by str_leb (elements (un_sources u)));
  events ← mapM (λ e, create_event e limits) (hash_values (un_events u));
  evidence ← mapM (λ e, make_evidence (evd_kind e) (evd_digest e) (evd_attestation_ref e) (evd_hint e) limits)
               (hash_values (un_evidence u));
  relationships ← mapM (λ r, make_relationship r limits) (hash_values (un_relationships u));
  Ok (foldl add_relationship (foldl add_evidence
        (foldl add_attestation (foldl add_event b events) (hash_values (un_attestations u)))
        evidence) relationships).

(** The nodes and edges of the inputs, edges once. *)
Definition graph_of (acc : list string * list EdgeRecord) (p : Proof_)
    : Result (list string * list EdgeRecord) :=
  event_ids ← mapM (λ e, v ← event_to_cbor e; Ok (event_id (encode_canonical v))) (prf_events p);
  Ok (acc.1 ++ event_ids ++ map member_attestation_id (prf_attestations p)
        ++ map member_evidence_id (prf_evidence p),
      foldl (λ edges r, let rid := member_relationship_id r in
               if bool_decide (rid ∈ map edge_id edges) then edges else edges ++ [mkEdge r rid])
        acc.2 (prf_relationships p)).
Fixpoint union_graph (acc : list string * list EdgeRecord) (paths : list string)
    : Cmd (list string * list EdgeRecord) :=
  match paths with
  | [] => mret acc
  | path :: paths' =>
      loaded ← load_proof path;
      acc ← engine (graph_of acc (lp_proof loaded));
      union_graph acc paths'
  end.
Definition extra_set (extra : list string) : option (gset string) :=
  match extra with [] => None | _ => Some (list_to_set extra) end.

(** [str::strip_suffix] and [trim_end_matches] on a text. *)
Definition reversed (s : string) : string := of_bytes (rev (as_bytes s)).
Fixpoint strip_all (fuel : nat) (p s : string) : string :=
  match fuel, strip_prefix p s with
  | S fuel, Some s' => strip_all fuel p s'
  | _, _ => s
  end.
Definition trim_end_suffix (suffix s : string) : string :=
  reversed (strip_all (String.length s) (reversed suffix) (reversed s)).
Definition conflict_document (pairs : list (string * string * string * string)) : json :=
  json_of (JObject [("conflicts", json_of (JArray (map (λ '(ct, subject, a, b),
    json_of (JObject [text_field "kind" "divergent_claims"; text_field "claim_type" ct;
      text_field "subject" subject; text_field "attestation_a" a; text_field "attestation_b" b])) pairs)))]).

Definition compose (cli : Cli) : Cmd string :=
  paths ← pure (input_list cli "proofs");
  _ ← pure (check (negb (bool_decide (paths = []))) Other);
  proposition ← pure (proposition_flags cli);
  u ← unite empty_union paths;
  let pairs := divergent_pairs (un_attestations u) in
  created_at ← pure (req_u64 cli "created-at");
  b ← engine (union_builder proposition created_at u);
  '(node_ids, edges) ← union_graph ([], []) paths;
  let nodes := NodeSet_new node_ids in
  _ ← fuelled (validate_graph_with_grounding edges nodes limits (extra_set (extra_grounded_flag cli)));
  _ ← fuelled (check_derivation_acyclic edges nodes);
  built ← engine (build b limits);
  out ← pure (req cli "out");
  _ ← write_proof_file out (bp_id built) (bp_canonical built);
  _ ← match pairs with
      | [] => mret ()
      | _ => write_json (trim_end_suffix ".json" out +:+ ".conflicts.json") (conflict_document pairs)
      end;
  mret (bp_id built).
End composition.

(** * The file store keeps its promises *)

Section file_store_facts.
Context `{Os, CliTexts}.

Lemma store_path_dir s s' id : fs_dir s = fs_dir s' → store_path s id = store_path s' id.
Proof. unfold store_path. by intros ->. Qed.
(** Ids have files of their own. *)
Lemma store_path_inj s id id' path :
  store_path s id = Ok path → store_path s id' = Ok path → id = id'.
Proof.
  assert (∀ name name', path_join (fs_dir s) name = path_join (fs_dir s) name' → name = name') as Hj.
  { intros name name'. unfold path_join. destruct (sempty (fs_dir s)); [done|].
    case_bool_decide; intros Heq; apply (f_equal as_bytes) in Heq; rewrite !as_bytes_app in Heq;
      apply as_bytes_inj; by repeat apply app_inv_head in Heq. }
  unfold store_path. destruct (unsafe_id id), (unsafe_id id'); try done.
  intros [= <-] [= Heq]. apply Hj, (f_equal as_bytes) in Heq. rewrite !as_bytes_app in Heq.
  apply app_inv_tail in Heq. by apply as_bytes_inj.
Qed.

Lemma file_put_Ok s id cbor s' :
  file_put s id cbor = Ok s' ↔
  cbor ≠ [] ∧ ∃ path, store_path s id = Ok path ∧
    (fs_files s !! path = Some cbor ∧ can_read path = true ∧ s' = s ∨
     fs_files s !! path = None ∧ can_write path = true ∧
     s' = {| fs_dir := fs_dir s; fs_files := <[path := cbor]> (fs_files s) |}).
Proof.
  unfold file_put, store_read. destruct cbor as [|b cbor]; [split; [done|by intros []]|].
  rewrite (proj2 (N.eqb_neq (len (b :: cbor)) 0)) by (rewrite len_cons; lia).
  destruct (store_path s id) as [path|]; cbn [mbind result_bind];
    [|split; [done|intros (_ & path & [=] & _)]].
  split.
  - destruct (fs_files s !! path) as [content|] eqn:Hf.
    + destruct (can_read path) eqn:Hr; cbn [mbind result_bind]; [|done]. case_bool_decide as Hc; [done|].
      intros [= <-]. split; [done|]. exists path. split; [done|]. left. subst content. done.
    + destruct (can_write path) eqn:Hw; [|done]. intros [= <-]. split; [done|]. exists path. by eauto.
  - intros (_ & path' & [= <-] & [(-> & -> & ->)|(-> & -> & ->)]); cbn [mbind result_bind]; [|done].
    by rewrite bool_decide_eq_false_2 by (by intros []).
Qed.

(** An accepted blob is in the file of its id. *)
Lemma file_put_stored s id cbor s' :
  file_put s id cbor = Ok s' →
  fs_dir s' = fs_dir s ∧ ∃ path, store_path s id = Ok path ∧ fs_files s' !! path = Some cbor.
Proof.
  intros (_ & path & Hp & [(Hf & _ & ->)|(_ & _ & ->)])%file_put_Ok; split; [done|by exists path|done|].
  exists path. split; [done|apply lookup_insert_eq].
Qed.
(** A file is read as it is, when the system lets it be read. *)
Lemma file_get_stored s id path cbor :
  store_path s id = Ok path → fs_files s !! path = Some cbor →
  file_get s id = if can_read path then Ok (Some cbor) else Err ("store read " +:+ path +:+ ": " +:+ io_text path).
Proof.
  intros Hp Hf. unfold file_get, store_read. rewrite Hp. cbn [mbind result_bind]. rewrite Hf.
  by destruct (can_read path).
Qed.
Lemma file_put_get s id cbor s' path :
  file_put s id cbor = Ok s' → store_path s id = Ok path →
  file_get s' id = if can_read path then Ok (Some cbor) else Err ("store read " +:+ path +:+ ": " +:+ io_text path).
Proof.
  intros (Hd & path' & Hp & Hf)%file_put_stored Hp'. rewrite Hp in Hp'. injection Hp' as ->.
  apply file_get_stored; [by rewrite (store_path_dir _ s)|done].
Qed.
(** A write changes no file that was there. *)
Lemma file_put_files s id cbor s' p content :
  file_put s id cbor = Ok s' → fs_files s !! p = Some content → fs_files s' !! p = Some content.
Proof.
  intros (_ & path & _ & [(_ & _ & ->)|(Hn & _ & ->)])%file_put_Ok Hp; [done|]. cbn [fs_files].
  rewrite lookup_insert_ne; [done|]. intros ->. congruence.
Qed.

#[global] Instance file_store_laws : StoreLaws FileStore.
Proof.
  split; cbn [Store.put Store.get file_store].
  - intros s s' id bytes Hput. destruct (file_put_stored _ _ _ _ Hput) as (_ & path & Hp & _).
    rewrite (file_put_get _ _ _ _ _ Hput Hp). destruct (can_read path); by eauto.
  - intros s s' id bytes Hg (_ & path & Hp & [(_ & _ & ->)|(Hf & _)])%file_put_Ok; [done|].
    unfold file_get in Hg. rewrite Hp in Hg. cbn [mbind result_bind] in Hg. by rewrite Hf in Hg.
  - intros s s' id id' bytes (_ & path & Hp & [(_ & _ & ->)|(_ & _ & ->)])%file_put_Ok Hne; [done|].
    unfold file_get. rewrite (store_path_dir _ s) by done.
    destruct (store_path s id') as [path'|] eqn:Hp'; [|done]. cbn [mbind result_bind fs_files].
    rewrite lookup_insert_ne; [done|]. intros ->. by apply Hne, (store_path_inj s _ _ path').
  - intros s id old bytes Hg Hne. destruct (file_put s id bytes) as [s'|e] eqn:Hput; [|by eauto]. exfalso.
    apply file_put_Ok in Hput as (_ & path & Hp & Hcase). unfold file_get, store_read in Hg. rewrite Hp in Hg.
    cbn [mbind result_bind] in Hg. destruct Hcase as [(Hf & Hr & _)|(Hf & _)]; rewrite Hf in Hg; [|done].
    rewrite Hr in Hg. cbn in Hg. congruence.
Qed.

(** An unsafe id reaches no file. *)
Lemma unsafe_untouched s id : unsafe_id id = true → ∀ bytes, ∃ e, file_put s id bytes = Err e ∧ ∃ e', file_get s id = Err e'.
Proof.
  intros Hu bytes. unfold file_put, file_get, store_path. rewrite Hu. cbn [mbind result_bind].
  destruct (len bytes =? 0); by eauto.
Qed.

Lemma put_all_dir s writes : fs_dir (put_all s writes) = fs_dir s.
Proof.
  revert s. induction writes as [|[id b] writes IH]; intros s; cbn [put_all]; [done|]. rewrite IH.
  destruct (Store.put s id b) as [s'|] eqn:Hput; [|done]. by apply file_put_stored in Hput as [-> _].
Qed.
Lemma put_all_files s writes p content :
  fs_files s !! p = Some content → fs_files (put_all s writes) !! p = Some content.
Proof.
  revert s. induction writes as [|[id b] writes IH]; intros s Hp; cbn [put_all]; [done|]. apply IH.
  destruct (Store.put s id b) as [s'|] eqn:Hput; [|done]. exact (file_put_files _ _ _ _ _ _ Hput Hp).
Qed.
Lemma put_all_outside s writes p :
  (∀ id, unsafe_id id = false → p ≠ path_join (fs_dir s) (id +:+ ".cbor")) →
  fs_files (put_all s writes) !! p = fs_files s !! p.
Proof.
  revert s. induction writes as [|[id b] writes IH]; intros s Hp; cbn [put_all]; [done|].
  destruct (Store.put s id b) as [s'|] eqn:Hput; [|by apply IH].
  apply file_put_Ok in Hput as (_ & path & Hpath & [(_ & _ & ->)|(_ & _ & ->)]); [by apply IH|].
  rewrite IH by done. cbn [fs_files]. apply lookup_insert_ne. intros ->.
  unfold store_path in Hpath. destruct (unsafe_id id) eqn:Hu; [done|]. injection Hpath as Hpath.
  by apply (Hp id Hu).
Qed.

(** C39: the directory store never loses or changes what it holds.  Whatever is
    written, accepted or refused: a file that is there keeps its content, an id that
    is read as some bytes is read as the same bytes forever, a new blob is accepted
    only into the file of its own id, which holds exactly its bytes afterwards and is
    read back as them when the system lets that file be read (a write alone does not
    ensure it); an id with a separator or a parent reference is refused by reads and
    writes; and a path that is not a [.cbor] name in the store's directory stays as
    it is. *)
Theorem file_store_keeps (s : FileStore) writes :
  (∀ p content, fs_files s !! p = Some content → fs_files (put_all s writes) !! p = Some content) ∧
  (∀ id bytes, file_get s id = Ok (Some bytes) → file_get (put_all s writes) id = Ok (Some bytes)) ∧
  (∀ id bytes s', file_put (put_all s writes) id bytes = Ok s' →
     fs_files s' !! path_join (fs_dir s) (id +:+ ".cbor") = Some bytes ∧
     (can_read (path_join (fs_dir s) (id +:+ ".cbor")) = true → file_get s' id = Ok (Some bytes))) ∧
  (∀ id bytes, unsafe_id id = true →
     ∃ e, file_put (put_all s writes) id bytes = Err e ∧ ∃ e', file_get (put_all s writes) id = Err e') ∧
  (∀ p, (∀ id, unsafe_id id = false → p ≠ path_join (fs_dir s) (id +:+ ".cbor")) →
     fs_files (put_all s writes) !! p = fs_files s !! p).
Proof.
  split_and!.
  - apply put_all_files.
  - intros id bytes Hg. exact (put_all_keeps s writes id bytes Hg).
  - intros id bytes s' Hput. destruct (file_put_stored _ _ _ _ Hput) as (_ & path & Hp & Hf).
    pose proof (file_put_get _ _ _ _ _ Hput Hp) as Hg. unfold store_path in Hp.
    destruct (unsafe_id id); [done|]. injection Hp as <-. rewrite put_all_dir in Hf, Hg.
    split; [done|]. intros Hr. by rewrite Hr in Hg.
  - intros id bytes Hu. by apply unsafe_untouched.
  - apply put_all_outside.
Qed.
End file_store_facts.

(** * Composition does not depend on hash orders *)

(** A fallible map over permuted lists. *)
Lemma mapM_perm {A B E} (f : A → result E B) l l' :
  l ≡ₚ l' →
  match mapM f l, mapM f l' with Ok k, Ok k' => k ≡ₚ k' | Err _, Err _ => True | _, _ => False end.
Proof.
  induction 1 as [|x l l' _ IH|x y l|l1 l2 l3 _ IH1 _ IH2]; [constructor| | |].
  - cbn [mapM]. destruct (f x) as [b|]; cbn; [|done].
    destruct (mapM f l), (mapM f l'); cbn; try done. by constructor.
  - cbn [mapM]. destruct (f x) as [b|], (f y) as [b'|]; cbn; try done; destruct (mapM f l); cbn; try done.
    constructor.
  - destruct (mapM f l1), (mapM f l2), (mapM f l3); try done. by etransitivity.
Qed.

Section hash_orders.
Context (order order' : HashOrder) {Horder : @HashOrderLaws order} {Horder' : @HashOrderLaws order'}.
Context `{SerdeJsonReader, !SerdeJsonBuilder, Os, CliTexts, Hex, Base64Url, Sha2, SignatureSchemes, ClaimOrder}.

Lemma hash_values_order {A} (m : gmap string A) :
  @hash_values order _ m ≡ₚ @hash_values order' _ m.
Proof. unfold hash_values. by rewrite (@hash_order_perm order _), (@hash_order_perm order' _). Qed.

(** Adding permuted members gives the same parts. *)
Lemma foldl_same_parts {A} (add : ProofBuilder → A → ProofBuilder) :
  (∀ b b' x, same_parts b b' → same_parts (add b x) (add b' x)) →
  (∀ b x y, same_parts (add (add b x) y) (add (add b y) x)) →
  ∀ l l', l ≡ₚ l' → ∀ b b', same_parts b b' → same_parts (foldl add b l) (foldl add b' l').
Proof.
  intros Hadd Hswap. induction 1 as [|x l l' _ IH|x y l|l1 l2 l3 _ IH1 _ IH2]; intros b b' Hb; cbn [foldl].
  - done.
  - by apply IH, Hadd.
  - assert (same_parts (add (add b y) x) (add (add b' x) y)) as Hs
      by (etransitivity; [apply Hswap|by apply Hadd, Hadd]).
    revert Hs. generalize (add (add b y) x), (add (add b' x) y). induction l as [|z l IH]; intros c c' Hc; [done|].
    cbn [foldl]. by apply IH, Hadd.
  - etransitivity; [by apply IH1|]. by apply IH2.
Qed.

Lemma union_builder_order proposition created_at u :
  match @union_builder _ _ order proposition created_at u, @union_builder _ _ order' proposition created_at u with
  | Ok b, Ok b' => same_parts b b'
  | Err _, Err _ => True
  | _, _ => False
  end.
Proof.
  unfold union_builder. destruct (add_references _ _) as [b|]; cbn [mbind result_bind]; [|done].
  pose proof (mapM_perm (λ e, create_event e limits) _ _ (hash_values_order (un_events u))) as He.
  destruct (mapM _ (@hash_values order _ (un_events u))), (mapM _ (@hash_values order' _ (un_events u)));
    cbn [mbind result_bind]; try done.
  pose proof (mapM_perm (λ e, make_evidence (evd_kind e) (evd_digest e) (evd_attestation_ref e) (evd_hint e) limits)
    _ _ (hash_values_order (un_evidence u))) as Hv.
  destruct (mapM _ (@hash_values order _ (un_evidence u))), (mapM _ (@hash_values order' _ (un_evidence u)));
    cbn [mbind result_bind]; try done.
  pose proof (mapM_perm (λ r, make_relationship r limits) _ _ (hash_values_order (un_relationships u))) as Hr.
  destruct (mapM _ (@hash_values order _ (un_relationships u))), (mapM _ (@hash_values order' _ (un_relationships u)));
    cbn [mbind result_bind]; try done.
  repeat (apply foldl_same_parts; [intros ??? []; by split; cbn; try done; apply Permutation_app|..];
    [intros; split; cbn; try done; rewrite <- !app_assoc; by apply Permutation_app_head; apply perm_swap|
     by try apply hash_values_order|]). reflexivity.
Qed.

Lemma bind_same {A B} (m m' : Cmd A) (f g : A → Cmd B) w :
  m w = m' w → (∀ a w', f a w' = g a w') → (m ≫= f) w = (m' ≫= g) w.
Proof. intros Hm Hfg. unfold mbind, cmd_bind. rewrite Hm. destruct (m' w) as [[[a|]]|]; auto. Qed.

Lemma validate_graph_run edges nodes extra w :
  fuelled (@validate_graph_with_grounding order edges nodes limits extra) w =
  fuelled (@validate_graph_with_grounding order' edges nodes limits extra) w.
Proof.
  destruct (proj1 (@validate_graph_spec order _ edges nodes limits extra)) as [r Hr],
    (proj1 (@validate_graph_spec order' _ edges nodes limits extra)) as [r' Hr'].
  destruct r as [vg|e]; [apply (validate_graph_order order order') in Hr as Hv; rewrite Hr, Hv; done|].
  destruct r' as [vg|e']; [apply (validate_graph_order order' order) in Hr' as Hv; congruence|].
  by rewrite Hr, Hr'.
Qed.

(** Composition is deterministic.  Whatever the iteration orders of the hash
    maps that collect the members, of the graph searches and of the builder
    calls, [compose] does the same: it writes the same bytes under the same id,
    or fails alike.  (The map that groups the claims is kept: its order only
    permutes the entries of the sidecar, [divergent_pairs_perm].) *)
Theorem compose_order_free cli w :
  @compose _ _ _ _ _ _ _ _ _ order _ cli w = @compose _ _ _ _ _ _ _ _ _ order' _ cli w.
Proof.
  unfold compose. do 5 (apply bind_same; [done|intros]).
  match goal with |- context [@union_builder _ _ order ?p ?t ?u] =>
    pose proof (union_builder_order p t u) as Hb;
    destruct (@union_builder _ _ order p t u) as [b|], (@union_builder _ _ order' p t u) as [b'|] end; try done.
  rewrite (cmd_bind_run (engine (Ok b)) _ _ b _ eq_refl), (cmd_bind_run (engine (Ok b')) _ _ b' _ eq_refl).
  apply bind_same; [done|]. intros [node_ids edges] w4. apply bind_same; [apply validate_graph_run|]. intros _ w5.
  apply bind_same; [by rewrite (derivation_order order order')|]. intros _ w6.
  by rewrite (build_same b b').
Qed.
End hash_orders.

(** * What a composite contains *)

Section composites.
Context `{SerdeJsonBuilderLaws, Os, CliTexts, HexLaws, Base64UrlLaws, Sha2Laws, SignatureLaws, HashOrderLaws, ClaimOrder}.

(** The ids of the members of a proof. *)
Definition event_key (e : EventContent) : string := event_id (encode_canonical (event_cbor e)).
Definition member_ids (p : Proof_) : list string :=
  map event_key (prf_events p) ++ map member_attestation_id (prf_attestations p)
  ++ map member_evidence_id (prf_evidence p) ++ map member_relationship_id (prf_relationships p).

(** Members are filed under their ids, and attestations are genuine. *)
Record union_inv (u : Union) : Prop := {
  ui_events k e : un_events u !! k = Some e → event_key e = k;
  ui_attestations k a : un_attestations u !! k = Some a → genuine_attestation limits a ∧ ca_id a = k;
  ui_evidence k e : un_evidence u !! k = Some e → member_evidence_id e = k ∧ evd_v e = 1;
  ui_relationships k r : un_relationships u !! k = Some r → member_relationship_id r = k;
}.
Definition union_ids (u : Union) : gset string :=
  dom (un_events u) ∪ dom (un_attestations u) ∪ dom (un_evidence u) ∪ dom (un_relationships u).

Lemma or_insert_dom {A} k (v : A) m : dom (or_insert k v m) = {[k]} ∪ dom m.
Proof.
  unfold or_insert. destruct (m !! k) eqn:Hk; [|by rewrite dom_insert_L].
  apply elem_of_dom_2 in Hk. set_solver.
Qed.
(** Filing a list of members under their ids. *)
Lemma foldl_or_insert {A} (key : A → string) (P : A → Prop) (l : list A) m :
  (∀ k x, m !! k = Some x → key x = k ∧ P x) → Forall P l →
  let m' := foldl (λ m x, or_insert (key x) x m) m l in
  (∀ k x, m' !! k = Some x → key x = k ∧ P x) ∧ dom m' = list_to_set (map key l) ∪ dom m.
Proof.
  revert m. induction l as [|x l IH]; intros m Hm Hl; cbn [foldl map]; [split; [done|set_solver]|].
  apply Forall_cons in Hl as [Hx Hl].
  destruct (IH (or_insert (key x) x m)) as [Hk Hd]; [|done|].
  - intros k y. unfold or_insert. destruct (m !! key x); [apply Hm|].
    rewrite lookup_insert_Some. intros [[<- <-]|[_ Hy]]; [done|by apply Hm].
  - split; [done|]. rewrite Hd, or_insert_dom. cbn [list_to_set]. clear. set_solver.
Qed.

Lemma parsed_evidence v p :
  cbor_to_proof v limits = Ok p → Forall (λ e, evd_v e = 1) (prf_evidence p).
Proof.
  unfold cbor_to_proof. intros Hp. to_lookups. cbn [prf_evidence].
  match goal with Hm : mapM (λ item, cbor_to_evidence item limits) _ = Ok _ |- _ =>
    apply mapM_Ok in Hm; eapply Forall2_Forall_r; [exact Hm|] end.
  apply Forall_forall. intros item _ e He.
  unfold cbor_to_evidence in He. by to_lookups.
Qed.

Lemma merge_events_fold m l m' :
  merge_events m l = Ok m' → m' = foldl (λ m e, or_insert (event_key e) e m) m l.
Proof.
  revert m. induction l as [|e l IH]; intros m Hm; cbn [merge_events foldl] in *; [congruence|].
  apply bind_Ok in Hm as (v & [_ ->]%event_to_cbor_Ok & Hm). by apply IH.
Qed.
Lemma merge_attestations_keeps m l m' :
  merge_attestations m l = Ok m' →
  (∀ k a, m !! k = Some a → genuine_attestation limits a ∧ ca_id a = k) →
  (∀ k a, m' !! k = Some a → genuine_attestation limits a ∧ ca_id a = k) ∧
  dom m' = list_to_set (map member_attestation_id l) ∪ dom m.
Proof.
  revert m. induction l as [|a l IH]; intros m Hm Hinv; cbn [merge_attestations map list_to_set] in *.
  { injection Hm as ->. split; [done|set_solver]. }
  fold (member_attestation_id a) in Hm. destruct (m !! member_attestation_id a) as [old|] eqn:Hold.
  - destruct (IH _ Hm Hinv) as [Hi ->]. split; [done|]. apply elem_of_dom_2 in Hold. clear -Hold. set_solver.
  - apply bind_Ok in Hm as ([content vid] & Hv & Hm).
    destruct (_ || _) eqn:Hne; [done|]. apply orb_false_iff in Hne as [Hid Hc].
    apply bool_decide_eq_false, dec_stable in Hid, Hc. subst vid content.
    destruct (IH _ Hm) as [Hi ->].
    + intros k x. rewrite lookup_insert_Some. intros [[<- <-]|[_ Hx]]; [|by apply Hinv].
      split; [|done]. by eapply verified_genuine.
    + split; [done|]. rewrite dom_insert_L. clear. set_solver.
Qed.

Lemma merge_proof_inv u p u' :
  merge_proof u p = Ok u' → union_inv u → Forall (λ e, evd_v e = 1) (prf_evidence p) →
  union_inv u' ∧ un_sources u' = {[prf_proof_id p]} ∪ un_sources u ∧
  (prf_proof_id p ∈ un_sources u ∧ u' = u ∨
   union_ids u' = list_to_set (member_ids p) ∪ union_ids u).
Proof.
  unfold merge_proof. intros Hm [He Ha Hv Hr] Hev. case_bool_decide as Hin.
  { injection Hm as <-. split; [by split|]. split; [set_solver|by left]. }
  apply bind_Ok in Hm as (events & ->%merge_events_fold & Hm).
  apply bind_Ok in Hm as (atts & Hatts & [= <-]).
  destruct (foldl_or_insert event_key (λ _, True) (prf_events p) (un_events u)) as [He' Hed];
    [by intros ?? <-%He|by apply Forall_true|].
  destruct (merge_attestations_keeps _ _ _ Hatts Ha) as [Ha' Had].
  destruct (foldl_or_insert member_evidence_id _ (prf_evidence p) _ Hv Hev) as [Hv' Hvd].
  destruct (foldl_or_insert member_relationship_id (λ _, True) (prf_relationships p) (un_relationships u))
    as [Hr' Hrd]; [by intros ?? <-%Hr|by apply Forall_true|].
  split; [split; [by intros ?? [-> _]%He'|done|done|by intros ?? [-> _]%Hr']|]. split; [done|]. right. unfold union_ids, member_ids.
  cbn [un_events un_attestations un_evidence un_relationships]. cbn zeta in *.
  rewrite Hed, Had, Hvd, Hrd, !list_to_set_app_L. clear. set_solver.
Qed.

(** Uniting loads the inputs in order; the first proof of each id is merged. *)
Lemma unite_inv u paths w u' w' :
  unite u paths w = Some (Ok u', w') → union_inv u →
  ∃ inputs, each load_proof paths w = Some (Ok inputs, w') ∧ union_inv u' ∧
    un_sources u' = list_to_set (map (prf_proof_id ∘ lp_proof) inputs) ∪ un_sources u ∧
    union_ids u ⊆ union_ids u' ∧
    (∀ id, id ∈ union_ids u' → id ∈ union_ids u ∨ ∃ p, p ∈ inputs ∧ id ∈ member_ids (lp_proof p)) ∧
    (∀ s, s ∈ map (prf_proof_id ∘ lp_proof) inputs → s ∈ un_sources u ∨
       ∃ p, p ∈ inputs ∧ prf_proof_id (lp_proof p) = s ∧ ∀ id, id ∈ member_ids (lp_proof p) → id ∈ union_ids u').
Proof.
  revert u w. induction paths as [|path paths IH]; intros u w Hu Hinv; cbn [unite each] in *; cmd_inv.
  { exists []. split_and!; [done|done|set_solver|set_solver|by left|]. intros s Hs. by apply elem_of_nil in Hs. }
  match goal with Hl : load_proof path w = Some (Ok ?p, ?w1), Hm : merge_proof u _ = Ok ?v |- _ =>
    rename p into loaded; rename v into u1; rename w1 into wl; rename Hl into Hload;
    destruct (load_proof_parses _ _ _ _ Hload) as (value & _ & Hev%parsed_evidence);
    destruct (merge_proof_inv _ _ _ Hm Hinv Hev) as (Hinv1 & Hsrc & Hids) end.
  destruct (IH _ _ Hu Hinv1) as (inputs & He & Hi & Hs & Hsub & Hfrom & Hto). exists (loaded :: inputs).
  assert (union_ids u ⊆ union_ids u1) as Hsub1 by (destruct Hids as [[_ ->]|Heq]; [done|rewrite Heq; apply union_subseteq_r]).
  split_and!.
  - rewrite (cmd_bind_run _ _ _ _ _ Hload). by rewrite (cmd_bind_run _ _ _ _ _ He).
  - done.
  - rewrite Hs, Hsrc. cbn [map list_to_set compose]. clear. set_solver.
  - by etransitivity.
  - intros id [Hid|(p & Hp & Hid)]%Hfrom; [|right; exists p; split; [by right|done]].
    destruct Hids as [[_ ->]|Heq]; [by left|]. rewrite Heq in Hid. apply elem_of_union in Hid as [Hid|Hid]; [|by left].
    right. exists loaded. split; [left|by apply elem_of_list_to_set in Hid].
  - intros s [->|Hin]%elem_of_cons.
    + destruct Hids as [[Hin _]|Heq]; [by left|right]. exists loaded. split; [left|]. split; [done|].
      intros id Hid. apply Hsub. rewrite Heq. apply elem_of_union_l. by apply elem_of_list_to_set.
    + destruct (Hto s Hin) as [Hu1|(p & Hp & Hp')]; [|right; exists p; split; [by right|done]].
      rewrite Hsrc in Hu1. apply elem_of_union in Hu1 as [->%elem_of_singleton|Hu1]; [|by left].
      destruct Hids as [[Hin' _]|Heq]; [by left|right]. exists loaded. split; [left|]. split; [done|].
      intros id Hid. apply Hsub. rewrite Heq. apply elem_of_union_l. by apply elem_of_list_to_set.
Qed.

(** The values of a map that are filed under their keys. *)
Lemma hash_values_elem {A} (m : gmap string A) x : x ∈ hash_values m ↔ ∃ k, m !! k = Some x.
Proof.
  unfold hash_values. rewrite list_elem_of_omap. split; [naive_solver|]. intros [k Hk]. exists k. split; [|done].
  rewrite hash_order_perm, elem_of_elements. by apply elem_of_dom_2 in Hk.
Qed.
Lemma hash_values_keys {A} (key : A → string) (m : gmap string A) :
  (∀ k x, m !! k = Some x → key x = k) → ∀ id, id ∈ map key (hash_values m) ↔ id ∈ dom m.
Proof.
  intros Hm id. rewrite list_elem_of_fmap. setoid_rewrite hash_values_elem. rewrite elem_of_dom. split.
  - intros (x & -> & k & Hk). rewrite (Hm _ _ Hk). by exists x.
  - intros [x Hx]. exists x. rewrite (Hm _ _ Hx). eauto.
Qed.

Lemma add_references_Ok ids b b' :
  add_references b ids = Ok b' → builder_inv limits b →
  builder_inv limits b' ∧ pb_proposition b' = pb_proposition b ∧
  pb_referenced_proofs b' = pb_referenced_proofs b ++ ids ∧
  pb_events b' = pb_events b ∧ pb_attestations b' = pb_attestations b ∧ pb_evidence b' = pb_evidence b ∧
  pb_relationships b' = pb_relationships b.
Proof.
  revert b. induction ids as [|id ids IH]; intros b Ha Hinv; cbn [add_references] in Ha.
  { injection Ha as <-. by rewrite app_nil_r. }
  apply bind_Ok in Ha as (b1 & Hb1 & Ha). pose proof (add_reference_inv _ _ _ _ Hinv Hb1) as Hinv1.
  unfold add_referenced_proof in Hb1. apply bind_Ok in Hb1 as (u & _ & [= <-]).
  destruct (IH _ Ha Hinv1) as (Hi & Hp & Hr & Hm). split; [done|]. split; [done|]. split; [|done].
  rewrite Hr. cbn [pb_referenced_proofs]. by rewrite <- app_assoc.
Qed.

Lemma foldl_field {A B C} (proj : B → C) (add : B → A → B) l b :
  (∀ b x, proj (add b x) = proj b) → proj (foldl add b l) = proj b.
Proof. intros Hp. revert b. induction l as [|x l IH]; intros b; cbn [foldl]; [done|]. by rewrite IH, Hp. Qed.
Lemma foldl_app_field {A B} (proj : B → list A) (add : B → A → B) l b :
  (∀ b x, proj (add b x) = proj b ++ [x]) → proj (foldl add b l) = proj b ++ l.
Proof.
  intros Hp. revert b. induction l as [|x l IH]; intros b; cbn [foldl]; [by rewrite app_nil_r|].
  by rewrite IH, Hp, <- app_assoc.
Qed.

(** The ids of the members of a builder. *)
Definition builder_ids (b : ProofBuilder) : list string :=
  map ce_id (pb_events b) ++ map ca_id (pb_attestations b) ++ map cv_id (pb_evidence b)
  ++ map cr_id (pb_relationships b).

Lemma mapM_ids_in {A B} (f : A → Result B) (key : A → string) (id : B → string) l k :
  mapM f l = Ok k → (∀ x y, x ∈ l → f x = Ok y → id y = key x) → map id k = map key l.
Proof.
  intros Hm%mapM_Ok. induction Hm as [|x y l k Hxy _ IH]; intros Hf; [done|]. cbn [map].
  rewrite IH, (Hf _ _ (list_elem_of_here _ _) Hxy); [done|]. intros x' y' Hx'. apply Hf. by right.
Qed.

Lemma make_evidence_key e created :
  make_evidence (evd_kind e) (evd_digest e) (evd_attestation_ref e) (evd_hint e) limits = Ok created →
  evd_v e = 1 → cv_id created = member_evidence_id e.
Proof.
  unfold make_evidence. intros He Hv. apply bind_Ok in He as (u & _ & He).
  apply bind_Ok in He as (decoded & _ & He). apply bind_Ok in He as (back & _ & He).
  case_bool_decide; [done|]. injection He as <-. cbn [cv_id]. unfold member_evidence_id. do 3 f_equal.
  destruct e. cbn in *. by subst.
Qed.
Lemma make_relationship_key r created :
  make_relationship r limits = Ok created → cr_id created = member_relationship_id r.
Proof.
  unfold make_relationship. destruct (negb _); [done|]. intros Hr. apply bind_Ok in Hr as (decoded & _ & Hr).
  apply bind_Ok in Hr as (back & _ & Hr). case_bool_decide; [done|]. by injection Hr as <-.
Qed.

(** The builder of a composite: its members are genuine, and they are the united
    ones. *)
Lemma union_builder_Ok proposition created_at u b :
  union_builder proposition created_at u = Ok b → union_inv u →
  builder_inv limits b ∧ (∀ s, s ∈ pb_referenced_proofs b ↔ s ∈ un_sources u) ∧
  (∀ id, id ∈ builder_ids b ↔ id ∈ union_ids u).
Proof.
  intros Hb [He Ha Hv Hr]. unfold union_builder in Hb.
  apply bind_Ok in Hb as (b0 & Hb0 & Hb).
  apply add_references_Ok in Hb0 as (Hinv0 & _ & Href & Hb0e & Hb0a & Hb0v & Hb0r); [|apply builder_new_inv].
  cbn [builder_new pb_events pb_attestations pb_evidence pb_relationships pb_referenced_proofs app] in *.
  apply bind_Ok in Hb as (events & Hev & Hb). apply bind_Ok in Hb as (evidence & Hed & Hb).
  apply bind_Ok in Hb as (relationships & Hre & [= <-]).
  assert (map ce_id events = map event_key (hash_values (un_events u))) as Hei
    by (eapply mapM_ids_in; [exact Hev|]; by intros e y _ (_ & _ & _ & ->)%create_event_Ok).
  assert (map cv_id evidence = map member_evidence_id (hash_values (un_evidence u))) as Hvi.
  { eapply mapM_ids_in; [exact Hed|]. intros e y (k & Hk)%hash_values_elem Hy.
    apply (make_evidence_key _ _ Hy). by apply (Hv k). }
  assert (map cr_id relationships = map member_relationship_id (hash_values (un_relationships u))) as Hri
    by (eapply mapM_ids_in; [exact Hre|]; intros r y _; apply make_relationship_key).
  split_and!.
  - apply (foldl_keeps _ _ _ _ _ (add_relationship_inv limits)).
    2: { apply mapM_Ok in Hre. eapply Forall2_Forall_r; [exact Hre|]. apply Forall_forall.
         intros. by eapply make_relationship_Ok. }
    apply (foldl_keeps _ _ _ _ _ (add_evidence_inv limits)).
    2: { apply mapM_Ok in Hed. eapply Forall2_Forall_r; [exact Hed|]. apply Forall_forall.
         intros. by eapply make_evidence_Ok. }
    apply (foldl_keeps _ _ _ _ _ (add_attestation_inv limits)).
    2: { apply Forall_forall. intros a [k Hk]%hash_values_elem. by apply Ha in Hk as [? _]. }
    apply (foldl_keeps _ _ _ _ _ (add_event_inv limits)); [done|].
    apply mapM_Ok in Hev. eapply Forall2_Forall_r; [exact Hev|]. apply Forall_forall.
    intros. by eapply genuine_event.
  - intros s. rewrite !(foldl_field pb_referenced_proofs) by done.
    by rewrite Href, sort_by_perm, elem_of_elements.
  - intros id. unfold builder_ids.
    rewrite (foldl_field pb_events add_relationship), (foldl_field pb_events add_evidence),
      (foldl_field pb_events add_attestation), (foldl_app_field pb_events add_event), Hb0e by done.
    rewrite (foldl_field pb_attestations add_relationship), (foldl_field pb_attestations add_evidence),
      (foldl_app_field pb_attestations add_attestation), (foldl_field pb_attestations add_event), Hb0a by done.
    rewrite (foldl_field pb_evidence add_relationship), (foldl_app_field pb_evidence add_evidence),
      (foldl_field pb_evidence add_attestation), (foldl_field pb_evidence add_event), Hb0v by done.
    rewrite (foldl_app_field pb_relationships add_relationship), (foldl_field pb_relationships add_evidence),
      (foldl_field pb_relationships add_attestation), (foldl_field pb_relationships add_event), Hb0r by done.
    cbn [app]. rewrite Hei, Hvi, Hri. unfold union_ids. rewrite !elem_of_app, !elem_of_union.
    rewrite (hash_values_keys event_key _ He), (hash_values_keys ca_id _ (λ k a Hk, proj2 (Ha k a Hk))),
      (hash_values_keys member_evidence_id _ (λ k e Hk, proj1 (Hv k e Hk))),
      (hash_values_keys member_relationship_id _ Hr). tauto.
Qed.

(** The ids of an assembled proof are those of the builder. *)
Lemma assembled_ids prop b :
  builder_inv limits b → ∀ id, id ∈ member_ids (assemble prop (normalize b)) ↔ id ∈ builder_ids b.
Proof.
  intros Hinv id. pose proof (normalize_inv _ _ Hinv) as [He Ha Hv Hr _ _].
  assert (member_ids (assemble prop (normalize b)) = builder_ids (normalize b)) as ->.
  { unfold member_ids, builder_ids. cbn [assemble prf_events prf_attestations prf_evidence prf_relationships].
    rewrite !map_map. f_equal; [|f_equal; [|f_equal]]; apply map_ext_in; intros x Hx%list_elem_of_In.
    - rewrite Forall_forall in He. destruct (He x Hx) as [_ Hid]. unfold member_event_id in Hid.
      destruct (event_to_cbor _) as [v|] eqn:Hc; [|done]. apply event_to_cbor_Ok in Hc as [_ ->]. by injection Hid.
    - rewrite Forall_forall in Ha. symmetry. by destruct (Ha x Hx) as (_ & ? & _).
    - rewrite Forall_forall in Hv. symmetry. by destruct (Hv x Hx).
    - rewrite Forall_forall in Hr. symmetry. by destruct (Hr x Hx). }
  unfold builder_ids. rewrite !elem_of_app. unfold normalize.
  cbn [pb_events pb_attestations pb_evidence pb_relationships]. by rewrite !sort_by_perm.
Qed.

(** The conflict file is not the proof file. *)
Lemma strip_all_app fuel p s :
  ∃ k, as_bytes s = concat (repeat (as_bytes p) k) ++ as_bytes (strip_all fuel p s).
Proof.
  revert s. induction fuel as [|fuel IH]; intros s; [by exists 0%nat|]. cbn [strip_all].
  destruct (strip_prefix p s) as [s'|] eqn:Hs; [|by exists 0%nat].
  apply strip_prefix_Some in Hs as ->. destruct (IH s') as [k Hk]. exists (S k).
  cbn [repeat concat]. by rewrite as_bytes_app, <- app_assoc, <- Hk.
Qed.
Lemma conflicts_elsewhere out : trim_end_suffix ".json" out +:+ ".conflicts.json" ≠ out.
Proof.
  intros Heq. unfold trim_end_suffix in Heq.
  destruct (strip_all_app (String.length out) (reversed ".json") (reversed out)) as [k Hk].
  set (r := strip_all _ _ _) in *. apply (f_equal as_bytes) in Heq. rewrite as_bytes_app in Heq.
  unfold reversed in Heq, Hk. rewrite !as_of_bytes in Heq, Hk. rewrite <- Heq, rev_app_distr in Hk.
  rewrite rev_involutive in Hk. apply app_inv_tail in Hk.
  assert (k = 3)%nat as ->.
  { apply (f_equal length) in Hk. rewrite length_rev in Hk.
    assert (∀ (l : list byte) k, length (concat (repeat l k)) = k * length l)%nat as Hl.
    { intros l k'. induction k' as [|k' IH]; [done|]. cbn [repeat concat]. rewrite length_app, IH. lia. }
    rewrite Hl in Hk. change (15 = k * 5)%nat in Hk. lia. }
  vm_compute in Hk. discriminate.
Qed.

(** Loading changes no file. *)
Lemma load_proof_files path w p w' : load_proof path w = Some (Ok p, w') → w_files w' = w_files w.
Proof.
  unfold load_proof, parse_json, read_input_text, read_stdin_text, read_input_file, utf8_text, read_file_bytes.
  intros Hl. cmd_inv. case_bool_decide; cmd_inv.
  - unfold read_stdin_bytes in *. destruct (w_stdin w); [|done]. by destruct (_ <? _); simplify_eq.
  - unfold get_world in *. simplify_eq. destruct (if can_read _ then _ else _); [|done].
    by destruct (_ <? _); cmd_inv.
Qed.
Lemma unite_files paths : ∀ u w u' w', unite u paths w = Some (Ok u', w') → w_files w' = w_files w.
Proof.
  induction paths as [|p paths IH]; intros u w u' w' Hu; cbn [unite] in Hu; cmd_inv; [done|].
  match goal with Hl : load_proof _ _ = _ |- _ => apply load_proof_files in Hl as <- end. by eapply IH.
Qed.
Lemma union_graph_files paths : ∀ g w g' w', union_graph g paths w = Some (Ok g', w') → w_files w' = w_files w.
Proof.
  induction paths as [|p paths IH]; intros g w g' w' Hu; cbn [union_graph] in Hu; cmd_inv; [done|].
  match goal with Hl : load_proof _ _ = _ |- _ => apply load_proof_files in Hl as <- end. by eapply IH.
Qed.

(** The sidecar of a composite. *)
Definition conflicts_path (out : string) : string := trim_end_suffix ".json" out +:+ ".conflicts.json".
Lemma conflicts_path_file out : conflicts_path out ≠ "-".
Proof.
  intros Heq%(f_equal as_bytes)%(f_equal length). unfold conflicts_path in Heq.
  rewrite as_bytes_app, length_app in Heq. cbn in Heq. lia.
Qed.
(** What a run of [compose] did. *)
Lemma compose_inv cli w w' id out :
  compose cli w = Some (Ok id, w') → opt cli "out" = Some out → readable w' out →
  ∃ paths proposition created_at u w1 b built prop,
    input_list cli "proofs" = Ok paths ∧ unite empty_union paths w = Some (Ok u, w1) ∧
    union_builder proposition created_at u = Ok b ∧ build b limits = Ok built ∧ bp_id built = id ∧
    prf_proof_id (assemble prop (normalize b)) = id ∧
    load_proof out w' =
      Some (Ok {| lp_canonical := bp_canonical built; lp_proof := assemble prop (normalize b) |}, w') ∧
    w_files w' !! conflicts_path out =
      match divergent_pairs (un_attestations u) with
      | [] => w_files w !! conflicts_path out
      | pairs => Some (as_bytes (json_pretty (conflict_document pairs)) ++ line_end)
      end.
Proof.
  intros Hc Hout Hr. unfold compose, req in Hc. cmd_inv. fold (conflicts_path a7) in *.
  destruct (build_Ok _ _ _ Ha8) as (prop & v & _ & Hid & Hd & Hcp).
  assert (w_files w7 !! a7 = w_files w5 !! a7 ∧ w_files w7 !! conflicts_path a7 =
    match divergent_pairs (un_attestations a2) with
    | [] => w_files w5 !! conflicts_path a7
    | pairs => Some (as_bytes (json_pretty (conflict_document pairs)) ++ line_end)
    end) as [Hfile Hside].
  { destruct (divergent_pairs _); cmd_inv; [done|]. unfold write_json, write_file in *.
    rewrite bool_decide_eq_false_2 in Ha11 by apply conflicts_path_file.
    destruct (can_write _); simplify_eq. cbn [w_files].
    rewrite lookup_insert_ne by apply conflicts_elsewhere. by rewrite lookup_insert_eq. }
  eexists a, a1, a3, a2, w3, a4, a6, prop. split_and!; try done.
  - by eapply written_proof_stays.
  - rewrite Hside. destruct (divergent_pairs _); [|done].
    apply unite_files in Ha2 as <-. apply union_graph_files in Ha5 as <-.
    unfold write_proof_file, write_json, write_file, print in Ha10. case_bool_decide; [by simplify_eq|].
    destruct (can_write a7); simplify_eq. cbn [w_files]. apply lookup_insert_ne.
    intros Heq. by apply (conflicts_elsewhere a7).
Qed.

(** C24: what [compose] writes is the union of its inputs, and verifies.  When the
    command succeeds, the file loads as a proof with the announced id that every
    verifier with the default algorithm policy and limits finds cryptographically
    valid; it references exactly the input proofs; each of its members is a member
    of an input, and for each referenced id all members of an input of that id are
    members of the composite. *)
Theorem composed_file_verifies cli w w' id out ctx
  (Hc : compose cli w = Some (Ok id, w')) (Hout : opt cli "out" = Some out) (Hr : readable w' out)
  (Hctx : ctx_limits ctx = limits ∧ allowed_algs ctx = algs_strict ∧ misuse ctx = false) :
  ∃ paths inputs w1 proof report,
    input_list cli "proofs" = Ok paths ∧ each load_proof paths w = Some (Ok inputs, w1) ∧
    load_proof out w' = Some (Ok proof, w') ∧ prf_proof_id (lp_proof proof) = id ∧
    verify_proof (lp_canonical proof) ctx = Some (Ok report) ∧
    cryptographic_validity report = Validity.Valid ∧
    (∀ s, s ∈ prf_referenced_proofs (lp_proof proof) ↔ s ∈ map (prf_proof_id ∘ lp_proof) inputs) ∧
    (∀ m, m ∈ member_ids (lp_proof proof) → ∃ p, p ∈ inputs ∧ m ∈ member_ids (lp_proof p)) ∧
    (∀ s, s ∈ prf_referenced_proofs (lp_proof proof) → ∃ p, p ∈ inputs ∧ prf_proof_id (lp_proof p) = s ∧
       ∀ m, m ∈ member_ids (lp_proof p) → m ∈ member_ids (lp_proof proof)).
Proof.
  destruct (compose_inv _ _ _ _ _ Hc Hout Hr)
    as (paths & proposition & at_ & u & w1 & b & built & prop & Hpaths & Hu & Hb & Hbuild & Hid & Hpid & Hl & _).
  apply unite_inv in Hu as (inputs & Hload & Hinv & Hsrc & _ & Hfrom & Hto);
    [|split; cbn; intros ?? Hl'; by rewrite lookup_empty in Hl'].
  apply union_builder_Ok in Hb as (Hbi & Hrefs & Hids); [|done].
  destruct (built_valid _ _ _ _ Hbi Hbuild Hctx) as (report & Hv & Hval & _).
  pose proof (assembled_ids prop _ Hbi) as Hmem.
  assert (∀ s, s ∈ prf_referenced_proofs (assemble prop (normalize b)) ↔ s ∈ map (prf_proof_id ∘ lp_proof) inputs) as Href.
  { intros s. cbn [assemble normalize prf_referenced_proofs pb_referenced_proofs].
    rewrite (sort_dedup_elem (pb_referenced_proofs b)), Hrefs, Hsrc. cbn [un_sources empty_union].
    rewrite (right_id_L ∅ (∪)). apply elem_of_list_to_set. }
  eexists paths, inputs, w1, _, report. split_and!; [done|exact Hload|exact Hl|done|exact Hv|done|exact Href| |].
  - intros m Hm%Hmem%Hids. destruct (Hfrom m Hm) as [Hno|]; [|done].
    unfold union_ids in Hno. cbn in Hno. set_solver.
  - intros s Hs%Href. destruct (Hto s Hs) as [Hno|(p & Hp & Hps & Hall)]; [by apply elem_of_empty in Hno|].
    exists p. split_and!; [done|done|]. intros m Hm. by apply Hmem, Hids, Hall.
Qed.
End composites.

(** * The way out and back *)

Section transport.
Context `{SerdeJsonBuilderLaws, Os, CliTexts, HexLaws, Base64UrlLaws, Sha2Laws, SignatureLaws, UnicodeCase}.

(** The lookup in a document that was just built. *)
Lemma entry_built entries k :
  NoDup (map fst entries) → entry (json_of (JObject entries)) k = get entries k.
Proof.
  intros Hnd. destruct (json_of_object entries Hnd) as (obj & Hv & Hp).
  unfold entry, as_object. rewrite Hv. cbn. by apply get_perm.
Qed.
Lemma text_entry_string v key s :
  entry v key = Some (json_of (JString s)) → text_entry v key = Ok s.
Proof. intros He. unfold text_entry. rewrite He. cbn. unfold text_of. by rewrite json_of_string. Qed.

(** The envelope document of an artifact without a signature. *)
Definition envelope_document (kind id cbor : string) : json :=
  json_of (JObject [("container_version", json_of (JNumber (Some CONTAINER_VERSION)));
    text_field "kind" kind; text_field "id" id; text_field "cbor" cbor; ("sign1", json_of JNull)]).

Definition unsigned_envelope (kind : ArtifactKind.t) (id cbor : string) : ArtifactEnvelope :=
  {| ae_container_version := CONTAINER_VERSION; ae_kind := kind; ae_id := id; ae_cbor_hex := cbor;
     ae_sign1_b64u := None |}.

Lemma kind_entry_parse v kind :
  entry v "kind" = Some (json_of (JString (ArtifactKind.as_str kind))) → kind_entry v = Ok kind.
Proof.
  intros He. unfold kind_entry. rewrite (text_entry_string _ _ _ He). cbn [mbind result_bind].
  by rewrite (proj2 (ArtifactKind.parse_iff _ kind)).
Qed.

Lemma export_run cli src mid kind id canonical w :
  proof_path cli = Ok src → opt cli "out" = Some mid →
  read_json src w = Some (Ok (text_object (id_entries (ArtifactKind.as_str kind) id canonical)), w) →
  export cli w = (_ ← engine (verify_envelope (unsigned_envelope kind id (cbor_to_hex canonical)) limits None None);
                  write_json mid (envelope_document (ArtifactKind.as_str kind) id (cbor_to_hex canonical))) w.
Proof.
  intros Hp Ho Hr. pose proof (id_entries_keys (ArtifactKind.as_str kind) id canonical) as Hnd.
  unfold export, req. rewrite Hp, Ho. do 2 (erewrite cmd_bind_run; [|by apply pure_Ok]).
  rewrite (cmd_bind_run _ _ _ _ _ Hr).
  erewrite cmd_bind_run; [|apply pure_Ok; split; [by apply kind_entry_parse; rewrite entry_text|done]].
  erewrite cmd_bind_run; [|apply pure_Ok; split; [by apply text_entry_string; rewrite entry_text|done]].
  erewrite cmd_bind_run; [|apply pure_Ok; split; [by apply text_entry_string; rewrite entry_text|done]].
  unfold either_text. by rewrite !entry_text.
Qed.

Lemma import_run cli mid dst kind id cbor w :
  proof_path cli = Ok mid → opt cli "out" = Some dst →
  read_json mid w = Some (Ok (envelope_document (ArtifactKind.as_str kind) id cbor), w) →
  import cli w = (_ ← engine (verify_envelope (unsigned_envelope kind id cbor) limits None None);
                  write_json dst (text_object [("kind", ArtifactKind.as_str kind); ("id", id); ("cbor", cbor)])) w.
Proof.
  intros Hp Ho Hr. unfold import, req. rewrite Hp, Ho. do 2 (erewrite cmd_bind_run; [|by apply pure_Ok]).
  rewrite (cmd_bind_run _ _ _ _ _ Hr).
  assert (∀ k, entry (envelope_document (ArtifactKind.as_str kind) id cbor) k =
    get [("container_version", json_of (JNumber (Some CONTAINER_VERSION)));
         text_field "kind" (ArtifactKind.as_str kind); text_field "id" id; text_field "cbor" cbor;
         ("sign1", json_of JNull)] k) as He.
  { intros k. apply entry_built. cbn. repeat (apply NoDup_cons; split; [set_solver|]). apply NoDup_nil_2. }
  erewrite cmd_bind_run; [|apply pure_Ok; split; [by apply kind_entry_parse; rewrite He|done]].
  assert (entry (envelope_document (ArtifactKind.as_str kind) id cbor) "container_version" =
    Some (json_of (JNumber (Some CONTAINER_VERSION)))) as Hv by (by rewrite He).
  assert (entry (envelope_document (ArtifactKind.as_str kind) id cbor) "sign1" = Some (json_of JNull) ∧
    entry (envelope_document (ArtifactKind.as_str kind) id cbor) "issuer" = None) as [Hs Hi] by (by rewrite !He).
  assert (container_ok (envelope_document (ArtifactKind.as_str kind) id cbor) = true) as ->.
  { unfold container_ok. rewrite Hv. cbn. unfold as_u64. rewrite json_of_number by (vm_compute; congruence). done. }
  erewrite cmd_bind_run; [|by apply pure_Ok].
  erewrite cmd_bind_run; [|apply pure_Ok; split; [by apply text_entry_string; rewrite He|done]].
  erewrite cmd_bind_run; [|apply pure_Ok; split; [by apply text_entry_string; rewrite He|done]].
  unfold either_text. rewrite Hs, Hi. unfold text_of. by rewrite json_of_null.
Qed.

(** Transport restores files.  When the wrapper of an artifact without a
    signature was written to a file and [export] succeeds on it, [import] of the
    exported envelope succeeds and writes the very bytes of the original file. *)
Theorem export_import_restores out_cli back_cli kind id canonical src mid dst w0 w w1
  (Hw : write_json src (text_object (id_entries (ArtifactKind.as_str kind) id canonical)) w0 = Some (Ok (), w))
  (Hsrc : readable w src) (Hexp : export out_cli w = Some (Ok (), w1))
  (Hp : proof_path out_cli = Ok src) (Ho : opt out_cli "out" = Some mid) (Hmid : readable w1 mid)
  (Hp' : proof_path back_cli = Ok mid) (Ho' : opt back_cli "out" = Some dst)
  (Hdst : dst ≠ "-" ∧ can_write dst = true) :
  ∃ w2, import back_cli w1 = Some (Ok (), w2) ∧ w_files w2 !! dst = w_files w !! src.
Proof.
  pose proof (id_entries_keys (ArtifactKind.as_str kind) id canonical) as Hnd.
  assert (read_json src w = Some (Ok (text_object (id_entries (ArtifactKind.as_str kind) id canonical)), w)) as Hread
    by (by eapply written_json_read; [apply text_object_plain|..]).
  rewrite (export_run _ _ _ _ _ _ _ Hp Ho Hread) in Hexp. cmd_inv.
  assert (built_value (envelope_document (ArtifactKind.as_str kind) id (cbor_to_hex canonical))) as Hbuilt.
  { apply built_object; [cbn; repeat (apply NoDup_cons; split; [set_solver|]); apply NoDup_nil_2|].
    repeat (apply Forall_cons; split); try constructor. vm_compute. congruence. }
  pose proof (written_json_read _ _ _ _ Hbuilt Hexp Hmid) as Hread'.
  rewrite (import_run _ _ _ _ _ _ _ Hp' Ho' Hread').
  erewrite cmd_bind_run; [|apply engine_Ok; by split].
  destruct Hdst as [Hd1 Hd2]. destruct Hsrc as [Hs1 _]. unfold write_json in *.
  rewrite bool_decide_eq_false_2 in Hw by done. rewrite bool_decide_eq_false_2 by done.
  unfold write_file in *. rewrite Hd2. eexists. split; [reflexivity|].
  destruct (can_write src); [|done]. injection Hw as <-. cbn [w_files]. by rewrite !lookup_insert_eq.
Qed.

(** A wrapper without an issuer, as [import] writes it after [export], is not
    loaded as an attestation. *)
Lemma unnamed_attestation_refused path v w a w' :
  read_json path w = Some (Ok v, w) → entry v "issuer" = None →
  load_attestation path w ≠ Some (Ok a, w').
Proof.
  intros Hr Hi Hl. unfold load_attestation, read_wrapper in Hl. cmd_inv.
  match goal with Ho : opt_str _ "issuer" ≫= _ = Ok _ |- _ => unfold opt_str in Ho; by rewrite Hi in Ho end.
Qed.
End transport.

(** * Conflicts surface *)

Section conflicts.
Context `{ClaimOrderLaws}.

Definition stated_fields (a : CreatedAttestation) : list (string * MetaValue) :=
  claim_fields (att_claim (ca_content a)).

Lemma claim_group_elem m key p :
  p ∈ claim_group m key ↔ m !! p.1 = Some p.2 ∧ claim_key p.2 = key.
Proof.
  unfold claim_group. rewrite sort_by_perm, list_elem_of_In, filter_In, <- list_elem_of_In.
  destruct p as [k a]. rewrite elem_of_map_to_list, bool_decide_eq_true. done.
Qed.
(** The pairs of a group are two statements that differ; a group in which two
    statements differ has a pair. *)
Lemma divergent_group_sound m key ct s x y :
  (ct, s, x, y) ∈ divergent_group m key →
  ∃ a b, m !! x = Some a ∧ m !! y = Some b ∧ claim_key a = (ct, s) ∧ claim_key b = (ct, s) ∧
         stated_fields a ≠ stated_fields b.
Proof.
  unfold divergent_group. pose proof (claim_group_elem m key) as Hg.
  destruct (claim_group m key) as [|base rest]; [by intros ?%elem_of_nil|].
  rewrite list_elem_of_In, in_map_iff. intros (c & [= <- <- <- <-] & [Hin Hd]%filter_In).
  apply negb_true_iff, bool_decide_eq_false in Hd. apply list_elem_of_In in Hin.
  destruct (proj1 (Hg base) (list_elem_of_here _ _)) as [Hb Hkb].
  destruct (proj1 (Hg c) (list_elem_of_further _ _ _ Hin)) as [Hc Hkc].
  exists base.2, c.2. rewrite <- (surjective_pairing key). done.
Qed.
Lemma divergent_group_complete m key x y a b :
  m !! x = Some a → m !! y = Some b → claim_key a = key → claim_key b = key →
  stated_fields a ≠ stated_fields b → ∃ x' y', (key.1, key.2, x', y') ∈ divergent_group m key.
Proof.
  intros Ha Hb Hka Hkb Hne. unfold divergent_group. pose proof (claim_group_elem m key) as Hg.
  pose proof (proj2 (Hg (x, a)) (conj Ha Hka)) as Hia. pose proof (proj2 (Hg (y, b)) (conj Hb Hkb)) as Hib.
  destruct (claim_group m key) as [|base rest]; [by apply elem_of_nil in Hia|].
  assert (∀ p, p ∈ base :: rest → stated_fields base.2 ≠ stated_fields p.2 →
    ∃ x' y', (key.1, key.2, x', y') ∈ map (λ c, (key.1, key.2, base.1, c.1))
      (List.filter (λ c, negb (bool_decide (claim_fields (att_claim (ca_content base.2)) =
                                              claim_fields (att_claim (ca_content c.2))))) rest)) as Hlist.
  { intros p [->|Hp]%elem_of_cons Hd; [done|]. exists base.1, p.1. apply list_elem_of_In, in_map_iff.
    exists p. split; [done|]. apply filter_In. split; [by apply list_elem_of_In|].
    by apply negb_true_iff, bool_decide_eq_false. }
  destruct (decide (stated_fields base.2 = stated_fields a)) as [Heq|Hd]; [|by apply (Hlist (x, a))].
  apply (Hlist (y, b)); [done|]. cbn. congruence.
Qed.

Lemma divergent_pairs_elem m q :
  q ∈ divergent_pairs m ↔ ∃ k a, m !! k = Some a ∧ q ∈ divergent_group m (claim_key a).
Proof.
  unfold divergent_pairs. rewrite list_elem_of_In, in_concat. setoid_rewrite in_map_iff. split.
  - intros (l & (key & <- & Hkey) & Hq). apply list_elem_of_In in Hkey, Hq.
    rewrite claim_order_perm, elem_of_elements, elem_of_list_to_set, list_elem_of_In, in_map_iff in Hkey.
    destruct Hkey as ([k a] & <- & Hka). apply list_elem_of_In, elem_of_map_to_list in Hka. by exists k, a.
  - intros (k & a & Hk & Hq). exists (divergent_group m (claim_key a)). split; [|by apply list_elem_of_In].
    exists (claim_key a). split; [done|]. apply list_elem_of_In.
    rewrite claim_order_perm, elem_of_elements, elem_of_list_to_set, list_elem_of_In, in_map_iff.
    exists (k, a). split; [done|]. by apply list_elem_of_In, elem_of_map_to_list.
Qed.
End conflicts.
Lemma divergent_pairs_perm (order order' : ClaimOrder) m :
  @ClaimOrderLaws order → @ClaimOrderLaws order' →
  @divergent_pairs order m ≡ₚ @divergent_pairs order' m.
Proof.
  intros Ho Ho'. unfold divergent_pairs. rewrite <- !flat_map_concat_map. apply Permutation_flat_map.
  by rewrite (@claim_order_perm order Ho), (@claim_order_perm order' Ho').
Qed.

Section surfacing.
Context `{SerdeJsonBuilderLaws, Os, CliTexts, HexLaws, Base64UrlLaws, Sha2Laws, SignatureLaws, HashOrderLaws, ClaimOrderLaws}.

(** The statements of a composite are the united ones. *)
Lemma union_statements proposition created_at u b prop :
  union_builder proposition created_at u = Ok b → ∀ s,
  s ∈ prf_attestations (assemble prop (normalize b)) ↔
  ∃ k a, un_attestations u !! k = Some a ∧ s = {| sa_content := ca_content a; sa_sign1 := ca_sign1 a |}.
Proof.
  intros Hb s. unfold union_builder in Hb. apply bind_Ok in Hb as (b0 & Hb0 & Hb).
  apply add_references_Ok in Hb0 as (_ & _ & _ & _ & Hb0a & _); [|apply builder_new_inv].
  apply bind_Ok in Hb as (events & _ & Hb). apply bind_Ok in Hb as (evidence & _ & Hb).
  apply bind_Ok in Hb as (relationships & _ & [= <-]).
  cbn [assemble prf_attestations normalize pb_attestations]. rewrite list_elem_of_In, in_map_iff.
  setoid_rewrite <- list_elem_of_In. setoid_rewrite sort_by_perm.
  rewrite (foldl_field pb_attestations add_relationship), (foldl_field pb_attestations add_evidence),
    (foldl_app_field pb_attestations add_attestation), (foldl_field pb_attestations add_event), Hb0a by done.
  setoid_rewrite hash_values_elem. naive_solver.
Qed.

Definition differ (p : Proof_) (ct s : string) (a b : StoredAttestation) : Prop :=
  a ∈ prf_attestations p ∧ b ∈ prf_attestations p ∧
  (claim_type (att_claim (sa_content a)), att_subject (sa_content a)) = (ct, s) ∧
  (claim_type (att_claim (sa_content b)), att_subject (sa_content b)) = (ct, s) ∧
  claim_fields (att_claim (sa_content a)) ≠ claim_fields (att_claim (sa_content b)).

End surfacing.

(** * Sample runs *)

Module PortSamples.
Import Toy Toy.Reader GraphSamples FileSamples SessionSamples.
#[export] Instance claims : ClaimOrder := elements.
#[export] Instance claims_laws : ClaimOrderLaws.
Proof. by intros s. Qed.
#[export] Instance ascii_case : UnicodeCase := to_lowercase.

(** A second proof over the same event, with a statement that says something
    else, and the composite of the two. *)
Definition other_attest_cli : Cli := Eval vm_compute in
  command ["attest"; "--seed"; "test"; "--subject"; "evt:v1:00"; "--claim-type"; "observed";
           "--claim"; "order=ord-2"; "--issued-at"; "100"; "--out"; "b.json"].
Definition second_cli : Cli := Eval vm_compute in
  command ["build"; "--kind"; "payment"; "--subject"; "acct:1"; "--predicate"; "disputed";
           "--created-at"; "160"; "--events"; "e.json"; "--attestations"; "b.json"; "--out"; "q.json"].
Definition compose_cli : Cli := Eval vm_compute in
  command ["compose"; "--proofs"; "p.json,q.json"; "--kind"; "payment"; "--subject"; "acct:1";
           "--predicate"; "settled"; "--created-at"; "170"; "--out"; "c.json"].
Definition two_proofs : Cmd () := _ ← session; _ ← write_attestation other_attest_cli; _ ← build_command second_cli; mret ().
Definition export_cli : Cli := Eval vm_compute in
  command ["export"; "--proof"; "e.json"; "--out"; "e.env.json"].
Definition import_cli : Cli := Eval vm_compute in
  command ["import"; "--proof"; "e.env.json"; "--out"; "r.json"].
Definition event_made : string * list byte := Eval vm_compute in
  match create_event {| ev_v := 1; ev_type := "payment.created"; ev_subject := "acct:1"; ev_effective_at := 5;
    ev_payload_ref := mkHashRef 1 HashAlgorithm.Sha256 (repeat Byte.x61 32); ev_metadata := [] |} limits with
  | Ok e => (ce_id e, ce_canonical e)
  | Err _ => ("", [])
  end.
Definition event_name : string := event_made.1.
Definition event_bytes : list byte := event_made.2.
Definition event_wrapper : json :=
  text_object (id_entries (ArtifactKind.as_str ArtifactKind.Event) event_name event_bytes).
(** The other way round through the hash maps. *)
Definition reverse_order : HashOrder := λ s, rev (elements s).
Definition reverse_order_laws : @HashOrderLaws reverse_order.
Proof. intros s. unfold hash_order, reverse_order. symmetry. apply Permutation_rev. Defined.
End PortSamples.

Section port_witnesses.
Import Toy Toy.Reader GraphSamples FileSamples SessionSamples PortSamples.

Lemma composed_file_verifies_witness :
  ∃ w proof report, load_proof "c.json" w = Some (Ok proof, w) ∧
    verify_proof (lp_canonical proof) default_ctx = Some (Ok report) ∧
    cryptographic_validity report = Validity.Valid.
Proof.
  destruct (run_check two_proofs no_files (λ _ w, match compose compose_cli w with
    | Some (Ok _, w') => small "c.json" w' | _ => false end)) as (u & w & _ & Hs); [vm_compute; reflexivity|].
  destruct (run_check (compose compose_cli) w (λ _ w', small "c.json" w')) as (id & w' & Hb & Hsm).
  { exact Hs. }
  assert (opt compose_cli "out" = Some "c.json") as Hout by (vm_compute; reflexivity).
  assert (readable w' "c.json") as Hr by (apply small_readable; [discriminate|exact Hsm]).
  destruct (composed_file_verifies compose_cli w w' id "c.json" default_ctx Hb Hout Hr)
    as (paths & inputs & w1 & proof & report & _ & _ & Hl & _ & Hv & Hc & _).
  { split; [reflexivity|]. split; vm_compute; reflexivity. }
  exists w', proof, report. exact (conj Hl (conj Hv Hc)).
Defined.


Lemma file_store_keeps_witness :
  let s := mkFileStore "store" {["store/prf:v1:a.cbor" := [Byte.x01]]} in
  file_get (put_all s [("prf:v1:a", [Byte.x02]); ("../escape", [Byte.x03])]) "prf:v1:a" = Ok (Some [Byte.x01]).
Proof.
  destruct (file_store_keeps (mkFileStore "store" {["store/prf:v1:a.cbor" := [Byte.x01]]})
    [("prf:v1:a", [Byte.x02]); ("../escape", [Byte.x03])]) as (_ & Hkept & _).
  apply Hkept. vm_compute. reflexivity.
Defined.

End port_witnesses.
