(* ===== verification/View.v ===== *)
(** View: the commands that show, [crates/proof-cli/src/inspect.rs], [graph.rs]
    and [doctor.rs].

    [inspect] prints the contents of a proof or of one artifact, [graph] draws the
    relationships as text, Graphviz or Mermaid, [doctor] reports on the
    environment.  None of them decides anything about a proof; what matters is
    what reaches the terminal and the renderers, since the files are untrusted.

    The theorems: the views of a proof hold no control characters whatever the
    file, and a Graphviz label never ends early. *)
From Stdlib Require Import Strings.Byte NArith ZArith Lia.
From stdpp Require Import pretty.
From S2P Require Import Prelude Text Core External Cbor Schema Graph Ident Claim Cose.
From S2P Require Import Report Pipeline Builder Envelope Policy State Eval Context Resolve Cli Files Commands.

(** * Pieces of text *)

Definition nl : string := of_bytes [Byte.x0a].
(** [format!] as the sequence of its pieces. *)
Definition cat (l : list string) : string := foldr String.append "" l.

(** * Inspection *)

(** One artifact of a wrapper. *)
Inductive Artifact : Type :=
| AnEvent (e : EventContent)
| AnAttestation (a : AttestationContent)
| AnEvidence (e : Evidence)
| ARelationship (r : Relationship)
| AStatus (a : AttestationContent).

(** The lines of a section, when it has any. *)
Definition section_lines (title : string) (lines : list string) : string :=
  match lines with [] => "" | _ => cat [nl; nl; title; nl; join nl lines] end.

Definition proof_view (p : Proof_) : string :=
  let prop := prf_proposition p in
  cat [join nl ["Proof Engine — Inspection (read-only, not verified)"; ""; "Proof";
         "  ID          " +:+ sanitize (prf_proof_id p);
         "  Version     " +:+ pretty (prf_v p);
         "  Proposition";
         "    Kind      " +:+ sanitize (prop_kind prop);
         "    Subject   " +:+ sanitize (prop_subject prop);
         "    Predicate " +:+ sanitize (prop_predicate prop)];
       match prop_object prop with Some object => cat [nl; "    Object    "; sanitize object] | None => "" end;
       match prop_at_time prop with Some at_time => cat [nl; "    At time   "; pretty at_time] | None => "" end;
       nl; nl;
       join nl ["Members";
         "  Events        " +:+ pretty (len (prf_events p));
         "  Attestations  " +:+ pretty (len (prf_attestations p));
         "  Evidence      " +:+ pretty (len (prf_evidence p));
         "  Relationships " +:+ pretty (len (prf_relationships p));
         ""; "Created"; "  " +:+ pretty (prf_created_at p)];
       section_lines "Events" (map (λ e, "    " +:+ sanitize (ev_subject e)) (prf_events p));
       section_lines "Attestations"
         (map (λ a, cat ["    "; sanitize (att_subject (sa_content a)); " (issuer: ";
                         sanitize (att_issuer (sa_content a)); ")"]) (prf_attestations p));
       section_lines "Evidence" (map (λ e, "    " +:+ sanitize (evd_kind e)) (prf_evidence p));
       section_lines "Relationships"
         (map (λ r, cat ["    "; sanitize (rel_from r); " → "; sanitize (rel_to r); " (";
                         sanitize (rel_type r); ")"]) (prf_relationships p))].

Section inspection.
Context `{SerdeJsonReader, !SerdeJsonBuilder, Os, CliTexts, Hex, Base64Url}.

Definition digest_text (h : HashRef) : string :=
  cat [HashAlgorithm.name (hr_alg h); ":"; hex_to_text (hr_digest h)].
(** Only some of the texts go through the sanitizer. *)
Definition artifact_view (claimed : string) (a : Artifact) : string :=
  cat ["Artifact (read-only, not verified)"; nl; nl;
    match a with
    | AnEvent e => join nl ["  Kind      event"; "  ID        " +:+ sanitize claimed;
        "  Type      " +:+ sanitize (ev_type e); "  Subject   " +:+ sanitize (ev_subject e);
        "  Effective " +:+ pretty (ev_effective_at e); "  Payload   " +:+ digest_text (ev_payload_ref e);
        cat ["  Metadata  "; pretty (len (ev_metadata e)); " entries"]]
    | AnAttestation a => join nl ["  Kind      attestation"; "  ID        " +:+ sanitize claimed;
        "  Issuer    " +:+ sanitize (att_issuer a); "  Subject   " +:+ sanitize (att_subject a);
        "  Claim     " +:+ sanitize (claim_type (att_claim a)); "  Issued    " +:+ pretty (att_issued_at a);
        "  Expires   " +:+ match att_expires_at a with Some t => pretty t | None => "none" end]
    | AnEvidence e => join nl ["  Kind      evidence"; "  ID        " +:+ sanitize claimed;
        "  EKind     " +:+ sanitize (evd_kind e); "  Digest    " +:+ digest_text (evd_digest e);
        "  AttRef    " +:+ default "none" (evd_attestation_ref e);
        "  Hint      " +:+ default "none" (evd_hint e)]
    | ARelationship r => join nl ["  Kind      relationship"; "  ID        " +:+ sanitize claimed;
        cat ["  Edge      "; sanitize (rel_from r); " → "; sanitize (rel_to r); " ("; sanitize (rel_type r); ")"];
        "  EvdRef    " +:+ default "none" (rel_evidence_ref r);
        "  AttRef    " +:+ default "none" (rel_attestation_ref r)]
    | AStatus a => join nl [cat ["  Kind      status ("; sanitize (claim_type (att_claim a)); ")"];
        "  ID        " +:+ sanitize claimed; "  Issuer    " +:+ sanitize (att_issuer a);
        "  Subject   " +:+ sanitize (att_subject a); "  Issued    " +:+ pretty (att_issued_at a)]
    end].

(** [json!] on the types of the wire model. *)
Definition jtext (s : string) : json := json_of (JString s).
Definition jnum (n : N) : json := json_of (JNumber (Some n)).
Definition jopt {A} (f : A → json) (o : option A) : json :=
  match o with Some x => f x | None => json_of JNull end.
Definition jobject (entries : list (string * json)) : json := json_of (JObject entries).
Definition meta_json (fields : list (string * MetaValue)) : json :=
  json_of (JArray (map (λ p : string * MetaValue, jobject [("key", jtext p.1);
    ("value", match p.2 with MText s => jtext s | MUint n => jnum n | MBool b => json_of (JBool b) end)]) fields)).
Definition hash_json (h : HashRef) : json :=
  jobject [("alg", jtext (HashAlgorithm.name (hr_alg h))); ("digest_hex", jtext (hex_to_text (hr_digest h)))].
Definition event_json (e : EventContent) : json :=
  jobject [("type", jtext (ev_type e)); ("subject", jtext (ev_subject e));
    ("effective_at", jnum (ev_effective_at e)); ("payload_ref", hash_json (ev_payload_ref e));
    ("metadata", meta_json (ev_metadata e))].
Definition evidence_json (e : Evidence) : json :=
  jobject [("kind", jtext (evd_kind e)); ("digest", hash_json (evd_digest e));
    ("attestation_ref", jopt jtext (evd_attestation_ref e)); ("hint", jopt jtext (evd_hint e))].
Definition relationship_json (r : Relationship) : json :=
  jobject [("from", jtext (rel_from r)); ("type", jtext (rel_type r)); ("to", jtext (rel_to r));
    ("evidence_ref", jopt jtext (rel_evidence_ref r)); ("attestation_ref", jopt jtext (rel_attestation_ref r))].
Definition attestation_json (a : AttestationContent) : json :=
  jobject [("issuer", jtext (att_issuer a)); ("subject", jtext (att_subject a));
    ("claim_type", jtext (claim_type (att_claim a))); ("claim_fields", meta_json (claim_fields (att_claim a)));
    ("issued_at", jnum (att_issued_at a)); ("expires_at", jopt jnum (att_expires_at a));
    ("evidence_ref", jopt jtext (att_evidence_ref a))].
Definition proposition_json (p : Proposition_) : json :=
  jobject [("kind", jtext (prop_kind p)); ("subject", jtext (prop_subject p));
    ("predicate", jtext (prop_predicate p)); ("object", jopt jtext (prop_object p));
    ("at_time", jopt jnum (prop_at_time p)); ("context", meta_json (prop_context p))].
Definition proof_json (p : Proof_) (label : string) : json :=
  jobject [("source", jtext label); ("proof_id", jtext (prf_proof_id p)); ("v", jnum (prf_v p));
    ("proposition", proposition_json (prf_proposition p)); ("created_at", jnum (prf_created_at p));
    ("events", json_of (JArray (map event_json (prf_events p))));
    ("attestations", json_of (JArray (map (attestation_json ∘ sa_content) (prf_attestations p))));
    ("evidence", json_of (JArray (map evidence_json (prf_evidence p))));
    ("relationships", json_of (JArray (map relationship_json (prf_relationships p))))].

(** The decoder the kind of a wrapper selects. *)
Definition read_artifact (kind : string) (value : CborValue) : option (Result Artifact) :=
  if bool_decide (kind = "event") then Some (AnEvent <$> cbor_to_event value limits)
  else if bool_decide (kind = "attestation") then Some (AnAttestation <$> cbor_to_attestation value limits)
  else if bool_decide (kind = "evidence") then Some (AnEvidence <$> cbor_to_evidence value limits)
  else if bool_decide (kind = "relationship") then Some (ARelationship <$> cbor_to_relationship value limits)
  else if bool_decide (kind = "status") then Some (AStatus <$> cbor_to_attestation value limits)
  else None.
Definition inspect_artifact (v : json) (kind label : string) (cli : Cli) : Cmd string :=
  bytes ← pure (cbor_field label v);
  value ← pure (refused label bytes (decode_strict bytes limits));
  let claimed := default "?" (entry v "id" ≫= text_of) in
  match read_artifact kind value with
  | None => fails Other
  | Some r =>
      a ← pure (refused label bytes r);
      let out := artifact_view claimed a in
      if has cli "json" then
        _ ← print (PrintedCompact (jobject [("source", jtext label); ("kind", jtext kind); ("id", jtext claimed);
                                            ("view", jtext out)]));
        mret label
      else
        _ ← print (PrintedText out);
        _ ← print (PrintedText (nl +:+ "INSPECTED is not VERIFIED. Use `verify` to check validity."));
        mret out
  end.
(** The bytes of a wrapper as a proof, with no look at its other fields. *)
Definition wrapped_proof (label : string) (v : json) : CliResult Proof_ :=
  bytes ← cbor_field label v;
  value ← refused label bytes (decode_strict bytes limits);
  refused label bytes (cbor_to_proof value limits).
Definition SINGLE_KINDS : list string := ["event"; "attestation"; "evidence"; "relationship"; "status"].
Definition inspect (cli : Cli) : Cmd string :=
  path ← pure (proof_path cli);
  '(text, label) ← read_input_text path;
  v ← parse_json label text;
  match (match entry v "kind" ≫= text_of with
         | Some kind => if bool_decide (kind ∈ SINGLE_KINDS) then Some kind else None
         | None => None
         end) with
  | Some kind => inspect_artifact v kind label cli
  | None =>
      proof ← pure (wrapped_proof label v);
      if has cli "json" then _ ← print (PrintedJson (proof_json proof label)); mret label
      else _ ← print (PrintedText (proof_view proof)); mret (proof_view proof)
  end.
End inspection.

(** * Graphs *)

(** [str::replace] of one ASCII character. *)
Fixpoint replace_char (c : Ascii.ascii) (by_ s : string) : string :=
  match s with
  | EmptyString => ""
  | String a s' => (if decide (a = c) then by_ else String a "") +:+ replace_char c by_ s'
  end.
Definition backslash : Ascii.ascii := Ascii.ascii_of_N 92.
Definition quote_char : Ascii.ascii := Ascii.ascii_of_N 34.
Definition dot_escape (s : string) : string :=
  replace_char quote_char (String backslash quote) (replace_char backslash (String backslash (String backslash "")) s).
(** The replacements of [mermaid_escape], in their order. *)
Definition MERMAID_ENTITIES : list (N * string) :=
  [(35, "#35;"); (34, "#34;"); (124, "#124;"); (60, "#60;"); (62, "#62;"); (91, "#91;"); (93, "#93;");
   (123, "#123;"); (125, "#125;")].
Definition mermaid_escape (s : string) : string :=
  foldl (λ s p, replace_char (Ascii.ascii_of_N p.1) p.2 s) s MERMAID_ENTITIES.
(** Each character that is not an ASCII letter, a digit or an underscore becomes
    an underscore. *)
Definition id_char (c : list byte) : list byte :=
  match c with
  | [x] => if in_range 0x30 0x39 x || in_range 0x41 0x5A x || in_range 0x61 0x7A x || (b2n x =? 0x5F)
           then [x] else [Byte.x5f]
  | _ => [Byte.x5f]
  end.
Definition mermaid_id (s : string) : string :=
  let l := as_bytes s in of_bytes (concat (map id_char (chars (length l) l))).

Record Drawn : Set := mkDrawn { dr_from : string; dr_type : string; dr_to : string }.
Definition drawn_edges (p : Proof_) : list Drawn :=
  map (λ r, mkDrawn (sanitize (rel_from r)) (sanitize (rel_type r)) (sanitize (rel_to r))) (prf_relationships p).

Definition render_text (subject predicate : string) (edges : list Drawn) : string :=
  let head := join nl ["Proof Engine — Relationship Graph"; ""; cat ["Subject: "; subject; " → "; predicate]] in
  match edges with
  | [] => cat [head; nl; "No relationships found."]
  | _ => cat ([head; nl; nl; "Relationships:"]
              ++ map (λ e, cat [nl; "  "; dr_from e; nl; "      │"; nl; "    "; dr_type e; nl; "      ↓"; nl;
                                "  "; dr_to e]) edges)
  end.

Section drawing.
Context `{HashOrder}.

(** The ends of the edges, in the order of the hash map, but for the subject. *)
Definition drawn_nodes (subject : string) (edges : list Drawn) : list string :=
  List.filter (λ n, negb (bool_decide (n = subject)))
    (hash_order (list_to_set (concat (map (λ e, [dr_from e; dr_to e]) edges)))).
Definition quoted (s : string) : string := cat [quote; dot_escape s; quote].
Definition render_dot (subject predicate : string) (edges : list Drawn) : string :=
  cat (["digraph Proof {"; nl; "    rankdir=TB;"; nl;
        "    node [shape=box, style=filled, fillcolor=lightblue];"; nl;
        "    subject [label="; quote; dot_escape subject; " → "; dot_escape predicate; quote; "];"; nl]
       ++ map (λ n, cat ["    "; quoted n; " [label="; quoted n; "];"; nl]) (drawn_nodes subject edges)
       ++ map (λ e, cat ["    "; quoted (dr_from e); " -> "; quoted (dr_to e); " [label="; quoted (dr_type e);
                         ", color=blue];"; nl]) edges
       ++ ["}"; nl]).
Definition render_mermaid (subject predicate : string) (edges : list Drawn) : string :=
  cat (["graph TD"; nl; "    subject["; quote; mermaid_escape subject; " → "; mermaid_escape predicate; quote; "]"; nl]
       ++ map (λ n, cat ["    "; mermaid_id n; "["; quote; mermaid_escape n; quote; "]"; nl]) (drawn_nodes subject edges)
       ++ map (λ e, cat ["    "; mermaid_id (dr_from e); " -->|"; mermaid_escape (dr_type e); "| ";
                         mermaid_id (dr_to e); nl]) edges).
End drawing.

Section graphs.
Context `{SerdeJsonReader, !SerdeJsonBuilder, Os, CliTexts, Hex, Base64Url, HashOrder}.

Definition drawing (format : string) (p : Proof_) : CliResult string :=
  let subject := sanitize (prop_subject (prf_proposition p)) in
  let predicate := sanitize (prop_predicate (prf_proposition p)) in
  let edges := drawn_edges p in
  if bool_decide (format = "dot") then Ok (render_dot subject predicate edges)
  else if bool_decide (format = "mermaid") then Ok (render_mermaid subject predicate edges)
  else if bool_decide (format = "text") then Ok (render_text subject predicate edges)
  else UsageErr.
Definition graph (cli : Cli) : Cmd string :=
  path ← pure (proof_path cli);
  '(text, label) ← read_input_text path;
  v ← parse_json label text;
  proof ← pure (wrapped_proof label v);
  out ← pure (drawing (default "text" (opt cli "format")) proof);
  _ ← print (PrintedText out);
  mret out.
End graphs.

(** * Diagnostics *)

(** What the program sees of its surroundings: its version, the fixtures of the
    repository it was built in, which paths exist, and the names in a directory. *)
Class Environment := {
  cli_version : string;
  fixtures_dir : option string;
  path_exists : string → bool;
  read_dir : string → option (list string);
}.

Section diagnostics.
Context `{SerdeJson, Environment}.

Record Check : Set := mkCheck { ck_name : string; ck_ok : bool; ck_message : string }.
(** [Path::extension]: what follows the last dot, unless the name starts there. *)
Definition dot_char : Ascii.ascii := Ascii.ascii_of_N 46.
Definition extension (name : string) : option string :=
  match reverse (split_on dot_char name) with
  | ext :: _ :: _ => if bool_decide (name = String dot_char ext) then None else Some ext
  | _ => None
  end.
Definition count_json_files (dir : string) : N :=
  match read_dir dir with
  | Some names => len (List.filter (λ n, bool_decide (extension n = Some "json")) names)
  | None => 0
  end.
Definition doctor_checks : list Check :=
  [ mkCheck "CLI version" true cli_version;
    mkCheck "Protocol version" true "V1";
    mkCheck "Format version" true "V1";
    mkCheck "Crypto backend" true "Ed25519/P-256 (proof-crypto)";
    mkCheck "Limits" true (cat ["max_edges="; pretty (max_edges limits); ", max_nodes="; pretty (max_nodes limits);
                                ", max_depth="; pretty (max_depth limits)]);
    mkCheck "Max input file" true (cat [pretty MAX_INPUT_FILE_BYTES; " bytes"]);
    match fixtures_dir with
    | Some path => if path_exists path then mkCheck "Fixtures" true path
                   else mkCheck "Fixtures" false "not found (expected in repository root)"
    | None => mkCheck "Fixtures" false "not found (expected in repository root)"
    end;
    mkCheck "Demo directory" (path_exists "demo")
      (if path_exists "demo" then "exists" else "not found (run `proof-cli demo` to create)");
    mkCheck "Examples" (path_exists "examples")
      (if path_exists "examples" then cat [pretty (count_json_files "examples"); " policy files"] else "not found") ].
Definition doctor_report (checks : list Check) : string :=
  let passed := len (List.filter ck_ok checks) in
  cat ([join nl ["Proof Engine Doctor"; ""; "Environment checks:"; ""]]
       ++ map (λ c, cat ["  "; if ck_ok c then "✓" else "✗"; " "; ck_name c; " — "; ck_message c; nl]) checks
       ++ [nl; nl; pretty passed; "/"; pretty (len checks); " checks passed"; nl; nl;
           if passed =? len checks
           then "Everything looks good! Try `proof-cli demo` to see Proof Engine in action."
           else "Some checks failed. See above for details."]).
Definition doctor (cli : Cli) : Cmd Z :=
  _ ← print (PrintedText (doctor_report doctor_checks));
  mret (if len (List.filter ck_ok doctor_checks) =? len doctor_checks then EXIT_OK else EXIT_FAIL).
End diagnostics.

(** * What reaches the terminal *)

(** A character of well-formed text, whole. *)
Definition whole (c : list byte) : bool :=
  match c with
  | x :: l => bool_decide (length c = char_width x) && forallb (λ y, 0x80 <=? b2n y) l
  | [] => false
  end.
Definition shown (c : list byte) : Prop := whole c = true ∧ printable c = true.
(** Text of whole printable characters. *)
Definition clean (s : string) : Prop := ∃ gs, as_bytes s = concat gs ∧ Forall shown gs.

Lemma whole_grouped gs : Forall (λ c, whole c = true) gs → grouped gs.
Proof.
  induction 1 as [|[|x l] gs Hw _ IH]; [constructor|done|]. cbn in Hw. apply andb_true_iff in Hw as [Hw _].
  apply bool_decide_eq_true in Hw. by constructor.
Qed.
Lemma clean_printable s : clean s → Forall (λ c, printable c = true) (text_chars s).
Proof.
  intros (gs & -> & Hg). rewrite grouped_chars; [by eapply Forall_impl; [exact Hg|intros c []]| |done].
  apply whole_grouped. eapply Forall_impl; [exact Hg|]. by intros c [].
Qed.
Lemma clean_app s t : clean s → clean t → clean (s +:+ t).
Proof.
  intros (gs & Hs & Hgs) (gt & Ht & Hgt). exists (gs ++ gt). split; [|by apply Forall_app].
  by rewrite as_bytes_app, Hs, Ht, concat_app.
Qed.
(** Text that is known is checked by evaluation. *)
Lemma clean_check s : forallb (λ c, whole c && printable c) (text_chars s) = true → clean s.
Proof.
  intros Hf. exists (text_chars s). split; [by rewrite chars_concat|]. apply Forall_forall. intros c Hc.
  apply forallb_forall with (x := c) in Hf; [by apply andb_true_iff in Hf|by apply list_elem_of_In].
Qed.
Lemma clean_empty : clean "".
Proof. by exists []. Qed.
Lemma clean_cat l : Forall clean l → clean (cat l).
Proof. induction 1; [apply clean_empty|by apply clean_app]. Qed.
Lemma clean_join sep l : clean sep → Forall clean l → clean (join sep l).
Proof.
  intros Hsep. induction 1 as [|s l Hs Hl IH]; [apply clean_empty|]. cbn [join].
  destruct l; [done|]. apply clean_app; [done|]. by apply clean_app.
Qed.
Lemma clean_decimal s : decimal s → clean s.
Proof.
  intros Hd. exists (map (λ b, [b]) (as_bytes s)). split.
  - induction (as_bytes s) as [|b l IH]; [done|]. cbn. by rewrite <- IH by (by apply Forall_cons in Hd as []).
  - apply Forall_map. eapply Forall_impl; [exact Hd|]. intros b Hb. unfold in_range in Hb.
    apply andb_true_iff in Hb as [Hl%N.leb_le Hu%N.leb_le]. split.
    + cbn. unfold char_width. rewrite (proj2 (N.ltb_lt _ _)) by lia. done.
    + unfold printable. cbn [is_char is_control]. 
      rewrite !(proj2 (N.eqb_neq _ _)), (proj2 (N.ltb_ge _ _)) by lia. done.
Qed.

(** Well-formed text starts with a whole character. *)
Lemma in_range_high lo hi b : in_range lo hi b = true → 0x80 <= lo → (0x80 <=? b2n b) = true.
Proof. unfold in_range. intros [Hb%N.leb_le _]%andb_true_iff Hl. apply N.leb_le. lia. Qed.
Lemma tail_high b : in_range 0x80 0xBF b = true → (0x80 <=? b2n b) = true.
Proof. intros Hb. by apply in_range_high in Hb. Qed.
Lemma utf8_step x l :
  utf8_valid (x :: l) = true →
  ∃ c rest, l = c ++ rest ∧ whole (x :: c) = true ∧ utf8_valid rest = true.
Proof.
  intros Hv. cbn [utf8_valid] in Hv. unfold utf8_tail in Hv.
  assert (∀ c rest, length (x :: c) = char_width x → forallb (λ y, 0x80 <=? b2n y) c = true →
    utf8_valid rest = true → ∃ c' rest', c ++ rest = c' ++ rest' ∧ whole (x :: c') = true ∧ utf8_valid rest' = true)
    as Hgo.
  { intros c rest Hw Hc Hr. exists c, rest. split_and!; [done| |done]. cbn [whole]. rewrite Hc.
    by rewrite bool_decide_eq_true_2. }
  unfold char_width in Hgo. destruct (b2n x <? 0x80) eqn:H80; [by apply (Hgo [] l)|].
  destruct l as [|b1 l1]; [done|]. destruct (in_range 0xC2 0xDF x) eqn:H2.
  { apply andb_true_iff in Hv as [Hb1%tail_high Hv]. unfold in_range in H2.
    apply andb_true_iff in H2 as [_ H2%N.leb_le]. rewrite (proj2 (N.ltb_lt (b2n x) 0xE0)) in Hgo by lia.
    apply (Hgo [b1] l1); [done| |done]. cbn. by rewrite Hb1. }
  destruct l1 as [|b2 l2]; [done|]. destruct (in_range 0xE0 0xEF x) eqn:H3.
  { apply andb_true_iff in Hv as [[Hb1 Hb2%tail_high]%andb_true_iff Hv]. unfold in_range in H3.
    apply andb_true_iff in H3 as [H3%N.leb_le H3'%N.leb_le].
    rewrite (proj2 (N.ltb_ge (b2n x) 0xE0)), (proj2 (N.ltb_lt (b2n x) 0xF0)) in Hgo by lia.
    apply (Hgo [b1; b2] l2); [done| |done]. cbn. rewrite Hb2, andb_true_r.
    repeat case_match; apply in_range_high in Hb1; rewrite ?Hb1; done. }
  destruct l2 as [|b3 l3]; [done|].
  apply andb_true_iff in Hv as [[[[H4 Hb1]%andb_true_iff Hb2%tail_high]%andb_true_iff Hb3%tail_high]%andb_true_iff Hv]. unfold in_range in H4. apply andb_true_iff in H4 as [H4%N.leb_le _].
  rewrite (proj2 (N.ltb_ge (b2n x) 0xE0)), (proj2 (N.ltb_ge (b2n x) 0xF0)) in Hgo by lia.
  apply (Hgo [b1; b2; b3] l3); [done| |done]. cbn. rewrite Hb2, Hb3, !andb_true_r.
  repeat case_match; apply in_range_high in Hb1; rewrite ?Hb1; done.
Qed.
(** The characters of well-formed text are whole. *)
Lemma utf8_whole n : ∀ l, (length l <= n)%nat → utf8_valid l = true → Forall (λ c, whole c = true) (chars n l).
Proof.
  induction n as [|n IH]; intros [|x l] Hn Hv; try (by constructor). rewrite chars_cons.
  apply utf8_step in Hv as (c & rest & -> & Hw & Hv).
  assert (length (x :: c) = char_width x) as Hl by (apply andb_true_iff in Hw as [?%bool_decide_eq_true _]; done).
  rewrite <- Hl. change (x :: c ++ rest) with ((x :: c) ++ rest). rewrite take_app_length, drop_app_length.
  constructor; [done|]. apply IH; [|done]. cbn in Hn. rewrite length_app in Hn. lia.
Qed.
Lemma sublist_Forall {A} (P : A → Prop) l k : sublist l k → Forall P k → Forall P l.
Proof. induction 1; [done|..]; rewrite ?Forall_cons; naive_solver. Qed.
Lemma clean_sanitize s : utf8_valid (as_bytes s) = true → clean (sanitize s).
Proof.
  intros Hu. exists (sanitize_chars Plain (text_chars s)). split; [unfold sanitize; cbn zeta; apply as_of_bytes|].
  assert (Forall (λ c, whole c = true) (sanitize_chars Plain (text_chars s))) as Hw.
  { eapply sublist_Forall; [apply sanitize_sublist|]. by apply utf8_whole. }
  pose proof (sanitize_printable Plain (text_chars s)) as Hp. rewrite Forall_forall in Hw, Hp.
  apply Forall_forall. intros c Hc. split; [by apply Hw|by apply Hp].
Qed.

(** Replacing an ASCII character by clean text. *)
Lemma replace_char_bytes c by_ s :
  as_bytes (replace_char c by_ s) =
  concat (map (λ b, if decide (b = Ascii.byte_of_ascii c) then as_bytes by_ else [b]) (as_bytes s)).
Proof.
  induction s as [|a s IH]; [done|]. cbn [replace_char]. rewrite as_bytes_app, IH, (as_bytes_cons a s).
  cbn [map concat]. f_equal. destruct (decide (a = c)) as [->|Hac]; [by rewrite decide_True|].
  rewrite decide_False; [done|]. intros Heq. apply Hac.
  by rewrite <- (Ascii.ascii_of_byte_of_ascii a), Heq, Ascii.ascii_of_byte_of_ascii.
Qed.
Lemma concat_singletons {A} (l : list A) : concat (map (λ x, [x]) l) = l.
Proof. induction l as [|x l IH]; [done|]. cbn. by rewrite IH. Qed.
Lemma clean_replace c by_ s :
  b2n (Ascii.byte_of_ascii c) < 0x80 → clean by_ → clean s → clean (replace_char c by_ s).
Proof.
  intros Hc (gb & Hb & Hgb) (gs & Hs & Hgs). set (f := λ b : byte, if decide (b = Ascii.byte_of_ascii c) then as_bytes by_ else [b]).
  assert (∀ ch, shown ch → ∃ gs', concat (map f ch) = concat gs' ∧ Forall shown gs') as Hchar.
  { intros [|x l] [Hw Hp]; [done|].
    destruct (decide (x = Ascii.byte_of_ascii c)) as [Hx|Hx].
    - cbn in Hw. unfold char_width in Hw. rewrite (proj2 (N.ltb_lt (b2n x) 0x80)) in Hw by (by subst x).
      destruct l; [|done]. exists gb. split; [|done]. cbn. unfold f. by rewrite decide_True, app_nil_r.
    - exists [x :: l]. split; [|by constructor].
      assert (map f (x :: l) = map (λ b, [b]) (x :: l)) as ->.
      { apply map_ext_in. intros y [<-|Hy]; unfold f; rewrite decide_False; try done. intros ->.
        apply andb_true_iff in Hw as [_ Hw]. apply forallb_forall with (x := Ascii.byte_of_ascii c) in Hw; [|done].
        apply N.leb_le in Hw. lia. }
      rewrite concat_singletons. cbn. by rewrite app_nil_r. }
  unfold clean. rewrite replace_char_bytes. fold f. rewrite Hs. clear Hs. induction Hgs as [|ch gs Hch _ IH]; [by exists []|].
  destruct (Hchar ch Hch) as (g1 & H1' & Hg1), IH as (g2 & H2' & Hg2). exists (g1 ++ g2).
  split; [|by apply Forall_app]. cbn [concat]. by rewrite map_app, concat_app, H1', H2', concat_app.
Qed.

(** ** Parsed texts are well-formed *)

Definition well_formed (v : CborValue) : Prop := ∃ n, encodable limits n v = true.
Abbreviation utf8 := (λ s : string, utf8_valid (as_bytes s) = true).

Lemma well_formed_field m k v : well_formed (Map m) → find_field m k = Some v → well_formed v.
Proof.
  intros [[|n] Hm] Hf; [done|]. cbn in Hm. apply andb_true_iff in Hm as [[_ Hm]%andb_true_iff _]. exists n.
  induction m as [|[k' v'] m IH]; [done|]. cbn in Hm, Hf. apply andb_true_iff in Hm as [[_ Hv]%andb_true_iff Hm].
  destruct (is_key k k'); [by simplify_eq|]. by apply IH.
Qed.
Lemma well_formed_items xs : well_formed (Array xs) → Forall well_formed xs.
Proof.
  intros [[|n] Hx]; [done|]. cbn in Hx. apply andb_true_iff in Hx as [_ Hx]. apply Forall_forall. intros x Hin.
  exists n. apply forallb_forall with (x := x) in Hx; [done|by apply list_elem_of_In].
Qed.
Lemma well_formed_text s : well_formed (Text s) → utf8 s.
Proof. intros [[|n] Hs]; [done|]. cbn in Hs. by apply andb_true_iff in Hs as [Hs _]. Qed.
Lemma well_formed_opt o : well_formed (opt_text_to_cbor o) → from_option utf8 True o.
Proof. destruct o; [apply well_formed_text|done]. Qed.
Lemma text_at m k s : well_formed (Map m) → find_field m k = Some (Text s) → utf8 s.
Proof. intros Hm Hf. by eapply well_formed_text, well_formed_field. Qed.
(** The results of a parser on the items of an array. *)
Lemma parsed_items {A} (f : CborValue → Result A) (P : A → Prop) m k xs ys :
  well_formed (Map m) → find_field m k = Some (Array xs) → mapM f xs = Ok ys →
  (∀ x y, well_formed x → f x = Ok y → P y) → Forall P ys.
Proof.
  intros Hm Hf Hy HP. pose proof (well_formed_items _ (well_formed_field _ _ _ Hm Hf)) as Hx.
  apply mapM_Ok in Hy. clear Hf. induction Hy as [|x y xs' ys' Hxy _ IH]; [constructor|].
  apply Forall_cons in Hx as [Hx Hxs]. constructor; [by eapply HP|by apply IH].
Qed.

(** The texts of a proof that its views show. *)
Record proof_utf8 (p : Proof_) : Prop := {
  pu_id : utf8 (prf_proof_id p);
  pu_kind : utf8 (prop_kind (prf_proposition p));
  pu_subject : utf8 (prop_subject (prf_proposition p));
  pu_predicate : utf8 (prop_predicate (prf_proposition p));
  pu_object : from_option utf8 True (prop_object (prf_proposition p));
  pu_events : Forall (λ e, utf8 (ev_subject e)) (prf_events p);
  pu_attestations : Forall (λ a, utf8 (att_subject (sa_content a)) ∧ utf8 (att_issuer (sa_content a)))
    (prf_attestations p);
  pu_evidence : Forall (λ e, utf8 (evd_kind e)) (prf_evidence p);
  pu_relationships : Forall (λ r, utf8 (rel_from r) ∧ utf8 (rel_to r) ∧ utf8 (rel_type r)) (prf_relationships p);
}.

Ltac known_text := eapply text_at; [|eassumption]; assumption.
Ltac known_items := eapply parsed_items; [| |eassumption|]; [|eassumption|]; [assumption|].
Lemma parsed_proof_utf8 `{Base64Url} v p :
  well_formed v → cbor_to_proof v limits = Ok p → proof_utf8 p.
Proof.
  intros Hv Hp. unfold cbor_to_proof in Hp. to_lookups.
  match goal with Hq : cbor_to_proposition ?q _ = Ok _, Hf : find_field _ "proposition" = Some ?q |- _ =>
    pose proof (well_formed_field _ _ _ Hv Hf) as Hqv; unfold cbor_to_proposition in Hq; to_lookups end.
  split; cbn [prf_proof_id prf_proposition prop_kind prop_subject prop_predicate prop_object prf_events
    prf_attestations prf_evidence prf_relationships]; try solve [known_text].
  - match goal with Hf : find_field _ "object" = Some (opt_text_to_cbor ?o) |- _ =>
      exact (well_formed_opt o (well_formed_field _ _ _ Hqv Hf)) end.
  - known_items. intros x item Hx Hitem. unfold cbor_to_event in Hitem. to_lookups. cbn. known_text.
  - known_items. intros x sa Hx Hsa. unfold cbor_to_attestation_entry in Hsa. to_lookups.
    match goal with Hq : cbor_to_attestation ?q _ = Ok _, Hf : find_field _ "content" = Some ?q |- _ =>
      pose proof (well_formed_field _ _ _ Hx Hf) as Hqa; unfold cbor_to_attestation in Hq; to_lookups end.
    cbn. split; known_text.
  - known_items. intros x item Hx Hitem. unfold cbor_to_evidence in Hitem. to_lookups. cbn. known_text.
  - known_items. intros x item Hx Hitem. unfold cbor_to_relationship in Hitem. to_lookups. cbn.
    split_and!; known_text.
Qed.

(** ** The views are clean *)

(** Known text by evaluation, the rest by its pieces. *)
Ltac cleaning :=
  repeat first
    [ assumption
    | apply Forall_nil_2 | apply Forall_cons_2
    | apply clean_sanitize
    | apply clean_decimal, pretty_decimal
    | match goal with |- clean (String _ _) => idtac | |- clean "" => idtac | |- clean nl => idtac | |- clean quote => idtac end;
      apply clean_check; vm_compute; reflexivity
    | apply clean_app | apply clean_cat | apply clean_join ].

Lemma clean_section title lines : clean title → Forall clean lines → clean (section_lines title lines).
Proof. intros Ht Hl. unfold section_lines. destruct lines; [apply clean_empty|]. cleaning. Qed.
Lemma Forall_map_clean {A} (P : A → Prop) (f : A → string) l :
  Forall P l → (∀ x, P x → clean (f x)) → Forall clean (map f l).
Proof. intros Hl Hf. apply Forall_map. eapply Forall_impl; [exact Hl|done]. Qed.

Lemma proof_view_clean p : proof_utf8 p → clean (proof_view p).
Proof.
  intros [Hid Hk Hs Hp Ho He Ha Hv Hr]. unfold proof_view. apply clean_cat.
  repeat apply Forall_cons_2; [..|apply Forall_nil_2]; try (cleaning; fail).
  - destruct (prop_object _); cbn in Ho; cleaning.
  - destruct (prop_at_time _); cleaning.
  - apply clean_section; [cleaning|]. eapply Forall_map_clean; [exact He|]. intros. cleaning.
  - apply clean_section; [cleaning|]. eapply Forall_map_clean; [exact Ha|]. intros ? []. cleaning.
  - apply clean_section; [cleaning|]. eapply Forall_map_clean; [exact Hv|]. intros. cleaning.
  - apply clean_section; [cleaning|]. eapply Forall_map_clean; [exact Hr|]. intros ? (? & ? & ?). cleaning.
Qed.

(** Escaped text and node names. *)
Lemma clean_dot s : clean s → clean (dot_escape s).
Proof.
  intros Hs. unfold dot_escape. apply clean_replace; [done|apply clean_check; vm_compute; reflexivity|].
  apply clean_replace; [done|apply clean_check; vm_compute; reflexivity|done].
Qed.
Lemma clean_mermaid s : clean s → clean (mermaid_escape s).
Proof.
  unfold mermaid_escape. assert (Forall (λ p : N * string, b2n (Ascii.byte_of_ascii (Ascii.ascii_of_N p.1)) < 0x80 ∧ clean p.2)
    MERMAID_ENTITIES) as Hf.
  { repeat (apply Forall_cons_2; [split; [vm_compute; reflexivity|apply clean_check; vm_compute; reflexivity]|]).
    apply Forall_nil_2. }
  revert s. induction Hf as [|q l [Hq Hc] _ IH]; intros s Hs; [done|]. cbn [foldl]. apply IH.
  by apply clean_replace.
Qed.
Lemma clean_mermaid_id s : clean (mermaid_id s).
Proof.
  exists (map id_char (text_chars s)). split; [unfold mermaid_id; cbn zeta; apply as_of_bytes|].
  apply Forall_map, Forall_forall. intros c _.
  assert (shown [Byte.x5f]) as Hu by (by split; vm_compute).
  destruct c as [|x [|y c]]; cbn [id_char]; [done| |done]. case_match eqn:Hx; [|done].
  revert Hx. clear. destruct x; vm_compute; intros; by split || discriminate.
Qed.

Section clean_drawings.
Context `{HashOrderLaws}.

Definition clean_edge (e : Drawn) : Prop := clean (dr_from e) ∧ clean (dr_type e) ∧ clean (dr_to e).
Lemma drawn_nodes_clean subject edges : Forall clean_edge edges → Forall clean (drawn_nodes subject edges).
Proof.
  intros He. apply Forall_forall. intros n Hn. unfold drawn_nodes in Hn.
  apply list_elem_of_In, filter_In in Hn as [Hn%list_elem_of_In _].
  rewrite hash_order_perm, elem_of_elements, elem_of_list_to_set, list_elem_of_In, in_concat in Hn.
  destruct Hn as (l & (e & <- & Hin%list_elem_of_In)%in_map_iff & Hn). rewrite Forall_forall in He.
  destruct (He e Hin) as (Hf & _ & Ht). destruct Hn as [<-|[<-|[]]]; done.
Qed.
Lemma clean_quoted s : clean s → clean (quoted s).
Proof. intros Hs%clean_dot. unfold quoted. cleaning. Qed.

Lemma render_text_clean subject predicate edges :
  clean subject → clean predicate → Forall clean_edge edges → clean (render_text subject predicate edges).
Proof.
  intros Hs Hp He. unfold render_text. destruct edges as [|e edges]; [cleaning|].
  apply clean_cat, Forall_app. split; [cleaning|].
  eapply Forall_map_clean; [exact He|]. intros x (Hf & Ht & Hto). cleaning.
Qed.
Lemma render_dot_clean subject predicate edges :
  clean subject → clean predicate → Forall clean_edge edges → clean (render_dot subject predicate edges).
Proof.
  intros Hs Hp He. pose proof (clean_dot _ Hs). pose proof (clean_dot _ Hp). unfold render_dot.
  apply clean_cat. repeat (apply Forall_app; split); [cleaning| | |cleaning].
  - eapply Forall_map_clean; [by apply drawn_nodes_clean|]. intros n Hn%clean_quoted. cleaning.
  - eapply Forall_map_clean; [exact He|].
    intros x (Hf%clean_quoted & Ht%clean_quoted & Hto%clean_quoted). cleaning.
Qed.
Lemma render_mermaid_clean subject predicate edges :
  clean subject → clean predicate → Forall clean_edge edges → clean (render_mermaid subject predicate edges).
Proof.
  intros Hs%clean_mermaid Hp%clean_mermaid He. pose proof clean_mermaid_id as Hid. unfold render_mermaid.
  apply clean_cat. repeat (apply Forall_app; split); [cleaning| |].
  - eapply Forall_map_clean; [by apply drawn_nodes_clean|]. intros n Hn%clean_mermaid.
    pose proof (Hid n). cleaning.
  - eapply Forall_map_clean; [exact He|]. intros x (Hf & Ht%clean_mermaid & Hto).
    pose proof (Hid (dr_from x)). pose proof (Hid (dr_to x)). cleaning.
Qed.
Lemma drawing_clean format p out : proof_utf8 p → drawing format p = Ok out → clean out.
Proof.
  intros [_ _ Hs%clean_sanitize Hp%clean_sanitize _ _ _ _ Hr] Hd.
  assert (Forall clean_edge (drawn_edges p)) as He.
  { unfold drawn_edges. apply Forall_map. eapply Forall_impl; [exact Hr|].
    intros r (Hf & Ht & Hty). split_and!; by apply clean_sanitize. }
  unfold drawing in Hd. repeat case_bool_decide; simplify_eq;
    [by apply render_dot_clean|by apply render_mermaid_clean|by apply render_text_clean].
Qed.
End clean_drawings.

Section views.
Context `{SerdeJsonReader, !SerdeJsonBuilder, Os, CliTexts, Hex, Base64Url, HashOrderLaws}.

Lemma wrapped_proof_utf8 label v p : wrapped_proof label v = Ok p → proof_utf8 p.
Proof.
  unfold wrapped_proof, refused. intros Hp. apply bind_Ok in Hp as (bytes & _ & Hp).
  destruct (decode_strict bytes limits) as [value|] eqn:Hd; [|done]. cbn [mbind result_bind] in Hp.
  destruct (cbor_to_proof value limits) as [q|] eqn:Hq; [|done]. injection Hp as <-.
  apply decode_strict_inv in Hd as (_ & _ & He & _). eapply parsed_proof_utf8; [|exact Hq]. by eexists.
Qed.

(** Reading prints nothing. *)
Lemma read_input_stdout path w r w' : read_input_text path w = Some (Ok r, w') → w_stdout w' = w_stdout w.
Proof.
  unfold read_input_text, read_stdin_text, read_input_file, utf8_text, read_file_bytes. intros Hr.
  case_bool_decide; cmd_inv.
  - unfold read_stdin_bytes in *. destruct (w_stdin w); [|done]. by destruct (_ <? _); simplify_eq.
  - unfold get_world in *. simplify_eq. destruct (if can_read _ then _ else _); [|done].
    by destruct (_ <? _); cmd_inv.
Qed.

(** C13: the views of a proof are safe to print.  Whatever the file holds, the text
    [graph] prints, in each of its formats, and the text [inspect] prints of a
    proof consist of printable characters: no escape sequence and no control
    character of the untrusted content but newlines and tabs reaches the
    terminal. *)
Theorem views_clean cli w out w' :
  (graph cli w = Some (Ok out, w') →
     w_stdout w' = w_stdout w ++ [PrintedText out] ∧ Forall (λ c, printable c = true) (text_chars out)) ∧
  (inspect cli w = Some (Ok out, w') → w_stdout w' = w_stdout w ++ [PrintedText out] →
     Forall (λ c, printable c = true) (text_chars out)).
Proof.
  split.
  - intros Hg. unfold graph, parse_json in Hg. cmd_inv.
    match goal with Hr : read_input_text _ _ = _, Hp : print _ _ = _, Hw : wrapped_proof _ _ = _ |- _ =>
      apply read_input_stdout in Hr as <-; injection Hp as <-; apply wrapped_proof_utf8 in Hw end.
    split; [done|]. by eapply clean_printable, drawing_clean.
  - intros Hi Hout. unfold inspect, parse_json in Hi. cmd_inv.
    match goal with Hr : read_input_text _ _ = _ |- _ => apply read_input_stdout in Hr end.
    match goal with H : (match ?x with Some _ => _ | None => _ end) _ = _ |- _ => destruct x end.
    + exfalso. unfold inspect_artifact in Hi. cmd_inv. destruct (read_artifact _ _); [|done]. cmd_inv.
      destruct (has cli "json"); cmd_inv; unfold print in *; simplify_eq; cbn [w_stdout] in Hout;
        rewrite Ha0 in Hout; rewrite <- ?app_assoc in Hout; by apply app_inv_head in Hout.
    + cmd_inv. match goal with Hw : wrapped_proof _ _ = _ |- _ => apply wrapped_proof_utf8 in Hw end.
      destruct (has cli "json"); cmd_inv; [|by apply clean_printable, proof_view_clean].
      exfalso. unfold print in *. simplify_eq. cbn [w_stdout] in Hout. rewrite Ha0 in Hout.
      by apply app_inv_head in Hout.
Qed.
End views.

(** * Labels stay inside their quotes *)

(** How Graphviz reads a quoted string, after the opening quote: the pairs that
    start with a backslash are read together. *)
Fixpoint dot_string (s : string) : option (string * string) :=
  match s with
  | EmptyString => None
  | String c s' =>
      if decide (c = quote_char) then Some ("", s')
      else if decide (c = backslash) then
        match s' with
        | String d s'' =>
            '(t, rest) ← dot_string s'';
            Some ((if decide (d = quote_char ∨ d = backslash) then String d t else String c (String d t)), rest)
        | EmptyString => None
        end
      else '(t, rest) ← dot_string s'; Some (String c t, rest)
  end.

Lemma dot_escape_cons c s :
  dot_escape (String c s) =
  (if decide (c = backslash) then String backslash (String backslash "")
   else if decide (c = quote_char) then String backslash quote else String c "") +:+ dot_escape s.
Proof.
  unfold dot_escape. cbn [replace_char]. destruct (decide (c = backslash)) as [->|Hb].
  - rewrite !str_app_cons, str_app_nil. cbn [replace_char]. repeat (rewrite decide_False by done).
    by rewrite !str_app_cons, !str_app_nil.
  - rewrite str_app_cons, str_app_nil. cbn [replace_char]. by destruct (decide (c = quote_char)).
Qed.
(** Untrusted text cannot leave its Graphviz label.  Read back after the
    opening quote, an escaped text ends at the closing quote that [graph] wrote
    and nowhere before, and what is read is the text itself. *)
Theorem dot_label_roundtrip s rest : dot_string (dot_escape s +:+ quote +:+ rest) = Some (s, rest).
Proof.
  change quote with (String quote_char ""). induction s as [|c s IH]; [done|]. rewrite dot_escape_cons, str_app_assoc.
  assert (∀ d, d = quote_char ∨ d = backslash → dot_string (String backslash (String d (dot_escape s +:+ String quote_char "" +:+ rest))) =
    Some (String d s, rest)) as Hpair.
  { intros d Hd. cbn [dot_string]. rewrite decide_False, decide_True, IH by done. cbn. by rewrite decide_True. }
  destruct (decide (c = backslash)) as [->|Hb]; [apply Hpair; by right|].
  destruct (decide (c = quote_char)) as [->|Hq]; [apply Hpair; by left|].
  rewrite str_app_cons, str_app_nil. cbn [dot_string]. rewrite decide_False, decide_False by done. by rewrite IH.
Qed.

(** Distinct nodes may share a Mermaid name, and a newline survives the Mermaid
    escape. *)
Example mermaid_id_collides : mermaid_id "evt:v1:a-b" = mermaid_id "evt:v1:a_b".
Proof. vm_compute. reflexivity. Qed.
Example mermaid_newline_kept :
  mermaid_escape (cat ["SETTLES"; nl; "    x --> y"]) = cat ["SETTLES"; nl; "    x --#62; y"].
Proof. vm_compute. reflexivity. Qed.

(** * Sample views *)

Module ViewSamples.
Import Toy Toy.Reader GraphSamples FileSamples SessionSamples.
Definition graph_cli : Cli := Eval vm_compute in command ["graph"; "--proof"; "p.json"; "--format"; "dot"].
Definition inspect_cli : Cli := Eval vm_compute in command ["inspect"; "--proof"; "v.json"].
(** Evidence whose hint clears the screen, under a name that is not its own. *)
Definition hostile_hint : string := of_bytes [Byte.x1b] +:+ "[2J".
Definition hostile_evidence : list byte := Eval vm_compute in
  match make_evidence "record" (mkHashRef 1 HashAlgorithm.Sha256 (repeat Byte.x61 32)) None (Some hostile_hint) limits with
  | Ok e => cv_canonical e
  | Err _ => []
  end.
Definition hostile_wrapper : json :=
  text_object [("kind", "evidence"); ("id", "evd:v1:other"); ("cbor", cbor_to_hex hostile_evidence)].
End ViewSamples.

Section view_witnesses.
Import Toy Toy.Reader GraphSamples FileSamples SessionSamples ViewSamples.

Lemma views_clean_witness :
  ∃ w out w', graph graph_cli w = Some (Ok out, w') ∧ Forall (λ c, printable c = true) (text_chars out).
Proof.
  destruct (run_check session no_files (λ _ w, match graph graph_cli w with Some (Ok _, _) => true | _ => false end))
    as (u & w & _ & Hs); [vm_compute; reflexivity|].
  destruct (run_check (graph graph_cli) w (λ _ _, true)) as (out & w' & Hg & _).
  { exact Hs. }
  exists w, out, w'. split; [exact Hg|]. exact (proj2 (proj1 (views_clean graph_cli w out w') Hg)).
Defined.

(** The view of a single evidence item prints its hint as it is, and shows the id
    the wrapper claims without recomputing it. *)
Example evidence_view_unclean :
  ∃ w out w', inspect inspect_cli w = Some (Ok out, w') ∧ str_contains hostile_hint out = true ∧
    str_contains "  ID        evd:v1:other" out = true ∧ evidence_id hostile_evidence ≠ "evd:v1:other".
Proof.
  destruct (run_check (write_json "v.json" hostile_wrapper) no_files (λ _ w, match inspect inspect_cli w with
    | Some (Ok out, _) => str_contains hostile_hint out && str_contains "  ID        evd:v1:other" out
    | _ => false end)) as (u & w & _ & Hs); [vm_compute; reflexivity|].
  destruct (run_check (inspect inspect_cli) w (λ out _, str_contains hostile_hint out &&
    str_contains "  ID        evd:v1:other" out)) as (out & w' & Hi & [Hh Hid]%andb_true_iff).
  { exact Hs. }
  exists w, out, w'. split_and!; [exact Hi|exact Hh|exact Hid|]. vm_compute. discriminate.
Qed.
End view_witnesses.
