(* ===== verification/Explain.v ===== *)
(** Explain: what humans and scripts are told, [crates/proof-policy/src/explain.rs],
    [crates/proof-cli/src/ux.rs] and the projections of
    [crates/proof-cli/src/check.rs], with the colours of [lib.rs].

    [explain_full] is the prose of a report and an outcome, [summary] the layered
    answer that goes to the standard error, [report_json] and [outcome_json] the
    machine contract, and [response_json] the bodies that [crates/proof-api/src/api.rs]
    answers with.  Reports of this library carry no messages, so the messages
    are arguments, by position: nothing is assumed of them, and the theorems hold
    for hostile ones.

    The theorems: the explanation states the verdicts whatever it quotes, the JSON reports
    of the command line and of the API agree with the exit code, and the marks of
    the summary are those of the verdict. *)
From Stdlib Require Import Strings.Byte NArith ZArith Lia.
From stdpp Require Import pretty.
From S2P Require Import Prelude Text Core External Cbor Schema Graph Ident Claim Cose.
From S2P Require Import Report Pipeline Verdicts Builder Envelope Policy State Eval Context Resolve.
From S2P Require Import Api.
From S2P Require Import Cli Files Commands Port View.

(** * Explanations *)

Definition validity_word (v : Validity.t) : string :=
  match v with Validity.Valid => "valid" | Validity.Invalid => "invalid" end.
Definition decision_word (d : PolicyDecision.t) : string :=
  match d with
  | PolicyDecision.Pass => "PASS"
  | PolicyDecision.Fail => "FAIL"
  | PolicyDecision.Indeterminate => "INDETERMINATE"
  end.

Section explanations.
(** The messages of the check records and of the requirement results, by
    position, and the note of an outcome. *)
Context (check_message result_message : nat → string) (note_text : string).

Definition explain_report (report : VerifyReport) : string :=
  cat ([cat ["cryptographic_validity: "; validity_word (cryptographic_validity report); nl];
        cat ["evidence_validity: "; validity_word (evidence_validity report); nl];
        cat ["policy_decision: "; PolicyDecision.as_str (policy_decision report); nl]]
       ++ imap (λ i c, if chk_ok c then "" else
            cat ["FAIL"; " ["; chk_stage c; "] "; from_option ErrorCode.as_str "NO_CODE" (chk_code c); ": ";
                 check_message i; nl]) (vr_checks report)
       ++ [if forallb chk_ok (vr_checks report) then "all pipeline checks passed" +:+ nl else ""]).
Definition explain_policy (policy : Policy) : string :=
  if pol_version policy =? 2 then
    match pol_expression policy with
    | Some expr => cat ["EXPRESSION: "; describe_expr expr; nl]
    | None => "EXPRESSION: (missing)" +:+ nl
    end
  else cat ["REQUIREMENTS (all): "; join ", " (map describe (pol_requirements policy)); nl].
Definition explain_outcome (outcome : PolicyOutcome) : string :=
  cat ([cat ["POLICY: "; po_policy_id outcome; nl; nl];
        match po_results outcome with
        | [] => cat [if po_has_note outcome then note_text else "no requirements evaluated"; nl; nl]
        | _ => ""
        end]
       ++ imap (λ i r, cat [if rr_passed r then "PASS" else "FAIL"; " "; rr_requirement r; " — ";
                            result_message i; nl]) (po_results outcome)
       ++ [cat [nl; "Decision: "; decision_word (po_decision outcome); nl]]).
Definition explain_full (report : VerifyReport) (outcome : PolicyOutcome) : string :=
  cat [explain_report report; nl; explain_outcome outcome].
End explanations.

(** * The machine contract *)

Section projections.
Context `{SerdeJsonReader, !SerdeJsonBuilder}.
Context (check_message lifecycle_message result_message : nat → string) (note_text : string).

Definition code_json (c : option ErrorCode.t) : json := jopt jtext (ErrorCode.as_str <$> c).
Definition texts_json (l : list string) : json := json_of (JArray (map jtext l)).
Definition report_fields (r : VerifyReport) : list (string * json) :=
    [("proof_id", jopt jtext (vr_proof_id r));
     ("cryptographic_validity", jtext (validity_word (cryptographic_validity r)));
     ("evidence_validity", jtext (validity_word (evidence_validity r)));
     ("policy_decision", jtext (PolicyDecision.as_str (policy_decision r)));
     ("currently_acceptable", json_of (JBool (is_currently_acceptable r)));
     ("lifecycle_checked", json_of (JBool (lifecycle_checked r)));
     ("status_inputs_valid", json_of (JBool (status_inputs_valid r)));
     ("lifecycle", json_of (JArray (imap (λ i l, jobject [("object", jtext (lc_object l));
        ("status", jtext (LifecycleStatus.as_str (lc_status l))); ("code", code_json (lc_code l));
        ("message", jtext (lifecycle_message i))]) (vr_lifecycle r))));
     ("status_objects", texts_json (vr_status_objects r));
     ("withdrawn_ids", texts_json (vr_withdrawn_ids r));
     ("referenced_proofs", texts_json (vr_referenced_proofs r));
     ("vocabularies", json_of (JArray (map (λ vd, jobject [("ns", jtext (voc_ns vd));
        ("version", jnum (voc_version vd))]) (vr_vocabularies r))));
     ("evidence_status", json_of (JArray (map (λ e, jobject [("object", jtext (es_object e));
        ("status", jtext (EvidenceStatus.as_str (es_status e))); ("code", code_json (es_code e));
        ("message", jtext (es_message e))]) (vr_evidence_status r))));
     ("conflicts", json_of (JArray (map (λ c, jobject [("kind", jtext (ConflictKind.as_str (cf_kind c)));
        ("claim_type", jtext (cf_claim_type c)); ("subject", jtext (cf_subject c));
        ("attestation_ids", texts_json (cf_attestation_ids c))]) (vr_conflicts r))));
     ("checks", json_of (JArray (imap (λ i c, jobject [("stage", jtext (chk_stage c));
        ("object", jtext (chk_object c)); ("ok", json_of (JBool (chk_ok c))); ("code", code_json (chk_code c));
        ("message", jtext (check_message i))]) (vr_checks r))))].
Definition report_json (r : VerifyReport) : json := jobject (report_fields r).
Definition outcome_json (o : PolicyOutcome) : json :=
  jobject
    [("policy_id", jtext (po_policy_id o)); ("decision", jtext (PolicyDecision.as_str (po_decision o)));
     ("note", if po_has_note o then jtext note_text else json_of JNull);
     ("results", json_of (JArray (imap (λ i r, jobject [("requirement", jtext (rr_requirement r));
        ("passed", json_of (JBool (rr_passed r))); ("message", jtext (result_message i))]) (po_results o))))].
End projections.

(** * The answers of the API *)

Section answers.
Context `{SerdeJsonReader, !SerdeJsonBuilder}.
(** The version of the package, the message of a refusal and those of skipped
    lines, and the messages of a report. *)
Context (version refusal : string) (skip_text : N → string) (check_message lifecycle_message result_message : nat → string) (note_text : string).

Definition api_report_fields (r : VerifyReport) : list (string * json) :=
    [("proof_id", jopt jtext (vr_proof_id r));
     ("cryptographic_validity", jtext (validity_word (cryptographic_validity r)));
     ("evidence_validity", jtext (validity_word (evidence_validity r)));
     ("policy_decision", jtext (PolicyDecision.as_str (policy_decision r)));
     ("currently_acceptable", json_of (JBool (currently_acceptable r)));
     ("lifecycle_checked", json_of (JBool (lifecycle_checked r)));
     ("status_inputs_valid", json_of (JBool (status_inputs_valid r)));
     ("codes", texts_json (map ErrorCode.as_str (failure_codes r)));
     ("lifecycle", json_of (JArray (imap (λ i l, jobject [("object", jtext (lc_object l));
        ("status", jtext (LifecycleStatus.as_str (lc_status l))); ("code", code_json (lc_code l));
        ("message", jtext (lifecycle_message i))]) (vr_lifecycle r))));
     ("evidence_status", json_of (JArray (map (λ e, jobject [("object", jtext (es_object e));
        ("status", jtext (EvidenceStatus.as_str (es_status e))); ("code", code_json (es_code e));
        ("message", jtext (es_message e))]) (vr_evidence_status r))));
     ("referenced_proofs", texts_json (vr_referenced_proofs r));
     ("conflicts", json_of (JArray (map (λ c, jobject [("kind", jtext (ConflictKind.as_str (cf_kind c)));
        ("claim_type", jtext (cf_claim_type c)); ("subject", jtext (cf_subject c));
        ("attestation_ids", texts_json (cf_attestation_ids c))]) (vr_conflicts r))))].
Definition api_report_json (r : VerifyReport) : json := jobject (api_report_fields r).
Definition err_json : json := jobject [("error", jtext refusal)].
(** The body of an answer. *)
Definition response_json (r : Response) : json :=
  match r with
  | Health => jobject [("ok", json_of (JBool true)); ("version", jtext version)]
  | Version => jobject [("name", jtext "proof-api"); ("version", jtext version)]
  | Failed => err_json
  | Verified report _ => api_report_json report
  | Evaluated report outcome acceptable currency_fail explained =>
      jobject ([("report", api_report_json report); ("outcome", outcome_json result_message note_text outcome);
                ("currently_acceptable", json_of (JBool acceptable)); ("currency_fail", json_of (JBool currency_fail))]
               ++ if explained then [("explanation", jtext (explain_full check_message result_message note_text report outcome))]
                  else [])
  | Ingested ids skipped dry_run =>
      jobject [("ingested", jnum (len ids)); ("ids", texts_json ids); ("skipped", texts_json (map skip_text skipped));
               ("dry_run", json_of (JBool dry_run))]
  end.
End answers.

(** * Colours *)

Definition MARK_OK : string := "✓".
Definition MARK_WARN : string := "⚠".
Definition MARK_BAD : string := "✗".

Section colours.
(** Whether the standard error is a terminal that wants colours. *)
Context (use_color : bool).

Definition escape : string := of_bytes [Byte.x1b].
Definition paint (code s : string) : string :=
  if use_color then cat [escape; "["; code; "m"; s; escape; "[0m"] else s.
Definition green (s : string) : string := paint "32" s.
Definition red (s : string) : string := paint "31" s.
Definition yellow (s : string) : string := paint "33" s.
Definition bold (s : string) : string := paint "1" s.
Definition color_mark (mark label : string) : string :=
  let colored := if bool_decide (mark = "✓") then green mark
                 else if bool_decide (mark = "⚠") then yellow mark else red mark in
  cat [colored; " "; label].
End colours.

(** * The summary *)

Definition short_id (id : string) : string :=
  if Nat.leb (length (text_chars id)) 24 then id
  else cat [of_bytes (concat (take 17 (text_chars id))); "…"].
Definition speak_element (raw : string) : string :=
  let s := sanitize raw in if starts_with "evt:" s then "event " +:+ short_id s else s.
(** An ASCII letter or digit, a dot, a dash or an underscore. *)
Definition speakable_char (c : list byte) : bool :=
  match c with
  | [x] => in_range 0x30 0x39 x || in_range 0x41 0x5A x || in_range 0x61 0x7A x
           || bool_decide (b2n x ∈ [0x2E; 0x2D; 0x5F])
  | _ => false
  end.
Definition claim_sentence (p : Proposition_) : option string :=
  let predicate := sanitize (prop_predicate p) in
  if negb (sempty predicate) && forallb speakable_char (text_chars predicate) then
    let subject := speak_element (prop_subject p) in
    Some (match prop_object p with
          | Some obj => cat [subject; " "; predicate; " "; speak_element obj]
          | None => cat [subject; " was "; predicate; "ed"]
          end)
  else None.
Definition claim_fallback (p : Proposition_) : string :=
  cat ["proposition kind `"; sanitize (prop_kind p); "` about subject `"; sanitize (prop_subject p);
       "` (predicate `"; sanitize (prop_predicate p); "`)";
       match prop_object p with Some o => cat [" with object `"; sanitize o; "`"] | None => "" end].

Definition integrity_axis (report : VerifyReport) (strict_fail : bool) : string * string :=
  if strict_fail then (MARK_BAD, "INVALID (historically valid, not currently acceptable)") else
  match verdict_kind report with
  | VerdictKind.Valid => (MARK_OK, "VALID")
  | VerdictKind.Historical => (MARK_OK, "HISTORICALLY_VALID (not currently acceptable)")
  | VerdictKind.Invalid => (MARK_BAD, "INVALID")
  end.
Definition decision_axis (decision : PolicyDecision.t) : string * string :=
  match decision with
  | PolicyDecision.Indeterminate => (MARK_WARN, "NOT EVALUATED")
  | PolicyDecision.Pass => (MARK_OK, "ACCEPTED")
  | PolicyDecision.Fail => (MARK_BAD, "REJECTED")
  end.
Definition with_decision (r : VerifyReport) (decision : PolicyDecision.t) : VerifyReport := {|
  vr_proof_id := vr_proof_id r; cryptographic_validity := cryptographic_validity r;
  evidence_validity := evidence_validity r; policy_decision := decision;
  lifecycle_checked := lifecycle_checked r; vr_lifecycle := vr_lifecycle r;
  vr_status_objects := vr_status_objects r; vr_withdrawn_ids := vr_withdrawn_ids r;
  vr_referenced_proofs := vr_referenced_proofs r; vr_vocabularies := vr_vocabularies r;
  vr_evidence_status := vr_evidence_status r; vr_conflicts := vr_conflicts r; vr_checks := vr_checks r;
  status_inputs_valid := status_inputs_valid r |}.

(** The warning on an empty feed that the caller allows. *)
Definition no_require_status_warning (revocations_known_at : N) : string :=
  cat ["WARNING: --no-require-status asserts caller-checked absence with 0 status objects (--revocations-known-at ";
       pretty revocations_known_at;
       "): lifecycle ACTIVE is asserted, not feed-proved. NEVER use in production; supply --status feed files + --authority keys (see `help verify`; genesis/demo only)."].

Definition conflict_human (c : ConflictRecord) : string :=
  let what := if sempty (cf_subject c) then cat ["about claim type `"; sanitize (cf_claim_type c); "`"]
              else cat ["about `"; sanitize (cf_subject c); "` (claim type `"; sanitize (cf_claim_type c); "`)"] in
  match cf_kind c with
  | ConflictKind.DivergentClaims => cat ["two or more verified attestations disagree "; what; "."]
  | ConflictKind.Denial => cat ["one verified statement denies another "; what; "."]
  | ConflictKind.Contradiction => cat ["a verified contradiction edge connects the statements "; what; "."]
  end.
Definition STAGE_NAMES : list (string * string) :=
  [("PARSE", "structure"); ("SCHEMA", "schema"); ("CANONICAL", "canonical encoding");
   ("IDENTIFIERS", "identifiers"); ("SIGNATURES", "signatures"); ("KEYS", "signing keys");
   ("TIME", "time validity"); ("REVOCATION", "revocation"); ("STATUS", "status feed");
   ("EVIDENCE", "evidence"); ("RELATIONSHIPS", "relationships"); ("GRAPH", "provenance graph");
   ("VOCABULARY", "vocabularies"); ("POLICY", "policy")].
(** A table of texts, and the text itself when it is not listed. *)
Definition translate (table : list (string * string)) (s : string) : string :=
  from_option snd s (List.find (λ p, bool_decide (p.1 = s)) table).
Definition stage_human (c : CheckRecord) : string := translate STAGE_NAMES (chk_stage c).
Definition FAILURE_REASONS : list (string * string) :=
  [("ID_MISMATCH", "the wrapper's id does not match the id bound in the bytes (tampered or mixed-up files).");
   ("SIGNATURE_INVALID", "a digital signature did not verify.");
   ("EXPIRED", "an attestation's validity window had ended at the verification clock.");
   ("REVOKED", "a valid signed revocation covers this proof.");
   ("COMPROMISED", "a signing key was reported compromised.");
   ("WITHDRAWN", "the backing evidence was withdrawn.");
   ("REVOCATION_UNKNOWN", "no revocation information was supplied, so current status could not be established (fail closed).");
   ("MALFORMED", "the proof file could not be read as a proof (truncated, corrupted, or not proof content).");
   ("SCHEMA_VIOLATION", "the proof's structure does not follow the required schema.");
   ("NON_CANONICAL", "the proof's encoding is not the required canonical form.");
   ("UNSUPPORTED_VERSION", "the proof uses a version this engine does not support.");
   ("LIMIT_EXCEEDED", "the proof exceeds a size or complexity limit.");
   ("CYCLE_DETECTED", "the proof's provenance graph contains a forbidden cycle.")].
Definition why_lines (report : VerifyReport) (integrity_ok : bool) : list string :=
  (if integrity_ok then [] else map (λ f, translate FAILURE_REASONS (ErrorCode.as_str f)) (failure_codes report))
  ++ map (λ c, "conflicting evidence: " +:+ conflict_human c) (vr_conflicts report)
  ++ (if status_inputs_valid report then []
      else ["the status feed itself had errors (proof validity unaffected; feed quality did not)."]).
Definition integrity_human_word (integrity_ok : bool) : string :=
  if integrity_ok then "valid proof" else "invalid proof".
Definition decision_human_word (label : string) : string :=
  if bool_decide (label = "ACCEPTED") then "claim accepted"
  else if bool_decide (label = "REJECTED") then "claim rejected" else "claim undecided".

Section summaries.
Context (use_color : bool) (check_message : nat → string).

Definition evidence_block (report : VerifyReport) : list string :=
  let n_att := len (List.filter (λ c, bool_decide (chk_stage c = "SIGNATURES") && starts_with "att:" (chk_object c))
                      (vr_checks report)) in
  let n_evd := len (List.filter (λ c, bool_decide (chk_stage c = "EVIDENCE") && starts_with "evd:" (chk_object c))
                      (vr_checks report)) in
  if (n_att =? 0) && (n_evd =? 0) && bool_decide (vr_conflicts report = []) then [] else
  [""; "EVIDENCE"]
  ++ (if 0 <? n_att then [cat ["  "; pretty n_att; " attestation(s) checked."]] else [])
  ++ (if 0 <? n_evd then [cat ["  "; pretty n_evd; " evidence item(s) checked."]] else [])
  ++ concat (map (λ c, [cat ["  "; yellow use_color MARK_WARN; " CONFLICTING CLAIMS — "; conflict_human c];
       "    This does NOT mean the proof is corrupted. Both statements verified; which one to accept is a policy question."])
       (vr_conflicts report)).
Definition why_block (report : VerifyReport) (integrity_ok : bool) : list string :=
  match why_lines report integrity_ok with
  | [] => []
  | why => [""; "WHY"] ++ map (λ w, "  • " +:+ w) why
  end.
Definition checks_block (report : VerifyReport) (verbose : bool) (id : string) : list string :=
  let total := len (vr_checks report) in
  let pass := len (List.filter chk_ok (vr_checks report)) in
  let tally := cat [pretty pass; "/"; pretty total; " checks passed"] in
  (if 0 <? total then [""; "VERIFICATION  " +:+ (if pass =? total then green use_color tally else red use_color tally)]
   else [])
  ++ (if verbose then
        ["Stages:"]
        ++ imap (λ i c, cat ["  "; if chk_ok c then green use_color MARK_OK else red use_color MARK_BAD; " ";
                             stage_human c; " — "; sanitize (check_message i)]) (vr_checks report)
        ++ ["  proof id: " +:+ id]
        ++ (match vr_withdrawn_ids report with
            | [] => []
            | ids => ["  withdrawn ids: " +:+ join ", " ids]
            end)
        ++ (match vr_status_objects report with
            | [] => []
            | objects => ["  status objects: " +:+ pretty (len objects)]
            end)
        ++ map (λ v, cat ["  vocabulary: "; voc_ns v; " @ "; pretty (voc_version v)]) (vr_vocabularies report)
      else ["  Proof: " +:+ short_id id]).
Definition status_block (report : VerifyReport) (integrity_ok : bool) (decision_label : string) : list string :=
  [""; cat ["STATUS  "; integrity_human_word integrity_ok; " • "; decision_human_word decision_label]]
  ++ (if bool_decide (decision_label = "NOT EVALUATED") && integrity_ok then
        ["NEXT    run `proof-cli evaluate --policy <file> …` to decide the claim (or `explain` for reasoning)."]
      else if negb integrity_ok && negb (bool_decide (failure_codes report = [])) then
        ["NEXT    see the failed checks above; `proof-cli explain --policy <file> …` gives the full reasoning."]
      else []).
Definition claim_block (proposition : option Proposition_) (verbose : bool) : list string :=
  match proposition with
  | None => []
  | Some p =>
      [""; "CLAIM"; "  " +:+ match claim_sentence p with Some s => s +:+ "." | None => claim_fallback p end]
      ++ (if verbose then [cat ["  kind: "; sanitize (prop_kind p); "  subject: "; sanitize (prop_subject p)]] else [])
  end.
Definition answer_block (report : VerifyReport) (strict_fail integrity_ok : bool) : list string :=
  let '(integrity_mark, integrity_label) := integrity_axis report strict_fail in
  let '(decision_mark, decision_label) := decision_axis (policy_decision report) in
  [color_mark use_color integrity_mark ("PROOF INTEGRITY: " +:+ integrity_label);
   color_mark use_color decision_mark ("CLAIM DECISION: " +:+ decision_label);
   if integrity_ok then "The proof is cryptographically intact and its evidence is bound to it."
   else "The proof failed verification; details below."]
  ++ (if bool_decide (decision_label = "NOT EVALUATED") then
        ["No claim decision was made (no policy was applied). A valid proof is not automatically a true claim; use `evaluate` with a policy to decide."]
      else if bool_decide (decision_label = "ACCEPTED") then ["Policy accepted the claim."]
      else if bool_decide (decision_label = "REJECTED") then ["Policy rejected the claim."] else []).
(** Whether the label starts with neither of two words. *)
Definition integrity_ok (report : VerifyReport) (strict_fail : bool) : bool :=
  let label := (integrity_axis report strict_fail).2 in
  negb (starts_with "INVALID" label) && negb (starts_with "HISTORICAL" label).
(** The lines of [emit_summary_claimed]; [emit_summary] has no proposition. *)
Definition summary (report : VerifyReport) (proposition : option Proposition_) (strict_fail verbose : bool)
    : list string :=
  let id := default "?" (vr_proof_id report) in
  let ok := integrity_ok report strict_fail in
  let decision_label := (decision_axis (policy_decision report)).2 in
  answer_block report strict_fail ok ++ claim_block proposition verbose ++ evidence_block report
  ++ why_block report ok ++ checks_block report verbose id ++ status_block report ok decision_label.
End summaries.

(** * The explanation cannot contradict the verdicts *)

Lemma cat_cons s l : cat (s :: l) = s +:+ cat l.
Proof. done. Qed.
Lemma cat_app l k : cat (l ++ k) = cat l +:+ cat k.
Proof.
  induction l as [|s l IH]; [by rewrite str_app_nil|]. cbn [app]. by rewrite !cat_cons, IH, str_app_assoc.
Qed.
Lemma str_app_empty s : s +:+ "" = s.
Proof. induction s as [|c s IH]; [done|]. by rewrite str_app_cons, IH. Qed.
(** [x] is a piece of the text. *)
Definition part (x text : string) : Prop := ∃ before after, text = before +:+ x +:+ after.
Lemma part_cat x y l : part x y → y ∈ l → part x (cat l).
Proof.
  intros (b & a & ->) (l1 & l2 & ->)%list_elem_of_split. exists (cat l1 +:+ b), (a +:+ cat l2).
  by rewrite cat_app, cat_cons, !str_app_assoc.
Qed.
Lemma part_refl x : part x x.
Proof. exists "", "". by rewrite str_app_nil, str_app_empty. Qed.
Lemma cat_one s : cat [s] = s.
Proof. apply str_app_empty. Qed.

(** The lines of a text: the pieces between the newlines. *)
Definition lines_of (text : string) : list string := split_on newline text.
Lemma lines_of_app p s : lines_of (p +:+ nl +:+ s) = lines_of p ++ lines_of s.
Proof.
  change (nl +:+ s) with (String newline s). unfold lines_of.
  induction p as [|c p IH]; [by rewrite str_app_nil|]. rewrite str_app_cons. cbn [split_on]. rewrite IH.
  case_decide; [done|]. destruct (split_on newline p) eqn:E; [|done]. destruct p as [|d p]; [done|]. cbn [split_on] in E.
  revert E. case_decide; [done|]. by destruct (split_on newline p).
Qed.

Definition text_end (d : PolicyDecision.t) : string :=
  match d with
  | PolicyDecision.Pass => "Decision: PASS"
  | PolicyDecision.Fail => "Decision: FAIL"
  | PolicyDecision.Indeterminate => "Decision: INDETERMINATE"
  end.
Definition text_head (r : VerifyReport) : list string :=
  [match cryptographic_validity r with
   | Validity.Valid => "cryptographic_validity: valid" | Validity.Invalid => "cryptographic_validity: invalid" end;
   match evidence_validity r with
   | Validity.Valid => "evidence_validity: valid" | Validity.Invalid => "evidence_validity: invalid" end;
   match policy_decision r with
   | PolicyDecision.Pass => "policy_decision: pass"
   | PolicyDecision.Fail => "policy_decision: fail"
   | PolicyDecision.Indeterminate => "policy_decision: indeterminate" end].

Section explanation_lines.
Context (m rm : nat → string) (note : string) (r : VerifyReport) (o : PolicyOutcome).

Lemma explain_report_lines rest : ∃ more, lines_of (explain_report m r +:+ nl +:+ rest) = text_head r ++ more.
Proof.
  unfold explain_report. rewrite cat_app, !cat_cons. unfold text_head.
  assert (∀ v, lines_of ("cryptographic_validity: " +:+ validity_word v) = ["cryptographic_validity: " +:+ validity_word v])
    as Hc by (by intros []).
  assert (∀ v, lines_of ("evidence_validity: " +:+ validity_word v) = ["evidence_validity: " +:+ validity_word v])
    as He by (by intros []).
  assert (∀ d, lines_of ("policy_decision: " +:+ PolicyDecision.as_str d) = ["policy_decision: " +:+ PolicyDecision.as_str d])
    as Hp by (by intros []).
  set (tail := cat (_ ++ _)). eexists.
  transitivity (lines_of (("cryptographic_validity: " +:+ validity_word (cryptographic_validity r)) +:+ nl +:+
    ("evidence_validity: " +:+ validity_word (evidence_validity r)) +:+ nl +:+
    ("policy_decision: " +:+ PolicyDecision.as_str (policy_decision r)) +:+ nl +:+ tail +:+ nl +:+ rest)).
  { f_equal. unfold cat. cbn [foldr]. by rewrite !str_app_assoc, !str_app_nil. }
  rewrite !lines_of_app, Hc, He, Hp.
  destruct (cryptographic_validity r), (evidence_validity r), (policy_decision r); reflexivity.
Qed.
Lemma explain_outcome_lines : ∃ before, explain_outcome rm note o = before +:+ nl +:+ text_end (po_decision o) +:+ nl.
Proof.
  assert (cat [nl; "Decision: "; decision_word (po_decision o); nl] = nl +:+ text_end (po_decision o) +:+ nl) as Hd
    by (by destruct (po_decision o)).
  unfold explain_outcome. rewrite !cat_app, cat_one, Hd. eexists. by rewrite <- (str_app_assoc (cat _)).
Qed.

Lemma explain_check i c :
  vr_checks r !! i = Some c → chk_ok c = false →
  part (cat ["FAIL"; " ["; chk_stage c; "] "; from_option ErrorCode.as_str "NO_CODE" (chk_code c); ": "; m i; nl])
    (explain_full m rm note r o).
Proof.
  intros Hi Hc. unfold explain_full. eapply part_cat; [|left].
  unfold explain_report. eapply part_cat; [apply part_refl|].
  apply elem_of_app. right. apply elem_of_app. left. apply elem_of_lookup_imap. exists i, c. by rewrite Hc.
Qed.
Lemma explain_result i q :
  po_results o !! i = Some q →
  part (cat [if rr_passed q then "PASS" else "FAIL"; " "; rr_requirement q; " — "; rm i; nl])
    (explain_full m rm note r o).
Proof.
  intros Hi. unfold explain_full. eapply part_cat; [|right; right; left].
  unfold explain_outcome. eapply part_cat; [apply part_refl|].
  apply elem_of_app. right. apply elem_of_app. left. apply elem_of_lookup_imap. by exists i, q.
Qed.
End explanation_lines.

(** C15: the explanation cannot contradict the verdicts.  Whatever messages and
    notes it quotes, its first three lines say [valid] or [invalid] of the
    cryptographic and of the evidence validity, each under its own name, and the
    decision of the report; its last line says [PASS], [FAIL] or [INDETERMINATE] as
    the policy decided; every failed check has a line with its stage and code that
    says FAIL, and every evaluated requirement a line that says PASS exactly when it
    passed. *)
Theorem explanation_faithful m rm note r o :
  let text := explain_full m rm note r o in
  (∃ more, lines_of text = text_head r ++ more) ∧
  (∃ front, lines_of text = front ++ [text_end (po_decision o); ""]) ∧
  (∀ i c, vr_checks r !! i = Some c → chk_ok c = false →
     part (cat ["FAIL"; " ["; chk_stage c; "] "; from_option ErrorCode.as_str "NO_CODE" (chk_code c); ": "; m i; nl])
       text) ∧
  (∀ i q, po_results o !! i = Some q →
     part (cat [if rr_passed q then "PASS" else "FAIL"; " "; rr_requirement q; " — "; rm i; nl]) text).
Proof.
  cbn zeta. split_and!.
  - unfold explain_full. rewrite !cat_cons. apply explain_report_lines.
  - unfold explain_full. rewrite !cat_cons, str_app_empty. destruct (explain_outcome_lines rm note o) as [b ->].
    rewrite !lines_of_app. exists (lines_of (explain_report m r) ++ lines_of b).
    rewrite <- app_assoc. by destruct (po_decision o).
  - apply explain_check.
  - apply explain_result.
Qed.

(** * The JSON report and the summary agree with the exit code *)

Section agreement.
Context `{SerdeJsonBuilderLaws}.

Definition bool_of (v : json) : option bool := match json_view v with JBool b => Some b | _ => None end.

Lemma report_entry cm lm r k v :
  get (report_fields cm lm r) k = Some v → entry (report_json cm lm r) k = Some v.
Proof.
  intros <-. apply entry_built. cbn. repeat (apply NoDup_cons; split; [set_solver|]). apply NoDup_nil_2.
Qed.
Lemma api_report_entry lm r k v :
  get (api_report_fields lm r) k = Some v → entry (api_report_json lm r) k = Some v.
Proof.
  intros <-. apply entry_built. cbn. repeat (apply NoDup_cons; split; [set_solver|]). apply NoDup_nil_2.
Qed.
Lemma get_None (l : object_t) k : get l k = None → k ∉ map fst l.
Proof.
  induction l as [|[k' v] l IH]; cbn [get map fst]; [intros _; apply not_elem_of_nil|].
  case_bool_decide; [done|]. intros Hg. apply not_elem_of_cons. split; [congruence|auto].
Qed.
(** The two programs decide currency alike. *)
Lemma same_currency r : currently_acceptable r = is_currently_acceptable r.
Proof. done. Qed.
(** Where a key of the API report is in the report of the command line. *)
Lemma api_fields_shared cm lm r k v :
  get (api_report_fields lm r) k = Some v → k ≠ "codes" → get (report_fields cm lm r) k = Some v.
Proof.
  unfold api_report_fields, report_fields. rewrite same_currency. cbn [get]. intros Hg Hk.
  repeat (case_bool_decide; [by simplify_eq|]). repeat case_bool_decide; simplify_eq; done.
Qed.

(** C16: the JSON report says what the exit code says, from the command line and
    from the API.  Whatever messages it quotes, a report is accepted by the exit
    code of [verify] exactly when its two validity fields read valid, it passes the
    strict modes exactly when the currency field reads true besides, and every
    field of the API's report but its list of codes is the one of the command
    line. *)
Theorem report_json_agrees cm lm r :
  let v := report_json cm lm r in
  (verdict_exit r = EXIT_OK ↔
     entry v "cryptographic_validity" ≫= text_of = Some "valid" ∧ entry v "evidence_validity" ≫= text_of = Some "valid") ∧
  (is_currently_acceptable r = true ↔ entry v "currently_acceptable" ≫= bool_of = Some true) ∧
  (verdict_kind r = VerdictKind.Valid ↔
     entry v "cryptographic_validity" ≫= text_of = Some "valid" ∧ entry v "evidence_validity" ≫= text_of = Some "valid" ∧
     entry v "currently_acceptable" ≫= bool_of = Some true) ∧
  ∀ k, k ∈ map fst (api_report_fields lm r) → k ≠ "codes" → entry (api_report_json lm r) k = entry v k.
Proof.
  cbn zeta.
  rewrite (report_entry cm lm r "cryptographic_validity" (jtext _) eq_refl),
    (report_entry cm lm r "evidence_validity" (jtext _) eq_refl),
    (report_entry cm lm r "currently_acceptable" (json_of (JBool _)) eq_refl).
  cbn [mbind option_bind]. unfold jtext, text_of, bool_of. rewrite !json_of_string, json_of_bool.
  unfold verdict_exit, verdict_kind, passed_crypto. split_and!;
    [by destruct (cryptographic_validity r), (evidence_validity r); cbn; naive_solver
    |by destruct (is_currently_acceptable r); naive_solver
    |by destruct (cryptographic_validity r), (evidence_validity r), (is_currently_acceptable r); cbn; naive_solver|].
  intros k Hin Hk. destruct (get (api_report_fields lm r) k) as [v|] eqn:Hg.
  - rewrite (api_report_entry _ _ _ _ Hg). symmetry. by apply report_entry, api_fields_shared.
  - by apply get_None in Hg.
Qed.
End agreement.

(** * The summary is that of the verdict *)

Section marks.
Context (use_color : bool) (check_message : nat → string).

(** The label of the integrity line carries the validity that the rest of the
    summary uses. *)
Lemma integrity_ok_spec r strict_fail :
  integrity_ok r strict_fail = true ↔ strict_fail = false ∧ verdict_kind r = VerdictKind.Valid.
Proof. unfold integrity_ok, integrity_axis. destruct strict_fail, (verdict_kind r); vm_compute; naive_solver. Qed.
Lemma integrity_mark_spec r strict_fail :
  (integrity_axis r strict_fail).1 = MARK_OK ↔ strict_fail = false ∧ verdict_exit r = EXIT_OK.
Proof.
  unfold integrity_axis, verdict_kind, verdict_exit.
  destruct strict_fail, (passed_crypto r && _), (is_currently_acceptable r); vm_compute; naive_solver.
Qed.
Lemma decision_mark_spec d : (decision_axis d).1 = MARK_OK ↔ d = PolicyDecision.Pass.
Proof. destruct d; vm_compute; naive_solver. Qed.

(** The answer comes first and the status last, whatever is between them. *)
Lemma summary_shape r proposition strict_fail verbose : ∃ rest tail next,
  summary use_color check_message r proposition strict_fail verbose =
  color_mark use_color (integrity_axis r strict_fail).1 ("PROOF INTEGRITY: " +:+ (integrity_axis r strict_fail).2) ::
  color_mark use_color (decision_axis (policy_decision r)).1
    ("CLAIM DECISION: " +:+ (decision_axis (policy_decision r)).2) ::
  rest ++ [""; cat ["STATUS  "; integrity_human_word (integrity_ok r strict_fail); " • "; tail]] ++ next.
Proof.
  unfold summary. set (ok := integrity_ok r strict_fail). set (d := decision_axis (policy_decision r)).
  assert (∃ notes, answer_block use_color r strict_fail ok =
    color_mark use_color (integrity_axis r strict_fail).1 ("PROOF INTEGRITY: " +:+ (integrity_axis r strict_fail).2) ::
    color_mark use_color d.1 ("CLAIM DECISION: " +:+ d.2) :: notes) as [notes ->].
  { unfold answer_block, d. destruct (integrity_axis r strict_fail), (decision_axis (policy_decision r)). by eexists. }
  assert (∃ next, status_block r ok d.2 =
    [""; cat ["STATUS  "; integrity_human_word ok; " • "; decision_human_word d.2]] ++ next) as [next ->] by (by eexists).
  generalize (claim_block proposition verbose), (evidence_block use_color r), (why_block r ok),
    (checks_block use_color check_message r verbose (default "?" (vr_proof_id r))). intros l1 l2 l3 l4.
  exists (notes ++ l1 ++ l2 ++ l3 ++ l4), (decision_human_word d.2), next. by rewrite <- !app_assoc.
Qed.

End marks.

(** * On the sample reports *)

Module ExplainSamples.
Import Toy GraphSamples CoseSamples PipelineSamples.

(** The statement is superseded: valid history that is not current. *)
Definition supersession : SignedStatus := Eval vm_compute in
  status_of (supersede_attestation (ca_id created) (ca_id created2) seed 120 default_limits).
Definition report_superseded : VerifyReport := Eval vm_compute in run bytes (sample_ctx true [supersession]).
(** An identifier that clears the screen: the schema asks for a prefix only. *)
Definition hostile_id : string := "prf:v1:" +:+ escape +:+ "[2J".
Definition report_hostile : VerifyReport := Eval vm_compute in run (encode (draft hostile_id [created])) ctx.

Definition outcome : PolicyOutcome := {|
  po_policy_id := "p"; po_decision := PolicyDecision.Pass; po_results := []; po_has_note := false |}.
Definition plain (r : VerifyReport) (strict_fail verbose : bool) : list string :=
  summary false (λ _, "ok") r None strict_fail verbose.

(** The summary of a superseded proof contradicts itself: the check mark and the
    exit code of an accepted proof, then a failed verification. *)
Example superseded_contradicts :
  verdict_exit report_superseded = EXIT_OK ∧
  take 3 (plain report_superseded false false) =
    ["✓ PROOF INTEGRITY: HISTORICALLY_VALID (not currently acceptable)";
     "⚠ CLAIM DECISION: NOT EVALUATED"; "The proof failed verification; details below."] ∧
  "STATUS  invalid proof • claim undecided" ∈ plain report_superseded false false.
Proof. split_and!; [reflexivity..|]. apply list_elem_of_In. vm_compute. tauto. Qed.
(** A strict mode calls a proof with invalid evidence historically valid. *)
Example strict_calls_invalid_historical :
  verdict_kind report_required = VerdictKind.Invalid ∧ is_currently_acceptable report_required = false ∧
  head (plain report_required true false) =
    Some "✗ PROOF INTEGRITY: INVALID (historically valid, not currently acceptable)".
Proof. by vm_compute. Qed.
(** An undecided policy is reported as no policy. *)
Example indeterminate_unapplied :
  plain (with_decision report PolicyDecision.Indeterminate) false false = plain report false false.
Proof. by vm_compute. Qed.
(** The proof identifier reaches the terminal as it is, short or verbose. *)
Example hostile_id_printed :
  vr_proof_id report_hostile = Some hostile_id ∧ forallb printable (text_chars hostile_id) = false ∧
  "  Proof: " +:+ hostile_id ∈ plain report_hostile false false ∧
  "  proof id: " +:+ hostile_id ∈ plain report_hostile false true.
Proof. split_and!; [reflexivity..| |]; apply list_elem_of_In; vm_compute; tauto. Qed.
End ExplainSamples.

Section explain_witnesses.
Import Toy PipelineSamples ExplainSamples.

Lemma explanation_faithful_witness :
  let text := explain_full (λ _, "evidence_validity: valid") (λ _, "Decision: FAIL") "" report_required outcome in
  take 3 (lines_of text) =
    ["cryptographic_validity: valid"; "evidence_validity: invalid"; "policy_decision: indeterminate"] ∧
  ∃ front, lines_of text = front ++ ["Decision: PASS"; ""].
Proof.
  destruct (explanation_faithful (λ _, "evidence_validity: valid") (λ _, "Decision: FAIL") "" report_required outcome)
    as ([more Hh] & [front He] & _).
  split; [rewrite Hh; reflexivity|]. exists front. exact He.
Defined.
Lemma report_json_agrees_witness :
  verdict_kind report = VerdictKind.Valid ∧
  entry (report_json (λ _, "") (λ _, "") report) "currently_acceptable" ≫= bool_of = Some true.
Proof.
  assert (verdict_kind report = VerdictKind.Valid) as Hv by (vm_compute; reflexivity). split; [exact Hv|].
  destruct (report_json_agrees (H2 := json_builder_laws) (λ _, "") (λ _, "") report) as (_ & _ & Hk & _). apply Hk in Hv. exact (proj2 (proj2 Hv)).
Defined.
End explain_witnesses.
