(* ===== verification/Help.v ===== *)
(** Help: the texts of the command line, [crates/proof-cli/src/lib.rs]: the
    command list, the help topics, the overview and the completion scripts.

    The theorems: the words of the completion script are the command names, and
    which flags the help topics mention without the parser accepting them. *)
From Stdlib Require Import Strings.Byte NArith ZArith Lia.
From S2P Require Import Prelude Text Core External Cli Files Commands View.

Definition text_of_lines (l : list string) : string := join nl l.

(** * Texts *)

Definition COMMANDS : list (string * string) :=
  [("verify", "Verify a proof");
   ("evaluate", "Verify a proof and evaluate a policy");
   ("explain", "Explain a verification + policy result");
   ("inspect", "Show proof contents (read-only, no trust decisions)");
   ("id", "Print an artifact id or issuer (shell plumbing)");
   ("graph", "Visualize proof relationships");
   ("create-event", "Create an event artifact");
   ("attest", "Create a signed attestation");
   ("add-evidence", "Add an evidence artifact");
   ("relate", "Create a relationship edge");
   ("build", "Assemble artifacts into a proof");
   ("commit", "Compute a salted-hash commitment (confidential claims)");
   ("revoke", "Revoke an attestation");
   ("supersede", "Supersede an attestation");
   ("withdraw", "Withdraw reliance on an artifact");
   ("compromise", "Mark an identity compromised from an instant");
   ("export", "Export an artifact to the standard envelope");
   ("import", "Import a standard envelope (validated)");
   ("convert", "Normalize a legacy artifact file idempotently");
   ("compose", "Compose proofs by union of members");
   ("resolve", "Resolve transitive composition linkage");
   ("batch-verify", "Verify many proofs under one context");
   ("ingest", "Ingest JSONL event records into event artifacts");
   ("init-policy", "Generate a policy from a template + issuer (no manual JSON)");
   ("demo", "Run the end-to-end demonstration");
   ("doctor", "Diagnose the local environment");
   ("version", "Show version information");
   ("completion", "Print shell completion script");
   ("help", "Show help")].

Definition help_verify : string := text_of_lines
  ["verify — run the verification pipeline over a proof.";
   "";
   "USAGE";
   "  proof-cli verify --proof <file> --clock <u64> [options]";
   "  proof-cli verify <file> --clock <u64>            (positional proof path)";
   "  proof-cli verify --proof - --clock <u64>         (read proof from stdin)";
   "";
   "OPTIONS";
   "  --clock <u64>               verification timestamp (required; wall clock never read)";
   "  --skew <u64=300>            clock skew leeway";
   "  --revocations-known-at <u64> revocation freshness bound (omit → lifecycle UNKNOWN, fail closed)";
   "  --status <file>             status object(s), repeatable";
   "  --authority <keyref>        revocation authority key(s), repeatable";
   "  --trusted <keyref>          trusted issuer(s) echoed in context, repeatable";
   "  --esp256                    enable P-256/ES256 in addition to Ed25519 (default Ed25519-only)";
   "  --historical                verify deprecated algs as was-valid-then (forensics; policy still decides current trust)";
   "  --report-all                collect past CANONICAL diagnostics instead of fail-fast";
   "  --accepted-vocab <ns:max>   accepted vocabulary namespace bound, repeatable + comma-separated (informational notes)";
   "  --extra-grounded <TYPE>     extra trust-relevant edge kind(s), repeatable + comma-separated";
   "  --require-acyclic           provenance DAG profile: reject any relationship cycle (opt-in; default: derivation cycles already fail, REFERENCES cycles remain linkage-valid)";
   "  --require-status            no-op affirming the default: empty status feed fails closed (kept for compatibility)";
   "  --no-require-status         explicitly allow empty feed (caller-asserted absence, recorded with a note; genesis/demo only — NEVER use in production; supply --status feed files + --authority keys; still requires --revocations-known-at for PASS since omit → lifecycle UNKNOWN fail closed)";
   "  --production                strict operator profile: implies --require-acyclic + --strict-current currency (feed gate already default-on; use for verify==acceptable)";
   "  --strict-current            fail closed on VALID-but-not-current: SUPERSEDED history or unverified provenance hints → exit 1 (history preserved, currency denied)";
   "  --seen-store <file>         replay guardrail: check the proof id against a seen-store before accepting (replay → exit 1; runs on success paths only; same file shape as tools/seen_set.py)";
   "  --seen-context <ctx>        binding context for --seen-store (nonce/tx/challenge; required with --seen-store)";
   "  --seen-record               append the proof id to --seen-store on success (omit for check-only)";
   "  --out, -o <file>            write JSON report to file (`-` = stdout); default prints JSON to stdout";
   "  --quiet, -q                 suppress the human summary on stderr";
   "";
   "OUTPUT";
   "  stdout = machine-readable JSON report (never prose, never color).";
   "  stderr = human summary (✓/✗ per stage, RESULT, exit meaning).";
   "  exit 0 = valid AND (if --strict-current/--production) currently acceptable AND (if --seen-store) unseen, 1 = invalid verdict, not-current, or replay, 2 = usage/engine error (incl. unreadable seen-store when requested).";
   "  note: SUPERSEDED proofs are HISTORICALLY_VALID (exit 0, JSON currently_acceptable:false) without --strict-current/--production; use `evaluate` with `not_superseded` or --strict-current/--production for currency. Bare VALID means historically valid -- automation must check currently_acceptable.";
   "  genesis: a first proof with genuinely no revocations uses --no-require-status + --revocations-known-at (caller-asserted absence; warns loudly); production feeds use --status/--authority without --no-require-status."].
Definition help_evaluate : string := text_of_lines
  ["evaluate — verify a proof and evaluate a declarative policy over the result.";
   "";
   "USAGE";
   "  proof-cli evaluate --proof <file> --policy <file> --clock <u64> [options]";
   "";
   "OPTIONS";
   "  --policy <file>             policy JSON (required)";
   "  --clock <u64>               verifier clock (required)";
   "  --trusted <keyref>          trusted issuer(s), repeatable";
   "  --revoked <id[,id…]>        caller denylist id(s), unsigned (repeatable; checked by `not_revoked` policy leaf only — NOT the signed lifecycle feed; use --status for signed revoke/supersede)";
   "  --status <file>             signed status objects (repeatable; verified lifecycle feed — REVOKED/COMPROMISED flip evidence validity)";
   "  --authority <keyref>        revocation authority (repeatable)";
   "  --revocations-known-at <u64> freshness bound (required for PASS)";
   "  --skew <u64>                clock skew leeway (default 300)";
   "  --esp256 --historical --report-all --accepted-vocab <ns:max> --extra-grounded <TYPE> --require-acyclic --require-status --no-require-status --strict-current --production";
   "                               verifier-policy + currency flags (same semantics as verify; --production overlays currency on policy)";
   "  --seen-store <file> --seen-context <ctx> [--seen-record]";
   "                               replay guardrail: check/record the proof id per binding context (replay → exit 1; runs on policy-PASS paths only; shares tools/seen_set.py file shape)";
   "  --json, -j                  print one merged JSON document on stdout ({policy_outcome, report}; explain adds `explanation`)";
   "";
   "  OUTPUT (Fix 6: single truth per mode)";
   "    prose (default): stdout = decision prose only (`decision pass|fail|indeterminate` + per-requirement lines).";
   "      The pipeline report JSON is NOT printed (use --out/--json for it); the authoritative";
   "      decision is the prose `decision` + exit code, never report.policy_decision (always indeterminate).";
   "    --json: stdout = one JSON document {policy_outcome, report}; authoritative decision is policy_outcome.decision.";
   "    --out <file>: report JSON to file, decision prose to stdout.";
   "    --strict-current/--production overlays currency: VALID-but-not-current fails (exit 1) even when policy passes.";
   "    --seen-store/--seen-context/--seen-record overlays replay: an already-processed proof id fails (exit 1) even when policy passes.";
   "  exit 0 = policy PASS (and current, if strict/production; and unseen, if seen-store), 1 = FAIL/INDETERMINATE/not-current/replay, 2 = usage/engine error."].
Definition help_explain : string := text_of_lines
  ["explain — verify + policy, then print a human-readable causal explanation.";
   "";
   "USAGE";
   "  proof-cli explain --proof <file> --policy <file> --clock <u64> [options]";
   "";
   "Same required flags as evaluate (--clock, --revocations-known-at, --status,";
   "--authority, --trusted, --skew, verifier-policy + currency flags). Differences: prose";
   "is the default (use --out <file> to also save the JSON report); --json prints one";
   "merged document ({policy_outcome, report, explanation}). Exit codes as evaluate."].
Definition help_inspect : string := text_of_lines
  ["inspect — show what a proof or artifact contains. Performs NO trust decisions.";
   "";
   "USAGE";
   "  proof-cli inspect --proof <file>";
   "  proof-cli inspect <file>";
   "  proof-cli inspect <file> --json   (machine-readable contents on stdout)";
   "  proof-cli inspect <artifact.json> (event/attestation/evidence/relationship/status)";
   "";
   "INSPECTED is not VERIFIED. Use `verify` to check validity."].
Definition help_id : string := text_of_lines
  ["id — print one field of an artifact file (shell plumbing for content-addressed ids).";
   "";
   "USAGE";
   "  proof-cli id --artifact <file> [--field id|issuer]";
   "";
   "  --field id (default): the artifact's content id (evt:/att:/evd:/rel:/prf:…).";
   "  --field issuer: the issuer keyref (attestation/status artifacts only).";
   "";
   "  Replaces python one-liners in shell flows:";
   "    EVT=$(proof-cli id --artifact ev1.json)";
   "    ISSUER=$(proof-cli id --artifact att.json --field issuer)";
   "";
   "  Prints the value on stdout (exit 0); missing file/field is exit 2.";
   "  Read-only: verifies nothing (use `verify` for trust decisions)."].
Definition help_commit : string := text_of_lines
  ["commit — compute a salted-hash commitment for a confidential claim.";
   "";
   "USAGE";
   "  proof-cli commit --salt <text> (--value <text> | --value-file <path>) [--alg sha256|sha384] [--out <file>]";
   "";
   cat ["  Prints hex(hash("; quote; "salt|value"; quote; ")) on stdout for use in `--claim commit=<hex>`."];
   "  The value never enters the proof; policy `claim_field eq` checks the";
   "  commitment (see CONFIDENTIALITY.md). `--value` is visible to ps(1)/history";
   "  like `--seed`; prefer `--value-file` for real secrets (--production rejects";
   "  --value and requires --value-file). Salt must be unique per commitment."].
Definition help_graph : string := text_of_lines
  ["graph — visualize the relationships inside a proof.";
   "";
   "USAGE";
   "  proof-cli graph --proof <file> [--format text|dot|mermaid]";
   "";
   "  text    terminal diagram (default)";
   "  dot     Graphviz output (pipe to `dot -Tsvg > graph.svg`)";
   "  mermaid `graph TD` diagram for Markdown/docs"].
Definition help_build : string := text_of_lines
  ["build — assemble artifact files into a canonical, id-bound proof.";
   "";
   "USAGE";
   "  proof-cli build --kind <t> --subject <s> --predicate <p> [--object <o>]";
   "    [--at-time <u64>] [--context k=v,…] --created-at <u64>";
   "    --events <f[,f…]> --attestations <f[,f…]>";
   "    [--evidence <f[,f…]>] [--relationships <f[,f…]>] --out <file>";
   "";
   cat ["  --evidence/--relationships may be omitted for zero members (explicit `--evidence "; quote; quote; "`"];
   "  keeps working). --from/--to/--object take artifact ids";
   "  (evt:/att:/evd:…), never bare labels like invoice:i9."].
Definition help_create_event : string := text_of_lines
  ["create-event — write an event artifact (JSON wrapper around canonical CBOR).";
   "";
   "USAGE";
   "  proof-cli create-event --type <event.type> --subject <id>";
   "    --effective-at <u64> (--payload-hex <64|96 hex> | --payload-file <path|->) [--meta k=v,…] --out <file>";
   "";
   "  --payload-file hashes file bytes (SHA-256) — no manual digest plumbing.";
   "  Field order in --meta is free: pairs are canonicalized automatically."].
Definition help_attest : string := text_of_lines
  ["attest — bind an issuer (signing key) to a claim and sign it.";
   "";
   "USAGE";
   "  proof-cli attest --seed <test|64hex> --subject <id> --claim-type <t>";
   "    [--claim k=v,…] --issued-at <u64> [--expires-at <u64>]";
   "    [--evidence-ref <id>] --out <file>";
   "";
   "  Prefer --seed-file <path> over --seed <hex> (argv is visible to ps(1) and";
   "  shell history; --production rejects --seed and requires --seed-file).";
   "  Field order in --claim is free: pairs are canonicalized automatically.";
   "  Opt-in semantic binding (Fix 5): --claim evidence_digest=<64|96 hex> with";
   "  --evidence-ref <evd:v1:…> cryptographically ties the attested value to the";
   "  dataset digest (mismatch fails EVIDENCE closed; absent field = no check)."].
Definition help_add_evidence : string := text_of_lines
  ["add-evidence — write an evidence artifact (id-bound, no signature of its own).";
   "";
   "USAGE";
   "  proof-cli add-evidence --kind <kind> (--digest-hex <64|96 hex> | --digest-file <path|->)";
   "    [--attestation-ref <id>] [--hint <text>] --out <file>";
   "";
   "  --digest-file hashes file bytes (SHA-256) — no manual digest plumbing."].
Definition help_relate : string := text_of_lines
  ["relate — write a relationship edge between two artifact ids.";
   "";
   "USAGE";
   "  proof-cli relate --from <artifact-id> --type <TYPE> --to <artifact-id>";
   "    [--evidence-ref <id>] [--attestation-ref <id>] [--allow-ungrounded] --out <file>";
   "";
   "  --from/--to take evt:/att:/evd: ids, NOT bare labels (fails fast with a hint).";
   "  Exception: EQUIVALENT endpoints may name external identity refs";
   "  (e.g. did:org:acme) as asserted — grounding (--evidence-ref/--attestation-ref)";
   "  is still required and shaped ids must still resolve.";
   "  Trust-relevant types (OWNS/CREATED/SETTLES/EXECUTED/EQUIVALENT/CONTRADICTS)";
   "  require grounding and fail fast without it (use --allow-ungrounded only for";
   "  intentional negative-test vectors; verify still fails closed)."].
Definition help_revoke : string := text_of_lines
  ["revoke — write a signed revocation status object for an attestation.";
   "";
   "USAGE";
   "  proof-cli revoke --seed <test|64hex> --target <id> [--reason <t>] --at <u64> --out <file>"].
Definition help_supersede : string := text_of_lines
  ["supersede — write a signed supersession status object.";
   "";
   "USAGE";
   "  proof-cli supersede --seed <test|64hex> --old <id> --new <id> --at <u64> --out <file>";
   "  aliases: --target for --old, --successor for --new"].
Definition help_withdraw : string := text_of_lines
  ["withdraw — write a signed withdrawal (cease reliance; history preserved).";
   "";
   "USAGE";
   "  proof-cli withdraw --seed <test|64hex> --target <id> [--reason <t>] --at <u64> --out <file>"].
Definition help_compromise : string := text_of_lines
  ["compromise — write a signed compromise marking (taints at/after the instant).";
   "";
   "USAGE";
   "  proof-cli compromise --seed <test|64hex> --target <keyref|id> --compromised-at <u64> [--reason <t>] --at <u64> --out <file>"].
Definition help_export : string := text_of_lines
  ["export — wrap a CLI artifact as a standard ArtifactEnvelope (validated).";
   "";
   "  Attestation/status envelopes are crypto-verified for self-consistency";
   "  (signature must be valid for the content issuer); forged signatures fail";
   "  with SIGNATURE_INVALID. Shape-only acceptance never implies authenticity —";
   "  trust still requires verify + policy.";
   "USAGE";
   "  proof-cli export --proof <file> --out <envelope.json>"].
Definition help_import : string := text_of_lines
  ["import — validate an ArtifactEnvelope and write the CLI artifact shape.";
   "";
   "  Attestation/status envelopes are crypto-verified for self-consistency";
   "  (signature must be valid for the content issuer); forged signatures fail";
   "  with SIGNATURE_INVALID. Import success means well-formed + self-consistent,";
   "  not trusted — trust still requires verify + policy.";
   "USAGE";
   "  proof-cli import --proof <envelope.json> --out <file>"].
Definition help_convert : string := text_of_lines
  ["convert — normalize a legacy artifact file idempotently.";
   "";
   "USAGE";
   "  proof-cli convert --proof <file> --out <file>"].
Definition help_compose : string := text_of_lines
  ["compose — union member sets from multiple proofs into one composite proof,";
   "recording the sources as composition linkage (bound by the new proof_id).";
   "The UNION graph is validated at compose time (grounding, dangling refs,";
   "SUPERSEDES linearity, derivation acyclicity) — cross-proof cycles fail here,";
   "not later at verify. TIME/REVOCATION currency stays verify-time (use";
   "--production there); custom trust-relevant kinds ride --extra-grounded.";
   "";
   "USAGE";
   "  proof-cli compose --proofs <a.json,b.json> --kind <k> --subject <s> --predicate <p> --created-at <u64> [--extra-grounded <TYPE>] --out <proof.json>"].
Definition help_resolve : string := text_of_lines
  ["resolve — fetch-and-verify transitive composition linkage against a file";
   "store (bundle layer; root validity unchanged, incompleteness is fail-closed).";
   "";
   "USAGE";
   "  proof-cli resolve --proof <file> --store <dir> --clock <u64> [--depth <u64>=8] [--status <f>] [--authority <k>] [--trusted <keyref>] [--revocations-known-at <u64>] [--esp256] [--historical] [--report-all] [--accepted-vocab <ns:max>] [--extra-grounded <TYPE>] [--require-acyclic] [--require-status] [--production] (incomplete linkage → exit 1)"].
Definition help_batch_verify : string := text_of_lines
  ["batch-verify — verify many proofs under one shared context. Each member";
   "verifies independently with identical semantics to verify (no sampling,";
   "no short-circuit); exit 0 iff every member is crypto- and evidence-Valid.";
   "";
   "USAGE";
   "  proof-cli batch-verify --proofs <a.json,b.json> --clock <u64> [--max-batch <u64>=256] [--status <f>] [--authority <k>] [--trusted <keyref>] [--revocations-known-at <u64>] [--esp256] [--historical] [--report-all] [--accepted-vocab <ns:max>] [--extra-grounded <TYPE>] [--require-acyclic] [--require-status] [--production] [--out <file>]"].
Definition help_ingest : string := text_of_lines
  ["ingest — read newline-delimited external event records (file or stdin) and";
   "write canonical event artifacts plus a manifest. Fail-closed: the first";
   "malformed line aborts unless --skip-bad lists skips in the manifest instead.";
   "";
   "USAGE";
   "  proof-cli ingest [--in <records.jsonl>=stdin] --out-dir <dir> --out <manifest.json> [--skip-bad] [--dry-run]";
   "  manifest: {ingested, ids, skipped, dry_run}. Exit 0 clean, 1 partial (--skip-bad with skips), 2 usage/engine error."].
Definition help_init_policy : string := text_of_lines
  ["init-policy — generate a policy JSON from a template + issuer (no manual editing).";
   "";
   "USAGE";
   "  proof-cli init-policy --issuer <keyref> [--template standard|strict|fresh|basic|minimal] [--relationship SETTLES] [--evidence-kind transaction_record] --out <policy.json>";
   "  proof-cli init-policy --issuer <keyref> --attestation <att.json> [--template standard] (--proof <proof.json> | --relationship <T> [--evidence-kind <K>]) --out <policy.json>  (reads issuer from attestation file)";
   "  proof-cli init-policy --attestation <att.json> --proof <proof.json> --out <policy.json>  (infers relationship/evidence kinds from the proof; generic for any domain)";
   "";
   "Domain-vocabulary templates (standard|strict|basic) require domain vocabulary: pass --proof to infer it or explicit --relationship/--evidence-kind flags (missing inputs are a usage error, never silent defaults); --template minimal needs none.";
   "";
   "Templates (named by requirement shape, never industry): standard (sig+issuer+expiry+revocation+relationship+evidence), strict (standard + not_superseded), fresh (sig+issuer+proof_fresh 3600), basic (sig+issuer+relationship), minimal (sig+issuer+expiry+revocation; domain-agnostic starter, no relationship/evidence vocabulary). Old industry names (settlement|strict-document|fresh-only|basic-payment) still work as aliases.";
   "--proof infers --relationship/--evidence-kind from the proof's first members (explicit flags win); without it defaults are SETTLES/transaction_record for the walkthrough.";
   "The `key:ed25519:` prefix is kept exactly once; REPLACE_WITH placeholders never appear in output."].
Definition help_demo : string := text_of_lines
  ["demo — deterministic end-to-end story: build → verify PASS → tamper → FAIL →";
   "revoke → FAIL. Uses the core only; no simulated results.";
   "";
   "USAGE";
   "  proof-cli demo [--out <dir>=demo/out]";
   "  proof-cli demo --interactive   (guided 60-second tour; needs a terminal)"].
Definition help_doctor : string := text_of_lines
  ["doctor — check the local environment (versions, limits, fixtures, examples).";
   "";
   "USAGE";
   "  proof-cli doctor";
   "";
   "Exit 0 all checks pass, 1 any check fails. Distinguishes `environment healthy` from `proof verified`."].
Definition help_version : string := text_of_lines
  ["version — show CLI / protocol / format versions for reproducibility.";
   "";
   "USAGE";
   "  proof-cli version"].
Definition help_completion : string := text_of_lines
  ["completion — print a shell completion script generated from the command table.";
   "";
   "USAGE";
   "  proof-cli completion bash|zsh|fish|powershell";
   "";
   "Install: `proof-cli completion bash >> ~/.bash_completion` (or the";
   "equivalent for your shell)."].
Definition help_help : string := text_of_lines
  ["help — show help for a command.";
   "";
   "USAGE";
   "  proof-cli help [command]";
   "  proof-cli <command> --help"].
Definition COMMAND_HELP : list (string * string) :=
  [("verify", help_verify);
   ("evaluate", help_evaluate);
   ("explain", help_explain);
   ("inspect", help_inspect);
   ("id", help_id);
   ("commit", help_commit);
   ("graph", help_graph);
   ("build", help_build);
   ("create-event", help_create_event);
   ("attest", help_attest);
   ("add-evidence", help_add_evidence);
   ("relate", help_relate);
   ("revoke", help_revoke);
   ("supersede", help_supersede);
   ("withdraw", help_withdraw);
   ("compromise", help_compromise);
   ("export", help_export);
   ("import", help_import);
   ("convert", help_convert);
   ("compose", help_compose);
   ("resolve", help_resolve);
   ("batch-verify", help_batch_verify);
   ("ingest", help_ingest);
   ("init-policy", help_init_policy);
   ("demo", help_demo);
   ("doctor", help_doctor);
   ("version", help_version);
   ("completion", help_completion);
   ("help", help_help)].

Definition USAGE : string := text_of_lines
  ["proof-cli — Proof Engine command line (V1.1)";
   "";
   "Exit codes: 0 = PASS/valid, 1 = FAIL/INDETERMINATE verdict, 2 = usage or engine error.";
   "All commands accept --quiet to suppress progress output on stderr.";
   "Use -o <file> as shorthand for --out <file>.";
   "";
   "CORE";
   "  verify       Verify a proof";
   "  evaluate     Verify a proof and evaluate a policy";
   "  explain      Explain a verification result (requires --policy)";
   "  inspect      Inspect a proof (read-only, no trust decisions)";
   "  id           Print an artifact id/issuer (shell plumbing)";
   "  graph        Visualize proof relationships";
   "";
   "CREATION";
   "  create-event Create an event artifact";
   "  attest       Create a signed attestation";
   "  add-evidence Add an evidence artifact";
   "  relate       Create a relationship edge";
   "  build        Assemble artifacts into a proof";
   "  commit       Compute a salted-hash commitment (confidential claims)";
   "";
   "LIFECYCLE";
   "  revoke       Revoke an attestation";
   "  supersede    Supersede an attestation";
   "  withdraw     Withdraw evidence (signed)";
   "  compromise   Mark an issuer compromised (signed)";
   "";
   "PORTABILITY";
   "  export       Export artifacts as envelopes";
   "  import       Import artifacts from envelopes";
   "  convert      Convert artifact formats";
   "  compose      Compose proofs with linkage";
   "  resolve      Resolve transitive linkage";
   "  batch-verify Verify many proofs at once";
   "  ingest       Ingest JSONL event records";
   "";
   "DEVELOPMENT";
   "  demo         Run the end-to-end demonstration (--interactive for the tour)";
   "  doctor       Diagnose the local environment";
   "  version      Show version information";
   "  completion   Print shell completion (bash|zsh|fish|powershell)";
   "  help         Show this text (or `help <command>` for details)";
   "";
   "COMMON FLAGS";
   "  --quiet, -q  Suppress progress output on stderr";
   "  --json, -j   Machine-readable JSON output (verify, evaluate)";
   "  --out, -o    Output file (`-` = stdout)";
   "  --clock      Verification timestamp (u64, mandatory for verify/evaluate)";
   "  --skew       Clock skew leeway (u64, default 300)";
   "  --production Strict operator profile for verify/evaluate/batch-verify/resolve:";
   "               implies --require-acyclic + --strict-current currency";
   "               (feed gate already default-on; verify==acceptable; see `help verify`)";
   "";
   "The proof path may be positional: `verify proof.json` means";
   "`verify --proof proof.json`. `-` reads the proof from stdin.";
   "";
   "EXAMPLES";
   "  proof-cli demo";
   "  proof-cli verify proof.json --clock 1700000300";
   "  proof-cli inspect proof.json";
   "  proof-cli graph proof.json --format dot";
   "  proof-cli help verify";
   "";
   "Artifacts are JSON wrappers around canonical CBOR bytes (hex); bytes are";
   "re-verified on every load — ids recomputed, signatures checked. Seeds are for";
   "demos/tests only; production key handling is out of scope for V1.0.";
   "Prefer --seed-file <path> over --seed <hex>: raw key material in argv is";
   "visible to ps(1) and shell history; the two flags never combine."].

Definition command_help (cmd : string) : option string :=
  snd <$> List.find (λ p, bool_decide (p.1 = cmd)) COMMAND_HELP.
(** [VERSION_INFO]: the version of the package is a build input. *)
Definition VERSION_INFO `{Environment} : string :=
  text_of_lines ["Proof Engine CLI"; ""; "CLI       " +:+ cli_version; "Protocol  V1"; "Format    V1";
    "Crypto    Ed25519/P-256"; "Repository https://github.com/igelite1711/ProofEngine"].

(** * Completion *)

Definition COMPLETED_FLAGS : string :=
  "--proof --policy --clock --skew --out --quiet --json --trusted --authority --status --seed --seed-file --format --esp256 --historical --report-all --accepted-vocab --extra-grounded --require-acyclic --require-status --no-require-status --strict-current --production --seen-store --seen-context --seen-record".
Definition bash_script (names : list string) : string :=
  cat (map (λ l, l +:+ nl)
    ["# proof-cli bash completion (generated; do not hand-edit)";
     "_proof_cli_complete() {";
     cat ["    local cur="; quote; "${COMP_WORDS[COMP_CWORD]}"; quote];
     cat ["    if [ "; quote; "$COMP_CWORD"; quote; " -eq 1 ]; then"];
     cat ["        COMPREPLY=($(compgen -W "; quote; join " " names; quote; " -- "; quote; "$cur"; quote; "))"];
     "    else";
     cat ["                      COMPREPLY=($(compgen -W "; quote; COMPLETED_FLAGS; quote; " -- "; quote; "$cur"; quote; "))"];
     "    fi";
     "}";
     "complete -F _proof_cli_complete proof-cli"]).
Definition zsh_script : string :=
  cat (map (λ l, l +:+ nl)
    ["#compdef proof-cli";
     "# proof-cli zsh completion (generated; do not hand-edit)";
     "_proof_cli() {";
     "    local -a cmds";
     cat ["    cmds=("; join " " (map (λ '(n, d), cat ["'"; n; ":"; d; "'"]) COMMANDS); ")"];
     "    _arguments '1:command:->cmd' '*: :->args'";
     "    case $state in";
     "    cmd) _describe 'command' cmds ;;";
     "    *) _files ;;";
     "    esac";
     "}";
     "_proof_cli"]).
Definition fish_script : string :=
  join nl (map (λ '(n, d), cat ["complete -c proof-cli -f -n '__fish_use_subcommand' -a "; n; " -d '"; d; "'"]) COMMANDS)
  +:+ nl.
Definition powershell_script (names : list string) : string :=
  cat (map (λ l, l +:+ nl)
    ["# proof-cli PowerShell completion (generated; do not hand-edit)";
     "Register-ArgumentCompleter -Native -CommandName proof-cli -ScriptBlock {";
     "    param($wordToComplete, $commandAst, $cursorPosition)";
     cat ["    @("; join ", " (map (λ n, cat ["'"; n; "'"]) names); ") | Where-Object { $_ -like "; quote;
          "$wordToComplete*"; quote; " } |"];
     "        ForEach-Object { [CompletionResult]::new($_, $_, 'ParameterValue', $_) }";
     "}"]).
Definition completion_script (shell : string) : option string :=
  let names := map fst COMMANDS in
  if bool_decide (shell = "bash") then Some (bash_script names)
  else if bool_decide (shell = "zsh") then Some zsh_script
  else if bool_decide (shell = "fish") then Some fish_script
  else if bool_decide (shell = "powershell") then Some (powershell_script names)
  else None.

(** * The texts and the parser *)

(** The words of a text: its longest runs of lower-case letters, digits and
    dashes. *)
Definition word_char (x : byte) : bool :=
  in_range 0x61 0x7A x || in_range 0x30 0x39 x || (b2n x =? 0x2D).
Fixpoint words_from (current l : list byte) : list string :=
  match l with
  | [] => [of_bytes current]
  | x :: l' => if word_char x then words_from (current ++ [x]) l' else of_bytes current :: words_from [] l'
  end.
(** The long flags that a text mentions. *)
Definition mentioned_flags (text : string) : list string :=
  omap (λ w, match strip_prefix "--" w with Some f => if sempty f then None else Some f | None => None end)
    (words_from [] (as_bytes text)).
(** What the help of a command mentions and its parser refuses. *)
Definition refused_flags (name : string) : list string :=
  default [] (text ← command_help name;
    Some (List.filter (λ f, negb (flag_ok (allowed_flags name) f)) (mentioned_flags text))).
Definition refused_table : list (string * list string) :=
  List.filter (λ p, negb (bool_decide (p.2 = []))) (map (λ p, (p.1, refused_flags p.1)) COMMANDS).

(** Every flag that a help topic mentions is accepted by its command, apart from
    these. *)
Lemma refused_mentions : refused_table =
  [("evaluate", ["revoked"]); ("build", ["from"; "to"]); ("commit", ["claim"; "seed"]);
   ("compose", ["production"; "extra-grounded"; "extra-grounded"]); ("resolve", ["depth"])].
Proof. vm_compute. reflexivity. Qed.
(** The overview has a line for every command but one. *)
Definition listed (name : string) : bool := str_contains (nl +:+ "  " +:+ name +:+ " ") USAGE.
Lemma overview_leaves_out : List.filter (λ n, negb (listed n)) (map fst COMMANDS) = ["init-policy"].
Proof. vm_compute. reflexivity. Qed.
