(* ===== verification/Tour.v ===== *)
(** Tour: the scripted demonstration and the guided tour,
    [crates/proof-cli/src/demo.rs] and [crates/proof-cli/src/journey.rs], with the
    search for the output directory of [main.rs].

    Both build proofs with constants, verify them fresh, tampered, revoked and (in
    the tour) superseded, and tell the story on the standard output; the
    demonstration also writes its artifacts.  The assertions that rebuilding
    gives the same bytes are left out: [build_once] is a function here.

    The theorems: a demonstration that ends tells the truth about the files it
    leaves, and on the sample primitives both scripts run to their end. *)
From Stdlib Require Import Strings.Byte NArith ZArith Lia.
From stdpp Require Import pretty.
From S2P Require Import Prelude Text Core External Cbor Schema Graph Ident Claim Cose.
From S2P Require Import Report Pipeline Verdicts Builder Envelope Policy State Eval Context Resolve Cli Files Commands Port View Explain.

(** * Shared steps *)

(** The messages of the check records of a report, by position, and whether the
    standard input is a terminal. *)
Class ReportTexts := check_text : VerifyReport → nat → string.
Class Terminal := stdin_is_terminal : bool.

(** The text of a value in the [Debug] format. *)
Definition debug_validity (v : Validity.t) : string :=
  match v with Validity.Valid => "Valid" | Validity.Invalid => "Invalid" end.
Definition debug_decision (d : PolicyDecision.t) : string :=
  match d with
  | PolicyDecision.Pass => "Pass" | PolicyDecision.Fail => "Fail" | PolicyDecision.Indeterminate => "Indeterminate"
  end.
Definition debug_code (c : ErrorCode.t) : string :=
  match c with
  | ErrorCode.NonCanonical => "NonCanonical" | ErrorCode.DuplicateMapKey => "DuplicateMapKey"
  | ErrorCode.ForbiddenCborConstruct => "ForbiddenCborConstruct" | ErrorCode.IdMismatch => "IdMismatch"
  | ErrorCode.SignatureInvalid => "SignatureInvalid" | ErrorCode.UnknownAlgorithm => "UnknownAlgorithm"
  | ErrorCode.DeprecatedAlgorithm => "DeprecatedAlgorithm" | ErrorCode.UnsupportedVersion => "UnsupportedVersion"
  | ErrorCode.LimitExceeded => "LimitExceeded" | ErrorCode.Malformed => "Malformed"
  | ErrorCode.InvalidBase64Url => "InvalidBase64Url" | ErrorCode.UnexpectedHeaderParam => "UnexpectedHeaderParam"
  | ErrorCode.AlgorithmConfusion => "AlgorithmConfusion" | ErrorCode.SchemaViolation => "SchemaViolation"
  | ErrorCode.RelationshipUngrounded => "RelationshipUngrounded" | ErrorCode.DanglingReference => "DanglingReference"
  | ErrorCode.CycleDetected => "CycleDetected" | ErrorCode.PolicyInvalid => "PolicyInvalid"
  | ErrorCode.Expired => "Expired" | ErrorCode.Revoked => "Revoked"
  | ErrorCode.RevocationUnknown => "RevocationUnknown" | ErrorCode.UnauthorizedStatus => "UnauthorizedStatus"
  | ErrorCode.Withdrawn => "Withdrawn" | ErrorCode.Compromised => "Compromised"
  end.
Definition debug_codes (l : list ErrorCode.t) : string := cat ["["; join ", " (map debug_code l); "]"].

(** [bytes.windows(needle.len()).position(|w| w == needle)]. *)
Fixpoint window_position (needle l : list byte) : option nat :=
  if bool_decide (take (length needle) l = needle) then Some 0%nat else
  match l with
  | [] => None
  | _ :: l' => S <$> window_position needle l'
  end.
(** [bytes[pos] ^= 0x01]. *)
Definition flip_at (pos : nat) (bytes : list byte) : list byte := alter (λ x, u8 (N.lxor (b2n x) 1)) pos bytes.
Definition tampered (needle : string) (bytes : list byte) : CliResult (list byte) :=
  pos ← ok_or (window_position (as_bytes needle) bytes) Other;
  Ok (flip_at pos bytes).

Section saying.
Context `{SerdeJson}.
Definition say (l : list string) : Cmd () := print (PrintedText (cat l)).
End saying.

(** [HashRef] of 32 equal bytes. *)
Definition sha256_fill (x : byte) : HashRef := {| hr_v := 1; hr_alg := HashAlgorithm.Sha256; hr_digest := repeat x 32 |}.
(** [VerifyCtx] with a clock, a feed and a bound, and the defaults. *)
Definition ctx_at (at_ : N) (statuses : list SignedStatus) (require_feed : bool) : VerifyCtx := {|
  verified_at := at_; clock_skew_leeway := 300; trusted_issuers := trusted_issuers default_ctx;
  allow_remote := allow_remote default_ctx; allowed_algs := allowed_algs default_ctx;
  ctx_limits := ctx_limits default_ctx; ctx_status_objects := statuses;
  revocation_authorities := revocation_authorities default_ctx; revocations_known_at := Some at_;
  report_all_failures := report_all_failures default_ctx;
  accepted_vocabularies := accepted_vocabularies default_ctx; extra_grounded := extra_grounded default_ctx;
  require_acyclic_provenance := require_acyclic_provenance default_ctx; require_status_feed := require_feed |}.
(** The signed status that a created attestation carries. *)
Definition signed_status (c : CreatedAttestation) : SignedStatus :=
  {| ss_content := ca_content c; ss_sign1 := ca_sign1 c |}.

(** * The demonstration *)

Module Demo.
Definition T_EVENT : N := 1700000000.
Definition T_ATTEST : N := 1700000150.
Definition T_BUILT : N := 1700000200.
Definition T_FRESH : N := 1700000300.
Definition T_REVOKED : N := 1700000400.
Definition T_AFTER : N := 1700000500.

Section demo.
Context `{SerdeJsonReader, !SerdeJsonBuilder, Os, CliTexts, Hex, Base64Url, Sha2, SignatureSchemes, HashOrder, ReportTexts}.

Definition write_json (path : string) (v : json) : Cmd () := write_file path (as_bytes (json_pretty v) ++ line_end).

(** The members of the story. *)
Record Story : Set := mkStory {
  st_pay : CreatedEvent; st_inv : CreatedEvent; st_att : CreatedAttestation;
  st_evd : CreatedEvidence; st_edge : CreatedRelationship }.
Definition event (t : EventType.t) (subject : string) : Result EventContent :=
  payload_ref ← HashRef_new HashAlgorithm.Sha256 (repeat Byte.x5e 32);
  Ok {| ev_v := 1; ev_type := t; ev_subject := subject; ev_effective_at := T_EVENT; ev_payload_ref := payload_ref;
        ev_metadata := [("order", MText "ord-demo-1")] |}.
Definition attestation : AttestationContent := {|
  att_v := 1; att_issuer := key_ref TEST_SEED; att_subject := "payment:p-demo";
  att_claim := {| claim_type := "payment.settled"; claim_fields := [("amount", MUint 4200); ("currency", MText "EUR")] |};
  att_issued_at := T_ATTEST; att_expires_at := None; att_evidence_ref := None |}.
Definition story : Cmd Story :=
  _ ← say ["== Proof Engine demo: a proof that dies (ARCHITECTURE §8) =="];
  _ ← say ["[1] creating payment + invoice events (t="; pretty T_EVENT; ")"];
  pay_content ← engine (event EventType.PAYMENT_CREATED "payment:p-demo");
  pay ← engine (create_event pay_content limits);
  inv_content ← engine (event EventType.INVOICE_ISSUED "invoice:i-demo");
  inv ← engine (create_event inv_content limits);
  _ ← say ["[2] merchant attests `payment.settled` over "; ce_id pay; " (t="; pretty T_ATTEST; ")"];
  att ← engine (attest attestation TEST_SEED limits);
  _ ← say ["[3] grounding evidence + SETTLES edge"];
  digest ← engine (HashRef_new HashAlgorithm.Sha256 (repeat Byte.xe1 32));
  evd ← engine (make_evidence EvidenceKind.TRANSACTION_RECORD digest (Some (ca_id att))
                  (Some "acquirer:receipt:demo") limits);
  edge ← engine (make_relationship {| rel_v := 1; rel_from := ce_id pay; rel_type := RelType.SETTLES;
                   rel_to := ce_id inv; rel_evidence_ref := Some (cv_id evd); rel_attestation_ref := None |} limits);
  mret (mkStory pay inv att evd edge).

Definition proposition : Proposition_ := {|
  prop_v := 1; prop_kind := "payment.settles-invoice"; prop_subject := "payment:p-demo"; prop_predicate := "settles";
  prop_object := Some "invoice:i-demo"; prop_at_time := Some T_ATTEST; prop_context := [] |}.
Definition build_once (s : Story) : Result BuiltProof :=
  let b := builder_new proposition T_BUILT in
  let b := add_event b (st_pay s) in
  let b := add_event b (st_inv s) in
  let b := add_attestation b (st_att s) in
  let b := add_evidence b (st_evd s) in
  let b := add_relationship b (st_edge s) in
  build b limits.

Definition statuses_json (r : VerifyReport) : json :=
  texts_json (map (λ l, LifecycleStatus.as_str (lc_status l)) (vr_lifecycle r)).
Definition fresh_document (fresh : VerifyReport) : json :=
  jobject [("when", jnum T_FRESH); ("cryptographic_validity", jtext "valid"); ("evidence_validity", jtext "valid");
    ("policy_decision", jtext (PolicyDecision.as_str (policy_decision fresh))); ("lifecycle", statuses_json fresh)].
Definition dead_document (dead : VerifyReport) : json :=
  jobject [("when", jnum T_AFTER); ("cryptographic_validity", jtext "valid"); ("evidence_validity", jtext "invalid");
    ("policy_decision", jtext (PolicyDecision.as_str (policy_decision dead))); ("lifecycle", statuses_json dead);
    ("failure_codes", texts_json (map ErrorCode.as_str (failure_codes dead)))].
Definition status_document (rev : CreatedAttestation) : json :=
  jobject [("kind", jtext "status"); ("id", jtext (ca_id rev)); ("issuer", jtext (att_issuer (ca_content rev)));
    ("claim_type", jtext (claim_type (att_claim (ca_content rev)))); ("cbor", jtext (cbor_to_hex (ca_canonical rev)));
    ("sign1_b64", jtext (b64u_nopad (ca_sign1 rev)))].

(** Steps 4 and 5: the proof file, and the fresh verification. *)
Definition fresh_step (out_dir : string) (built : BuiltProof) : Cmd VerifyReport :=
  _ ← say ["[4] determinism: rebuilding from scratch must reproduce identical bytes"];
  _ ← say ["    proof "; bp_id built; " — identical on rebuild ✓"];
  let proof_path := out_dir +:+ "/proof.cbor.json" in
  _ ← write_proof_file proof_path (bp_id built) (bp_canonical built);
  _ ← say ["    wrote "; proof_path];
  _ ← say ["[5] fresh verification (clock="; pretty T_FRESH; ", revocations known to "; pretty T_FRESH; ")"];
  fresh ← fuelled (verify_proof (bp_canonical built) (ctx_at T_FRESH [] false));
  _ ← pure (check (bool_decide (cryptographic_validity fresh = Validity.Valid)
                   && bool_decide (evidence_validity fresh = Validity.Valid)
                   && forallb (λ l, bool_decide (lc_status l = LifecycleStatus.Active)) (vr_lifecycle fresh)) Other);
  _ ← say ["    verdict: PASS (exit 0) — crypto valid, evidence valid, attestation ACTIVE"];
  _ ← write_json (out_dir +:+ "/report-fresh.json") (fresh_document fresh);
  mret fresh.
(** Step 6: one flipped bit. *)
Definition tamper_step (built : BuiltProof) : Cmd () :=
  _ ← say ["[6] tamper: flip one byte of the attested subject, re-verify the same way"];
  bytes ← pure (tampered "invoice:i-demo" (bp_canonical built));
  bad ← fuelled (verify_proof bytes (ctx_at T_FRESH [] true));
  _ ← pure (check (bool_decide (cryptographic_validity bad = Validity.Invalid)
                   && bool_decide (ErrorCode.IdMismatch ∈ failure_codes bad)) Other);
  say ["    verdict: FAIL (exit 1) — proof id no longer binds the bytes: "; debug_codes (failure_codes bad)].
(** Steps 7 and 8: the revocation, and the verification after it. *)
Definition dead_step (out_dir : string) (s : Story) (built : BuiltProof) : Cmd VerifyReport :=
  _ ← say ["[7] merchant revokes their own attestation (t="; pretty T_REVOKED; ")"];
  rev ← engine (revoke_attestation (ca_id (st_att s)) (Some "chargeback: order cancelled") TEST_SEED T_REVOKED limits);
  let status_path := out_dir +:+ "/status-revoke.json" in
  _ ← write_json status_path (status_document rev);
  _ ← say ["    wrote "; status_path];
  _ ← say ["[8] re-verification after revocation (clock="; pretty T_AFTER; ", status object supplied)"];
  dead ← fuelled (verify_proof (bp_canonical built) (ctx_at T_AFTER [signed_status rev] true));
  _ ← pure (check (bool_decide (cryptographic_validity dead = Validity.Valid)
                   && bool_decide (evidence_validity dead = Validity.Invalid)
                   && bool_decide (ErrorCode.Revoked ∈ failure_codes dead)) Other);
  _ ← say ["    verdict: FAIL (exit 1) — same bytes, crypto still valid, attestation REVOKED: ";
           debug_codes (failure_codes dead)];
  _ ← write_json (out_dir +:+ "/report.json") (dead_document dead);
  mret dead.
Definition explanation (fresh dead : VerifyReport) : string :=
  cat ["== fresh (t="; pretty T_FRESH; ") =="; nl; explain_report (check_text fresh) fresh; nl;
       "== after revocation (t="; pretty T_AFTER; ") =="; nl; explain_report (check_text dead) dead; nl].
Definition run (out_dir : string) : Cmd Z :=
  _ ← create_dir_all out_dir;
  s ← story;
  built ← engine (build_once s);
  fresh ← fresh_step out_dir built;
  _ ← tamper_step built;
  dead ← dead_step out_dir s built;
  _ ← write_file (out_dir +:+ "/explanation.txt") (as_bytes (explanation fresh dead));
  _ ← write_file (out_dir +:+ "/proof.cbor") (bp_canonical built);
  _ ← say ["[9] artifacts in "; out_dir; ": proof.cbor, report.json, explanation.txt (+ CLI wrappers)"];
  _ ← say ["demo complete: one signing event turned PASS into REVOKED. Deterministic: rerun reproduces every byte."];
  mret EXIT_OK.
End demo.
End Demo.

(** * The output directory of the demonstration *)

(** What the search sees: the paths of the executable and of the working
    directory, as the names from the root, and which paths are files and
    directories. *)
Class Surroundings := {
  current_exe : option (list string);
  current_dir : option (list string);
  is_file : list string → bool;
  is_dir : list string → bool;
}.
Definition path_text (p : list string) : string := "/" +:+ join "/" p.
(** [Path::parent]: the root has none. *)
Definition parent (p : list string) : option (list string) :=
  match p with [] => None | _ => Some (removelast p) end.

Section demo_dir.
Context `{Surroundings}.
(** The walk from a directory towards the root; a path of n names has n parents. *)
Fixpoint repo_root (fuel : nat) (dir : list string) : option (list string) :=
  if is_file (dir ++ ["Cargo.toml"]) && is_dir (dir ++ ["demo"]) then Some dir else
  match fuel with
  | O => None
  | S fuel => parent dir ≫= repo_root fuel
  end.
Definition demo_dir (cli : Cli) : string :=
  match opt cli "out" with
  | Some dir => dir
  | None =>
      let anchor := or_else current_exe current_dir in
      let cur := anchor ≫= λ p, or_else (parent p) current_dir in
      match cur ≫= λ dir, repo_root (length dir) dir with
      | Some root => path_text (root ++ ["demo"; "out"])
      | None => "demo/out"
      end
  end.
End demo_dir.

(** * The tour *)

Module Journey.
Definition T_EVENT : N := 1757000000.
Definition T_ATTEST : N := 1757000100.
Definition T_BUILT : N := 1757000200.
Definition T_FRESH : N := 1757000300.
Definition T_REVOKE : N := 1757000400.
Definition T_AFTER : N := 1757000500.
Definition T_ATTEST2 : N := 1757000600.
Definition T_SUPERSEDE : N := 1757000700.
Definition T_LATE : N := 1757000800.

Record TourProof : Set := mkTour { tp_built : BuiltProof; tp_proof : Proof_; tp_att_id : string }.

Section builders.
Context `{Base64Url, Sha2, SignatureSchemes, HashOrder}.

Definition decode (canonical : list byte) : Result Proof_ :=
  value ← decode_strict canonical limits;
  cbor_to_proof value limits.
Definition issued (subject claim : string) (fields : list (string * MetaValue)) (at_ : N) : AttestationContent := {|
  att_v := 1; att_issuer := key_ref TEST_SEED; att_subject := subject;
  att_claim := {| claim_type := claim; claim_fields := fields |};
  att_issued_at := at_; att_expires_at := None; att_evidence_ref := None |}.
Definition build_payment : Result TourProof :=
  pay ← create_event {| ev_v := 1; ev_type := "payment.created"; ev_subject := "payment:p-tour";
    ev_effective_at := T_EVENT; ev_payload_ref := sha256_fill Byte.x5e;
    ev_metadata := [("order", MText "ord-tour-1")] |} limits;
  inv ← create_event {| ev_v := 1; ev_type := "invoice.issued"; ev_subject := "invoice:i-tour";
    ev_effective_at := T_EVENT; ev_payload_ref := sha256_fill Byte.xa7; ev_metadata := [] |} limits;
  att ← attest (issued "payment:p-tour" "payment.settled" [("amount", MUint 4200); ("currency", MText "EUR")] T_ATTEST)
    TEST_SEED limits;
  evd ← make_evidence "transaction_record" (sha256_fill Byte.xe1) (Some (ca_id att)) (Some "acquirer:receipt:tour") limits;
  edge ← make_relationship {| rel_v := 1; rel_type := "SETTLES"; rel_from := ce_id pay; rel_to := ce_id inv;
    rel_evidence_ref := Some (cv_id evd); rel_attestation_ref := None |} limits;
  let b := builder_new {| prop_v := 1; prop_kind := "payment.settles-invoice"; prop_subject := "payment:p-tour";
    prop_predicate := "settles"; prop_object := Some "invoice:i-tour"; prop_at_time := Some T_ATTEST;
    prop_context := [] |} T_BUILT in
  let b := add_relationship (add_evidence (add_attestation (add_event (add_event b pay) inv) att) evd) edge in
  built ← build b limits;
  proof ← decode (bp_canonical built);
  Ok {| tp_att_id := ca_id att; tp_built := built; tp_proof := proof |}.
Definition build_software : Result TourProof :=
  src ← create_event {| ev_v := 1; ev_type := "source.committed"; ev_subject := "repo:svc";
    ev_effective_at := T_EVENT; ev_payload_ref := sha256_fill Byte.xc0; ev_metadata := [("rev", MText "r4242")] |} limits;
  fin ← create_event {| ev_v := 1; ev_type := "build.finished"; ev_subject := "artifact:svc-2.1.0";
    ev_effective_at := T_EVENT; ev_payload_ref := sha256_fill Byte.xbe; ev_metadata := [] |} limits;
  att ← attest (issued "artifact:svc-2.1.0" "artifact.released" [("channel", MText "stable")] T_ATTEST) TEST_SEED limits;
  evd ← make_evidence "receipt" (sha256_fill Byte.xb1) (Some (ca_id att)) (Some "ci:build-log:tour") limits;
  edge ← make_relationship {| rel_v := 1; rel_type := "PRODUCED"; rel_from := ce_id fin; rel_to := ca_id att;
    rel_evidence_ref := Some (cv_id evd); rel_attestation_ref := None |} limits;
  let b := builder_new {| prop_v := 1; prop_kind := "artifact.build-release"; prop_subject := "artifact:svc-2.1.0";
    prop_predicate := "released"; prop_object := None; prop_at_time := Some T_ATTEST; prop_context := [] |} T_BUILT in
  let b := add_relationship (add_evidence (add_attestation (add_event (add_event b src) fin) att) evd) edge in
  built ← build b limits;
  proof ← decode (bp_canonical built);
  Ok {| tp_att_id := ca_id att; tp_built := built; tp_proof := proof |}.

Definition verify_at (canonical : list byte) (at_ : N) (statuses : list SignedStatus) : option (Result VerifyReport) :=
  verify_proof canonical (ctx_at at_ statuses false).

(** The ids of the two proofs, each built twice. *)
Definition tour_proof_ids : CliResult (string * string) :=
  let told {A} (r : Result A) : CliResult A := match r with Ok a => Ok a | Err _ => UsageErr end in
  first ← told build_payment;
  second ← told build_payment;
  _ ← check (bool_decide (bp_id (tp_built first) = bp_id (tp_built second))) Other;
  third ← told build_software;
  fourth ← told build_software;
  _ ← check (bool_decide (bp_id (tp_built third) = bp_id (tp_built fourth))) Other;
  _ ← check (negb (bool_decide (bp_id (tp_built first) = bp_id (tp_built third)))) Other;
  Ok (bp_id (tp_built first), bp_id (tp_built third)).
End builders.

Section policies.
Context `{SerdeJsonReader, !SerdeJsonBuilder, Base64Url, Sha2, SignatureSchemes, HashOrder}.
Definition policy_text (id extra : string) : string :=
  cat ["{"; quote; "policy_version"; quote; ":1,"; quote; "policy_id"; quote; ":"; quote; id; quote; ",";
       quote; "requirements"; quote; ":["; extra; "]}"].
(** A text that does not parse is replaced by a minimal policy. *)
Definition policy_json (id extra : string) : json :=
  match json_from_slice (as_bytes (policy_text id extra)) with
  | Some v => v
  | None => jobject [("policy_version", jnum 1); ("policy_id", jtext id);
              ("requirements", json_of (JArray [jobject [("type", jtext "signature_valid")]]))]
  end.
Definition requirement (name : string) : string := cat ["{"; quote; "type"; quote; ":"; quote; name; quote; "}"].
Definition evaluate (report : VerifyReport) (proof : Proof_) (policy : json) (trusted : list string)
    : option (Result PolicyOutcome) :=
  match parse_policy policy limits with
  | Err e => Some (Err e)
  | Ok policy =>
      match state_from_report_and_proof report proof with
      | Err e => Some (Err e)
      | Ok state =>
          Ok <$> evaluate_policy state policy
            {| in_trusted_issuers := trusted; in_revocations := RevocationSet_empty; in_verified_at := T_FRESH;
               in_skew_leeway := 300 |}
      end
  end.
End policies.

(** ** The screens *)

(** The bytes up to the first line end, with it, and the others. *)
Fixpoint split_line (l : list byte) : list byte * list byte :=
  match l with
  | [] => ([], [])
  | x :: l' => if bool_decide (x = Byte.x0a) then ([x], l') else let '(line, rest) := split_line l' in (x :: line, rest)
  end.

Section screens.
Context `{SerdeJsonReader, !SerdeJsonBuilder, Base64Url, Sha2, SignatureSchemes, HashOrder, ReportTexts, Terminal}.

(** One line of the standard input; an end, an error or a farewell stops. *)
Definition read_answer : Cmd bool := λ w,
  match w_stdin w with
  | None => Some (Ok false, w)
  | Some input =>
      let '(line, rest) := split_line input in
      let go_on := match line, from_utf8 line with
                   | [], _ | _, None => false
                   | _, Some s => negb (bool_decide (trim s ∈ ["q"; "quit"; "exit"]))
                   end in
      Some (Ok go_on, mkWorld _ (w_files w) (Some rest) (w_stdout w))
  end.
Definition pause : Cmd bool :=
  _ ← say ["[Enter] continue   [q] quit > "];
  read_answer.
(** [if !pause() { return Ok(EXIT_OK) }]. *)
Definition then_pause {A} (m : Cmd A) (k : A → Cmd Z) : Cmd Z :=
  a ← m; go_on ← pause; if (go_on : bool) then k a else mret EXIT_OK.

Definition screen (n title : string) : Cmd () :=
  say [nl; "── "; n; " · "; title; " ─────────────────────────────"].
Definition drawn_proof (p : Proof_) : Cmd () :=
  say [render_text (prop_subject (prf_proposition p)) (prop_predicate (prf_proposition p)) (drawn_edges p)].
Definition accepted (r : VerifyReport) : bool :=
  passed_crypto r && bool_decide (evidence_validity r = Validity.Valid).

Definition screen_build : Cmd TourProof :=
  tour ← engine build_payment;
  _ ← screen "1/8" "BUILD — one claim becomes a proof";
  _ ← say ["Claim:        payment:p-tour settles invoice:i-tour"];
  _ ← say ["Events:       payment.created, invoice.issued (payloads by digest)"];
  _ ← say ["Attestation:  "; tp_att_id tour; " (signed)"];
  _ ← say ["Evidence:     transaction_record + receipt reference"];
  _ ← say ["Relation:     SETTLES edge, backed by evidence"];
  _ ← say ["Proof ID:     "; bp_id (tp_built tour)];
  _ ← say [nl; "The original files never enter the proof — only their digests."];
  mret tour.
Definition screen_inspect (tour : TourProof) : Cmd () :=
  _ ← screen "2/8" "INSPECT — what is inside?";
  let p := tp_proof tour in
  _ ← say ["Members: "; pretty (len (prf_events p)); " events, "; pretty (len (prf_attestations p)); " attestations, ";
           pretty (len (prf_evidence p)); " evidence, "; pretty (len (prf_relationships p)); " relationships"];
  _ ← say [];
  _ ← drawn_proof p;
  say ["Inspection is read-only: INSPECTED is not VERIFIED."].
Definition screen_verify (tour : TourProof) : Cmd VerifyReport :=
  _ ← screen "3/8" "VERIFY — the pipeline runs now";
  fresh ← fuelled (verify_at (bp_canonical (tp_built tour)) T_FRESH []);
  _ ← say [explain_report (check_text fresh) fresh];
  _ ← say ["VERDICT: "; if accepted fresh then "PASS" else "FAIL"];
  mret fresh.
Definition screen_policy (tour : TourProof) (fresh : VerifyReport) : Cmd () :=
  _ ← screen "4/8" "POLICY — same proof, different decision";
  issuer ← pure (ok_or (att_issuer <$> (sa_content <$> head (prf_attestations (tp_proof tour)))) Other);
  let base := policy_json "tour-base" (join "," (map requirement ["signature_valid"; "not_expired"])) in
  let strict := policy_json "tour-strict"
                  (join "," (map requirement ["signature_valid"; "not_expired"; "transparency_present"])) in
  out_base ← fuelled (evaluate fresh (tp_proof tour) base [issuer]);
  out_strict ← fuelled (evaluate fresh (tp_proof tour) strict [issuer]);
  _ ← say ["Policy tour-base   (signature + freshness): "; debug_decision (po_decision out_base)];
  _ ← say ["Policy tour-strict (+ transparency receipt): "; debug_decision (po_decision out_strict)];
  say ["The bytes never changed. Proof validity is not a trust decision."].
(** The first four failed checks. *)
Definition failed_lines (bad : VerifyReport) : list string :=
  take 4 (omap (λ '(i, c), if chk_ok c then None else
    Some (cat ["FAIL "; chk_stage c; " ["; from_option ErrorCode.as_str "NO_CODE" (chk_code c); "] ";
               sanitize (check_text bad i)])) (imap pair (vr_checks bad))).
Definition screen_tamper (tour : TourProof) : Cmd () :=
  _ ← screen "5/8" "TAMPER — attack the proof, watch it fail";
  bytes ← pure (tampered "invoice:i-tour" (bp_canonical (tp_built tour)));
  bad ← fuelled (verify_at bytes T_FRESH []);
  _ ← each (λ l, say [l]) (failed_lines bad);
  _ ← say ["VERDICT: FAIL (one flipped byte)"];
  again ← fuelled (verify_at (bp_canonical (tp_built tour)) T_FRESH []);
  _ ← pure (check (accepted again) Other);
  say ["Original restored: VERDICT: PASS"].
Definition screen_revoke (tour : TourProof) : Cmd () :=
  _ ← screen "6/8" "REVOKE — the issuer kills their own claim";
  rev ← engine (revoke_attestation (tp_att_id tour) (Some "tour: mislabeled") TEST_SEED T_REVOKE limits);
  dead ← fuelled (verify_at (bp_canonical (tp_built tour)) T_AFTER [signed_status rev]);
  _ ← each (λ l, say ["lifecycle "; lc_object l; ": "; LifecycleStatus.as_str (lc_status l)]) (vr_lifecycle dead);
  say ["Same bytes, new verdict: FAIL (REVOKED). History is never edited."].
Definition screen_supersede (tour : TourProof) : Cmd () :=
  _ ← screen "7/8" "SUPERSEDE — replaced, but history stays valid";
  att2 ← engine (attest (issued "payment:p-tour" "payment.settled" [("amount", MUint 4300)] T_ATTEST2) TEST_SEED limits);
  sup ← engine (supersede_attestation (tp_att_id tour) (ca_id att2) TEST_SEED T_SUPERSEDE limits);
  moved ← fuelled (verify_at (bp_canonical (tp_built tour)) T_LATE [signed_status sup]);
  moved_status ← pure (ok_or (LifecycleStatus.as_str <$> (lc_status <$> head (vr_lifecycle moved))) Other);
  _ ← say ["crypto "; debug_validity (cryptographic_validity moved); ", evidence ";
           debug_validity (evidence_validity moved); ", lifecycle "; moved_status];
  say ["SUPERSEDED keeps evidence valid: valid history, no longer current."].
Definition screen_neutrality : Cmd () :=
  _ ← screen "8/8" "NEUTRALITY — same engine, different domain";
  sw ← engine build_software;
  sw_report ← fuelled (verify_at (bp_canonical (tp_built sw)) T_FRESH []);
  _ ← say ["Software release "; prop_subject (prf_proposition (tp_proof sw)); " → ";
           prop_predicate (prf_proposition (tp_proof sw)); ": crypto "; debug_validity (cryptographic_validity sw_report);
           ", evidence "; debug_validity (evidence_validity sw_report)];
  _ ← say [];
  _ ← drawn_proof (tp_proof sw);
  sw_out ← fuelled (evaluate sw_report (tp_proof sw) (policy_json "tour-software" (requirement "signature_valid")) []);
  _ ← say ["Policy tour-software: "; debug_decision (po_decision sw_out)];
  _ ← each (λ l, say [l])
    [nl +:+ "Same engine. Different domain. Tour complete.";
     "Try: proof-cli verify, inspect, graph, evaluate, explain —";
     "every screen above maps to a command. The core does the work.";
     "Bare verify PASS means historically valid: re-run any verify with";
     "--production for the strict answer (fails closed on empty status";
     "feeds and VALID-but-not-current proofs; see docs/OPERATOR-RUNBOOK.md)."];
  mret ().
Definition run : Cmd Z :=
  if negb stdin_is_terminal then fails Other else
  then_pause
    (each (λ l, say [l])
      ["Proof Engine — interactive demo (60 seconds)";
       "A claim, packaged with evidence and attestations, verified live.";
       "Nothing here is simulated: every verdict below is computed now."]) (λ _,
  then_pause screen_build (λ tour,
  then_pause (screen_inspect tour) (λ _,
  then_pause (screen_verify tour) (λ fresh,
  then_pause (screen_policy tour fresh) (λ _,
  then_pause (screen_tamper tour) (λ _,
  then_pause (screen_revoke tour) (λ _,
  then_pause (screen_supersede tour) (λ _,
  _ ← screen_neutrality; mret EXIT_OK)))))))).
End screens.
End Journey.

(** * What a demonstration leaves is what it says *)

(** One bit of one byte is changed. *)
Lemma flip_neq x : u8 (N.lxor (b2n x) 1) ≠ x.
Proof. destruct x; vm_compute; discriminate. Qed.
Lemma window_position_bound needle l pos :
  needle ≠ [] → window_position needle l = Some pos → (pos < length l)%nat.
Proof.
  intros Hn. revert pos. induction l as [|x l IH]; intros pos; cbn [window_position].
  - rewrite take_nil. case_bool_decide; [by subst|done].
  - case_bool_decide; [intros [= <-]; cbn; lia|].
    intros (p & Hp & ->)%fmap_Some. apply IH in Hp. cbn. lia.
Qed.
Lemma tampered_one needle bytes bytes' :
  needle ≠ "" → tampered needle bytes = Ok bytes' →
  ∃ pos x y, bytes !! pos = Some x ∧ bytes' = <[pos := y]> bytes ∧ y ≠ x.
Proof.
  intros Hn. unfold tampered. intros (pos & Hp & Hb)%bind_Ok. injection Hb as <-. apply ok_or_Ok in Hp.
  assert (as_bytes needle ≠ []) as Hne by (by destruct needle).
  apply window_position_bound in Hp; [|done]. apply lookup_lt_is_Some_2 in Hp as [x Hx].
  exists pos, x, (u8 (N.lxor (b2n x) 1)). split_and!; [done| |apply flip_neq].
  unfold flip_at. apply list_eq. intros i. destruct (decide (i = pos)) as [->|Hi].
  - rewrite list_lookup_alter_eq, Hx. cbn. rewrite list_lookup_insert_eq; [done|]. by eapply lookup_lt_Some.
  - by rewrite list_lookup_alter_ne, list_lookup_insert_ne.
Qed.

(** Paths in a directory. *)
Lemma in_dir_neq dir a b : a ≠ b → dir +:+ a ≠ dir +:+ b.
Proof. intros Hab Heq%str_app_inj. done. Qed.
Lemma in_dir_not_dash dir name : dir +:+ ("/" +:+ name) ≠ "-".
Proof. destruct dir as [|c dir]; [done|]. rewrite !str_app_cons. intros [= _ Heq]. by destruct dir. Qed.

Lemma outside_dir_neq dir name path :
  starts_with (dir +:+ "/") path = false → dir +:+ ("/" +:+ name) ≠ path.
Proof.
  intros Hp <-. apply not_true_iff_false in Hp. apply Hp, starts_with_spec. exists name. by rewrite str_app_assoc.
Qed.
(** The text of a file among others of the directory. *)
Ltac lookup_in_dir :=
  repeat (rewrite lookup_insert_ne by (by apply in_dir_neq)); apply lookup_insert_eq.

Section demo_facts.
Context `{SerdeJsonReader, !SerdeJsonBuilder, Os, CliTexts, Hex, Base64Url, Sha2, SignatureSchemes, HashOrder, ReportTexts}.

Lemma say_Ok l w u w' : say l w = Some (Ok u, w') → w_files w' = w_files w.
Proof. by intros [= _ <-]. Qed.
Lemma write_file_Ok path text w u w' :
  write_file path text w = Some (Ok u, w') → w_files w' = <[path := text]> (w_files w).
Proof. unfold write_file. destruct (can_write path); by intros [= ? <-]. Qed.
Lemma demo_json_Ok path v w u w' :
  Demo.write_json path v w = Some (Ok u, w') → w_files w' = <[path := as_bytes (json_pretty v) ++ line_end]> (w_files w).
Proof. apply write_file_Ok. Qed.
(** The wrapper file of a proof. *)
Definition proof_file (id : string) (canonical : list byte) : list byte :=
  as_bytes (json_pretty (text_object [("kind", "proof"); ("id", id); ("cbor", cbor_to_hex canonical)])) ++ line_end.
Lemma proof_file_Ok dir name id canonical w u w' :
  write_proof_file (dir +:+ ("/" +:+ name)) id canonical w = Some (Ok u, w') →
  w_files w' = <[dir +:+ ("/" +:+ name) := proof_file id canonical]> (w_files w).
Proof.
  unfold write_proof_file, write_json. rewrite bool_decide_eq_false_2 by apply in_dir_not_dash. apply write_file_Ok.
Qed.

(** Steps that write, with the notes between them left out. *)
Ltac story_inv :=
  repeat match goal with
  | Hs : (_ ≫= _) _ = Some (Ok _, _) |- _ =>
      let a := fresh "a" in let w := fresh "w" in let Ha := fresh "Ha" in
      apply cmd_bind_Ok in Hs as (a & w & Ha & Hs)
  | Hs : pure _ _ = Some (Ok _, _) |- _ => apply pure_Ok in Hs as [Hs ->]
  | Hs : engine _ _ = Some (Ok _, _) |- _ => apply engine_Ok in Hs as [Hs ->]
  | Hs : fuelled _ _ = Some (Ok _, _) |- _ => apply fuelled_Ok in Hs as [Hs ->]
  | Hs : mret _ _ = Some (Ok _, _) |- _ => apply ret_Ok in Hs as [Hs ->]
  | Hs : check _ _ = Ok _ |- _ => apply check_Ok in Hs
  | Hs : say _ _ = Some (Ok _, _) |- _ => apply say_Ok in Hs
  | Hs : Demo.write_json _ _ _ = Some (Ok _, _) |- _ => apply demo_json_Ok in Hs
  | Hs : write_file _ _ _ = Some (Ok _, _) |- _ => apply write_file_Ok in Hs
  | Hs : write_proof_file (?d +:+ "/proof.cbor.json") _ _ _ = Some (Ok _, _) |- _ =>
      apply (proof_file_Ok d "proof.cbor.json") in Hs
  end.
(** The files through the worlds in between. *)
Ltac through_files := repeat match goal with Hw : w_files _ = _ |- _ => rewrite Hw; clear Hw end; reflexivity.

Lemma story_files w s w' : Demo.story w = Some (Ok s, w') → w_files w' = w_files w.
Proof. unfold Demo.story. intros Hs. story_inv. through_files. Qed.
Lemma fresh_step_Ok dir built w fresh w' :
  Demo.fresh_step dir built w = Some (Ok fresh, w') →
  verify_proof (bp_canonical built) (ctx_at Demo.T_FRESH [] false) = Some (Ok fresh) ∧
  verdict_exit fresh = EXIT_OK ∧ Forall (λ l, lc_status l = LifecycleStatus.Active) (vr_lifecycle fresh) ∧
  w_files w' = <[dir +:+ "/report-fresh.json" := as_bytes (json_pretty (Demo.fresh_document fresh)) ++ line_end]>
    (<[dir +:+ "/proof.cbor.json" := proof_file (bp_id built) (bp_canonical built)]> (w_files w)).
Proof.
  unfold Demo.fresh_step. cbv zeta. intros Hs. story_inv.
  match goal with Hb : _ = true |- _ => apply andb_true_iff in Hb as [[Hc He]%andb_true_iff Hl] end.
  subst. apply bool_decide_eq_true in Hc, He. split_and!; [done| | |through_files].
  - by apply verdict_exit_ok.
  - apply Forall_forall. intros l Hin%list_elem_of_In. rewrite forallb_forall in Hl.
    by apply Hl, bool_decide_eq_true in Hin.
Qed.
Lemma tamper_step_Ok built w u w' :
  Demo.tamper_step built w = Some (Ok u, w') →
  w_files w' = w_files w ∧
  ∃ bytes bad, tampered "invoice:i-demo" (bp_canonical built) = Ok bytes ∧
    verify_proof bytes (ctx_at Demo.T_FRESH [] true) = Some (Ok bad) ∧
    cryptographic_validity bad = Validity.Invalid ∧ ErrorCode.IdMismatch ∈ failure_codes bad.
Proof.
  unfold Demo.tamper_step. intros Hs. story_inv.
  match goal with Hb : _ = true |- _ => apply andb_true_iff in Hb as [Hc Hf] end.
  apply bool_decide_eq_true in Hc, Hf. split; [through_files|]. by do 2 eexists.
Qed.
Lemma dead_step_Ok dir s built w dead w' :
  Demo.dead_step dir s built w = Some (Ok dead, w') →
  ∃ rev, revoke_attestation (ca_id (Demo.st_att s)) (Some "chargeback: order cancelled") TEST_SEED Demo.T_REVOKED limits = Ok rev ∧
    verify_proof (bp_canonical built) (ctx_at Demo.T_AFTER [signed_status rev] true) = Some (Ok dead) ∧
    cryptographic_validity dead = Validity.Valid ∧ evidence_validity dead = Validity.Invalid ∧
    ErrorCode.Revoked ∈ failure_codes dead ∧
    w_files w' = <[dir +:+ "/report.json" := as_bytes (json_pretty (Demo.dead_document dead)) ++ line_end]>
      (<[dir +:+ "/status-revoke.json" := as_bytes (json_pretty (Demo.status_document rev)) ++ line_end]> (w_files w)).
Proof.
  unfold Demo.dead_step. cbv zeta. intros Hs. story_inv. subst.
  match goal with Hb : _ = true |- _ => apply andb_true_iff in Hb as [[Hc He]%andb_true_iff Hf] end.
  apply bool_decide_eq_true in Hc, He, Hf. eexists. split_and!; [eassumption..|]. through_files.
Qed.

(** C17: the demonstration tells the truth about what it leaves.  When it ends, for
    any primitives and in any world, it exits with 0; the bytes in its proof file
    verify at the fresh clock with both validities and every attestation active,
    one changed byte in them makes the same engine refuse them with an identifier
    mismatch, and with the revocation in its status file they are refused as
    revoked while the signatures stay valid; the two reports and the wrapper it
    leaves are those of these runs, and no file outside its directory changes. *)
Theorem demo_honest out_dir w code w' (Hrun : Demo.run out_dir w = Some (Ok code, w')) :
  code = EXIT_OK ∧
  ∃ built fresh bad dead rev bytes pos x y,
    let file name := w_files w' !! (out_dir +:+ name) in
    let printed v := Some (as_bytes (json_pretty v) ++ line_end) in
    file "/proof.cbor" = Some (bp_canonical built) ∧
    file "/proof.cbor.json" = Some (proof_file (bp_id built) (bp_canonical built)) ∧
    (verify_proof (bp_canonical built) (ctx_at Demo.T_FRESH [] false) = Some (Ok fresh) ∧
     verdict_exit fresh = EXIT_OK ∧ Forall (λ l, lc_status l = LifecycleStatus.Active) (vr_lifecycle fresh) ∧
     file "/report-fresh.json" = printed (Demo.fresh_document fresh)) ∧
    (bp_canonical built !! pos = Some x ∧ y ≠ x ∧ bytes = <[pos := y]> (bp_canonical built) ∧
     verify_proof bytes (ctx_at Demo.T_FRESH [] true) = Some (Ok bad) ∧
     cryptographic_validity bad = Validity.Invalid ∧ ErrorCode.IdMismatch ∈ failure_codes bad) ∧
    (file "/status-revoke.json" = printed (Demo.status_document rev) ∧
     verify_proof (bp_canonical built) (ctx_at Demo.T_AFTER [signed_status rev] true) = Some (Ok dead) ∧
     cryptographic_validity dead = Validity.Valid ∧ evidence_validity dead = Validity.Invalid ∧
     ErrorCode.Revoked ∈ failure_codes dead ∧ file "/report.json" = printed (Demo.dead_document dead)) ∧
    ∀ path, starts_with (out_dir +:+ "/") path = false → w_files w' !! path = w_files w !! path.
Proof.
  unfold Demo.run, create_dir_all in Hrun. story_inv.
  repeat match goal with
  | Hs : Demo.story _ = _ |- _ => apply story_files in Hs
  | Hs : Demo.fresh_step _ _ _ = _ |- _ => apply fresh_step_Ok in Hs as (Hvf & Hexit & Hact & Hwf)
  | Hs : Demo.tamper_step _ _ = _ |- _ => apply tamper_step_Ok in Hs as (Hwt & bytes & bad & Hb & Hvb & Hcb & Hfb)
  | Hs : Demo.dead_step _ _ _ _ = _ |- _ => apply dead_step_Ok in Hs as (rev & _ & Hvd & Hcd & Hed & Hfd & Hwd)
  end.
  apply tampered_one in Hb as (pos & x & y & Hx & Hy & Hne); [|done].
  match goal with Hd : context [Demo.dead_document ?d], He : context [Demo.fresh_document ?f],
    Hb : Demo.build_once _ = Ok ?b |- _ => split; [done|]; exists b, f, bad, d, rev, bytes, pos, x, y end.
  match goal with Hw : w_files ?v = w_files _ |- context [w_files ?v] =>
    assert (∃ text, w_files v = <[out_dir +:+ "/proof.cbor" := bp_canonical a1]>
      (<[out_dir +:+ "/explanation.txt" := text]>
      (<[out_dir +:+ "/report.json" := as_bytes (json_pretty (Demo.dead_document a4)) ++ line_end]>
      (<[out_dir +:+ "/status-revoke.json" := as_bytes (json_pretty (Demo.status_document rev)) ++ line_end]>
      (<[out_dir +:+ "/report-fresh.json" := as_bytes (json_pretty (Demo.fresh_document a2)) ++ line_end]>
      (<[out_dir +:+ "/proof.cbor.json" := proof_file (bp_id a1) (bp_canonical a1)]> (w_files w))))))) as [text ->]
      by (eexists; through_files) end.
  cbv beta zeta. split_and!; first [lookup_in_dir|exact Hvf|exact Hexit|exact Hact|exact Hx|exact Hne|exact Hy|exact Hvb
    |exact Hcb|exact Hfb|exact Hvd|exact Hcd|exact Hed|exact Hfd|idtac].
  intros path Hp. repeat (rewrite lookup_insert_ne by (by eapply outside_dir_neq)). done.
Qed.
End demo_facts.

(** * Sample runs *)

Module TourSamples.
Import Toy Toy.Reader GraphSamples FileSamples SessionSamples PortSamples.
#[export] Instance texts : ReportTexts := λ _ _, "message".
#[export] Instance terminal : Terminal := true.
(** A visitor who types a line per screen. *)
Definition visitor (l : list string) : World := mkWorld _ ∅ (Some (concat (map (λ s, as_bytes s ++ line_end) l))) [].
Definition printed_text (p : Printed) : string := match p with PrintedText s => s | _ => "" end.
(** Whether a run exits with 0 and prints a line that contains a text. *)
Definition shows (m : Cmd Z) (w : World) (text : string) : bool :=
  match m w with
  | Some (Ok code, w') => bool_decide (code = EXIT_OK) && existsb (λ p, str_contains text (printed_text p)) (w_stdout w')
  | _ => false
  end.
Definition demo_proof : list byte := Eval vm_compute in
  match Demo.run "d" no_files with
  | Some (_, w) => default [] (w_files w !! "d/proof.cbor")
  | None => []
  end.

(** The demonstration and the tour run to their end, and the visitor can leave. *)
Example scripts_end :
  shows (Demo.run "d") no_files "demo complete" = true ∧
  shows Journey.run (visitor (repeat "" 8)) "Tour complete" = true ∧
  shows Journey.run (visitor [""; "quit"]) "Tour complete" = false ∧
  shows Journey.run (visitor [""; "quit"]) "Proof ID" = true.
Proof. vm_compute. split_and!; reflexivity. Qed.
(** The two domains have different proofs. *)
Example tour_domains_differ : match Journey.tour_proof_ids with Ok (a, b) => bool_decide (a ≠ b) | Err _ => false end = true.
Proof. vm_compute. reflexivity. Qed.
(** The step announced as verifying the same way as the fresh one asks for a
    status feed: it refuses the untouched bytes, too. *)
Example untampered_refused :
  match verify_proof demo_proof (ctx_at Demo.T_FRESH [] true) with
  | Some (Ok r) => bool_decide (verdict_exit r = EXIT_FAIL)
  | _ => false
  end = true.
Proof. vm_compute. reflexivity. Qed.
End TourSamples.

Section tour_witnesses.
Import Toy Toy.Reader GraphSamples FileSamples SessionSamples PortSamples TourSamples.

Lemma demo_honest_witness : ∃ w' built fresh,
  Demo.run "d" no_files = Some (Ok EXIT_OK, w') ∧
  verify_proof (bp_canonical built) (ctx_at Demo.T_FRESH [] false) = Some (Ok fresh) ∧ verdict_exit fresh = EXIT_OK.
Proof.
  destruct (run_check (Demo.run "d") no_files (λ z _, bool_decide (z = EXIT_OK))) as (z & w' & Hr & Hz);
    [vm_compute; reflexivity|].
  apply bool_decide_eq_true in Hz. subst z.
  destruct (demo_honest "d" no_files EXIT_OK w' Hr) as (_ & built & fresh & _ & _ & _ & _ & _ & _ & _ & _ & _ & (Hv & He & _) & _).
  exists w', built, fresh. exact (conj Hr (conj Hv He)).
Defined.
End tour_witnesses.
