(* ===== verification/Main.v ===== *)
(** Main: the dispatcher of the command line, [crates/proof-cli/src/main.rs].

    [run] parses the arguments, answers requests for help, runs the command and
    turns its outcome into an exit code.

    The theorems: every invocation ends, with one of the three documented codes,
    and the code for a failed verdict is left to the commands that give verdicts. *)
From Stdlib Require Import Strings.Byte NArith ZArith Lia.
From S2P Require Import Prelude Text Core External Cbor Schema Graph Ident Claim Cose Store.
From S2P Require Import Report Pipeline PipelineFacts Verdicts Builder Envelope Resolve.
From S2P Require Import Policy State Eval Context Combine Api Cli Files Commands Port View Explain Help Tour.

(** * Exit codes *)

(** A command that comes back. *)
Definition returns `{SerdeJson} {A} (P : A → Prop) (m : Cmd A) : Prop :=
  ∀ w, ∃ r w', m w = Some (r, w') ∧ ∀ a, r = Ok a → P a.
(** The documented exit codes. *)
Definition EXIT_CODES : list Z := [EXIT_OK; EXIT_FAIL; EXIT_ERR].
(** * Dispatch *)

Section dispatch.
Context `{SerdeJsonReader, !SerdeJsonBuilder, Os, CliTexts, Hex, Base64Url, Sha2, SignatureSchemes, HashOrder, ClaimOrder, UnicodeCase, Environment, ReportTexts, Terminal, Surroundings}.

(** [.map(|_| EXIT_OK)]. *)
Definition finished {A} (m : Cmd A) : Cmd Z := _ ← m; mret EXIT_OK.

Definition completion (cli : Cli) : Cmd Z :=
  match or_else (opt cli "shell") (head (cli_positional cli)) with
  | Some shell =>
      match completion_script shell with
      | Some script => finished (print (PrintedText script))
      | None => fails Other
      end
  | None => fails Other
  end.

Definition COMMAND_TABLE : list (string * (Cli → Cmd Z)) :=
  [ ("create-event", λ cli, finished (write_event cli));
    ("attest", λ cli, finished (write_attestation cli));
    ("add-evidence", λ cli, finished (write_evidence cli));
    ("relate", λ cli, finished (write_relationship cli));
    ("revoke", λ cli, finished (write_status_object cli "revoke"));
    ("supersede", λ cli, finished (write_status_object cli "supersede"));
    ("withdraw", λ cli, finished (write_status_object cli "withdraw"));
    ("compromise", λ cli, finished (write_status_object cli "compromise"));
    ("build", λ cli, finished (build_command cli));
    ("verify", verify);
    ("evaluate", λ cli, evaluate cli false);
    ("explain", λ cli, evaluate cli true);
    ("inspect", λ cli, finished (inspect cli));
    ("id", λ cli, v ← id_value cli; finished (print (PrintedText v)));
    ("commit", λ cli, finished (commit_value cli));
    ("graph", λ cli, finished (graph cli));
    ("export", λ cli, finished (export cli));
    ("import", λ cli, finished (import cli));
    ("convert", λ cli, finished (convert cli));
    ("compose", λ cli, finished (compose cli));
    ("resolve", resolve_command);
    ("batch-verify", batch_verify);
    ("ingest", ingest);
    ("init-policy", λ cli, finished (init_policy cli));
    ("doctor", doctor);
    ("completion", completion);
    ("version", λ _, finished (print (PrintedText VERSION_INFO)));
    ("demo", λ cli, if has cli "interactive" then Journey.run else Demo.run (demo_dir cli)) ].
Definition dispatch (cli : Cli) : Cmd Z :=
  match List.find (λ p, bool_decide (p.1 = cli_command cli)) COMMAND_TABLE with
  | Some (_, command) => command cli
  | None => fails Other
  end.

(** Help on a topic, or on the command. *)
Definition help (cli : Cli) : Cmd Z :=
  match cli_positional cli with
  | topic :: _ =>
      match command_help topic with
      | Some text => finished (print (PrintedText text))
      | None => fails Other
      end
  | [] => finished (print (PrintedText USAGE))
  end.
Definition run_cli (cli : Cli) : Cmd Z :=
  if bool_decide (cli_command cli = "help") then help cli
  else if has cli "help" then finished (print (PrintedText (default USAGE (command_help (cli_command cli)))))
  else dispatch cli.
(** The exit code of the process; [None] is a run that does not end. *)
Definition run (args : list string) (w : World) : option (Z * World) :=
  match parse args with
  | Err _ => Some (EXIT_ERR, w)
  | Ok cli =>
      match run_cli cli w with
      | Some (Ok code, w') => Some (code, w')
      | Some (Err _, w') => Some (EXIT_ERR, w')
      | None => None
      end
  end.
End dispatch.

(** * Every invocation ends *)

Section returning.
Context `{SerdeJson}.

Lemma returns_ret {A} (P : A → Prop) a : P a → returns P (mret a).
Proof. intros Hp w. eexists _, _. split; [done|]. naive_solver. Qed.
Lemma returns_bind {A B} (P : B → Prop) (m : Cmd A) (f : A → Cmd B) :
  returns (λ _, True) m → (∀ a, returns P (f a)) → returns P (m ≫= f).
Proof.
  intros Hm Hf w. destruct (Hm w) as ([a|e] & w' & Hr & _); unfold mbind, cmd_bind; rewrite Hr; [apply Hf|].
  by eexists _, _.
Qed.
Lemma returns_pure {A} (r : CliResult A) : returns (λ _, True) (pure r).
Proof. intros w. by eexists _, _. Qed.
Lemma returns_fails {A} (P : A → Prop) e : returns P (fails e).
Proof. intros w. by eexists _, _. Qed.
Lemma returns_engine {A} (r : Result A) : returns (λ _, True) (engine r).
Proof. apply returns_pure. Qed.
Lemma returns_fuelled {A} (r : option (Result A)) : is_Some r → returns (λ _, True) (fuelled r).
Proof. intros [r' ->] w. by eexists _, _. Qed.
Lemma returns_attempt {A} (m : Cmd A) : returns (λ _, True) m → returns (λ _, True) (attempt m).
Proof. intros Hm w. destruct (Hm w) as (r & w' & Hr & _). unfold attempt. rewrite Hr. by eexists _, _. Qed.
Lemma returns_world : returns (λ _, True) get_world.
Proof. intros w. by eexists _, _. Qed.
Lemma returns_print p : returns (λ _, True) (print p).
Proof. intros w. by eexists _, _. Qed.
Lemma returns_each {A B} (f : A → Cmd B) l :
  (∀ x, returns (λ _, True) (f x)) → returns (λ _, True) (each f l).
Proof.
  intros Hf. induction l as [|x l IH]; [by apply returns_ret|]. cbn [each].
  apply returns_bind; [done|intros y]. apply returns_bind; [done|intros ys]. by apply returns_ret.
Qed.
Lemma returns_weaken {A} (P Q : A → Prop) m : returns P m → (∀ a, P a → Q a) → returns Q m.
Proof. intros Hm Hpq w. destruct (Hm w) as (r & w' & Hr & Hp). exists r, w'. naive_solver. Qed.
End returning.

Create HintDb returning.
#[export] Hint Resolve returns_pure returns_fails returns_engine returns_world returns_print : returning.

(** Walks through the body of a command; what the hints do not know is left. *)
Ltac returning :=
  repeat first
    [ progress intros
    | solve [auto with returning]
    | apply returns_bind
    | apply returns_ret
    | apply returns_attempt
    | apply returns_each
    | match goal with
      | |- returns _ (match ?x with _ => _ end) => destruct x
      | |- returns _ (let '_ := ?x in _) => destruct x
      | |- returns _ (if ?x then _ else _) => destruct x
      end ].

Section inputs_return.
Context `{SerdeJsonReader, !SerdeJsonBuilder, Os, CliTexts, Hex, Base64Url, Sha2, SignatureSchemes}.

Lemma returns_stdin : returns (λ _, True) read_stdin_bytes.
Proof. intros w. unfold read_stdin_bytes. destruct (w_stdin w); by eexists _, _. Qed.
Lemma returns_write_file path text : returns (λ _, True) (write_file path text).
Proof. intros w. unfold write_file. destruct (can_write path); by eexists _, _. Qed.
#[local] Hint Resolve returns_stdin returns_write_file : returning.

Lemma returns_file path : returns (λ _, True) (read_file_bytes path).
Proof. unfold read_file_bytes. returning. Qed.
#[local] Hint Resolve returns_file : returning.
Lemma returns_read_input_bytes path : returns (λ _, True) (read_input_bytes path).
Proof. unfold read_input_bytes. returning. Qed.
Lemma returns_read_input_file path : returns (λ _, True) (read_input_file path).
Proof. unfold read_input_file, utf8_text. returning. Qed.
#[local] Hint Resolve returns_read_input_file : returning.
Lemma returns_read_input_text path : returns (λ _, True) (read_input_text path).
Proof. unfold read_input_text, read_stdin_text, utf8_text. returning; done. Qed.
#[local] Hint Resolve returns_read_input_text : returning.
Lemma returns_read_json path : returns (λ _, True) (read_json path).
Proof. unfold read_json, parse_json. returning. Qed.
Lemma returns_write_json path v : returns (λ _, True) (write_json path v).
Proof. unfold write_json. returning. Qed.
#[local] Hint Resolve returns_read_json returns_write_json returns_read_input_bytes : returning.
Lemma returns_wrapper path allowed : returns (λ _, True) (read_wrapper path allowed).
Proof. unfold read_wrapper. returning; done. Qed.
#[local] Hint Resolve returns_wrapper : returning.
Lemma returns_load_event path : returns (λ _, True) (load_event path).
Proof. unfold load_event. returning. Qed.
Lemma returns_load_attestation path : returns (λ _, True) (load_attestation path).
Proof. unfold load_attestation. returning; done. Qed.
Lemma returns_load_evidence path : returns (λ _, True) (load_evidence path).
Proof. unfold load_evidence. returning. Qed.
Lemma returns_load_relationship path : returns (λ _, True) (load_relationship path).
Proof. unfold load_relationship. returning. Qed.
Lemma returns_load_status path : returns (λ _, True) (load_status path).
Proof. unfold load_status. returning; done. Qed.
Lemma returns_load_proof path : returns (λ _, True) (load_proof path).
Proof. unfold load_proof, parse_json. returning. Qed.
Lemma returns_load_key cli : returns (λ _, True) (load_key_opt cli).
Proof. unfold load_key_opt. returning. Qed.
Lemma returns_digest cli file_flag hex_flag : returns (λ _, True) (digest_input cli file_flag hex_flag).
Proof. unfold digest_input. returning. Qed.
Lemma returns_document d out : returns (λ _, True) (write_document d out).
Proof. unfold write_document. returning. Qed.
Lemma returns_emit report out : returns (λ _, True) (emit_report report out).
Proof. unfold emit_report. returning. Qed.
Lemma returns_gate req id : returns (λ _, True) (gate req id).
Proof. unfold gate, load_seen. returning; done. Qed.
Lemma returns_mkdir dir : returns (λ _, True) (create_dir_all dir).
Proof. apply returns_pure. Qed.
End inputs_return.

#[export] Hint Resolve returns_read_input_bytes returns_read_input_file returns_read_input_text : returning.
#[export] Hint Resolve returns_write_file returns_read_json returns_write_json returns_load_event : returning.
#[export] Hint Resolve returns_load_attestation returns_load_evidence returns_load_relationship : returning.
#[export] Hint Resolve returns_load_status returns_load_proof returns_load_key returns_digest : returning.
#[export] Hint Resolve returns_document returns_emit returns_gate returns_mkdir : returning.

(** ** The calls of the engine end *)

Section engine_ends.
Context `{Base64UrlLaws, Sha2, SignatureSchemes, HashOrderLaws}.

Lemma verify_proof_ends bytes ctx : is_Some (verify_proof bytes ctx).
Proof. destruct (verify_proof_total_cases bytes ctx) as [(e & -> & _)|(r & -> & _)]; done. Qed.
Lemma batch_ends l ctx max : is_Some (verify_batch l ctx max).
Proof.
  unfold verify_batch. destruct (max <? len l); [done|]. generalize (mkBatchReport [] 0 0). generalize 0.
  induction l as [|bytes l IH]; intros index acc; [done|]. cbn [batch_loop].
  destruct (verify_proof_ends bytes ctx) as [[report|e] ->]; cbn [mbind option_bind]; [apply IH|done].
Qed.
Lemma evaluate_ends state policy inputs :
  is_Some (Ok (E := ErrorCode.t) <$> evaluate_policy state policy inputs).
Proof. destruct (evaluate_policy_spec state inputs policy) as (o & -> & _). done. Qed.
Lemma validate_ends edges nodes limits extra :
  is_Some (validate_graph_with_grounding edges nodes limits extra).
Proof. destruct (validate_graph_spec edges nodes limits extra) as [[r ->] _]. done. Qed.
Lemma derivation_ends edges nodes : is_Some (check_derivation_acyclic edges nodes).
Proof. destruct (derivation_spec edges nodes) as [[-> _]|[-> _]]; done. Qed.
End engine_ends.
Section resolve_ends.
Context `{Base64UrlLaws, Sha2, SignatureSchemes, HashOrderLaws} `{ArtifactStore St}.
Lemma resolve_ends bytes (store : St) ctx max : is_Some (resolve_proof_chain bytes store ctx max).
Proof.
  destruct (misuse ctx) eqn:Hm.
  - unfold resolve_proof_chain. by destruct (verify_proof_misuse bytes ctx Hm) as (e & -> & _).
  - by destruct (resolve_spec store ctx max bytes Hm) as (rr & -> & _).
Qed.
End resolve_ends.
#[export] Hint Resolve verify_proof_ends batch_ends evaluate_ends validate_ends derivation_ends resolve_ends : returning.
#[export] Hint Resolve returns_fuelled : returning.

(** ** The commands end *)

(** The commands whose answer is a verdict. *)
Definition VERDICT_COMMANDS : list string :=
  ["verify"; "evaluate"; "explain"; "batch-verify"; "resolve"; "ingest"; "doctor"].

Section commands_end.
Context `{SerdeJsonReader, !SerdeJsonBuilder, Os, CliTexts, Hex, Base64UrlLaws, Sha2, SignatureSchemes}.
Context `{HashOrderLaws, ClaimOrder, UnicodeCase, Environment, ReportTexts, Terminal, Surroundings}.

Lemma codes_ok : EXIT_OK ∈ EXIT_CODES. Proof. by left. Qed.
Lemma codes_fail : EXIT_FAIL ∈ EXIT_CODES. Proof. right. by left. Qed.
Lemma codes_err : EXIT_ERR ∈ EXIT_CODES. Proof. do 2 right. by left. Qed.
Lemma codes_verdict report : verdict_exit report ∈ EXIT_CODES.
Proof. unfold verdict_exit. destruct (_ && _); [apply codes_ok|apply codes_fail]. Qed.
#[local] Hint Resolve codes_ok codes_fail codes_verdict : core.
Ltac codes := repeat case_match; auto.

Lemma returns_verify_unloaded cli c vp path e :
  returns (λ z, z ∈ EXIT_CODES) (verify_unloaded cli c vp path e).
Proof.
  unfold verify_unloaded, load_proof_bytes_raw, load_statuses_lenient, parse_json. returning; codes.
  intros w. destruct (verify_proof_ends a (cli_ctx cli c vp a0)) as [r ->]. by eexists _, _.
Qed.
Lemma returns_verify cli : returns (λ z, z ∈ EXIT_CODES) (verify cli).
Proof.
  unfold verify, verify_loaded, load_statuses. returning; first [apply returns_verify_unloaded|codes].
Qed.
Lemma returns_batch cli : returns (λ z, z ∈ EXIT_CODES) (batch_verify cli).
Proof. unfold batch_verify, load_statuses. returning; codes. Qed.
Lemma returns_evaluate cli explain : returns (λ z, z ∈ EXIT_CODES) (evaluate cli explain).
Proof. unfold evaluate, load_statuses, parse_json. returning; codes. Qed.
Lemma returns_resolve cli : returns (λ z, z ∈ EXIT_CODES) (resolve_command cli).
Proof. unfold resolve_command, open_store, load_statuses. returning; codes. Qed.
Lemma returns_ingest_line v dir dry : returns (λ _, True) (ingest_line v dir dry).
Proof. unfold ingest_line. returning; done. Qed.
#[local] Hint Resolve returns_ingest_line : returning.
Lemma returns_ingest_lines dir dry skip l : ∀ n, returns (λ _, True) (ingest_lines dir dry skip l n).
Proof. induction l as [|raw l IH]; intros n; cbn [ingest_lines]; returning; try apply IH; done. Qed.
#[local] Hint Resolve returns_ingest_lines : returning.
Lemma returns_ingest cli : returns (λ z, z ∈ EXIT_CODES) (ingest cli).
Proof. unfold ingest. returning; codes. Qed.

Lemma returns_build cli : returns (λ _, True) (build_command cli).
Proof.
  unfold build_command, created_event, created_evidence, created_relationship, write_proof_file.
  returning; done.
Qed.
Lemma returns_init_policy cli : returns (λ _, True) (init_policy cli).
Proof. unfold init_policy, policy_issuer, inferred_vocabulary, parse_json. returning; done. Qed.
Lemma returns_unite paths : ∀ u, returns (λ _, True) (unite u paths).
Proof. induction paths as [|p paths IH]; intros u; cbn [unite]; returning; try apply IH; done. Qed.
Lemma returns_union_graph paths : ∀ acc, returns (λ _, True) (union_graph acc paths).
Proof. induction paths as [|p paths IH]; intros acc; cbn [union_graph]; returning; try apply IH; done. Qed.
#[local] Hint Resolve returns_unite returns_union_graph : returning.
Lemma returns_compose cli : returns (λ _, True) (compose cli).
Proof. unfold compose, write_proof_file. returning; done. Qed.
Lemma returns_finished {A} (m : Cmd A) : returns (λ _, True) m → returns (λ z, z = EXIT_OK) (finished m).
Proof. intros Hm. apply returns_bind; [done|]. intros _. by apply returns_ret. Qed.

(** The commands that write one thing. *)
Lemma returns_writers cli kind :
  returns (λ _, True) (write_event cli) ∧ returns (λ _, True) (write_attestation cli) ∧
  returns (λ _, True) (write_evidence cli) ∧ returns (λ _, True) (write_relationship cli) ∧
  returns (λ _, True) (write_status_object cli kind).
Proof.
  unfold write_event, write_attestation, write_evidence, write_relationship, write_status_object.
  split_and!; returning; done.
Qed.
Lemma returns_transport cli :
  returns (λ _, True) (export cli) ∧ returns (λ _, True) (import cli) ∧ returns (λ _, True) (convert cli) ∧
  returns (λ _, True) (commit_value cli) ∧ returns (λ _, True) (id_value cli).
Proof.
  unfold export, import, convert, commit_value, commit_secret, id_value, parse_json.
  split_and!; returning; done.
Qed.
Lemma returns_views cli :
  returns (λ _, True) (inspect cli) ∧ returns (λ _, True) (graph cli) ∧ returns (λ z, z ∈ EXIT_CODES) (doctor cli).
Proof.
  unfold inspect, inspect_artifact, graph, doctor, parse_json. split_and!; returning; codes.
Qed.

(** The scripts end, and never with a failed verdict. *)
Lemma returns_say l : returns (λ _, True) (say l).
Proof. apply returns_print. Qed.
Lemma returns_pause : returns (λ _, True) Journey.pause.
Proof.
  apply returns_bind; [apply returns_say|intros _ w]. unfold Journey.read_answer.
  destruct (w_stdin w) as [input|]; [destruct (Journey.split_line input)|]; by eexists _, _.
Qed.
Lemma returns_then_pause {A} (m : Cmd A) k :
  returns (λ _, True) m → (∀ a, returns (λ z, z = EXIT_OK) (k a)) → returns (λ z, z = EXIT_OK) (Journey.then_pause m k).
Proof.
  intros Hm Hk. apply returns_bind; [done|intros a]. apply returns_bind; [apply returns_pause|intros []]; [apply Hk|].
  by apply returns_ret.
Qed.
#[local] Hint Resolve returns_say : returning.
Lemma returns_write_demo_json path v : returns (λ _, True) (Demo.write_json path v).
Proof. apply returns_write_file. Qed.
Lemma returns_proof_file path id bytes : returns (λ _, True) (write_proof_file path id bytes).
Proof. apply returns_write_json. Qed.
#[local] Hint Resolve returns_write_demo_json returns_proof_file : returning.
Lemma returns_demo dir : returns (λ z, z = EXIT_OK) (Demo.run dir).
Proof. unfold Demo.run, Demo.story, Demo.fresh_step, Demo.tamper_step, Demo.dead_step. returning; done. Qed.
Lemma tour_evaluate_ends report proof policy trusted : is_Some (Journey.evaluate report proof policy trusted).
Proof.
  unfold Journey.evaluate. destruct (parse_policy _ _); [|done]. destruct (state_from_report_and_proof _ _); [|done].
  apply evaluate_ends.
Qed.
Lemma verify_at_ends bytes at_ statuses : is_Some (Journey.verify_at bytes at_ statuses).
Proof. apply verify_proof_ends. Qed.
#[local] Hint Resolve tour_evaluate_ends verify_at_ends : returning.
Lemma returns_screen_build : returns (λ _, True) Journey.screen_build.
Proof. unfold Journey.screen_build, Journey.screen. returning; done. Qed.
Lemma returns_screens tour fresh :
  returns (λ _, True) (Journey.screen_inspect tour) ∧ returns (λ _, True) (Journey.screen_verify tour) ∧
  returns (λ _, True) (Journey.screen_policy tour fresh) ∧ returns (λ _, True) (Journey.screen_tamper tour) ∧
  returns (λ _, True) (Journey.screen_revoke tour) ∧ returns (λ _, True) (Journey.screen_supersede tour).
Proof.
  unfold Journey.screen_inspect, Journey.screen_verify, Journey.screen_policy, Journey.screen_tamper,
    Journey.screen_revoke, Journey.screen_supersede, Journey.drawn_proof, Journey.screen.
  split_and!; returning; done.
Qed.
Lemma returns_screen_neutrality : returns (λ _, True) Journey.screen_neutrality.
Proof. unfold Journey.screen_neutrality, Journey.drawn_proof, Journey.screen. returning; done. Qed.
Lemma returns_journey : returns (λ z, z = EXIT_OK) Journey.run.
Proof.
  unfold Journey.run. destruct (negb _); [apply returns_fails|].
  apply returns_then_pause; [apply returns_each; intros l; apply returns_say|intros _].
  apply returns_then_pause; [apply returns_screen_build|intros tour].
  apply returns_then_pause; [apply (returns_screens tour (early_exit None []))|intros _].
  apply returns_then_pause; [apply (returns_screens tour (early_exit None []))|intros fresh].
  destruct (returns_screens tour fresh) as (_ & _ & Hp & Ht & Hr & Hs).
  do 4 (apply returns_then_pause; [assumption|intros _]).
  apply returns_bind; [apply returns_screen_neutrality|intros _]. by apply returns_ret.
Qed.

(** A command ends with a documented code, and a failed verdict is left to the
    commands that give one. *)
Definition answers (name : string) (m : Cmd Z) : Prop :=
  returns (λ z, z ∈ EXIT_CODES ∧ (z = EXIT_FAIL → name ∈ VERDICT_COMMANDS)) m.
Lemma answers_finished {A} name (m : Cmd A) : returns (λ _, True) m → answers name (finished m).
Proof. intros Hm%returns_finished. eapply returns_weaken; [exact Hm|]. by intros ? ->. Qed.
Lemma answers_fails name e : answers name (fails e).
Proof. apply returns_fails. Qed.
Lemma answers_verdict name (m : Cmd Z) :
  bool_decide (name ∈ VERDICT_COMMANDS) = true → returns (λ z, z ∈ EXIT_CODES) m → answers name m.
Proof. intros Hn%bool_decide_eq_true Hm. eapply returns_weaken; [exact Hm|]. done. Qed.

Lemma commands_answer cli : Forall (λ p, answers p.1 (p.2 cli)) COMMAND_TABLE.
Proof.
  pose proof (returns_writers cli) as Hw. pose proof (returns_transport cli) as Ht. pose proof (returns_views cli) as Hv.
  unfold COMMAND_TABLE. repeat (apply Forall_cons; split); [..|by apply Forall_nil]; cbn [fst snd];
    first
    [ apply answers_finished; first
        [ apply (Hw "") | apply Hw | apply Ht | apply returns_build | apply returns_init_policy
        | apply returns_compose | apply returns_print | apply Hv ]
    | apply answers_verdict; [reflexivity|]; first
        [ apply returns_verify | apply returns_evaluate | apply returns_batch | apply returns_resolve
        | apply returns_ingest | apply Hv ]
    | idtac ].
  - apply returns_bind; [apply Ht|intros v]. apply answers_finished, returns_print.
  - unfold completion. destruct (or_else _ _) as [shell|]; [|apply answers_fails].
    destruct (completion_script shell); [apply answers_finished, returns_print|apply answers_fails].
  - eapply (returns_weaken (λ z, z = EXIT_OK)); [|by intros ? ->].
    destruct (has cli "interactive"); [apply returns_journey|apply returns_demo].
Qed.
Lemma dispatch_answers cli : answers (cli_command cli) (dispatch cli).
Proof.
  unfold dispatch. destruct (List.find _ _) as [[name command]|] eqn:Hf; [|apply answers_fails].
  apply List.find_some in Hf as [Hin Hn]. case_bool_decide as Hname; [|done]. cbn in Hname. subst name.
  apply list_elem_of_In in Hin. exact (proj1 (Forall_forall _ _) (commands_answer cli) _ Hin).
Qed.
Lemma run_cli_answers cli : answers (cli_command cli) (run_cli cli).
Proof.
  unfold run_cli, help. case_bool_decide.
  - destruct (cli_positional cli) as [|topic rest]; [apply answers_finished, returns_print|].
    destruct (command_help topic); [apply answers_finished, returns_print|apply answers_fails].
  - destruct (has cli "help"); [apply answers_finished, returns_print|apply dispatch_answers].
Qed.

(** C12: every invocation ends, with a documented exit code.  Whatever the
    arguments, the files and the standard input, the program returns 0, 1 or 2;
    and 1, the code of a failed verdict, only from a parsed command that gives a
    verdict. *)
Theorem run_exits args w :
  ∃ code w', run args w = Some (code, w') ∧ code ∈ EXIT_CODES ∧
    (code = EXIT_FAIL → ∃ cli, parse args = Ok cli ∧ cli_command cli ∈ VERDICT_COMMANDS).
Proof.
  unfold run. destruct (parse args) as [cli|e]; [|exists EXIT_ERR, w; split_and!; [done|apply codes_err|done]].
  destruct (run_cli_answers cli w) as ([code|e] & w' & -> & Hp); [|exists EXIT_ERR, w'; split_and!; [done|apply codes_err|done]].
  destruct (Hp code eq_refl) as [Hc Hf]. exists code, w'. split_and!; [done|done|]. eauto.
Qed.
End commands_end.

(** * The commands that are listed are the commands that run *)

(** The keys of a table. *)
Lemma find_key {A} (table : list (string * A)) k :
  is_Some (List.find (λ p, bool_decide (p.1 = k)) table) ↔ k ∈ map fst table.
Proof.
  induction table as [|[name a] table IH]; cbn; [rewrite elem_of_nil; split; [by intros []|done]|].
  rewrite elem_of_cons. case_bool_decide; naive_solver.
Qed.
(** Lists with the same elements, by evaluation. *)
Lemma same_keys (l k : list string) :
  forallb (λ s, bool_decide (s ∈ k)) l && forallb (λ s, bool_decide (s ∈ l)) k = true → ∀ s, s ∈ l ↔ s ∈ k.
Proof.
  intros [Hl Hk]%andb_true_iff s. rewrite forallb_forall in Hl, Hk. rewrite !list_elem_of_In.
  split; intros Hs; [apply Hl in Hs|apply Hk in Hs]; by apply bool_decide_eq_true, list_elem_of_In in Hs.
Qed.

Section listed.
Context `{SerdeJsonReader, !SerdeJsonBuilder, Os, CliTexts, Hex, Base64Url, Sha2, SignatureSchemes}.
Context `{HashOrder, ClaimOrder, UnicodeCase, Environment, ReportTexts, Terminal, Surroundings}.

Lemma table_keys name : name ∈ map fst COMMANDS ↔ name ∈ "help" :: map fst COMMAND_TABLE.
Proof. apply same_keys. vm_compute. reflexivity. Qed.

(** The commands that are listed, that have help, that run and that have a flag
    table are the same.  For every name, it is listed (and completed by the shell)
    exactly when it has a help topic, and exactly when it is [help] or a handler is
    dispatched on it; every handler but that of [version] has a flag table; and a
    name that is not listed is refused without touching the world, unless help is
    asked for. *)
Theorem commands_documented name :
  (name ∈ map fst COMMANDS ↔ is_Some (command_help name)) ∧
  (name ∈ map fst COMMANDS ↔ name = "help" ∨ name ∈ map fst COMMAND_TABLE) ∧
  (name ∈ map fst COMMAND_TABLE ↔ name = "version" ∨ is_Some (allowed_flags name)) ∧
  (name ∉ map fst COMMANDS → ∀ cli w, cli_command cli = name → has cli "help" = false →
   run_cli cli w = Some (Err Other, w)).
Proof.
  split_and!.
  - unfold command_help. rewrite fmap_is_Some, find_key. apply same_keys. vm_compute. reflexivity.
  - rewrite table_keys, elem_of_cons. done.
  - assert (is_Some (allowed_flags name) ↔ name ∈ map fst COMMAND_FLAGS) as ->.
    { rewrite <- find_key. unfold allowed_flags. destruct (List.find _ _) as [[]|]; naive_solver. }
    rewrite <- elem_of_cons. apply same_keys. vm_compute. reflexivity.
  - rewrite table_keys, elem_of_cons. intros Hn cli w Hc Hh. unfold run_cli, dispatch. rewrite Hc, Hh.
    rewrite bool_decide_eq_false_2 by naive_solver.
    destruct (List.find _ COMMAND_TABLE) as [[k f]|] eqn:Hf; [|done].
    destruct Hn. right. apply find_key. by rewrite Hf.
Qed.
End listed.

(** * Sample invocations *)

Module MainSamples.
Import Toy Toy.Reader GraphSamples FileSamples SessionSamples PortSamples TourSamples.
(** An empty environment. *)
#[export] Instance nowhere : Environment := {|
  cli_version := "1"; fixtures_dir := None; path_exists _ := false; read_dir _ := None |}.
#[export] Instance rootless : Surroundings := {|
  current_exe := None; current_dir := None; is_file _ := false; is_dir _ := false |}.

(** The exit codes of a sequence of invocations. *)
Fixpoint session_codes (l : list (list string)) (w : World) : list Z :=
  match l with
  | [] => []
  | args :: l' => match run args w with Some (code, w') => code :: session_codes l' w' | None => [] end
  end.
Definition create_args : list string :=
  ["create-event"; "--type"; "payment.created"; "--subject"; "acct:1"; "--effective-at"; "5";
   "--payload-hex"; digest_hex; "--out"; "e.json"].
Definition attest_args : list string :=
  ["attest"; "--seed"; "test"; "--subject"; "evt:v1:00"; "--claim-type"; "observed"; "--claim"; "order=ord-1";
   "--issued-at"; "100"; "--out"; "a.json"].
Definition build_args : list string :=
  ["build"; "--kind"; "payment"; "--subject"; "acct:1"; "--predicate"; "settled"; "--created-at"; "150";
   "--events"; "e.json"; "--attestations"; "a.json"; "--out"; "p.json"].
Definition verify_args : list string := ["verify"; "--proof"; "p.json"] ++ check_flags.
End MainSamples.

Section main_witnesses.
Import Toy Toy.Reader GraphSamples FileSamples SessionSamples PortSamples TourSamples MainSamples.

Lemma run_exits_witness :
  ∃ code w', run ("evaluate" :: evaluate_args) no_files = Some (code, w') ∧ code ∈ EXIT_CODES.
Proof.
  destruct (run_exits ("evaluate" :: evaluate_args) no_files) as (code & w' & Hr & Hc & _).
  exists code, w'. exact (conj Hr Hc).
Defined.

(** A session: the artifacts are made and verified once, the second verification
    is a replay, and a missing file is an error. *)
Example session_sample :
  session_codes [create_args; attest_args; build_args; verify_args; verify_args ++ seen_flags;
                 verify_args ++ seen_flags; ["verify"; "--proof"; "q.json"] ++ check_flags] no_files =
  [EXIT_OK; EXIT_OK; EXIT_OK; EXIT_OK; EXIT_OK; EXIT_FAIL; EXIT_ERR].
Proof. vm_compute. reflexivity. Qed.
(** The demonstration leaves files that the other commands accept: its proof is
    verified, and refused with the status object it wrote. *)
Example demo_session :
  session_codes [["demo"; "--out"; "d"];
    ["verify"; "d/proof.cbor.json"; "--clock"; "1700000300"; "--revocations-known-at"; "1700000300"; "--no-require-status"];
    ["verify"; "d/proof.cbor.json"; "--clock"; "1700000500"; "--revocations-known-at"; "1700000500"; "--status";
     "d/status-revoke.json"]; ["help"; "demo"]; ["completion"; "bash"]; ["completion"; "tcsh"]] no_files =
  [EXIT_OK; EXIT_OK; EXIT_FAIL; EXIT_OK; EXIT_OK; EXIT_ERR].
Proof. vm_compute. reflexivity. Qed.
End main_witnesses.
